(* ===== verification/_CoqProject ===== *)
-Q . S2P
Prelude.v
Schema.v
Lmdb.v
Capture.v
World.v
Store.v
StoreRead.v
StoreSpec.v
StoreProof.v
StoreReads.v
StoreWrites.v
Loader.v
Concurrent.v
StoreInv.v
Scans.v
Reader.v
Mem.v
MemProof.v
Tipbus.v
TipbusProof.v
TipReader.v
Replay.v
Sessions.v
Node.v
TrackerProof.v
SinkProof.v
NodeProof.v
Suitecache.v
SuitecacheProof.v
Engine.v
EngineLive.v
Exec.v
ExecProof.v
SimState.v
SimProof.v
SimCall.v
Simbench.v
ScanCode.v
SyncKeys.v
Sync.v
SyncTrie.v
SyncLogic.v
SyncSound.v
SyncInv.v
SyncProof.v
SyncWalk.v
SyncDrain.v
SyncRun.v
SyncLive.v
SyncServe.v
ConsensusState.v
Consensus.v
ConsensusInv.v
ConsensusBoot.v
ConsensusLoops.v
ConsensusVotes.v
ConsensusRun.v
ConsensusTracker.v
Net.v
NetClient.v
FollowerMain.v
Follower.v
FollowerLog.v
FollowerExec.v
FollowerProof.v
FollowerDry.v
FollowerOpen.v
BaselineLoad.v
Examples.v
ExamplesSync.v
ExamplesConsensus.v
ExamplesFollower.v
MainStore.v
MainTip.v
MainExec.v
MainSim.v
MainSync.v
MainConsensus.v
MainNet.v
MainFollower.v
