(* ===== verification/Prelude.v ===== *)
(** * flatstate: verification library (root file)

    flatstate keeps the state of an EVM chain as flat rows in LMDB.  A follower
    program joins the network, agrees on blocks with a snowman engine, executes each
    block and captures its post-images as a [capture.Batch]; the store archives the
    batches above a baseline height and answers point reads at any height; a memory
    state answers reads at the unfinalized tip; a second LMDB environment, the tip
    bus, publishes the unfinalized layers to other processes.  A loader program
    fetches the baseline from peers by state sync.  On top of the archive sit replay
    sessions, a read cache for test suites, a batch execution engine and a simulator
    of calls.

    ** How the program is modelled

    Go values are Rocq values of the same shape.  A [uintN] is [uint N], a [Z]
    with a proof-irrelevant range proof, with Go's wrap-around ([wrap], [u_add],
    [u_sub]); [[N]byte] is [arr N]; [[]byte] is [list byte]; a Go map is [gmap], a
    set-like map [gset]; an [(A, error)] return is [result A], where the sentinel
    errors of the store keep their identity, a wrapped error is the inner one, and a
    panic is [ErrMsg "panic"].  A method that mutates its receiver returns the new
    receiver; errors return the state the Go code would leave behind.  Logging has no
    effect and is left out.

    LMDB is not part of the repository.  It is the class [Lmdb.Lmdb] (get, put,
    del, cursor moves, begin, commit over an abstract environment) with the laws
    [Lmdb.LmdbLaws]: an environment denotes a finite map, every call does what
    LMDB documents on that map or fails, and failures need [faults].  A theorem
    holds for every lawful environment; [upto_faults r s] says [r] is [s] unless an
    LMDB call failed.  [map_lmdb] (a plain map, no faults) and [flaky_lmdb] (one
    key cannot be written) are lawful instances, on which the witnesses run.

    Other code that is not in the repository is an argument, or a class with the
    laws it documents: keccak and RLP; the functions of libevm and coreth that execute
    a block, programs over the callbacks they are handed ([Exec.Coreth],
    [Exec.lib_prog]), and libevm's calls ([SimCall]); avalanchego's [Topological] and
    poll set ([Consensus], [PollSet]), its validator manager, peer tracker and message
    creator ([Net.ValidatorManager], [Net.PeerTracker], [Net.Creator]); what peers and
    RPC nodes answer, the sampler, the clock and map orders, which come out of an
    oracle state ([ConsensusState.Net], of which [Net.network_net] is the program's
    instance); the client of the state sync, which answers per request number.

    Concurrency is explicit interleaving: executors and the engine's pool call by
    call, the goroutines of the state sync as programs under a schedule, the request
    client's calls and the reader process of the bus as step relations.  A critical
    section is one step.  The sync's channel is bounded and a send to a full one
    waits; the limits of its goroutine groups are left to the schedule; a scan error
    leaves its goroutines running, and their send to the closed channel is the phase
    [PhPanic].  In the batch engine other batches, store commits and, outside read
    phases, writers of the tip act between any two steps.

    Peers are arbitrary: a message is any byte string, and what the engine knows of a
    container is what the parser makes of bytes it has received ([ConsensusInv.parsed]).
    The theorems about it assume that fewer than 2^64 containers are received, and,
    where named, that among the received blocks equal hashes come with equal
    headers, which a hash function's collision resistance stands for.

    ** Files

    - [Prelude]: results, machine integers, byte strings and their order, arrays,
      automation.  [Schema] ([schema/schema.go]): keys, account rows.  [Lmdb]: the
      environment interface.  [Capture] ([capture/capture.go]): the batch codec.
      [World]: the reference semantics every reader is measured against, a world
      (accounts, slots) transformed by batches, and the capture contract.
    - [Store] ([store/store.go]) and [StoreRead] ([store/read.go]): every method of
      [DB] and [Baseline].  [StoreSpec] rows as a relation, [StoreProof] rows
      against worlds, [StoreReads] and [StoreWrites] the methods against the rows,
      [Loader] the buffered baseline loader, [Concurrent] loading and capture
      interleaved, [StoreInv] the type invariant of a handle, [Scans] and [ScanCode]
      the ordered scans used to resume a load.
    - [Reader]: what the store promises to its clients, as a class with laws;
      [db_reader_laws] discharges it.  [Mem], [MemProof] ([mem/mem.go]): the tip
      state; its theorems are proved against [Reader].
    - [Tipbus], [TipbusProof] ([tipbus/tipbus.go]); [TipReader]
      ([follow] and the start of [cmd/simbench/main.go]): a process that follows the
      bus over the writer's store.
    - [Replay], [Sessions] ([replay/replay.go]).
    - [Node] ([node/*.go], and [resumeFromStore] of [cmd/follower/main.go]);
      [TrackerProof] against the sink interface [SinkOps]/[SinkLaws], [SinkProof]
      for the composite sink and for the node beside a reader process ([node_run]),
      [NodeProof] for baseline loading and resume.
    - [Suitecache], [SuitecacheProof] ([suitecache/suitecache.go]).
    - [Engine], [EngineLive] ([engine/engine.go]): executors are programs over the
      view's methods.  [SimState], [SimProof] ([sim/statedb.go]): the journaled EVM
      state database.  [SimCall] ([sim/sim.go]): the pooled executor.  [Simbench]
      ([cmd/simbench/main.go]): calldata and results.
    - [Exec], [ExecProof] ([follower/exec/*.go]): the block executor's layers,
      capture tries, the program of a block ([run_block]) and validation.  The theorems
      about the follower hold for any such program ([evm_prog]).
    - [SyncKeys], [Sync] ([follower/sync/sync.go]); [SyncTrie] the tries,
      [SyncLogic] a program logic for the interleaved goroutines, [SyncSound],
      [SyncInv], [SyncProof], [SyncWalk], [SyncDrain], [SyncRun] what a run
      establishes, [SyncLive] that it ends, [SyncServe] that its rows serve the trie.
    - [ConsensusState], [Consensus] ([follower/consensus/*.go], [net/parse.go]);
      [ConsensusInv] the invariant of the engine against what a node must keep to
      ([sink_ok]), [ConsensusBoot], [ConsensusLoops], [ConsensusVotes], [ConsensusRun],
      and [ConsensusTracker] for the node's tracker.
    - [Net] ([follower/net/handler.go], [net.go]): inbound messages, dialing,
      validators, peers, requests.  [NetClient] ([follower/sync/netclient.go]).
    - [FollowerMain] (the loop and watchdog of [cmd/follower/main.go]), [Follower]
      (its nodes: tracker, sink, executor and store as one state), [FollowerLog],
      [FollowerExec], [FollowerProof], [FollowerDry], [FollowerOpen] that these nodes
      keep to what the engine needs.  [BaselineLoad] ([cmd/baseline-load/main.go]).
    - [Examples], [ExamplesSync], [ExamplesConsensus], [ExamplesFollower] small
      concrete instances; [MainStore], [MainTip], [MainExec], [MainSim], [MainSync],
      [MainConsensus], [MainNet], [MainFollower] the main theorems with their
      witnesses.

    ** What is shown

    - The programs.  The follower, fed with any messages, archives the chain it
      accepts: every block was executed on its predecessors' world, reads of the
      archive answer those worlds, memory and bus hold the published chain, and it can
      be restarted (C1; the conditions on the run are listed there); a dry run validates
      the same way and writes nothing (C12); the loader's store is one the follower
      starts from (C4); a reader process sees the
      published view and reads its world, between any two steps of the node (C8).
    - Store: reads at every height equal the world of that height (C2), on every
      branch (C6); a block write is atomic and its rows say what the block did (C26); rows stay well formed (C19); loading is
      crash consistent (C21) and commutes with capture (C14).
    - Tip: reads equal the tip world (C7), except that code of unfinalized blocks is
      not found (C28); a bus follower rebuilds the writer's view (C16).
    - Node: the published stack is a chain from the finalized block (C23), walks along
      parents are exact (C35), sink, store, memory and bus agree (C10, C31); baseline
      job (C36).
    - Consensus: what the engine accepts is a chain of well-formed blocks reported in
      order (C9), and it drives the tracker without its errors (C5); the anchor has a
      quorum (C24), the backfill is linked (C25), votes reach the nearest processing
      ancestor when the received containers link up without a circle (C33), issuing ends
      (C32).
    - State sync: a run without error has loaded the trie (C3) and every run can be
      resumed (C13), from rows on which resuming is sound ([may_resume]: [resume_hole]
      shows what happens otherwise); from every reachable state a serial schedule ends
      the run, but for a hung fence and the panic (C22); key ranges tile the key space
      (C34); a writer error can hang it (C40).
    - Network: the request client's counters, IDs and responses under every schedule
      (C18); dialing closes what it opened on every error (C29); the validator set
      after a refresh (C30).
    - Executor: a block executes on its parent's world, transaction by transaction, and
      is accepted exactly when it is right there (C11).
    - Readers and simulator: replay sessions (C20), batches are independent of the
      schedule and of what their workers did before (C17) and are those of the tip when
      they are returned (C39), a simulated call is a function of the call
      and the tip whatever the executor ran before (C15), snapshots restore (C27).
    - Codecs: batches (C37), the suite cache's file (C38).

    ** Fuel and bounds

    Loops that are not structural take fuel, and the theorems say how much is enough.
    [StorageQueueAfter] and [MissingCodeHashes]: above the number of rows.  [chainTo],
    [Head] and [viewAt]: above the size of the table, as heights descend along parents
    (C35, C11); the follower's sinks use that size plus one.  The walk, segment and
    drain loops of the sync: above the number of leaves and of rows ([bounds_ok]); with
    less they end in the error [fuel], which C22 excludes.  [tryIssue] and the gap
    loop of the engine: the number of records they may visit, which C32 shows to suffice.
    [bubble] walks at most once over the records; only a circle of parents outlasts that
    ([None], a fatal error of the model where the code would loop), and C33 shows when
    there is none.  [EvTick] carries the bound of the poll loop.  [Engine.Execute_step]
    is a relation without fuel.  [load]
    of the suite cache uses the file length.  Sequence numbers, request numbers and
    lengths are kept below their widths by explicit hypotheses; those of a follower's
    run are [good_run].

    ** Not modelled

    Opening and closing environments and files; libevm, coreth and avalanchego
    themselves, and the chain configuration that [chaincfg] builds with them; the HTTP
    exchange and the JSON decoder of the RPC client; flags and configuration files;
    progress counters, logging and the measuring part of [cmd/simbench]. *)

From Stdlib Require Export ZArith Lia.
From stdpp Require Export base numbers list countable gmap strings.

(** ** Errors and results *)

(** A Go [error] value.  The store's sentinels keep their identity, because
    callers test them with [errors.Is]; an error built by [fmt.Errorf] or
    [errors.New] without such a sentinel is [ErrMsg], tagged with the package
    that makes it; [ErrLmdb] is an LMDB return code other than not-found. *)
Inductive error :=
| ErrNoGenesis
| ErrBelowGenesis
| ErrBaselineIncomplete
| ErrDestructEdge
| ErrNotFound
| ErrLmdb (code : Z)
| ErrMsg (pkg : string).

Arguments ErrMsg pkg%_string.

#[export] Instance error_eq_dec : EqDecision error.
Proof. solve_decision. Defined.

(** A Go [(A, error)] return: the value is meaningful only when the error is nil. *)
Inductive result (A : Type) :=
| Ok (a : A)
| Err (e : error).
Arguments Ok {A} a.
Arguments Err {A} e.

#[export] Instance result_eq_dec {A} `{EqDecision A} : EqDecision (result A).
Proof. solve_decision. Defined.

(** Go's [x, err := m; if err != nil { return err }; k]. *)
Definition rbind {A B} (m : result A) (f : A → result B) : result B :=
  match m with Ok a => f a | Err e => Err e end.
Definition rmap {A B} (f : A → B) (m : result A) : result B :=
  match m with Ok a => Ok (f a) | Err e => Err e end.

Declare Scope result_scope.
Delimit Scope result_scope with result.
Notation "'let!' x := m 'in' k" := (rbind m (λ x, k))
  (at level 10, x pattern, m at level 100, k at level 200) : result_scope.
Open Scope result_scope.

(** ** Strict booleans: proofs of [b = true] that are all convertible *)

Inductive sTrue : SProp := sI.
Inductive sFalse : SProp := .

Definition SIs (b : bool) : SProp := if b then sTrue else sFalse.

Lemma SIs_intro {b : bool} : b = true → SIs b.
Proof. intros ->. exact sI. Qed.

Lemma SIs_elim {b : bool} (H : SIs b) : b = true.
Proof. destruct b; [done|]. destruct H. Qed.

(** ** Machine integers

    [uint w] is a [w]-bit unsigned integer: a value together with a (strict,
    hence unique) proof that it is in range.  Arithmetic wraps. *)
Record uint (w : positive) := UInt {
  uval : Z;
  uval_ok : SIs ((0 <=? uval)%Z && (uval <? 2 ^ Z.pos w)%Z)
}.
Arguments uint w%_positive.
Arguments UInt {w} _ _.
Arguments uval {w} _.
Coercion uval : uint >-> Z.

Abbreviation byte := (uint 8).
Abbreviation u32 := (uint 32).
Abbreviation u64 := (uint 64).
Abbreviation u256 := (uint 256).
Abbreviation bytes := (list (uint 8)).

(** Literals. *)
Abbreviation byte_lit z := (UInt (w:=8) z%Z sI).
Abbreviation u32_lit z := (UInt (w:=32) z%Z sI).
Abbreviation u64_lit z := (UInt (w:=64) z%Z sI).
Abbreviation u256_lit z := (UInt (w:=256) z%Z sI).

Lemma uint_range {w} (x : uint w) : (0 ≤ x < 2 ^ Z.pos w)%Z.
Proof. destruct x as [v H]. pose proof (SIs_elim H). simpl. lia. Qed.

Lemma uint_eq {w} (x y : uint w) : uval x = uval y → x = y.
Proof. destruct x, y; simpl. by intros ->. Qed.

#[export] Instance uint_eq_dec w : EqDecision (uint w).
Proof.
  refine (λ x y, cast_if (decide (uval x = uval y)));
    [by apply uint_eq | by intros ->].
Defined.

Lemma wrap_ok (w : positive) (z : Z) :
  SIs ((0 <=? z mod 2 ^ Z.pos w)%Z && (z mod 2 ^ Z.pos w <? 2 ^ Z.pos w)%Z).
Proof.
  apply SIs_intro. pose proof (Z.mod_pos_bound z (2 ^ Z.pos w) ltac:(lia)). lia.
Qed.

(** Go's conversion to a [w]-bit unsigned type: truncation modulo [2^w]. *)
Definition wrap {w} (z : Z) : uint w := UInt (z mod 2 ^ Z.pos w) (wrap_ok w z).

Definition u_zero {w} : uint w := wrap 0.
Definition u_max {w} : uint w := wrap (-1).
Definition u_not {w} (x : uint w) : uint w := wrap (Z.lnot x).
Definition u_add {w} (x y : uint w) : uint w := wrap (x + y).
Definition u_sub {w} (x y : uint w) : uint w := wrap (x - y).

#[export] Instance uint_inhabited w : Inhabited (uint w) := populate u_zero.

Lemma uval_wrap {w} (z : Z) : uval (wrap (w:=w) z) = (z mod 2 ^ Z.pos w)%Z.
Proof. done. Qed.

Lemma wrap_small {w} (z : Z) : (0 ≤ z < 2 ^ Z.pos w)%Z → uval (wrap (w:=w) z) = z.
Proof. intros. rewrite uval_wrap. by apply Z.mod_small. Qed.

Lemma wrap_uval {w} (x : uint w) : wrap (uval x) = x.
Proof. apply uint_eq, wrap_small, uint_range. Qed.

#[export] Program Instance uint_countable w : Countable (uint w) :=
  inj_countable uval (λ z, Some (wrap z)) _.
Next Obligation. intros w x. simpl. by rewrite wrap_uval. Qed.

Lemma uval_u_not {w} (x : uint w) : uval (u_not x) = (2 ^ Z.pos w - 1 - x)%Z.
Proof.
  unfold u_not. rewrite uval_wrap. pose proof (uint_range x).
  unfold Z.lnot, Z.pred.
  replace (- x + -1)%Z with (2 ^ Z.pos w - 1 - x + (-1) * 2 ^ Z.pos w)%Z by lia.
  rewrite Z.mod_add by lia. apply Z.mod_small. lia.
Qed.

Lemma u_not_involutive {w} (x : uint w) : u_not (u_not x) = x.
Proof. apply uint_eq. rewrite !uval_u_not. lia. Qed.

Lemma u_not_inj {w} (x y : uint w) : u_not x = u_not y → x = y.
Proof. intros H. by rewrite <-(u_not_involutive x), H, u_not_involutive. Qed.

Lemma uval_u_max {w} : uval (u_max (w:=w)) = (2 ^ Z.pos w - 1)%Z.
Proof.
  unfold u_max. rewrite uval_wrap.
  replace (-1)%Z with (2 ^ Z.pos w - 1 + (-1) * 2 ^ Z.pos w)%Z by lia.
  rewrite Z.mod_add by lia. apply Z.mod_small. lia.
Qed.

(** [ulia]: [lia] with the range of every machine integer in sight. *)
Ltac uint_ranges :=
  repeat match goal with
  | |- context [uval ?x] =>
      lazymatch goal with
      | _ : (0 ≤ uval x < _)%Z |- _ => fail
      | _ => pose proof (uint_range x)
      end
  | _ : context [uval ?x] |- _ =>
      lazymatch goal with
      | _ : (0 ≤ uval x < _)%Z |- _ => fail
      | _ => pose proof (uint_range x)
      end
  end.
Ltac ulia := uint_ranges; lia.

(** Evaluate a closed decidable proposition. *)
Ltac eval_decide := apply (bool_decide_unpack _); vm_compute; exact I.

(** ** Byte strings *)

(** Big-endian encoding on [n] bytes and its inverse
    ([binary.BigEndian.AppendUint64], [.Uint64] and their siblings). *)
Fixpoint be_bytes (n : nat) (z : Z) : bytes :=
  match n with
  | O => []
  | S n' => wrap (z / 256 ^ Z.of_nat n') :: be_bytes n' z
  end.

Fixpoint be_val (l : bytes) : Z :=
  match l with
  | [] => 0
  | b :: l' => b * 256 ^ Z.of_nat (length l') + be_val l'
  end.

Lemma length_be_bytes n z : length (be_bytes n z) = n.
Proof. induction n; simpl; congruence. Qed.

Lemma pow256_S (n : nat) : (256 ^ Z.of_nat (S n) = 256 * 256 ^ Z.of_nat n)%Z.
Proof. rewrite Nat2Z.inj_succ, Z.pow_succ_r; lia. Qed.

Lemma be_val_range (l : bytes) : (0 ≤ be_val l < 256 ^ Z.of_nat (length l))%Z.
Proof.
  induction l as [|b l IH]; [simpl; lia|].
  cbn [be_val length]. rewrite pow256_S. pose proof (uint_range b). nia.
Qed.

Lemma be_val_bytes n z : be_val (be_bytes n z) = (z mod 256 ^ Z.of_nat n)%Z.
Proof.
  induction n as [|n IH]; [by rewrite Z.mod_1_r|].
  cbn [be_val be_bytes]. rewrite IH, length_be_bytes, uval_wrap, pow256_S.
  change (2 ^ 8)%Z with 256%Z.
  rewrite (Z.mul_comm 256), Z.rem_mul_r by lia. lia.
Qed.

(** Bytes above the encoded width do not show. *)
Lemma be_bytes_high n q z : be_bytes n (q * 256 ^ Z.of_nat n + z) = be_bytes n z.
Proof.
  revert q. induction n as [|n IH]; intros q; [done|]. cbn [be_bytes]. f_equal.
  - apply uint_eq. rewrite !uval_wrap, pow256_S. change (2 ^ 8)%Z with 256%Z.
    replace (q * (256 * 256 ^ Z.of_nat n) + z)%Z
      with (z + (q * 256) * 256 ^ Z.of_nat n)%Z by lia.
    rewrite Z.div_add, Z.mod_add by lia. done.
  - rewrite pow256_S, Z.mul_assoc. apply IH.
Qed.

Lemma be_bytes_val n (l : bytes) : length l = n → be_bytes n (be_val l) = l.
Proof.
  intros <-. induction l as [|b l IH]; [done|]. cbn [be_val be_bytes length].
  pose proof (be_val_range l). pose proof (uint_range b). f_equal.
  - apply uint_eq. rewrite uval_wrap. change (2 ^ 8)%Z with 256%Z.
    rewrite Z.div_add_l by lia. rewrite Z.div_small by lia.
    rewrite Z.add_0_r. apply Z.mod_small. lia.
  - by rewrite be_bytes_high.
Qed.

(** Lexicographic comparison: [bytes.Compare], and LMDB's default key order. *)
Fixpoint bytes_cmp (a b : bytes) : comparison :=
  match a, b with
  | [], [] => Eq
  | [], _ :: _ => Lt
  | _ :: _, [] => Gt
  | x :: a', y :: b' =>
      match Z.compare x y with Eq => bytes_cmp a' b' | c => c end
  end.

Definition bytes_lt (a b : bytes) : Prop := bytes_cmp a b = Lt.
Definition bytes_le (a b : bytes) : Prop := bytes_cmp a b ≠ Gt.

Declare Scope bytes_scope.
Delimit Scope bytes_scope with bytes.
Infix "<" := bytes_lt : bytes_scope.
Infix "≤" := bytes_le : bytes_scope.

#[export] Instance bytes_lt_dec a b : Decision (bytes_lt a b).
Proof. unfold bytes_lt. apply _. Defined.
#[export] Instance bytes_le_dec a b : Decision (bytes_le a b).
Proof. unfold bytes_le. apply _. Defined.

Lemma bytes_cmp_refl a : bytes_cmp a a = Eq.
Proof. induction a as [|x a IH]; simpl; [done|]. by rewrite Z.compare_refl. Qed.

Lemma bytes_cmp_eq a b : bytes_cmp a b = Eq ↔ a = b.
Proof.
  split; [|intros ->; apply bytes_cmp_refl].
  revert b. induction a as [|x a IH]; intros [|y b]; simpl; try done.
  destruct (Z.compare_spec x y) as [Hxy| |]; try done.
  intros ?%IH. apply uint_eq in Hxy. congruence.
Qed.

Lemma bytes_cmp_antisym a b : bytes_cmp b a = CompOpp (bytes_cmp a b).
Proof.
  revert b. induction a as [|x a IH]; intros [|y b]; simpl; try done.
  rewrite (Z.compare_antisym x y). destruct (Z.compare x y); simpl; auto.
Qed.

Lemma bytes_lt_trans a b c : (a < b)%bytes → (b < c)%bytes → (a < c)%bytes.
Proof.
  unfold bytes_lt. revert b c.
  induction a as [|x a IH]; intros [|y b] [|z c]; simpl; try done.
  destruct (Z.compare_spec x y), (Z.compare_spec y z), (Z.compare_spec x z);
    try done; try ulia. apply IH.
Qed.

Lemma bytes_le_lteq a b : (a ≤ b)%bytes ↔ (a < b)%bytes ∨ a = b.
Proof.
  unfold bytes_le, bytes_lt. destruct (bytes_cmp a b) eqn:E.
  - apply bytes_cmp_eq in E. naive_solver.
  - naive_solver.
  - split; [done|]. intros [?| ->]; [done|]. by rewrite bytes_cmp_refl in E.
Qed.

Lemma bytes_le_refl a : (a ≤ a)%bytes.
Proof. apply bytes_le_lteq. by right. Qed.

Lemma bytes_le_trans a b c : (a ≤ b)%bytes → (b ≤ c)%bytes → (a ≤ c)%bytes.
Proof.
  rewrite !bytes_le_lteq. intros [?| ->] [?| ->]; eauto using bytes_lt_trans.
Qed.

Lemma bytes_lt_le_trans a b c : (a < b)%bytes → (b ≤ c)%bytes → (a < c)%bytes.
Proof. rewrite bytes_le_lteq. intros ? [?| ->]; eauto using bytes_lt_trans. Qed.

Lemma bytes_le_lt_trans a b c : (a ≤ b)%bytes → (b < c)%bytes → (a < c)%bytes.
Proof. rewrite bytes_le_lteq. intros [?| ->] ?; eauto using bytes_lt_trans. Qed.

Lemma bytes_lt_irrefl a : ¬ (a < a)%bytes.
Proof. unfold bytes_lt. by rewrite bytes_cmp_refl. Qed.

Lemma bytes_lt_not_le a b : (a < b)%bytes ↔ ¬ (b ≤ a)%bytes.
Proof.
  unfold bytes_lt, bytes_le. rewrite (bytes_cmp_antisym a b).
  destruct (bytes_cmp a b); simpl; naive_solver.
Qed.

Lemma bytes_le_antisym a b : (a ≤ b)%bytes → (b ≤ a)%bytes → a = b.
Proof.
  rewrite bytes_le_lteq. intros [Hab|?] Hba; [|done].
  by apply bytes_lt_not_le in Hab.
Qed.

Lemma bytes_le_total a b : (a ≤ b)%bytes ∨ (b ≤ a)%bytes.
Proof.
  destruct (decide (a ≤ b)%bytes) as [?|Hn]; [by left|right].
  apply bytes_le_lteq. left. by apply bytes_lt_not_le.
Qed.

Lemma bytes_cmp_app p a b : bytes_cmp (p ++ a) (p ++ b) = bytes_cmp a b.
Proof. induction p as [|x p IH]; simpl; [done|]. by rewrite Z.compare_refl. Qed.

(** On equal lengths the order is the numeric order of the big-endian values. *)
Lemma bytes_cmp_val a b :
  length a = length b → bytes_cmp a b = Z.compare (be_val a) (be_val b).
Proof.
  revert b. induction a as [|x a IH]; intros [|y b] Hl; simplify_eq/=; [done|].
  pose proof (be_val_range a). pose proof (be_val_range b).
  pose proof (uint_range x). pose proof (uint_range y). rewrite Hl in *.
  destruct (Z.compare_spec x y) as [->|Hlt|Hlt].
  - rewrite IH by done. symmetry. apply Z.add_compare_mono_l.
  - symmetry. apply Z.compare_lt_iff. nia.
  - symmetry. apply Z.compare_gt_iff. nia.
Qed.

(** ** Fixed-size byte arrays: Go's [[n]byte] *)

Record arr (n : nat) := Arr {
  abytes : bytes;
  abytes_ok : SIs (Nat.eqb (length abytes) n)
}.
Arguments Arr {n} _ _.
Arguments abytes {n} _.

Lemma length_abytes {n} (a : arr n) : length (abytes a) = n.
Proof. destruct a as [l H]. apply Nat.eqb_eq, (SIs_elim H). Qed.

Lemma arr_eq {n} (a b : arr n) : abytes a = abytes b → a = b.
Proof. destruct a, b; simpl. by intros ->. Qed.

#[export] Instance arr_eq_dec n : EqDecision (arr n).
Proof.
  refine (λ x y, cast_if (decide (abytes x = abytes y)));
    [by apply arr_eq | by intros ->].
Defined.

(** [copy(a[:], l)] into a zeroed array: short sources leave trailing zeros,
    long ones are cut. *)
Definition pad_to (n : nat) (l : bytes) : bytes :=
  take n l ++ replicate (n - length l) u_zero.

Lemma length_pad_to n l : length (pad_to n l) = n.
Proof. unfold pad_to. rewrite length_app, length_take, length_replicate. lia. Qed.

Lemma pad_to_id n l : length l = n → pad_to n l = l.
Proof.
  intros <-. unfold pad_to.
  by rewrite Nat.sub_diag, take_ge, app_nil_r by lia.
Qed.

Definition arr_of {n} (l : bytes) : arr n :=
  Arr (pad_to n l) (SIs_intro (proj2 (Nat.eqb_eq _ _) (length_pad_to n l))).

Lemma arr_of_abytes {n} (a : arr n) : arr_of (abytes a) = a.
Proof. apply arr_eq. apply pad_to_id, length_abytes. Qed.

Lemma abytes_arr_of_pad {n} (l : bytes) : abytes (arr_of (n:=n) l) = pad_to n l.
Proof. done. Qed.

Lemma abytes_arr_of {n} (l : bytes) : length l = n → abytes (arr_of (n:=n) l) = l.
Proof. apply pad_to_id. Qed.

#[export] Program Instance arr_countable n : Countable (arr n) :=
  inj_countable abytes (λ l, Some (arr_of l)) _.
Next Obligation. intros n x. simpl. by rewrite arr_of_abytes. Qed.

Definition arr_zero {n} : arr n := arr_of [].

#[export] Instance arr_inhabited n : Inhabited (arr n) := populate arr_zero.

(** ** Generic list and map lemmas *)

Lemma take_app_exact {A} (l k : list A) n : length l = n → take n (l ++ k) = l.
Proof. intros <-. by rewrite take_app_length. Qed.

Lemma drop_app_exact {A} (l k : list A) n : length l = n → drop n (l ++ k) = k.
Proof. intros <-. by rewrite drop_app_length. Qed.

(** ** Following links in a map

    A walk [k], [next v], [next v'], ... through a map whose values have
    strictly decreasing heights along the links ends; [walk_left] counts what it
    can still visit. *)
Section walk.
Context {K V : Type} `{Countable K} (next : V → K) (height : V → Z).
Implicit Types m : gmap K V.

Definition walk_down m : Prop :=
  ∀ k v v', m !! k = Some v → m !! next v = Some v' → (height v' < height v)%Z.

Definition walk_left m (k : K) : nat :=
  match m !! k with
  | Some v => size (filter (λ kv, (height kv.2 ≤ height v)%Z) m)
  | None => 0
  end.

Lemma walk_left_size m k : walk_left m k ≤ size m.
Proof. unfold walk_left. destruct (m !! k); [apply map_size_filter|lia]. Qed.

Lemma walk_left_next m k v :
  walk_down m → m !! k = Some v → walk_left m (next v) < walk_left m k.
Proof.
  intros Hd Hv. unfold walk_left. rewrite Hv.
  assert (filter (λ kv, (height kv.2 ≤ height v)%Z) m !! k = Some v) as Hf.
  { apply map_lookup_filter_Some. split; [done|]. cbn. lia. }
  destruct (m !! next v) as [v'|] eqn:Ev'; cycle 1.
  { apply Nat.neq_0_lt_0. intros Hz%map_size_empty_inv. by rewrite Hz, lookup_empty in Hf. }
  pose proof (Hd _ _ _ Hv Ev'). apply map_subset_size, map_subset_alt. split.
  - apply map_subseteq_spec. intros k' x [Hk Hx]%map_lookup_filter_Some.
    apply map_lookup_filter_Some. split; [done|]. cbn in *. lia.
  - exists k. split; [|by exists v].
    apply map_lookup_filter_None. right. intros x Hx. rewrite Hv in Hx. simplify_eq. cbn. lia.
Qed.
End walk.

(** Encodings are reasoned about through the lemmas above. *)
#[global] Opaque be_bytes wrap arr_of.

Create HintDb flat.
Create Rewrite HintDb flat.
#[export] Hint Rewrite @length_be_bytes @length_abytes @length_app @length_take
  @length_drop @length_replicate : flat.
#[export] Hint Resolve bytes_le_refl bytes_lt_irrefl : flat.

(** [len_solve]: lengths of concatenated fixed-size encodings. *)
Ltac len_solve := repeat (progress (autorewrite with flat; cbn [length app])); lia.
