(* ===== verification/Schema.v ===== *)
(** * Schema: the LMDB key layout and the fixed binary encodings

    Models [schema/schema.go].  Encoders append to a caller-provided buffer
    [dst], as in the source.  [dbkey] names every kind of row the main
    environment holds; [key_bytes] is the encoder of each. *)

From S2P Require Import Prelude.

(** ** Keyspace prefixes and meta keys *)

Definition PrefMeta : byte := byte_lit 0.
Definition PrefAccount : byte := byte_lit 1.
Definition PrefSlot : byte := byte_lit 2.
Definition PrefDestruct : byte := byte_lit 3.
Definition PrefDiff : byte := byte_lit 4.
Definition PrefCode : byte := byte_lit 6.
Definition PrefBaseAccount : byte := byte_lit 7.
Definition PrefBaseSlot : byte := byte_lit 8.
Definition PrefStorageQueue : byte := byte_lit 9.

Definition MetaGenesis : bytes := [PrefMeta; byte_lit 1].
Definition MetaBaselineComplete : bytes := [PrefMeta; byte_lit 2].
Definition MetaFinalized : bytes := [PrefMeta; byte_lit 3].
Definition MetaBaselineProgress : bytes := [PrefMeta; byte_lit 4].

Definition AccountKeyLen : nat := 1 + 20 + 8.
Definition SlotKeyLen : nat := 1 + 20 + 32 + 8.
Definition DestructKeyLen : nat := 1 + 20 + 8.
Definition DiffKeyLen : nat := 1 + 8.
Definition CodeKeyLen : nat := 1 + 32.
Definition BaseAccountKeyLen : nat := 1 + 32.
Definition BaseSlotKeyLen : nat := 1 + 32 + 32.

(** ** Data types *)

Abbreviation Address := (arr 20).
Abbreviation Hash := (arr 32).

(** [common.BytesToHash]: the last 32 bytes, zero-padded on the left. *)
Definition BytesToHash (b : bytes) : Hash :=
  arr_of (replicate (32 - length b) (byte_lit 0) ++ drop (length b - 32) b).

Record SKey := MkSKey { Addr : Address; Slot : Hash }.

#[export] Instance SKey_eq_dec : EqDecision SKey.
Proof. solve_decision. Defined.
#[export] Program Instance SKey_countable : Countable SKey :=
  inj_countable (λ k, (Addr k, Slot k)) (λ p, Some (MkSKey p.1 p.2)) _.
Next Obligation. by intros []. Qed.

Record Account := MkAccount { Balance : u256; Nonce : u64; CodeHash : Hash }.

#[export] Instance Account_eq_dec : EqDecision Account.
Proof. solve_decision. Defined.

(** Go's zero value [schema.Account{}]. *)
Definition Account_zero : Account := MkAccount u_zero u_zero arr_zero.

Definition AccountSize : nat := 32 + 8 + 32.

(** ** Big-endian integers *)

(** [binary.BigEndian.AppendUint64], [AppendUint32] and [uint256]'s [Bytes32]. *)
Definition AppendUint64 (dst : bytes) (x : u64) : bytes := dst ++ be_bytes 8 x.
Definition AppendUint32 (dst : bytes) (x : u32) : bytes := dst ++ be_bytes 4 x.

(** [binary.BigEndian.Uint64] reads the first eight bytes of its argument (it
    panics on fewer; every caller passes at least eight), [Uint32] four. *)
Definition Uint64 (b : bytes) : u64 := wrap (be_val (take 8 b)).
Definition Uint32 (b : bytes) : u32 := wrap (be_val (take 4 b)).

(** ** Account encoding *)

Definition EncodeAccount (dst : bytes) (a : Account) : bytes :=
  let b32 := be_bytes 32 (Balance a) in
  let dst := dst ++ b32 in
  let dst := AppendUint64 dst (Nonce a) in
  dst ++ abytes (CodeHash a).

Definition DecodeAccount (b : bytes) : result Account :=
  if negb (Nat.eqb (length b) AccountSize) then Err (ErrMsg "schema")
  else Ok {| Balance := wrap (be_val (take 32 b));
             Nonce := Uint64 (take 8 (drop 32 b));
             CodeHash := arr_of (take 32 (drop 40 b)) |}.

(** ** Keys *)

Definition InvBlock (block : u64) : u64 := u_not block.

Definition AppendInvBlock (dst : bytes) (block : u64) : bytes :=
  AppendUint64 dst (u_not block).

Definition DecodeInvBlock (keyTail : bytes) : u64 := u_not (Uint64 keyTail).

Definition AppendAccountKey (dst : bytes) (addr : Address) (block : u64) : bytes :=
  let dst := dst ++ [PrefAccount] in
  let dst := dst ++ abytes addr in
  AppendInvBlock dst block.

Definition AppendSlotKey (dst : bytes) (addr : Address) (slot : Hash) (block : u64) : bytes :=
  let dst := dst ++ [PrefSlot] in
  let dst := dst ++ abytes addr in
  let dst := dst ++ abytes slot in
  AppendInvBlock dst block.

Definition AppendDestructKey (dst : bytes) (addr : Address) (block : u64) : bytes :=
  let dst := dst ++ [PrefDestruct] in
  let dst := dst ++ abytes addr in
  AppendInvBlock dst block.

Definition AppendDiffKey (dst : bytes) (block : u64) : bytes :=
  let dst := dst ++ [PrefDiff] in
  AppendUint64 dst block.

Definition AppendCodeKey (dst : bytes) (hash : Hash) : bytes :=
  let dst := dst ++ [PrefCode] in
  dst ++ abytes hash.

Definition AppendBaseAccountKey (dst : bytes) (addrHash : Hash) : bytes :=
  let dst := dst ++ [PrefBaseAccount] in
  dst ++ abytes addrHash.

Definition AppendBaseSlotKey (dst : bytes) (addrHash slotHash : Hash) : bytes :=
  let dst := dst ++ [PrefBaseSlot] in
  let dst := dst ++ abytes addrHash in
  dst ++ abytes slotHash.

Definition AppendStorageQueueKey (dst : bytes) (addrHash : Hash) : bytes :=
  let dst := dst ++ [PrefStorageQueue] in
  dst ++ abytes addrHash.

(** ** The rows of the main environment *)

Inductive dbkey :=
| KMetaGenesis | KMetaBaselineComplete | KMetaFinalized | KMetaBaselineProgress
| KAccount (addr : Address) (block : u64)
| KSlot (addr : Address) (slot : Hash) (block : u64)
| KDestruct (addr : Address) (block : u64)
| KDiff (block : u64)
| KCode (hash : Hash)
| KBaseAccount (addrHash : Hash)
| KBaseSlot (addrHash slotHash : Hash)
| KStorageQueue (addrHash : Hash).

Definition key_bytes (k : dbkey) : bytes :=
  match k with
  | KMetaGenesis => MetaGenesis
  | KMetaBaselineComplete => MetaBaselineComplete
  | KMetaFinalized => MetaFinalized
  | KMetaBaselineProgress => MetaBaselineProgress
  | KAccount a b => AppendAccountKey [] a b
  | KSlot a s b => AppendSlotKey [] a s b
  | KDestruct a b => AppendDestructKey [] a b
  | KDiff b => AppendDiffKey [] b
  | KCode h => AppendCodeKey [] h
  | KBaseAccount h => AppendBaseAccountKey [] h
  | KBaseSlot h s => AppendBaseSlotKey [] h s
  | KStorageQueue h => AppendStorageQueueKey [] h
  end.

#[export] Instance dbkey_eq_dec : EqDecision dbkey.
Proof. solve_decision. Defined.

(** ** Big-endian integers: facts *)

Lemma be_bytes_inj {w} n (x y : uint w) :
  (2 ^ Z.pos w ≤ 256 ^ Z.of_nat n)%Z → be_bytes n x = be_bytes n y → x = y.
Proof.
  intros Hw H. apply uint_eq. apply (f_equal be_val) in H.
  rewrite !be_val_bytes in H.
  pose proof (uint_range x). pose proof (uint_range y).
  by rewrite !Z.mod_small in H by lia.
Qed.

Lemma wrap_be_val {w} n (x : uint w) :
  (2 ^ Z.pos w ≤ 256 ^ Z.of_nat n)%Z → wrap (be_val (be_bytes n x)) = x.
Proof.
  intros Hw. rewrite be_val_bytes. pose proof (uint_range x).
  rewrite Z.mod_small by lia. apply wrap_uval.
Qed.

Lemma be_bytes_wrap {w} n (l : bytes) :
  length l = n → (2 ^ Z.pos w = 256 ^ Z.of_nat n)%Z →
  be_bytes n (uval (wrap (w:=w) (be_val l))) = l.
Proof.
  intros Hl Hw. pose proof (be_val_range l).
  rewrite wrap_small by (rewrite Hw, <-Hl; lia). by apply be_bytes_val.
Qed.

Lemma Uint64_be_bytes x l : Uint64 (be_bytes 8 (uval x) ++ l) = x.
Proof. unfold Uint64. rewrite take_app_exact by len_solve. by apply wrap_be_val. Qed.

Lemma Uint64_be_bytes' x : Uint64 (be_bytes 8 (uval x)) = x.
Proof. rewrite <-(app_nil_r (be_bytes _ _)). apply Uint64_be_bytes. Qed.

Lemma Uint32_be_bytes x l : Uint32 (be_bytes 4 (uval x) ++ l) = x.
Proof. unfold Uint32. rewrite take_app_exact by len_solve. by apply wrap_be_val. Qed.

Lemma Uint32_be_bytes' x : Uint32 (be_bytes 4 (uval x)) = x.
Proof. rewrite <-(app_nil_r (be_bytes 4 _)). apply Uint32_be_bytes. Qed.

Lemma be_bytes_Uint64 l : length l = 8 → be_bytes 8 (uval (Uint64 l)) = l.
Proof. intros. unfold Uint64. rewrite take_ge by lia. by apply be_bytes_wrap. Qed.

Lemma be_bytes_Uint32 l : length l = 4 → be_bytes 4 (uval (Uint32 l)) = l.
Proof. intros. unfold Uint32. rewrite take_ge by lia. by apply be_bytes_wrap. Qed.

(** ** Account round trip *)

Lemma length_EncodeAccount dst a : length (EncodeAccount dst a) = length dst + AccountSize.
Proof. unfold EncodeAccount, AppendUint64, AccountSize. len_solve. Qed.

Lemma EncodeAccount_app dst a : EncodeAccount dst a = dst ++ EncodeAccount [] a.
Proof. unfold EncodeAccount, AppendUint64. by rewrite <-!(assoc_L (++)). Qed.

(** The fixed 72-byte account encoding round-trips in both directions:
    decoding an encoded account gives it back, and any byte string that
    decodes is the encoding of the account it decodes to. *)
Lemma DecodeAccount_iff b a : DecodeAccount b = Ok a ↔ b = EncodeAccount [] a.
Proof.
  unfold DecodeAccount. split.
  - case_match eqn:E; [done|]. intros [= <-].
    apply negb_false_iff, Nat.eqb_eq in E. unfold AccountSize in E.
    unfold EncodeAccount, AppendUint64. cbn [Balance Nonce CodeHash app].
    rewrite be_bytes_wrap, be_bytes_Uint64, abytes_arr_of by len_solve.
    rewrite (take_ge (drop 40 b)) by len_solve.
    rewrite <-(assoc_L (++)). change 40 with (32 + 8). rewrite <-drop_drop.
    by rewrite !take_drop.
  - intros ->. rewrite length_EncodeAccount. cbn [negb Nat.eqb length Nat.add AccountSize].
    destruct a as [bal n ch]. unfold EncodeAccount, AppendUint64. cbn [Balance Nonce CodeHash app].
    f_equal. change 40 with (32 + 8).
    rewrite <-drop_drop, <-(assoc_L (++)), (drop_app_exact (be_bytes 32 bal)) by len_solve.
    rewrite take_app_exact, take_app_exact, drop_app_exact by len_solve.
    rewrite wrap_be_val, Uint64_be_bytes' by done.
    rewrite take_ge, arr_of_abytes by len_solve. done.
Qed.

Lemma DecodeAccount_Encode a : DecodeAccount (EncodeAccount [] a) = Ok a.
Proof. by apply DecodeAccount_iff. Qed.

(** ** Inverted block numbers *)

Lemma DecodeInvBlock_inv b : DecodeInvBlock (be_bytes 8 (uval (u_not b))) = b.
Proof. unfold DecodeInvBlock. by rewrite Uint64_be_bytes', u_not_involutive. Qed.

Lemma inv_DecodeInvBlock l : length l = 8 → be_bytes 8 (uval (u_not (DecodeInvBlock l))) = l.
Proof. intros. unfold DecodeInvBlock. by rewrite u_not_involutive, be_bytes_Uint64. Qed.

Lemma AppendInvBlock_inj p b b' : AppendInvBlock p b = AppendInvBlock p b' → b = b'.
Proof.
  unfold AppendInvBlock, AppendUint64. intros H%app_inv_head.
  by apply be_bytes_inj, u_not_inj in H.
Qed.

(** Rows that share a key prefix sort by DESCENDING block number: the row
    of [b] is at or after the seek key of [B] exactly when [b <= B].  This is
    what makes one forward seek land on the greatest write at or before [B]. *)
Lemma AppendInvBlock_order p b B :
  (AppendInvBlock p B ≤ AppendInvBlock p b)%bytes ↔ (b ≤ B)%Z.
Proof.
  unfold AppendInvBlock, AppendUint64, bytes_le.
  rewrite bytes_cmp_app, bytes_cmp_val, !be_val_bytes by len_solve.
  pose proof (uint_range (u_not b)). pose proof (uint_range (u_not B)).
  change (256 ^ Z.of_nat 8)%Z with (2 ^ 64)%Z. rewrite !Z.mod_small by done.
  rewrite !uval_u_not. rewrite Z.compare_ngt_iff. lia.
Qed.

Lemma AppendInvBlock_order_lt p b B :
  (AppendInvBlock p B < AppendInvBlock p b)%bytes ↔ (b < B)%Z.
Proof. rewrite bytes_lt_not_le, AppendInvBlock_order. lia. Qed.

(** ** The key layout *)

(** History rows are a key prefix followed by the inverted block number. *)
Definition acct_prefix (a : Address) : bytes := PrefAccount :: abytes a.
Definition slot_prefix (a : Address) (s : Hash) : bytes := PrefSlot :: abytes a ++ abytes s.
Definition destruct_prefix (a : Address) : bytes := PrefDestruct :: abytes a.

Lemma AppendAccountKey_prefix a b : AppendAccountKey [] a b = AppendInvBlock (acct_prefix a) b.
Proof. done. Qed.
Lemma AppendSlotKey_prefix a s b : AppendSlotKey [] a s b = AppendInvBlock (slot_prefix a s) b.
Proof. done. Qed.
Lemma AppendDestructKey_prefix a b : AppendDestructKey [] a b = AppendInvBlock (destruct_prefix a) b.
Proof. done. Qed.

Lemma abytes_app_inv {n} (a b : arr n) l k :
  abytes a ++ l = abytes b ++ k → a = b ∧ l = k.
Proof.
  intros H. apply app_inj_1 in H as [Ha ?]; [|by rewrite !length_abytes].
  split; [by apply arr_eq | done].
Qed.

Lemma abytes_inj {n} (a b : arr n) : abytes a = abytes b → a = b.
Proof. apply arr_eq. Qed.

(** The key layout is unambiguous: two rows share their bytes only if they
    are the same row of the same keyspace. *)
Lemma key_bytes_inj k k' : key_bytes k = key_bytes k' → k = k'.
Proof.
  destruct k, k'; unfold key_bytes, MetaGenesis, MetaBaselineComplete, MetaFinalized,
    MetaBaselineProgress, AppendAccountKey, AppendSlotKey, AppendDestructKey, AppendDiffKey,
    AppendCodeKey, AppendBaseAccountKey, AppendBaseSlotKey, AppendStorageQueueKey,
    AppendInvBlock, AppendUint64; cbn [app]; intros H; try discriminate H; try done;
    apply (inj2 cons) in H as [_ H]; rewrite <-?(assoc_L (++)) in H;
    repeat match goal with
    | H : _ ++ _ = _ ++ _ |- _ => apply abytes_app_inv in H as [-> H]
    | H : abytes _ = abytes _ |- _ => apply arr_eq in H as ->
    | H : be_bytes 8 (uval (u_not _)) = _ |- _ => apply be_bytes_inj, u_not_inj in H as ->; [|done]
    | H : be_bytes 8 (uval _) = _ |- _ => apply be_bytes_inj in H as ->; [|done]
    end; done.
Qed.

Definition key_len (k : dbkey) : nat :=
  match k with
  | KMetaGenesis | KMetaBaselineComplete | KMetaFinalized | KMetaBaselineProgress => 2
  | KAccount _ _ => AccountKeyLen
  | KSlot _ _ _ => SlotKeyLen
  | KDestruct _ _ => DestructKeyLen
  | KDiff _ => DiffKeyLen
  | KCode _ => CodeKeyLen
  | KBaseAccount _ => BaseAccountKeyLen
  | KBaseSlot _ _ => BaseSlotKeyLen
  | KStorageQueue _ => 33
  end.

(** Every key has the length its keyspace declares. *)
Lemma length_key_bytes k : length (key_bytes k) = key_len k.
Proof.
  destruct k; unfold key_bytes, AppendAccountKey, AppendSlotKey, AppendDestructKey,
    AppendDiffKey, AppendCodeKey, AppendBaseAccountKey, AppendBaseSlotKey,
    AppendStorageQueueKey, AppendInvBlock, AppendUint64, key_len, AccountKeyLen, SlotKeyLen,
    DestructKeyLen, DiffKeyLen, CodeKeyLen, BaseAccountKeyLen, BaseSlotKeyLen;
    try done; len_solve.
Qed.

(** The tag byte of a row's key. *)
Definition key_tag (k : dbkey) : byte :=
  match k with
  | KMetaGenesis | KMetaBaselineComplete | KMetaFinalized | KMetaBaselineProgress => PrefMeta
  | KAccount _ _ => PrefAccount
  | KSlot _ _ _ => PrefSlot
  | KDestruct _ _ => PrefDestruct
  | KDiff _ => PrefDiff
  | KCode _ => PrefCode
  | KBaseAccount _ => PrefBaseAccount
  | KBaseSlot _ _ => PrefBaseSlot
  | KStorageQueue _ => PrefStorageQueue
  end.

Lemma head_key_bytes k : head (key_bytes k) = Some (key_tag k).
Proof. by destruct k. Qed.
