(* ===== verification/Lmdb.v ===== *)
(** * Lmdb: the interface of the embedded key-value store

    [github.com/PowerDNS/lmdb-go] is not part of the repository, so it is a
    parameter: [Lmdb] lists the calls the packages make, [LmdbLaws] states the
    documented behaviour they rely on (an ordered map, snapshot reads, all or
    nothing write transactions), and [map_lmdb] is a lawful instance.  A value
    of [env] is one consistent snapshot of an environment; a write transaction
    works on a private snapshot that replaces the shared one on commit.

    Any call may fail with an LMDB return code.  [faults] says whether the
    instance at hand ever does: results proved "up to faults" hold exactly
    when it does not, and otherwise an LMDB error is the only other outcome. *)

From S2P Require Import Prelude.

(** ** Calls *)

(** An LMDB return: a value, [lmdb.NotFound], or another error code. *)
Inductive lres (A : Type) :=
| LOk (a : A)
| LNotFound
| LErr (code : Z).
Arguments LOk {A} a.
Arguments LNotFound {A}.
Arguments LErr {A} code.

Definition MDB_NOTFOUND : Z := -30798.

(** The Go error of an LMDB return whose not-found case is not singled out. *)
Definition lres_result {A} (r : lres A) : result A :=
  match r with
  | LOk a => Ok a
  | LNotFound => Err (ErrLmdb MDB_NOTFOUND)
  | LErr c => Err (ErrLmdb c)
  end.

(** [if lmdb.IsNotFound(err) { ... } if err != nil { return err }] *)
Definition lres_lookup {A} (r : lres A) : result (option A) :=
  match r with
  | LOk a => Ok (Some a)
  | LNotFound => Ok None
  | LErr c => Err (ErrLmdb c)
  end.

Class Lmdb (env : Type) := {
  mdb_begin : env → lres unit;
  mdb_commit : env → lres unit;
  mdb_get : env → bytes → lres bytes;
  mdb_put : env → bytes → bytes → lres env;
  mdb_del : env → bytes → lres env;
  mdb_drop : env → lres env;
  (** cursor operations; [mdb_next] and [mdb_prev] take the cursor's key *)
  mdb_set_range : env → bytes → lres (bytes * bytes);
  mdb_next : env → bytes → lres (bytes * bytes);
  mdb_prev : env → bytes → lres (bytes * bytes);
  mdb_last : env → lres (bytes * bytes)
}.

(** [env.View(fn)] *)
Definition View {env} `{Lmdb env} {A} (e : env) (fn : env → result A) : result A :=
  let! _ := lres_result (mdb_begin e) in fn e.

(** [env.Update(fn)]: commit when [fn] returns nil, abort otherwise. *)
Definition Update {env} `{Lmdb env} (e : env) (fn : env → result env) : result unit * env :=
  match lres_result (mdb_begin e) with
  | Err er => (Err er, e)
  | Ok _ =>
      match fn e with
      | Err er => (Err er, e)
      | Ok e' =>
          match lres_result (mdb_commit e') with
          | Err er => (Err er, e)
          | Ok _ => (Ok (), e')
          end
      end
  end.

(** ** Ordered lookups on finite maps *)

(** The best row under [le] whose key satisfies [P]. *)
Fixpoint pick (le : bytes → bytes → bool) (P : bytes → bool) (l : list (bytes * bytes)) :
    option (bytes * bytes) :=
  match l with
  | [] => None
  | kv :: l' =>
      if P kv.1 then
        match pick le P l' with
        | Some kv' => if le kv.1 kv'.1 then Some kv else Some kv'
        | None => Some kv
        end
      else pick le P l'
  end.

(** The least / greatest key that satisfies [P], with its value. *)
Definition first_key (m : gmap bytes bytes) (P : bytes → bool) : option (bytes * bytes) :=
  pick (λ a b, bool_decide (a ≤ b)%bytes) P (map_to_list m).
Definition last_key (m : gmap bytes bytes) (P : bytes → bool) : option (bytes * bytes) :=
  pick (λ a b, bool_decide (b ≤ a)%bytes) P (map_to_list m).

Definition key_ge (k k' : bytes) : bool := bool_decide (k ≤ k')%bytes.
Definition key_gt (k k' : bytes) : bool := bool_decide (k < k')%bytes.
Definition key_lt (k k' : bytes) : bool := bool_decide (k' < k)%bytes.
Definition any_key (k : bytes) : bool := true.

(** ** Laws *)

(** LMDB refuses empty keys and keys above its compiled-in maximum. *)
Definition valid_key (k : bytes) : Prop := 1 ≤ length k ≤ 511.

Definition lres_of {A} (o : option A) : lres A :=
  match o with Some a => LOk a | None => LNotFound end.

Class LmdbLaws (env : Type) `{Lmdb env} := {
  contents : env → gmap bytes bytes;
  faults : Prop;
  begin_law e : mdb_begin e = LOk () ∨ faults ∧ ∃ c, mdb_begin e = LErr c;
  commit_law e : mdb_commit e = LOk () ∨ faults ∧ ∃ c, mdb_commit e = LErr c;
  get_law e k :
    mdb_get e k = lres_of (contents e !! k) ∨ faults ∧ ∃ c, mdb_get e k = LErr c;
  put_law e k v :
    valid_key k →
    (∃ e', mdb_put e k v = LOk e' ∧ contents e' = <[k:=v]> (contents e)) ∨
    faults ∧ ∃ c, mdb_put e k v = LErr c;
  del_law e k :
    (∃ e', mdb_del e k = LOk e' ∧ is_Some (contents e !! k) ∧ contents e' = delete k (contents e)) ∨
    mdb_del e k = LNotFound ∧ contents e !! k = None ∨
    faults ∧ ∃ c, mdb_del e k = LErr c;
  drop_law e :
    (∃ e', mdb_drop e = LOk e' ∧ contents e' = ∅) ∨ faults ∧ ∃ c, mdb_drop e = LErr c;
  set_range_law e k :
    mdb_set_range e k = lres_of (first_key (contents e) (key_ge k)) ∨
    faults ∧ ∃ c, mdb_set_range e k = LErr c;
  next_law e k :
    mdb_next e k = lres_of (first_key (contents e) (key_gt k)) ∨
    faults ∧ ∃ c, mdb_next e k = LErr c;
  prev_law e k :
    mdb_prev e k = lres_of (last_key (contents e) (key_lt k)) ∨
    faults ∧ ∃ c, mdb_prev e k = LErr c;
  last_law e :
    mdb_last e = lres_of (last_key (contents e) any_key) ∨
    faults ∧ ∃ c, mdb_last e = LErr c
}.

(** ** The reference instance: a finite map, no faults *)

Definition map_env : Type := gmap bytes bytes.

#[export] Instance map_lmdb : Lmdb map_env := {|
  mdb_begin _ := LOk ();
  mdb_commit _ := LOk ();
  mdb_get (e : gmap bytes bytes) k := lres_of (e !! k);
  mdb_put (e : gmap bytes bytes) k v := LOk (<[k:=v]> e);
  mdb_del (e : gmap bytes bytes) k :=
    match e !! k with Some _ => LOk (delete k e) | None => LNotFound end;
  mdb_drop _ := LOk ∅;
  mdb_set_range e k := lres_of (first_key e (key_ge k));
  mdb_next e k := lres_of (first_key e (key_gt k));
  mdb_prev e k := lres_of (last_key e (key_lt k));
  mdb_last e := lres_of (last_key e any_key)
|}.

#[export] Instance map_lmdb_laws : LmdbLaws map_env.
Proof.
  refine {| contents := (λ e : map_env, e : gmap bytes bytes); faults := False |};
    try (intros; by left).
  - intros e k v _. left. by eexists.
  - intros e k. simpl. destruct (_ !! k) eqn:E; [left|right; left; done].
    eexists. by split_and!.
  - intros e. left. by eexists.
Defined.

(** ** Facts about ordered lookups *)

Section pick.
Context (R : bytes → bytes → Prop) `{∀ a b, Decision (R a b)}.
Context (R_trans : ∀ a b c, R a b → R b c → R a c) (R_total : ∀ a b, R a b ∨ R b a).
Context (R_antisym : ∀ a b, R a b → R b a → a = b).

Lemma pick_spec P l :
  match pick (λ a b, bool_decide (R a b)) P l with
  | Some kv => kv ∈ l ∧ P kv.1 = true ∧ ∀ kv', kv' ∈ l → P kv'.1 = true → R kv.1 kv'.1
  | None => ∀ kv, kv ∈ l → P kv.1 = false
  end.
Proof.
  induction l as [|kv l IH]; simpl; [by intros ? ?%elem_of_nil|].
  assert (∀ a, R a a) as R_refl by (intros a; by destruct (R_total a a)).
  destruct (P kv.1) eqn:EP;
    (destruct (pick _ _ _) as [kv'|];
     [destruct IH as (Hin & HP & Hmin); try case_bool_decide as HR|]).
  - split_and!; [left|done|]. intros kv'' [->|?]%elem_of_cons ?; eauto.
  - split_and!; [by right|done|]. intros kv'' [->|?]%elem_of_cons ?; [|eauto].
    by destruct (R_total kv.1 kv'.1).
  - split_and!; [left|done|]. intros kv'' [->|Hin]%elem_of_cons ?; [done|].
    apply IH in Hin. congruence.
  - split_and!; [by right|done|]. intros kv'' [->|?]%elem_of_cons ?; [congruence|eauto].
  - intros kv'' [->|?]%elem_of_cons; eauto.
Qed.

Lemma pick_map_Some (m : gmap bytes bytes) P k v :
  pick (λ a b, bool_decide (R a b)) P (map_to_list m) = Some (k, v) ↔
  m !! k = Some v ∧ P k = true ∧ ∀ k' v', m !! k' = Some v' → P k' = true → R k k'.
Proof.
  pose proof (pick_spec P (map_to_list m)) as Hp. split.
  - intros E. rewrite E in Hp. destruct Hp as (Hin & ? & Hmin).
    apply elem_of_map_to_list in Hin. split_and!; [done..|].
    intros k' v' ?%elem_of_map_to_list ?. by apply (Hmin (k', v')).
  - intros (Hk & HP & Hmin). destruct (pick _ _ _) as [[k' v']|].
    + destruct Hp as (Hin & HP' & Hmin'). apply elem_of_map_to_list in Hin.
      assert (k' = k) as ->.
      { apply R_antisym; [|by eapply Hmin].
        by apply (Hmin' (k, v)); [apply elem_of_map_to_list|]. }
      congruence.
    + assert (P k = false); [|congruence].
      by apply (Hp (k, v)), elem_of_map_to_list.
Qed.

Lemma pick_map_None (m : gmap bytes bytes) P :
  pick (λ a b, bool_decide (R a b)) P (map_to_list m) = None ↔
  ∀ k v, m !! k = Some v → P k = false.
Proof.
  pose proof (pick_spec P (map_to_list m)) as Hp. split.
  - intros E k v ?%elem_of_map_to_list. rewrite E in Hp. by apply (Hp (k, v)).
  - intros Hn. destruct (pick _ _ _) as [[k v]|]; [|done].
    destruct Hp as (Hin%elem_of_map_to_list & HP & _). simpl in HP.
    apply Hn in Hin. congruence.
Qed.
End pick.

Lemma first_key_Some m P k v :
  first_key m P = Some (k, v) ↔
  m !! k = Some v ∧ P k = true ∧ ∀ k' v', m !! k' = Some v' → P k' = true → (k ≤ k')%bytes.
Proof.
  apply (pick_map_Some bytes_le); eauto using bytes_le_trans, bytes_le_total, bytes_le_antisym.
Qed.

Lemma first_key_None m P : first_key m P = None ↔ ∀ k v, m !! k = Some v → P k = false.
Proof.
  apply (pick_map_None bytes_le); eauto using bytes_le_trans, bytes_le_total, bytes_le_antisym.
Qed.

Lemma last_key_Some m P k v :
  last_key m P = Some (k, v) ↔
  m !! k = Some v ∧ P k = true ∧ ∀ k' v', m !! k' = Some v' → P k' = true → (k' ≤ k)%bytes.
Proof.
  apply (pick_map_Some (λ a b, bytes_le b a));
    eauto using bytes_le_trans, bytes_le_antisym.
  intros a b. destruct (bytes_le_total a b); auto.
Qed.

Lemma last_key_None m P : last_key m P = None ↔ ∀ k v, m !! k = Some v → P k = false.
Proof.
  apply (pick_map_None (λ a b, bytes_le b a)); eauto using bytes_le_trans.
  intros a b. destruct (bytes_le_total a b); auto.
Qed.

(** ** Results up to faults *)

Section faults.
Context {env} `{LmdbLaws env}.

(** [r] is [s], or an LMDB error in an environment that may fault. *)
Definition upto_faults {A} (r s : result A) : Prop :=
  r = s ∨ faults ∧ ∃ c, r = Err (ErrLmdb c).

Lemma upto_refl {A} (r : result A) : upto_faults r r.
Proof. by left. Qed.

Lemma upto_eq {A} (r s : result A) : r = s → upto_faults r s.
Proof. by left. Qed.

Lemma upto_bind {A B} (r s : result A) (f g : A → result B) :
  upto_faults r s → (∀ a, s = Ok a → upto_faults (f a) (g a)) →
  upto_faults (rbind r f) (rbind s g).
Proof.
  intros [->|[? [c ->]]] Hfg; [|right; split; [done|by exists c]].
  destruct s as [a|er]; [by apply Hfg|by left].
Qed.

(** One step of a transaction body: the call returns what its law says, or
    the body stops with the LMDB error. *)
Lemma upto_trans_bind {A B} (a : A) (r : result A) (f : A → result B) s :
  upto_faults r (Ok a) → upto_faults (f a) s → upto_faults (rbind r f) s.
Proof. intros [->|[? [c ->]]] Hf; [done|right; eauto]. Qed.

Lemma upto_sound {A} (r s : result A) a : upto_faults r s → r = Ok a → s = Ok a.
Proof. intros [->|[_ [c ->]]] ?; congruence. Qed.

Lemma upto_no_faults {A} (r s : result A) : ¬ faults → upto_faults r s → r = s.
Proof. by intros ? [->|[? _]]. Qed.

Lemma lres_lookup_upto {A} (r : lres A) (o : option A) :
  r = lres_of o ∨ faults ∧ (∃ c, r = LErr c) → upto_faults (lres_lookup r) (Ok o).
Proof.
  intros [->|[? [c ->]]]; [left; by destruct o|right; split; [done|by exists c]].
Qed.

Lemma get_upto e k : upto_faults (lres_lookup (mdb_get e k)) (Ok (contents e !! k)).
Proof. apply lres_lookup_upto, get_law. Qed.

Lemma set_range_upto e k :
  upto_faults (lres_lookup (mdb_set_range e k)) (Ok (first_key (contents e) (key_ge k))).
Proof. apply lres_lookup_upto, set_range_law. Qed.

Lemma View_upto {A} e (fn : env → result A) s :
  upto_faults (fn e) s → upto_faults (View e fn) s.
Proof.
  unfold View. destruct (begin_law e) as [->|[? [c ->]]]; [done|].
  intros _. right. split; [done|by exists c].
Qed.

(** A write transaction either commits the transaction's effect or leaves
    the environment as it was. *)
Lemma Update_cases e fn r e' :
  Update e fn = (r, e') →
  r = Ok () ∧ fn e = Ok e' ∨ (∃ er, r = Err er) ∧ e' = e.
Proof.
  unfold Update. intros Hu. repeat case_match; simplify_eq; eauto.
Qed.

Lemma Update_ok e fn e' :
  ¬ faults → fn e = Ok e' → Update e fn = (Ok (), e').
Proof.
  intros Hf Hfn. unfold Update.
  destruct (begin_law e) as [->|[? _]]; [|done]. simpl. rewrite Hfn.
  destruct (commit_law e') as [->|[? _]]; [|done]. done.
Qed.

Lemma put_result e k v :
  valid_key k →
  (∃ e', lres_result (mdb_put e k v) = Ok e' ∧ contents e' = <[k:=v]> (contents e)) ∨
  faults ∧ ∃ c, lres_result (mdb_put e k v) = Err (ErrLmdb c).
Proof.
  intros Hk. destruct (put_law e k v Hk) as [(e' & -> & ?)|[? [c ->]]]; [left|right]; eauto.
Qed.
End faults.

#[export] Hint Resolve upto_refl get_upto set_range_upto : flat.
