(* ===== verification/Capture.v ===== *)
(** * Capture: the per-block capture batch and its encoding

    Models [capture/capture.go]: the operations a block's execution leaves
    behind (post-images only), the batch that carries them, and the binary
    encoding that the store keeps verbatim as a block's diff row and the tip
    bus ships in its events. *)

From S2P Require Import Prelude Schema.

(** ** Operations and batches *)

(** [capture.Op], a tagged union over [Kind]; [OpOther] stands for a value
    whose kind byte is none of the five constants. *)
Inductive Op :=
| OpAccount (addr : Address) (account : Account)
| OpSlot (addr : Address) (slot value : Hash)
| OpDeleteSlot (addr : Address) (slot : Hash)
| OpDestruct (addr : Address)
| OpCode (codeHash : Hash) (code : bytes)
| OpOther (kind : byte).

#[export] Instance Op_eq_dec : EqDecision Op.
Proof. solve_decision. Defined.

Definition KindAccount : byte := byte_lit 1.
Definition KindSlot : byte := byte_lit 2.
Definition KindDeleteSlot : byte := byte_lit 3.
Definition KindDestruct : byte := byte_lit 4.
Definition KindCode : byte := byte_lit 5.

Record Batch := MkBatch {
  Block : u64;
  BHash : Hash;
  Parent : Hash;
  Time : u64; (* unix milliseconds *)
  Ops : list Op
}.

#[export] Instance Batch_eq_dec : EqDecision Batch.
Proof. solve_decision. Defined.

(** ** Encoding *)

(** The body of the loop of [Batch.Encode]; [None] is its panic on an unknown
    kind. *)
Definition encode_op (dst : bytes) (op : Op) : option bytes :=
  match op with
  | OpAccount a acct =>
      let dst := dst ++ [KindAccount] in
      let dst := dst ++ abytes a in
      Some (EncodeAccount dst acct)
  | OpSlot a s v =>
      let dst := dst ++ [KindSlot] in
      let dst := dst ++ abytes a in
      let dst := dst ++ abytes s in
      Some (dst ++ abytes v)
  | OpDeleteSlot a s =>
      let dst := dst ++ [KindDeleteSlot] in
      let dst := dst ++ abytes a in
      Some (dst ++ abytes s)
  | OpDestruct a =>
      let dst := dst ++ [KindDestruct] in
      Some (dst ++ abytes a)
  | OpCode h c =>
      let dst := dst ++ [KindCode] in
      let dst := dst ++ abytes h in
      let dst := AppendUint32 dst (wrap (Z.of_nat (length c))) in
      Some (dst ++ c)
  | OpOther _ => None
  end.

Fixpoint encode_ops (dst : bytes) (ops : list Op) : option bytes :=
  match ops with
  | [] => Some dst
  | op :: ops' => dst ← encode_op dst op; encode_ops dst ops'
  end.

Definition Encode (b : Batch) (dst : bytes) : option bytes :=
  let dst := AppendUint64 dst (Block b) in
  let dst := dst ++ abytes (BHash b) in
  let dst := dst ++ abytes (Parent b) in
  let dst := AppendUint64 dst (Time b) in
  let dst := AppendUint32 dst (wrap (Z.of_nat (length (Ops b)))) in
  encode_ops dst (Ops b).

(** ** Decoding *)

(** [capture.reader]: the unread bytes and a sticky error. *)
Record reader := MkReader { r_b : bytes; r_err : option error }.

(** [reader.take]: [None] is Go's nil slice. *)
Definition rd_take (r : reader) (n : Z) : reader * option bytes :=
  match r_err r with
  | Some _ => (r, None)
  | None =>
      if (Z.of_nat (length (r_b r)) <? n)%Z
      then (MkReader (r_b r) (Some (ErrMsg "capture")), None)
      else (MkReader (drop (Z.to_nat n) (r_b r)) None, Some (take (Z.to_nat n) (r_b r)))
  end.

Definition rd_u8 (r : reader) : reader * byte :=
  let '(r, v) := rd_take r 1 in
  (r, match v with None => u_zero | Some v => default u_zero (head v) end).

Definition rd_u32 (r : reader) : reader * u32 :=
  let '(r, v) := rd_take r 4 in
  (r, match v with None => u_zero | Some v => Uint32 v end).

Definition rd_u64 (r : reader) : reader * u64 :=
  let '(r, v) := rd_take r 8 in
  (r, match v with None => u_zero | Some v => Uint64 v end).

(** [reader.bytes] into a zeroed destination of [n] bytes. *)
Definition rd_bytes (r : reader) (n : Z) : reader * bytes :=
  let '(r, v) := rd_take r n in
  (r, match v with None => [] | Some v => v end).

Definition rd_arr (r : reader) (n : nat) : reader * arr n :=
  let '(r, v) := rd_bytes r (Z.of_nat n) in (r, arr_of v).

Definition decode_op (r : reader) : reader * Op :=
  let '(r, kind) := rd_u8 r in
  if decide (kind = KindAccount) then
    let '(r, a) := rd_arr r 20 in
    let '(r, enc) := rd_arr r AccountSize in
    match r_err r with
    | None =>
        match DecodeAccount (abytes enc) with
        | Ok acct => (r, OpAccount a acct)
        | Err e => (MkReader (r_b r) (Some e), OpAccount a Account_zero)
        end
    | Some _ => (r, OpAccount a Account_zero)
    end
  else if decide (kind = KindSlot) then
    let '(r, a) := rd_arr r 20 in
    let '(r, s) := rd_arr r 32 in
    let '(r, v) := rd_arr r 32 in
    (r, OpSlot a s v)
  else if decide (kind = KindDeleteSlot) then
    let '(r, a) := rd_arr r 20 in
    let '(r, s) := rd_arr r 32 in
    (r, OpDeleteSlot a s)
  else if decide (kind = KindDestruct) then
    let '(r, a) := rd_arr r 20 in
    (r, OpDestruct a)
  else if decide (kind = KindCode) then
    let '(r, h) := rd_arr r 32 in
    let '(r, cl) := rd_u32 r in
    let '(r, c) := rd_bytes r cl in
    (r, OpCode h c)
  else
    (match r_err r with
     | None => MkReader (r_b r) (Some (ErrMsg "capture"))
     | Some _ => r
     end, OpOther kind).

(** The loop of [Decode]: [n] operations, stopping at the first error. *)
Fixpoint decode_ops (n : nat) (r : reader) (acc : list Op) : result (reader * list Op) :=
  match n with
  | O => Ok (r, acc)
  | S n' =>
      let '(r, op) := decode_op r in
      match r_err r with
      | Some e => Err e
      | None => decode_ops n' r (acc ++ [op])
      end
  end.

Definition Decode (data : bytes) : result Batch :=
  let r := MkReader data None in
  let '(r, block) := rd_u64 r in
  let '(r, hash) := rd_arr r 32 in
  let '(r, parent) := rd_arr r 32 in
  let '(r, time) := rd_u64 r in
  let '(r, n) := rd_u32 r in
  match r_err r with
  | Some e => Err e
  | None =>
      let! (r, ops) := decode_ops (Z.to_nat n) r [] in
      if Nat.eqb (length (r_b r)) 0
      then Ok (MkBatch block hash parent time ops)
      else Err (ErrMsg "capture")
  end.

(** ** The reader *)

Lemma rd_take_app x l n :
  Z.of_nat (length x) = n →
  rd_take (MkReader (x ++ l) None) n = (MkReader l None, Some x).
Proof.
  intros <-. unfold rd_take. cbn [r_err r_b]. rewrite length_app.
  destruct (Z.ltb_spec (Z.of_nat (length x + length l)) (Z.of_nat (length x))); [lia|].
  by rewrite Nat2Z.id, drop_app_length, take_app_length.
Qed.

Lemma rd_take_inv r n r' v :
  (0 ≤ n)%Z → rd_take r n = (r', v) → r_err r' = None →
  ∃ x, v = Some x ∧ Z.of_nat (length x) = n ∧ r = MkReader (x ++ r_b r') None.
Proof.
  intros Hn. destruct r as [b er]. unfold rd_take. cbn [r_err r_b].
  destruct er; [intros [= <- <-]; done|].
  destruct (Z.ltb_spec (Z.of_nat (length b)) n); intros [= <- <-]; [done|]. intros _.
  eexists. split_and!; [done| |].
  - rewrite length_take. lia.
  - cbn [r_b]. by rewrite take_drop.
Qed.

Lemma rd_u8_cons x l : rd_u8 (MkReader (x :: l) None) = (MkReader l None, x).
Proof. unfold rd_u8. by rewrite (rd_take_app [x] l). Qed.

Lemma rd_u32_app (x : u32) l : rd_u32 (MkReader (be_bytes 4 x ++ l) None) = (MkReader l None, x).
Proof.
  unfold rd_u32. rewrite rd_take_app by len_solve.
  rewrite <-(app_nil_r (be_bytes 4 x)). by rewrite Uint32_be_bytes.
Qed.

Lemma rd_u64_app (x : u64) l : rd_u64 (MkReader (be_bytes 8 x ++ l) None) = (MkReader l None, x).
Proof. unfold rd_u64. rewrite rd_take_app by len_solve. by rewrite Uint64_be_bytes'. Qed.

Lemma rd_bytes_app x l n :
  Z.of_nat (length x) = n → rd_bytes (MkReader (x ++ l) None) n = (MkReader l None, x).
Proof. intros. unfold rd_bytes. by rewrite rd_take_app. Qed.

Lemma rd_arr_app {n} (a : arr n) l :
  rd_arr (MkReader (abytes a ++ l) None) n = (MkReader l None, a).
Proof. unfold rd_arr. rewrite rd_bytes_app by len_solve. by rewrite arr_of_abytes. Qed.

Lemma rd_u8_inv r r' x :
  rd_u8 r = (r', x) → r_err r' = None → r = MkReader (x :: r_b r') None.
Proof.
  unfold rd_u8. destruct (rd_take r 1) as [r0 v] eqn:E. intros [= <- <-] He.
  apply rd_take_inv in E as (y & -> & Hl & ->); [|done..].
  destruct y as [|z [|]]; simpl in *; try lia. done.
Qed.

Lemma rd_u32_inv r r' x :
  rd_u32 r = (r', x) → r_err r' = None → r = MkReader (be_bytes 4 x ++ r_b r') None.
Proof.
  unfold rd_u32. destruct (rd_take r 4) as [r0 v] eqn:E. intros [= <- <-] He.
  apply rd_take_inv in E as (y & -> & Hl & ->); [|done..]. by rewrite be_bytes_Uint32 by lia.
Qed.

Lemma rd_u64_inv r r' x :
  rd_u64 r = (r', x) → r_err r' = None → r = MkReader (be_bytes 8 x ++ r_b r') None.
Proof.
  unfold rd_u64. destruct (rd_take r 8) as [r0 v] eqn:E. intros [= <- <-] He.
  apply rd_take_inv in E as (y & -> & Hl & ->); [|done..]. by rewrite be_bytes_Uint64 by lia.
Qed.

Lemma rd_bytes_inv r n r' x :
  (0 ≤ n)%Z → rd_bytes r n = (r', x) → r_err r' = None →
  Z.of_nat (length x) = n ∧ r = MkReader (x ++ r_b r') None.
Proof.
  unfold rd_bytes. destruct (rd_take r n) as [r0 v] eqn:E. intros ? [= <- <-] He.
  apply rd_take_inv in E as (y & -> & Hl & ->); done.
Qed.

Lemma rd_arr_inv {n} r r' (a : arr n) :
  rd_arr r n = (r', a) → r_err r' = None → r = MkReader (abytes a ++ r_b r') None.
Proof.
  unfold rd_arr. destruct (rd_bytes r _) as [r0 v] eqn:E. intros [= <- <-] He.
  apply rd_bytes_inv in E as [Hl ->]; [|lia|done]. by rewrite abytes_arr_of by lia.
Qed.

(** ** One operation *)

Definition op_ok (op : Op) : Prop :=
  match op with
  | OpCode _ c => (Z.of_nat (length c) < 2 ^ 32)%Z
  | OpOther _ => False
  | _ => True
  end.

#[export] Instance op_ok_dec op : Decision (op_ok op).
Proof. destruct op; apply _. Defined.

Lemma encode_op_app dst op : encode_op dst op = (dst ++.) <$> encode_op [] op.
Proof.
  destruct op; cbn -[EncodeAccount]; unfold AppendUint32; try done; f_equal;
    rewrite ?(EncodeAccount_app (_ ++ _)), ?(EncodeAccount_app (_ :: _)), <-?(assoc_L (++)); done.
Qed.

(** [decode_op] after its kind byte has been read. *)
Ltac kind_cases :=
  repeat (rewrite decide_False by (intros Hk; apply (f_equal uval) in Hk; discriminate Hk));
  rewrite ?decide_True by done.

Lemma decode_op_encode op x l :
  op_ok op → encode_op [] op = Some x →
  decode_op (MkReader (x ++ l) None) = (MkReader l None, op).
Proof.
  intros Hok Hx. unfold decode_op.
  destruct op as [a acct|a s v|a s|a|h c|k]; unfold encode_op in Hx; simplify_eq; try done.
  - rewrite EncodeAccount_app, <-!(assoc_L (++)). cbn [app]. rewrite rd_u8_cons. kind_cases.
    rewrite rd_arr_app.
    assert (EncodeAccount [] acct = abytes (arr_of (n:=AccountSize) (EncodeAccount [] acct))) as ->.
    { by rewrite abytes_arr_of by apply length_EncodeAccount. }
    rewrite rd_arr_app. cbn [r_err]. rewrite abytes_arr_of by apply length_EncodeAccount.
    by rewrite DecodeAccount_Encode.
  - rewrite <-!(assoc_L (++)). cbn [app]. rewrite rd_u8_cons. kind_cases. by rewrite !rd_arr_app.
  - rewrite <-!(assoc_L (++)). cbn [app]. rewrite rd_u8_cons. kind_cases. by rewrite !rd_arr_app.
  - rewrite <-!(assoc_L (++)). cbn [app]. rewrite rd_u8_cons. kind_cases. by rewrite !rd_arr_app.
  - unfold AppendUint32. rewrite <-!(assoc_L (++)). cbn [app]. rewrite rd_u8_cons. kind_cases.
    rewrite rd_arr_app, rd_u32_app, rd_bytes_app; [done|].
    simpl in Hok. rewrite wrap_small; lia.
Qed.

Lemma decode_op_inv r r' op :
  decode_op r = (r', op) → r_err r' = None →
  op_ok op ∧ ∃ x, encode_op [] op = Some x ∧ r = MkReader (x ++ r_b r') None.
Proof.
  unfold decode_op. destruct (rd_u8 r) as [r0 kind] eqn:E0. intros H He.
  repeat case_decide; try subst kind.
  - destruct (rd_arr r0 20) as [r1 a] eqn:E1, (rd_arr r1 AccountSize) as [r2 enc] eqn:E2.
    destruct (r_err r2) eqn:He2; [simplify_eq; congruence|].
    destruct (DecodeAccount (abytes enc)) as [acct|] eqn:Ed; simplify_eq.
    split; [done|]. apply rd_arr_inv in E2 as ->; [|done].
    apply rd_arr_inv in E1 as ->; [|done]. apply rd_u8_inv in E0 as ->; [|done].
    eexists. split; [done|]. rewrite EncodeAccount_app. apply DecodeAccount_iff in Ed as ->.
    by rewrite <-!(assoc_L (++)).
  - destruct (rd_arr r0 20) as [r1 a] eqn:E1, (rd_arr r1 32) as [r2 s] eqn:E2,
      (rd_arr r2 32) as [r3 v] eqn:E3. simplify_eq. split; [done|].
    apply rd_arr_inv in E3 as ->; [|done]. apply rd_arr_inv in E2 as ->; [|done].
    apply rd_arr_inv in E1 as ->; [|done]. apply rd_u8_inv in E0 as ->; [|done].
    eexists. split; [done|]. by rewrite <-!(assoc_L (++)).
  - destruct (rd_arr r0 20) as [r1 a] eqn:E1, (rd_arr r1 32) as [r2 s] eqn:E2.
    simplify_eq. split; [done|]. apply rd_arr_inv in E2 as ->; [|done].
    apply rd_arr_inv in E1 as ->; [|done]. apply rd_u8_inv in E0 as ->; [|done].
    eexists. split; [done|]. by rewrite <-!(assoc_L (++)).
  - destruct (rd_arr r0 20) as [r1 a] eqn:E1. simplify_eq. split; [done|].
    apply rd_arr_inv in E1 as ->; [|done]. apply rd_u8_inv in E0 as ->; [|done].
    eexists. split; [done|]. by rewrite <-!(assoc_L (++)).
  - destruct (rd_arr r0 32) as [r1 h] eqn:E1, (rd_u32 r1) as [r2 cl] eqn:E2,
      (rd_bytes r2 cl) as [r3 c] eqn:E3. simplify_eq.
    apply rd_bytes_inv in E3 as [Hl ->]; [|ulia|done]. apply rd_u32_inv in E2 as ->; [|done].
    apply rd_arr_inv in E1 as ->; [|done]. apply rd_u8_inv in E0 as ->; [|done].
    split; [simpl; ulia|]. eexists. split; [done|].
    unfold AppendUint32. by rewrite Hl, wrap_uval, <-!(assoc_L (++)).
  - destruct (r_err r0) eqn:?; simplify_eq; simpl in *; congruence.
Qed.

(** ** The whole batch *)

(** What fits the encoding: known kinds, and the two [uint32] length fields. *)
Definition encodable (b : Batch) : Prop :=
  (Z.of_nat (length (Ops b)) < 2 ^ 32)%Z ∧ Forall op_ok (Ops b).

#[export] Instance encodable_dec b : Decision (encodable b).
Proof. unfold encodable. apply _. Defined.

Lemma encode_ops_app dst ops : encode_ops dst ops = (dst ++.) <$> encode_ops [] ops.
Proof.
  revert dst. induction ops as [|op ops IH]; intros dst; simpl.
  - by rewrite app_nil_r.
  - rewrite (encode_op_app dst). destruct (encode_op [] op) as [x|]; simpl; [|done].
    rewrite (IH (dst ++ x)), (IH x). destruct (encode_ops [] ops); simpl; [|done].
    by rewrite <-(assoc_L (++)).
Qed.

Lemma decode_ops_encode ops x l acc :
  Forall op_ok ops → encode_ops [] ops = Some x →
  decode_ops (length ops) (MkReader (x ++ l) None) acc = Ok (MkReader l None, acc ++ ops).
Proof.
  revert x acc. induction ops as [|op ops IH]; intros x acc; simpl.
  - intros _ [= <-]. by rewrite app_nil_r.
  - intros [Hop Hops]%Forall_cons Hx.
    destruct (encode_op [] op) as [y|] eqn:Ey; simplify_eq/=.
    rewrite encode_ops_app in Hx. destruct (encode_ops [] ops) as [z|]; simplify_eq/=.
    rewrite <-(assoc_L (++)), (decode_op_encode op) by done. cbn [r_err].
    rewrite IH by done. by rewrite <-(assoc_L (++)).
Qed.

Lemma decode_ops_inv n r acc r' ops :
  r_err r = None → decode_ops n r acc = Ok (r', ops) →
  ∃ ops' x, ops = acc ++ ops' ∧ length ops' = n ∧ Forall op_ok ops' ∧
    encode_ops [] ops' = Some x ∧ r_err r' = None ∧ r = MkReader (x ++ r_b r') None.
Proof.
  revert r acc. induction n as [|n IH]; intros r acc Hr; simpl.
  - intros [= <- <-]. exists [], []. rewrite app_nil_r. split_and!; try done.
    destruct r; simpl in *; congruence.
  - destruct (decode_op r) as [r1 op] eqn:Eop. destruct (r_err r1) eqn:He; [done|].
    intros (ops' & x & -> & <- & Hok & Henc & ? & Hr1)%IH; [|done].
    apply decode_op_inv in Eop as (? & y & Hy & ->); [|done].
    exists (op :: ops'), (y ++ x). simpl. rewrite Hy. simpl.
    rewrite encode_ops_app, Henc, <-!(assoc_L (++)). subst r1. split_and!; auto.
Qed.

Lemma encode_ops_total ops : Forall op_ok ops → is_Some (encode_ops [] ops).
Proof.
  induction 1 as [|op ops Hop _ IH]; simpl; [done|].
  destruct op; simpl in *; try done; rewrite encode_ops_app; destruct IH as [x ->]; by eexists.
Qed.

(** The batch encoding is a bijection between the batches that fit it and
    the byte strings [Decode] accepts: decoding yields [b] exactly when the
    bytes are [b]'s encoding.  In particular the diff row read back is the
    batch that was written, and every truncated, padded or unknown-kind input
    is refused. *)
Lemma Decode_iff data b : Decode data = Ok b ↔ encodable b ∧ Encode b [] = Some data.
Proof.
  unfold Decode, Encode, AppendUint64, AppendUint32. cbn [app]. split.
  - destruct (rd_u64 _) as [r1 block] eqn:E1, (rd_arr r1 32) as [r2 hash] eqn:E2,
      (rd_arr r2 32) as [r3 parent] eqn:E3, (rd_u64 r3) as [r4 time] eqn:E4,
      (rd_u32 r4) as [r5 n] eqn:E5.
    destruct (r_err r5) eqn:He; [done|].
    destruct (decode_ops _ _ _) as [[r6 ops]|] eqn:Eops; simpl; [|done].
    destruct (Nat.eqb_spec (length (r_b r6)) 0) as [Hn%nil_length_inv|]; [|done].
    intros [= <-].
    apply decode_ops_inv in Eops as (ops' & x & -> & Hl & Hok & Henc & _ & ->); [|done].
    rewrite Hn, app_nil_r in *. simpl in *.
    apply rd_u32_inv in E5 as ->; [|done]. apply rd_u64_inv in E4 as ->; [|done].
    apply rd_arr_inv in E3 as ->; [|done]. apply rd_arr_inv in E2 as ->; [|done].
    apply rd_u64_inv in E1; [|done]. injection E1 as ->.
    unfold encodable. simpl. rewrite Hl, Z2Nat.id, wrap_uval by ulia.
    rewrite encode_ops_app, Henc. simpl. rewrite <-!(assoc_L (++)).
    split_and!; try done. ulia.
  - intros [[Hlen Hok] Henc]. rewrite encode_ops_app in Henc.
    destruct (encode_ops [] (Ops b)) as [x|] eqn:Ex; simplify_eq/=.
    rewrite <-!(assoc_L (++)).
    rewrite rd_u64_app, rd_arr_app, rd_arr_app, rd_u64_app, rd_u32_app. cbn [r_err].
    rewrite wrap_small, Nat2Z.id by lia. rewrite <-(app_nil_r x).
    rewrite (decode_ops_encode (Ops b)) by done. simpl. by destruct b.
Qed.

Lemma Encode_total b : encodable b → is_Some (Encode b []).
Proof.
  intros [_ Hok]. unfold Encode. rewrite encode_ops_app.
  destruct (encode_ops_total _ Hok) as [x ->]. by eexists.
Qed.

Lemma Decode_Encode b data : encodable b → Encode b [] = Some data → Decode data = Ok b.
Proof. intros. by apply Decode_iff. Qed.

Lemma Encode_app b dst : Encode b dst = (dst ++.) <$> Encode b [].
Proof.
  unfold Encode, AppendUint64, AppendUint32. cbn [app].
  rewrite encode_ops_app. rewrite (encode_ops_app ((((be_bytes 8 _ ++ _) ++ _) ++ _) ++ _)).
  destruct (encode_ops [] (Ops b)); simpl; [|done]. by rewrite <-!(assoc_L (++)).
Qed.
