(* ===== verification/World.v ===== *)
(** * World: the reference semantics of a chain of capture batches

    The contract between the packages is stated here once, away from any
    storage layout: a world maps addresses to accounts and slots to values, a
    batch transforms it operation by operation, and a history is a baseline
    world with the accepted batches above it.  [store], [mem] and [replay] are
    proved to implement these functions. *)

From S2P Require Import Prelude Schema Capture.

(** ** Worlds *)

Record world := MkWorld {
  w_acct : Address → option Account;
  w_slot : Address → Hash → Hash
}.

(** Worlds are compared by what they answer. *)
Definition world_eq (w1 w2 : world) : Prop :=
  (∀ a, w_acct w1 a = w_acct w2 a) ∧ (∀ a s, w_slot w1 a s = w_slot w2 a s).

#[export] Instance world_equiv : Equiv world := world_eq.
#[export] Instance world_equivalence : Equivalence (≡@{world}).
Proof.
  split.
  - by intros w.
  - intros w1 w2 [Ha Hs]. split; intros; symmetry; auto.
  - intros w1 w2 w3 [Ha Hs] [Ha' Hs']. split; intros; etrans; eauto.
Qed.

Definition zero_hash : Hash := arr_zero.

(** ** Batches transform worlds *)

Definition apply_op (w : world) (op : Op) : world :=
  match op with
  | OpAccount a acct =>
      MkWorld (λ a', if decide (a' = a) then Some acct else w_acct w a') (w_slot w)
  | OpSlot a s v =>
      MkWorld (w_acct w) (λ a' s', if decide (a' = a ∧ s' = s) then v else w_slot w a' s')
  | OpDeleteSlot a s =>
      MkWorld (w_acct w) (λ a' s', if decide (a' = a ∧ s' = s) then zero_hash else w_slot w a' s')
  | OpDestruct a =>
      MkWorld (λ a', if decide (a' = a) then None else w_acct w a')
              (λ a' s', if decide (a' = a) then zero_hash else w_slot w a' s')
  | OpCode _ _ | OpOther _ => w
  end.

Definition apply_ops (w : world) (ops : list Op) : world := foldl apply_op w ops.
Definition apply_batch (w : world) (b : Batch) : world := apply_ops w (Ops b).
Definition apply_batches (w : world) (bs : list Batch) : world := foldl apply_batch w bs.

Lemma apply_batches_app w bs bs' : apply_batches w (bs ++ bs') = apply_batches (apply_batches w bs) bs'.
Proof. apply foldl_app. Qed.

(** The state at the end of block [B]: the batches at or below [B]. *)
Definition world_at (base : world) (bs : list Batch) (B : Z) : world :=
  apply_batches base (filter (λ b, (Block b ≤ B)%Z) bs).

#[export] Instance apply_op_proper : Proper ((≡) ==> (=) ==> (≡)) apply_op.
Proof.
  intros w1 w2 [Ha Hs] op ? <-. destruct op; split; simpl; intros; repeat case_decide; auto.
Qed.

#[export] Instance apply_ops_proper : Proper ((≡) ==> (=) ==> (≡)) apply_ops.
Proof.
  intros w1 w2 Hw ops ? <-. unfold apply_ops. revert w1 w2 Hw.
  induction ops as [|op ops IH]; intros w1 w2 Hw; simpl; [done|]. apply IH. by rewrite Hw.
Qed.

#[export] Instance apply_batches_proper : Proper ((≡) ==> (=) ==> (≡)) apply_batches.
Proof.
  intros w1 w2 Hw bs ? <-. unfold apply_batches. revert w1 w2 Hw.
  induction bs as [|b bs IH]; intros w1 w2 Hw; simpl; [done|]. apply IH.
  unfold apply_batch. by rewrite Hw.
Qed.

(** ** The net effect of a batch *)

(** The last account / slot post-image of a batch that no later destruct in
    the same batch wipes, and whether the batch destructs the account. *)
Definition net_acct_op (a : Address) (acc : option Account) (op : Op) : option Account :=
  match op with
  | OpAccount a' x => if decide (a = a') then Some x else acc
  | OpDestruct a' => if decide (a = a') then None else acc
  | _ => acc
  end.
Definition net_slot_op (a : Address) (s : Hash) (acc : option Hash) (op : Op) : option Hash :=
  match op with
  | OpSlot a' s' v => if decide (a = a' ∧ s = s') then Some v else acc
  | OpDeleteSlot a' s' => if decide (a = a' ∧ s = s') then Some zero_hash else acc
  | OpDestruct a' => if decide (a = a') then None else acc
  | _ => acc
  end.
Definition net_acct (ops : list Op) (a : Address) : option Account :=
  foldl (net_acct_op a) None ops.
Definition net_slot (ops : list Op) (a : Address) (s : Hash) : option Hash :=
  foldl (net_slot_op a s) None ops.
Definition destructs (ops : list Op) (a : Address) : bool :=
  bool_decide (OpDestruct a ∈ ops).

Lemma net_acct_snoc ops op a :
  net_acct (ops ++ [op]) a = net_acct_op a (net_acct ops a) op.
Proof. unfold net_acct. by rewrite foldl_snoc. Qed.

Lemma net_slot_snoc ops op a s :
  net_slot (ops ++ [op]) a s = net_slot_op a s (net_slot ops a s) op.
Proof. unfold net_slot. by rewrite foldl_snoc. Qed.

Lemma destructs_snoc ops op a :
  destructs (ops ++ [op]) a = destructs ops a || bool_decide (op = OpDestruct a).
Proof.
  unfold destructs. apply eq_bool_prop_intro. rewrite orb_True, !bool_decide_spec.
  rewrite elem_of_app, list_elem_of_singleton. naive_solver.
Qed.

Lemma apply_ops_acct w ops a :
  w_acct (apply_ops w ops) a =
  match net_acct ops a with
  | Some x => Some x
  | None => if destructs ops a then None else w_acct w a
  end.
Proof.
  unfold apply_ops. induction ops as [|op ops IH] using rev_ind; [done|].
  rewrite foldl_snoc, net_acct_snoc, destructs_snoc.
  destruct op as [a' x|a' s v|a' s|a'|h c|k]; cbn [apply_op w_acct net_acct_op];
    rewrite ?IH; repeat case_decide; simplify_eq;
    rewrite ?bool_decide_eq_false_2, ?orb_false_r by congruence; try done.
  by rewrite bool_decide_eq_true_2, orb_true_r.
Qed.

Lemma apply_ops_slot w ops a s :
  w_slot (apply_ops w ops) a s =
  match net_slot ops a s with
  | Some v => v
  | None => if destructs ops a then zero_hash else w_slot w a s
  end.
Proof.
  unfold apply_ops. induction ops as [|op ops IH] using rev_ind; [done|].
  rewrite foldl_snoc, net_slot_snoc, destructs_snoc.
  destruct op as [a' x|a' s' v|a' s'|a'|h c|k]; cbn [apply_op w_slot net_slot_op];
    rewrite ?IH; repeat case_decide; simplify_eq;
    rewrite ?bool_decide_eq_false_2, ?orb_false_r by congruence; try done; try naive_solver.
  by rewrite bool_decide_eq_true_2, orb_true_r.
Qed.

(** ** The capture contract (package comment of [capture])

    Within a batch destructs come first, and an account that is destructed
    and still has slot writes was recreated by an account write. *)

(** The account an operation writes, or whose slot it writes. *)
Definition write_addr (op : Op) : option Address :=
  match op with
  | OpAccount a _ | OpSlot a _ _ | OpDeleteSlot a _ => Some a
  | _ => None
  end.
Definition slot_addr (op : Op) : option Address :=
  match op with OpSlot a _ _ | OpDeleteSlot a _ => Some a | _ => None end.
Definition account_addr (op : Op) : option Address :=
  match op with OpAccount a _ => Some a | _ => None end.

Fixpoint destructs_first (ops : list Op) : Prop :=
  match ops with
  | [] => True
  | op :: ops' =>
      match write_addr op with Some a => OpDestruct a ∉ ops' | None => True end ∧
      destructs_first ops'
  end.

Definition recreates (ops : list Op) : Prop :=
  Forall (λ op, match slot_addr op with
                | Some a => OpDestruct a ∈ ops → Exists (λ op', account_addr op' = Some a) ops
                | None => True
                end) ops.

Definition contract (b : Batch) : Prop := destructs_first (Ops b) ∧ recreates (Ops b).

#[export] Instance destructs_first_dec ops : Decision (destructs_first ops).
Proof.
  induction ops as [|op ops IH]; simpl; [apply _|].
  destruct (write_addr op); apply _.
Defined.
#[export] Instance recreates_dec ops : Decision (recreates ops).
Proof. apply Forall_dec. intros op. destruct (slot_addr op); apply _. Defined.
#[export] Instance contract_dec b : Decision (contract b).
Proof. unfold contract. apply _. Defined.

Lemma destructs_first_snoc ops op :
  destructs_first (ops ++ [op]) →
  destructs_first ops ∧
  ∀ a op', op = OpDestruct a → op' ∈ ops → write_addr op' ≠ Some a.
Proof.
  induction ops as [|op0 ops IH]; simpl.
  - intros _. split; [done|]. intros ? ? _ ?%elem_of_nil. done.
  - intros [H0 [Hd Hw]%IH]. split.
    + split; [|done]. destruct (write_addr op0); [|done]. set_solver.
    + intros a op' -> [->|?]%elem_of_cons; [|eauto].
      destruct (write_addr op0); set_solver.
Qed.

Lemma net_acct_unwritten ops a :
  (∀ op, op ∈ ops → write_addr op ≠ Some a) → net_acct ops a = None.
Proof.
  induction ops as [|op ops IH] using rev_ind; intros Hw; [done|].
  rewrite net_acct_snoc, IH by set_solver.
  assert (write_addr op ≠ Some a) as Hop by set_solver.
  destruct op; simpl in *; try case_decide; simplify_eq; done.
Qed.

Lemma net_slot_unwritten ops a s :
  (∀ op, op ∈ ops → write_addr op ≠ Some a) → net_slot ops a s = None.
Proof.
  induction ops as [|op ops IH] using rev_ind; intros Hw; [done|].
  rewrite net_slot_snoc, IH by set_solver.
  assert (write_addr op ≠ Some a) as Hop by set_solver.
  destruct op; simpl in *; try case_decide; simplify_eq; naive_solver.
Qed.

Lemma net_acct_is_Some ops a :
  destructs_first ops → (∃ op, op ∈ ops ∧ account_addr op = Some a) → is_Some (net_acct ops a).
Proof.
  induction ops as [|op ops IH] using rev_ind; intros Hd (op' & Hin & Ha);
    [by apply elem_of_nil in Hin|].
  apply destructs_first_snoc in Hd as [Hd Hw]. rewrite net_acct_snoc.
  apply elem_of_app in Hin as [Hin| ->%list_elem_of_singleton].
  - destruct op as [a' x|a' s v|a' s|a'|h c|k]; simpl; try (apply IH; eauto).
    + case_decide; [by eexists|]. apply IH; eauto.
    + case_decide; [|apply IH; eauto]. subst.
      exfalso. eapply (Hw a' op'); [done..|]. by destruct op'; simplify_eq/=.
  - destruct op; simplify_eq/=. rewrite decide_True by done. by eexists.
Qed.

Lemma net_slot_write ops a s v :
  net_slot ops a s = Some v → ∃ op, op ∈ ops ∧ slot_addr op = Some a.
Proof.
  induction ops as [|op ops IH] using rev_ind; [done|]. rewrite net_slot_snoc.
  destruct op as [a' x|a' s' v'|a' s'|a'|h c|k]; simpl; try case_decide; intros Hn;
    try (destruct IH as (op' & ? & ?); [by simplify_eq|]; exists op'; set_solver);
    destruct_and?; simplify_eq;
    (eexists; split; [apply elem_of_app; right; by apply list_elem_of_singleton|done]).
Qed.

(** Under the contract a destructed account with a live slot write has an
    account post-image in the same batch. *)
Lemma contract_recreated b a s v :
  contract b → destructs (Ops b) a = true → net_slot (Ops b) a s = Some v →
  is_Some (net_acct (Ops b) a).
Proof.
  intros [Hd Hr] Hde%bool_decide_eq_true (op & Hin & Ha)%net_slot_write.
  apply net_acct_is_Some; [done|]. eapply Forall_forall in Hr; [|done].
  rewrite Ha in Hr. specialize (Hr Hde). by apply Exists_exists in Hr as (op' & ? & ?); eauto.
Qed.
