(* ===== verification/Store.v ===== *)
(** * Store: the main environment, writing side

    Models [store/store.go]: the handle with its two caches, the meta rows,
    the per-block write transaction, and the baseline bulk loader.  Opening and
    closing the environment is file-system work and is left out; [env] is the
    LMDB environment (see [Lmdb]). *)

From S2P Require Import Prelude Schema Lmdb Capture.

(** [store.DB]: the environment, and the cached history genesis (plus one, zero
    when not yet observed) and baseline watermark. *)
Record DB (env : Type) := MkDB {
  db_env : env;
  genesisPlus1 : u64;
  baselineDone : bool
}.
Arguments MkDB {env} _ _ _.
Arguments db_env {env} _.
Arguments genesisPlus1 {env} _.
Arguments baselineDone {env} _.

Definition set_env {env} (d : DB env) (e : env) : DB env :=
  MkDB e (genesisPlus1 d) (baselineDone d).

(** [store.blOp] and [store.Baseline] (its [d] field is passed alongside). *)
Record blOp := MkBlOp { bo_k : bytes; bo_v : bytes; bo_del : bool }.
Record Baseline := MkBaseline {
  bl_s : u64;
  bl_ops : list blOp;
  bl_progress : option bytes
}.

Definition beBytes (v : u64) : bytes := AppendUint64 [] v.
Definition beU64 (b : bytes) : u64 := Uint64 b.

(** rows per write transaction: [1 << 16] *)
Definition baselineChunk : Z := Z.shiftl 1 16.

Section store.
Context {env : Type} `{Lmdb env}.

(** ** Meta rows *)

Definition putMeta (d : DB env) (key val : bytes) : result unit * DB env :=
  let '(r, e) := Update (db_env d) (λ txn, lres_result (mdb_put txn key val)) in
  (r, set_env d e).

Definition getMetaU64 (txn : env) (key : bytes) : result (option u64) :=
  let! v := lres_lookup (mdb_get txn key) in
  match v with
  | None => Ok None
  | Some v => if Nat.eqb (length v) 8 then Ok (Some (beU64 v)) else Err (ErrMsg "store")
  end.

Definition Genesis (d : DB env) : result (option u64) * DB env :=
  if bool_decide (genesisPlus1 d ≠ u_zero) then (Ok (Some (u_sub (genesisPlus1 d) (wrap 1))), d)
  else
    let r := View (db_env d) (λ txn, getMetaU64 txn MetaGenesis) in
    match r with
    | Ok (Some s) => (r, MkDB (db_env d) (u_add s (wrap 1)) (baselineDone d))
    | _ => (r, d)
    end.

Definition BaselineComplete (d : DB env) : result bool * DB env :=
  if baselineDone d then (Ok true, d)
  else
    let r := View (db_env d) (λ txn,
      match mdb_get txn MetaBaselineComplete with
      | LNotFound => Ok false
      | LOk _ => Ok true
      | LErr c => Err (ErrLmdb c)
      end) in
    match r with
    | Ok true => (r, MkDB (db_env d) (genesisPlus1 d) true)
    | _ => (r, d)
    end.

Definition Finalized (d : DB env) : result (option u64) :=
  View (db_env d) (λ txn, getMetaU64 txn MetaFinalized).

Definition SetFinalized (d : DB env) (h : u64) : result unit * DB env :=
  putMeta d MetaFinalized (beBytes h).

(** ** Per-block write *)

(** The row an operation writes; [None] is the unknown-kind error. *)
Definition op_row (block : u64) (op : Op) : option (bytes * bytes) :=
  match op with
  | OpAccount a acct => Some (AppendAccountKey [] a block, EncodeAccount [] acct)
  | OpSlot a s v => Some (AppendSlotKey [] a s block, abytes v)
  | OpDeleteSlot a s => Some (AppendSlotKey [] a s block, replicate 32 u_zero)
  | OpDestruct a => Some (AppendDestructKey [] a block, [])
  | OpCode h c => Some (AppendCodeKey [] h, c)
  | OpOther _ => None
  end.

Fixpoint write_ops (txn : env) (block : u64) (ops : list Op) : result env :=
  match ops with
  | [] => Ok txn
  | op :: ops' =>
      match op_row block op with
      | None => Err (ErrMsg "store")
      | Some (k, v) =>
          let! txn := lres_result (mdb_put txn k v) in
          write_ops txn block ops'
      end
  end.

(** The encoder's panic on an unknown kind cannot be reached: the loop above
    has already refused such an operation. *)
Definition WriteBlock (d : DB env) (b : Batch) : result unit * DB env :=
  let '(r, e) := Update (db_env d) (λ txn,
    let! txn := write_ops txn (Block b) (Ops b) in
    match Encode b [] with
    | Some v => lres_result (mdb_put txn (AppendDiffKey [] (Block b)) v)
    | None => Err (ErrMsg "panic")
    end) in
  (r, set_env d e).

(** ** Baseline bulk load *)

Definition NewBaseline (d : DB env) (s : u64) : result Baseline * DB env :=
  let '(r, d) := Genesis d in
  match r with
  | Err e => (Err e, d)
  | Ok (Some cur) =>
      if bool_decide (cur ≠ s) then (Err (ErrMsg "store"), d)
      else (Ok (MkBaseline s [] None), d)
  | Ok None =>
      let '(r, d) := putMeta d MetaGenesis (beBytes s) in
      match r with
      | Err e => (Err e, d)
      | Ok _ =>
          (Ok (MkBaseline s [] None), MkDB (db_env d) (u_add s (wrap 1)) (baselineDone d))
      end
  end.

Fixpoint flush_ops (txn : env) (ops : list blOp) : result env :=
  match ops with
  | [] => Ok txn
  | op :: ops' =>
      let! txn := (if bo_del op
             then match mdb_del txn (bo_k op) with
                  | LOk txn => Ok txn
                  | LNotFound => Ok txn
                  | LErr c => Err (ErrLmdb c)
                  end
             else lres_result (mdb_put txn (bo_k op) (bo_v op))) in
      flush_ops txn ops'
  end.

Definition Flush (d : DB env) (bl : Baseline) : result unit * DB env * Baseline :=
  if Nat.eqb (length (bl_ops bl)) 0 && bool_decide (bl_progress bl = None)
  then (Ok (), d, bl)
  else
    let '(r, e) := Update (db_env d) (λ txn,
      let! txn := flush_ops txn (bl_ops bl) in
      match bl_progress bl with
      | Some p => lres_result (mdb_put txn MetaBaselineProgress p)
      | None => Ok txn
      end) in
    (r, set_env d e,
     MkBaseline (bl_s bl) [] (match r with Ok _ => None | Err _ => bl_progress bl end)).

Definition bl_append (bl : Baseline) (op : blOp) : Baseline :=
  MkBaseline (bl_s bl) (bl_ops bl ++ [op]) (bl_progress bl).

Definition bl_add (d : DB env) (bl : Baseline) (k v : bytes) : result unit * DB env * Baseline :=
  let bl := bl_append bl (MkBlOp k v false) in
  if (baselineChunk <=? Z.of_nat (length (bl_ops bl)))%Z then Flush d bl else (Ok (), d, bl).

Definition bl_addDel (d : DB env) (bl : Baseline) (k : bytes) : result unit * DB env * Baseline :=
  let bl := bl_append bl (MkBlOp k [] true) in
  if (baselineChunk <=? Z.of_nat (length (bl_ops bl)))%Z then Flush d bl else (Ok (), d, bl).

Definition SetProgress (bl : Baseline) (p : option bytes) : Baseline :=
  MkBaseline (bl_s bl) (bl_ops bl) p.

Definition BaselineProgress (d : DB env) : result (option bytes) :=
  View (db_env d) (λ txn, lres_lookup (mdb_get txn MetaBaselineProgress)).

Definition bl_Account (d : DB env) (bl : Baseline) (addr : Address) (a : Account) :=
  bl_add d bl (AppendAccountKey [] addr (bl_s bl)) (EncodeAccount [] a).

Definition bl_Slot (d : DB env) (bl : Baseline) (addr : Address) (slot val : Hash) :=
  bl_add d bl (AppendSlotKey [] addr slot (bl_s bl)) (abytes val).

Definition bl_Code (d : DB env) (bl : Baseline) (hash : Hash) (code : bytes) :=
  bl_add d bl (AppendCodeKey [] hash) code.

Definition BaseAccount (d : DB env) (bl : Baseline) (addrHash : Hash) (a : Account) :=
  bl_add d bl (AppendBaseAccountKey [] addrHash) (EncodeAccount [] a).

Definition BaseSlot (d : DB env) (bl : Baseline) (addrHash slotHash val : Hash) :=
  bl_add d bl (AppendBaseSlotKey [] addrHash slotHash) (abytes val).

Definition QueueStorage (d : DB env) (bl : Baseline) (addrHash root : Hash) :=
  bl_add d bl (AppendStorageQueueKey [] addrHash) (abytes root).

Definition DequeueStorage (d : DB env) (bl : Baseline) (addrHash : Hash) :=
  bl_addDel d bl (AppendStorageQueueKey [] addrHash).

Definition PutBaseAccount (d : DB env) (addrHash : Hash) (a : Account) : result unit * DB env :=
  let '(r, e) := Update (db_env d) (λ txn,
    lres_result (mdb_put txn (AppendBaseAccountKey [] addrHash) (EncodeAccount [] a))) in
  (r, set_env d e).

Definition PutBaseSlot (d : DB env) (addrHash slotHash val : Hash) : result unit * DB env :=
  let '(r, e) := Update (db_env d) (λ txn,
    lres_result (mdb_put txn (AppendBaseSlotKey [] addrHash slotHash) (abytes val))) in
  (r, set_env d e).

(** The transaction of [Finish]: refuse while a queue row remains, drop the
    progress cursor, set the watermark. *)
Definition finish_txn (txn : env) : result env :=
  let commit :=
    let! txn := match mdb_del txn MetaBaselineProgress with
          | LOk txn => Ok txn
          | LNotFound => Ok txn
          | LErr c => Err (ErrLmdb c)
          end in
    lres_result (mdb_put txn MetaBaselineComplete [byte_lit 1]) in
  match mdb_set_range txn [PrefStorageQueue] with
  | LOk (k, _) =>
      if bool_decide (head k = Some PrefStorageQueue) then Err (ErrMsg "store") else commit
  | LNotFound => commit
  | LErr c => Err (ErrLmdb c)
  end.

Definition Finish (d : DB env) (bl : Baseline) : result unit * DB env * Baseline :=
  let bl := SetProgress bl None in
  let '(r, d, bl) := Flush d bl in
  match r with
  | Err e => (Err e, d, bl)
  | Ok _ =>
      let '(r, e) := Update (db_env d) finish_txn in
      match r with
      | Err er => (Err er, set_env d e, bl)
      | Ok _ => (Ok (), MkDB e (genesisPlus1 d) true, bl)
      end
  end.
End store.
