(* ===== verification/StoreRead.v ===== *)
(** * StoreRead: the main environment, reading side

    Models [store/read.go]: the greatest-write-at-or-before seek, the account,
    slot, code and diff reads with their fail-loud edges, and the loader's
    resume scans.  [keccak] (golang.org/x/crypto/sha3) is a parameter. *)

From S2P Require Import Prelude Schema Lmdb Capture Store.

(** [store.Latest] *)
Definition Latest : u64 := u_max.

Section read.
Context {env : Type} `{Lmdb env} (keccak : bytes → Hash).

(** ** Seeks *)

Definition seekLE (cur : env) (seekKey : bytes) : result (option (u64 * bytes)) :=
  let prefixLen := length seekKey - 8 in
  let! kv := lres_lookup (mdb_set_range cur seekKey) in
  match kv with
  | None => Ok None
  | Some (k, v) =>
      if negb (Nat.eqb (length k) (length seekKey)) ||
         negb (bool_decide (take prefixLen k = take prefixLen seekKey))
      then Ok None
      else Ok (Some (DecodeInvBlock (drop prefixLen k), v))
  end.

Definition checkAt (d : DB env) (at_ : u64) : result unit * DB env :=
  let '(r, d) := Genesis d in
  (match r with
   | Err e => Err e
   | Ok None => Err ErrNoGenesis
   | Ok (Some s) => if (at_ <? s)%Z then Err ErrBelowGenesis else Ok ()
   end, d).

Definition missAllowed (d : DB env) : result unit * DB env :=
  let '(r, d) := BaselineComplete d in
  (match r with
   | Err e => Err e
   | Ok done => if done then Ok () else Err ErrBaselineIncomplete
   end, d).

Definition getBaseRow (txn : env) (key : bytes) : result (option bytes) :=
  lres_lookup (mdb_get txn key).

(** ** Accounts and slots *)

(** What the body of [GetAccount]'s transaction finds: an answer, or a miss
    on every row, which [missAllowed] then judges. *)
Definition account_txn (txn : env) (addr : Address) (at_ : u64) :
    result (option (option Account)) :=
  let! h := seekLE txn (AppendAccountKey [] addr at_) in
  let! dh := seekLE txn (AppendDestructKey [] addr at_) in
  match h, dh with
  | Some (h, raw), None => let! a := DecodeAccount raw in Ok (Some (Some a))
  | Some (h, raw), Some (dh, _) =>
      if (dh <=? h)%Z then let! a := DecodeAccount raw in Ok (Some (Some a))
      else Ok (Some None)
  | None, Some _ => Ok (Some None)
  | None, None =>
      let! raw := getBaseRow txn (AppendBaseAccountKey [] (keccak (abytes addr))) in
      match raw with
      | Some raw => let! a := DecodeAccount raw in Ok (Some (Some a))
      | None => Ok None
      end
  end.

(** The result pairs the account with [exists]; the account is Go's zero
    value when it does not exist. *)
Definition GetAccount (d : DB env) (addr : Address) (at_ : u64) :
    result (Account * bool) * DB env :=
  let '(r, d) := checkAt d at_ in
  match r with
  | Err e => (Err e, d)
  | Ok _ =>
      match View (db_env d) (λ txn, account_txn txn addr at_) with
      | Err e => (Err e, d)
      | Ok (Some (Some a)) => (Ok (a, true), d)
      | Ok (Some None) => (Ok (Account_zero, false), d)
      | Ok None =>
          let '(r, d) := missAllowed d in
          (let! _ := r in Ok (Account_zero, false), d)
      end
  end.

(** Likewise for [GetSlot]; [Some v] is an answer, [None] a miss. *)
Definition slot_txn (txn : env) (addr : Address) (slot : Hash) (at_ : u64) :
    result (option Hash) :=
  let! h := seekLE txn (AppendSlotKey [] addr slot at_) in
  let! dh := seekLE txn (AppendDestructKey [] addr at_) in
  match h with
  | None =>
      match dh with
      | Some _ => Ok (Some arr_zero)
      | None =>
          let! raw := getBaseRow txn
            (AppendBaseSlotKey [] (keccak (abytes addr)) (keccak (abytes slot))) in
          match raw with
          | Some raw =>
              if negb (Nat.eqb (length raw) 32) then Err (ErrMsg "store")
              else Ok (Some (arr_of raw))
          | None => Ok None
          end
      end
  | Some (h, raw) =>
      if match dh with Some (dh, _) => (h <? dh)%Z | None => false end
      then Ok (Some arr_zero)
      else
        let! _ := match dh with
            | Some (dh, _) =>
                if (dh =? h)%Z then
                  let! ah := seekLE txn (AppendAccountKey [] addr dh) in
                  match ah with
                  | Some (ah, _) => if (ah =? dh)%Z then Ok () else Err ErrDestructEdge
                  | None => Err ErrDestructEdge
                  end
                else Ok ()
            | None => Ok ()
            end in
        if negb (Nat.eqb (length raw) 32) then Err (ErrMsg "store")
        else Ok (Some (arr_of raw))
  end.

Definition GetSlot (d : DB env) (addr : Address) (slot : Hash) (at_ : u64) :
    result Hash * DB env :=
  let '(r, d) := checkAt d at_ in
  match r with
  | Err e => (Err e, d)
  | Ok _ =>
      match View (db_env d) (λ txn, slot_txn txn addr slot at_) with
      | Err e => (Err e, d)
      | Ok (Some v) => (Ok v, d)
      | Ok None =>
          let '(r, d) := missAllowed d in
          (let! _ := r in Ok arr_zero, d)
      end
  end.

(** ** Code and diffs *)

Definition GetCode (d : DB env) (hash : Hash) : result bytes :=
  View (db_env d) (λ txn,
    let! v := lres_lookup (mdb_get txn (AppendCodeKey [] hash)) in
    match v with None => Err ErrNotFound | Some v => Ok v end).

Definition GetDiff (d : DB env) (block : u64) : result Batch :=
  View (db_env d) (λ txn,
    let! v := lres_lookup (mdb_get txn (AppendDiffKey [] block)) in
    match v with None => Err ErrNotFound | Some v => Decode v end).

(** ** Loader resume scans *)

(** [SetRange] on [seek], then step back unless it hit [seek] itself. *)
Definition seek_back (txn : env) (seek : bytes) : result (option bytes) :=
  match mdb_set_range txn seek with
  | LNotFound => rmap (fmap fst) (lres_lookup (mdb_last txn))
  | LErr c => Err (ErrLmdb c)
  | LOk (k, _) =>
      if bool_decide (k = seek) then Ok (Some k)
      else rmap (fmap fst) (lres_lookup (mdb_prev txn k))
  end.

Definition MaxBaseAccountWithPrefix (d : DB env) (p : byte) : result (option Hash) :=
  View (db_env d) (λ txn,
    let seek := PrefBaseAccount :: p :: replicate 31 (byte_lit 255) in
    let! k := seek_back txn seek in
    match k with
    | None => Ok None
    | Some k =>
        if Nat.eqb (length k) 33 && bool_decide (take 2 k = [PrefBaseAccount; p])
        then Ok (Some (arr_of (drop 1 k))) else Ok None
    end).

Definition MaxBaseSlot (d : DB env) (addrHash : Hash) (start end_ : option bytes) :
    result (option Hash) :=
  View (db_env d) (λ txn,
    let seek := PrefBaseSlot :: abytes addrHash ++
      match end_ with
      | None => replicate 32 (byte_lit 255)
      | Some e => pad_to 32 e
      end in
    let! k := seek_back txn seek in
    match k with
    | None => Ok None
    | Some k =>
        if negb (Nat.eqb (length k) 65) ||
           negb (bool_decide (take 33 k = PrefBaseSlot :: abytes addrHash))
        then Ok None
        else if match start with
                | Some s => bool_decide (take 32 (drop 33 k) < s)%bytes
                | None => false
                end
        then Ok None
        else Ok (Some (arr_of (take 32 (drop 33 k))))
    end).

(** The scan loop of [StorageQueueAfter] from the cursor's row on; [fuel]
    bounds the rows visited (every step moves to a greater key). *)
Fixpoint queue_scan (fuel : nat) (txn : env) (kv : lres (bytes * bytes)) (max : Z)
    (acc : list (Hash * Hash)) : result (list (Hash * Hash)) :=
  match fuel with
  | O => Err (ErrMsg "fuel")
  | S fuel' =>
      match kv with
      | LNotFound => Ok acc
      | LErr c => Err (ErrLmdb c)
      | LOk (k, v) =>
          if negb (Nat.eqb (length k) 33) || negb (bool_decide (head k = Some PrefStorageQueue))
          then Ok acc
          else if negb (Nat.eqb (length v) 32) then Err (ErrMsg "store")
          else
            let acc := acc ++ [(arr_of (take 32 (drop 1 k)), arr_of v)] in
            if (max <=? Z.of_nat (length acc))%Z then Ok acc
            else queue_scan fuel' txn (mdb_next txn k) max acc
      end
  end.

Definition StorageQueueAfter (fuel : nat) (d : DB env) (after : option Hash) (max : Z) :
    result (list (Hash * Hash)) :=
  View (db_env d) (λ txn,
    let seek := match after with
                | None => [PrefStorageQueue]
                | Some h => AppendStorageQueueKey [] h ++ [byte_lit 0]
                end in
    queue_scan fuel txn (mdb_set_range txn seek) max []).

(** The scan loop of [MissingCodeHashes]. *)
Fixpoint code_scan (fuel : nat) (txn : env) (kv : lres (bytes * bytes))
    (seen : gset Hash) (missing : list Hash) : result (list Hash) :=
  match fuel with
  | O => Err (ErrMsg "fuel")
  | S fuel' =>
      match kv with
      | LNotFound => Ok missing
      | LErr c => Err (ErrLmdb c)
      | LOk (k, v) =>
          if negb (Nat.eqb (length k) 33) || negb (bool_decide (head k = Some PrefBaseAccount))
          then Ok missing
          else
            let! a := DecodeAccount v in
            let ch := CodeHash a in
            if bool_decide (ch = arr_zero ∨ ch = keccak []) || bool_decide (ch ∈ seen)
            then code_scan fuel' txn (mdb_next txn k) seen missing
            else
              match mdb_get txn (AppendCodeKey [] ch) with
              | LOk _ => code_scan fuel' txn (mdb_next txn k) ({[ch]} ∪ seen) missing
              | LErr c => Err (ErrLmdb c)
              | LNotFound =>
                  code_scan fuel' txn (mdb_next txn k) ({[ch]} ∪ seen) (missing ++ [ch])
              end
      end
  end.

Definition MissingCodeHashes (fuel : nat) (d : DB env) : result (list Hash) :=
  View (db_env d) (λ txn, code_scan fuel txn (mdb_set_range txn [PrefBaseAccount]) ∅ []).
End read.
