(* ===== verification/StoreSpec.v ===== *)
(** * StoreSpec: well-formed store contents and what they say

    The type invariant of the main environment ([wf_db]: every row is a row of
    the schema with a value of its shape), the greatest-write-at-or-before
    lookup [hist] that [seekLE] computes, and the world the rows show at a
    height ([db_world]).  The operations of [Store] and [StoreRead] are proved
    against these in [StoreProof]. *)

From S2P Require Import Prelude Schema Lmdb Capture World Store StoreRead.

(** ** Row shapes *)

Definition row_ok (k : dbkey) (v : bytes) : Prop :=
  match k with
  | KMetaGenesis | KMetaFinalized => length v = 8
  | KMetaBaselineComplete | KMetaBaselineProgress | KCode _ => True
  | KAccount _ _ | KBaseAccount _ => length v = AccountSize
  | KSlot _ _ _ | KBaseSlot _ _ | KStorageQueue _ => length v = 32
  | KDestruct _ _ => v = []
  | KDiff b => match Decode v with Ok bt => Block bt = b | Err _ => False end
  end.

#[export] Instance row_ok_dec k v : Decision (row_ok k v).
Proof. destruct k; simpl; try apply _. destruct (Decode v); apply _. Defined.

Definition wf_db (m : gmap bytes bytes) : Prop :=
  ∀ k v, m !! k = Some v → ∃ dk, k = key_bytes dk ∧ row_ok dk v.

Lemma wf_db_row m dk v : wf_db m → m !! key_bytes dk = Some v → row_ok dk v.
Proof. intros Hwf (dk' & ->%key_bytes_inj & ?)%Hwf. done. Qed.

Lemma wf_db_empty : wf_db ∅.
Proof. intros k v ?. by rewrite lookup_empty in *. Qed.

Lemma wf_db_insert m dk v : wf_db m → row_ok dk v → wf_db (<[key_bytes dk:=v]> m).
Proof.
  intros Hwf Hv k v' [[<- <-]|[_ ?]]%lookup_insert_Some; [by exists dk|by apply Hwf].
Qed.

Lemma wf_db_delete m k : wf_db m → wf_db (delete k m).
Proof. intros Hwf k' v' [_ ?]%lookup_delete_Some. by apply Hwf. Qed.

(** ** Greatest write at or before a height *)

(** The three history keyspaces. *)
Inductive hprefix : bytes → Prop :=
| hprefix_acct a : hprefix (acct_prefix a)
| hprefix_slot a s : hprefix (slot_prefix a s)
| hprefix_destruct a : hprefix (destruct_prefix a).

#[export] Hint Constructors hprefix : flat.

Definition hist (m : gmap bytes bytes) (p : bytes) (B : u64) : option (u64 * bytes) :=
  match first_key m (key_ge (AppendInvBlock p B)) with
  | None => None
  | Some (k, v) =>
      if negb (Nat.eqb (length k) (length p + 8)) || negb (bool_decide (take (length p) k = p))
      then None
      else Some (DecodeInvBlock (drop (length p) k), v)
  end.

Lemma bytes_between_prefix p x y k :
  (p ++ x ≤ k)%bytes → (k ≤ p ++ y)%bytes → ∃ z, k = p ++ z.
Proof.
  unfold bytes_le. revert k. induction p as [|h p IH]; intros k; simpl; [eauto|].
  destruct k as [|kh k]; simpl; [done|].
  destruct (Z.compare_spec h kh) as [He| |]; try done.
  - apply uint_eq in He as ->. rewrite Z.compare_refl. intros H1 H2.
    destruct (IH k H1 H2) as [z ->]. by exists z.
  - destruct (Z.compare_spec kh h); try done; lia.
Qed.

Lemma hprefix_key_len p dk z :
  hprefix p → key_bytes dk = p ++ z → length (key_bytes dk) = length p + 8.
Proof.
  intros Hp Hk. assert (head (key_bytes dk) = head p) as Ht.
  { rewrite Hk. by destruct Hp. }
  rewrite head_key_bytes in Ht. rewrite length_key_bytes.
  destruct Hp; destruct dk; simpl in Ht; try discriminate Ht;
    unfold acct_prefix, slot_prefix, destruct_prefix; cbn [key_len length];
    unfold AccountKeyLen, SlotKeyLen, DestructKeyLen; len_solve.
Qed.

Section hist.
Context (m : gmap bytes bytes) (p : bytes) (Hwf : wf_db m) (Hp : hprefix p).

Lemma length_AppendInvBlock b : length (AppendInvBlock p b) = length p + 8.
Proof using. unfold AppendInvBlock, AppendUint64. len_solve. Qed.

Lemma take_AppendInvBlock b : take (length p) (AppendInvBlock p b) = p.
Proof using. unfold AppendInvBlock, AppendUint64. by rewrite take_app_length. Qed.

Lemma decode_AppendInvBlock b : DecodeInvBlock (drop (length p) (AppendInvBlock p b)) = b.
Proof using.
  unfold AppendInvBlock, AppendUint64. rewrite drop_app_length. apply DecodeInvBlock_inv.
Qed.

(** A key of the right length and prefix is a row of this history. *)
Lemma AppendInvBlock_of_key k :
  length k = length p + 8 → take (length p) k = p →
  k = AppendInvBlock p (DecodeInvBlock (drop (length p) k)).
Proof using.
  intros Hl Ht. unfold AppendInvBlock, AppendUint64.
  rewrite inv_DecodeInvBlock by len_solve.
  transitivity (take (length p) k ++ drop (length p) k); [by rewrite take_drop|congruence].
Qed.

Lemma hist_Some B b v :
  hist m p B = Some (b, v) ↔
  m !! AppendInvBlock p b = Some v ∧ (b ≤ B)%Z ∧
  ∀ b' : u64, (b < b' ≤ B)%Z → m !! AppendInvBlock p b' = None.
Proof using Hwf Hp.
  unfold hist. split.
  - destruct (first_key _ _) as [[k v']|] eqn:E; [|done].
    apply first_key_Some in E as (Hk & Hge%bool_decide_eq_true & Hmin).
    destruct (Nat.eqb_spec (length k) (length p + 8)) as [Hl|]; simpl; [|done].
    case_bool_decide as Ht; simpl; [|done]. intros [= <- <-].
    pose proof (AppendInvBlock_of_key k Hl Ht) as Hk'.
    rewrite <-Hk'. split_and!; [done| |].
    + rewrite Hk' in Hge. by apply AppendInvBlock_order in Hge.
    + intros b' [Hlt Hle]. destruct (m !! AppendInvBlock p b') as [v''|] eqn:E'; [|done].
      exfalso. eapply Hmin in E'; [|by apply bool_decide_eq_true, AppendInvBlock_order].
      rewrite Hk' in E'. apply AppendInvBlock_order in E'. lia.
  - intros (Hb & Hle & Hmax).
    assert (first_key m (key_ge (AppendInvBlock p B)) = Some (AppendInvBlock p b, v)) as ->.
    { apply first_key_Some. split_and!; [done|by apply bool_decide_eq_true, AppendInvBlock_order|].
      intros k v' Hk Hge%bool_decide_eq_true.
      destruct (bytes_le_total (AppendInvBlock p b) k) as [|Hkb]; [done|].
      destruct (bytes_between_prefix p _ _ k Hge Hkb) as [z ->].
      destruct (Hwf _ _ Hk) as (dk & Hdk & _).
      pose proof (hprefix_key_len p dk z Hp (eq_sym Hdk)) as Hl. rewrite <-Hdk in Hl.
      assert (p ++ z = AppendInvBlock p (DecodeInvBlock (drop (length p) (p ++ z)))) as Hz.
      { apply AppendInvBlock_of_key; [done|]. by rewrite take_app_length. }
      rewrite Hz in Hge, Hkb, Hk |- *.
      apply AppendInvBlock_order in Hge. apply AppendInvBlock_order in Hkb.
      destruct (decide (DecodeInvBlock (drop (length p) (p ++ z)) = b)) as [->|Hne];
        [apply bytes_le_refl|].
      rewrite Hmax in Hk; [done|]. split; [|done].
      assert (uval (DecodeInvBlock (drop (length p) (p ++ z))) ≠ uval b); [|lia].
      intros ?. by apply Hne, uint_eq. }
    rewrite length_AppendInvBlock, Nat.eqb_refl, take_AppendInvBlock, decode_AppendInvBlock.
    by rewrite bool_decide_eq_true_2.
Qed.

Lemma hist_None B :
  hist m p B = None ↔ ∀ b : u64, (b ≤ B)%Z → m !! AppendInvBlock p b = None.
Proof using Hwf Hp.
  split.
  - intros Hh b.
    (* strong induction on the distance to B: the greatest write would be found *)
    assert (∀ n (b : u64), (B - b ≤ Z.of_nat n)%Z → (b ≤ B)%Z →
      m !! AppendInvBlock p b = None) as Hind.
    { induction n as [n IH] using lt_wf_ind. clear b. intros b Hn Hle.
      destruct (m !! AppendInvBlock p b) as [v|] eqn:E; [|done]. exfalso.
      assert (hist m p B = Some (b, v)); [|congruence].
      apply hist_Some. split_and!; [done..|]. intros b' Hb'.
      apply (IH (Z.to_nat (B - b'))); lia. }
    intros Hle. by apply (Hind (Z.to_nat (B - b))); [lia|].
  - intros Hn. destruct (hist m p B) as [[b v]|] eqn:E; [|done].
    apply hist_Some in E as (E & Hle & _). rewrite Hn in E; done.
Qed.
End hist.

(** [hist] only depends on the rows of its own history. *)
Lemma hist_ext m m' p (B : u64) :
  wf_db m → wf_db m' → hprefix p →
  (∀ b : u64, (b ≤ B)%Z → m !! AppendInvBlock p b = m' !! AppendInvBlock p b) →
  hist m p B = hist m' p B.
Proof.
  intros Hwf Hwf' Hp Heq. destruct (hist m' p B) as [[b v]|] eqn:E.
  - apply hist_Some in E as (Hb & Hle & Hmax); [|done..].
    apply hist_Some; [done..|]. rewrite Heq by done. split_and!; [done..|].
    intros b' Hb'. rewrite Heq by lia. by apply Hmax.
  - apply hist_None; [done..|]. intros b Hle. rewrite Heq by done.
    by apply (hist_None m' p Hwf' Hp B).
Qed.

(** A row above all others of its history is what reads at or above it find. *)
Lemma hist_top m m' p (b0 : u64) v (B : u64) :
  wf_db m → wf_db m' → hprefix p →
  m' !! AppendInvBlock p b0 = Some v →
  (∀ b : u64, (b < b0)%Z → m' !! AppendInvBlock p b = m !! AppendInvBlock p b) →
  (∀ b : u64, (b0 < b)%Z → m' !! AppendInvBlock p b = None) →
  hist m' p B = if (b0 <=? B)%Z then Some (b0, v) else hist m p B.
Proof.
  intros Hwf Hwf' Hp Hb0 Hbelow Habove. destruct (Z.leb_spec b0 B).
  - apply hist_Some; [done..|]. split_and!; [done..|]. intros b' Hb'. apply Habove. lia.
  - apply hist_ext; [done..|]. intros b Hb. apply Hbelow. lia.
Qed.

(** Reads above every row of a history agree. *)
Lemma hist_above m p (B B' : u64) :
  wf_db m → hprefix p → (B ≤ B')%Z →
  (∀ b : u64, (B < b)%Z → m !! AppendInvBlock p b = None) → hist m p B' = hist m p B.
Proof.
  intros Hwf Hp HB Habove. destruct (hist m p B) as [[b v]|] eqn:E.
  - apply hist_Some in E as (Hb & Hle & Hmax); [|done..].
    apply hist_Some; [done..|]. split_and!; [done|lia|]. intros b' Hb'.
    destruct (decide (uval b' ≤ B)%Z); [apply Hmax; lia|apply Habove; lia].
  - apply hist_None; [done..|]. intros b Hle.
    destruct (decide (uval b ≤ B)%Z); [by apply (hist_None m p Hwf Hp B)|apply Habove; lia].
Qed.

(** ** What the rows say *)

Section rows.
Context (keccak : bytes → Hash).

Definition decode_row (raw : bytes) : option Account :=
  match DecodeAccount raw with Ok a => Some a | Err _ => None end.

(** The account at a height: [None] when no row answers, [Some None] when the
    rows say it does not exist. *)
Definition read_account (m : gmap bytes bytes) (a : Address) (B : u64) : option (option Account) :=
  match hist m (acct_prefix a) B, hist m (destruct_prefix a) B with
  | Some (h, raw), Some (dh, _) => if (dh <=? h)%Z then Some (decode_row raw) else Some None
  | Some (h, raw), None => Some (decode_row raw)
  | None, Some _ => Some None
  | None, None =>
      decode_row <$> m !! AppendBaseAccountKey [] (keccak (abytes a))
  end.

Definition read_slot (m : gmap bytes bytes) (a : Address) (s : Hash) (B : u64) : option Hash :=
  match hist m (slot_prefix a s) B, hist m (destruct_prefix a) B with
  | Some (h, raw), Some (dh, _) => if (dh <=? h)%Z then Some (arr_of raw) else Some zero_hash
  | Some (h, raw), None => Some (arr_of raw)
  | None, Some _ => Some zero_hash
  | None, None =>
      arr_of <$> m !! AppendBaseSlotKey [] (keccak (abytes a)) (keccak (abytes s))
  end.

(** The world a complete baseline shows at a height: misses are known zeros. *)
Definition db_world (m : gmap bytes bytes) (B : u64) : world :=
  MkWorld (λ a, default None (read_account m a B)) (λ a s, default zero_hash (read_slot m a s B)).
End rows.

(** ** The rows a block writes *)

Definition insert_rows (m : gmap bytes bytes) (rows : list (bytes * bytes)) : gmap bytes bytes :=
  foldl (λ m kv, <[kv.1:=kv.2]> m) m rows.

Definition op_rows (block : u64) (ops : list Op) : list (bytes * bytes) := omap (op_row block) ops.

(** The contents after a committed [WriteBlock]. *)
Definition block_rows (b : Batch) (m : gmap bytes bytes) : gmap bytes bytes :=
  <[AppendDiffKey [] (Block b) := default [] (Encode b [])]>
    (insert_rows m (op_rows (Block b) (Ops b))).

Lemma insert_rows_snoc m rows kv :
  insert_rows m (rows ++ [kv]) = <[kv.1:=kv.2]> (insert_rows m rows).
Proof. unfold insert_rows. by rewrite foldl_snoc. Qed.

Lemma op_rows_snoc block ops op :
  op_rows block (ops ++ [op]) =
  match op_row block op with
  | Some kv => op_rows block ops ++ [kv]
  | None => op_rows block ops
  end.
Proof.
  unfold op_rows. rewrite omap_app. simpl.
  destruct (op_row block op); [done|]. by rewrite app_nil_r.
Qed.

Lemma insert_rows_union m rows : insert_rows m rows = list_to_map (reverse rows) ∪ m.
Proof.
  induction rows as [|[k v] rows IH] using rev_ind.
  - simpl. by rewrite (left_id_L ∅ (∪)).
  - rewrite insert_rows_snoc, reverse_snoc, IH. simpl. by rewrite insert_union_l.
Qed.

Lemma wf_insert_rows m block ops :
  wf_db m → wf_db (insert_rows m (op_rows block ops)).
Proof.
  intros Hwf. induction ops as [|op ops IH] using rev_ind; [done|].
  rewrite op_rows_snoc.
  destruct op as [a x|a s v|a s|a|h c|k]; cbn [op_row];
    [..|done]; rewrite insert_rows_snoc; cbn [fst snd].
  - apply (wf_db_insert _ (KAccount a block)); [done|]. apply length_EncodeAccount.
  - apply (wf_db_insert _ (KSlot a s block)); [done|]. apply length_abytes.
  - apply (wf_db_insert _ (KSlot a s block)); done.
  - apply (wf_db_insert _ (KDestruct a block)); done.
  - apply (wf_db_insert _ (KCode h)); done.
Qed.

(** A block write keeps every row well-formed. *)
Lemma wf_block_rows m b : encodable b → wf_db m → wf_db (block_rows b m).
Proof.
  intros Henc Hwf. unfold block_rows. apply (wf_db_insert _ (KDiff (Block b))).
  - by apply wf_insert_rows.
  - destruct (Encode_total b Henc) as [x Hx]. simpl. rewrite Hx. simpl.
    by rewrite (Decode_Encode b x).
Qed.

Lemma block_rows_union b m :
  block_rows b m =
  list_to_map ((AppendDiffKey [] (Block b), default [] (Encode b [])) ::
               reverse (op_rows (Block b) (Ops b))) ∪ m.
Proof. unfold block_rows. by rewrite insert_rows_union, insert_union_l. Qed.

(** Writing a block twice is writing it once: the replay of a block after a
    crash leaves the store as it was. *)
Lemma block_rows_idempotent b m : block_rows b (block_rows b m) = block_rows b m.
Proof. by rewrite !block_rows_union, (assoc_L (∪)), map_union_idemp. Qed.

(** ** Lookups after a block write *)

(** A row other than the block's own rows is untouched. *)
Lemma lookup_insert_rows_ne m block ops k :
  (∀ op k' v, op ∈ ops → op_row block op = Some (k', v) → k ≠ k') →
  insert_rows m (op_rows block ops) !! k = m !! k.
Proof.
  induction ops as [|op ops IH] using rev_ind; intros Hne; [done|].
  rewrite op_rows_snoc.
  assert (insert_rows m (op_rows block ops) !! k = m !! k) as IH'.
  { apply IH. intros op' k' v ?. apply Hne, elem_of_app. by left. }
  destruct (op_row block op) as [[k' v]|] eqn:E; [|done].
  rewrite insert_rows_snoc. simpl. rewrite lookup_insert_ne; [done|].
  intros ->. eapply (Hne op k v); [apply elem_of_app; right; by apply list_elem_of_singleton|done|done].
Qed.

(** The key an operation writes, as a row. *)
Definition op_key (block : u64) (op : Op) : option dbkey :=
  match op with
  | OpAccount a _ => Some (KAccount a block)
  | OpSlot a s _ | OpDeleteSlot a s => Some (KSlot a s block)
  | OpDestruct a => Some (KDestruct a block)
  | OpCode h _ => Some (KCode h)
  | OpOther _ => None
  end.

Lemma op_row_key block op k v :
  op_row block op = Some (k, v) → ∃ dk, op_key block op = Some dk ∧ k = key_bytes dk.
Proof. destruct op; intros [= <- <-]; eexists; split; reflexivity. Qed.

Lemma lookup_block_rows_other m b dk :
  dk ≠ KDiff (Block b) → (∀ op, op ∈ Ops b → op_key (Block b) op ≠ Some dk) →
  block_rows b m !! key_bytes dk = m !! key_bytes dk.
Proof.
  intros Hd Hne. unfold block_rows.
  change (AppendDiffKey [] (Block b)) with (key_bytes (KDiff (Block b))).
  rewrite lookup_insert_ne by (intros ?%key_bytes_inj; congruence).
  apply lookup_insert_rows_ne. intros op k v Hin (dk' & Hk & ->)%op_row_key ->%key_bytes_inj.
  by eapply Hne.
Qed.

(** Rows of other heights, baseline rows and meta rows survive a block write. *)
Definition key_block (k : dbkey) : option u64 :=
  match k with
  | KAccount _ b | KSlot _ _ b | KDestruct _ b | KDiff b => Some b
  | _ => None
  end.

Lemma lookup_block_rows_frame m b dk :
  key_block dk ≠ Some (Block b) → (∀ h, dk ≠ KCode h) →
  block_rows b m !! key_bytes dk = m !! key_bytes dk.
Proof.
  intros Hb Hc. apply lookup_block_rows_other.
  - intros ->. by apply Hb.
  - intros op _ Hk. destruct op; simplify_eq/=; by eapply Hc.
Qed.

Lemma lookup_block_rows_account m b a :
  destructs_first (Ops b) →
  block_rows b m !! key_bytes (KAccount a (Block b)) =
  match net_acct (Ops b) a with
  | Some x => Some (EncodeAccount [] x)
  | None => m !! key_bytes (KAccount a (Block b))
  end.
Proof.
  unfold block_rows. change (AppendDiffKey [] (Block b)) with (key_bytes (KDiff (Block b))).
  rewrite lookup_insert_ne by (intros ?%key_bytes_inj; congruence).
  generalize (Block b) as blk. intros blk.
  induction (Ops b) as [|op ops IH] using rev_ind; intros Hd; [done|].
  apply destructs_first_snoc in Hd as [Hd Hw]. rewrite op_rows_snoc, net_acct_snoc.
  destruct op as [a' x|a' s v|a' s|a'|h c|k]; cbn [op_row net_acct_op];
    [..|by apply IH]; rewrite insert_rows_snoc; cbn [fst snd].
  - change (AppendAccountKey [] a' blk) with (key_bytes (KAccount a' blk)).
    case_decide; [subst; by rewrite lookup_insert_eq|].
    rewrite lookup_insert_ne by (intros ?%key_bytes_inj; congruence). by apply IH.
  - change (AppendSlotKey [] a' s blk) with (key_bytes (KSlot a' s blk)).
    rewrite lookup_insert_ne by (intros ?%key_bytes_inj; congruence). by apply IH.
  - change (AppendSlotKey [] a' s blk) with (key_bytes (KSlot a' s blk)).
    rewrite lookup_insert_ne by (intros ?%key_bytes_inj; congruence). by apply IH.
  - change (AppendDestructKey [] a' blk) with (key_bytes (KDestruct a' blk)).
    rewrite lookup_insert_ne by (intros ?%key_bytes_inj; congruence). rewrite IH by done.
    case_decide; [subst|done]. by rewrite net_acct_unwritten by eauto.
  - change (AppendCodeKey [] h) with (key_bytes (KCode h)).
    rewrite lookup_insert_ne by (intros ?%key_bytes_inj; congruence). by apply IH.
Qed.

Lemma lookup_block_rows_slot m b a s :
  destructs_first (Ops b) →
  block_rows b m !! key_bytes (KSlot a s (Block b)) =
  match net_slot (Ops b) a s with
  | Some v => Some (abytes v)
  | None => m !! key_bytes (KSlot a s (Block b))
  end.
Proof.
  unfold block_rows. change (AppendDiffKey [] (Block b)) with (key_bytes (KDiff (Block b))).
  rewrite lookup_insert_ne by (intros ?%key_bytes_inj; congruence).
  generalize (Block b) as blk. intros blk.
  induction (Ops b) as [|op ops IH] using rev_ind; intros Hd; [done|].
  apply destructs_first_snoc in Hd as [Hd Hw]. rewrite op_rows_snoc, net_slot_snoc.
  destruct op as [a' x|a' s' v|a' s'|a'|h c|k]; cbn [op_row net_slot_op];
    [..|by apply IH]; rewrite insert_rows_snoc; cbn [fst snd].
  - change (AppendAccountKey [] a' blk) with (key_bytes (KAccount a' blk)).
    rewrite lookup_insert_ne by (intros ?%key_bytes_inj; congruence). by apply IH.
  - change (AppendSlotKey [] a' s' blk) with (key_bytes (KSlot a' s' blk)).
    case_decide as Hc; [destruct Hc; subst; by rewrite lookup_insert_eq|].
    rewrite lookup_insert_ne by (intros ?%key_bytes_inj; naive_solver). by apply IH.
  - change (AppendSlotKey [] a' s' blk) with (key_bytes (KSlot a' s' blk)).
    case_decide as Hc; [destruct Hc; subst; by rewrite lookup_insert_eq|].
    rewrite lookup_insert_ne by (intros ?%key_bytes_inj; naive_solver). by apply IH.
  - change (AppendDestructKey [] a' blk) with (key_bytes (KDestruct a' blk)).
    rewrite lookup_insert_ne by (intros ?%key_bytes_inj; congruence). rewrite IH by done.
    case_decide; [subst|done]. by rewrite net_slot_unwritten by eauto.
  - change (AppendCodeKey [] h) with (key_bytes (KCode h)).
    rewrite lookup_insert_ne by (intros ?%key_bytes_inj; congruence). by apply IH.
Qed.

Lemma lookup_block_rows_destruct m b a :
  block_rows b m !! key_bytes (KDestruct a (Block b)) =
  if destructs (Ops b) a then Some [] else m !! key_bytes (KDestruct a (Block b)).
Proof.
  unfold block_rows. change (AppendDiffKey [] (Block b)) with (key_bytes (KDiff (Block b))).
  rewrite lookup_insert_ne by (intros ?%key_bytes_inj; congruence).
  generalize (Block b) as blk. intros blk.
  induction (Ops b) as [|op ops IH] using rev_ind; [done|].
  rewrite op_rows_snoc, destructs_snoc.
  destruct (op_row blk op) as [[k v]|] eqn:E.
  - rewrite insert_rows_snoc. cbn [fst snd].
    pose proof (op_row_key _ _ _ _ E) as (dk & Hdk & ->).
    case_bool_decide; subst.
    + injection E as <-. simplify_eq. by rewrite lookup_insert_eq, orb_true_r.
    + rewrite orb_false_r, lookup_insert_ne; [done|]. intros ->%key_bytes_inj.
      destruct op; simplify_eq/=.
  - rewrite bool_decide_eq_false_2, orb_false_r by (intros ->; done). done.
Qed.
