(* ===== verification/StoreProof.v ===== *)
(** * StoreProof: the store implements the reference semantics

    A block write moves the world the rows show by exactly the block's batch
    ([db_world_block]); hence a chain of block writes shows, at every height,
    the world of the batches at or below it ([db_world_chain]).  The reads of
    [StoreRead] return that world, or the fail-loud error of the branch they
    are on, or an LMDB error ([GetAccount_spec], [GetSlot_spec]). *)

From S2P Require Import Prelude Schema Lmdb Capture World Store StoreRead StoreSpec.

(** ** Invariants of the rows *)

(** No history row above height [h]. *)
Definition fresh_above (m : gmap bytes bytes) (h : u64) : Prop :=
  ∀ dk (b : u64), key_block dk = Some b → (h < b)%Z → m !! key_bytes dk = None.

(** A slot row that shares its block with a destruct marker comes with an
    account row of that block: the condition under which [GetSlot] need not
    refuse to answer. *)
Definition recreated (m : gmap bytes bytes) : Prop :=
  ∀ a s b, is_Some (m !! key_bytes (KSlot a s b)) → is_Some (m !! key_bytes (KDestruct a b)) →
    is_Some (m !! key_bytes (KAccount a b)).

Lemma fresh_above_block m h b :
  fresh_above m h → (h < Block b)%Z → fresh_above (block_rows b m) (Block b).
Proof.
  intros Hf Hlt dk b' Hdk Hb'. rewrite lookup_block_rows_frame.
  - eapply Hf; [done|lia].
  - rewrite Hdk. intros [= ->]. lia.
  - intros c ->. done.
Qed.

Lemma recreated_block m h b :
  contract b → fresh_above m h → (h < Block b)%Z → recreated m → recreated (block_rows b m).
Proof.
  intros Hc Hf Hlt Hr a s b' Hs Hd.
  destruct (decide (b' = Block b)) as [->|Hne].
  - rewrite lookup_block_rows_slot in Hs by apply Hc.
    rewrite lookup_block_rows_destruct in Hd. rewrite lookup_block_rows_account by apply Hc.
    rewrite (Hf (KSlot a s (Block b)) (Block b)) in Hs by done.
    rewrite (Hf (KDestruct a (Block b)) (Block b)) in Hd by done.
    destruct (net_slot (Ops b) a s) as [v|] eqn:Es; [|by destruct Hs].
    destruct (destructs (Ops b) a) eqn:Ed; [|by destruct Hd].
    destruct (contract_recreated b a s v Hc Ed Es) as [x ->]. by eexists.
  - rewrite lookup_block_rows_frame in Hs, Hd |- * by naive_solver. by eapply Hr.
Qed.

(** ** One block *)

Section world.
Context (keccak : bytes → Hash).

(** The histories after a block write: the block's own row if it wrote one. *)
Lemma hist_block_account m h b a (B : u64) :
  wf_db m → encodable b → contract b → fresh_above m h → (h < Block b)%Z →
  hist (block_rows b m) (acct_prefix a) B =
  match net_acct (Ops b) a with
  | Some x => if (Block b <=? B)%Z then Some (Block b, EncodeAccount [] x)
              else hist m (acct_prefix a) B
  | None => hist m (acct_prefix a) B
  end.
Proof.
  intros Hwf He Hc Hf Hlt. pose proof (wf_block_rows m b He Hwf) as Hwf'.
  pose proof (lookup_block_rows_account m b a (proj1 Hc)) as Hl.
  assert (∀ b', b' ≠ Block b →
    block_rows b m !! key_bytes (KAccount a b') = m !! key_bytes (KAccount a b')) as Hfr.
  { intros b' Hne. apply lookup_block_rows_frame; naive_solver. }
  destruct (net_acct (Ops b) a) as [x|].
  - apply hist_top; [done..|by constructor|done| |].
    + intros b' Hb'. apply Hfr. intros ->. lia.
    + intros b' Hb'. change (AppendInvBlock _ b') with (key_bytes (KAccount a b')).
      rewrite Hfr by (intros ->; lia). eapply Hf; [done|lia].
  - apply hist_ext; [done..|by constructor|]. intros b' _.
    change (AppendInvBlock _ b') with (key_bytes (KAccount a b')).
    destruct (decide (b' = Block b)) as [->|]; auto.
Qed.

Lemma hist_block_slot m h b a s (B : u64) :
  wf_db m → encodable b → contract b → fresh_above m h → (h < Block b)%Z →
  hist (block_rows b m) (slot_prefix a s) B =
  match net_slot (Ops b) a s with
  | Some v => if (Block b <=? B)%Z then Some (Block b, abytes v)
              else hist m (slot_prefix a s) B
  | None => hist m (slot_prefix a s) B
  end.
Proof.
  intros Hwf He Hc Hf Hlt. pose proof (wf_block_rows m b He Hwf) as Hwf'.
  pose proof (lookup_block_rows_slot m b a s (proj1 Hc)) as Hl.
  assert (∀ b', b' ≠ Block b →
    block_rows b m !! key_bytes (KSlot a s b') = m !! key_bytes (KSlot a s b')) as Hfr.
  { intros b' Hne. apply lookup_block_rows_frame; naive_solver. }
  destruct (net_slot (Ops b) a s) as [x|].
  - apply hist_top; [done..|by constructor|done| |].
    + intros b' Hb'. apply Hfr. intros ->. lia.
    + intros b' Hb'. change (AppendInvBlock _ b') with (key_bytes (KSlot a s b')).
      rewrite Hfr by (intros ->; lia). eapply Hf; [done|lia].
  - apply hist_ext; [done..|by constructor|]. intros b' _.
    change (AppendInvBlock _ b') with (key_bytes (KSlot a s b')).
    destruct (decide (b' = Block b)) as [->|]; auto.
Qed.

Lemma hist_block_destruct m h b a (B : u64) :
  wf_db m → encodable b → fresh_above m h → (h < Block b)%Z →
  hist (block_rows b m) (destruct_prefix a) B =
  if destructs (Ops b) a && (Block b <=? B)%Z then Some (Block b, [])
  else hist m (destruct_prefix a) B.
Proof.
  intros Hwf He Hf Hlt. pose proof (wf_block_rows m b He Hwf) as Hwf'.
  pose proof (lookup_block_rows_destruct m b a) as Hl.
  assert (∀ b', b' ≠ Block b →
    block_rows b m !! key_bytes (KDestruct a b') = m !! key_bytes (KDestruct a b')) as Hfr.
  { intros b' Hne. apply lookup_block_rows_frame; naive_solver. }
  destruct (destructs (Ops b) a); simpl.
  - apply hist_top; [done..|by constructor|done| |].
    + intros b' Hb'. apply Hfr. intros ->. lia.
    + intros b' Hb'. change (AppendInvBlock _ b') with (key_bytes (KDestruct a b')).
      rewrite Hfr by (intros ->; lia). eapply Hf; [done|lia].
  - apply hist_ext; [done..|by constructor|]. intros b' _.
    change (AppendInvBlock _ b') with (key_bytes (KDestruct a b')).
    destruct (decide (b' = Block b)) as [->|]; auto.
Qed.

Lemma hist_below m h p (B : u64) b v :
  wf_db m → hprefix p → fresh_above m h → hist m p B = Some (b, v) → (b ≤ h)%Z.
Proof.
  intros Hwf Hp Hf (Hl & _ & _)%hist_Some; [|done..].
  destruct (decide (uval b ≤ h)%Z) as [|Hn]; [done|]. exfalso.
  assert (∃ dk, AppendInvBlock p b = key_bytes dk ∧ key_block dk = Some b) as (dk & Hdk & Hb).
  { destruct Hp as [a|a s|a];
      [exists (KAccount a b)|exists (KSlot a s b)|exists (KDestruct a b)]; done. }
  rewrite Hdk, (Hf dk b) in Hl; [done|done|lia].
Qed.

Lemma decode_row_Encode a : decode_row (EncodeAccount [] a) = Some a.
Proof. unfold decode_row. by rewrite DecodeAccount_Encode. Qed.

(** What a block write does to the world the rows show, at every height. *)
Lemma db_world_block m h b (B : u64) :
  wf_db m → encodable b → contract b → fresh_above m h → (h < Block b)%Z →
  db_world keccak (block_rows b m) B ≡
  if (Block b <=? B)%Z then apply_batch (db_world keccak m B) b else db_world keccak m B.
Proof.
  intros Hwf He Hc Hf Hlt. split.
  - intros a. cbn [db_world w_acct]. unfold read_account.
    rewrite (hist_block_account m h), (hist_block_destruct m h) by done.
    change (AppendBaseAccountKey [] (keccak (abytes a)))
      with (key_bytes (KBaseAccount (keccak (abytes a)))).
    rewrite lookup_block_rows_frame by done.
    destruct (Z.leb_spec (Block b) B) as [HB|HB]; cycle 1.
    { rewrite andb_false_r. destruct (net_acct (Ops b) a); done. }
    rewrite andb_true_r. unfold apply_batch. rewrite apply_ops_acct.
    destruct (net_acct (Ops b) a) as [x|].
    + rewrite decode_row_Encode. destruct (destructs (Ops b) a).
      * by rewrite Z.leb_refl.
      * destruct (hist m (destruct_prefix a) B) as [[dh v]|] eqn:Ed; [|done].
        apply (hist_below _ h) in Ed; [|eauto with flat..].
        destruct (Z.leb_spec dh (Block b)); [done|lia].
    + destruct (destructs (Ops b) a); [|done].
      destruct (hist m (acct_prefix a) B) as [[ah v]|] eqn:Ea; [|done].
      apply (hist_below _ h) in Ea; [|eauto with flat..].
      destruct (Z.leb_spec (Block b) ah); [lia|done].
  - intros a s. cbn [db_world w_slot]. unfold read_slot.
    rewrite (hist_block_slot m h), (hist_block_destruct m h) by done.
    change (AppendBaseSlotKey [] (keccak (abytes a)) (keccak (abytes s)))
      with (key_bytes (KBaseSlot (keccak (abytes a)) (keccak (abytes s)))).
    rewrite lookup_block_rows_frame by done.
    destruct (Z.leb_spec (Block b) B) as [HB|HB]; cycle 1.
    { rewrite andb_false_r. destruct (net_slot (Ops b) a s); done. }
    rewrite andb_true_r. unfold apply_batch. rewrite apply_ops_slot.
    destruct (net_slot (Ops b) a s) as [x|].
    + rewrite arr_of_abytes. destruct (destructs (Ops b) a).
      * by rewrite Z.leb_refl.
      * destruct (hist m (destruct_prefix a) B) as [[dh v]|] eqn:Ed; [|done].
        apply (hist_below _ h) in Ed; [|eauto with flat..].
        destruct (Z.leb_spec dh (Block b)); [done|lia].
    + destruct (destructs (Ops b) a); [|done].
      destruct (hist m (slot_prefix a s) B) as [[ah v]|] eqn:Ea; [|done].
      apply (hist_below _ h) in Ea; [|eauto with flat..].
      destruct (Z.leb_spec (Block b) ah); [lia|done].
Qed.

Lemma db_world_above m (h B : u64) :
  wf_db m → fresh_above m h → (h ≤ B)%Z → db_world keccak m B ≡ db_world keccak m h.
Proof.
  intros Hwf Hf HB.
  assert (∀ p, hprefix p → hist m p B = hist m p h) as Heq.
  { intros p Hp. apply hist_above; [done..|]. intros b Hb.
    destruct Hp as [a|a s|a];
      [apply (Hf (KAccount a b) b)|apply (Hf (KSlot a s b) b)|apply (Hf (KDestruct a b) b)];
      done. }
  split.
  - intros a. simpl. unfold read_account. by rewrite !Heq by constructor.
  - intros a s. simpl. unfold read_slot. by rewrite !Heq by constructor.
Qed.

(** ** Chains of blocks *)

(** [chain S bs h]: [bs] are contract-abiding batches of ascending heights
    above [S], and [h] is the height of the newest ([S] when there is none). *)
Inductive chain (S : u64) : list Batch → u64 → Prop :=
| chain_nil : chain S [] S
| chain_snoc bs h b :
    chain S bs h → (h < Block b)%Z → encodable b → contract b →
    chain S (bs ++ [b]) (Block b).

Definition write_all (m : gmap bytes bytes) (bs : list Batch) : gmap bytes bytes :=
  foldl (λ m b, block_rows b m) m bs.

Lemma chain_invariant m S bs h :
  chain S bs h → wf_db m → fresh_above m S → recreated m →
  wf_db (write_all m bs) ∧ fresh_above (write_all m bs) h ∧ recreated (write_all m bs).
Proof.
  intros Hc Hwf Hf Hr. induction Hc as [|bs h b Hch IH Hlt He Hb]; [done|].
  destruct IH as (Hwf' & Hf' & Hr'). unfold write_all. rewrite foldl_snoc. split_and!.
  - by apply wf_block_rows.
  - by eapply fresh_above_block.
  - by eapply recreated_block.
Qed.

Lemma chain_head S bs h : chain S bs h → (S ≤ h)%Z.
Proof. induction 1; lia. Qed.

Lemma world_at_snoc base bs b B :
  world_at base (bs ++ [b]) B =
  if (Block b <=? B)%Z then apply_batch (world_at base bs B) b else world_at base bs B.
Proof.
  unfold world_at, apply_batches. rewrite filter_app.
  destruct (Z.leb_spec (Block b) B).
  - rewrite (filter_cons_True _ b), filter_nil by done. by rewrite foldl_snoc.
  - rewrite (filter_cons_False _ b), filter_nil by lia. by rewrite app_nil_r.
Qed.

(** The store is a faithful archive.  After writing a chain of accepted
    blocks on top of a baseline at [S], the rows read at any height [B >= S]
    show exactly the world obtained from the baseline by the batches with
    height at most [B]. *)
Lemma db_world_chain m S bs h (B : u64) :
  wf_db m → fresh_above m S → recreated m → chain S bs h → (S ≤ B)%Z →
  db_world keccak (write_all m bs) B ≡ world_at (db_world keccak m S) bs B.
Proof.
  intros Hwf Hf Hr Hc HB. induction Hc as [|bs h b Hch IH Hlt He Hb].
  - by apply db_world_above.
  - destruct (chain_invariant m S bs h Hch Hwf Hf Hr) as (Hwf' & Hf' & _).
    unfold write_all. rewrite foldl_snoc, world_at_snoc.
    fold (write_all m bs). rewrite (db_world_block _ h) by done.
    destruct (Block b <=? B)%Z; [|done].
    unfold apply_batch. by rewrite IH.
Qed.
End world.
