(* ===== verification/StoreReads.v ===== *)
(** * StoreReads: the reads of the store, on every branch

    [spec_GetAccount] and [spec_GetSlot] say, as functions of the rows alone,
    what a read answers: a value, a known absence, or the fail-loud error of
    the branch it is on.  [GetAccount] and [GetSlot] compute them up to LMDB
    errors, whatever the two handle caches hold, as long as the caches agree
    with the rows ([cache_ok], an invariant of the handle). *)

From S2P Require Import Prelude Schema Lmdb Capture World Store StoreRead StoreSpec StoreProof.

(** ** What a read should answer *)

Definition genesis_row (m : gmap bytes bytes) : option u64 := beU64 <$> m !! MetaGenesis.

Definition baseline_complete (m : gmap bytes bytes) : bool :=
  bool_decide (is_Some (m !! MetaBaselineComplete)).

(** A read below the baseline, or with no baseline, is refused before any row
    is looked at. *)
Definition spec_check {A : Type} (m : gmap bytes bytes) (at_ : u64) (k : result A) : result A :=
  match genesis_row m with
  | None => Err ErrNoGenesis
  | Some s => if (at_ <? s)%Z then Err ErrBelowGenesis else k
  end.

(** A miss on every row is a known absence once the baseline is complete. *)
Definition spec_miss {A : Type} (m : gmap bytes bytes) (zero : A) : result A :=
  if baseline_complete m then Ok zero else Err ErrBaselineIncomplete.

(** A slot row that shares its height with a destruct marker of an account that
    was not recreated at that height cannot be ordered. *)
Definition destruct_edge (m : gmap bytes bytes) (a : Address) (s : Hash) (B : u64) : bool :=
  match hist m (slot_prefix a s) B, hist m (destruct_prefix a) B with
  | Some (h, _), Some (dh, _) =>
      (dh =? h)%Z && bool_decide (m !! key_bytes (KAccount a dh) = None)
  | _, _ => false
  end.

Section spec.
Context (keccak : bytes → Hash).

Definition spec_GetAccount (m : gmap bytes bytes) (a : Address) (B : u64) :
    result (Account * bool) :=
  spec_check m B
    match read_account keccak m a B with
    | Some (Some x) => Ok (x, true)
    | Some None => Ok (Account_zero, false)
    | None => spec_miss m (Account_zero, false)
    end.

Definition spec_GetSlot (m : gmap bytes bytes) (a : Address) (s : Hash) (B : u64) :
    result Hash :=
  spec_check m B
    (if destruct_edge m a s B then Err ErrDestructEdge
     else match read_slot keccak m a s B with
          | Some v => Ok v
          | None => spec_miss m arr_zero
          end).
End spec.

(** ** The handle's caches *)

(** The row of a height is what a seek at that height finds first. *)
Lemma hist_at m a (B : u64) :
  wf_db m →
  match hist m (acct_prefix a) B with Some (h, _) => (h =? B)%Z | None => false end =
  negb (bool_decide (m !! key_bytes (KAccount a B) = None)).
Proof.
  intros Hwf. change (key_bytes (KAccount a B)) with (AppendInvBlock (acct_prefix a) B).
  destruct (hist m (acct_prefix a) B) as [[h v]|] eqn:Eh.
  - apply hist_Some in Eh as (Hl & Hle & Hmax); [|eauto with flat..].
    destruct (Z.eqb_spec h B) as [->%uint_eq|Hne].
    + by rewrite Hl.
    + by rewrite Hmax by lia.
  - rewrite (proj1 (hist_None m _ Hwf (hprefix_acct a) B) Eh) by lia. done.
Qed.

Section reads.
Context {env : Type} `{LmdbLaws env} (keccak : bytes → Hash).

Definition rows (d : DB env) : gmap bytes bytes := contents (db_env d).

Definition cache_ok (d : DB env) : Prop :=
  (genesisPlus1 d ≠ u_zero →
     rows d !! MetaGenesis = Some (beBytes (u_sub (genesisPlus1 d) (wrap 1)))) ∧
  (baselineDone d = true → is_Some (rows d !! MetaBaselineComplete)).

Lemma beU64_beBytes x : beU64 (beBytes x) = x.
Proof. apply Uint64_be_bytes'. Qed.

Lemma beBytes_beU64 v : length v = 8 → beBytes (beU64 v) = v.
Proof. apply be_bytes_Uint64. Qed.

Lemma u_sub_add_1 (x : u64) : u_sub (u_add x (wrap 1)) (wrap 1) = x.
Proof.
  apply uint_eq. unfold u_sub, u_add. rewrite !uval_wrap, (Z.mod_small 1) by lia.
  pose proof (uint_range x). rewrite <-(Z.mod_small x (2 ^ 64)) at 2 by lia.
  rewrite Zminus_mod_idemp_l. f_equal. lia.
Qed.

Lemma Genesis_spec d :
  wf_db (rows d) → cache_ok d →
  upto_faults (Genesis d).1 (Ok (genesis_row (rows d))) ∧
  db_env (Genesis d).2 = db_env d ∧ cache_ok (Genesis d).2.
Proof.
  intros Hwf [Hg Hb]. unfold Genesis, genesis_row. case_bool_decide as Hc; cbn [fst snd].
  { rewrite Hg by done. cbn [fmap option_fmap option_map]. rewrite beU64_beBytes. by split_and!; [left|..]. }
  assert (upto_faults (View (db_env d) (λ txn, getMetaU64 txn MetaGenesis))
    (Ok (beU64 <$> rows d !! MetaGenesis))) as Hr.
  { apply View_upto. unfold getMetaU64.
    change (Ok (beU64 <$> rows d !! MetaGenesis))
      with (let! v := Ok (rows d !! MetaGenesis) in Ok (beU64 <$> v)).
    apply upto_bind; [apply get_upto|]. intros v [= <-].
    destruct (rows d !! MetaGenesis) as [v|] eqn:E; [|by left].
    change MetaGenesis with (key_bytes KMetaGenesis) in E.
    apply (wf_db_row _ KMetaGenesis) in E; [|done]. cbn in E. rewrite E. by left. }
  destruct (View _ _) as [[s|]|e] eqn:Ev; cbn [fst snd]; split_and!; try done.
  split; [intros _|exact Hb]. cbn [genesisPlus1]. rewrite u_sub_add_1. unfold rows. cbn [db_env].
  pose proof (upto_sound _ _ _ Hr eq_refl) as Hs.
  injection Hs as Hs. apply fmap_Some in Hs as (v & Hv & ->).
  rewrite beBytes_beU64; [done|]. by apply (wf_db_row _ KMetaGenesis) in Hv.
Qed.

Lemma BaselineComplete_spec d :
  cache_ok d →
  upto_faults (BaselineComplete d).1 (Ok (baseline_complete (rows d))) ∧
  db_env (BaselineComplete d).2 = db_env d ∧ cache_ok (BaselineComplete d).2.
Proof.
  intros [Hg Hb]. unfold BaselineComplete, baseline_complete.
  destruct (baselineDone d) eqn:Ed; cbn [fst snd].
  { rewrite bool_decide_eq_true_2 by auto. split_and!; [by left|done..|].
    split; [done|by rewrite Ed]. }
  set (r := View _ _).
  assert (upto_faults r (Ok (bool_decide (is_Some (rows d !! MetaBaselineComplete))))) as Hr.
  { apply View_upto. unfold rows.
    destruct (get_law (db_env d) MetaBaselineComplete) as [->|[? [c ->]]];
      [|right; by eauto]. left. by destruct (contents _ !! _). }
  clearbody r. destruct r as [[]|e]; cbn [fst snd]; split_and!; try done;
    try (split; [done|by rewrite Ed]).
  split; [done|]. intros _. pose proof (upto_sound _ _ _ Hr eq_refl) as Hs.
  injection Hs as Hs. by apply bool_decide_eq_true in Hs.
Qed.

(** ** Seeks *)

Lemma seekLE_upto e p B :
  upto_faults (seekLE e (AppendInvBlock p B)) (Ok (hist (contents e) p B)).
Proof.
  unfold seekLE, hist. rewrite length_AppendInvBlock, Nat.add_sub, take_AppendInvBlock.
  eapply upto_trans_bind; [apply set_range_upto|]. left.
  destruct (first_key _ _) as [[k v]|]; [|done]. by destruct (_ || _).
Qed.

(** ** Guards *)

Lemma checkAt_spec d B :
  wf_db (rows d) → cache_ok d →
  upto_faults (checkAt d B).1 (spec_check (rows d) B (Ok ())) ∧
  db_env (checkAt d B).2 = db_env d ∧ cache_ok (checkAt d B).2.
Proof.
  intros Hwf Hc. destruct (Genesis_spec d Hwf Hc) as (Hr & He & Hc').
  unfold checkAt, spec_check. destruct (Genesis d) as [r d']; cbn [fst snd] in *.
  split_and!; [|done..]. destruct Hr as [->|[? [c ->]]]; [left|right; eauto].
  by destruct (genesis_row (rows d)).
Qed.

Lemma missAllowed_spec {A : Type} d (zero : A) :
  cache_ok d →
  upto_faults (let! _ := (missAllowed d).1 in Ok zero) (spec_miss (rows d) zero) ∧
  db_env (missAllowed d).2 = db_env d ∧ cache_ok (missAllowed d).2.
Proof.
  intros Hc. destruct (BaselineComplete_spec d Hc) as (Hr & He & Hc').
  unfold missAllowed, spec_miss. destruct (BaselineComplete d) as [r d']; cbn [fst snd] in *.
  split_and!; [|done..]. destruct Hr as [->|[? [c ->]]]; [left|right; eauto].
  by destruct (baseline_complete (rows d)).
Qed.

(** ** Transaction bodies *)

Lemma decode_row_ok raw :
  length raw = AccountSize → DecodeAccount raw = match decode_row raw with
                                                 | Some a => Ok a
                                                 | None => Err (ErrMsg "schema")
                                                 end ∧ is_Some (decode_row raw).
Proof.
  intros Hl. unfold decode_row, DecodeAccount. rewrite Hl. simpl. by split; [|eexists].
Qed.

Lemma account_txn_upto e a B :
  wf_db (contents e) →
  upto_faults (account_txn keccak e a B) (Ok (read_account keccak (contents e) a B)).
Proof.
  intros Hwf. unfold account_txn, read_account.
  rewrite AppendAccountKey_prefix, AppendDestructKey_prefix.
  set (m := contents e).
  assert (∀ h raw, hist m (acct_prefix a) B = Some (h, raw) →
    DecodeAccount raw = match decode_row raw with Some a => Ok a | None => Err (ErrMsg "schema") end ∧
    is_Some (decode_row raw)) as Hraw.
  { intros h raw (Hl & _)%hist_Some; [|eauto with flat..].
    apply (wf_db_row _ (KAccount a h)) in Hl; [|done]. by apply decode_row_ok. }
  eapply (upto_trans_bind (hist m (acct_prefix a) B)); [apply seekLE_upto|].
  eapply (upto_trans_bind (hist m (destruct_prefix a) B)); [apply seekLE_upto|].
  destruct (hist m (acct_prefix a) B) as [[h raw]|] eqn:Eh.
  { destruct (Hraw h raw eq_refl) as [-> [x ->]].
    destruct (hist m (destruct_prefix a) B) as [[dh ?]|]; [|by left].
    destruct (dh <=? h)%Z; by left. }
  destruct (hist m (destruct_prefix a) B) as [[dh ?]|]; [by left|].
  eapply upto_trans_bind; [apply get_upto|]. fold m.
  destruct (m !! _) as [raw|] eqn:Em; [|by left].
  apply (wf_db_row _ (KBaseAccount (keccak (abytes a)))) in Em; [|done].
  destruct (decode_row_ok raw Em) as [-> [x Hx]]. simpl. rewrite Hx. by left.
Qed.

(** The slot transaction, the destruct edge included. *)
Lemma slot_txn_upto e a s B :
  wf_db (contents e) →
  upto_faults (slot_txn keccak e a s B)
    (if destruct_edge (contents e) a s B then Err ErrDestructEdge
     else Ok (read_slot keccak (contents e) a s B)).
Proof.
  intros Hwf. unfold slot_txn, read_slot, destruct_edge.
  rewrite AppendSlotKey_prefix, AppendDestructKey_prefix.
  set (m := contents e).
  eapply (upto_trans_bind (hist m (slot_prefix a s) B)); [apply seekLE_upto|].
  eapply (upto_trans_bind (hist m (destruct_prefix a) B)); [apply seekLE_upto|].
  destruct (hist m (slot_prefix a s) B) as [[h raw]|] eqn:Eh.
  - apply hist_Some in Eh as (Hl & _); [|eauto with flat..].
    apply (wf_db_row _ (KSlot a s h)) in Hl; [|done]. cbn in Hl.
    destruct (hist m (destruct_prefix a) B) as [[dh ?]|] eqn:Ed; cbv beta iota;
      [|cbn; rewrite Hl; by left].
    destruct (Z.ltb_spec h dh).
    { rewrite (proj2 (Z.eqb_neq dh h)), (proj2 (Z.leb_gt dh h)) by lia. by left. }
    rewrite (proj2 (Z.leb_le dh h)) by lia.
    destruct (Z.eqb_spec dh h) as [_|_]; cbn [andb]; [|cbn; rewrite Hl; by left].
    rewrite AppendAccountKey_prefix. unfold rbind at 2.
    destruct (seekLE_upto e (acct_prefix a) dh) as [->|[? [c ->]]]; [|right; by eauto].
    fold m. cbn [rbind].
    assert (match hist m (acct_prefix a) dh with
            | Some (ah, _) => (ah =? dh)%Z | None => false end =
            negb (bool_decide (m !! key_bytes (KAccount a dh) = None))) as Hedge
      by (apply hist_at; eauto with flat).
    destruct (hist m (acct_prefix a) dh) as [[ah ?]|];
      [destruct (ah =? dh)%Z|]; destruct (bool_decide _); try discriminate Hedge;
      cbn; rewrite ?Hl; by left.
  - destruct (hist m (destruct_prefix a) B) as [[dh ?]|]; [by left|].
    eapply upto_trans_bind; [apply get_upto|]. fold m. cbn.
    destruct (m !! _) as [raw|] eqn:Em; [|by left].
    apply (wf_db_row _ (KBaseSlot (keccak (abytes a)) (keccak (abytes s)))) in Em; [|done].
    cbn in Em. rewrite Em. by left.
Qed.

(** ** The reads *)

Lemma GetAccount_upto d a B :
  wf_db (rows d) → cache_ok d →
  upto_faults (GetAccount keccak d a B).1 (spec_GetAccount keccak (rows d) a B) ∧
  db_env (GetAccount keccak d a B).2 = db_env d ∧ cache_ok (GetAccount keccak d a B).2.
Proof.
  intros Hwf Hc. destruct (checkAt_spec d B Hwf Hc) as (Hr & He & Hc').
  unfold GetAccount, spec_GetAccount, spec_check in *.
  destruct (checkAt d B) as [r d1]; cbn [fst snd] in *.
  destruct Hr as [->|[? [c ->]]]; [|split_and!; [right; by eauto|done..]].
  destruct (genesis_row (rows d)) as [g|]; [|by split_and!; [left|..]].
  destruct (B <? g)%Z; [by split_and!; [left|..]|].
  assert (rows d1 = rows d) as Hrows by (unfold rows; by rewrite He).
  assert (upto_faults (View (db_env d1) (λ txn, account_txn keccak txn a B))
    (Ok (read_account keccak (rows d) a B))) as Hv.
  { apply View_upto. rewrite He. by apply account_txn_upto. }
  destruct Hv as [->|[? [c ->]]]; [|split_and!; [right; by eauto|done..]].
  destruct (read_account keccak (rows d) a B) as [[x|]|]; [by split_and!; [left|..]..|].
  destruct (missAllowed_spec d1 (Account_zero, false) Hc') as (Hm & He2 & Hc2).
  destruct (missAllowed d1) as [r d2]; cbn [fst snd] in *.
  rewrite Hrows in Hm. split_and!; [done|congruence|done].
Qed.

Lemma GetSlot_upto d a s B :
  wf_db (rows d) → cache_ok d →
  upto_faults (GetSlot keccak d a s B).1 (spec_GetSlot keccak (rows d) a s B) ∧
  db_env (GetSlot keccak d a s B).2 = db_env d ∧ cache_ok (GetSlot keccak d a s B).2.
Proof.
  intros Hwf Hc. destruct (checkAt_spec d B Hwf Hc) as (Hr & He & Hc').
  unfold GetSlot, spec_GetSlot, spec_check in *.
  destruct (checkAt d B) as [r d1]; cbn [fst snd] in *.
  destruct Hr as [->|[? [c ->]]]; [|split_and!; [right; by eauto|done..]].
  destruct (genesis_row (rows d)) as [g|]; [|by split_and!; [left|..]].
  destruct (B <? g)%Z; [by split_and!; [left|..]|].
  assert (rows d1 = rows d) as Hrows by (unfold rows; by rewrite He).
  pose proof (View_upto (db_env d1) (λ txn, slot_txn keccak txn a s B) _
    (slot_txn_upto (db_env d1) a s B ltac:(by rewrite He))) as Hv.
  fold (rows d1) in Hv. rewrite Hrows in Hv.
  destruct Hv as [->|[? [c ->]]]; [|split_and!; [right; by eauto|done..]].
  destruct (destruct_edge (rows d) a s B); [by split_and!; [left|..]|].
  destruct (read_slot keccak (rows d) a s B) as [x|]; [by split_and!; [left|..]..|].
  destruct (missAllowed_spec d1 (arr_zero : Hash) Hc') as (Hm & He2 & Hc2).
  destruct (missAllowed d1) as [r d2]; cbn [fst snd] in *.
  rewrite Hrows in Hm. split_and!; [done|congruence|done].
Qed.

(** On a complete baseline every read at or above it answers the world the
    rows show: neither the miss nor the destruct edge can arise. *)
Definition served (m : gmap bytes bytes) (S : u64) : Prop :=
  wf_db m ∧ recreated m ∧ genesis_row m = Some S ∧ baseline_complete m = true.

Lemma recreated_no_edge m a s B : wf_db m → recreated m → destruct_edge m a s B = false.
Proof.
  intros Hwf Hr. unfold destruct_edge.
  destruct (hist m (slot_prefix a s) B) as [[h v]|] eqn:Eh; [|done].
  destruct (hist m (destruct_prefix a) B) as [[dh v']|] eqn:Ed; [|done].
  destruct (Z.eqb_spec dh h) as [->%uint_eq|]; [cbn [andb]|done].
  apply hist_Some in Eh as (Hs & _); [|eauto with flat..].
  apply hist_Some in Ed as (Hd & _); [|eauto with flat..].
  destruct (Hr a s h) as [x Hx]; [by exists v|by exists v'|].
  apply bool_decide_eq_false. by rewrite Hx.
Qed.

Lemma served_GetSlot m S a s (B : u64) :
  served m S → (S ≤ B)%Z → spec_GetSlot keccak m a s B = Ok (w_slot (db_world keccak m B) a s).
Proof.
  intros (Hwf & Hr & Hg & Hb) HB. unfold spec_GetSlot, spec_check, spec_miss.
  rewrite Hg, Hb, recreated_no_edge by done.
  destruct (Z.ltb_spec B S); [lia|]. simpl. by destruct (read_slot _ _ _ _ _).
Qed.

Definition account_answer (o : option Account) : Account * bool :=
  match o with Some x => (x, true) | None => (Account_zero, false) end.

Lemma served_GetAccount m S a (B : u64) :
  served m S → (S ≤ B)%Z →
  spec_GetAccount keccak m a B = Ok (account_answer (w_acct (db_world keccak m B) a)).
Proof.
  intros (Hwf & Hr & Hg & Hb) HB. unfold spec_GetAccount, spec_check, spec_miss.
  rewrite Hg, Hb. destruct (Z.ltb_spec B S); [lia|]. simpl.
  by destruct (read_account _ _ _ _) as [[]|].
Qed.
End reads.
