(* ===== verification/StoreWrites.v ===== *)
(** * StoreWrites: the writes of the store, on every branch

    [WriteBlock] commits exactly the rows of its block or nothing; the handle's
    caches stay true; a chain of committed blocks is then served by the reads
    exactly as the reference semantics says.  The bulk loader is a buffered
    writer: its commits are always a prefix of the operations issued, its
    resume cursor included, and [Finish] only sets the watermark when no queued
    storage is left. *)

From S2P Require Import Prelude Schema Lmdb Capture World Store StoreRead StoreSpec StoreProof.
From S2P Require Import StoreReads.

Definition known_ops (ops : list Op) : Prop := ∀ k, OpOther k ∉ ops.

Lemma encodable_known b : encodable b → known_ops (Ops b).
Proof. intros [_ Hops] k Hk. rewrite Forall_forall in Hops. by apply (Hops _ Hk). Qed.

Lemma valid_key_bytes dk : valid_key (key_bytes dk).
Proof.
  unfold valid_key. rewrite length_key_bytes. destruct dk; simpl;
    unfold AccountKeyLen, SlotKeyLen, DestructKeyLen, DiffKeyLen, CodeKeyLen,
      BaseAccountKeyLen, BaseSlotKeyLen; lia.
Qed.

Lemma encode_ops_known dst ops : known_ops ops → is_Some (encode_ops dst ops).
Proof.
  revert dst. induction ops as [|op ops IH]; intros dst Hk; [by eexists|].
  assert (known_ops ops) by (intros k ?; apply (Hk k); by right).
  destruct op; simpl; [by apply IH..|]. exfalso. eapply Hk. by left.
Qed.

(** ** What the rows of a block say

    Per kind of row, what an operation says of the account, the slot and the code; the
    last operation of the block that says something is what the row of the block's
    height holds. *)

Definition says_acct (a : Address) (op : Op) : option Account :=
  match op with OpAccount a' x => if decide (a' = a) then Some x else None | _ => None end.
Definition says_slot (a : Address) (s : Hash) (op : Op) : option Hash :=
  match op with
  | OpSlot a' s' v => if decide (a' = a ∧ s' = s) then Some v else None
  | OpDeleteSlot a' s' => if decide (a' = a ∧ s' = s) then Some zero_hash else None
  | _ => None
  end.
Definition says_code (h : Hash) (op : Op) : option bytes :=
  match op with OpCode h' c => if decide (h' = h) then Some c else None | _ => None end.

(** [m'] are the rows of [m] after block [b] was written: the rows of its height, the
    code and the diff, and nothing else. *)
Record block_written (b : Batch) (m m' : gmap bytes bytes) : Prop := {
  bw_account a :
    match last (omap (says_acct a) (Ops b)) with
    | Some x => ∃ raw, m' !! AppendAccountKey [] a (Block b) = Some raw ∧ DecodeAccount raw = Ok x
    | None => m' !! AppendAccountKey [] a (Block b) = m !! AppendAccountKey [] a (Block b)
    end;
  bw_slot a s :
    match last (omap (says_slot a s) (Ops b)) with
    | Some v => m' !! AppendSlotKey [] a s (Block b) = Some (abytes v)
    | None => m' !! AppendSlotKey [] a s (Block b) = m !! AppendSlotKey [] a s (Block b)
    end;
  bw_destruct a :
    if decide (OpDestruct a ∈ Ops b) then m' !! AppendDestructKey [] a (Block b) = Some []
    else m' !! AppendDestructKey [] a (Block b) = m !! AppendDestructKey [] a (Block b);
  bw_code h :
    match last (omap (says_code h) (Ops b)) with
    | Some c => m' !! AppendCodeKey [] h = Some c
    | None => m' !! AppendCodeKey [] h = m !! AppendCodeKey [] h
    end;
  bw_diff : encodable b → ∃ raw, m' !! AppendDiffKey [] (Block b) = Some raw ∧ Decode raw = Ok b;
  bw_other k :
    (∀ a, k ≠ AppendAccountKey [] a (Block b)) → (∀ a s, k ≠ AppendSlotKey [] a s (Block b)) →
    (∀ a, k ≠ AppendDestructKey [] a (Block b)) → (∀ h, k ≠ AppendCodeKey [] h) → k ≠ AppendDiffKey [] (Block b) →
    m' !! k = m !! k
}.

(** The last row written to a key counts. *)
Lemma lookup_op_rows m blk dk (f : Op → option bytes) ops :
  (∀ op k v, op_row blk op = Some (k, v) → f op = if decide (k = key_bytes dk) then Some v else None) →
  (∀ op, op_row blk op = None → f op = None) →
  insert_rows m (op_rows blk ops) !! key_bytes dk =
  match last (omap f ops) with Some v => Some v | None => m !! key_bytes dk end.
Proof.
  intros Hf Hn. induction ops as [|op ops IH] using rev_ind; [done|]. rewrite op_rows_snoc, omap_app. cbn.
  destruct (op_row blk op) as [[k v]|] eqn:Eo; [|by rewrite (Hn op Eo), app_nil_r].
  rewrite insert_rows_snoc, (Hf op k v Eo). cbn [fst snd]. case_decide as Hk.
  - subst k. by rewrite lookup_insert_eq, last_snoc.
  - by rewrite lookup_insert_ne, app_nil_r.
Qed.

Lemma lookup_block_op m b dk (f : Op → option bytes) :
  dk ≠ KDiff (Block b) →
  (∀ op k v, op_row (Block b) op = Some (k, v) → f op = if decide (k = key_bytes dk) then Some v else None) →
  (∀ op, op_row (Block b) op = None → f op = None) →
  block_rows b m !! key_bytes dk = match last (omap f (Ops b)) with Some v => Some v | None => m !! key_bytes dk end.
Proof.
  intros Hd Hf Hn. unfold block_rows. change (AppendDiffKey [] (Block b)) with (key_bytes (KDiff (Block b))).
  rewrite lookup_insert_ne by (intros ?%key_bytes_inj; congruence). by apply lookup_op_rows.
Qed.

(** The row of an operation sits at the key [dk] iff the operation says something of it. *)
Ltac op_says :=
  let op := fresh "op" in let k := fresh "k" in let v := fresh "v" in let Ho := fresh "Ho" in
  let dk' := fresh "dk" in let Hk := fresh "Hk" in let E := fresh "E" in
  intros op k v Ho; destruct (op_row_key _ _ _ _ Ho) as (dk' & Hk & ->); case_decide as E;
  [apply key_bytes_inj in E; subst dk'|]; destruct op; simplify_eq/=; repeat case_decide; naive_solver.

Lemma last_omap_fmap {A B C : Type} (g : B → C) (f : A → option B) (l : list A) :
  last (omap (λ x, g <$> f x) l) = g <$> last (omap f l).
Proof.
  induction l as [|x l IH] using rev_ind; [done|]. rewrite !omap_app. cbn.
  destruct (f x); cbn; [by rewrite !last_snoc|by rewrite !app_nil_r].
Qed.

Lemma block_rows_written b m : known_ops (Ops b) → block_written b m (block_rows b m).
Proof.
  intros Hk. split.
  - intros a. change (AppendAccountKey [] a (Block b)) with (key_bytes (KAccount a (Block b))).
    rewrite (lookup_block_op m b (KAccount a (Block b)) (λ op, EncodeAccount [] <$> says_acct a op));
      [|done|op_says|by intros []].
    rewrite last_omap_fmap. destruct (last _); cbn; [|done]. eexists. split; [done|]. apply DecodeAccount_Encode.
  - intros a s. change (AppendSlotKey [] a s (Block b)) with (key_bytes (KSlot a s (Block b))).
    rewrite (lookup_block_op m b (KSlot a s (Block b)) (λ op, abytes <$> says_slot a s op));
      [|done|op_says|by intros []].
    rewrite last_omap_fmap. by destruct (last _).
  - intros a. change (AppendDestructKey [] a (Block b)) with (key_bytes (KDestruct a (Block b))).
    rewrite lookup_block_rows_destruct. unfold destructs. case_decide; [by rewrite bool_decide_eq_true_2|].
    by rewrite bool_decide_eq_false_2.
  - intros h. change (AppendCodeKey [] h) with (key_bytes (KCode h)).
    rewrite (lookup_block_op m b (KCode h) (says_code h)); [|done|op_says|by intros []]. by destruct (last _).
  - intros He. destruct (Encode_total b He) as [raw Hraw]. exists raw. unfold block_rows.
    rewrite lookup_insert_eq, Hraw. split; [done|]. by apply Decode_Encode.
  - intros k Ha Hs Hd Hc Hdf. unfold block_rows. rewrite lookup_insert_ne by done.
    apply lookup_insert_rows_ne. intros op k' v _ Ho ->. destruct op; cbn in Ho; naive_solver.
Qed.

Section writes.
Context {env : Type} `{LmdbLaws env} (keccak : bytes → Hash).
Implicit Types (d : DB env) (bl : Baseline).

(** ** One block *)

Lemma write_ops_cases e blk ops :
  (∃ e', write_ops e blk ops = Ok e' ∧ known_ops ops ∧
     contents e' = insert_rows (contents e) (op_rows blk ops)) ∨
  (∃ k, write_ops e blk ops = Err (ErrMsg "store") ∧ OpOther k ∈ ops) ∨
  faults ∧ ∃ c, write_ops e blk ops = Err (ErrLmdb c).
Proof.
  revert e. induction ops as [|op ops IH]; intros e.
  { left. exists e. split_and!; [done| |done]. intros k. set_solver. }
  cbn [write_ops]. destruct (op_row blk op) as [[k v]|] eqn:Eo; cycle 1.
  { destruct op; try discriminate. right; left. eexists. split; [done|by left]. }
  destruct (op_row_key _ _ _ _ Eo) as (dk & _ & ->).
  destruct (put_result e (key_bytes dk) v (valid_key_bytes dk)) as [(e1 & -> & He1)|[? [c ->]]];
    [|right; right; eauto].
  cbn [rbind]. destruct (IH e1) as [(e' & -> & Hk & He')|[(k' & -> & Hin)|[? [c ->]]]].
  - left. exists e'. split_and!; [done| |].
    + intros k [<-|?]%elem_of_cons; [done|by eapply Hk].
    + rewrite He', He1. unfold op_rows. simpl. by rewrite Eo.
  - right; left. exists k'. split; [done|by right].
  - right; right. eauto.
Qed.

Lemma WriteBlock_cases d b :
  match WriteBlock d b with
  | (Ok _, d') =>
      known_ops (Ops b) ∧ rows d' = block_rows b (rows d) ∧ d' = set_env d (db_env d')
  | (Err er, d') =>
      d' = d ∧ (er = ErrMsg "store" ∧ ¬ known_ops (Ops b) ∨ faults ∧ ∃ c, er = ErrLmdb c)
  end.
Proof.
  unfold WriteBlock, Update.
  destruct d as [e g bd]; cbn [db_env set_env genesisPlus1 baselineDone].
  destruct (begin_law e) as [->|[? [c ->]]]; cbn [lres_result rbind]; [|by eauto].
  destruct (write_ops_cases e (Block b) (Ops b)) as [(e1 & -> & Hk & He1)|[(k & -> & Hin)|[? [c ->]]]];
    cbn [lres_result rbind]; [|split; [done|]; left; split; [done|]; intros Hk; by eapply Hk|by eauto].
  destruct (encode_ops_known (AppendUint32 (AppendUint64 ((AppendUint64 [] (Block b) ++
    abytes (BHash b)) ++ abytes (Parent b)) (Time b)) (wrap (Z.of_nat (length (Ops b)))))
    (Ops b) Hk) as [v Hv].
  assert (Encode b [] = Some v) as Henc by exact Hv. rewrite Henc.
  destruct (put_result e1 (AppendDiffKey [] (Block b)) v (valid_key_bytes (KDiff (Block b))))
    as [(e2 & -> & He2)|[? [c ->]]]; cbn [lres_result rbind]; [|by eauto].
  destruct (commit_law e2) as [->|[? [c ->]]]; cbn [lres_result rbind]; [|by eauto].
  split_and!; [done| |done]. unfold rows, block_rows. cbn [db_env set_env]. by rewrite He2, He1, Henc.
Qed.

(** A caller that ignores the outcome of a failed write sees the old store. *)
Lemma block_rows_meta b m dk :
  dk = KMetaGenesis ∨ dk = KMetaBaselineComplete →
  block_rows b m !! key_bytes dk = m !! key_bytes dk.
Proof. by intros [->| ->]; apply lookup_block_rows_frame. Qed.

Lemma WriteBlock_cache d b : cache_ok d → cache_ok (WriteBlock d b).2.
Proof.
  intros [Hg Hb]. pose proof (WriteBlock_cases d b) as Hw.
  destruct (WriteBlock d b) as [[[]|er] d']; cbn [snd]; [|by destruct Hw as [-> _]].
  destruct Hw as (_ & Hrows & ->). split; cbn [genesisPlus1 baselineDone set_env].
  - intros Hne. change (rows _) with (rows d'). rewrite Hrows.
    rewrite (block_rows_meta b _ KMetaGenesis) by auto. by apply Hg.
  - intros Hd. change (rows _) with (rows d'). rewrite Hrows.
    rewrite (block_rows_meta b _ KMetaBaselineComplete) by auto. by apply Hb.
Qed.

(** ** A chain of blocks *)

(** The accepted-block hook applied to a run of blocks, stopping at the first
    error. *)
Fixpoint write_blocks (d : DB env) (bs : list Batch) : result unit * DB env :=
  match bs with
  | [] => (Ok (), d)
  | b :: bs' =>
      match WriteBlock d b with
      | (Ok _, d) => write_blocks d bs'
      | (Err e, d) => (Err e, d)
      end
  end.

Lemma write_blocks_rows d bs d' :
  cache_ok d → write_blocks d bs = (Ok (), d') →
  cache_ok d' ∧ rows d' = write_all (rows d) bs.
Proof.
  revert d. induction bs as [|b bs IH]; intros d Hc; simpl; [by intros [= <-]|].
  pose proof (WriteBlock_cache d b Hc) as Hc'. pose proof (WriteBlock_cases d b) as Hw.
  destruct (WriteBlock d b) as [[[]|er] d1]; [|done]. cbn [snd] in Hc'.
  destruct Hw as (_ & Hrows & _). intros [? ->]%IH; [|done]. by rewrite Hrows.
Qed.

(** Without faults a chain of encodable blocks is written. *)
Lemma write_blocks_total d bs :
  ¬ faults → Forall (λ b, known_ops (Ops b)) bs → ∃ d', write_blocks d bs = (Ok (), d').
Proof.
  intros Hf. revert d. induction bs as [|b bs IH]; intros d Hk; [by eexists|].
  inversion Hk as [|?? Hb Hbs]; subst. simpl. pose proof (WriteBlock_cases d b) as Hw.
  destruct (WriteBlock d b) as [[[]|er] d1]; [by apply IH|].
  by destruct Hw as [_ [[_ Hn]|[? _]]].
Qed.

Lemma write_all_meta m bs dk :
  dk = KMetaGenesis ∨ dk = KMetaBaselineComplete →
  write_all m bs !! key_bytes dk = m !! key_bytes dk.
Proof.
  intros Hdk. induction bs as [|b bs IH] using rev_ind; [done|].
  unfold write_all. rewrite foldl_snoc. by rewrite (block_rows_meta b _ dk).
Qed.

Lemma served_write_all m S bs h :
  served m S → fresh_above m S → chain S bs h → served (write_all m bs) S.
Proof.
  intros (Hwf & Hr & Hg & Hb) Hf Hc.
  destruct (chain_invariant m S bs h Hc Hwf Hf Hr) as (Hwf' & _ & Hr').
  split_and!; [done|done|..].
  - unfold genesis_row. change MetaGenesis with (key_bytes KMetaGenesis).
    by rewrite write_all_meta by auto.
  - unfold baseline_complete. change MetaBaselineComplete with (key_bytes KMetaBaselineComplete).
    by rewrite write_all_meta by auto.
Qed.

(** The store as an archive: after a chain of blocks was written on top of a
    complete baseline at [S], a read at any height [B >= S] answers the world
    of the baseline with the batches at or below [B]. *)
Lemma archive_upto d S bs h d' (B : u64) :
  served (rows d) S → cache_ok d → fresh_above (rows d) S → chain S bs h →
  write_blocks d bs = (Ok (), d') → (S ≤ B)%Z →
  let w := world_at (db_world keccak (rows d) S) bs B in
  (∀ a, upto_faults (GetAccount keccak d' a B).1 (Ok (account_answer (w_acct w a)))) ∧
  (∀ a s, upto_faults (GetSlot keccak d' a s B).1 (Ok (w_slot w a s))).
Proof.
  intros Hs Hc Hf Hch [Hc' Hrows]%write_blocks_rows HB w; [|done].
  pose proof (served_write_all _ _ _ _ Hs Hf Hch) as Hs'. rewrite <-Hrows in Hs'.
  assert (db_world keccak (rows d') B ≡ w) as [Ha Hsl].
  { rewrite Hrows. by eapply db_world_chain; [apply Hs|done|apply Hs|done|]. }
  split; intros; [rewrite <-Ha|rewrite <-Hsl].
  - erewrite <-served_GetAccount by done. apply GetAccount_upto; [apply Hs'|done].
  - erewrite <-served_GetSlot by done. apply GetSlot_upto; [apply Hs'|done].
Qed.
End writes.
