(* ===== verification/Loader.v ===== *)
(** * Loader: the baseline bulk loader

    The [Baseline] of [store/store.go] buffers rows and commits them in chunks,
    with an opaque resume cursor.  Seen through its buffer it is a direct
    writer ([view]); what is committed at any moment, errors included, is the
    effect of a prefix of the calls made so far, cursor included
    ([loader_prefix]).  [Finish] sets the watermark only over an empty storage
    queue, and loader commits commute with block writes. *)

From S2P Require Import Prelude Schema Lmdb Capture World Store StoreRead StoreSpec StoreProof.
From S2P Require Import StoreReads StoreWrites.

(** ** Buffered rows *)

Definition apply_blop (m : gmap bytes bytes) (op : blOp) : gmap bytes bytes :=
  if bo_del op then delete (bo_k op) m else <[bo_k op:=bo_v op]> m.
Definition apply_blops (m : gmap bytes bytes) (ops : list blOp) : gmap bytes bytes :=
  foldl apply_blop m ops.

(** The rows the loader may touch: no meta row. *)
Definition blop_ok (op : blOp) : Prop :=
  ∃ dk, bo_k op = key_bytes dk ∧ key_tag dk ≠ PrefMeta ∧ (bo_del op = false → row_ok dk (bo_v op)).

Definition put_progress (m : gmap bytes bytes) (p : option bytes) : gmap bytes bytes :=
  match p with Some p => <[MetaBaselineProgress:=p]> m | None => m end.

(** ** The loader's calls *)

Inductive lcall :=
| CAccount (a : Address) (x : Account)
| CSlot (a : Address) (s v : Hash)
| CCode (h : Hash) (c : bytes)
| CBaseAccount (h : Hash) (x : Account)
| CBaseSlot (h s v : Hash)
| CQueueStorage (h root : Hash)
| CDequeueStorage (h : Hash)
| CSetProgress (p : bytes)
| CFlush.

Definition call_op (S : u64) (c : lcall) : option blOp :=
  match c with
  | CAccount a x => Some (MkBlOp (AppendAccountKey [] a S) (EncodeAccount [] x) false)
  | CSlot a s v => Some (MkBlOp (AppendSlotKey [] a s S) (abytes v) false)
  | CCode h c => Some (MkBlOp (AppendCodeKey [] h) c false)
  | CBaseAccount h x => Some (MkBlOp (AppendBaseAccountKey [] h) (EncodeAccount [] x) false)
  | CBaseSlot h s v => Some (MkBlOp (AppendBaseSlotKey [] h s) (abytes v) false)
  | CQueueStorage h root => Some (MkBlOp (AppendStorageQueueKey [] h) (abytes root) false)
  | CDequeueStorage h => Some (MkBlOp (AppendStorageQueueKey [] h) [] true)
  | CSetProgress _ | CFlush => None
  end.

(** What a call means, buffering apart. *)
Definition call_effect (S : u64) (m : gmap bytes bytes) (c : lcall) : gmap bytes bytes :=
  match c with
  | CSetProgress p => <[MetaBaselineProgress:=p]> m
  | _ => match call_op S c with Some op => apply_blop m op | None => m end
  end.

Lemma call_op_ok S c op : call_op S c = Some op → blop_ok op.
Proof.
  destruct c; intros [= <-]; unfold blop_ok; cbn [bo_k bo_v bo_del].
  - exists (KAccount a S). split_and!; [done..|]. intros _. apply length_EncodeAccount.
  - exists (KSlot a s S). split_and!; [done..|]. intros _. apply length_abytes.
  - by exists (KCode h).
  - exists (KBaseAccount h). split_and!; [done..|]. intros _. apply length_EncodeAccount.
  - exists (KBaseSlot h s). split_and!; [done..|]. intros _. apply length_abytes.
  - exists (KStorageQueue h). split_and!; [done..|]. intros _. apply length_abytes.
  - by exists (KStorageQueue h).
Qed.

Lemma apply_blop_ne m op k : blop_ok op → bo_k op ≠ k → apply_blop m op !! k = m !! k.
Proof.
  intros _ Hne. unfold apply_blop. destruct (bo_del op);
    [by rewrite lookup_delete_ne|by rewrite lookup_insert_ne].
Qed.

Lemma blop_not_meta op dk : blop_ok op → key_tag dk = PrefMeta → bo_k op ≠ key_bytes dk.
Proof. intros (dk' & -> & Hne & _) Ht ->%key_bytes_inj. done. Qed.

Lemma apply_blop_progress m op p :
  blop_ok op → apply_blop (put_progress m p) op = put_progress (apply_blop m op) p.
Proof.
  intros Hok. destruct p as [p|]; [|done]. cbn [put_progress].
  pose proof (blop_not_meta op KMetaBaselineProgress Hok eq_refl) as Hne. cbn in Hne.
  unfold apply_blop. destruct (bo_del op);
    [by rewrite delete_insert_ne|by rewrite insert_insert_ne].
Qed.

Lemma apply_blops_meta m ops dk :
  Forall blop_ok ops → key_tag dk = PrefMeta →
  apply_blops m ops !! key_bytes dk = m !! key_bytes dk.
Proof.
  intros Hok Ht. unfold apply_blops. revert m.
  induction Hok as [|op ops Hop _ IH]; intros m; [done|]. simpl. rewrite IH.
  apply apply_blop_ne; [done|]. by apply blop_not_meta.
Qed.

Lemma wf_apply_blops m ops : wf_db m → Forall blop_ok ops → wf_db (apply_blops m ops).
Proof.
  intros Hwf Hok. unfold apply_blops. revert m Hwf.
  induction Hok as [|op ops (dk & Hk & _ & Hv) _ IH]; intros m Hwf; [done|]. simpl. apply IH.
  unfold apply_blop. rewrite Hk. destruct (bo_del op);
    [by apply wf_db_delete|apply wf_db_insert; auto].
Qed.

Section loader.
Context {env : Type} `{LmdbLaws env}.
Implicit Types (d : DB env) (bl : Baseline).

Definition loader_step (d : DB env) (bl : Baseline) (c : lcall) : result unit * DB env * Baseline :=
  match c with
  | CAccount a x => bl_Account d bl a x
  | CSlot a s v => bl_Slot d bl a s v
  | CCode h c => bl_Code d bl h c
  | CBaseAccount h x => BaseAccount d bl h x
  | CBaseSlot h s v => BaseSlot d bl h s v
  | CQueueStorage h root => QueueStorage d bl h root
  | CDequeueStorage h => DequeueStorage d bl h
  | CSetProgress p => (Ok (), d, SetProgress bl (Some p))
  | CFlush => Flush d bl
  end.

(** The loader stops at the first error. *)
Fixpoint loader_run (d : DB env) (bl : Baseline) (cs : list lcall) :
    result unit * DB env * Baseline :=
  match cs with
  | [] => (Ok (), d, bl)
  | c :: cs' =>
      match loader_step d bl c with
      | (Ok _, d, bl) => loader_run d bl cs'
      | r => r
      end
  end.

(** The rows as the loader's own calls left them: committed, then buffered,
    then the pending cursor. *)
Definition view (d : DB env) (bl : Baseline) : gmap bytes bytes :=
  put_progress (apply_blops (rows d) (bl_ops bl)) (bl_progress bl).

Definition buffer_ok (bl : Baseline) : Prop := Forall blop_ok (bl_ops bl).

Lemma flush_ops_cases e ops :
  Forall blop_ok ops →
  (∃ e', flush_ops e ops = Ok e' ∧ contents e' = apply_blops (contents e) ops) ∨
  faults ∧ ∃ c, flush_ops e ops = Err (ErrLmdb c).
Proof.
  intros Hok. revert e. induction Hok as [|op ops (dk & Hk & _) _ IH]; intros e; [by eauto|].
  cbn [flush_ops]. destruct op as [k v []]; cbn [bo_k bo_v bo_del] in *; subst k.
  - destruct (del_law e (key_bytes dk)) as [(e1 & -> & _ & He1)|[[-> Hn]|[? [c ->]]]];
      [| |right; by eauto]; cbn [rbind].
    + destruct (IH e1) as [(e' & -> & He')|?]; [left|by right].
      exists e'. by rewrite He', He1.
    + destruct (IH e) as [(e' & -> & He')|?]; [left|by right].
      exists e'. split; [done|]. rewrite He'.
      change (apply_blops _ (_ :: ops)) with (apply_blops (delete (key_bytes dk) (contents e)) ops).
      by rewrite delete_id.
  - destruct (put_result e (key_bytes dk) v (valid_key_bytes dk)) as [(e1 & -> & He1)|[? [c ->]]];
      [|right; by eauto]; cbn [rbind].
    destruct (IH e1) as [(e' & -> & He')|?]; [left|by right].
    exists e'. by rewrite He', He1.
Qed.

(** A flush commits the whole buffer with the cursor, or nothing. *)
Lemma Flush_cases d bl :
  buffer_ok bl →
  match Flush d bl with
  | (Ok _, d', bl') =>
      rows d' = view d bl ∧ bl' = MkBaseline (bl_s bl) [] None ∧ d' = set_env d (db_env d')
  | (Err er, d', bl') =>
      d' = d ∧ bl' = MkBaseline (bl_s bl) [] (bl_progress bl) ∧ faults ∧ ∃ c, er = ErrLmdb c
  end.
Proof.
  intros Hok. destruct d as [e g bd], bl as [S ops p]. unfold Flush, view, rows, buffer_ok in *.
  cbn [bl_ops bl_progress bl_s db_env] in *.
  destruct (Nat.eqb_spec (length ops) 0) as [->%nil_length_inv|_];
    [case_bool_decide as Hp; [by subst p|]|]; cbn [andb].
  all: unfold Update; destruct (begin_law e) as [->|[? [c ->]]]; cbn [lres_result]; [|by eauto 6].
  all: destruct (flush_ops_cases e _ Hok) as [(e1 & -> & He1)|[? [c ->]]]; cbn [rbind];
    [|by eauto 6].
  all: destruct p as [p|]; cbn [put_progress].
  all: try done.
  all: try (destruct (put_result e1 MetaBaselineProgress p (valid_key_bytes KMetaBaselineProgress))
      as [(e2 & -> & He2)|[? [c ->]]]; [|by eauto 6]).
  all: match goal with
       | |- context [mdb_commit ?x] => destruct (commit_law x) as [->|[? [c ->]]]; cbn [lres_result];
           [|by eauto 6]
       end; split_and!; [cbn [db_env set_env]|done|done]; congruence.
Qed.

(** Every call steps the view by its meaning, and either commits the whole
    view or leaves the committed rows alone. *)
Lemma add_step d bl op :
  buffer_ok bl → blop_ok op →
  let r := if (baselineChunk <=? Z.of_nat (length (bl_ops (bl_append bl op))))%Z
           then Flush d (bl_append bl op) else (Ok (), d, bl_append bl op) in
  buffer_ok r.2 ∧ bl_s r.2 = bl_s bl ∧
  match r with
  | (Ok _, d', bl') =>
      view d' bl' = apply_blop (view d bl) op ∧ (rows d' = rows d ∨ rows d' = view d' bl')
  | (Err _, d', _) => rows d' = rows d
  end.
Proof.
  intros Hb Hop. assert (buffer_ok (bl_append bl op)) as Hb'.
  { apply Forall_app. by split; [|constructor]. }
  assert (view d (bl_append bl op) = apply_blop (view d bl) op) as Hview.
  { unfold view, bl_append, apply_blops. cbn [bl_ops bl_progress]. rewrite foldl_snoc.
    by rewrite apply_blop_progress. }
  cbv zeta. destruct (_ <=? _)%Z.
  - pose proof (Flush_cases d (bl_append bl op) Hb') as Hf.
    destruct (Flush d _) as [[[[]|er] d'] bl']; cbn [snd].
    + destruct Hf as (Hrows & -> & _). split_and!; [by constructor|done|..].
      * by rewrite <-Hview, <-Hrows.
      * by right.
    + destruct Hf as (-> & -> & _). by split_and!; [constructor|..].
  - by split_and!; [..|left].
Qed.

Lemma loader_step_spec d bl c :
  buffer_ok bl →
  buffer_ok (loader_step d bl c).2 ∧ bl_s (loader_step d bl c).2 = bl_s bl ∧
  match loader_step d bl c with
  | (Ok _, d', bl') =>
      view d' bl' = call_effect (bl_s bl) (view d bl) c ∧
      (rows d' = rows d ∨ rows d' = view d' bl')
  | (Err _, d', _) => rows d' = rows d
  end.
Proof.
  intros Hb. destruct c;
    try (match goal with |- context [loader_step _ _ ?c] =>
      destruct (call_op (bl_s bl) c) as [op|] eqn:Eo; [|discriminate];
      pose proof (add_step d bl op Hb (call_op_ok _ _ _ Eo)) as Hadd;
      injection Eo as <-; exact Hadd end).
  - split_and!; [done|done|split; [|by left]]. unfold view.
    cbn [call_effect bl_ops bl_progress SetProgress put_progress].
    destruct (bl_progress bl); cbn [put_progress]; [by rewrite insert_insert_eq|done].
  - cbn [loader_step call_effect call_op]. pose proof (Flush_cases d bl Hb) as Hf.
    destruct (Flush d bl) as [[[[]|er] d'] bl']; cbn [snd].
    + destruct Hf as (Hrows & -> & _). split_and!; [by constructor|done| |].
      * unfold view at 1. cbn. done.
      * right. unfold view at 1. cbn. done.
    + destruct Hf as (-> & -> & _). by split_and!; [constructor|..].
Qed.

(** What is committed is the effect of a prefix of the calls; when every
    call succeeded, the rest of the calls is what the buffer holds. *)
Lemma loader_run_prefix d bl cs :
  buffer_ok bl →
  match loader_run d bl cs with
  | (r, d', bl') =>
      (rows d' = rows d ∨ ∃ k, k ≤ length cs ∧
         rows d' = foldl (call_effect (bl_s bl)) (view d bl) (take k cs)) ∧
      (r = Ok () → view d' bl' = foldl (call_effect (bl_s bl)) (view d bl) cs)
  end.
Proof.
  revert d bl. induction cs as [|c cs IH]; intros d bl Hb; [by split; [left|]|].
  cbn [loader_run]. destruct (loader_step_spec d bl c Hb) as (Hb1 & Hs1 & Hstep).
  destruct (loader_step d bl c) as [[[[]|er] d1] bl1]; cbn [snd] in *; [|by split; [left|]].
  destruct Hstep as [Hv Hc]. specialize (IH d1 bl1 Hb1). rewrite Hs1, Hv in IH.
  destruct (loader_run d1 bl1 cs) as [[r d'] bl']. destruct IH as [IHc IHv].
  split; [|intros Hr; exact (IHv Hr)].
  destruct IHc as [Hd'|(k & Hk & Hd')].
  - destruct Hc as [Hc|Hc]; [left; congruence|right]. exists 1. simpl. split; [lia|]. congruence.
  - right. exists (S k). simpl. split; [lia|done].
Qed.

(** ** Starting and finishing *)

Lemma putMeta_cases d dk v :
  match putMeta d (key_bytes dk) v with
  | (Ok _, d') => rows d' = <[key_bytes dk:=v]> (rows d) ∧ d' = set_env d (db_env d')
  | (Err er, d') => d' = d ∧ faults ∧ ∃ c, er = ErrLmdb c
  end.
Proof.
  destruct d as [e g bd]. unfold putMeta, Update, rows. cbn [db_env].
  destruct (begin_law e) as [->|[? [c ->]]]; cbn [lres_result]; [|by eauto].
  destruct (put_result e (key_bytes dk) v (valid_key_bytes dk)) as [(e1 & -> & He1)|[? [c ->]]];
    [|by eauto].
  destruct (commit_law e1) as [->|[? [c ->]]]; cbn [lres_result]; [done|by eauto].
Qed.

(** The baseline height is recorded once and never moves. *)
Lemma NewBaseline_cases d S :
  wf_db (rows d) → cache_ok d →
  match NewBaseline d S with
  | (Ok bl, d') =>
      bl = MkBaseline S [] None ∧ cache_ok d' ∧
      (genesis_row (rows d) = Some S ∧ rows d' = rows d ∨
       genesis_row (rows d) = None ∧ rows d' = <[MetaGenesis:=beBytes S]> (rows d))
  | (Err er, d') =>
      rows d' = rows d ∧ cache_ok d' ∧
      ((∃ g, genesis_row (rows d) = Some g ∧ g ≠ S ∧ er = ErrMsg "store") ∨
       faults ∧ ∃ c, er = ErrLmdb c)
  end.
Proof.
  intros Hwf Hc. destruct (Genesis_spec d Hwf Hc) as (Hr & He & Hc1). unfold NewBaseline.
  destruct (Genesis d) as [r d1]; cbn [fst snd] in *.
  assert (rows d1 = rows d) as Hrows by (unfold rows; by rewrite He).
  destruct Hr as [->|[? [c ->]]]; [|by eauto 8].
  destruct (genesis_row (rows d)) as [g|] eqn:Eg.
  { case_bool_decide as Hg; [by eauto 8|]. subst g. by eauto 8. }
  pose proof (putMeta_cases d1 KMetaGenesis (beBytes S)) as Hp. cbn [key_bytes] in Hp.
  destruct (putMeta d1 MetaGenesis (beBytes S)) as [[[]|er] d2]; cycle 1.
  { destruct Hp as (-> & Hf & c & ->). split_and!; [done..|]. right. eauto. }
  destruct Hp as [Hrows2 Hd2]. split_and!; [done| |right; split; [done|unfold rows in *; cbn [db_env]; congruence]].
  split; cbn [genesisPlus1 baselineDone].
  - intros _. rewrite u_sub_add_1. unfold rows in *. cbn [db_env]. rewrite Hrows2.
    by rewrite lookup_insert_eq.
  - intros Hb. unfold rows in *. cbn [db_env]. rewrite Hrows2, lookup_insert_ne by done.
    apply Hc1. rewrite Hd2 in Hb. exact Hb.
Qed.

Definition queue_empty (m : gmap bytes bytes) : Prop :=
  ∀ h, m !! key_bytes (KStorageQueue h) = None.

Lemma queue_key_ge h : key_ge [PrefStorageQueue] (key_bytes (KStorageQueue h)) = true.
Proof.
  apply bool_decide_eq_true. unfold bytes_le, key_bytes, AppendStorageQueueKey. simpl.
  by destruct (abytes h).
Qed.

(** The least row at or after the queue prefix is a queue row iff there is one. *)
Lemma queue_seek m k v :
  wf_db m → first_key m (key_ge [PrefStorageQueue]) = Some (k, v) →
  if bool_decide (head k = Some PrefStorageQueue) then ¬ queue_empty m else queue_empty m.
Proof.
  intros Hwf (Hk & Hge%bool_decide_eq_true & Hmin)%first_key_Some.
  destruct (Hwf k v Hk) as (dk & -> & _). case_bool_decide as Hh.
  - rewrite head_key_bytes in Hh. intros Hq. destruct dk; try discriminate Hh.
    rewrite Hq in Hk. done.
  - intros h. destruct (m !! key_bytes (KStorageQueue h)) as [v'|] eqn:E; [|done]. exfalso.
    apply Hmin in E; [|apply queue_key_ge].
    rewrite head_key_bytes in Hh. apply Hh.
    unfold bytes_le in Hge. by destruct dk; destruct Hge.
Qed.

Lemma queue_seek_none m :
  first_key m (key_ge [PrefStorageQueue]) = None → queue_empty m.
Proof.
  rewrite first_key_None. intros Hn h.
  destruct (m !! key_bytes (KStorageQueue h)) as [v|] eqn:E; [|done].
  apply Hn in E. by rewrite queue_key_ge in E.
Qed.

Lemma finish_txn_cases e :
  wf_db (contents e) →
  (∃ e', finish_txn e = Ok e' ∧ queue_empty (contents e) ∧
     contents e' = <[MetaBaselineComplete:=[byte_lit 1]]> (delete MetaBaselineProgress (contents e))) ∨
  finish_txn e = Err (ErrMsg "store") ∧ ¬ queue_empty (contents e) ∨
  faults ∧ ∃ c, finish_txn e = Err (ErrLmdb c).
Proof.
  intros Hwf. unfold finish_txn.
  set (commit := rbind _ _).
  assert ((∃ e', commit = Ok e' ∧
    contents e' = <[MetaBaselineComplete:=[byte_lit 1]]> (delete MetaBaselineProgress (contents e))) ∨
    faults ∧ ∃ c, commit = Err (ErrLmdb c)) as Hcommit.
  { unfold commit.
    destruct (del_law e MetaBaselineProgress) as [(e1 & -> & _ & He1)|[[-> Hn]|[? [c ->]]]];
      cbn [rbind]; [| |right; by eauto].
    - rewrite <-He1. apply (put_result e1 _ _ (valid_key_bytes KMetaBaselineComplete)).
    - rewrite delete_id by done. apply (put_result e _ _ (valid_key_bytes KMetaBaselineComplete)). }
  clearbody commit.
  destruct (set_range_law e [PrefStorageQueue]) as [->|[? [c ->]]]; [|right; right; by eauto].
  destruct (first_key (contents e) _) as [[k v]|] eqn:Ek; cbn [lres_of].
  - apply queue_seek in Ek; [|done]. case_bool_decide; [by eauto|].
    destruct Hcommit as [(e' & -> & ?)|?]; [left|]; eauto.
  - apply queue_seek_none in Ek. destruct Hcommit as [(e' & -> & ?)|?]; [left|]; eauto.
Qed.

(** [Finish] commits the buffer, then either sets the watermark over an empty
    storage queue or leaves it alone. *)
Lemma Finish_cases d bl :
  wf_db (rows d) → buffer_ok bl →
  let v := apply_blops (rows d) (bl_ops bl) in
  match Finish d bl with
  | (Ok _, d', _) =>
      queue_empty v ∧ baselineDone d' = true ∧
      rows d' = <[MetaBaselineComplete:=[byte_lit 1]]> (delete MetaBaselineProgress v)
  | (Err er, d', _) =>
      (rows d' = rows d ∨ rows d' = v) ∧ baselineDone d' = baselineDone d ∧
      (er = ErrMsg "store" ∧ ¬ queue_empty v ∨ faults ∧ ∃ c, er = ErrLmdb c)
  end.
Proof.
  intros Hwf Hb v. unfold Finish.
  pose proof (Flush_cases d (SetProgress bl None) Hb) as Hf.
  destruct (Flush d (SetProgress bl None)) as [[[[]|er] d1] bl1]; cycle 1.
  { destruct Hf as (-> & _ & Hf & c & ->). split_and!; [by left|done|]. right. eauto. }
  destruct Hf as (Hrows & -> & Hd1). change (rows d1 = v) in Hrows.
  assert (wf_db (contents (db_env d1))) as Hwf1.
  { fold (rows d1). rewrite Hrows. by apply wf_apply_blops. }
  assert (baselineDone d1 = baselineDone d) as Hbd by (by rewrite Hd1).
  unfold Update. destruct (begin_law (db_env d1)) as [->|[? [c ->]]]; cbn [lres_result];
    [|split_and!; [by right|done|right; by eauto]].
  pose proof (finish_txn_cases (db_env d1) Hwf1) as Ht. fold (rows d1) in Ht. rewrite Hrows in Ht.
  destruct Ht as [(e' & -> & Hq & He')|[[-> Hq]|[? [c ->]]]];
    [|split_and!; [by right|done|by left]|split_and!; [by right|done|right; by eauto]].
  destruct (commit_law e') as [->|[? [c ->]]]; cbn [lres_result];
    [by split_and!|split_and!; [by right|done|right; by eauto]].
Qed.

(** After a failed flush the buffered rows are gone but the cursor is still
    pending: the next flush that succeeds commits the cursor over rows that
    were never written. *)
Lemma Flush_failed_then d bl er d1 bl1 d2 bl2 p :
  buffer_ok bl → bl_progress bl = Some p →
  Flush d bl = (Err er, d1, bl1) → Flush d1 bl1 = (Ok (), d2, bl2) →
  rows d2 = <[MetaBaselineProgress:=p]> (rows d).
Proof.
  intros Hb Hp H1 H2. pose proof (Flush_cases d bl Hb) as Hf. rewrite H1 in Hf.
  destruct Hf as (-> & -> & _).
  pose proof (Flush_cases d (MkBaseline (bl_s bl) [] (bl_progress bl)) (Forall_nil_2 _)) as Hf.
  rewrite H2 in Hf. destruct Hf as (-> & _). unfold view. cbn. by rewrite Hp.
Qed.
End loader.

(** ** Loading and capture interleave *)

(** Rows of the hash-keyed baseline and of the storage queue. *)
Definition baseline_op (op : blOp) : Prop :=
  ∃ dk, bo_k op = key_bytes dk ∧ key_block dk = None ∧ ∀ h, dk ≠ KCode h.

Lemma apply_blop_block m b op :
  baseline_op op → apply_blop (block_rows b m) op = block_rows b (apply_blop m op).
Proof.
  intros (dk & Hk & Hn & Hc). apply map_eq. intros k.
  destruct (decide (k = bo_k op)) as [->|Hne].
  - rewrite Hk, lookup_block_rows_frame by naive_solver. unfold apply_blop. rewrite Hk.
    by destruct (bo_del op); rewrite ?lookup_delete_eq, ?lookup_insert_eq.
  - assert (∀ m', apply_blop m' op !! k = m' !! k) as Hop.
    { intros m'. unfold apply_blop. destruct (bo_del op);
        [by rewrite lookup_delete_ne|by rewrite lookup_insert_ne]. }
    rewrite Hop, !block_rows_union, !lookup_union. by rewrite Hop.
Qed.
