(* ===== verification/Concurrent.v ===== *)
(** * Concurrent: captures while the baseline is loading

    The node captures blocks above the baseline height while the loader is still
    writing the hashed baseline rows of that height.  The two only meet in the
    database: a run of both is an interleaving of [WriteBlock] calls and loader
    calls, and it leaves the same rows as loading the whole baseline first. *)

From S2P Require Import Prelude Schema Lmdb Capture World Store StoreRead StoreSpec StoreProof.
From S2P Require Import StoreReads StoreWrites Loader.

(** One call of either side. *)
Inductive act := ActBlock (b : Batch) | ActLoad (c : lcall).

Definition act_blocks (acts : list act) : list Batch :=
  omap (λ x, match x with ActBlock b => Some b | ActLoad _ => None end) acts.
Definition act_loads (acts : list act) : list lcall :=
  omap (λ x, match x with ActBlock _ => None | ActLoad c => Some c end) acts.

(** The calls of a snapshot load: rows keyed by hash, the storage queue, the
    cursor. *)
Definition snap_call (c : lcall) : bool :=
  match c with
  | CBaseAccount _ _ | CBaseSlot _ _ _ | CQueueStorage _ _ | CDequeueStorage _
  | CSetProgress _ | CFlush => true
  | CAccount _ _ | CSlot _ _ _ | CCode _ _ => false
  end.

Lemma snap_call_op S c op : snap_call c = true → call_op S c = Some op → baseline_op op.
Proof.
  destruct c; try done; cbn [call_op]; intros _ [= <-];
    [exists (KBaseAccount h)|exists (KBaseSlot h s)|exists (KStorageQueue h)|exists (KStorageQueue h)];
    done.
Qed.

Lemma progress_block m b p :
  <[MetaBaselineProgress:=p]> (block_rows b m) = block_rows b (<[MetaBaselineProgress:=p]> m).
Proof.
  apply (apply_blop_block m b (MkBlOp MetaBaselineProgress p false)).
  by exists KMetaBaselineProgress.
Qed.

Lemma call_effect_block S m b c :
  snap_call c = true → call_effect S (block_rows b m) c = block_rows b (call_effect S m c).
Proof.
  intros Hc. destruct (call_op S c) as [op|] eqn:Eo.
  - assert (∀ m, call_effect S m c = apply_blop m op) as He.
    { intros m'. unfold call_effect. rewrite Eo. by destruct c. }
    rewrite !He. apply apply_blop_block. by eapply snap_call_op.
  - destruct c; try done. apply progress_block.
Qed.

Lemma call_effects_block S m b cs :
  Forall (λ c, snap_call c = true) cs →
  foldl (call_effect S) (block_rows b m) cs = block_rows b (foldl (call_effect S) m cs).
Proof.
  intros Hcs. revert m. induction Hcs as [|c cs Hc _ IH]; intros m; [done|].
  cbn [foldl]. by rewrite call_effect_block, IH.
Qed.

Section run.
Context {env : Type} `{LmdbLaws env}.
Implicit Types (d : DB env) (bl : Baseline).

Fixpoint act_run d bl (acts : list act) : result unit * DB env * Baseline :=
  match acts with
  | [] => (Ok (), d, bl)
  | ActBlock b :: acts' =>
      match WriteBlock d b with
      | (Ok _, d) => act_run d bl acts'
      | (Err e, d) => (Err e, d, bl)
      end
  | ActLoad c :: acts' =>
      match loader_step d bl c with
      | (Ok _, d, bl) => act_run d bl acts'
      | r => r
      end
  end.

(** The buffer holds snapshot rows only. *)
Definition snap_buffer bl : Prop := Forall baseline_op (bl_ops bl).

Lemma view_block d d' bl b :
  snap_buffer bl → rows d' = block_rows b (rows d) → view d' bl = block_rows b (view d bl).
Proof.
  intros Hb Hr. unfold view. rewrite Hr. clear Hr.
  assert (apply_blops (block_rows b (rows d)) (bl_ops bl) =
          block_rows b (apply_blops (rows d) (bl_ops bl))) as ->.
  { unfold apply_blops. generalize (rows d). induction Hb as [|op ops Hop _ IH]; intros m; [done|].
    cbn [foldl]. by rewrite apply_blop_block, IH. }
  destruct (bl_progress bl); [apply progress_block|done].
Qed.

Lemma Flush_buffer d bl r d' bl' : Flush d bl = (r, d', bl') → bl_ops bl' = [].
Proof.
  unfold Flush. destruct (_ && _) eqn:E.
  - intros [= <- <- <-]. apply andb_true_iff in E as [E _].
    by apply nil_length_inv, Nat.eqb_eq.
  - destruct (Update _ _). by intros [= <- <- <-].
Qed.

Lemma loader_step_buffer d bl c r d' bl' :
  snap_buffer bl → snap_call c = true → loader_step d bl c = (r, d', bl') → snap_buffer bl'.
Proof.
  intros Hb Hc Hs. destruct (call_op (bl_s bl) c) as [op|] eqn:Eo.
  - assert (snap_buffer (bl_append bl op)) as Hb'.
    { apply Forall_app. split; [done|]. constructor; [by eapply snap_call_op|constructor]. }
    assert ((if (baselineChunk <=? Z.of_nat (length (bl_ops (bl_append bl op))))%Z
             then Flush d (bl_append bl op) else (Ok (), d, bl_append bl op)) = (r, d', bl')) as Ha.
    { rewrite <-Hs. destruct c; cbn [call_op] in Eo; simplify_eq; done. }
    destruct (_ <=? _)%Z; [|by simplify_eq]. unfold snap_buffer. by rewrite (Flush_buffer _ _ _ _ _ Ha).
  - destruct c; try done; cbn [loader_step] in Hs; [by simplify_eq|].
    unfold snap_buffer. by rewrite (Flush_buffer _ _ _ _ _ Hs).
Qed.

Lemma act_run_view d bl acts d' bl' :
  buffer_ok bl → snap_buffer bl → Forall (λ c, snap_call c = true) (act_loads acts) →
  act_run d bl acts = (Ok (), d', bl') →
  buffer_ok bl' ∧
  view d' bl' = write_all (foldl (call_effect (bl_s bl)) (view d bl) (act_loads acts)) (act_blocks acts).
Proof.
  revert d bl. induction acts as [|[b|c] acts IH]; intros d bl Hb Hs Hcs Hrun; cbn [act_run] in Hrun.
  - by simplify_eq.
  - pose proof (WriteBlock_cases d b) as Hw. destruct (WriteBlock d b) as [[[]|?] d1]; [|done].
    destruct Hw as (_ & Hr & _). destruct (IH d1 bl Hb Hs Hcs Hrun) as [Hb' ->]. split; [done|].
    rewrite (view_block d d1 bl b Hs Hr), call_effects_block by done. done.
  - inversion_clear Hcs as [|?? Hc Hcs']. pose proof (loader_step_spec d bl c Hb) as Hl.
    destruct (loader_step d bl c) as [[[[]|?] d1] bl1] eqn:El; [|done].
    destruct Hl as (Hb1 & HS & Hv & _). cbn [snd] in *.
    destruct (IH d1 bl1 Hb1) as [Hb' ->]; [by eapply loader_step_buffer|done|done|]. split; [done|].
    by rewrite HS, Hv.
Qed.
End run.
