(* ===== verification/StoreInv.v ===== *)
(** * StoreInv: the type invariant of the store

    Whatever sequence of calls a process makes on a store handle it opened on a
    well-formed environment, failed calls included, every row stays a row of
    the schema with a value of its shape, and the two cached facts stay true. *)

From S2P Require Import Prelude Schema Lmdb Capture World Store StoreRead StoreSpec StoreProof.
From S2P Require Import StoreReads StoreWrites Loader.

Section inv.
Context {env : Type} `{LmdbLaws env} (keccak : bytes → Hash).
Implicit Types (d : DB env) (bl : Baseline).

(** ** Caches under changed rows *)

Lemma cache_frame d e' :
  cache_ok d →
  contents e' !! MetaGenesis = rows d !! MetaGenesis →
  contents e' !! MetaBaselineComplete = rows d !! MetaBaselineComplete →
  cache_ok (set_env d e').
Proof. intros [Hg Hb] H1 H2. split; unfold rows in *; cbn [db_env set_env]; by rewrite ?H1, ?H2. Qed.

Lemma put_row_inv d dk v r d' :
  wf_db (rows d) → cache_ok d → row_ok dk v → dk ≠ KMetaGenesis → dk ≠ KMetaBaselineComplete →
  putMeta d (key_bytes dk) v = (r, d') → wf_db (rows d') ∧ cache_ok d'.
Proof.
  intros Hwf Hc Hv H1 H2 Hp. pose proof (putMeta_cases d dk v) as Hcases. rewrite Hp in Hcases.
  destruct r as [[]|e]; [|by destruct Hcases as [-> _]]. destruct Hcases as [Hrows Hd].
  split; [rewrite Hrows; by apply wf_db_insert|]. rewrite Hd.
  change (contents (db_env d') = <[key_bytes dk:=v]> (rows d)) in Hrows.
  apply cache_frame; [done|..]; rewrite Hrows; apply lookup_insert_ne;
    [change MetaGenesis with (key_bytes KMetaGenesis)
    |change MetaBaselineComplete with (key_bytes KMetaBaselineComplete)];
    intros ?%key_bytes_inj; congruence.
Qed.

Lemma view_meta d bl dk :
  buffer_ok bl → key_tag dk = PrefMeta → dk ≠ KMetaBaselineProgress →
  view d bl !! key_bytes dk = rows d !! key_bytes dk.
Proof.
  intros Hb Ht Hne. unfold view, put_progress.
  assert (apply_blops (rows d) (bl_ops bl) !! key_bytes dk = rows d !! key_bytes dk) as Ha
    by by apply apply_blops_meta.
  destruct (bl_progress bl) as [p|]; [|done]. rewrite lookup_insert_ne; [done|].
  change MetaBaselineProgress with (key_bytes KMetaBaselineProgress).
  intros ?%key_bytes_inj. congruence.
Qed.

Lemma wf_view d bl : wf_db (rows d) → buffer_ok bl → wf_db (view d bl).
Proof.
  intros Hwf Hb. unfold view, put_progress.
  pose proof (wf_apply_blops (rows d) (bl_ops bl) Hwf Hb).
  destruct (bl_progress bl); [|done]. by apply (wf_db_insert _ KMetaBaselineProgress).
Qed.

Lemma Flush_inv d bl r d' bl' :
  wf_db (rows d) → cache_ok d → buffer_ok bl → Flush d bl = (r, d', bl') →
  wf_db (rows d') ∧ cache_ok d' ∧ buffer_ok bl'.
Proof.
  intros Hwf Hc Hb Hf. pose proof (Flush_cases d bl Hb) as Hcases. rewrite Hf in Hcases.
  destruct r as [[]|e]; cycle 1.
  { destruct Hcases as (-> & -> & _). split_and!; [done..|constructor]. }
  destruct Hcases as (Hrows & -> & Hd). split_and!; [rewrite Hrows; by apply wf_view| |constructor].
  rewrite Hd. change (contents (db_env d') = view d bl) in Hrows.
  apply cache_frame; [done|..]; rewrite Hrows;
    [apply (view_meta d bl KMetaGenesis)|apply (view_meta d bl KMetaBaselineComplete)]; done.
Qed.

Lemma add_inv d bl op r d' bl' :
  wf_db (rows d) → cache_ok d → buffer_ok bl → blop_ok op →
  (if (baselineChunk <=? Z.of_nat (length (bl_ops (bl_append bl op))))%Z
   then Flush d (bl_append bl op) else (Ok (), d, bl_append bl op)) = (r, d', bl') →
  wf_db (rows d') ∧ cache_ok d' ∧ buffer_ok bl'.
Proof.
  intros Hwf Hc Hb Hop. assert (buffer_ok (bl_append bl op)) as Hb'.
  { apply Forall_app. by split; [|constructor]. }
  destruct (_ <=? _)%Z; [by apply Flush_inv|]. by intros [= <- <- <-].
Qed.

Lemma loader_step_inv d bl c r d' bl' :
  wf_db (rows d) → cache_ok d → buffer_ok bl → loader_step d bl c = (r, d', bl') →
  wf_db (rows d') ∧ cache_ok d' ∧ buffer_ok bl'.
Proof.
  intros Hwf Hc Hb Hs. destruct (call_op (bl_s bl) c) as [op|] eqn:Eo.
  - apply (add_inv d bl op r d' bl' Hwf Hc Hb (call_op_ok _ _ _ Eo)). rewrite <-Hs.
    destruct c; cbn [call_op] in Eo; simplify_eq; done.
  - destruct c; try discriminate Eo; cbn [loader_step] in Hs; [by simplify_eq|by eapply Flush_inv].
Qed.

Lemma Finish_inv d bl r d' bl' :
  wf_db (rows d) → cache_ok d → buffer_ok bl → Finish d bl = (r, d', bl') →
  wf_db (rows d') ∧ cache_ok d' ∧ buffer_ok bl'.
Proof.
  intros Hwf Hc Hb. unfold Finish.
  destruct (Flush d (SetProgress bl None)) as [[r1 d1] bl1] eqn:Ef.
  destruct (Flush_inv d (SetProgress bl None) r1 d1 bl1 Hwf Hc Hb Ef) as (Hwf1 & Hc1 & Hb1).
  destruct r1 as [[]|e]; [|by intros [= <- <- <-]].
  destruct (Update (db_env d1) finish_txn) as [r2 e2] eqn:Eu.
  apply Update_cases in Eu as [[-> Hfin]|[[er ->] ->]]; intros [= <- <- <-]; cycle 1.
  { split_and!; [done|by destruct d1|done]. }
  destruct (finish_txn_cases (db_env d1) Hwf1) as [(e' & He' & _ & Hrows)|[[He' _]|[_ [c He']]]];
    rewrite Hfin in He'; simplify_eq. split_and!; [| |done].
  - unfold rows. cbn [db_env]. rewrite Hrows. apply (wf_db_insert _ KMetaBaselineComplete); [|done].
    by apply wf_db_delete.
  - split; unfold rows; cbn [db_env genesisPlus1 baselineDone].
    + intros Hne. rewrite Hrows, lookup_insert_ne, lookup_delete_ne by done. by apply Hc1.
    + intros _. rewrite Hrows, lookup_insert_eq. by eexists.
Qed.

(** ** Any sequence of calls *)

(** The handle and the loader a process holds. *)
Inductive store_run : DB env → Baseline → Prop :=
| sr_open e : wf_db (contents e) → store_run (MkDB e u_zero false) (MkBaseline u_zero [] None)
| sr_block d bl b r d' :
    store_run d bl → encodable b → WriteBlock d b = (r, d') → store_run d' bl
| sr_finalized d bl h r d' : store_run d bl → SetFinalized d h = (r, d') → store_run d' bl
| sr_baseline d bl S r d' :
    store_run d bl → NewBaseline d S = (r, d') →
    store_run d' (match r with Ok bl' => bl' | Err _ => bl end)
| sr_load d bl c r d' bl' : store_run d bl → loader_step d bl c = (r, d', bl') → store_run d' bl'
| sr_finish d bl r d' bl' : store_run d bl → Finish d bl = (r, d', bl') → store_run d' bl'
| sr_base_account d bl h a r d' :
    store_run d bl → PutBaseAccount d h a = (r, d') → store_run d' bl
| sr_base_slot d bl h s v r d' :
    store_run d bl → PutBaseSlot d h s v = (r, d') → store_run d' bl
| sr_get_account d bl a B r d' :
    store_run d bl → GetAccount keccak d a B = (r, d') → store_run d' bl
| sr_get_slot d bl a s B r d' :
    store_run d bl → GetSlot keccak d a s B = (r, d') → store_run d' bl.

Lemma store_run_inv d bl : store_run d bl → wf_db (rows d) ∧ cache_ok d ∧ buffer_ok bl.
Proof.
  induction 1 as [e He|d bl b r d' _ (Hwf & Hc & Hb) Henc Hr|d bl h r d' _ (Hwf & Hc & Hb) Hr
    |d bl S r d' _ (Hwf & Hc & Hb) Hr|d bl c r d' bl' _ (Hwf & Hc & Hb) Hr
    |d bl r d' bl' _ (Hwf & Hc & Hb) Hr|d bl h a r d' _ (Hwf & Hc & Hb) Hr
    |d bl h s v r d' _ (Hwf & Hc & Hb) Hr|d bl a B r d' _ (Hwf & Hc & Hb) Hr
    |d bl a s B r d' _ (Hwf & Hc & Hb) Hr].
  - split_and!; [done|by split|constructor].
  - pose proof (WriteBlock_cases d b) as Hw. pose proof (WriteBlock_cache d b Hc) as Hc'.
    rewrite Hr in Hw, Hc'. destruct r as [[]|e]; [|by destruct Hw as [-> _]].
    destruct Hw as (_ & Hrows & _). split_and!; [rewrite Hrows; by apply wf_block_rows|done|done].
  - destruct (put_row_inv d KMetaFinalized (beBytes h) r d') as [??]; try done.
  - pose proof (NewBaseline_cases d S Hwf Hc) as Hn. rewrite Hr in Hn. destruct r as [bl'|e].
    + destruct Hn as (-> & Hc' & Hrows). split_and!; [|done|constructor].
      destruct Hrows as [[_ ->]|[_ ->]]; [done|]. apply (wf_db_insert _ KMetaGenesis); [done|].
      apply length_be_bytes.
    + destruct Hn as (-> & Hc' & _). done.
  - by eapply loader_step_inv.
  - by eapply Finish_inv.
  - destruct (put_row_inv d (KBaseAccount h) (EncodeAccount [] a) r d') as [??]; try done.
    apply length_EncodeAccount.
  - destruct (put_row_inv d (KBaseSlot h s) (abytes v) r d') as [??]; try done. apply length_abytes.
  - destruct (GetAccount_upto keccak d a B Hwf Hc) as (_ & He & Hc'). rewrite Hr in He, Hc'.
    cbn [snd] in *. unfold rows in *. by rewrite He.
  - destruct (GetSlot_upto keccak d a s B Hwf Hc) as (_ & He & Hc'). rewrite Hr in He, Hc'.
    cbn [snd] in *. unfold rows in *. by rewrite He.
Qed.
End inv.
