(* ===== verification/Scans.v ===== *)
(** * Scans: the cursor scans a restarted loader resumes from

    [seek_back] is the greatest key at or before a bound, so
    [MaxBaseAccountWithPrefix] and [MaxBaseSlot] return the greatest committed
    baseline row of their range; [StorageQueueAfter] pages through the storage
    queue in ascending order without gaps.  The scans are total: fuel beyond
    the number of rows is never used up. *)

From Stdlib Require Import Sorted.
From S2P Require Import Prelude Schema Lmdb Capture World Store StoreRead StoreSpec StoreProof.
From S2P Require Import StoreReads.

Definition key_le (k k' : bytes) : bool := bool_decide (k' ≤ k)%bytes.

Lemma key_le_true k k' : key_le k k' = true ↔ (k' ≤ k)%bytes.
Proof. apply bool_decide_eq_true. Qed.
Lemma key_lt_true k k' : key_lt k k' = true ↔ (k' < k)%bytes.
Proof. apply bool_decide_eq_true. Qed.
Lemma key_ge_true k k' : key_ge k k' = true ↔ (k ≤ k')%bytes.
Proof. apply bool_decide_eq_true. Qed.
Lemma key_gt_true k k' : key_gt k k' = true ↔ (k < k')%bytes.
Proof. apply bool_decide_eq_true. Qed.

Lemma bytes_le_gt_cases a b : (a ≤ b)%bytes ∨ (b < a)%bytes.
Proof. destruct (decide (a ≤ b)%bytes); [by left|right]. by apply bytes_lt_not_le. Qed.

Lemma last_key_ext m (P Q : bytes → bool) :
  (∀ k v, m !! k = Some v → P k = Q k) → last_key m P = last_key m Q.
Proof.
  intros HPQ. destruct (last_key m Q) as [[k v]|] eqn:E.
  - apply last_key_Some in E as (Hk & HQ & Hmax). apply last_key_Some.
    split_and!; [done|by erewrite HPQ|]. intros k' v' Hk' HP. eapply Hmax; [done|].
    by erewrite <-HPQ.
  - apply last_key_None. intros k v Hk. erewrite HPQ by done. by eapply last_key_None.
Qed.

Lemma bytes_le_ff (l : bytes) n : length l ≤ n → (l ≤ replicate n (byte_lit 255))%bytes.
Proof.
  unfold bytes_le. revert n. induction l as [|x l IH]; intros [|n]; simpl; try done; [lia|].
  intros Hl. pose proof (uint_range x). destruct (Z.compare_spec x 255); try done; [|lia].
  apply IH. lia.
Qed.

Lemma bytes_le_app p a b : (p ++ a ≤ p ++ b)%bytes ↔ (a ≤ b)%bytes.
Proof. unfold bytes_le. by rewrite bytes_cmp_app. Qed.
Lemma bytes_lt_app p a b : (p ++ a < p ++ b)%bytes ↔ (a < b)%bytes.
Proof. unfold bytes_lt. by rewrite bytes_cmp_app. Qed.

(** The greatest row at or before [p ++ bound] that lies in the keyspace [p]. *)
Lemma last_key_prefix m p bound k :
  fst <$> last_key m (key_le (p ++ bound)) = Some k →
  (∀ z, is_Some (m !! (p ++ z)) → (z ≤ bound)%bytes → (p ++ z ≤ k)%bytes) ∧
  is_Some (m !! k) ∧ (k ≤ p ++ bound)%bytes.
Proof.
  intros ([k' v] & E & ->)%fmap_Some. apply last_key_Some in E as (Hk & Hle%key_le_true & Hmax).
  split_and!; [|by exists v|done]. intros z [v' Hz] Hb. eapply Hmax; [done|].
  apply key_le_true. by apply bytes_le_app.
Qed.

Lemma last_key_no_prefix m p bound :
  fst <$> last_key m (key_le (p ++ bound)) = None →
  ∀ z, (z ≤ bound)%bytes → m !! (p ++ z) = None.
Proof.
  intros E%fmap_None z Hz. destruct (m !! (p ++ z)) as [v|] eqn:Ez; [|done].
  eapply last_key_None in Ez; [|done]. apply bool_decide_eq_false in Ez.
  by destruct Ez; apply bytes_le_app.
Qed.

(** A row key of a keyspace determines its row. *)
Lemma base_account_key m k v :
  wf_db m → m !! k = Some v → head k = Some PrefBaseAccount → ∃ h, k = key_bytes (KBaseAccount h).
Proof.
  intros Hwf Hk Hh. destruct (Hwf k v Hk) as (dk & -> & _). rewrite head_key_bytes in Hh.
  destruct dk; try discriminate Hh. by eexists.
Qed.

Lemma base_slot_key m k v :
  wf_db m → m !! k = Some v → head k = Some PrefBaseSlot → ∃ h s, k = key_bytes (KBaseSlot h s).
Proof.
  intros Hwf Hk Hh. destruct (Hwf k v Hk) as (dk & -> & _). rewrite head_key_bytes in Hh.
  destruct dk; try discriminate Hh. by do 2 eexists.
Qed.

Lemma queue_key m k v :
  wf_db m → m !! k = Some v → head k = Some PrefStorageQueue → ∃ h, k = key_bytes (KStorageQueue h).
Proof.
  intros Hwf Hk Hh. destruct (Hwf k v Hk) as (dk & -> & _). rewrite head_key_bytes in Hh.
  destruct dk; try discriminate Hh. by eexists.
Qed.

Section scans.
Context {env : Type} `{LmdbLaws env}.
Implicit Types d : DB env.

(** ** Stepping back *)

Lemma seek_back_upto e seek :
  upto_faults (seek_back e seek) (Ok (fst <$> last_key (contents e) (key_le seek))).
Proof.
  unfold seek_back.
  destruct (set_range_law e seek) as [->|[? [c ->]]]; [|right; by eauto].
  assert (∀ (r : lres (bytes * bytes)) P,
    r = lres_of (last_key (contents e) P) ∨ faults ∧ (∃ c, r = LErr c) →
    (∀ k v, contents e !! k = Some v → P k = key_le seek k) →
    upto_faults (rmap (fmap fst) (lres_lookup r))
      (Ok (fst <$> last_key (contents e) (key_le seek)))) as Hback.
  { intros r P [->|[? [c ->]]] HP; [|right; by eauto]. left.
    rewrite (last_key_ext _ _ _ HP). by destruct (last_key _ _). }
  destruct (first_key (contents e) (key_ge seek)) as [[k v]|] eqn:E; cbn [lres_of].
  - apply first_key_Some in E as (Hk & Hge%key_ge_true & Hmin). case_bool_decide as Hs.
    + subst k. left. f_equal. symmetry. apply fmap_Some. exists (seek, v). split; [|done].
      apply last_key_Some. split_and!; [done|apply key_le_true, bytes_le_refl|].
      by intros k' v' _ ?%key_le_true.
    + eapply Hback; [apply prev_law|]. intros k' v' Hk'. apply eq_bool_prop_intro.
      rewrite !Is_true_true, key_lt_true, key_le_true. split.
      * intros Hlt. destruct (bytes_le_gt_cases k' seek) as [|Hgt]; [done|].
        exfalso. apply bytes_lt_not_le in Hlt. apply Hlt. eapply Hmin; [done|].
        apply key_ge_true, bytes_le_lteq. by left.
      * intros Hle. assert (seek < k)%bytes.
        { apply bytes_le_lteq in Hge as [|]; [done|congruence]. }
        by eapply bytes_le_lt_trans.
  - eapply Hback; [apply last_law|]. intros k v Hk. symmetry. apply key_le_true.
    destruct (bytes_le_gt_cases k seek) as [|Hgt]; [done|].
    eapply first_key_None in Hk; [|done]. apply bool_decide_eq_false in Hk.
    exfalso. apply Hk, bytes_le_lteq. by left.
Qed.

(** ** Greatest committed baseline rows *)

Definition has_base_account (m : gmap bytes bytes) (h : Hash) : Prop :=
  is_Some (m !! key_bytes (KBaseAccount h)).
Definition has_base_slot (m : gmap bytes bytes) (h s : Hash) : Prop :=
  is_Some (m !! key_bytes (KBaseSlot h s)).

Lemma base_account_prefix (p : byte) (h : Hash) :
  head (abytes h) = Some p →
  ∃ z, key_bytes (KBaseAccount h) = [PrefBaseAccount; p] ++ z ∧ length z = 31 ∧ abytes h = p :: z.
Proof.
  intros Hh. pose proof (length_abytes h) as Hl. unfold key_bytes, AppendBaseAccountKey.
  destruct (abytes h) as [|x z]; simplify_eq/=. exists z. by split_and!.
Qed.

Lemma MaxBaseAccountWithPrefix_upto d (p : byte) :
  wf_db (rows d) →
  ∃ o, upto_faults (MaxBaseAccountWithPrefix d p) (Ok o) ∧
    match o with
    | Some h =>
        has_base_account (rows d) h ∧ head (abytes h) = Some p ∧
        ∀ h', has_base_account (rows d) h' → head (abytes h') = Some p →
          (abytes h' ≤ abytes h)%bytes
    | None => ∀ h, has_base_account (rows d) h → head (abytes h) ≠ Some p
    end.
Proof.
  intros Hwf.
  set (k := fst <$> last_key (rows d) (key_le ([PrefBaseAccount; p] ++ replicate 31 (byte_lit 255)))).
  exists (k ≫= λ k, if Nat.eqb (length k) 33 && bool_decide (take 2 k = [PrefBaseAccount; p])
              then Some (arr_of (drop 1 k)) else None). split.
  { apply View_upto. eapply upto_trans_bind; [apply seek_back_upto|].
    change (_ <$> last_key _ _) with k. left. destruct k as [k'|]; [|done]. cbn [mbind option_bind].
    by destruct (_ && _). }
  destruct k as [k'|] eqn:Ek; cbn [mbind option_bind].
  - apply last_key_prefix in Ek as (Hmax & [v Hk] & Hle).
    destruct (Nat.eqb_spec (length k') 33) as [Hl|Hl]; cbn [andb]; [case_bool_decide as Ht|].
    + destruct (base_account_key _ _ _ Hwf Hk) as [h ->].
      { destruct k' as [|x [|y k']]; simplify_eq/=. done. }
      assert (arr_of (drop 1 (key_bytes (KBaseAccount h))) = h) as ->.
      { cbn. unfold AppendBaseAccountKey. cbn. apply arr_of_abytes. }
      assert (head (abytes h) = Some p) as Hh.
      { revert Ht. unfold key_bytes, AppendBaseAccountKey. cbn.
        destruct (abytes h); intros; simplify_eq/=. done. }
      split_and!; [by exists v|done|]. intros h' Hh' Hp.
      destruct (base_account_prefix p h' Hp) as (z & Hz & Hzl & Habs).
      unfold has_base_account in Hh'. rewrite Hz in Hh'. apply Hmax in Hh'; [|apply bytes_le_ff; lia].
      rewrite <-Hz in Hh'. by apply (bytes_le_app [PrefBaseAccount]).
    + intros h' Hh' Hp. destruct (base_account_prefix p h' Hp) as (z & Hz & Hzl & Habs).
      unfold has_base_account in Hh'. rewrite Hz in Hh'. apply Hmax in Hh'; [|apply bytes_le_ff; lia].
      destruct (bytes_between_prefix _ _ _ _ Hh' Hle) as [z' ->]. done.
    + intros h' Hh' Hp. destruct (base_account_prefix p h' Hp) as (z & Hz & Hzl & Habs).
      unfold has_base_account in Hh'. rewrite Hz in Hh'. apply Hmax in Hh'; [|apply bytes_le_ff; lia].
      destruct (bytes_between_prefix _ _ _ _ Hh' Hle) as [z' ->].
      destruct (base_account_key _ _ _ Hwf Hk) as [h Hh]; [done|].
      rewrite Hh, length_key_bytes in Hl. done.
  - intros h Hh Hp. destruct (base_account_prefix p h Hp) as (z & Hz & Hzl & _).
    unfold has_base_account in Hh. rewrite Hz in Hh.
    rewrite (last_key_no_prefix _ _ _ Ek) in Hh by (apply bytes_le_ff; lia).
    by destruct Hh.
Qed.

(** The inclusive upper end of a slot range: all ones, or the given end. *)
Definition range_end (end_ : option bytes) : bytes :=
  match end_ with None => replicate 32 (byte_lit 255) | Some e => pad_to 32 e end.
Definition below_start (s : Hash) (start : option bytes) : Prop :=
  match start with Some st => (abytes s < st)%bytes | None => False end.

Lemma base_slot_prefix (h s : Hash) :
  key_bytes (KBaseSlot h s) = (PrefBaseSlot :: abytes h) ++ abytes s.
Proof. done. Qed.

(** The last key within the bound, when the account has a slot there, is one of
    its slots and the greatest. *)
Lemma last_slot_key m (h : Hash) bound k :
  wf_db m → fst <$> last_key m (key_le ((PrefBaseSlot :: abytes h) ++ bound)) = Some k →
  ∀ s, has_base_slot m h s → (abytes s ≤ bound)%bytes →
    ∃ s', k = key_bytes (KBaseSlot h s') ∧ (abytes s ≤ abytes s')%bytes.
Proof.
  intros Hwf (Hmax & [v Hk] & Hle)%last_key_prefix s Hs Hb. apply Hmax in Hs; [|done].
  destruct (bytes_between_prefix _ _ _ _ Hs Hle) as [z ->].
  destruct (base_slot_key _ _ _ Hwf Hk) as (h' & s' & Hk'); [done|].
  rewrite base_slot_prefix in Hk'. injection Hk' as Hk'.
  apply abytes_app_inv in Hk' as [-> ->]. exists s'. split; [done|]. by apply bytes_le_app in Hs.
Qed.

Lemma MaxBaseSlot_upto d (h : Hash) start end_ :
  wf_db (rows d) →
  ∃ o, upto_faults (MaxBaseSlot d h start end_) (Ok o) ∧
    match o with
    | Some s =>
        has_base_slot (rows d) h s ∧ (abytes s ≤ range_end end_)%bytes ∧ ¬ below_start s start ∧
        ∀ s', has_base_slot (rows d) h s' → (abytes s' ≤ range_end end_)%bytes →
          (abytes s' ≤ abytes s)%bytes
    | None =>
        ∀ s, has_base_slot (rows d) h s → (abytes s ≤ range_end end_)%bytes → below_start s start
    end.
Proof.
  intros Hwf. set (pre := PrefBaseSlot :: abytes h).
  assert (length pre = 33) as Hpre by (cbn; by rewrite length_abytes).
  set (k := fst <$> last_key (rows d) (key_le (pre ++ range_end end_))).
  exists (k ≫= λ k,
    if negb (Nat.eqb (length k) 65) || negb (bool_decide (take 33 k = pre)) then None
    else if match start with Some s => bool_decide (take 32 (drop 33 k) < s)%bytes | None => false end
    then None else Some (arr_of (take 32 (drop 33 k)))). split.
  { apply View_upto. eapply upto_trans_bind; [apply seek_back_upto|].
    change (_ <$> last_key _ _) with k. left. destruct k as [k'|]; [|done].
    cbn [mbind option_bind]. fold pre. repeat case_match; done. }
  destruct k as [k'|] eqn:Ek; cbn [mbind option_bind]; cycle 1.
  { intros s Hs Hb. unfold has_base_slot in Hs.
    rewrite base_slot_prefix, (last_key_no_prefix _ _ _ Ek) in Hs by done. by destruct Hs. }
  pose proof (last_slot_key _ _ _ _ Hwf Ek) as Hin.
  apply last_key_prefix in Ek as (_ & [v Hk] & Hle).
  destruct (negb _ || negb _) eqn:Ec.
  { intros s Hs Hb. destruct (Hin s Hs Hb) as (s' & -> & _). exfalso.
    rewrite length_key_bytes, base_slot_prefix in Ec. fold pre in Ec.
    rewrite (take_app_exact pre) in Ec by done. by rewrite bool_decide_eq_true_2 in Ec. }
  apply orb_false_iff in Ec as [Hl%negb_false_iff Ht%negb_false_iff].
  apply bool_decide_eq_true in Ht.
  destruct (base_slot_key _ _ _ Hwf Hk) as (h' & s' & ->).
  { by destruct k' as [|x k']; simplify_eq/=. }
  rewrite base_slot_prefix in Ht. rewrite take_app_exact in Ht by (cbn; by rewrite length_abytes).
  unfold pre in Ht. injection Ht as ->%abytes_inj.
  rewrite base_slot_prefix, (drop_app_exact _ _ 33), take_ge by (try (cbn; by rewrite length_abytes); by rewrite length_abytes).
  rewrite arr_of_abytes. rewrite base_slot_prefix in Hle. apply bytes_le_app in Hle.
  assert (∀ s, has_base_slot (rows d) h s → (abytes s ≤ range_end end_)%bytes →
    (abytes s ≤ abytes s')%bytes) as Hmax'.
  { intros s Hs Hb. by destruct (Hin s Hs Hb) as (s'' & [= <-]%key_bytes_inj & ?). }
  destruct start as [st|]; cbn [below_start].
  - case_bool_decide as Hst.
    + intros s Hs Hb. eapply bytes_le_lt_trans; [by apply Hmax'|done].
    + split_and!; [by exists v|done|done|done].
  - split_and!; [by exists v|done|by intros []|done].
Qed.

(** ** Paging through the storage queue *)

Definition queued (m : gmap bytes bytes) (h : Hash) : Prop :=
  is_Some (m !! key_bytes (KStorageQueue h)).
Definition queue_after (after : option Hash) (h : Hash) : Prop :=
  match after with None => True | Some a => (abytes a < abytes h)%bytes end.
Definition hash_lt (x y : Hash * Hash) : Prop := (abytes x.1 < abytes y.1)%bytes.

(** A page: rows of the queue above [after], ascending, and nothing skipped:
    a row above [after] is in the page or above a full page. *)
Record page_ok (m : gmap bytes bytes) (after : option Hash) (max : Z) (l : list (Hash * Hash)) :
    Prop := {
  page_rows h r : (h, r) ∈ l →
    m !! key_bytes (KStorageQueue h) = Some (abytes r) ∧ queue_after after h;
  page_sorted : StronglySorted hash_lt l;
  page_complete h : queued m h → queue_after after h →
    (∃ r, (h, r) ∈ l) ∨
    (max ≤ Z.of_nat (length l))%Z ∧ ∀ x, x ∈ l → (abytes x.1 < abytes h)%bytes
}.

(** The loop invariant: [P] cuts off the rows the cursor has yet to visit. *)
Record scan_inv (m : gmap bytes bytes) (after : option Hash) (P : bytes → bool)
    (acc : list (Hash * Hash)) : Prop := {
  scan_rows h r : (h, r) ∈ acc →
    m !! key_bytes (KStorageQueue h) = Some (abytes r) ∧ queue_after after h;
  scan_sorted : StronglySorted hash_lt acc;
  scan_cover h : queued m h → queue_after after h →
    (∃ r, (h, r) ∈ acc) ∨ P (key_bytes (KStorageQueue h)) = true;
  scan_ahead h : queued m h → P (key_bytes (KStorageQueue h)) = true →
    queue_after after h ∧ ∀ x, x ∈ acc → (abytes x.1 < abytes h)%bytes;
  scan_cut k : P k = true → ([PrefStorageQueue] ≤ k)%bytes;
  scan_up k k' : P k = true → (k ≤ k')%bytes → P k' = true
}.

Lemma queue_cut_key m k v :
  wf_db m → m !! k = Some v → ([PrefStorageQueue] ≤ k)%bytes →
  ∃ h, k = key_bytes (KStorageQueue h).
Proof.
  intros Hwf Hk Hge. destruct (Hwf k v Hk) as (dk & -> & _).
  unfold bytes_le in Hge. destruct dk; try (by destruct Hge). by eexists.
Qed.

Lemma queue_key_lt h h' :
  (key_bytes (KStorageQueue h) < key_bytes (KStorageQueue h'))%bytes ↔ (abytes h < abytes h')%bytes.
Proof. apply (bytes_lt_app [PrefStorageQueue]). Qed.

Lemma StronglySorted_snoc {A} (R : A → A → Prop) l x :
  StronglySorted R l → (∀ y, y ∈ l → R y x) → StronglySorted R (l ++ [x]).
Proof.
  induction 1 as [|y l Hs IH Hy]; intros Hx; simpl; [by repeat constructor|].
  constructor.
  - apply IH. intros z Hz. apply Hx. by right.
  - apply Forall_app. split; [done|]. constructor; [apply Hx; by left|done].
Qed.

Lemma scan_inv_step m after P acc h v :
  wf_db m → scan_inv m after P acc →
  first_key m P = Some (key_bytes (KStorageQueue h), v) →
  scan_inv m after (key_gt (key_bytes (KStorageQueue h))) (acc ++ [(h, arr_of v)]).
Proof.
  intros Hwf Hinv (Hk & HP & Hmin)%first_key_Some.
  pose proof (wf_db_row _ _ _ Hwf Hk) as Hlen. cbn in Hlen.
  assert (queued m h) as Hq by by eexists.
  destruct (scan_ahead _ _ _ _ Hinv h Hq HP) as [Haft Hlt]. split.
  - intros h' r [Hin|[= -> ->]%list_elem_of_singleton]%elem_of_app.
    + by apply (scan_rows _ _ _ _ Hinv).
    + by rewrite abytes_arr_of.
  - apply StronglySorted_snoc; [apply Hinv|]. intros x Hx. by apply Hlt.
  - intros h' Hq' Ha'. destruct (scan_cover _ _ _ _ Hinv h' Hq' Ha') as [[r Hr]|HP'].
    + left. exists r. apply elem_of_app. by left.
    + destruct Hq' as [v' Hv']. pose proof (Hmin _ _ Hv' HP') as Hle.
      apply bytes_le_lteq in Hle as [Hlt'|Heq%key_bytes_inj].
      * right. by apply key_gt_true.
      * injection Heq as <-. left. eexists. apply elem_of_app. right.
        by apply list_elem_of_singleton.
  - intros h' Hq' Hgt%key_gt_true. apply queue_key_lt in Hgt. split.
    + destruct after as [a|]; [|done]. by eapply bytes_lt_trans.
    + intros x [Hx| ->%list_elem_of_singleton]%elem_of_app; [|done].
      eapply bytes_lt_trans; [by apply Hlt|done].
  - intros k Hgt%key_gt_true. eapply bytes_le_trans; [by apply (scan_cut _ _ _ _ Hinv)|].
    apply bytes_le_lteq. by left.
  - intros k k' Hgt%key_gt_true Hle. apply key_gt_true. by eapply bytes_lt_le_trans.
Qed.

Definition ahead (m : gmap bytes bytes) (P : bytes → bool) : nat :=
  size (filter (λ kv, P kv.1 = true) m).

Lemma ahead_decreases m P k v :
  (∀ k k', P k = true → (k ≤ k')%bytes → P k' = true) →
  first_key m P = Some (k, v) → ahead m (key_gt k) < ahead m P.
Proof.
  intros Hup (Hk & HP & Hmin)%first_key_Some. apply map_subset_size, map_subset_alt. split.
  - apply map_subseteq_spec. intros k' v' [Hk' Hgt%key_gt_true]%map_lookup_filter_Some.
    apply map_lookup_filter_Some. split; [done|]. cbn in *. eapply Hup; [done|].
    apply bytes_le_lteq. by left.
  - exists k. split; [|by exists v; apply map_lookup_filter_Some].
    apply map_lookup_filter_None. right. intros ? _ Hgt%key_gt_true. by apply bytes_lt_irrefl in Hgt.
Qed.

Lemma queue_scan_upto e after max fuel P kv acc :
  wf_db (contents e) → scan_inv (contents e) after P acc → ahead (contents e) P < fuel →
  kv = lres_of (first_key (contents e) P) ∨ faults ∧ (∃ c, kv = LErr c) →
  ∃ l, upto_faults (queue_scan fuel e kv max acc) (Ok l) ∧ page_ok (contents e) after max l.
Proof.
  intros Hwf. revert P kv acc. induction fuel as [|fuel IH]; intros P kv acc Hinv Hfuel Hkv; [lia|].
  cbn [queue_scan]. destruct (first_key (contents e) P) as [[k v]|] eqn:Ek; cycle 1.
  { exists acc. split; [destruct Hkv as [->|[? [c ->]]]; [by left|right; by eauto]|].
    split; [apply Hinv..|]. intros h Hq Ha.
    destruct (scan_cover _ _ _ _ Hinv h Hq Ha) as [?|HP]; [by left|]. destruct Hq as [v Hv].
    apply (proj1 (first_key_None _ _) Ek) in Hv. congruence. }
  pose proof Ek as (Hk & HP & Hmin)%first_key_Some.
  destruct (queue_cut_key _ _ _ Hwf Hk (scan_cut _ _ _ _ Hinv _ HP)) as [h ->].
  pose proof (wf_db_row _ _ _ Hwf Hk) as Hlen. cbn in Hlen.
  pose proof (scan_inv_step _ _ _ _ _ _ Hwf Hinv Ek) as Hinv'.
  pose proof (ahead_decreases _ _ _ _ (scan_up _ _ _ _ Hinv) Ek) as Hdec.
  destruct (IH (key_gt (key_bytes (KStorageQueue h))) (mdb_next e (key_bytes (KStorageQueue h)))
    (acc ++ [(h, arr_of v)]) Hinv' ltac:(lia) (next_law e _)) as (l & Hl & Hpage).
  destruct (Z.leb_spec max (Z.of_nat (length (acc ++ [(h, arr_of v)])))) as [Hmax|Hmax];
    [exists (acc ++ [(h, arr_of v)])|exists l].
  all: split; [destruct Hkv as [->|[? [c ->]]]; [|right; by eauto];
    cbn [lres_of]; rewrite length_key_bytes, head_key_bytes; cbn [key_len key_tag Nat.eqb negb orb];
    rewrite bool_decide_eq_true_2 by done; cbn [negb]; rewrite Hlen; cbn [Nat.eqb negb];
    change (take 32 (drop 1 (key_bytes (KStorageQueue h)))) with (take 32 (abytes h));
    rewrite take_ge, arr_of_abytes by (by rewrite length_abytes)
    |].
  - rewrite (proj2 (Z.leb_le _ _) Hmax). by left.
  - split; [apply Hinv'..|]. intros h' Hq Ha.
    destruct (scan_cover _ _ _ _ Hinv' h' Hq Ha) as [?|HP']; [by left|right].
    split; [done|]. by eapply scan_ahead.
  - rewrite (proj2 (Z.leb_gt _ _) Hmax). done.
  - done.
Qed.

Lemma bytes_le_extend a b : length a = length b → (a ++ [byte_lit 0] ≤ b)%bytes ↔ (a < b)%bytes.
Proof.
  unfold bytes_le, bytes_lt. revert b. induction a as [|x a IH]; intros [|y b] Hl; simplify_eq/=.
  - naive_solver.
  - destruct (Z.compare x y); [by apply IH|naive_solver..].
Qed.

(** The scan is total with fuel above the number of rows, and returns a page. *)
Lemma StorageQueueAfter_upto fuel d after max :
  wf_db (rows d) → size (rows d) < fuel →
  ∃ l, upto_faults (StorageQueueAfter fuel d after max) (Ok l) ∧ page_ok (rows d) after max l.
Proof.
  intros Hwf Hfuel.
  set (seek := match after with None => [PrefStorageQueue]
               | Some h => AppendStorageQueueKey [] h ++ [byte_lit 0] end).
  assert (∀ h, key_ge seek (key_bytes (KStorageQueue h)) = true ↔ queue_after after h) as Hseek.
  { intros h. rewrite key_ge_true. destruct after as [a|]; cbn [queue_after].
    - rewrite <-queue_key_lt. apply bytes_le_extend. by rewrite !(length_key_bytes (KStorageQueue _)).
    - split; [done|]. intros _. unfold bytes_le. cbn. by destruct (abytes h). }
  destruct (queue_scan_upto (db_env d) after max fuel (key_ge seek)
    (mdb_set_range (db_env d) seek) [] Hwf) as (l & Hl & Hp).
  - split.
    + by intros h r ?%elem_of_nil.
    + constructor.
    + intros h _ Ha. right. by apply Hseek.
    + intros h _ HP. split; [by apply Hseek|]. by intros x ?%elem_of_nil.
    + intros k Hk%key_ge_true. eapply bytes_le_trans; [|done]. unfold seek.
      destruct after as [a|]; [|apply bytes_le_refl]. unfold bytes_le. cbn. by destruct (abytes a).
    + intros k k' Hk%key_ge_true Hle. apply key_ge_true. by eapply bytes_le_trans.
  - unfold ahead. eapply Nat.le_lt_trans; [|done]. apply map_size_filter.
  - apply set_range_law.
  - exists l. split; [|done]. by apply View_upto.
Qed.
End scans.
