(* ===== verification/Reader.v ===== *)
(** * Reader: what the store promises to its clients

    [mem], [replay] and the simulator read the store through three calls.  The
    class [Reader] lists them and [ReaderLaws] states the promise the clients'
    theorems rest on: reads at a height answer one world, errors are errors and
    never wrong values, and reading does not change what is served.  The store
    of [Store]/[StoreRead] discharges it ([db_reader_laws]). *)

From S2P Require Import Prelude Schema Lmdb Capture World Store StoreRead StoreSpec StoreProof.
From S2P Require Import StoreReads StoreWrites.

Class Reader (db : Type) := {
  rd_Genesis : db → result (option u64) * db;
  rd_GetAccount : db → Address → u64 → result (Account * bool) * db;
  rd_GetSlot : db → Address → Hash → u64 → result Hash * db;
  rd_GetCode : db → Hash → result bytes;
  rd_GetDiff : db → u64 → result Batch;
  rd_Finalized : db → result (option u64)
}.

(** A read returned the value, or failed in a store that may fail. *)
Definition answers {A} (faulty : Prop) (r : result A) (x : A) : Prop :=
  match r with Ok y => y = x | Err _ => faulty end.

Lemma answers_ok {A} faulty (r : result A) x : answers faulty r x → ¬ faulty → r = Ok x.
Proof. destruct r as [y|e]; simpl; [by intros ->|done]. Qed.

Class ReaderLaws (db : Type) `{Reader db} := {
  rd_faulty : Prop;
  (** [serves d B w]: reads of [d] at height [B] answer [w] *)
  serves : db → u64 → world → Prop;
  (** [archives d B o]: the diff of height [B] is [b] ([Some b]) or is not stored *)
  archives : db → u64 → option Batch → Prop;
  (** [based d S]: the baseline height is recorded as [S] *)
  based : db → u64 → Prop;
  (** reading updates caches only *)
  reads_same (d d' : db) : Prop :=
    (∀ B w, serves d B w → serves d' B w) ∧ (∀ B o, archives d B o → archives d' B o) ∧
    (∀ S, based d S → based d' S);
  serves_proper d B : Proper ((≡) ==> iff) (serves d B);
  GetAccount_law d a B w :
    serves d B w → answers rd_faulty (rd_GetAccount d a B).1 (account_answer (w_acct w a));
  GetSlot_law d a s B w :
    serves d B w → answers rd_faulty (rd_GetSlot d a s B).1 (w_slot w a s);
  GetDiff_law d B b : archives d B (Some b) → answers rd_faulty (rd_GetDiff d B) b;
  GetDiff_none_law d B :
    archives d B None →
    match rd_GetDiff d B with Ok _ => False | Err e => e = ErrNotFound ∨ rd_faulty end;
  Genesis_law d S : based d S → answers rd_faulty (rd_Genesis d).1 (Some S);
  Genesis_frame d S : based d S → reads_same d (rd_Genesis d).2;
  GetAccount_frame d a B w : serves d B w → reads_same d (rd_GetAccount d a B).2;
  GetSlot_frame d a s B w : serves d B w → reads_same d (rd_GetSlot d a s B).2;
  (** code is not affected by reads *)
  GetAccount_code d a B h : rd_GetCode (rd_GetAccount d a B).2 h = rd_GetCode d h;
  GetSlot_code d a s B h : rd_GetCode (rd_GetSlot d a s B).2 h = rd_GetCode d h
}.
#[export] Existing Instance serves_proper.

(** ** The store is a reader *)

Section instance.
Context {env : Type} `{LmdbLaws env} (keccak : bytes → Hash).

#[local] Instance db_reader : Reader (DB env) := {|
  rd_Genesis := Genesis;
  rd_GetAccount := GetAccount keccak;
  rd_GetSlot := GetSlot keccak;
  rd_GetCode := GetCode;
  rd_GetDiff := GetDiff;
  rd_Finalized := Finalized
|}.

Definition db_serves (d : DB env) (B : u64) (w : world) : Prop :=
  ∃ S, served (rows d) S ∧ cache_ok d ∧ (S ≤ B)%Z ∧ db_world keccak (rows d) B ≡ w.

Definition db_archives (d : DB env) (B : u64) (o : option Batch) : Prop :=
  match o with
  | Some b => ∃ v, rows d !! key_bytes (KDiff B) = Some v ∧ Decode v = Ok b
  | None => rows d !! key_bytes (KDiff B) = None
  end.

Definition db_based (d : DB env) (S : u64) : Prop :=
  wf_db (rows d) ∧ cache_ok d ∧ genesis_row (rows d) = Some S.

Lemma upto_answers {A} (r : result A) x : upto_faults r (Ok x) → answers faults r x.
Proof. by intros [->|[? [c ->]]]. Qed.

(** A read that keeps the environment and the caches keeps what is served. *)
Lemma db_serves_env d d' B w :
  db_env d' = db_env d → cache_ok d' → db_serves d B w → db_serves d' B w.
Proof. intros He Hc (S & Hs & _ & HB & Hw). exists S. unfold rows in *. by rewrite He. Qed.

Lemma Genesis_env d : db_env (Genesis d).2 = db_env d.
Proof. unfold Genesis. by repeat case_match. Qed.
Lemma missAllowed_env d : db_env (missAllowed d).2 = db_env d.
Proof. unfold missAllowed, BaselineComplete. by repeat case_match; simplify_eq. Qed.
Lemma checkAt_env d B : db_env (checkAt d B).2 = db_env d.
Proof. unfold checkAt. pose proof (Genesis_env d). by destruct (Genesis d). Qed.

Lemma GetAccount_env d a B : db_env (GetAccount keccak d a B).2 = db_env d.
Proof.
  unfold GetAccount. pose proof (checkAt_env d B) as Hc. destruct (checkAt d B) as [[[]|e] d1]; [|done].
  destruct (View _ _) as [[[x|]|]|e]; try done.
  pose proof (missAllowed_env d1). destruct (missAllowed d1). cbn in *. congruence.
Qed.
Lemma GetSlot_env d a s B : db_env (GetSlot keccak d a s B).2 = db_env d.
Proof.
  unfold GetSlot. pose proof (checkAt_env d B) as Hc. destruct (checkAt d B) as [[[]|e] d1]; [|done].
  destruct (View _ _) as [[x|]|e]; try done.
  pose proof (missAllowed_env d1). destruct (missAllowed d1). cbn in *. congruence.
Qed.

Lemma GetCode_env d d' h : db_env d' = db_env d → GetCode d' h = GetCode d h.
Proof. intros He. unfold GetCode. by rewrite He. Qed.

Lemma GetDiff_upto d B b : db_archives d B (Some b) → upto_faults (GetDiff d B) (Ok b).
Proof.
  intros (v & Hv & Hdec). apply View_upto. eapply upto_trans_bind; [apply get_upto|].
  change (AppendDiffKey [] B) with (key_bytes (KDiff B)). fold (rows d). rewrite Hv. by left.
Qed.

Lemma GetDiff_none_upto d B : db_archives d B None → upto_faults (GetDiff d B) (Err ErrNotFound).
Proof.
  intros Hv. apply View_upto. eapply upto_trans_bind; [apply get_upto|].
  change (AppendDiffKey [] B) with (key_bytes (KDiff B)). fold (rows d). rewrite Hv. by left.
Qed.

(** A read keeps the environment and the truth of the caches. *)
Lemma db_reads_same d d' :
  db_env d' = db_env d → (wf_db (rows d) → cache_ok d → cache_ok d') →
  (∀ B w, db_serves d B w → db_serves d' B w) ∧ (∀ B o, db_archives d B o → db_archives d' B o) ∧
  (∀ S, db_based d S → db_based d' S).
Proof.
  intros He Hc. split_and!.
  - intros B w Hs. pose proof Hs as (S & (Hwf & _) & Hok & _).
    eapply db_serves_env; [done|by apply Hc|done].
  - intros B [b|]; unfold db_archives, rows; by rewrite He.
  - intros S (Hwf & Hok & Hg). split_and!; [|by apply Hc|]; unfold rows in *; by rewrite He.
Qed.

#[local] Instance db_reader_laws : ReaderLaws (DB env).
Proof.
  refine {| rd_faulty := faults; serves := db_serves; archives := db_archives; based := db_based |}.
  - intros d B w w' Hw. split; intros (S & Hs & Hc & HB & Hw'); exists S;
      (split_and!; [done..|etrans; [exact Hw'|done]]).
  - intros d a B w (S & Hs & Hc & HB & [Ha _]). apply upto_answers. rewrite <-Ha.
    erewrite <-served_GetAccount by done. apply GetAccount_upto; [apply Hs|done].
  - intros d a s B w (S & Hs & Hc & HB & [_ Hw]). apply upto_answers. rewrite <-Hw.
    erewrite <-served_GetSlot by done. apply GetSlot_upto; [apply Hs|done].
  - intros d B b Hb. by apply upto_answers, GetDiff_upto.
  - intros d B Hb. destruct (GetDiff_none_upto d B Hb) as [Hr|[? [c Hr]]];
      cbn; rewrite Hr; [by left|by right].
  - intros d S (Hwf & Hc & Hg). apply upto_answers. rewrite <-Hg. by apply Genesis_spec.
  - intros d S _. apply db_reads_same; [apply Genesis_env|]. intros. by apply Genesis_spec.
  - intros d a B w _. apply db_reads_same; [apply GetAccount_env|]. intros. by apply GetAccount_upto.
  - intros d a s B w _. apply db_reads_same; [apply GetSlot_env|]. intros. by apply GetSlot_upto.
  - intros d a B h. apply GetCode_env, GetAccount_env.
  - intros d a s B h. apply GetCode_env, GetSlot_env.
Defined.
End instance.
