(* ===== verification/Mem.v ===== *)
(** * Mem: the in-memory tip view

    Models [mem/mem.go]: the lazily pinned base map, the stack of unfinalized
    per-block layers, the per-executor side buffers, and the write-phase
    operations.  The store is reached through [Reader].  The read/write lock
    makes each method one step; [State.buffers] holds the registered side
    buffers themselves, so the merge of a write phase and the reads of an
    executor act on the same buffer ([with_buffer]). *)

From S2P Require Import Prelude Schema Capture World Store StoreRead Reader.

(** ** The base map *)

(** [mem.Account] *)
Record mAccount := MkMAccount {
  m_Balance : u256;
  m_Nonce : u64;
  m_CodeHash : Hash;
  m_Exists : bool;
  m_Storage : gmap Hash Hash
}.

(** [Account{Storage: st}]: Go's zero value with a storage map. *)
Definition mAccount_zero (st : gmap Hash Hash) : mAccount :=
  MkMAccount u_zero u_zero arr_zero false st.

Definition fromSchema (a : Account) : mAccount :=
  MkMAccount (Balance a) (Nonce a) (CodeHash a) true ∅.

Definition ToSchema (a : mAccount) : Account :=
  MkAccount (m_Balance a) (m_Nonce a) (m_CodeHash a).

Definition set_Storage (a : mAccount) (st : gmap Hash Hash) : mAccount :=
  MkMAccount (m_Balance a) (m_Nonce a) (m_CodeHash a) (m_Exists a) st.

Record Map := MkMap {
  m_accounts : gmap Address mAccount;
  m_code : gmap Hash bytes
}.

Definition NewMap : Map := MkMap ∅ ∅.

Definition map_Account (m : Map) (addr : Address) : option mAccount := m_accounts m !! addr.
Definition map_Code (m : Map) (hash : Hash) : option bytes := m_code m !! hash.

Definition set_account (m : Map) (addr : Address) (a : mAccount) : Map :=
  MkMap (<[addr:=a]> (m_accounts m)) (m_code m).

(** [acct] is nil ([None]) only when [exists] is false. *)
Definition PinAccount (m : Map) (addr : Address) (acct : option Account) (exists_ : bool) :
    Map * mAccount :=
  match m_accounts m !! addr with
  | Some a => (m, a)
  | None =>
      let a := if exists_ then set_Storage (fromSchema (default Account_zero acct)) ∅
               else mAccount_zero ∅ in
      (set_account m addr a, a)
  end.

(** [None] is the panic on an unpinned account. *)
Definition PinSlot (m : Map) (addr : Address) (slot val : Hash) : option Map :=
  match m_accounts m !! addr with
  | None => None
  | Some a =>
      match m_Storage a !! slot with
      | Some _ => Some m
      | None => Some (set_account m addr (set_Storage a (<[slot:=val]> (m_Storage a))))
      end
  end.

Definition PinCode (m : Map) (hash : Hash) (code : bytes) : Map :=
  match m_code m !! hash with
  | Some _ => m
  | None => MkMap (m_accounts m) (<[hash:=code]> (m_code m))
  end.

Definition apply_op_map (m : Map) (op : Op) : Map :=
  match op with
  | OpAccount addr acct =>
      match m_accounts m !! addr with
      | Some a => set_account m addr (set_Storage (fromSchema acct) (m_Storage a))
      | None => m
      end
  | OpSlot addr slot value =>
      match m_accounts m !! addr with
      | Some a =>
          match m_Storage a !! slot with
          | Some _ => set_account m addr (set_Storage a (<[slot:=value]> (m_Storage a)))
          | None => m
          end
      | None => m
      end
  | OpDeleteSlot addr slot =>
      match m_accounts m !! addr with
      | Some a =>
          match m_Storage a !! slot with
          | Some _ => set_account m addr (set_Storage a (<[slot:=arr_zero]> (m_Storage a)))
          | None => m
          end
      | None => m
      end
  | OpDestruct addr =>
      match m_accounts m !! addr with
      | Some a => set_account m addr (mAccount_zero ((λ _, arr_zero) <$> m_Storage a))
      | None => m
      end
  | OpCode _ _ => m
  | OpOther _ => m
  end.

Definition Apply (m : Map) (b : Batch) : Map := foldl apply_op_map m (Ops b).

(** ** Side buffers and layers *)

(** [accounts] pairs the account with [exists]. *)
Record SideBuffer := MkSideBuffer {
  sb_accounts : gmap Address (Account * bool);
  sb_slots : gmap SKey Hash;
  sb_code : gmap Hash bytes
}.

Definition NewSideBuffer : SideBuffer := MkSideBuffer ∅ ∅ ∅.

Record layer := MkLayer {
  l_batch : Batch;
  l_accounts : gmap Address Account;
  l_slots : gmap SKey Hash;
  l_destructed : gset Address
}.

Definition layer_op (l : layer) (op : Op) : layer :=
  match op with
  | OpAccount addr acct =>
      MkLayer (l_batch l) (<[addr:=acct]> (l_accounts l)) (l_slots l) (l_destructed l)
  | OpSlot addr slot value =>
      MkLayer (l_batch l) (l_accounts l) (<[MkSKey addr slot:=value]> (l_slots l)) (l_destructed l)
  | OpDeleteSlot addr slot =>
      MkLayer (l_batch l) (l_accounts l) (<[MkSKey addr slot:=arr_zero]> (l_slots l)) (l_destructed l)
  | OpDestruct addr =>
      MkLayer (l_batch l) (delete addr (l_accounts l))
        (filter (λ kv, Addr kv.1 ≠ addr) (l_slots l)) ({[addr]} ∪ l_destructed l)
  | OpCode _ _ => l
  | OpOther _ => l
  end.

Definition newLayer (b : Batch) : layer := foldl layer_op (MkLayer b ∅ ∅ ∅) (Ops b).

(** ** The tip view *)

Record State (db : Type) := MkState {
  s_db : db;
  s_base : Map;
  s_layers : list layer; (* oldest first *)
  s_buffers : list SideBuffer;
  s_finalized : u64;
  s_tip : Hash;
  s_tipBlock : u64;
  s_tipTime : u64;
  s_pinsMerged : u64
}.
Arguments MkState {db} _ _ _ _ _ _ _ _ _.
Arguments s_db {db} _.
Arguments s_base {db} _.
Arguments s_layers {db} _.
Arguments s_buffers {db} _.
Arguments s_finalized {db} _.
Arguments s_tip {db} _.
Arguments s_tipBlock {db} _.
Arguments s_tipTime {db} _.
Arguments s_pinsMerged {db} _.

Section mem.
Context {db : Type} `{Reader db}.
Implicit Types s : State db.

Definition set_db s (d : db) : State db :=
  MkState d (s_base s) (s_layers s) (s_buffers s) (s_finalized s) (s_tip s) (s_tipBlock s)
    (s_tipTime s) (s_pinsMerged s).
Definition set_buffers s (bufs : list SideBuffer) : State db :=
  MkState (s_db s) (s_base s) (s_layers s) bufs (s_finalized s) (s_tip s) (s_tipBlock s)
    (s_tipTime s) (s_pinsMerged s).
Definition set_layers s (ls : list layer) : State db :=
  MkState (s_db s) (s_base s) ls (s_buffers s) (s_finalized s) (s_tip s) (s_tipBlock s)
    (s_tipTime s) (s_pinsMerged s).
Definition set_tip s (tip : Hash) (block time : u64) : State db :=
  MkState (s_db s) (s_base s) (s_layers s) (s_buffers s) (s_finalized s) tip block time
    (s_pinsMerged s).

Definition mem_New (d : db) : result (State db) :=
  let! o := rd_Finalized d in
  Ok (MkState d NewMap [] [] (default u_zero o) arr_zero u_zero u_zero u_zero).

Definition Register s (sb : SideBuffer) : State db := set_buffers s (s_buffers s ++ [sb]).

Definition TipHash s : Hash := s_tip s.
Definition FinalizedHeight s : u64 := s_finalized s.
Definition PinsMerged s : u64 := s_pinsMerged s.
Definition TipInfo s : Hash * u64 * u64 := (s_tip s, s_tipBlock s, s_tipTime s).

(** ** Read phase *)

(** The layer walk, newest first: [None] when no layer knows the account. *)
Fixpoint layers_account (ls : list layer) (addr : Address) : option (Account * bool) :=
  match ls with
  | [] => None
  | l :: ls' =>
      match l_accounts l !! addr with
      | Some a => Some (a, true)
      | None =>
          if bool_decide (addr ∈ l_destructed l) then Some (Account_zero, false)
          else layers_account ls' addr
      end
  end.

Fixpoint layers_slot (ls : list layer) (addr : Address) (slot : Hash) : option Hash :=
  match ls with
  | [] => None
  | l :: ls' =>
      match l_slots l !! MkSKey addr slot with
      | Some v => Some v
      | None =>
          if bool_decide (addr ∈ l_destructed l) then Some arr_zero
          else layers_slot ls' addr slot
      end
  end.

(** [State.Account]: layers, base, side buffer, store. *)
Definition st_Account s (addr : Address) (sb : SideBuffer) :
    result (Account * bool) * State db * SideBuffer :=
  match layers_account (reverse (s_layers s)) addr with
  | Some r => (Ok r, s, sb)
  | None =>
      match m_accounts (s_base s) !! addr with
      | Some a => (Ok (ToSchema a, m_Exists a), s, sb)
      | None =>
          match sb_accounts sb !! addr with
          | Some e => (Ok e, s, sb)
          | None =>
              let '(r, d) := rd_GetAccount (s_db s) addr Latest in
              let s := set_db s d in
              match r with
              | Err e => (Err e, s, sb)
              | Ok (acct, exists_) =>
                  (Ok (acct, exists_), s,
                   MkSideBuffer (<[addr:=(acct, exists_)]> (sb_accounts sb)) (sb_slots sb) (sb_code sb))
              end
          end
      end
  end.

(** The account pin that accompanies a slot pin. *)
Definition pin_owner s (addr : Address) (sb : SideBuffer) : result unit * State db * SideBuffer :=
  match m_accounts (s_base s) !! addr with
  | Some _ => (Ok (), s, sb)
  | None =>
      match sb_accounts sb !! addr with
      | Some _ => (Ok (), s, sb)
      | None =>
          let '(r, d) := rd_GetAccount (s_db s) addr Latest in
          let s := set_db s d in
          match r with
          | Err e => (Err e, s, sb)
          | Ok (acct, exists_) =>
              (Ok (), s,
               MkSideBuffer (<[addr:=(acct, exists_)]> (sb_accounts sb)) (sb_slots sb) (sb_code sb))
          end
      end
  end.

(** [State.Slot] below the layers and the base. *)
Definition slot_miss s (addr : Address) (slot : Hash) (sb : SideBuffer) :
    result Hash * State db * SideBuffer :=
  match sb_slots sb !! MkSKey addr slot with
  | Some v => (Ok v, s, sb)
  | None =>
      let '(r, d) := rd_GetSlot (s_db s) addr slot Latest in
      let s := set_db s d in
      match r with
      | Err e => (Err e, s, sb)
      | Ok v =>
          let sb := MkSideBuffer (sb_accounts sb) (<[MkSKey addr slot:=v]> (sb_slots sb)) (sb_code sb) in
          let '(r, s, sb) := pin_owner s addr sb in
          (let! _ := r in Ok v, s, sb)
      end
  end.

Definition st_Slot s (addr : Address) (slot : Hash) (sb : SideBuffer) :
    result Hash * State db * SideBuffer :=
  match layers_slot (reverse (s_layers s)) addr slot with
  | Some v => (Ok v, s, sb)
  | None =>
      match m_accounts (s_base s) !! addr with
      | Some a =>
          if negb (m_Exists a) then (Ok arr_zero, s, sb)
          else match m_Storage a !! slot with
               | Some v => (Ok v, s, sb)
               | None => slot_miss s addr slot sb
               end
      | None => slot_miss s addr slot sb
      end
  end.

Definition st_Code s (hash : Hash) (sb : SideBuffer) : result bytes * SideBuffer :=
  match m_code (s_base s) !! hash with
  | Some c => (Ok c, sb)
  | None =>
      match sb_code sb !! hash with
      | Some c => (Ok c, sb)
      | None =>
          match rd_GetCode (s_db s) hash with
          | Err e => (Err e, sb)
          | Ok c => (Ok c, MkSideBuffer (sb_accounts sb) (sb_slots sb) (<[hash:=c]> (sb_code sb)))
          end
      end
  end.

(** An executor's read through its registered buffer [i]. *)
Definition with_buffer {A : Type} s (i : nat)
    (f : State db → SideBuffer → result A * State db * SideBuffer) : option (result A * State db) :=
  match s_buffers s !! i with
  | None => None
  | Some sb => let '(r, s, sb) := f s sb in Some (r, set_buffers s (<[i:=sb]> (s_buffers s)))
  end.

(** ** Write phase *)

Definition drain_account (m : Map) (kv : Address * (Account * bool)) : Map :=
  let '(addr, (acct, exists_)) := kv in
  if exists_ then (PinAccount m addr (Some acct) true).1 else (PinAccount m addr None false).1.

Definition drain_slot (m : Map) (kv : SKey * Hash) : Map :=
  let '(MkSKey addr slot, v) := kv in
  match m_accounts m !! addr with
  | Some _ => default m (PinSlot m addr slot v)
  | None => m
  end.

Definition drain_code (m : Map) (kv : Hash * bytes) : Map := PinCode m kv.1 kv.2.

Definition drain_buffer (m : Map) (sb : SideBuffer) : Map :=
  let m := foldl drain_account m (map_to_list (sb_accounts sb)) in
  let m := foldl drain_slot m (map_to_list (sb_slots sb)) in
  foldl drain_code m (map_to_list (sb_code sb)).

Definition sb_size (sb : SideBuffer) : Z :=
  Z.of_nat (size (sb_accounts sb) + size (sb_slots sb) + size (sb_code sb)).

Definition lockAndDrain s : State db :=
  let merged : u64 := foldl (λ n sb, u_add n (wrap (sb_size sb))) u_zero (s_buffers s) in
  MkState (s_db s) (foldl drain_buffer (s_base s) (s_buffers s)) (s_layers s)
    ((λ _, NewSideBuffer) <$> s_buffers s) (s_finalized s) (s_tip s) (s_tipBlock s) (s_tipTime s)
    (u_add (s_pinsMerged s) merged).

Definition push_layer s (b : Batch) : State db :=
  set_tip (set_layers s (s_layers s ++ [newLayer b])) (BHash b) (Block b) (wrap (Time b / 1000)).

Definition ApplyBlock s (b : Batch) : State db := push_layer (lockAndDrain s) b.

Definition st_Finalize s (block : u64) (hash : Hash) : result unit * State db :=
  let s := lockAndDrain s in
  match s_layers s with
  | [] => (Err (ErrMsg "mem"), s)
  | l :: ls =>
      if bool_decide (Block (l_batch l) ≠ block) then (Err (ErrMsg "mem"), s)
      else if bool_decide (BHash (l_batch l) ≠ hash) then (Err (ErrMsg "mem"), s)
      else
        (Ok (),
         MkState (s_db s) (Apply (s_base s) (l_batch l)) ls (s_buffers s) block
           (if Nat.eqb (length ls) 0 then hash else s_tip s) (s_tipBlock s) (s_tipTime s)
           (s_pinsMerged s))
  end.

Definition PreferenceReset s (preferred : list Batch) : State db :=
  foldl push_layer (set_layers (lockAndDrain s) []) preferred.
End mem.
