(* ===== verification/MemProof.v ===== *)
(** * MemProof: the tip view is the world of the preferred chain

    A [State] whose finalized world is [W0], whose layers are the batches [bs]
    and whose store has already committed the [j] oldest of them is [coherent]
    when every pinned value is the value of one of the worlds the store has
    shown since [W0].  Coherence is kept by every operation of the package, and
    a read through a coherent state answers [apply_batches W0 bs]: the pins may
    be older or newer than the finalized block, but only where a layer hides
    them. *)

From S2P Require Import Prelude Schema Capture World Store StoreRead StoreReads Reader Mem.

(** ** Layers hold the net effect of their batch *)

Lemma layer_ops_spec b ops :
  let l := foldl layer_op (MkLayer b ∅ ∅ ∅) ops in
  l_batch l = b ∧ (∀ a, l_accounts l !! a = net_acct ops a) ∧
  (∀ a s, l_slots l !! MkSKey a s = net_slot ops a s) ∧
  (∀ a, a ∈ l_destructed l ↔ destructs ops a = true).
Proof.
  induction ops as [|op ops IH] using rev_ind; cbn zeta.
  { split_and!; [done|..]; intros; cbn; rewrite ?lookup_empty; done. }
  rewrite foldl_snoc. destruct IH as (Hb & Ha & Hs & Hd).
  split_and!; [by destruct op|..]; intros;
    rewrite ?net_acct_snoc, ?net_slot_snoc, ?destructs_snoc, ?orb_true_iff, ?bool_decide_eq_true.
  - destruct op as [a' x|a' s v|a' s|a'|h c|k]; cbn [layer_op l_accounts net_acct_op]; rewrite <-?Ha;
      try done.
    + case_decide; subst; [by rewrite lookup_insert_eq|by rewrite lookup_insert_ne].
    + case_decide; subst; [by rewrite lookup_delete_eq|by rewrite lookup_delete_ne].
  - destruct op as [a' x|a' s' v|a' s'|a'|h c|k]; cbn [layer_op l_slots net_slot_op]; rewrite <-?Hs;
      try done.
    + case_decide as Hc; [destruct Hc; subst; by rewrite lookup_insert_eq|].
      rewrite lookup_insert_ne; naive_solver.
    + case_decide as Hc; [destruct Hc; subst; by rewrite lookup_insert_eq|].
      rewrite lookup_insert_ne; naive_solver.
    + case_decide; subst.
      * apply map_lookup_filter_None. right. naive_solver.
      * destruct (l_slots _ !! MkSKey a s) as [v|] eqn:E.
        -- apply map_lookup_filter_Some. split; [done|]. naive_solver.
        -- apply map_lookup_filter_None. by left.
  - rewrite <-Hd. destruct op; cbn [layer_op l_destructed]; set_solver.
Qed.

Lemma newLayer_spec b :
  l_batch (newLayer b) = b ∧
  (∀ a, l_accounts (newLayer b) !! a = net_acct (Ops b) a) ∧
  (∀ a s, l_slots (newLayer b) !! MkSKey a s = net_slot (Ops b) a s) ∧
  (∀ a, a ∈ l_destructed (newLayer b) ↔ destructs (Ops b) a = true).
Proof. apply layer_ops_spec. Qed.

Lemma layer_batches (bs : list Batch) : l_batch <$> (newLayer <$> bs) = bs.
Proof.
  induction bs as [|b bs IH]; [done|]. cbn. f_equal; [apply (newLayer_spec b)|exact IH].
Qed.

(** ** The base map under a block *)

(** What an operation does to the entry of account [a]. *)
Definition entry_op (a : Address) (x : mAccount) (op : Op) : mAccount :=
  match op with
  | OpAccount a' y => if decide (a = a') then set_Storage (fromSchema y) (m_Storage x) else x
  | OpSlot a' s v =>
      if decide (a = a')
      then set_Storage x (match m_Storage x !! s with
                          | Some _ => <[s:=v]> (m_Storage x) | None => m_Storage x end) else x
  | OpDeleteSlot a' s =>
      if decide (a = a')
      then set_Storage x (match m_Storage x !! s with
                          | Some _ => <[s:=arr_zero]> (m_Storage x) | None => m_Storage x end) else x
  | OpDestruct a' => if decide (a = a') then mAccount_zero ((λ _, arr_zero) <$> m_Storage x) else x
  | OpCode _ _ | OpOther _ => x
  end.

Lemma set_Storage_id x : set_Storage x (m_Storage x) = x.
Proof. by destruct x. Qed.

Lemma apply_op_map_entry m op a :
  m_accounts (apply_op_map m op) !! a = (λ x, entry_op a x op) <$> m_accounts m !! a.
Proof.
  destruct op as [a' y|a' s v|a' s|a'|h c|k]; cbn [apply_op_map entry_op];
    try (by destruct (m_accounts m !! a)).
  all: destruct (decide (a = a')) as [<-|Hne].
  all: destruct (m_accounts m !! a) as [x|] eqn:E; cbn [fmap option_fmap option_map]; try done.
  all: repeat case_match; cbn [set_account m_accounts]; rewrite ?set_Storage_id, ?lookup_insert_eq;
    try done; by rewrite lookup_insert_ne.
Qed.

Lemma Apply_entry m b a :
  m_accounts (Apply m b) !! a = (λ x, foldl (entry_op a) x (Ops b)) <$> m_accounts m !! a.
Proof.
  unfold Apply. induction (Ops b) as [|op ops IH] using rev_ind.
  - cbn [foldl]. by destruct (m_accounts m !! a).
  - rewrite foldl_snoc, apply_op_map_entry, IH, <-option_fmap_compose.
    apply option_fmap_ext. intros x. unfold compose. by rewrite foldl_snoc.
Qed.

Definition post_acct (ops : list Op) (a : Address) (o : option Account) : option Account :=
  match net_acct ops a with Some y => Some y | None => if destructs ops a then None else o end.
Definition post_slot (ops : list Op) (a : Address) (s v : Hash) : Hash :=
  match net_slot ops a s with Some v' => v' | None => if destructs ops a then zero_hash else v end.

Lemma entry_ops_answer a ops x o :
  (ToSchema x, m_Exists x) = account_answer o →
  (ToSchema (foldl (entry_op a) x ops), m_Exists (foldl (entry_op a) x ops)) =
  account_answer (post_acct ops a o).
Proof.
  intros Hx. unfold post_acct. induction ops as [|op ops IH] using rev_ind; [done|].
  rewrite foldl_snoc, net_acct_snoc, destructs_snoc. revert IH.
  generalize (foldl (entry_op a) x ops) as y. intros y IH.
  destruct op as [a' z|a' s v|a' s|a'|h c|k]; cbn [entry_op net_acct_op];
    try (rewrite bool_decide_eq_false_2, orb_false_r by done); try done.
  - case_decide; [|done]. by destruct z.
  - case_decide; done.
  - case_decide; done.
  - case_decide as Ha; [subst|].
    + by rewrite bool_decide_eq_true_2, orb_true_r by done.
    + by rewrite bool_decide_eq_false_2, orb_false_r by congruence.
Qed.

Lemma entry_ops_slot a ops x s :
  m_Storage (foldl (entry_op a) x ops) !! s = post_slot ops a s <$> m_Storage x !! s.
Proof.
  unfold post_slot. induction ops as [|op ops IH] using rev_ind.
  { cbn. by destruct (m_Storage x !! s). }
  rewrite foldl_snoc, net_slot_snoc, destructs_snoc. revert IH.
  generalize (foldl (entry_op a) x ops) as y. intros y IH.
  destruct op as [a' z|a' s' v|a' s'|a'|h c|k]; cbn [entry_op net_slot_op];
    try (rewrite bool_decide_eq_false_2, orb_false_r by done); try done.
  - case_decide; [|done]. exact IH.
  - destruct (decide (a = a')) as [<-|]; [|rewrite decide_False by naive_solver; done].
    cbn [m_Storage set_Storage]. destruct (decide (s = s')) as [<-|Hne].
    + rewrite decide_True by done. rewrite IH. destruct (m_Storage x !! s); cbn;
        [by rewrite lookup_insert_eq|done].
    + rewrite decide_False by naive_solver. transitivity (m_Storage y !! s); [|exact IH].
      destruct (m_Storage y !! s'); [by rewrite lookup_insert_ne|done].
  - destruct (decide (a = a')) as [<-|]; [|rewrite decide_False by naive_solver; done].
    cbn [m_Storage set_Storage]. destruct (decide (s = s')) as [<-|Hne].
    + rewrite decide_True by done. rewrite IH. destruct (m_Storage x !! s); cbn;
        [by rewrite lookup_insert_eq|done].
    + rewrite decide_False by naive_solver. transitivity (m_Storage y !! s); [|exact IH].
      destruct (m_Storage y !! s'); [by rewrite lookup_insert_ne|done].
  - case_decide as Ha; [subst|].
    + rewrite bool_decide_eq_true_2, orb_true_r by done. cbn [m_Storage mAccount_zero].
      rewrite lookup_fmap, IH. by destruct (m_Storage x !! s).
    + by rewrite bool_decide_eq_false_2, orb_false_r by congruence.
Qed.

(** ** Pinned values *)

(** Every pinned account and slot satisfies [PA] and [PS]. *)
Definition base_ok (PA : Address → option Account → Prop) (PS : Address → Hash → Hash → Prop)
    (m : Map) : Prop :=
  ∀ a x, m_accounts m !! a = Some x →
    (∃ o, PA a o ∧ (ToSchema x, m_Exists x) = account_answer o) ∧
    ∀ s v, m_Storage x !! s = Some v → PS a s v.

Definition sb_ok (PA : Address → option Account → Prop) (PS : Address → Hash → Hash → Prop)
    (sb : SideBuffer) : Prop :=
  (∀ a e, sb_accounts sb !! a = Some e → ∃ o, PA a o ∧ e = account_answer o) ∧
  (∀ k v, sb_slots sb !! k = Some v → PS (Addr k) (Slot k) v).

Lemma base_ok_mono PA PS PA' PS' m :
  (∀ a o, PA a o → PA' a o) → (∀ a s v, PS a s v → PS' a s v) →
  base_ok PA PS m → base_ok PA' PS' m.
Proof. intros HA HS Hm a x Hx. destruct (Hm a x Hx) as [(o & ? & ?) ?]. split; eauto. Qed.

Lemma sb_ok_mono PA PS PA' PS' sb :
  (∀ a o, PA a o → PA' a o) → (∀ a s v, PS a s v → PS' a s v) →
  sb_ok PA PS sb → sb_ok PA' PS' sb.
Proof. intros HA HS [Ha Hs]. split; [|eauto]. intros a e (o & ? & ?)%Ha. eauto. Qed.

Section drain.
Context (PA : Address → option Account → Prop) (PS : Address → Hash → Hash → Prop).

Lemma drain_account_ok m a e :
  base_ok PA PS m → (∃ o, PA a o ∧ e = account_answer o) →
  base_ok PA PS (drain_account m (a, e)).
Proof.
  intros Hm (o & Ho & ->). unfold drain_account, PinAccount.
  destruct (m_accounts m !! a) as [x0|] eqn:E; [by destruct o|].
  assert (∀ x, (ToSchema x, m_Exists x) = account_answer o → m_Storage x = ∅ →
    base_ok PA PS (set_account m a x)) as Hpin.
  { intros x Hx Hst a' x' Hx'. cbn in Hx'. apply lookup_insert_Some in Hx' as [[<- <-]|[_ Hx']].
    - split; [by eauto|]. intros s v. by rewrite Hst, lookup_empty.
    - by apply Hm. }
  destruct o as [y|]; cbn [account_answer]; apply Hpin; try done. by destruct y.
Qed.

Lemma drain_slot_ok m k v :
  base_ok PA PS m → PS (Addr k) (Slot k) v → base_ok PA PS (drain_slot m (k, v)).
Proof.
  intros Hm Hv. destruct k as [a s]. unfold drain_slot, PinSlot.
  destruct (m_accounts m !! a) as [x|] eqn:E; [|done].
  destruct (m_Storage x !! s) as [v0|] eqn:Es; [done|]. cbn [default].
  intros a' x' Hx'. cbn in Hx'. apply lookup_insert_Some in Hx' as [[<- <-]|[_ Hx']]; [|by apply Hm].
  destruct (Hm a x E) as [Ho Hst]. split; [done|]. cbn [m_Storage set_Storage].
  intros s' v' [[<- <-]|[_ ?]]%lookup_insert_Some; [done|by apply Hst].
Qed.

Lemma drain_code_ok m kv : base_ok PA PS m → base_ok PA PS (drain_code m kv).
Proof. intros Hm. unfold drain_code, PinCode. by case_match. Qed.

Lemma foldl_inv {A B} (I : A → Prop) (f : A → B → A) l a :
  (∀ a b, I a → b ∈ l → I (f a b)) → I a → I (foldl f a l).
Proof.
  revert a. induction l as [|b l IH]; intros a Hf Ha; [done|]. simpl. apply IH.
  - intros a' b' ??. apply Hf; [done|by right].
  - apply Hf; [done|by left].
Qed.

Lemma drain_buffer_ok m sb : base_ok PA PS m → sb_ok PA PS sb → base_ok PA PS (drain_buffer m sb).
Proof.
  intros Hm [Ha Hs]. unfold drain_buffer.
  apply foldl_inv; [intros; by apply drain_code_ok|].
  apply foldl_inv; [intros m' [k v] ? ?%elem_of_map_to_list; by apply drain_slot_ok; [|apply Hs]|].
  apply foldl_inv; [|done].
  intros m' [a e] ? ?%elem_of_map_to_list. by apply drain_account_ok; [|apply Ha].
Qed.

Lemma drain_buffers_ok m sbs :
  base_ok PA PS m → Forall (sb_ok PA PS) sbs → base_ok PA PS (foldl drain_buffer m sbs).
Proof.
  intros Hm Hs. apply foldl_inv; [|done]. intros m' sb Hm' Hin.
  apply drain_buffer_ok; [done|]. by eapply Forall_forall in Hs.
Qed.
End drain.

Lemma Apply_ok (PA PA' : Address → option Account → Prop) (PS PS' : Address → Hash → Hash → Prop) m b :
  (∀ a o, PA a o → PA' a (post_acct (Ops b) a o)) →
  (∀ a s v, PS a s v → PS' a s (post_slot (Ops b) a s v)) →
  base_ok PA PS m → base_ok PA' PS' (Apply m b).
Proof.
  intros HA HS Hm a x' Hx'. rewrite Apply_entry in Hx'.
  apply fmap_Some in Hx' as (x & Hx & ->). destruct (Hm a x Hx) as [(o & Ho & Hans) Hst]. split.
  - exists (post_acct (Ops b) a o). split; [by apply HA|by apply entry_ops_answer].
  - intros s v'. rewrite entry_ops_slot. intros (v & Hv & ->)%fmap_Some. eauto.
Qed.

(** ** Worlds between the finalized block and the tip *)

(** An account that does not exist has no storage. *)
Definition live (w : world) : Prop := ∀ a, w_acct w a = None → ∀ s, w_slot w a s = zero_hash.

Definition stage (W0 : world) (bs : list Batch) (i : nat) : world := apply_batches W0 (take i bs).

Definition live_along (W0 : world) (bs : list Batch) : Prop := ∀ i, live (stage W0 bs i).

Lemma apply_batch_acct w b a : w_acct (apply_batch w b) a = post_acct (Ops b) a (w_acct w a).
Proof. apply apply_ops_acct. Qed.
Lemma apply_batch_slot w b a s : w_slot (apply_batch w b) a s = post_slot (Ops b) a s (w_slot w a s).
Proof. apply apply_ops_slot. Qed.

Lemma stage_all W0 bs : stage W0 bs (length bs) = apply_batches W0 bs.
Proof. unfold stage. by rewrite take_ge. Qed.

Lemma stage_cons W0 b bs i : stage W0 (b :: bs) (S i) = stage (apply_batch W0 b) bs i.
Proof. done. Qed.

(** What the layer walk says: the tip's answer, or that no stage differs. *)
Lemma layers_account_spec W0 bs a :
  match layers_account (reverse (newLayer <$> bs)) a with
  | Some r => r = account_answer (w_acct (apply_batches W0 bs) a)
  | None => ∀ i, w_acct (stage W0 bs i) a = w_acct W0 a
  end.
Proof.
  unfold stage. induction bs as [|b bs IH] using rev_ind; [by intros []|].
  rewrite fmap_app, reverse_app, apply_batches_app. cbn [fmap list_fmap reverse rev_append app layers_account apply_batches foldl].
  destruct (newLayer_spec b) as (_ & Ha & _ & Hd). rewrite apply_batch_acct. unfold post_acct.
  rewrite Ha. destruct (net_acct (Ops b) a) as [y|] eqn:En; [done|].
  case_bool_decide as Hin; [apply Hd in Hin as ->; done|]. rewrite Hd in Hin.
  apply not_true_is_false in Hin. rewrite Hin.
  destruct (layers_account _ a) as [r|]; [done|]. intros i.
  destruct (decide (i ≤ length bs)).
  - by rewrite take_app_le by done.
  - rewrite take_ge by (rewrite length_app; simpl; lia).
    rewrite apply_batches_app. cbn [apply_batches foldl]. rewrite apply_batch_acct. unfold post_acct.
    rewrite En, Hin. rewrite <-(IH (length bs)). by rewrite take_ge.
Qed.

Lemma layers_slot_spec W0 bs a s :
  match layers_slot (reverse (newLayer <$> bs)) a s with
  | Some v => v = w_slot (apply_batches W0 bs) a s
  | None => ∀ i, w_slot (stage W0 bs i) a s = w_slot W0 a s
  end.
Proof.
  unfold stage. induction bs as [|b bs IH] using rev_ind; [by intros []|].
  rewrite fmap_app, reverse_app, apply_batches_app. cbn [fmap list_fmap reverse rev_append app layers_slot apply_batches foldl].
  destruct (newLayer_spec b) as (_ & _ & Ha & Hd). rewrite apply_batch_slot. unfold post_slot.
  rewrite Ha. destruct (net_slot (Ops b) a s) as [y|] eqn:En; [done|].
  case_bool_decide as Hin; [apply Hd in Hin as ->; done|]. rewrite Hd in Hin.
  apply not_true_is_false in Hin. rewrite Hin.
  destruct (layers_slot _ a s) as [r|]; [done|]. intros i.
  destruct (decide (i ≤ length bs)).
  - by rewrite take_app_le by done.
  - rewrite take_ge by (rewrite length_app; simpl; lia).
    rewrite apply_batches_app. cbn [apply_batches foldl]. rewrite apply_batch_slot. unfold post_slot.
    rewrite En, Hin. rewrite <-(IH (length bs)). by rewrite take_ge.
Qed.

(** ** Coherence *)

Section coherence.
Context {db : Type} `{ReaderLaws db}.
Implicit Types s : State db.

Definition batches s : list Batch := l_batch <$> s_layers s.

(** Pins hold values of the stages the store has shown. *)
Definition pinned_acct (W0 : world) (bs : list Batch) (j : nat) (a : Address) (o : option Account) : Prop :=
  ∃ i, i ≤ j ∧ o = w_acct (stage W0 bs i) a.
Definition pinned_slot (W0 : world) (bs : list Batch) (j : nat) (a : Address) (s v : Hash) : Prop :=
  ∃ i, i ≤ j ∧ v = w_slot (stage W0 bs i) a s.

Record coherent (s : State db) (W0 : world) (j : nat) : Prop := {
  coh_layers : s_layers s = newLayer <$> batches s;
  coh_committed : j ≤ length (batches s);
  coh_live : live_along W0 (batches s);
  coh_store : serves (s_db s) Latest (stage W0 (batches s) j);
  coh_base : base_ok (pinned_acct W0 (batches s) j) (pinned_slot W0 (batches s) j) (s_base s);
  coh_buffers :
    Forall (sb_ok (pinned_acct W0 (batches s) j) (pinned_slot W0 (batches s) j)) (s_buffers s)
}.

Definition tip_world s (W0 : world) : world := apply_batches W0 (batches s).

(** *** Reads *)

Lemma st_Account_spec s W0 j a sb :
  coherent s W0 j →
  sb_ok (pinned_acct W0 (batches s) j) (pinned_slot W0 (batches s) j) sb →
  match st_Account s a sb with
  | (r, s', sb') =>
      answers rd_faulty r (account_answer (w_acct (tip_world s W0) a)) ∧
      s' = set_db s (s_db s') ∧ serves (s_db s') Latest (stage W0 (batches s) j) ∧
      sb_ok (pinned_acct W0 (batches s) j) (pinned_slot W0 (batches s) j) sb'
  end.
Proof.
  intros Hc Hsb. unfold st_Account, tip_world. destruct s as [d base ls bufs fin tip tb tt pm].
  pose proof (coh_layers _ _ _ Hc) as Hl. pose proof (coh_store _ _ _ Hc) as Hserv.
  cbn [s_layers s_db s_base set_db] in *. set (bs := batches _) in *.
  pose proof (layers_account_spec W0 bs a) as Hspec. rewrite <-Hl in Hspec.
  destruct (layers_account (reverse ls) a) as [r|]; [by split_and!|].
  assert (∀ i, w_acct (stage W0 bs i) a = w_acct (apply_batches W0 bs) a) as Hsame.
  { intros i. by rewrite Hspec, <-stage_all, Hspec. }
  destruct (m_accounts base !! a) as [x|] eqn:Eb.
  { destruct (coh_base _ _ _ Hc a x Eb) as [(o & (i & _ & ->) & Hx) _].
    rewrite Hsame in Hx. by split_and!. }
  destruct (sb_accounts sb !! a) as [e|] eqn:Es.
  { destruct (proj1 Hsb a e Es) as (o & (i & _ & ->) & ->). rewrite Hsame. by split_and!. }
  pose proof (GetAccount_law d a Latest _ Hserv) as Hans.
  pose proof (proj1 (GetAccount_frame d a Latest _ Hserv) _ _ Hserv) as Hserv'.
  destruct (rd_GetAccount d a Latest) as [[[acct ex]|er] d']; cbn [fst snd answers] in *.
  - rewrite Hans. rewrite Hsame. split_and!; [done..|split; [|apply Hsb]].
    cbn [sb_accounts]. intros a' e' [[<- <-]|[_ ?]]%lookup_insert_Some; [|by apply Hsb].
    exists (w_acct (apply_batches W0 bs) a). split; [|done]. exists j. by rewrite Hsame.
  - by split_and!.
Qed.

Lemma pin_owner_spec s W0 j a sb :
  coherent s W0 j →
  sb_ok (pinned_acct W0 (batches s) j) (pinned_slot W0 (batches s) j) sb →
  match pin_owner s a sb with
  | (r, s', sb') =>
      answers rd_faulty r () ∧
      s' = set_db s (s_db s') ∧ serves (s_db s') Latest (stage W0 (batches s) j) ∧
      sb_ok (pinned_acct W0 (batches s) j) (pinned_slot W0 (batches s) j) sb'
  end.
Proof.
  intros Hc Hsb. pose proof (coh_store _ _ _ Hc) as Hserv. unfold pin_owner.
  destruct s as [d base ls bufs fin tip tb tt pm]. cbn [s_base s_db set_db] in *.
  destruct (m_accounts base !! a) as [x|]; [by split_and!|].
  destruct (sb_accounts sb !! a) as [e|]; [by split_and!|].
  pose proof (GetAccount_law d a Latest _ Hserv) as Hans.
  pose proof (proj1 (GetAccount_frame d a Latest _ Hserv) _ _ Hserv) as Hserv'.
  destruct (rd_GetAccount d a Latest) as [[[acct ex]|er] d']; cbn [fst snd answers] in *;
    split_and!; try done. split; [|apply Hsb].
  cbn [sb_accounts]. intros a' e' [[<- <-]|[_ ?]]%lookup_insert_Some; [|by apply Hsb].
  eexists. split; [by exists j|done].
Qed.

Lemma slot_miss_spec s W0 j a k sb :
  coherent s W0 j →
  sb_ok (pinned_acct W0 (batches s) j) (pinned_slot W0 (batches s) j) sb →
  (∀ i, w_slot (stage W0 (batches s) i) a k = w_slot (tip_world s W0) a k) →
  match slot_miss s a k sb with
  | (r, s', sb') =>
      answers rd_faulty r (w_slot (tip_world s W0) a k) ∧
      s' = set_db s (s_db s') ∧ serves (s_db s') Latest (stage W0 (batches s) j) ∧
      sb_ok (pinned_acct W0 (batches s) j) (pinned_slot W0 (batches s) j) sb'
  end.
Proof.
  intros Hc Hsb Hsame. pose proof (coh_store _ _ _ Hc) as Hserv. unfold slot_miss.
  destruct (sb_slots sb !! MkSKey a k) as [v|] eqn:Es.
  { destruct (proj2 Hsb _ _ Es) as (i & _ & ->). cbn [Addr Slot]. rewrite Hsame.
    split_and!; try done. by destruct s. }
  pose proof (GetSlot_law (s_db s) a k Latest _ Hserv) as Hans.
  pose proof (proj1 (GetSlot_frame (s_db s) a k Latest _ Hserv) _ _ Hserv) as Hserv'.
  destruct (rd_GetSlot (s_db s) a k Latest) as [[v|er] d']; cbn [fst snd answers] in *;
    [|by split_and!].
  set (sb1 := MkSideBuffer _ _ _).
  assert (coherent (set_db s d') W0 j) as Hc'.
  { destruct s, Hc. by split. }
  assert (sb_ok (pinned_acct W0 (batches s) j) (pinned_slot W0 (batches s) j) sb1) as Hsb1.
  { split; [apply Hsb|]. cbn [sb_slots sb1].
    intros k' v' [[<- <-]|[_ ?]]%lookup_insert_Some; [|by apply Hsb]. by exists j. }
  pose proof (pin_owner_spec (set_db s d') W0 j a sb1 Hc' Hsb1) as Hp.
  destruct (pin_owner (set_db s d') a sb1) as [[r s'] sb']. destruct Hp as (Hr & -> & Hs' & Hsb').
  split_and!; [|by destruct s|done|done].
  destruct r as [[]|er]; cbn; [by rewrite Hans, Hsame|done].
Qed.

Lemma st_Slot_spec s W0 j a k sb :
  coherent s W0 j →
  sb_ok (pinned_acct W0 (batches s) j) (pinned_slot W0 (batches s) j) sb →
  match st_Slot s a k sb with
  | (r, s', sb') =>
      answers rd_faulty r (w_slot (tip_world s W0) a k) ∧
      s' = set_db s (s_db s') ∧ serves (s_db s') Latest (stage W0 (batches s) j) ∧
      sb_ok (pinned_acct W0 (batches s) j) (pinned_slot W0 (batches s) j) sb'
  end.
Proof.
  intros Hc Hsb. unfold st_Slot.
  pose proof (layers_slot_spec W0 (batches s) a k) as Hspec.
  rewrite <-(coh_layers _ _ _ Hc) in Hspec.
  assert (s = set_db s (s_db s)) as Hself by by destruct s.
  destruct (layers_slot (reverse (s_layers s)) a k) as [v|];
    [split_and!; [done|done|apply Hc|done]|].
  assert (∀ i, w_slot (stage W0 (batches s) i) a k = w_slot (tip_world s W0) a k) as Hsame.
  { intros i. unfold tip_world. by rewrite Hspec, <-stage_all, Hspec. }
  destruct (m_accounts (s_base s) !! a) as [x|] eqn:Eb; [|by apply slot_miss_spec].
  destruct (coh_base _ _ _ Hc a x Eb) as [(o & (i & Hi & ->) & Hx) Hst].
  destruct (m_Exists x) eqn:Ex; cbn [negb].
  - destruct (m_Storage x !! k) as [v|] eqn:Ek; [|by apply slot_miss_spec].
    destruct (Hst k v Ek) as (i' & _ & ->). rewrite Hsame. split_and!; [done|done|apply Hc|done].
  - split_and!; [|done|apply Hc|done]. cbn. rewrite <-(Hsame i). symmetry.
    apply (coh_live _ _ _ Hc). destruct (w_acct _ a); [discriminate Hx|done].
Qed.

(** *** Writes *)

Lemma sb_ok_new PA PS : sb_ok PA PS NewSideBuffer.
Proof. split; intros ??; cbn; by rewrite lookup_empty. Qed.

Lemma lockAndDrain_coherent s W0 j : coherent s W0 j → coherent (lockAndDrain s) W0 j.
Proof.
  intros [Hl Hj Hlive Hserv Hb Hbuf]. split; try done.
  - by apply drain_buffers_ok.
  - apply Forall_fmap, Forall_true. intros sb. apply sb_ok_new.
Qed.

Lemma Register_coherent s W0 j : coherent s W0 j → coherent (Register s NewSideBuffer) W0 j.
Proof.
  intros [Hl Hj Hlive Hserv Hb Hbuf]. split; try done.
  apply Forall_app. split; [done|]. constructor; [apply sb_ok_new|done].
Qed.

Lemma take_prefix_le {A} (l : list A) i j : i ≤ j → take i (take j l) = take i l.
Proof. intros. by rewrite take_take, Nat.min_l. Qed.

(** Pins only speak about the committed stages: the layers above may change. *)
Lemma pinned_acct_ext W0 bs bs' j a o :
  take j bs = take j bs' → pinned_acct W0 bs j a o → pinned_acct W0 bs' j a o.
Proof.
  intros Ht (i & Hi & ->). exists i. split; [done|]. unfold stage.
  by rewrite <-(take_prefix_le bs i j), Ht, take_prefix_le by done.
Qed.

Lemma pinned_slot_ext W0 bs bs' j a k v :
  take j bs = take j bs' → pinned_slot W0 bs j a k v → pinned_slot W0 bs' j a k v.
Proof.
  intros Ht (i & Hi & ->). exists i. split; [done|]. unfold stage.
  by rewrite <-(take_prefix_le bs i j), Ht, take_prefix_le by done.
Qed.

(** Replacing the layers by those of a chain that agrees on the committed
    blocks; the tip stamp is free. *)
Lemma relayer_coherent s s' W0 j bs :
  coherent s W0 j → s_db s' = s_db s → s_base s' = s_base s → s_buffers s' = s_buffers s →
  s_layers s' = newLayer <$> bs → take j bs = take j (batches s) → j ≤ length bs →
  live_along W0 bs → coherent s' W0 j ∧ batches s' = bs.
Proof.
  intros [Hl Hj Hlive Hserv Hb Hbuf] Hdb Hbase Hbufs Hls Ht Hlen Hlive'.
  assert (batches s' = bs) as Hbs.
  { unfold batches. by rewrite Hls, layer_batches. }
  split; [|done]. split; rewrite ?Hbs; try done.
  - unfold stage in *. rewrite Hdb. by rewrite Ht.
  - rewrite Hbase. eapply base_ok_mono; [..|exact Hb]; intros *;
      [apply pinned_acct_ext|apply pinned_slot_ext]; done.
  - rewrite Hbufs. eapply Forall_impl; [exact Hbuf|]. intros sb. apply sb_ok_mono; intros *;
      [apply pinned_acct_ext|apply pinned_slot_ext]; done.
Qed.

Lemma live_along_snoc W0 bs b :
  live_along W0 bs → live (apply_batch (apply_batches W0 bs) b) → live_along W0 (bs ++ [b]).
Proof.
  intros Hl Hb i. unfold stage. destruct (decide (i ≤ length bs)).
  - rewrite take_app_le by done. apply Hl.
  - rewrite take_ge by (rewrite length_app; simpl; lia). by rewrite apply_batches_app.
Qed.

Lemma ApplyBlock_coherent s W0 j b :
  coherent s W0 j → live (apply_batch (tip_world s W0) b) →
  coherent (ApplyBlock s b) W0 j ∧ batches (ApplyBlock s b) = batches s ++ [b].
Proof.
  intros Hc%lockAndDrain_coherent Hb. pose proof Hc as [Hl Hj Hlive _ _ _].
  eapply (relayer_coherent (lockAndDrain s)); try done.
  - cbn. rewrite fmap_app. by rewrite Hl at 1.
  - by rewrite take_app_le.
  - change (batches (lockAndDrain s)) with (batches s) in Hj. rewrite length_app. lia.
  - by apply live_along_snoc.
Qed.

Lemma push_layers s bs :
  s_layers (foldl push_layer s bs) = s_layers s ++ (newLayer <$> bs) ∧
  s_db (foldl push_layer s bs) = s_db s ∧ s_base (foldl push_layer s bs) = s_base s ∧
  s_buffers (foldl push_layer s bs) = s_buffers s.
Proof.
  revert s. induction bs as [|b bs IH]; intros s; cbn [foldl].
  - by rewrite app_nil_r.
  - destruct (IH (push_layer s b)) as (Hl & Hd & Hb & Hbuf). rewrite Hl, Hd, Hb, Hbuf.
    split_and!; try done. cbn. by rewrite <-app_assoc.
Qed.

Lemma PreferenceReset_coherent s W0 j bs :
  coherent s W0 j → take j bs = take j (batches s) → j ≤ length bs → live_along W0 bs →
  coherent (PreferenceReset s bs) W0 j ∧ batches (PreferenceReset s bs) = bs.
Proof.
  intros Hc%lockAndDrain_coherent Ht Hj Hlive. unfold PreferenceReset.
  destruct (push_layers (set_layers (lockAndDrain s) []) bs) as (Hl & Hd & Hb & Hbuf).
  by eapply (relayer_coherent (lockAndDrain s)).
Qed.

(** The block the store has committed first is applied to the pins. *)
Lemma pinned_acct_post W0 b bs j a o :
  pinned_acct W0 (b :: bs) (S j) a o → pinned_acct (apply_batch W0 b) bs j a (post_acct (Ops b) a o).
Proof.
  intros (i & Hi & ->). destruct i as [|i].
  - exists 0. split; [lia|]. symmetry. apply apply_batch_acct.
  - rewrite stage_cons. unfold post_acct at 1.
    pose proof (apply_batch_acct W0 b a) as Hb. unfold post_acct in Hb.
    destruct (net_acct (Ops b) a); [by exists 0; split; [lia|]|].
    destruct (destructs (Ops b) a); [by exists 0; split; [lia|]|]. exists i. split; [lia|done].
Qed.

Lemma pinned_slot_post W0 b bs j a k v :
  pinned_slot W0 (b :: bs) (S j) a k v →
  pinned_slot (apply_batch W0 b) bs j a k (post_slot (Ops b) a k v).
Proof.
  intros (i & Hi & ->). destruct i as [|i].
  - exists 0. split; [lia|]. symmetry. apply apply_batch_slot.
  - rewrite stage_cons. unfold post_slot at 1.
    pose proof (apply_batch_slot W0 b a k) as Hb. unfold post_slot in Hb.
    destruct (net_slot (Ops b) a k); [by exists 0; split; [lia|]|].
    destruct (destructs (Ops b) a); [by exists 0; split; [lia|]|]. exists i. split; [lia|done].
Qed.

Lemma Finalize_coherent s W0 j b bs :
  coherent s W0 (S j) → batches s = b :: bs →
  ∃ s', st_Finalize s (Block b) (BHash b) = (Ok (), s') ∧
    coherent s' (apply_batch W0 b) j ∧ batches s' = bs ∧ s_finalized s' = Block b.
Proof.
  intros Hc%lockAndDrain_coherent Hbs. unfold st_Finalize.
  pose proof Hc as [Hl Hj Hlive Hserv Hb Hbuf].
  change (batches (lockAndDrain s)) with (batches s) in *. rewrite Hbs in *.
  cbn [s_layers lockAndDrain] in Hl |- *. rewrite Hl. cbn [fmap list_fmap].
  rewrite (proj1 (newLayer_spec b)). rewrite !bool_decide_eq_false_2 by naive_solver.
  eexists. split; [done|].
  pose proof (layer_batches bs) as Hbs'.
  split_and!; [|exact Hbs'|done]. split; unfold batches; cbn [s_layers s_db s_base s_buffers];
    change (list_fmap _ _ newLayer bs) with (newLayer <$> bs); rewrite ?Hbs'.
  - done.
  - cbn in Hj. lia.
  - intros i. exact (Hlive (S i)).
  - exact Hserv.
  - eapply Apply_ok; [..|exact Hb]; [apply pinned_acct_post|apply pinned_slot_post].
  - apply Forall_fmap, Forall_true. intros sb. apply sb_ok_new.
Qed.

(** A finalization that does not match the oldest layer only merges the pins. *)
Lemma Finalize_err s block hash er s' :
  st_Finalize s block hash = (Err er, s') → s' = lockAndDrain s.
Proof. unfold st_Finalize. repeat case_match; intros; by simplify_eq. Qed.

Lemma commit_coherent s W0 j d :
  coherent s W0 j → j < length (batches s) → serves d Latest (stage W0 (batches s) (S j)) →
  coherent (set_db s d) W0 (S j).
Proof.
  intros [Hl Hj Hlive Hserv Hb Hbuf] Hlt Hd.
  assert (∀ a o, pinned_acct W0 (batches s) j a o → pinned_acct W0 (batches s) (S j) a o) as HA.
  { intros a o (i & ? & ?). exists i. split; [lia|done]. }
  assert (∀ a k v, pinned_slot W0 (batches s) j a k v → pinned_slot W0 (batches s) (S j) a k v) as HS.
  { intros a k v (i & ? & ?). exists i. split; [lia|done]. }
  split; try done.
  - by eapply base_ok_mono.
  - eapply Forall_impl; [exact Hbuf|]. intros sb. by apply sb_ok_mono.
Qed.

(** *** Executions

    [mem_run s W0 j]: [s] is reached from a new state over a store that
    serves a live world, by reads of registered executors, block events,
    finalizations, preference resets and commits of the store, where a block
    is committed to the store before it is finalized in memory and a reset
    keeps the committed blocks.  [W0] is the finalized world and [j] the
    number of layers already in the store. *)
Inductive mem_run : State db → world → nat → Prop :=
| run_new d s W :
    mem_New d = Ok s → serves d Latest W → live W → mem_run s W 0
| run_register s W0 j :
    mem_run s W0 j → mem_run (Register s NewSideBuffer) W0 j
| run_account s W0 j i a r s' :
    mem_run s W0 j → with_buffer s i (λ s sb, st_Account s a sb) = Some (r, s') → mem_run s' W0 j
| run_slot s W0 j i a k r s' :
    mem_run s W0 j → with_buffer s i (λ s sb, st_Slot s a k sb) = Some (r, s') → mem_run s' W0 j
| run_code s W0 j i h r s' :
    mem_run s W0 j →
    with_buffer s i (λ s sb, let '(r, sb) := st_Code s h sb in (r, s, sb)) = Some (r, s') →
    mem_run s' W0 j
| run_block s W0 j b :
    mem_run s W0 j → live (apply_batch (tip_world s W0) b) → mem_run (ApplyBlock s b) W0 j
| run_commit s W0 j d :
    mem_run s W0 j → j < length (batches s) → serves d Latest (stage W0 (batches s) (S j)) →
    mem_run (set_db s d) W0 (S j)
| run_finalize s W0 j b bs s' :
    mem_run s W0 (S j) → batches s = b :: bs →
    st_Finalize s (Block b) (BHash b) = (Ok (), s') → mem_run s' (apply_batch W0 b) j
| run_finalize_err s W0 j block hash er s' :
    mem_run s W0 j → st_Finalize s block hash = (Err er, s') → mem_run s' W0 j
| run_reset s W0 j bs :
    mem_run s W0 j → take j bs = take j (batches s) → j ≤ length bs → live_along W0 bs →
    mem_run (PreferenceReset s bs) W0 j.

Lemma with_buffer_spec {A : Type} s W0 j i (f : State db → SideBuffer → result A * State db * SideBuffer) x :
  coherent s W0 j →
  (∀ sb, sb_ok (pinned_acct W0 (batches s) j) (pinned_slot W0 (batches s) j) sb →
    match f s sb with
    | (r, s', sb') =>
        answers rd_faulty r x ∧
        s' = set_db s (s_db s') ∧ serves (s_db s') Latest (stage W0 (batches s) j) ∧
        sb_ok (pinned_acct W0 (batches s) j) (pinned_slot W0 (batches s) j) sb'
    end) →
  match with_buffer s i f with
  | Some (r, s') => answers rd_faulty r x ∧ coherent s' W0 j
  | None => length (s_buffers s) ≤ i
  end.
Proof.
  intros Hc Hf. unfold with_buffer. destruct (s_buffers s !! i) as [sb|] eqn:Ei;
    [|by apply lookup_ge_None].
  pose proof Hc as [Hl Hj Hlive Hserv Hb Hbuf].
  specialize (Hf sb). destruct (f s sb) as [[r s'] sb'].
  destruct Hf as (Hr & Hs' & Hserv' & Hsb').
  { eapply Forall_lookup_1 in Hbuf; [|done]. done. }
  split; [done|]. rewrite Hs'. split; try done. by apply Forall_insert.
Qed.

Lemma with_buffer_account s W0 j i a :
  coherent s W0 j →
  match with_buffer s i (λ s sb, st_Account s a sb) with
  | Some (r, s') => answers rd_faulty r (account_answer (w_acct (tip_world s W0) a)) ∧ coherent s' W0 j
  | None => length (s_buffers s) ≤ i
  end.
Proof. intros Hc. apply with_buffer_spec; [done|]. intros sb. by apply st_Account_spec. Qed.

Lemma with_buffer_slot s W0 j i a k :
  coherent s W0 j →
  match with_buffer s i (λ s sb, st_Slot s a k sb) with
  | Some (r, s') => answers rd_faulty r (w_slot (tip_world s W0) a k) ∧ coherent s' W0 j
  | None => length (s_buffers s) ≤ i
  end.
Proof. intros Hc. apply with_buffer_spec; [done|]. intros sb. by apply st_Slot_spec. Qed.

Lemma with_buffer_code s W0 j i h r s' :
  coherent s W0 j →
  with_buffer s i (λ s sb, let '(r, sb) := st_Code s h sb in (r, s, sb)) = Some (r, s') →
  coherent s' W0 j.
Proof.
  intros Hc. unfold with_buffer, st_Code. destruct (s_buffers s !! i) as [sb|] eqn:Ei; [|done].
  pose proof Hc as [Hl Hj Hlive Hserv Hb Hbuf].
  pose proof (Forall_lookup_1 _ _ _ _ Hbuf Ei) as Hsb.
  intros Hr. repeat case_match; simplify_eq; (split; try done); by apply Forall_insert.
Qed.

Lemma mem_run_coherent s W0 j : mem_run s W0 j → coherent s W0 j.
Proof.
  induction 1 as [d s W Hnew Hserv Hlive|s W0 j _ IH|s W0 j i a r s' _ IH Hw|s W0 j i a k r s' _ IH Hw
    |s W0 j i h r s' _ IH Hw|s W0 j b _ IH Hb|s W0 j d _ IH Hj Hd|s W0 j b bs s' _ IH Hbs Hf
    |s W0 j block hash er s' _ IH Hf|s W0 j bs _ IH Ht Hj Hl].
  - unfold mem_New in Hnew. destruct (rd_Finalized d); simplify_eq/=.
    split; try done. by intros [].
  - by apply Register_coherent.
  - pose proof (with_buffer_account s W0 j i a IH) as Hs. rewrite Hw in Hs. apply Hs.
  - pose proof (with_buffer_slot s W0 j i a k IH) as Hs. rewrite Hw in Hs. apply Hs.
  - by eapply with_buffer_code.
  - by apply ApplyBlock_coherent.
  - by apply commit_coherent.
  - destruct (Finalize_coherent _ _ _ _ _ IH Hbs) as (s'' & Hf' & Hc & _). congruence.
  - apply Finalize_err in Hf as ->. by apply lockAndDrain_coherent.
  - by apply PreferenceReset_coherent.
Qed.

(** *** The tip stamp *)

Definition stamp (b : Batch) : Hash * u64 * u64 := (BHash b, Block b, wrap (Time b / 1000)).

(** The stamp names the newest layer whenever there is one. *)
Definition stamp_ok s : Prop := ∀ b, last (batches s) = Some b → TipInfo s = stamp b.

Lemma stamp_push s b : stamp_ok (push_layer s b).
Proof.
  intros b'. unfold batches, push_layer. cbn [s_layers set_layers set_tip].
  rewrite fmap_app, last_app. cbn. rewrite (proj1 (newLayer_spec b)). by intros [= <-].
Qed.

Lemma stamp_push_all s bs : stamp_ok s → stamp_ok (foldl push_layer s bs).
Proof. intros Hs. apply foldl_inv; [|done]. intros s' b _ _. apply stamp_push. Qed.

Lemma stamp_finalize s block hash s' :
  stamp_ok s → st_Finalize s block hash = (Ok (), s') → stamp_ok s'.
Proof.
  intros Hs. unfold st_Finalize. cbn [lockAndDrain s_layers].
  destruct (s_layers s) as [|l ls] eqn:El; [done|].
  repeat case_bool_decide; intros Hf; simplify_eq. intros b Hb.
  unfold batches in Hb. cbn [s_layers] in Hb. destruct ls as [|l' ls]; [done|].
  rewrite <-(Hs b); [done|]. unfold batches. rewrite El. exact Hb.
Qed.

Lemma with_buffer_frame {A : Type} s i (f : State db → SideBuffer → result A * State db * SideBuffer) r s' :
  (∀ sb, ∃ r d sb', f s sb = (r, set_db s d, sb')) →
  with_buffer s i f = Some (r, s') → batches s' = batches s ∧ TipInfo s' = TipInfo s.
Proof.
  intros Hf. unfold with_buffer. destruct (s_buffers s !! i) as [sb|]; [|done].
  destruct (Hf sb) as (r1 & d & sb' & ->). by intros [= <- <-].
Qed.

Lemma mem_run_stamp s W0 j : mem_run s W0 j → stamp_ok s.
Proof.
  induction 1 as [d s W Hnew Hserv Hlive|s W0 j _ IH|s W0 j i a r s' Hr IH Hw|s W0 j i a k r s' Hr IH Hw
    |s W0 j i h r s' Hr IH Hw|s W0 j b _ IH Hb|s W0 j d _ IH Hj Hd|s W0 j b bs s' _ IH Hbs Hf
    |s W0 j block hash er s' _ IH Hf|s W0 j bs _ IH Ht Hj Hl]; try done.
  - unfold mem_New in Hnew. destruct (rd_Finalized d); by simplify_eq/=.
  - assert (batches s' = batches s ∧ TipInfo s' = TipInfo s) as [Hb Ht].
    { eapply with_buffer_frame; [|exact Hw]. intros sb. unfold st_Account.
      destruct s; cbn; repeat case_match; simplify_eq; by do 3 eexists. }
    intros b. rewrite Hb, Ht. apply IH.
  - assert (batches s' = batches s ∧ TipInfo s' = TipInfo s) as [Hb Ht].
    { eapply with_buffer_frame; [|exact Hw]. intros sb. unfold st_Slot, slot_miss, pin_owner.
      destruct s; cbn; repeat case_match; simplify_eq; by do 3 eexists. }
    intros b. rewrite Hb, Ht. apply IH.
  - assert (batches s' = batches s ∧ TipInfo s' = TipInfo s) as [Hb Ht].
    { eapply with_buffer_frame; [|exact Hw]. intros sb. unfold st_Code.
      destruct s; cbn; repeat case_match; simplify_eq; by do 3 eexists. }
    intros b. rewrite Hb, Ht. apply IH.
  - apply stamp_push.
  - by eapply stamp_finalize.
  - by apply Finalize_err in Hf as ->.
  - by apply stamp_push_all.
Qed.
End coherence.
