(* ===== verification/Tipbus.v ===== *)
(** * Tipbus: the ephemeral event log

    Models [tipbus/tipbus.go]: the writer's mirror of the handshake state, the
    publish transaction, the reader's handshake and poll, and the event codec.
    File-system work of the open calls is left out; [OpenWriter] starts at the
    truncating transaction. *)

From S2P Require Import Prelude Schema Lmdb Capture.

(** ** Keys and events *)

Definition keySeq : bytes := [byte_lit 0].
Definition keyState : bytes := [byte_lit 1].
Definition prefEvent : byte := byte_lit 2.

(** [Event], with the fields of its kind. *)
Inductive Event :=
| EvBlock (batch : Batch)
| EvFinalize (height : u64) (hash : Hash)
| EvReset (batches : list Batch).

#[export] Instance Event_eq_dec : EqDecision Event.
Proof. solve_decision. Defined.

Definition kindBlock : byte := byte_lit 1.
Definition kindFinalize : byte := byte_lit 2.
Definition kindReset : byte := byte_lit 3.

(** ** Encoding *)

(** [AppendUint32(len(enc)); append(enc)] for every batch; [None] is the
    encoder's panic. *)
Fixpoint encode_frames (v : bytes) (ls : list Batch) : option bytes :=
  match ls with
  | [] => Some v
  | l :: ls' =>
      enc ← Encode l [];
      encode_frames (AppendUint32 v (wrap (Z.of_nat (length enc))) ++ enc) ls'
  end.

Definition encode_state (finalized : u64) (layers : list Batch) : option bytes :=
  let v := AppendUint64 [] finalized in
  let v := AppendUint32 v (wrap (Z.of_nat (length layers))) in
  encode_frames v layers.

Definition encode_event (ev : Event) : option bytes :=
  match ev with
  | EvBlock b => Encode b [kindBlock]
  | EvFinalize height hash => Some (AppendUint64 [kindFinalize] height ++ abytes hash)
  | EvReset preferred =>
      encode_frames (AppendUint32 [kindReset] (wrap (Z.of_nat (length preferred)))) preferred
  end.

(** ** Decoding *)

(** The frame loop shared by [Handshake] and [decodeEvent]; the slice bound
    [4+l] is computed in 32 bits, and a wrapped bound panics. *)
Fixpoint decode_frames (n : nat) (v : bytes) (acc : list Batch) : result (list Batch) :=
  match n with
  | O => Ok acc
  | S n' =>
      if Nat.ltb (length v) 4 then Err (ErrMsg "tipbus")
      else
        let l := Uint32 (take 4 v) in
        if (Z.of_nat (length v) <? 4 + l)%Z then Err (ErrMsg "tipbus")
        else
          let hi : u32 := u_add (wrap 4) l in
          if (hi <? 4)%Z then Err (ErrMsg "panic")
          else
            let! b := Decode (drop 4 (take (Z.to_nat hi) v)) in
            decode_frames n' (drop (Z.to_nat hi) v) (acc ++ [b])
  end.

Definition decodeEvent (v : bytes) : result Event :=
  match v with
  | [] => Err (ErrMsg "tipbus")
  | kind :: body =>
      if decide (kind = kindBlock) then
        let! b := Decode body in Ok (EvBlock b)
      else if decide (kind = kindFinalize) then
        if negb (Nat.eqb (length body) 40) then Err (ErrMsg "tipbus")
        else Ok (EvFinalize (Uint64 (take 8 body)) (arr_of (drop 8 body)))
      else if decide (kind = kindReset) then
        if Nat.ltb (length body) 4 then Err (ErrMsg "tipbus")
        else
          let n := Uint32 (take 4 body) in
          let! bs := decode_frames (Z.to_nat n) (drop 4 body) [] in
          Ok (EvReset bs)
      else Err (ErrMsg "tipbus")
  end.

(** ** The bus *)

Record Bus (env : Type) := MkBus {
  b_env : env;
  b_seq : u64;
  b_finalized : u64;
  b_layers : list Batch
}.
Arguments MkBus {env} _ _ _ _.
Arguments b_env {env} _.
Arguments b_seq {env} _.
Arguments b_finalized {env} _.
Arguments b_layers {env} _.

Definition event_key (seq : u64) : bytes := [prefEvent] ++ AppendUint64 [] seq.

Section bus.
Context {env : Type} `{Lmdb env}.

(** [env.Update] with a closure that also assigns captured variables: what it
    assigned stays assigned when the transaction fails. *)
Definition UpdateS {A : Type} (e : env) (a : A) (fn : env → A → result env * A) :
    result unit * env * A :=
  match lres_result (mdb_begin e) with
  | Err er => (Err er, e, a)
  | Ok _ =>
      match fn e a with
      | (Err er, a') => (Err er, e, a')
      | (Ok e', a') =>
          match lres_result (mdb_commit e') with
          | Err er => (Err er, e, a')
          | Ok _ => (Ok (), e', a')
          end
      end
  end.

Definition writeState (txn : env) (finalized : u64) (layers : list Batch) : result env :=
  match encode_state finalized layers with
  | Some v => lres_result (mdb_put txn keyState v)
  | None => Err (ErrMsg "panic")
  end.

Definition OpenWriter (e : env) : result (Bus env) * env :=
  let '(r, e) := Update e (λ txn,
    let! txn := lres_result (mdb_drop txn) in
    let! txn := lres_result (mdb_put txn keySeq (AppendUint64 [] u_zero)) in
    writeState txn u_zero []) in
  (let! _ := r in Ok (MkBus e u_zero u_zero []), e).

(** The captured variable is [b.seq]. *)
Definition publish (b : Bus env) (payload : bytes) : result unit * Bus env :=
  let '(r, e, seq) := UpdateS (b_env b) (b_seq b) (λ txn seq,
    match lres_result (mdb_put txn (event_key seq) payload) with
    | Err er => (Err er, seq)
    | Ok txn =>
        match writeState txn (b_finalized b) (b_layers b) with
        | Err er => (Err er, seq)
        | Ok txn =>
            let seq := u_add seq (wrap 1) in
            (lres_result (mdb_put txn keySeq (AppendUint64 [] seq)), seq)
        end
    end) in
  (r, MkBus e seq (b_finalized b) (b_layers b)).

Definition publish_opt (b : Bus env) (payload : option bytes) : result unit * Bus env :=
  match payload with
  | Some p => publish b p
  | None => (Err (ErrMsg "panic"), b)
  end.

Definition PublishBlock (b : Bus env) (batch : Batch) : result unit * Bus env :=
  let b := MkBus (b_env b) (b_seq b) (b_finalized b) (b_layers b ++ [batch]) in
  publish_opt b (encode_event (EvBlock batch)).

Definition PublishFinalize (b : Bus env) (height : u64) (hash : Hash) : result unit * Bus env :=
  match b_layers b with
  | [] => (Err (ErrMsg "tipbus"), b)
  | l :: ls =>
      if bool_decide (Block l ≠ height) then (Err (ErrMsg "tipbus"), b)
      else
        let b := MkBus (b_env b) (b_seq b) height ls in
        publish_opt b (encode_event (EvFinalize height hash))
  end.

Definition PublishReset (b : Bus env) (preferred : list Batch) : result unit * Bus env :=
  let b := MkBus (b_env b) (b_seq b) (b_finalized b) preferred in
  publish_opt b (encode_event (EvReset preferred)).

(** ** Subscriber *)

Definition Seq (e : env) : result u64 :=
  View e (λ txn,
    let! v := lres_lookup (mdb_get txn keySeq) in
    Ok (match v with Some v => Uint64 v | None => u_zero end)).

Definition Handshake (e : env) : result (u64 * list Batch * u64) :=
  View e (λ txn,
    let! sv := lres_lookup (mdb_get txn keySeq) in
    match sv with
    | None => Err (ErrMsg "tipbus")
    | Some sv =>
        let seq := Uint64 sv in
        let! v := lres_result (mdb_get txn keyState) in
        if Nat.ltb (length v) 12 then Err (ErrMsg "tipbus")
        else
          let finalized := Uint64 (take 8 v) in
          let n := Uint32 (take 4 (drop 8 v)) in
          let! layers := decode_frames (Z.to_nat n) (drop 12 v) [] in
          Ok (finalized, layers, seq)
    end).

(** The loop of [Poll]: [n] is the distance from [next] to the end. *)
Fixpoint poll_loop (txn : env) (n : nat) (next : u64) (events : list Event) :
    result (list Event * u64) :=
  match n with
  | O => Ok (events, next)
  | S n' =>
      let! v := lres_result (mdb_get txn (event_key next)) in
      let! ev := decodeEvent v in
      poll_loop txn n' (u_add next (wrap 1)) (events ++ [ev])
  end.

Definition Poll (e : env) (from : u64) : result (list Event * u64) :=
  View e (λ txn,
    let! sv := lres_lookup (mdb_get txn keySeq) in
    match sv with
    | None => Ok ([], from)
    | Some sv =>
        let cur := Uint64 sv in
        poll_loop txn (Z.to_nat (cur - from)) from []
    end).
End bus.
