(* ===== verification/TipbusProof.v ===== *)
(** * TipbusProof: a reader of the bus rebuilds the writer's mirror

    Events and the handshake state survive the codec; after any run of
    successful publishes the environment holds the whole event log and the
    mirror, so a reader that takes a handshake and then applies what it polls
    holds exactly the writer's unfinalized stack. *)

From S2P Require Import Prelude Schema Lmdb Capture Tipbus.

(** ** Round trips *)

(** A batch whose encoding fits a frame. *)
Definition frame_ok (b : Batch) : Prop :=
  encodable b ∧ match Encode b [] with
                | Some enc => (Z.of_nat (length enc) + 4 < 2 ^ 32)%Z
                | None => False
                end.
Definition frames_ok (bs : list Batch) : Prop :=
  (Z.of_nat (length bs) < 2 ^ 32)%Z ∧ Forall frame_ok bs.

#[export] Instance frame_ok_dec b : Decision (frame_ok b).
Proof. unfold frame_ok. apply and_dec; [apply _|]. destruct (Encode b []); apply _. Defined.
#[export] Instance frames_ok_dec bs : Decision (frames_ok bs).
Proof. unfold frames_ok. apply _. Defined.

Definition event_ok (ev : Event) : Prop :=
  match ev with
  | EvBlock b => encodable b
  | EvFinalize _ _ => True
  | EvReset bs => frames_ok bs
  end.
#[export] Instance event_ok_dec ev : Decision (event_ok ev).
Proof. destruct ev; apply _. Defined.

Lemma encode_frames_app v bs : encode_frames v bs = (v ++.) <$> encode_frames [] bs.
Proof.
  revert v. induction bs as [|b bs IH]; intros v; cbn; [by rewrite app_nil_r|].
  destruct (Encode b []) as [enc|]; cbn; [|done].
  rewrite IH, (IH (_ ++ enc)). destruct (encode_frames [] bs); cbn; [|done].
  unfold AppendUint32. by rewrite <-!(assoc_L (++)).
Qed.

Lemma decode_encode_frames bs acc x :
  Forall frame_ok bs → encode_frames [] bs = Some x →
  decode_frames (length bs) x acc = Ok (acc ++ bs).
Proof.
  intros Hok. revert acc x. induction Hok as [|b bs [He Hlen] _ IH]; intros acc x Hx.
  { cbn. by rewrite app_nil_r. }
  cbn in Hx. destruct (Encode b []) as [enc|] eqn:Eenc; [|done]. cbn in Hx.
  rewrite encode_frames_app in Hx. destruct (encode_frames [] bs) as [y|] eqn:Ey; [|done].
  cbn in Hx. injection Hx as <-. unfold AppendUint32.
  set (l4 := be_bytes 4 (wrap (w:=32) (Z.of_nat (length enc)))).
  assert (length l4 = 4) as Hl4 by apply length_be_bytes.
  rewrite <-(assoc_L (++)). cbn [length decode_frames].
  rewrite (take_app_exact l4) by done.
  assert (Uint32 l4 = wrap (Z.of_nat (length enc))) as ->.
  { apply Uint32_be_bytes'. }
  rewrite !wrap_small by lia. rewrite !length_app, Hl4.
  destruct (Nat.ltb_spec (4 + (length enc + length y)) 4); [lia|].
  destruct (Z.ltb_spec (Z.of_nat (4 + (length enc + length y))) (4 + Z.of_nat (length enc))); [lia|].
  assert (uval (u_add (wrap (w:=32) 4) (wrap (Z.of_nat (length enc)))) = 4 + Z.of_nat (length enc))%Z as ->.
  { unfold u_add. rewrite (wrap_small 4), (wrap_small (Z.of_nat _)) by lia. rewrite wrap_small; lia. }
  destruct (Z.ltb_spec (4 + Z.of_nat (length enc)) 4); [lia|].
  replace (Z.to_nat (4 + Z.of_nat (length enc))) with (length (l4 ++ enc)) by (rewrite length_app; lia).
  rewrite (assoc_L (++)), take_app_length, drop_app_length, drop_app_exact by done.
  rewrite (Decode_Encode b enc) by done. cbn [rbind]. rewrite IH by done. by rewrite <-(assoc_L (++)).
Qed.

Lemma Uint32_app x l : Uint32 (take 4 (be_bytes 4 (uval x) ++ l)) = x.
Proof.
  rewrite take_app_exact by apply length_be_bytes. apply Uint32_be_bytes'.
Qed.

Lemma decode_encode_event ev p : event_ok ev → encode_event ev = Some p → decodeEvent p = Ok ev.
Proof.
  destruct ev as [b|height hash|bs]; cbn [event_ok encode_event].
  - intros He. rewrite Encode_app. destruct (Encode b []) as [x|] eqn:Ex; [|done].
    intros [= <-]. cbn. by rewrite (Decode_Encode b x).
  - intros _ [= <-]. unfold AppendUint64. cbn.
    rewrite !length_app, length_be_bytes, length_abytes. cbn.
    rewrite take_app_exact, drop_app_exact by apply length_be_bytes.
    by rewrite Uint64_be_bytes', arr_of_abytes.
  - intros [Hn Hok]. rewrite encode_frames_app. destruct (encode_frames [] bs) as [x|] eqn:Ex; [|done].
    intros [= <-]. unfold AppendUint32. cbn [app decodeEvent].
    rewrite decide_False, decide_False, decide_True by done.
    rewrite length_app, length_be_bytes. cbn [Nat.add Nat.ltb Nat.leb]. rewrite Uint32_app, wrap_small, Nat2Z.id by lia.
    rewrite drop_app_exact by apply length_be_bytes.
    by rewrite (decode_encode_frames bs [] x).
Qed.

Lemma encode_frames_total v bs : Forall frame_ok bs → is_Some (encode_frames v bs).
Proof.
  intros Hok. revert v. induction Hok as [|b bs [He _] _ IH]; intros v; [by eexists|].
  cbn. destruct (Encode_total b He) as [x ->]. cbn. apply IH.
Qed.

Lemma encode_event_total ev : event_ok ev → is_Some (encode_event ev).
Proof.
  destruct ev as [b|height hash|bs]; cbn; [|by eexists|by intros [_ ?]; apply encode_frames_total].
  intros He. rewrite Encode_app. destruct (Encode_total b He) as [x ->]. by eexists.
Qed.

(** ** The log and the mirror *)

Definition mirror : Type := u64 * list Batch.

(** What an event means to whoever follows the bus. *)
Definition apply_event (m : mirror) (ev : Event) : mirror :=
  match ev with
  | EvBlock b => (m.1, m.2 ++ [b])
  | EvFinalize height _ => (height, tail m.2)
  | EvReset bs => (m.1, bs)
  end.

Lemma event_key_inj s s' : event_key s = event_key s' → s = s'.
Proof.
  unfold event_key, AppendUint64. intros Heq%(app_inj_1 [prefEvent] [prefEvent]); [|done].
  destruct Heq as [_ Heq]. by apply (be_bytes_inj 8) in Heq.
Qed.

Section bus.
Context {env : Type} `{LmdbLaws env}.
Implicit Types b : Bus env.

Definition bus_mirror b : mirror := (b_finalized b, b_layers b).

Definition publish_event b (ev : Event) : result unit * Bus env :=
  match ev with
  | EvBlock batch => PublishBlock b batch
  | EvFinalize height hash => PublishFinalize b height hash
  | EvReset bs => PublishReset b bs
  end.

Record bus_inv (b : Bus env) (evs : list Event) : Prop := {
  bi_seq : uval (b_seq b) = Z.of_nat (length evs);
  bi_seq_row : contents (b_env b) !! keySeq = Some (AppendUint64 [] (b_seq b));
  bi_state : ∃ v, encode_state (b_finalized b) (b_layers b) = Some v ∧
    contents (b_env b) !! keyState = Some v;
  bi_layers : frames_ok (b_layers b);
  bi_events i ev : evs !! i = Some ev →
    event_ok ev ∧ ∃ p, encode_event ev = Some p ∧
    contents (b_env b) !! event_key (wrap (Z.of_nat i)) = Some p
}.

Lemma encode_state_total fin ls : frames_ok ls → is_Some (encode_state fin ls).
Proof. intros [_ ?]. by apply encode_frames_total. Qed.

Lemma OpenWriter_cases e :
  match OpenWriter e with
  | (Ok b, e') => bus_inv b [] ∧ bus_mirror b = (u_zero, []) ∧ e' = b_env b
  | (Err er, e') => e' = e ∧ faults ∧ ∃ c, er = ErrLmdb c
  end.
Proof.
  unfold OpenWriter, Update.
  destruct (begin_law e) as [->|[? [c ->]]]; cbn [lres_result]; [|cbn [rbind]; by eauto].
  destruct (drop_law e) as [(e1 & -> & He1)|[? [c ->]]]; cbn [lres_result rbind]; [|cbn [rbind]; by eauto].
  destruct (put_result e1 keySeq (AppendUint64 [] u_zero) ltac:(split; cbn; lia))
    as [(e2 & -> & He2)|[? [c ->]]]; cbn [rbind]; [|cbn [rbind]; by eauto].
  destruct (encode_state_total u_zero [] ltac:(split; [done|constructor])) as [v Hv].
  unfold writeState. rewrite Hv.
  destruct (put_result e2 keyState v ltac:(split; cbn; lia)) as [(e3 & -> & He3)|[? [c ->]]];
    cbn [rbind]; [|cbn [rbind]; by eauto].
  destruct (commit_law e3) as [->|[? [c ->]]]; cbn [lres_result]; [|cbn [rbind]; by eauto].
  split_and!; [|done..]. split; cbn [b_seq b_env b_finalized b_layers]; rewrite ?He3, ?He2.
  - done.
  - by rewrite lookup_insert_ne, lookup_insert_eq.
  - exists v. split; [done|]. by rewrite lookup_insert_eq.
  - split; [done|constructor].
  - intros i ev. by rewrite lookup_nil.
Qed.

(** A publish transaction: the event, the state and the counter, or nothing. *)
Lemma publish_cases b p v :
  encode_state (b_finalized b) (b_layers b) = Some v →
  match publish b p with
  | (Ok _, b') =>
      contents (b_env b') =
        <[keySeq:=AppendUint64 [] (u_add (b_seq b) (wrap 1))]>
          (<[keyState:=v]> (<[event_key (b_seq b):=p]> (contents (b_env b)))) ∧
      b' = MkBus (b_env b') (u_add (b_seq b) (wrap 1)) (b_finalized b) (b_layers b)
  | (Err er, b') => b_env b' = b_env b ∧ faults ∧ ∃ c, er = ErrLmdb c
  end.
Proof.
  intros Hv. destruct b as [e seq fin ls]. unfold publish, UpdateS, writeState.
  cbn [b_env b_seq b_finalized b_layers] in *. rewrite Hv.
  destruct (begin_law e) as [->|[? [c ->]]]; cbn [lres_result]; [|by eauto].
  assert (valid_key (event_key seq)) as Hkey.
  { unfold valid_key, event_key, AppendUint64. len_solve. }
  destruct (put_result e (event_key seq) p Hkey) as [(e1 & -> & He1)|[? [c ->]]]; [|by eauto].
  destruct (put_result e1 keyState v ltac:(split; cbn; lia)) as [(e2 & -> & He2)|[? [c ->]]];
    [|by eauto].
  destruct (put_result e2 keySeq (AppendUint64 [] (u_add seq (wrap 1))) ltac:(split; cbn; lia))
    as [(e3 & -> & He3)|[? [c ->]]]; [|by eauto].
  destruct (commit_law e3) as [->|[? [c ->]]]; cbn [lres_result]; [|by eauto].
  split; [|done]. cbn. by rewrite He3, He2, He1.
Qed.

Lemma keySeq_ne seq : keySeq ≠ event_key seq.
Proof. done. Qed.
Lemma keyState_ne seq : keyState ≠ event_key seq.
Proof. done. Qed.

(** A successful transaction appends to the log. *)
Lemma publish_inv b evs ev p b' :
  bus_inv b evs → event_ok ev → encode_event ev = Some p → frames_ok (b_layers b') →
  (Z.of_nat (length evs) + 1 < 2 ^ 64)%Z →
  b_seq b' = u_add (b_seq b) (wrap 1) →
  (∃ v, encode_state (b_finalized b') (b_layers b') = Some v ∧
   contents (b_env b') =
     <[keySeq:=AppendUint64 [] (u_add (b_seq b) (wrap 1))]>
       (<[keyState:=v]> (<[event_key (b_seq b):=p]> (contents (b_env b))))) →
  bus_inv b' (evs ++ [ev]).
Proof.
  intros [Hseq _ _ _ Hevs] Hok Hp Hls Hbound Hseq' (v & Hv & Hrows).
  assert (uval (b_seq b') = Z.of_nat (length (evs ++ [ev]))) as Hn.
  { rewrite Hseq', length_app. unfold u_add. rewrite (wrap_small 1) by lia.
    rewrite wrap_small by lia. cbn. lia. }
  split; [done| | |done|].
  - by rewrite Hrows, Hseq', lookup_insert_eq.
  - exists v. split; [done|]. by rewrite Hrows, lookup_insert_ne, lookup_insert_eq.
  - intros i ev' [Hi|[Hi ->]]%lookup_snoc_Some.
    + destruct Hi as [Hlt Hi]. destruct (Hevs i ev' Hi) as (Hok' & p' & Hp' & Hrow).
      split; [done|]. exists p'. split; [done|]. rewrite Hrows.
      rewrite !lookup_insert_ne; [done| |done|done].
      intros Heq%event_key_inj. apply (f_equal uval) in Heq.
      rewrite Hseq, wrap_small in Heq; lia.
    + split; [done|]. exists p. split; [done|]. rewrite Hrows.
      assert (wrap (Z.of_nat i) = b_seq b) as ->.
      { apply uint_eq. rewrite wrap_small; lia. }
      by rewrite lookup_insert_ne, lookup_insert_ne, lookup_insert_eq.
Qed.

Lemma publish_opt_step b0 b evs ev :
  bus_inv b0 evs → b_env b = b_env b0 → b_seq b = b_seq b0 → event_ok ev →
  frames_ok (b_layers b) → (Z.of_nat (length evs) + 1 < 2 ^ 64)%Z →
  match publish_opt b (encode_event ev) with
  | (Ok _, b') => bus_inv b' (evs ++ [ev]) ∧ bus_mirror b' = bus_mirror b
  | (Err er, b') => b_env b' = b_env b0 ∧ faults ∧ ∃ c, er = ErrLmdb c
  end.
Proof.
  intros Hinv Henv Hseq Hok Hls Hbound. destruct (encode_event_total ev Hok) as [p Hp].
  rewrite Hp. cbn [publish_opt]. destruct (encode_state_total (b_finalized b) _ Hls) as [v Hv].
  pose proof (publish_cases b p v Hv) as Hpub.
  destruct (publish b p) as [[[]|er] b']; cycle 1.
  { destruct Hpub as (? & ?). split; [congruence|done]. }
  destruct Hpub as [Hrows Hb']. rewrite Henv, Hseq in Hrows.
  rewrite Hb' in *. cbn [b_env b_seq b_finalized b_layers] in *.
  split; [|done]. eapply publish_inv; try done; cbn [b_seq b_finalized b_layers b_env]; [congruence|].
  by exists v.
Qed.

(** Publishing: on success the log grows by the event and the mirror follows
    it; on failure the environment is as it was. *)
Lemma publish_event_step b evs ev :
  bus_inv b evs → event_ok ev → frames_ok (apply_event (bus_mirror b) ev).2 →
  (Z.of_nat (length evs) + 1 < 2 ^ 64)%Z →
  match publish_event b ev with
  | (Ok _, b') => bus_inv b' (evs ++ [ev]) ∧ bus_mirror b' = apply_event (bus_mirror b) ev
  | (Err er, b') =>
      b_env b' = b_env b ∧
      ((∃ height hash, ev = EvFinalize height hash ∧ Block <$> head (b_layers b) ≠ Some height) ∨
       faults ∧ ∃ c, er = ErrLmdb c)
  end.
Proof.
  intros Hinv Hok Hls Hbound. destruct ev as [batch|height hash|bs]; cbn [publish_event].
  - unfold PublishBlock.
    pose proof (publish_opt_step b (MkBus (b_env b) (b_seq b) (b_finalized b) (b_layers b ++ [batch]))
      evs (EvBlock batch) Hinv eq_refl eq_refl Hok Hls Hbound) as Hp.
    destruct (publish_opt _ _) as [[[]|er] b']; [done|]. destruct Hp as (? & ?). eauto.
  - unfold PublishFinalize. destruct (b_layers b) as [|l ls] eqn:El.
    { split; [done|]. left. eauto. }
    case_bool_decide as Hh.
    { split; [done|]. left. exists height, hash. cbn. split; [done|]. congruence. }
    unfold bus_mirror in Hls |- *. rewrite El in Hls |- *. cbn [apply_event fst snd tail] in Hls |- *.
    pose proof (publish_opt_step b (MkBus (b_env b) (b_seq b) height ls)
      evs (EvFinalize height hash) Hinv eq_refl eq_refl Hok Hls Hbound) as Hp.
    destruct (publish_opt _ _) as [[[]|er] b']; [done|]. destruct Hp as (? & ?). eauto.
  - unfold PublishReset.
    pose proof (publish_opt_step b (MkBus (b_env b) (b_seq b) (b_finalized b) bs)
      evs (EvReset bs) Hinv eq_refl eq_refl Hok Hls Hbound) as Hp.
    destruct (publish_opt _ _) as [[[]|er] b']; [done|]. destruct Hp as (? & ?). eauto.
Qed.

(** ** Readers *)

Lemma Seq_upto b evs : bus_inv b evs → upto_faults (Seq (b_env b)) (Ok (b_seq b)).
Proof.
  intros Hinv. apply View_upto. eapply upto_trans_bind; [apply get_upto|].
  rewrite (bi_seq_row _ _ Hinv). left. unfold AppendUint64. cbn [app]. by rewrite Uint64_be_bytes'.
Qed.

Lemma get_some_upto e k v :
  contents e !! k = Some v → upto_faults (lres_result (mdb_get e k)) (Ok v).
Proof.
  intros Hk. destruct (get_law e k) as [->|[? [c ->]]]; [left|right; by eauto]. by rewrite Hk.
Qed.

Lemma Handshake_upto b evs :
  bus_inv b evs →
  upto_faults (Handshake (b_env b)) (Ok (b_finalized b, b_layers b, b_seq b)).
Proof.
  intros Hinv. apply View_upto. eapply upto_trans_bind; [apply get_upto|].
  rewrite (bi_seq_row _ _ Hinv). destruct (bi_state _ _ Hinv) as (v & Hv & Hrow).
  destruct (bi_layers _ _ Hinv) as [Hn Hok].
  eapply upto_trans_bind; [by apply get_some_upto|]. left.
  unfold encode_state in Hv. rewrite encode_frames_app in Hv.
  destruct (encode_frames [] (b_layers b)) as [x|] eqn:Ex; [|done]. injection Hv as <-.
  unfold AppendUint32, AppendUint64. cbn [app].
  rewrite !length_app, !length_be_bytes. cbn [Nat.add Nat.ltb Nat.leb].
  rewrite <-(assoc_L (++)), take_app_exact, (drop_app_exact _ _ 8) by apply length_be_bytes.
  rewrite !Uint64_be_bytes', Uint32_app, wrap_small, Nat2Z.id by lia.
  rewrite (assoc_L (++)), drop_app_exact by (rewrite length_app, !length_be_bytes; done).
  by rewrite (decode_encode_frames (b_layers b) [] x).
Qed.

Lemma poll_loop_upto b evs n next acc :
  bus_inv b evs → (uval next + Z.of_nat n = Z.of_nat (length evs))%Z →
  upto_faults (poll_loop (b_env b) n next acc) (Ok (acc ++ drop (Z.to_nat next) evs, b_seq b)).
Proof.
  intros Hinv. revert next acc. induction n as [|n IH]; intros next acc Hn; cbn [poll_loop].
  - left. rewrite drop_ge by lia. rewrite app_nil_r. repeat f_equal. apply uint_eq.
    rewrite (bi_seq _ _ Hinv). lia.
  - pose proof (uint_range next). pose proof (bi_seq _ _ Hinv) as Hs. pose proof (uint_range (b_seq b)).
    destruct (lookup_lt_is_Some_2 evs (Z.to_nat next)) as [ev Hev]; [lia|].
    destruct (bi_events _ _ Hinv _ _ Hev) as (Hok & p & Hp & Hrow).
    rewrite Z2Nat.id, wrap_uval in Hrow by lia.
    eapply upto_trans_bind; [by apply get_some_upto|].
    rewrite (decode_encode_event ev p) by done. cbn [rbind].
    assert (uval (u_add next (wrap 1)) = uval next + 1)%Z as Hnext.
    { unfold u_add. rewrite (wrap_small 1) by lia. rewrite wrap_small; lia. }
    rewrite (drop_S _ _ _ Hev). replace (S (Z.to_nat next)) with (Z.to_nat (u_add next (wrap 1))) by lia.
    change (ev :: drop ?k evs) with ([ev] ++ drop k evs). rewrite (assoc_L (++)).
    apply IH. lia.
Qed.

(** [Poll] returns the events since the cursor and the new cursor; a cursor
    beyond the log yields nothing and stays where it is. *)
Lemma Poll_upto b evs from :
  bus_inv b evs →
  upto_faults (Poll (b_env b) from)
    (Ok (if (from <=? b_seq b)%Z then (drop (Z.to_nat from) evs, b_seq b) else ([], from))).
Proof.
  intros Hinv. apply View_upto. eapply upto_trans_bind; [apply get_upto|].
  rewrite (bi_seq_row _ _ Hinv). unfold AppendUint64. cbn [app]. rewrite Uint64_be_bytes'.
  pose proof (bi_seq _ _ Hinv). destruct (Z.leb_spec from (b_seq b)).
  - apply (poll_loop_upto b evs _ from []); [done|]. pose proof (uint_range from). lia.
  - replace (Z.to_nat (b_seq b - from)) with 0 by lia. by left.
Qed.

(** ** Runs *)

(** [published b evs b']: the writer published [evs] successfully. *)
Inductive published : Bus env → list Event → Bus env → Prop :=
| published_nil b : published b [] b
| published_snoc b evs b1 ev b2 :
    published b evs b1 → event_ok ev → frames_ok (apply_event (bus_mirror b1) ev).2 →
    publish_event b1 ev = (Ok (), b2) → published b (evs ++ [ev]) b2.

Lemma published_inv b evs0 evs b' :
  published b evs b' → bus_inv b evs0 → (Z.of_nat (length (evs0 ++ evs)) < 2 ^ 64)%Z →
  bus_inv b' (evs0 ++ evs) ∧ bus_mirror b' = foldl apply_event (bus_mirror b) evs.
Proof.
  intros Hp Hinv. induction Hp as [b|b evs b1 ev b2 Hp IH Hok Hls Hev]; intros Hlen.
  - by rewrite app_nil_r.
  - rewrite (assoc_L (++)) in Hlen |- *. rewrite length_app in Hlen. cbn in Hlen.
    destruct IH as [Hinv1 Hm1]; [done|lia|].
    pose proof (publish_event_step b1 _ ev Hinv1 Hok Hls ltac:(lia)) as Hstep.
    rewrite Hev in Hstep. destruct Hstep as [? Hm2]. split; [done|].
    by rewrite foldl_snoc, <-Hm1.
Qed.
End bus.
