(* ===== verification/TipReader.v ===== *)
(** * TipReader: a process that follows the tip

    Models the follower of the tip bus in [cmd/simbench/main.go]: the start from a
    handshake, the loop of [follow] that applies the events to a tip view over the
    same store ([mem]), and the system of the writing process and this one.

    The reader's store is the writer's: a commit of the writer is seen by the reader
    at once ([ts_commit]), before the event that says so is published.  The writer's
    steps, the reader's and the executors' reads interleave one by one. *)

From S2P Require Import Prelude Schema Lmdb Capture World Store StoreRead StoreReads Reader Mem MemProof Tipbus TipbusProof.

Section reader.
Context {db env : Type} `{Reader db, Lmdb env}.

(** The loop of [follow]: its position, what is left of the events polled, and the
    sequence number it goes on from. *)
Record follower := MkFollower {
  fo_st : State db;
  fo_events : list Event;
  fo_next : u64;
  fo_blocks : u64
}.
Implicit Types f : follower.

Definition set_st f (s : State db) : follower := MkFollower s (fo_events f) (fo_next f) (fo_blocks f).

(** [main]: the tip view over the store, with the layers of the handshake. *)
Definition start (d : db) (bus : env) : result follower :=
  let! st := mem_New d in
  let! hs := Handshake bus in
  let '(_, layers, seq) := hs in
  Ok (MkFollower (foldl ApplyBlock st layers) [] seq u_zero).

(** The body of the loop over events; an error is [log.Fatalf]. *)
Definition follow_event (bus : env) f (ev : Event) : result follower :=
  match ev with
  | EvBlock b => Ok (MkFollower (ApplyBlock (fo_st f) b) (fo_events f) (fo_next f) (u_add (fo_blocks f) (u64_lit 1)))
  | EvFinalize height hash =>
      match st_Finalize (fo_st f) height hash with
      | (Ok _, s) => Ok (set_st f s)
      | (Err _, s) =>
          let! hs := Handshake bus in
          let '(_, layers, seq2) := hs in
          Ok (MkFollower (PreferenceReset s layers) (fo_events f) seq2 (fo_blocks f))
      end
  | EvReset bs => Ok (set_st f (PreferenceReset (fo_st f) bs))
  end.

(** A turn of the outer loop, before any event: [None] is the sleep. *)
Definition follow_poll (bus : env) f : result (option follower) :=
  let! seq := Seq bus in
  if (seq =? fo_next f)%Z then Ok None
  else
    let! p := Poll bus (fo_next f) in
    let '(events, next) := p in
    Ok (Some (MkFollower (fo_st f) events next (fo_blocks f))).

(** The next step of the loop. *)
Definition follow (bus : env) f : result (option follower) :=
  match fo_events f with
  | [] => follow_poll bus f
  | ev :: evs => let! f := follow_event bus (MkFollower (fo_st f) evs (fo_next f) (fo_blocks f)) ev in Ok (Some f)
  end.
End reader.
Arguments follower : clear implicits.
Arguments MkFollower {db} _ _ _ _.
Arguments fo_st {db} _.
Arguments fo_events {db} _.
Arguments fo_next {db} _.
Arguments fo_blocks {db} _.

(** ** The system *)

(** The blocks finalized and the layers after a sequence of events. *)
Definition hist_event (h : list Batch * list Batch) (ev : Event) : list Batch * list Batch :=
  match ev with
  | EvBlock b => (h.1, h.2 ++ [b])
  | EvFinalize _ _ => (h.1 ++ take 1 h.2, tail h.2)
  | EvReset bs => (h.1, bs)
  end.
Definition tip_history (evs : list Event) : list Batch * list Batch := foldl hist_event ([], []) evs.
Arguments tip_history _ : simpl never.

Section system.
Context {db env : Type} `{ReaderLaws db, LmdbLaws env}.
(** The world of the store when the writer opened the bus *)
Context (W0 : world).

(** What the writer keeps to: a finalized block is the oldest layer, and is in the
    store before its event is published. *)
Definition lawful (committed : list Batch) (h : list Batch * list Batch) (ev : Event) : Prop :=
  match ev with
  | EvFinalize height hash =>
      ∃ x, head h.2 = Some x ∧ Block x = height ∧ BHash x = hash ∧ committed !! length h.1 = Some x
  | _ => True
  end.

Definition live_hist (h : list Batch * list Batch) : Prop := live_along (apply_batches W0 h.1) h.2.

(** The bus, the events published and the blocks committed so far, and the reader. *)
Record system := MkSystem {
  sy_bus : Bus env;
  sy_evs : list Event;
  sy_committed : list Batch;
  sy_reader : option (follower db)
}.

Definition see (d : db) (o : option (follower db)) : option (follower db) := (λ f, set_st f (set_db (fo_st f) d)) <$> o.

(** Runs of the system over a store that serves what is committed. *)
Inductive ts_run : system → db → Prop :=
| ts_open e b e' d :
    OpenWriter e = (Ok b, e') → serves d Latest W0 → live W0 → ts_run (MkSystem b [] [] None) d
| ts_publish b evs F o d ev b' :
    ts_run (MkSystem b evs F o) d → event_ok ev → frames_ok (apply_event (bus_mirror b) ev).2 →
    (Z.of_nat (length evs) + 1 < 2 ^ 64)%Z → lawful F (tip_history evs) ev → live_hist (tip_history (evs ++ [ev])) →
    publish_event b ev = (Ok (), b') → ts_run (MkSystem b' (evs ++ [ev]) F o) d
| ts_commit b evs F o d x d' :
    ts_run (MkSystem b evs F o) d → serves d' Latest (apply_batches W0 (F ++ [x])) → live (apply_batches W0 (F ++ [x])) →
    ts_run (MkSystem b evs (F ++ [x]) (see d' o)) d'
| ts_store b evs F o d d' :
    ts_run (MkSystem b evs F o) d → serves d' Latest (apply_batches W0 F) → ts_run (MkSystem b evs F (see d' o)) d'
| ts_start b evs F d f :
    ts_run (MkSystem b evs F None) d → start d (b_env b) = Ok f → ts_run (MkSystem b evs F (Some f)) d
| ts_follow b evs F f d f' :
    ts_run (MkSystem b evs F (Some f)) d → follow (b_env b) f = Ok (Some f') → ts_run (MkSystem b evs F (Some f')) d
| ts_register b evs F f d :
    ts_run (MkSystem b evs F (Some f)) d →
    ts_run (MkSystem b evs F (Some (set_st f (Register (fo_st f) NewSideBuffer)))) d
| ts_account b evs F f d i a r s :
    ts_run (MkSystem b evs F (Some f)) d → with_buffer (fo_st f) i (λ s sb, st_Account s a sb) = Some (r, s) →
    ts_run (MkSystem b evs F (Some (set_st f s))) (s_db s)
| ts_slot b evs F f d i a k r s :
    ts_run (MkSystem b evs F (Some f)) d → with_buffer (fo_st f) i (λ s sb, st_Slot s a k sb) = Some (r, s) →
    ts_run (MkSystem b evs F (Some (set_st f s))) (s_db s)
| ts_code b evs F f d i h r s :
    ts_run (MkSystem b evs F (Some f)) d →
    with_buffer (fo_st f) i (λ s sb, let '(r, sb) := st_Code s h sb in (r, s, sb)) = Some (r, s) →
    ts_run (MkSystem b evs F (Some (set_st f s))) (s_db s).
End system.
Arguments system : clear implicits.
Arguments MkSystem {db env} _ _ _ _.
Arguments sy_bus {db env} _.
Arguments sy_evs {db env} _.
Arguments sy_committed {db env} _.
Arguments sy_reader {db env} _.

(** * A tip view that lags behind its store

    The store a reader looks into may be ahead of its layers: the writer commits a
    block before it says so.  [lag s W C] says that the reader's pins are right for a
    store that has the blocks [C] which the reader does not know to be finalized yet,
    whatever its layers are; when [C] is the bottom of the layers, the view is
    coherent ([lag_coherent]).  Every step of the reader and of the writer keeps it. *)

Section lag.
Context {db : Type} `{ReaderLaws db}.
Implicit Types (s : State db) (W : world) (C : list Batch).

(** The view with the blocks the store is ahead by as its layers. *)
Definition ahead s C : State db := set_layers s (newLayer <$> C).

Record lag s W C : Prop := {
  lag_layers : s_layers s = newLayer <$> batches s;
  lag_pins : coherent (ahead s C) W (length C)
}.

Lemma batches_ahead s C : batches (ahead s C) = C.
Proof. apply layer_batches. Qed.

Lemma lag_coherent s W C : lag s W C → C `prefix_of` batches s → live_along W (batches s) → coherent s W (length C).
Proof.
  intros [Hl Hc] [bs Hbs] Hlive. eapply (relayer_coherent (ahead s C) s W (length C) (batches s)); [done..| | |done].
  - rewrite batches_ahead, Hbs, take_app_length. by rewrite firstn_all.
  - rewrite Hbs, length_app. lia.
Qed.

(** Any change of the layers alone. *)
Lemma lag_relayer s s' W C bs :
  lag s W C → s_db s' = s_db s → s_base s' = s_base s → s_buffers s' = s_buffers s → s_layers s' = newLayer <$> bs →
  lag s' W C ∧ batches s' = bs.
Proof.
  intros [Hl Hc] Hd Hb Hbuf Hls. assert (batches s' = bs) as Hbs by (unfold batches; by rewrite Hls, layer_batches).
  split; [|done]. split; [by rewrite Hbs|].
  destruct (relayer_coherent (ahead s C) (ahead s' C) W (length C) C) as [? _]; try done; [by rewrite batches_ahead|].
  pose proof (coh_live _ _ _ Hc) as Hlive. by rewrite batches_ahead in Hlive.
Qed.

Lemma lag_drain s W C : lag s W C → lag (lockAndDrain s) W C.
Proof. intros [Hl Hc]. split; [done|]. exact (lockAndDrain_coherent _ _ _ Hc). Qed.

Lemma lag_apply s W C b : lag s W C → lag (ApplyBlock s b) W C ∧ batches (ApplyBlock s b) = batches s ++ [b].
Proof.
  intros Hl. apply (lag_relayer (lockAndDrain s)); [by apply lag_drain|done..|].
  cbn. rewrite fmap_app. by rewrite <-(lag_layers _ _ _ Hl).
Qed.

Lemma lag_reset s W C bs : lag s W C → lag (PreferenceReset s bs) W C ∧ batches (PreferenceReset s bs) = bs.
Proof.
  intros Hl. destruct (push_layers (set_layers (lockAndDrain s) []) bs) as (H1 & H2 & H3 & H4).
  apply (lag_relayer (lockAndDrain s)); [by apply lag_drain|done..].
Qed.

Lemma lag_finalize s W C b bs :
  lag s W (b :: C) → batches s = b :: bs →
  ∃ s', st_Finalize s (Block b) (BHash b) = (Ok (), s') ∧ lag s' (apply_batch W b) C ∧ batches s' = bs.
Proof.
  intros [Hl Hc] Hb. rewrite Hb in Hl.
  destruct (Finalize_coherent (ahead s (b :: C)) W (length C) b C Hc (batches_ahead _ _)) as (s1 & Hf & Hc1 & _ & _).
  unfold st_Finalize in *. cbn in Hl, Hf |- *. rewrite Hl. cbn.
  rewrite (proj1 (newLayer_spec b)) in *. rewrite !bool_decide_false in * by tauto.
  injection Hf as <-. eexists. split; [reflexivity|].
  split; [split; cbn|apply layer_batches].
  - f_equal. symmetry. apply layer_batches.
  - destruct Hc1 as [? ? ? ? ? ?]. by split.
Qed.

Lemma lag_commit s W C d x :
  lag s W C → serves d Latest (apply_batches W (C ++ [x])) → live (apply_batches W (C ++ [x])) →
  lag (set_db s d) W (C ++ [x]).
Proof.
  intros [Hl Hc] Hs Hlv. split; [done|]. pose proof (coh_live _ _ _ Hc) as Hlive. rewrite batches_ahead in Hlive.
  destruct (relayer_coherent (ahead s C) (ahead s (C ++ [x])) W (length C) (C ++ [x])) as [Hc' Hb]; try done.
  { rewrite batches_ahead, take_app_length. by rewrite firstn_all. }
  { rewrite length_app. lia. }
  { apply live_along_snoc; [done|]. by rewrite apply_batches_app in Hlv. }
  pose proof (commit_coherent _ _ _ d Hc') as Hcc. rewrite Hb, length_app in *. cbn in Hcc. rewrite Nat.add_1_r in *.
  apply Hcc; [lia|]. unfold stage. rewrite firstn_all2; [done|]. rewrite length_app. cbn. lia.
Qed.

(** ** Reads of a lagging view pin right values *)

Lemma lag_store s W C d : lag s W C → serves d Latest (apply_batches W C) → lag (set_db s d) W C.
Proof.
  intros [Hl [Hcl Hcc Hclv Hcs Hcb Hcbf]] Hs. split; [done|]. rewrite batches_ahead in *.
  split; rewrite ?batches_ahead; try done. unfold stage. by rewrite take_ge by done.
Qed.

Definition pins W C (sb : SideBuffer) : Prop := sb_ok (pinned_acct W C (length C)) (pinned_slot W C (length C)) sb.

Lemma pins_account W C sb d a acct ex :
  pins W C sb → serves d Latest (apply_batches W C) → (rd_GetAccount d a Latest).1 = Ok (acct, ex) →
  pins W C (MkSideBuffer (<[a:=(acct, ex)]> (sb_accounts sb)) (sb_slots sb) (sb_code sb)).
Proof.
  intros Hsb Hs Hr. pose proof (GetAccount_law d a Latest _ Hs) as Hans. rewrite Hr in Hans. cbn in Hans.
  split; [|apply Hsb]. cbn. intros a' e [[<- <-]|[_ ?]]%lookup_insert_Some; [|by apply Hsb].
  eexists. split; [|done]. exists (length C). by rewrite stage_all.
Qed.

Lemma pins_slot W C sb d a k v :
  pins W C sb → serves d Latest (apply_batches W C) → (rd_GetSlot d a k Latest).1 = Ok v →
  pins W C (MkSideBuffer (sb_accounts sb) (<[MkSKey a k:=v]> (sb_slots sb)) (sb_code sb)).
Proof.
  intros Hsb Hs Hr. pose proof (GetSlot_law d a k Latest _ Hs) as Hans. rewrite Hr in Hans. cbn in Hans.
  split; [apply Hsb|]. cbn. intros k' e [[<- <-]|[_ ?]]%lookup_insert_Some; [|by apply Hsb].
  exists (length C). by rewrite stage_all.
Qed.

(** What a read of [s] may do to the handle and the buffer. *)
Definition read_ok {A : Type} W C s (x : result A * State db * SideBuffer) : Prop :=
  x.1.2 = set_db s (s_db x.1.2) ∧ serves (s_db x.1.2) Latest (apply_batches W C) ∧ pins W C x.2.

Lemma read_here {A} W C s sb (r : result A) : serves (s_db s) Latest (apply_batches W C) → pins W C sb → read_ok W C s (r, s, sb).
Proof. intros Hs Hp. split_and!; [by destruct s|done|done]. Qed.

Lemma st_Account_pins W C s a sb : serves (s_db s) Latest (apply_batches W C) → pins W C sb → read_ok W C s (st_Account s a sb).
Proof.
  intros Hs Hp. unfold st_Account. repeat (case_match; [by apply read_here|]).
  pose proof (proj1 (GetAccount_frame (s_db s) a Latest _ Hs) _ _ Hs) as Hs'.
  pose proof (pins_account W C sb (s_db s) a) as Hacc.
  destruct (rd_GetAccount (s_db s) a Latest) as [[[acct ex]|er] d']; cbn in *; split_and!; try done. by apply Hacc.
Qed.

Lemma pin_owner_pins W C s a sb : serves (s_db s) Latest (apply_batches W C) → pins W C sb → read_ok W C s (pin_owner s a sb).
Proof.
  intros Hs Hp. unfold pin_owner. repeat (case_match; [by apply read_here|]).
  pose proof (proj1 (GetAccount_frame (s_db s) a Latest _ Hs) _ _ Hs) as Hs'.
  pose proof (pins_account W C sb (s_db s) a) as Hacc.
  destruct (rd_GetAccount (s_db s) a Latest) as [[[acct ex]|er] d']; cbn in *; split_and!; try done. by apply Hacc.
Qed.

Lemma slot_miss_pins W C s a k sb : serves (s_db s) Latest (apply_batches W C) → pins W C sb → read_ok W C s (slot_miss s a k sb).
Proof.
  intros Hs Hp. unfold slot_miss. case_match; [by apply read_here|].
  pose proof (proj1 (GetSlot_frame (s_db s) a k Latest _ Hs) _ _ Hs) as Hs'.
  pose proof (pins_slot W C sb (s_db s) a k) as Hslot.
  destruct (rd_GetSlot (s_db s) a k Latest) as [[v|er] d']; cbn in *; [|by split_and!].
  pose proof (pin_owner_pins W C (set_db s d') a _ Hs' (Hslot v Hp Hs eq_refl)) as Hpin.
  destruct (pin_owner (set_db s d') a _) as [[r s'] sb']. destruct Hpin as (? & ? & ?). by split_and!.
Qed.

Lemma st_Slot_pins W C s a k sb : serves (s_db s) Latest (apply_batches W C) → pins W C sb → read_ok W C s (st_Slot s a k sb).
Proof.
  intros Hs Hp. unfold st_Slot. repeat case_match; try (by apply read_here); by apply slot_miss_pins.
Qed.

Lemma st_Code_pins W C s h sb :
  serves (s_db s) Latest (apply_batches W C) → pins W C sb → read_ok W C s (let '(r, sb) := st_Code s h sb in (r, s, sb)).
Proof.
  intros Hs Hp. unfold st_Code. repeat case_match; simplify_eq; by apply read_here.
Qed.

Lemma stage_ahead s W C : stage W (batches (ahead s C)) (length C) = apply_batches W C.
Proof. by rewrite batches_ahead, stage_all. Qed.

Lemma lag_serves s W C : lag s W C → serves (s_db s) Latest (apply_batches W C).
Proof. intros [_ Hc]. pose proof (coh_store _ _ _ Hc) as Hs. by rewrite stage_ahead in Hs. Qed.

Lemma lag_buffer {A : Type} s W C i (g : State db → SideBuffer → result A * State db * SideBuffer) r s' :
  lag s W C → (∀ sb, pins W C sb → read_ok W C s (g s sb)) → with_buffer s i g = Some (r, s') →
  lag s' W C ∧ batches s' = batches s.
Proof.
  intros [Hl Hc] Hg. unfold with_buffer. destruct (s_buffers s !! i) as [sb|] eqn:Ei; [|done].
  pose proof Hc as [_ Hj Hlive Hserv Hb Hbuf].
  assert (pins W C sb) as Hsb.
  { eapply Forall_lookup_1 in Hbuf; [|done]. by rewrite batches_ahead in Hbuf. }
  specialize (Hg sb Hsb). destruct (g s sb) as [[r1 s1] sb1]. destruct Hg as (Hs1 & Hsv & Hsb1). cbn in Hs1, Hsv, Hsb1.
  intros [= <- <-]. rewrite Hs1. split; [|done]. split; [done|]. split; try done.
  - by rewrite batches_ahead.
  - by rewrite stage_ahead.
  - rewrite !batches_ahead in *. by apply Forall_insert.
Qed.

Lemma lag_register s W C : lag s W C → lag (Register s NewSideBuffer) W C.
Proof. intros [Hl Hc]. split; [done|]. exact (Register_coherent _ _ _ Hc). Qed.
End lag.

(** ** Histories *)

Lemma history_snoc evs ev : tip_history (evs ++ [ev]) = hist_event (tip_history evs) ev.
Proof. unfold tip_history. by rewrite foldl_app. Qed.

Lemma history_layers evs fin ls F : (foldl hist_event (F, ls) evs).2 = (foldl apply_event (fin, ls) evs).2.
Proof. revert fin ls F. induction evs as [|[] evs IH]; intros fin ls F; cbn; [done|apply IH..]. Qed.

Lemma history_take evs n ev : evs !! n = Some ev → tip_history (take (S n) evs) = hist_event (tip_history (take n evs)) ev.
Proof. intros Hl. by rewrite (take_S_r _ _ ev Hl), history_snoc. Qed.

Lemma history_mono evs n : (tip_history (take n evs)).1 `prefix_of` (tip_history evs).1.
Proof.
  unfold tip_history. rewrite <-(take_drop n evs) at 2. rewrite foldl_app. generalize (foldl hist_event ([], []) (take n evs)) as h.
  induction (drop n evs) as [|ev evs' IH]; intros h; [done|]. cbn. etrans; [|apply IH].
  destruct ev; cbn; [done|by eexists|done].
Qed.

(** The world of the blocks finalized in a history, and the blocks the store is
    ahead by. *)
Definition final_world (W0 : world) (h : list Batch * list Batch) : world := apply_batches W0 h.1.
Definition unseen (F : list Batch) (h : list Batch * list Batch) : list Batch := drop (length h.1) F.

Lemma unseen_world W0 F h : h.1 `prefix_of` F → apply_batches (final_world W0 h) (unseen F h) = apply_batches W0 F.
Proof. intros [C ->]. unfold unseen, final_world. by rewrite drop_app_length, <-apply_batches_app. Qed.

Lemma unseen_snoc F x h : h.1 `prefix_of` F → unseen (F ++ [x]) h = unseen F h ++ [x].
Proof. intros [C ->]. unfold unseen. by rewrite <-app_assoc, !drop_app_length. Qed.

Lemma unseen_live W0 F h : h.1 `prefix_of` F → live_along W0 F → live_along (final_world W0 h) (unseen F h).
Proof.
  intros [C ->] Hl i. specialize (Hl (length h.1 + i)). unfold unseen, final_world, stage in *.
  rewrite drop_app_length. by rewrite firstn_app_2, apply_batches_app in Hl.
Qed.

(** ** The system *)

Section system.
Context {db env : Type} `{ReaderLaws db, LmdbLaws env} (W0 : world).
Implicit Types (f : follower db) (evs : list Event) (F : list Batch).

(** The reader has applied the first [n] events, and holds the next ones. *)
Definition reader_at evs F f (n : nat) : Prop :=
  let h := tip_history (take n evs) in
  n ≤ length evs ∧ uval (fo_next f) = Z.of_nat (n + length (fo_events f)) ∧ fo_events f `prefix_of` drop n evs ∧
  batches (fo_st f) = h.2 ∧ lag (fo_st f) (final_world W0 h) (unseen F h).

Record ts_inv (y : system db env) (d : db) : Prop := {
  ti_bus : bus_inv (sy_bus y) (sy_evs y);
  ti_layers : b_layers (sy_bus y) = (tip_history (sy_evs y)).2;
  ti_prefix : (tip_history (sy_evs y)).1 `prefix_of` sy_committed y;
  ti_lawful n ev : sy_evs y !! n = Some ev → lawful (sy_committed y) (tip_history (take n (sy_evs y))) ev;
  ti_live n : live_hist W0 (tip_history (take n (sy_evs y)));
  ti_store : serves d Latest (apply_batches W0 (sy_committed y));
  ti_store_live : live_along W0 (sy_committed y);
  ti_reader f : sy_reader y = Some f → ∃ n, reader_at (sy_evs y) (sy_committed y) f n
}.

Lemma ti_prefix_at y d n : ts_inv y d → (tip_history (take n (sy_evs y))).1 `prefix_of` sy_committed y.
Proof. intros Hi. etrans; [apply history_mono|]. apply (ti_prefix _ _ Hi). Qed.

(** A step of the reader's that changes nothing else. *)
Lemma reader_step b evs F o o' d d' :
  ts_inv (MkSystem b evs F o) d → serves d' Latest (apply_batches W0 F) →
  (∀ f, o' = Some f → ∃ n, reader_at evs F f n) → ts_inv (MkSystem b evs F o') d'.
Proof. intros [] Hd Hr. by split. Qed.

Lemma reader_view evs F f n s :
  reader_at evs F f n → lag s (final_world W0 (tip_history (take n evs))) (unseen F (tip_history (take n evs))) →
  batches s = batches (fo_st f) → reader_at evs F (set_st f s) n.
Proof. intros (? & ? & ? & ? & ?) Hl Hb. split_and!; cbn; try done. by rewrite Hb. Qed.

Lemma open_inv e b e' d : OpenWriter e = (Ok b, e') → serves d Latest W0 → live W0 → ts_inv (MkSystem b [] [] None) d.
Proof.
  intros Ho Hs Hl. pose proof (OpenWriter_cases e) as Hc. rewrite Ho in Hc. destruct Hc as (Hb & Hm & _).
  split; cbn; try done.
  - by injection Hm.
  - intros n i. rewrite take_nil. unfold stage, tip_history. cbn. by rewrite take_nil.
  - intros i. unfold stage. by rewrite take_nil.
Qed.

Lemma publish_keeps b evs F o d ev b' :
  ts_inv (MkSystem b evs F o) d → event_ok ev → frames_ok (apply_event (bus_mirror b) ev).2 →
  (Z.of_nat (length evs) + 1 < 2 ^ 64)%Z → lawful F (tip_history evs) ev → live_hist W0 (tip_history (evs ++ [ev])) →
  publish_event b ev = (Ok (), b') → ts_inv (MkSystem b' (evs ++ [ev]) F o) d.
Proof.
  intros [Hb Hly Hpre Hlaw Hlive Hs Hsl Hr] Hok Hfr Hlen Hlw Hlv Hp. cbn in *.
  pose proof (publish_event_step b evs ev Hb Hok Hfr Hlen) as Hst. rewrite Hp in Hst. destruct Hst as [Hb' Hm].
  split; cbn; try done.
  - rewrite history_snoc. apply (f_equal snd) in Hm. unfold bus_mirror in Hm. cbn in Hm. rewrite Hm, Hly.
    by destruct ev.
  - rewrite history_snoc. destruct ev as [|height hash|]; cbn; try done. destruct Hlw as (x & Hx & _ & _ & HF).
    destruct (tip_history evs) as [Fe [|y L]]; cbn in *; [done|]. injection Hx as ->. destruct Hpre as [[|z C] ->].
    { rewrite app_nil_r in HF. apply lookup_lt_Some in HF.  lia. }
    rewrite list_lookup_middle in HF by done. injection HF as ->. exists C. by rewrite <-app_assoc.
  - intros n ev' Hn. destruct (decide (n < length evs)) as [Hlt|Hge].
    { rewrite take_app_le by lia. apply Hlaw. by rewrite lookup_app_l in Hn. }
    rewrite lookup_app_r in Hn by lia. apply list_lookup_singleton_Some in Hn as [Hn <-].
    assert (n = length evs) as -> by lia. by rewrite take_app_length.
  - intros n. destruct (decide (n ≤ length evs)); [by rewrite take_app_le|]. by rewrite take_ge by (rewrite length_app; cbn; lia).
  - intros f Hf. destruct (Hr f Hf) as (n & Hn & Hnx & Hpr & Hbs & Hlag). exists n. unfold reader_at.
    rewrite take_app_le, drop_app_le, length_app by done. split_and!; [lia|done| |done|done].
    etrans; [done|]. by eexists.
Qed.

Lemma commit_keeps b evs F o d x d' :
  ts_inv (MkSystem b evs F o) d → serves d' Latest (apply_batches W0 (F ++ [x])) → live (apply_batches W0 (F ++ [x])) →
  ts_inv (MkSystem b evs (F ++ [x]) (see d' o)) d'.
Proof.
  intros Hi Hs' Hlv. pose proof (λ n, ti_prefix_at _ _ n Hi) as Hpa. destruct Hi as [Hb Hly Hpre Hlaw Hlive Hs Hsl Hr]. cbn in *.
  split; cbn; try done.
  - etrans; [done|]. by eexists.
  - intros n ev Hn. specialize (Hlaw n ev Hn). destruct ev as [|height hash|]; cbn in *; try done.
    destruct Hlaw as (y & ? & ? & ? & Hy). exists y. split_and!; try done. by apply lookup_app_l_Some.
  - apply live_along_snoc; [done|]. by rewrite apply_batches_app in Hlv.
  - intros f Hf. destruct o as [f0|]; [|done]. injection Hf as <-. destruct (Hr f0 eq_refl) as (n & Hn & Hnx & Hpr & Hbs & Hlag).
    exists n. unfold reader_at. specialize (Hpa n). split_and!; try done. rewrite unseen_snoc by done. apply lag_commit; [done| |].
    + by rewrite apply_batches_app, unseen_world, <-apply_batches_app.
    + by rewrite apply_batches_app, unseen_world, <-apply_batches_app.
Qed.

(** A write to the store that changes no read, such as that of the watermark. *)
Lemma store_keeps b evs F o d d' :
  ts_inv (MkSystem b evs F o) d → serves d' Latest (apply_batches W0 F) → ts_inv (MkSystem b evs F (see d' o)) d'.
Proof.
  intros Hi Hs'. pose proof (λ n, ti_prefix_at _ _ n Hi) as Hpa. apply (reader_step b evs F o _ d); [done..|].
  intros f Hf. destruct o as [f0|]; [|done]. injection Hf as <-. destruct (ti_reader _ _ Hi f0 eq_refl) as [n Hr]. exists n.
  apply reader_view; [done| |done]. destruct Hr as (_ & _ & _ & _ & Hlag). specialize (Hpa n). cbn in Hpa.
  by apply lag_store; [|rewrite unseen_world].
Qed.

(** ** The reader's steps *)

Lemma new_lag d s W C : mem_New d = Ok s → serves d Latest (apply_batches W C) → live_along W C → lag s W C ∧ batches s = [].
Proof.
  unfold mem_New. destruct (rd_Finalized d); [|done]. intros [= <-] Hs Hl. split; [|done]. split; [done|].
  split; rewrite ?stage_ahead, ?batches_ahead; done.
Qed.

Lemma lag_applies s W C bs : lag s W C → lag (foldl ApplyBlock s bs) W C ∧ batches (foldl ApplyBlock s bs) = batches s ++ bs.
Proof.
  revert s. induction bs as [|b bs IH]; intros s Hl; cbn; [by rewrite app_nil_r|].
  destruct (lag_apply s W C b Hl) as [Hl' Hb]. destruct (IH _ Hl') as [? ->]. by rewrite Hb, <-app_assoc.
Qed.

Lemma start_reader b evs F d f :
  ts_inv (MkSystem b evs F None) d → start d (b_env b) = Ok f → ∃ n, reader_at evs F f n.
Proof.
  intros Hi Hs. pose proof (ti_prefix_at _ _ (length evs) Hi) as Hpre. destruct Hi as [Hb Hly _ _ _ Hst Hsl _]. cbn in *.
  unfold start in Hs. destruct (mem_New d) as [s|] eqn:En; [|done]. cbn in Hs.
  pose proof (Handshake_upto b evs Hb) as Hh. destruct (Handshake (b_env b)) as [[[fin layers] seq]|]; [|done].
  destruct Hh as [Hh|?]; [|naive_solver]. injection Hh as -> -> ->. injection Hs as <-.
  exists (length evs). unfold reader_at. rewrite !firstn_all in *. cbn [fo_next fo_events fo_st]. rewrite <-Hly.
  destruct (new_lag d s (final_world W0 (tip_history evs)) (unseen F (tip_history evs)) En) as [Hl He];
    [by rewrite unseen_world|by apply unseen_live|].
  destruct (lag_applies s _ _ (b_layers b) Hl) as [Hl' Hbs]. rewrite He in Hbs.
  split_and!; try done; [|apply prefix_nil]. rewrite (bi_seq _ _ Hb). cbn. lia.
Qed.

Lemma poll_reader b evs F f n f' :
  bus_inv b evs → reader_at evs F f n → fo_events f = [] → follow_poll (b_env b) f = Ok (Some f') → reader_at evs F f' n.
Proof.
  intros Hb (Hn & Hnx & _ & Hbs & Hlag) He. rewrite He in Hnx. unfold follow_poll. pose proof (bi_seq _ _ Hb) as Hseq.
  destruct (Seq (b_env b)) as [seq|]; [|done]. cbn. destruct (seq =? fo_next f)%Z; [done|].
  pose proof (Poll_upto b evs (fo_next f) Hb) as Hp. destruct (Poll (b_env b) (fo_next f)) as [[events next]|]; [|done].
  destruct Hp as [Hp|?]; [|naive_solver]. cbn in Hnx. rewrite Nat.add_0_r in Hnx.
  rewrite (proj2 (Z.leb_le _ _)) in Hp by lia. rewrite Hnx, Nat2Z.id in Hp. intros [= <-]. injection Hp as -> ->.
  split_and!; cbn; try done. rewrite Hseq, length_drop. lia.
Qed.

(** An event taken from the bus is applied without a resync. *)
Lemma event_reader b evs F o d f n ev rest bus :
  ts_inv (MkSystem b evs F o) d → reader_at evs F f n → fo_events f = ev :: rest →
  ∃ f', follow_event bus (MkFollower (fo_st f) rest (fo_next f) (fo_blocks f)) ev = Ok f' ∧
    fo_events f' = rest ∧ fo_next f' = fo_next f ∧ reader_at evs F f' (S n).
Proof.
  intros Hi (Hn & Hnx & Hpr & Hbs & Hlag) He. pose proof (ti_lawful _ _ Hi n ev) as Hlaw. cbn in Hlaw.
  rewrite He in Hnx, Hpr. destruct Hpr as [more Hd].
  assert (evs !! n = Some ev) as Hev by (rewrite <-(Nat.add_0_r n), <-lookup_drop, Hd; done).
  assert (drop (S n) evs = rest ++ more) as Hd' by (rewrite <-Nat.add_1_r, <-drop_drop, Hd; done).
  specialize (Hlaw Hev). pose proof (lookup_lt_Some _ _ _ Hev).
  assert (∀ s bl, batches s = (tip_history (take (S n) evs)).2 →
    lag s (final_world W0 (tip_history (take (S n) evs))) (unseen F (tip_history (take (S n) evs))) →
    reader_at evs F (MkFollower s rest (fo_next f) bl) (S n)) as Hmk.
  { intros s bl Hb Hl. split_and!; cbn in *; try done; [lia|]. rewrite Hd'. by eexists. }
  rewrite (history_take _ _ _ Hev) in Hmk. destruct ev as [x|height hash|bs]; cbn [follow_event fo_st fo_events fo_next fo_blocks].
  - eexists. split; [reflexivity|]. split_and!; [done..|]. destruct (lag_apply _ _ _ x Hlag) as [Hl Hb]. apply Hmk; [|done].
    by rewrite Hb, Hbs.
  - destruct Hlaw as (x & Hx & <- & <- & HF). destruct (tip_history (take n evs)) as [Fn L]. cbn in Hx, HF, Hbs.
    destruct L as [|x' L]; [done|]. injection Hx as ->.
    destruct (lag_finalize (fo_st f) (final_world W0 (Fn, x :: L)) (drop (S (length Fn)) F) x L) as (s' & -> & Hl & Hb); [|done|].
    { unfold unseen in Hlag. cbn in Hlag. by rewrite (drop_S _ _ _ HF) in Hlag. }
    eexists. split; [reflexivity|]. split_and!; [done..|]. apply Hmk; [done|]. cbn. unfold final_world, unseen. cbn.
    rewrite apply_batches_app, length_app. cbn. by rewrite Nat.add_1_r.
  - eexists. split; [reflexivity|]. split_and!; [done..|]. destruct (lag_reset _ _ _ bs Hlag) as [Hl Hb]. by apply Hmk.
Qed.

Lemma follow_keeps b evs F f d f' :
  ts_inv (MkSystem b evs F (Some f)) d → follow (b_env b) f = Ok (Some f') → ts_inv (MkSystem b evs F (Some f')) d.
Proof.
  intros Hi Hf. destruct (ti_reader _ _ Hi f eq_refl) as [n Hr]. pose proof (ti_store _ _ Hi) as Hs. cbn in *.
  apply (reader_step b evs F (Some f) _ d d); [done..|]. intros f1 [= <-]. unfold follow in Hf.
  destruct (fo_events f) as [|ev rest] eqn:He.
  - exists n. eapply poll_reader; [apply (ti_bus _ _ Hi)|done..].
  - destruct (event_reader b evs F (Some f) d f n ev rest (b_env b) Hi Hr He) as (f1 & Hev & _ & _ & Hr1).
    rewrite Hev in Hf. cbn in Hf. injection Hf as <-. by exists (S n).
Qed.

Lemma read_keeps {A : Type} b evs F f d i (g : State db → SideBuffer → result A * State db * SideBuffer) r s :
  ts_inv (MkSystem b evs F (Some f)) d →
  (∀ W C sb, serves (s_db (fo_st f)) Latest (apply_batches W C) → pins W C sb → read_ok W C (fo_st f) (g (fo_st f) sb)) →
  with_buffer (fo_st f) i g = Some (r, s) → ts_inv (MkSystem b evs F (Some (set_st f s))) (s_db s).
Proof.
  intros Hi Hg Hw. destruct (ti_reader _ _ Hi f eq_refl) as [n Hr]. pose proof (ti_prefix_at _ _ n Hi) as Hpre. cbn in *.
  pose proof Hr as (_ & _ & _ & _ & Hlag).
  destruct (lag_buffer (fo_st f) _ _ i g r s Hlag (λ sb, Hg _ _ sb (lag_serves _ _ _ Hlag)) Hw) as [Hl Hb].
  apply (reader_step b evs F (Some f) _ d _); [done| |].
  - apply lag_serves in Hl. by rewrite unseen_world in Hl.
  - intros f1 [= <-]. exists n. by apply reader_view.
Qed.

Lemma ts_run_inv y d : ts_run W0 y d → ts_inv y d.
Proof.
  induction 1; [by eapply open_inv|by eapply publish_keeps|by eapply commit_keeps|by eapply store_keeps| |by eapply follow_keeps| | | |].
  - apply (reader_step b evs F None _ d d); [done|apply (ti_store _ _ IHts_run)|]. intros f1 [= <-]. by eapply start_reader.
  - destruct (ti_reader _ _ IHts_run f eq_refl) as [n Hr]. apply (reader_step b evs F (Some f) _ d d); [done|apply (ti_store _ _ IHts_run)|].
    intros f1 [= <-]. exists n. apply reader_view; [done| |done]. apply lag_register. apply Hr.
  - eapply read_keeps; [done| |done]. intros W C sb. apply st_Account_pins.
  - eapply read_keeps; [done| |done]. intros W C sb. apply st_Slot_pins.
  - eapply read_keeps; [done| |done]. intros W C sb. apply st_Code_pins.
Qed.

(** *** What the reader sees *)

Lemma ts_reader_goes b evs F o d f n ev rest bus :
  ts_inv (MkSystem b evs F o) d → reader_at evs F f n → fo_events f = ev :: rest →
  ∃ f', follow (env:=env) bus f = Ok (Some f') ∧ fo_events f' = rest ∧ fo_next f' = fo_next f.
Proof.
  intros Hi Hn He. destruct (event_reader b evs F _ d f n ev rest bus Hi Hn He) as (f' & Hf & ? & ? & _).
  exists f'. unfold follow. rewrite He, Hf. by split_and!.
Qed.

Lemma ts_reader_reads b evs F o d f n :
  ts_inv (MkSystem b evs F o) d → reader_at evs F f n →
  let '(Fn, L) := tip_history (take n evs) in
  drop (length Fn) F `prefix_of` L → ∀ i a k,
  match with_buffer (fo_st f) i (λ s sb, st_Account s a sb), with_buffer (fo_st f) i (λ s sb, st_Slot s a k sb) with
  | Some (ra, _), Some (rs, _) =>
      answers rd_faulty ra (account_answer (w_acct (apply_batches W0 (Fn ++ L)) a)) ∧
      answers rd_faulty rs (w_slot (apply_batches W0 (Fn ++ L)) a k)
  | _, _ => length (s_buffers (fo_st f)) ≤ i
  end.
Proof.
  intros Hi (Hle & Hnx & _ & Hb & Hlag). pose proof (ti_live _ _ Hi n) as Hlive. cbn [sy_evs] in Hlive.
  destruct (tip_history (take n evs)) as [Fn L]. cbn [snd] in Hb. intros Hp i a k. rewrite <-Hb in Hp.
  pose proof (lag_coherent _ _ _ Hlag Hp) as Hc. unfold live_hist in Hlive. cbn in Hlive. rewrite <-Hb in Hlive. specialize (Hc Hlive).
  pose proof (with_buffer_account _ _ _ i a Hc) as Ha. pose proof (with_buffer_slot _ _ _ i a k Hc) as Hs.
  assert (tip_world (fo_st f) (final_world W0 (Fn, L)) = apply_batches W0 (Fn ++ L)) as Ht
    by (unfold tip_world, final_world; by rewrite Hb, apply_batches_app).
  rewrite Ht in Ha, Hs. destruct (with_buffer _ i _) as [[ra ?]|]; [|done]. destruct (with_buffer _ i _) as [[rs ?]|]; [|done].
  by destruct Ha, Hs.
Qed.
End system.
