(* ===== verification/Replay.v ===== *)
(** * Replay: walking history block by block

    Models [replay/replay.go]: a session over the store that pins what it reads
    and advances by the stored diffs.  Over a store that serves a history (the
    worlds of a chain of consecutive blocks above a baseline) a session at
    height [B] answers the world at [B], however it got there. *)

From S2P Require Import Prelude Schema Capture World Store StoreProof StoreReads Reader Mem.
From S2P Require Import MemProof.

Record Session (db : Type) := MkSession {
  ss_db : db;
  ss_m : Map;
  ss_block : u64
}.
Arguments MkSession {db} _ _ _.
Arguments ss_db {db} _.
Arguments ss_m {db} _.
Arguments ss_block {db} _.

Section replay.
Context {db : Type} `{Reader db}.
Implicit Types s : Session db.

Definition ss_Open (d : db) (startBlock : u64) : result (Session db) * db :=
  let '(r, d) := rd_Genesis d in
  match r with
  | Err e => (Err e, d)
  | Ok None => (Err ErrNoGenesis, d)
  | Ok (Some g) =>
      if (startBlock <? g)%Z then (Err ErrBelowGenesis, d)
      else (Ok (MkSession d NewMap startBlock), d)
  end.

Definition ss_Block s : u64 := ss_block s.

(** [Ok None] is [(nil, nil)]: caught up. *)
Definition ss_Next s : result (option Batch) * Session db :=
  match rd_GetDiff (ss_db s) (u_add (ss_block s) (wrap 1)) with
  | Err ErrNotFound => (Ok None, s)
  | Err e => (Err e, s)
  | Ok diff => (Ok (Some diff), MkSession (ss_db s) (Apply (ss_m s) diff) (Block diff))
  end.

Definition ss_Account s (addr : Address) : result (Account * bool) * Session db :=
  match map_Account (ss_m s) addr with
  | Some a => (Ok (ToSchema a, m_Exists a), s)
  | None =>
      let '(r, d) := rd_GetAccount (ss_db s) addr (ss_block s) in
      match r with
      | Err e => (Err e, MkSession d (ss_m s) (ss_block s))
      | Ok (acct, exists_) =>
          (Ok (acct, exists_),
           MkSession d (PinAccount (ss_m s) addr (Some acct) exists_).1 (ss_block s))
      end
  end.

(** The tail of [Slot]: fetch and pin; [PinSlot] panics on an unknown account. *)
Definition slot_fetch s (addr : Address) (slot : Hash) : result Hash * Session db :=
  let '(r, d) := rd_GetSlot (ss_db s) addr slot (ss_block s) in
  match r with
  | Err e => (Err e, MkSession d (ss_m s) (ss_block s))
  | Ok v =>
      match PinSlot (ss_m s) addr slot v with
      | Some m => (Ok v, MkSession d m (ss_block s))
      | None => (Err (ErrMsg "panic"), MkSession d (ss_m s) (ss_block s))
      end
  end.

Definition ss_Slot s (addr : Address) (slot : Hash) : result Hash * Session db :=
  match map_Account (ss_m s) addr with
  | Some a =>
      if negb (m_Exists a) then (Ok arr_zero, s)
      else match m_Storage a !! slot with
           | Some v => (Ok v, s)
           | None => slot_fetch s addr slot
           end
  | None =>
      match ss_Account s addr with
      | (Err e, s) => (Err e, s)
      | (Ok _, s) => slot_fetch s addr slot
      end
  end.

Definition ss_Code s (hash : Hash) : result bytes * Session db :=
  match map_Code (ss_m s) hash with
  | Some c => (Ok c, s)
  | None =>
      match rd_GetCode (ss_db s) hash with
      | Err e => (Err e, s)
      | Ok c => (Ok c, MkSession (ss_db s) (PinCode (ss_m s) hash c) (ss_block s))
      end
  end.
End replay.

Section history.
Context {db : Type} `{ReaderLaws db}.
Implicit Types s : Session db.

(** Block [S+1], [S+2], ... *)
Definition consecutive (S : u64) (bs : list Batch) : Prop :=
  ∀ i b, bs !! i = Some b → uval (Block b) = (S + 1 + Z.of_nat i)%Z.

Definition block_at (S : u64) (bs : list Batch) (B : u64) : option Batch :=
  bs !! Z.to_nat (B - S - 1).

(** [d] holds the history of the consecutive blocks [bs] above the baseline
    world [base] at [S]. *)
Record history (d : db) (S : u64) (base : world) (bs : list Batch) : Prop := {
  h_based : based d S;
  h_consecutive : consecutive S bs;
  h_serves (B : u64) : (S ≤ B)%Z → serves d B (world_at base bs B);
  h_archives (B : u64) : (S < B)%Z → archives d B (block_at S bs B);
  h_live (B : u64) : (S ≤ B)%Z → live (world_at base bs B)
}.

Lemma world_at_consecutive S bs base (B : u64) :
  consecutive S bs → world_at base bs B = apply_batches base (take (Z.to_nat (B - S)) bs).
Proof.
  intros Hc. induction bs as [|b bs IH] using rev_ind.
  { by rewrite take_nil. }
  rewrite world_at_snoc, IH; cycle 1.
  { intros i b' Hi. apply Hc. by apply lookup_app_l_Some. }
  pose proof (Hc (length bs) b ltac:(by rewrite lookup_app_r, Nat.sub_diag)) as Hb.
  destruct (Z.leb_spec (Block b) B).
  - rewrite (take_ge bs), (take_ge (bs ++ [b])) by (rewrite ?length_app; cbn; lia).
    unfold apply_batches. by rewrite foldl_snoc.
  - by rewrite take_app_le by lia.
Qed.

(** The block after [B] carries the world from [B] to the next height. *)
Lemma world_at_next S bs base (B : u64) b :
  consecutive S bs → (S ≤ B)%Z → (uval B + 1 < 2 ^ 64)%Z →
  block_at S bs (u_add B (wrap 1)) = Some b →
  uval (Block b) = (B + 1)%Z ∧
  world_at base bs (Block b) = apply_batch (world_at base bs B) b.
Proof.
  intros Hc HB Hmax Hb. unfold block_at in Hb.
  assert (uval (u_add B (wrap 1)) = uval B + 1)%Z as Hn.
  { unfold u_add. rewrite (wrap_small 1) by lia. rewrite wrap_small; [done|]. ulia. }
  rewrite Hn in Hb. pose proof (Hc _ _ Hb) as Hblk. split; [lia|].
  rewrite !(world_at_consecutive S) by done.
  replace (Z.to_nat (Block b - S)) with (Datatypes.S (Z.to_nat (B - S))) by lia.
  replace (Z.to_nat (B + 1 - S - 1)) with (Z.to_nat (B - S)) in Hb by lia.
  rewrite (take_S_r _ _ _ Hb). unfold apply_batches. by rewrite foldl_snoc.
Qed.

Definition exact_acct (w : world) (a : Address) (o : option Account) : Prop := o = w_acct w a.
Definition exact_slot (w : world) (a : Address) (k v : Hash) : Prop := v = w_slot w a k.

(** The session's map agrees with the world of its height. *)
Definition session_ok s (S : u64) (base : world) (bs : list Batch) : Prop :=
  history (ss_db s) S base bs ∧ (S ≤ ss_block s)%Z ∧
  base_ok (exact_acct (world_at base bs (ss_block s))) (exact_slot (world_at base bs (ss_block s)))
    (ss_m s).

Lemma history_same d d' S base bs :
  (∀ B w, serves d B w → serves d' B w) ∧ (∀ B o, archives d B o → archives d' B o) ∧
  (∀ S, based d S → based d' S) →
  history d S base bs → history d' S base bs.
Proof. intros (Hs & Ha & Hb) []. split; eauto. Qed.

Lemma Open_spec d S base bs B :
  history d S base bs →
  match ss_Open d B with
  | (Ok s, _) => (S ≤ B)%Z ∧ session_ok s S base bs ∧ ss_block s = B
  | (Err e, _) => (B < S)%Z ∧ e = ErrBelowGenesis ∨ rd_faulty
  end.
Proof.
  intros Hh. unfold ss_Open. pose proof (h_based _ _ _ _ Hh) as Hb.
  pose proof (Genesis_law d S Hb) as Hg. pose proof (Genesis_frame d S Hb) as Hf.
  destruct (rd_Genesis d) as [[o|e] d']; cbn [fst snd answers] in *; [|by right].
  subst o. destruct (Z.ltb_spec B S); [by left|]. split_and!; [done| |done].
  split_and!; [by eapply history_same|done|]. intros a x. cbn. by rewrite lookup_empty.
Qed.

Lemma PinAccount_ok PA PS m a o :
  base_ok PA PS m → PA a o → m_accounts m !! a = None →
  base_ok PA PS (PinAccount m a (Some (account_answer o).1) (account_answer o).2).1.
Proof.
  intros Hm Ho Hn. unfold PinAccount. rewrite Hn. cbn [fst].
  intros a' x Hx. cbn in Hx. apply lookup_insert_Some in Hx as [[<- <-]|[_ Hx]]; [|by apply Hm].
  split; [|by destruct o; intros k v; cbn; rewrite lookup_empty].
  exists o. split; [done|]. by destruct o as [[]|].
Qed.

Lemma ss_Account_spec s S base bs a :
  session_ok s S base bs →
  answers rd_faulty (ss_Account s a).1 (account_answer (w_acct (world_at base bs (ss_block s)) a)) ∧
  session_ok (ss_Account s a).2 S base bs ∧ ss_block (ss_Account s a).2 = ss_block s ∧
  ((∃ x, (ss_Account s a).1 = Ok x) → is_Some (m_accounts (ss_m (ss_Account s a).2) !! a)).
Proof.
  intros Hok. pose proof Hok as (Hh & HB & Hm). unfold ss_Account, map_Account.
  destruct (m_accounts (ss_m s) !! a) as [x|] eqn:Ex.
  { destruct (Hm a x Ex) as [(o & -> & Hx) _]. by split_and!. }
  pose proof (h_serves _ _ _ _ Hh _ HB) as Hs.
  pose proof (GetAccount_law _ a _ _ Hs) as Hans.
  pose proof (history_same _ _ _ _ _ (GetAccount_frame _ a _ _ Hs) Hh) as Hh'.
  destruct (rd_GetAccount (ss_db s) a (ss_block s)) as [[[acct ex]|e] d']; cbn [fst snd answers] in *.
  - pose proof (PinAccount_ok _ _ _ a (w_acct (world_at base bs (ss_block s)) a) Hm eq_refl Ex) as Hp.
    rewrite <-Hans in Hp. split_and!; [done..|]. intros _. cbn [ss_m].
    unfold PinAccount. rewrite Ex. cbn. by rewrite lookup_insert_eq.
  - split_and!; [done..|]. by intros [??].
Qed.

Lemma slot_fetch_spec s S base bs a k :
  session_ok s S base bs → is_Some (m_accounts (ss_m s) !! a) →
  answers rd_faulty (slot_fetch s a k).1 (w_slot (world_at base bs (ss_block s)) a k) ∧
  session_ok (slot_fetch s a k).2 S base bs ∧ ss_block (slot_fetch s a k).2 = ss_block s.
Proof.
  intros (Hh & HB & Hm) [x Hx]. unfold slot_fetch.
  pose proof (h_serves _ _ _ _ Hh _ HB) as Hs.
  pose proof (GetSlot_law _ a k _ _ Hs) as Hans.
  pose proof (history_same _ _ _ _ _ (GetSlot_frame _ a k _ _ Hs) Hh) as Hh'.
  destruct (rd_GetSlot (ss_db s) a k (ss_block s)) as [[v|e] d']; cbn [fst snd answers] in *;
    [|by split_and!].
  pose proof (drain_slot_ok _ _ _ (MkSKey a k) v Hm Hans) as Hp.
  unfold drain_slot in Hp. rewrite Hx in Hp. unfold PinSlot in *. rewrite Hx in *.
  destruct (m_Storage x !! k); by split_and!.
Qed.

Lemma ss_Slot_spec s S base bs a k :
  session_ok s S base bs →
  answers rd_faulty (ss_Slot s a k).1 (w_slot (world_at base bs (ss_block s)) a k) ∧
  session_ok (ss_Slot s a k).2 S base bs ∧ ss_block (ss_Slot s a k).2 = ss_block s.
Proof.
  intros Hok. pose proof Hok as (Hh & HB & Hm). unfold ss_Slot, map_Account.
  destruct (m_accounts (ss_m s) !! a) as [x|] eqn:Ex.
  - destruct (Hm a x Ex) as [(o & -> & Hx) Hst]. destruct (m_Exists x) eqn:Ee; cbn [negb].
    + destruct (m_Storage x !! k) as [v|] eqn:Ek; [|apply slot_fetch_spec; by eauto].
      by rewrite (Hst k v Ek).
    + split_and!; [|done..]. cbn. symmetry. apply (h_live _ _ _ _ Hh _ HB).
      destruct (w_acct _ a); [discriminate Hx|done].
  - destruct (ss_Account_spec s S base bs a Hok) as (Hans & Hok' & Hblk & Hpin).
    destruct (ss_Account s a) as [[x|e] s']; cbn [fst snd] in *; [|by split_and!].
    rewrite <-Hblk. apply slot_fetch_spec; eauto.
Qed.

(** Advancing: the next height, caught up, or a store fault. *)
Lemma ss_Next_spec s S base bs :
  session_ok s S base bs → (uval (ss_block s) + 1 < 2 ^ 64)%Z →
  match ss_Next s with
  | (Ok (Some b), s') =>
      block_at S bs (u_add (ss_block s) (wrap 1)) = Some b ∧ session_ok s' S base bs ∧
      uval (ss_block s') = (ss_block s + 1)%Z
  | (Ok None, s') => s' = s ∧ (block_at S bs (u_add (ss_block s) (wrap 1)) = None ∨ rd_faulty)
  | (Err e, s') => s' = s ∧ rd_faulty
  end.
Proof.
  intros (Hh & HB & Hm) Hmax. unfold ss_Next.
  assert (uval (u_add (ss_block s) (wrap 1)) = uval (ss_block s) + 1)%Z as Hn.
  { unfold u_add. rewrite (wrap_small 1) by lia. rewrite wrap_small; [done|]. ulia. }
  pose proof (h_archives _ _ _ _ Hh (u_add (ss_block s) (wrap 1)) ltac:(lia)) as Ha.
  destruct (block_at S bs (u_add (ss_block s) (wrap 1))) as [b|] eqn:Eb.
  - pose proof (GetDiff_law _ _ _ Ha) as Hd.
    destruct (rd_GetDiff _ _) as [b'|e]; cbn in Hd; [subst b'|by destruct e; eauto].
    destruct (world_at_next S bs base (ss_block s) b) as [Hb Hw]; [apply Hh|done..|].
    split_and!; [done| |done]. split_and!; [done|cbn; lia|]. cbn [ss_m ss_block]. rewrite Hw.
    eapply Apply_ok; [..|exact Hm].
    + intros a o ->. unfold exact_acct. by rewrite apply_batch_acct.
    + intros a k v ->. unfold exact_slot. by rewrite apply_batch_slot.
  - pose proof (GetDiff_none_law _ _ Ha) as Hd.
    destruct (rd_GetDiff _ _) as [b'|e]; [done|]. destruct Hd as [->|Hf]; [by eauto|].
    destruct e; by eauto.
Qed.
End history.
