(* ===== verification/Sessions.v ===== *)
(** * Sessions: replay over a real archive

    The store that has stored a run of consecutive blocks above its baseline is
    a history in the sense of [Replay]; a run of a session over it is a sequence
    of its calls. *)

From S2P Require Import Prelude Schema Lmdb Capture World Store StoreRead StoreSpec StoreProof.
From S2P Require Import StoreReads StoreWrites Reader Mem MemProof Replay.

Section archive.
Context {env : Type} `{LmdbLaws env} (keccak : bytes → Hash).
#[local] Instance archive_reader : Reader (DB env) := db_reader keccak.
#[local] Instance archive_reader_laws : ReaderLaws (DB env) := db_reader_laws keccak.

Lemma write_all_diff m S bs h (B : u64) :
  chain S bs h → consecutive S bs → fresh_above m S → (S < B)%Z →
  match block_at S bs B with
  | Some b => write_all m bs !! key_bytes (KDiff B) = Encode b [] ∧ encodable b
  | None => write_all m bs !! key_bytes (KDiff B) = None
  end.
Proof.
  intros Hch. induction Hch as [|bs h b Hch IH Hlt Henc Hcon]; intros Hc Hf HB.
  { unfold block_at. rewrite lookup_nil. by apply (Hf (KDiff B) B). }
  assert (consecutive S bs) as Hc'.
  { intros i x Hx. apply Hc. by apply lookup_app_l_Some. }
  specialize (IH Hc' Hf HB).
  assert (uval (Block b) = (S + 1 + Z.of_nat (length bs))%Z) as Hb.
  { apply Hc. apply list_lookup_middle. done. }
  unfold write_all. rewrite foldl_snoc. fold (write_all m bs).
  destruct (decide (Block b = B)) as [<-|Hne].
  - unfold block_at. rewrite Hb. replace (Z.to_nat _) with (length bs) by lia.
    rewrite list_lookup_middle by done. split; [|done].
    unfold block_rows. rewrite lookup_insert_eq.
    by destruct (Encode_total b Henc) as [v ->].
  - rewrite lookup_block_rows_frame; [|cbn; congruence|done].
    assert (block_at S (bs ++ [b]) B = block_at S bs B) as ->; [|done].
    unfold block_at. destruct (decide (Z.to_nat (B - S - 1) < length bs)) as [Hl|Hl].
    { by rewrite lookup_app_l. }
    rewrite lookup_app_r, (lookup_ge_None_2 bs) by lia. apply lookup_ge_None_2. cbn [length].
    assert (uval B ≠ uval (Block b)) by (intros E; apply Hne; by apply uint_eq).
    lia.
Qed.

Lemma write_blocks_history (d : DB env) S bs h d' :
  served (rows d) S → cache_ok d → fresh_above (rows d) S → chain S bs h → consecutive S bs →
  (∀ B : u64, (S ≤ B)%Z → live (world_at (db_world keccak (rows d) S) bs B)) →
  write_blocks d bs = (Ok (), d') →
  history d' S (db_world keccak (rows d) S) bs.
Proof.
  intros Hs Hc Hf Hch Hcon Hlive Hw.
  destruct (write_blocks_rows d bs d' Hc Hw) as [Hc' Hr].
  pose proof (served_write_all _ _ _ _ Hs Hf Hch) as Hs'. rewrite <-Hr in Hs'.
  destruct Hs as (Hwf & Hrec & _). split; [|done| | |done].
  - destruct Hs' as (? & _ & ? & _). by split_and!.
  - intros B HB. exists S. split_and!; [done..|]. rewrite Hr. by eapply db_world_chain.
  - intros B HB. pose proof (write_all_diff (rows d) S bs h B Hch Hcon Hf HB) as Hd.
    rewrite <-Hr in Hd. cbn [archives archive_reader_laws db_reader_laws]. unfold db_archives.
    destruct (block_at S bs B) as [b|]; [|done]. destruct Hd as [Hd Henc].
    destruct (Encode_total b Henc) as [v Hv]. exists v. rewrite Hd. split; [done|].
    by apply Decode_Encode.
Qed.
End archive.

Section run.
Context {db : Type} `{ReaderLaws db}.

(** A session opened on [d] and driven by any calls. *)
Inductive session_run (d : db) : Session db → Prop :=
| sn_open B s d' : ss_Open d B = (Ok s, d') → session_run d s
| sn_account s a : session_run d s → session_run d (ss_Account s a).2
| sn_slot s a k : session_run d s → session_run d (ss_Slot s a k).2
| sn_code s h : session_run d s → session_run d (ss_Code s h).2
| sn_next s : session_run d s → (uval (ss_block s) + 1 < 2 ^ 64)%Z → session_run d (ss_Next s).2.

Lemma ss_Code_ok s h S base bs : session_ok s S base bs → session_ok (ss_Code s h).2 S base bs.
Proof.
  intros (Hh & HB & Hb). unfold ss_Code.
  destruct (map_Code _ _); [by split_and!|]. destruct (rd_GetCode _ _); [|by split_and!].
  split_and!; [done|done|]. cbn [ss_m snd]. unfold PinCode. by destruct (m_code _ !! _).
Qed.

Lemma session_run_ok d s S base bs :
  history d S base bs → session_run d s → session_ok s S base bs.
Proof.
  intros Hh. induction 1 as [B s d' Ho|s a _ IH|s a k _ IH|s h _ IH|s _ IH Hn].
  - pose proof (Open_spec d S base bs B Hh) as Hs. rewrite Ho in Hs. apply Hs.
  - by apply ss_Account_spec.
  - by apply ss_Slot_spec.
  - by apply ss_Code_ok.
  - pose proof (ss_Next_spec s S base bs IH Hn) as Hs.
    destruct (ss_Next s) as [[[b|]|e] s']; [apply Hs|by destruct Hs as [-> _]..].
Qed.
End run.
