(* ===== verification/Node.v ===== *)
(** * Node: the writer process glue

    Models [node/sink.go], [node/tracker.go] and [node/baseline.go], and the
    resume point of [cmd/follower/main.go].  The tracker drives any
    implementation of [capture.Sink] ([SinkOps]); [Sink] is the composite one.
    The sink and its memory state hold the same store handle, so the handle
    lives in the state. *)

From S2P Require Import Prelude Schema Lmdb Capture Store StoreRead Reader Mem Tipbus.

(** [capture.Sink] *)
Class SinkOps (sink : Type) := {
  sink_Block : sink → Batch → result unit * sink;
  sink_Finalize : sink → u64 → Hash → result unit * sink;
  sink_PreferenceReset : sink → list Batch → result unit * sink
}.

(** ** The composite sink *)

Record Sink (env benv : Type) := MkSink {
  sk_st : State (DB env);
  sk_bus : Bus benv;
  sk_pending : gmap Hash Batch
}.
Arguments MkSink {env benv} _ _ _.
Arguments sk_st {env benv} _.
Arguments sk_bus {env benv} _.
Arguments sk_pending {env benv} _.

Section sink.
Context {env benv : Type} `{Lmdb env, Lmdb benv}.
Implicit Types s : Sink env benv.

Definition NewSink (st : State (DB env)) (bus : Bus benv) : Sink env benv := MkSink st bus ∅.

Definition Sink_Block s (b : Batch) : result unit * Sink env benv :=
  let pending := <[BHash b:=b]> (sk_pending s) in
  let st := ApplyBlock (sk_st s) b in
  let '(r, bus) := PublishBlock (sk_bus s) b in
  (r, MkSink st bus pending).

Definition Sink_Finalize s (block : u64) (hash : Hash) : result unit * Sink env benv :=
  match sk_pending s !! hash with
  | None => (Err (ErrMsg "node"), s)
  | Some b =>
      if bool_decide (Block b ≠ block) then (Err (ErrMsg "node"), s)
      else
        let '(r, d) := WriteBlock (s_db (sk_st s)) b in
        let st := set_db (sk_st s) d in
        match r with
        | Err e => (Err e, MkSink st (sk_bus s) (sk_pending s))
        | Ok _ =>
            let '(r, st) := st_Finalize st block hash in
            match r with
            | Err e => (Err e, MkSink st (sk_bus s) (sk_pending s))
            | Ok _ =>
                let '(r, d) := SetFinalized (s_db st) block in
                let st := set_db st d in
                match r with
                | Err e => (Err e, MkSink st (sk_bus s) (sk_pending s))
                | Ok _ =>
                    let pending := filter (λ kv, ¬ (Block kv.2 ≤ block)%Z) (sk_pending s) in
                    let '(r, bus) := PublishFinalize (sk_bus s) block hash in
                    (r, MkSink st bus pending)
                end
            end
        end
  end.

Definition Sink_PreferenceReset s (preferred : list Batch) : result unit * Sink env benv :=
  let pending := foldl (λ p b, <[BHash b:=b]> p) ∅ preferred in
  let st := PreferenceReset (sk_st s) preferred in
  let '(r, bus) := PublishReset (sk_bus s) preferred in
  (r, MkSink st bus pending).

#[export] Instance Sink_ops : SinkOps (Sink env benv) := {|
  sink_Block := Sink_Block;
  sink_Finalize := Sink_Finalize;
  sink_PreferenceReset := Sink_PreferenceReset
|}.

Definition WriteFinal (d : DB env) (b : Batch) : result unit * DB env :=
  let '(r, d) := WriteBlock d b in
  match r with
  | Err e => (Err e, d)
  | Ok _ => SetFinalized d (Block b)
  end.

(** ** Resume point *)

(** [consensus.Anchor]: height, and the hash when known. *)
Record Anchor := MkAnchor { an_Height : u64; an_EthHash : option Hash }.

Definition resumeFromStore (d : DB env) : result Anchor * DB env :=
  match Finalized d with
  | Err e => (Err e, d)
  | Ok (Some f) =>
      match GetDiff d f with
      | Err e => (Err e, d)
      | Ok b => (Ok (MkAnchor f (Some (BHash b))), d)
      end
  | Ok None =>
      let '(r, d) := Genesis d in
      match r with
      | Err e => (Err e, d)
      | Ok (Some s) => (Ok (MkAnchor s None), d)
      | Ok None => (Err (ErrMsg "follower"), d)
      end
  end.
End sink.

(** ** The tracker *)

Record Tracker (sink : Type) := MkTracker {
  t_sink : sink;
  t_table : gmap Hash Batch;
  t_stack : list Batch; (* oldest first *)
  t_finalizedHeight : u64;
  t_finalizedHash : Hash
}.
Arguments MkTracker {sink} _ _ _ _ _.
Arguments t_sink {sink} _.
Arguments t_table {sink} _.
Arguments t_stack {sink} _.
Arguments t_finalizedHeight {sink} _.
Arguments t_finalizedHash {sink} _.

(** [a[i].Hash != b[i].Hash] for some [i], or different lengths. *)
Fixpoint sameHashes (a b : list Batch) : bool :=
  match a, b with
  | x :: a', y :: b' => if bool_decide (BHash x ≠ BHash y) then false else sameHashes a' b'
  | _, _ => true
  end.
Definition sameChain (a b : list Batch) : bool :=
  if negb (Nat.eqb (length a) (length b)) then false else sameHashes a b.

Section tracker.
Context {sink : Type} `{SinkOps sink}.
Implicit Types t : Tracker sink.

Definition NewTracker (s : sink) (finalizedHeight : u64) (finalizedHash : Hash) : Tracker sink :=
  MkTracker s ∅ [] finalizedHeight finalizedHash.

Definition Verified t (b : Batch) : Tracker sink :=
  if (Block b <=? t_finalizedHeight t)%Z then t
  else MkTracker (t_sink t) (<[BHash b:=b]> (t_table t)) (t_stack t) (t_finalizedHeight t)
         (t_finalizedHash t).

(** The walk of [chainTo]; [fuel] bounds the parent links followed. *)
Fixpoint chain_walk (fuel : nat) t (hash : Hash) (rev : list Batch) : result (list Batch) :=
  match fuel with
  | O => Err (ErrMsg "fuel")
  | S fuel' =>
      if bool_decide (hash = t_finalizedHash t) then Ok rev
      else match t_table t !! hash with
           | None => Err (ErrMsg "node")
           | Some b => chain_walk fuel' t (Parent b) (rev ++ [b])
           end
  end.

Definition chainTo (fuel : nat) t (hash : Hash) : result (list Batch) :=
  let! rev := chain_walk fuel t hash [] in Ok (reverse rev).

Definition set_stack t (stack : list Batch) : Tracker sink :=
  MkTracker (t_sink t) (t_table t) stack (t_finalizedHeight t) (t_finalizedHash t).
Definition set_sink t (s : sink) : Tracker sink :=
  MkTracker s (t_table t) (t_stack t) (t_finalizedHeight t) (t_finalizedHash t).

Definition Head (fuel : nat) t (hash : Hash) : result unit * Tracker sink :=
  match chainTo fuel t hash with
  | Err e => (Err e, t)
  | Ok chain =>
      if sameChain chain (t_stack t) then (Ok (), t)
      else if Nat.eqb (length chain) (length (t_stack t) + 1) &&
              sameChain (take (length (t_stack t)) chain) (t_stack t)
      then
        let t := set_stack t chain in
        match last chain with
        | Some b => let '(r, s) := sink_Block (t_sink t) b in (r, set_sink t s)
        | None => (Err (ErrMsg "panic"), t)
        end
      else
        let t := set_stack t chain in
        let '(r, s) := sink_PreferenceReset (t_sink t) chain in (r, set_sink t s)
  end.

(** The fallback of [Accepted]: the accepted block was not the oldest
    published one. *)
Definition reset_to t (hash : Hash) : result unit * Tracker sink :=
  if match t_stack t with [] => true | b :: _ => bool_decide (BHash b ≠ hash) end
  then
    match t_table t !! hash with
    | None => (Err (ErrMsg "node"), t)
    | Some b =>
        if bool_decide (Parent b ≠ t_finalizedHash t) then (Err (ErrMsg "node"), t)
        else
          let t := set_stack t [b] in
          let '(r, s) := sink_PreferenceReset (t_sink t) [b] in (r, set_sink t s)
    end
  else (Ok (), t).

Definition Accepted t (block : u64) (hash : Hash) : result unit * Tracker sink :=
  let '(r, t) := reset_to t hash in
  match r with
  | Err e => (Err e, t)
  | Ok _ =>
      let '(r, s) := sink_Finalize (t_sink t) block hash in
      let t := set_sink t s in
      match r with
      | Err e => (Err e, t)
      | Ok _ =>
          (Ok (), MkTracker (t_sink t) (filter (λ kv, ¬ (Block kv.2 ≤ block)%Z) (t_table t))
                    (tail (t_stack t)) block hash)
      end
  end.
End tracker.

(** ** Baseline from a state iterator *)

Inductive Entry :=
| EntryAccount (addr : Address) (account : Account)
| EntrySlot (addr : Address) (slot value : Hash)
| EntryCode (hash : Hash) (code : bytes)
| EntryOther (kind : byte).

Definition entry_kind (e : Entry) : byte :=
  match e with
  | EntryAccount _ _ => byte_lit 1
  | EntrySlot _ _ _ => byte_lit 2
  | EntryCode _ _ => byte_lit 3
  | EntryOther k => k
  end.

Definition entry_key (e : Entry) : option bytes :=
  match e with
  | EntryAccount a _ => Some (abytes a)
  | EntrySlot a s _ => Some (abytes a ++ abytes s)
  | EntryCode h _ => Some (abytes h)
  | EntryOther _ => None
  end.

Section baseline.
Context {env : Type} `{Lmdb env}.

(** The entries the iterator yields, and how it ends: [None] is a clean end,
    [Some e] the error of its last call. *)
Fixpoint baseline_loop (d : DB env) (bl : Baseline) (prevKind : byte) (prevKey : bytes)
    (it : list Entry) (end_ : option error) : result unit * DB env * Baseline :=
  match it with
  | [] => match end_ with Some e => (Err e, d, bl) | None => Finish d bl end
  | e :: it' =>
      match entry_key e with
      | None => (Err (ErrMsg "node"), d, bl)
      | Some key =>
          if (entry_kind e <? prevKind)%Z then (Err (ErrMsg "node"), d, bl)
          else if (entry_kind e =? prevKind)%Z && bool_decide (key ≤ prevKey)%bytes
          then (Err (ErrMsg "node"), d, bl)
          else
            let '(r, d, bl) :=
              match e with
              | EntryAccount a x => bl_Account d bl a x
              | EntrySlot a s v => bl_Slot d bl a s v
              | EntryCode h c => bl_Code d bl h c
              | EntryOther _ => (Ok (), d, bl)
              end in
            match r with
            | Err er => (Err er, d, bl)
            | Ok _ => baseline_loop d bl (entry_kind e) key it' end_
            end
      end
  end.

Definition RunBaseline (d : DB env) (s : u64) (it : list Entry) (end_ : option error) :
    result unit * DB env :=
  let '(r, d) := NewBaseline d s in
  match r with
  | Err e => (Err e, d)
  | Ok bl => let '(r, d, _) := baseline_loop d bl u_zero [] it end_ in (r, d)
  end.
End baseline.
