(* ===== verification/TrackerProof.v ===== *)
(** * TrackerProof: the published stack follows the preferred chain

    Against the interface of a sink ([SinkLaws]), the tracker's stack is always
    parent-linked from the finalized block, what the sink holds is that stack,
    a successful head event ends it at the head, and a block is only accepted
    on top of the finalized one.  The parent walk is total once fuel exceeds
    the number of verified blocks. *)

From S2P Require Import Prelude Schema Lmdb Capture World Store StoreRead Reader Mem MemProof.
From S2P Require Import Tipbus Node.

(** What a sink promises: it holds a stack of unfinalized blocks. *)
Class SinkLaws (sink : Type) `{SinkOps sink} := {
  sink_layers : sink → list Batch;
  Block_law s b s' : sink_Block s b = (Ok (), s') → sink_layers s' = sink_layers s ++ [b];
  Finalize_law s block hash s' :
    sink_Finalize s block hash = (Ok (), s') →
    ∃ b, sink_layers s = b :: sink_layers s' ∧ BHash b = hash ∧ Block b = block;
  Reset_law s bs s' : sink_PreferenceReset s bs = (Ok (), s') → sink_layers s' = bs
}.

(** ** The composite sink keeps the promise *)

Section sink_laws.
Context {env benv : Type} `{Lmdb env, Lmdb benv}.

#[export] Instance Sink_laws : SinkLaws (Sink env benv).
Proof.
  refine {| sink_layers s := batches (sk_st s) |}.
  - intros s b s'. cbn. unfold Sink_Block. destruct (PublishBlock _ _) as [r bus]. intros [= -> <-].
    unfold batches. cbn. rewrite fmap_app. cbn. by rewrite (proj1 (newLayer_spec b)).
  - intros s block hash s'. cbn. unfold Sink_Finalize.
    destruct (sk_pending s !! hash) as [b|]; [|done]. case_bool_decide; [done|].
    destruct (WriteBlock _ b) as [[[]|] d]; [|done].
    unfold st_Finalize. cbn [lockAndDrain s_layers set_db].
    destruct (s_layers (sk_st s)) as [|l ls] eqn:El; [done|].
    repeat case_bool_decide; try done.
    destruct (SetFinalized _ _) as [[[]|] d']; [|done].
    destruct (PublishFinalize _ _ _) as [r bus]. intros [= -> <-].
    exists (l_batch l). unfold batches. rewrite El. by split_and!.
  - intros s bs s'. cbn. unfold Sink_PreferenceReset. destruct (PublishReset _ _) as [r bus].
    intros [= -> <-]. unfold batches, PreferenceReset. cbn.
    destruct (push_layers (set_layers (lockAndDrain (sk_st s)) []) bs) as (Hl & _).
    rewrite Hl. cbn. apply layer_batches.
Defined.
End sink_laws.

(** ** Parent-linked chains *)

Fixpoint linked (p : Hash) (c : list Batch) : Prop :=
  match c with
  | [] => True
  | b :: c' => Parent b = p ∧ linked (BHash b) c'
  end.

(** The hash a chain from [p] ends at. *)
Fixpoint tip_of (p : Hash) (c : list Batch) : Hash :=
  match c with [] => p | b :: c' => tip_of (BHash b) c' end.

Lemma tip_of_hashes p c c' : BHash <$> c = BHash <$> c' → tip_of p c = tip_of p c'.
Proof.
  revert p c'. induction c as [|b c IH]; intros p [|b' c']; cbn; try done.
  intros [= -> Heq]. by apply IH.
Qed.

Lemma linked_snoc p c b : linked p (c ++ [b]) ↔ linked p c ∧ Parent b = tip_of p c.
Proof.
  revert p. induction c as [|b' c IH]; intros p; cbn; [naive_solver|]. rewrite IH. naive_solver.
Qed.

Lemma tip_of_snoc p c b : tip_of p (c ++ [b]) = BHash b.
Proof. revert p. induction c as [|b' c IH]; intros p; cbn; [done|apply IH]. Qed.

Lemma sameHashes_spec a b :
  length a = length b → sameHashes a b = true ↔ BHash <$> a = BHash <$> b.
Proof.
  revert b. induction a as [|x a IH]; intros [|y b] Hl; simplify_eq/=; [done|].
  case_bool_decide as Hx.
  - split; [done|]. intros [= ? _]. done.
  - rewrite IH by done. rewrite Hx. split; [by intros ->|by intros [= ->]].
Qed.

Lemma sameChain_spec a b : sameChain a b = true ↔ BHash <$> a = BHash <$> b.
Proof.
  unfold sameChain. destruct (Nat.eqb_spec (length a) (length b)) as [Hl|Hl]; cbn [negb].
  - by apply sameHashes_spec.
  - split; [done|]. intros Heq. apply (f_equal length) in Heq. rewrite !length_fmap in Heq. done.
Qed.

Section tracker.
Context {sink : Type} `{SinkLaws sink}.
Implicit Types t : Tracker sink.

(** ** The parent walk *)

Definition keyed t : Prop := ∀ h b, t_table t !! h = Some b → BHash b = h.

Lemma chain_walk_spec fuel t hash rev r :
  keyed t → chain_walk fuel t hash rev = Ok r →
  ∃ c, r = rev ++ c ∧ linked (t_finalizedHash t) (reverse c) ∧
    tip_of (t_finalizedHash t) (reverse c) = hash ∧
    ∀ b, b ∈ c → t_table t !! BHash b = Some b.
Proof.
  intros Hk. revert hash rev. induction fuel as [|fuel IH]; intros hash rev; [done|].
  cbn [chain_walk]. case_bool_decide as Hh.
  { intros [= <-]. exists []. rewrite app_nil_r. split_and!; [done..|]. by intros ? ?%elem_of_nil. }
  destruct (t_table t !! hash) as [b|] eqn:Eb; [|done]. pose proof (Hk _ _ Eb) as Hb.
  intros (c & -> & Hl & Ht & Hin)%IH. exists (b :: c). rewrite reverse_cons.
  split_and!.
  - by rewrite <-(assoc_L (++)).
  - apply linked_snoc. by rewrite Ht.
  - by rewrite tip_of_snoc.
  - intros b' [->|Hb']%elem_of_cons; [by rewrite Hb|by apply Hin].
Qed.

Lemma chainTo_spec fuel t hash chain :
  keyed t → chainTo fuel t hash = Ok chain →
  linked (t_finalizedHash t) chain ∧ tip_of (t_finalizedHash t) chain = hash ∧
  ∀ b, b ∈ chain → t_table t !! BHash b = Some b.
Proof.
  intros Hk. unfold chainTo. destruct (chain_walk fuel t hash []) as [r|e] eqn:E; [|done].
  cbn. intros [= <-]. destruct (chain_walk_spec _ _ _ _ _ Hk E) as (c & -> & Hl & Ht & Hin).
  cbn. split_and!; [done..|]. intros b Hb. apply Hin. by apply elem_of_reverse.
Qed.

(** Parents are lower: the condition under which the walk ends. *)
Definition descending t : Prop := walk_down Parent (λ b, uval (Block b)) (t_table t).

Definition below t (hash : Hash) : nat := walk_left (λ b, uval (Block b)) (t_table t) hash.

(** [hash] reaches the finalized block through parent links of the table. *)
Inductive connected t : Hash → Prop :=
| conn_finalized : connected t (t_finalizedHash t)
| conn_parent hash b :
    t_table t !! hash = Some b → connected t (Parent b) → connected t hash.

Lemma chain_walk_complete fuel t hash rev :
  descending t → below t hash < fuel →
  match chain_walk fuel t hash rev with
  | Ok _ => connected t hash
  | Err e => e = ErrMsg "node" ∧ ¬ connected t hash
  end.
Proof.
  intros Hd. revert hash rev. induction fuel as [|fuel IH]; intros hash rev Hf; [lia|].
  unfold below in *. cbn [chain_walk]. case_bool_decide as Hfin; [subst; constructor|].
  destruct (t_table t !! hash) as [b|] eqn:Eb.
  - specialize (IH (Parent b) (rev ++ [b])). pose proof (walk_left_next Parent (λ b, uval (Block b)) (t_table t) hash b Hd Eb).
    destruct (chain_walk fuel t (Parent b) (rev ++ [b])) as [r|e].
    + econstructor; [done|]. apply IH. lia.
    + destruct IH as [He Hn]; [lia|]. split; [done|]. intros Hc. apply Hn. destruct Hc; congruence.
  - split; [done|]. intros Hc. destruct Hc; congruence.
Qed.

Lemma chainTo_complete fuel t hash :
  descending t → size (t_table t) < fuel →
  match chainTo fuel t hash with
  | Ok _ => connected t hash
  | Err e => e = ErrMsg "node" ∧ ¬ connected t hash
  end.
Proof.
  intros Hd Hf. unfold chainTo. pose proof (walk_left_size (λ b, uval (Block b)) (t_table t) hash).
  pose proof (chain_walk_complete fuel t hash [] Hd) as Hw. unfold below in Hw.
  destruct (chain_walk fuel t hash []) as [r|e]; apply Hw; lia.
Qed.

(** ** Invariant *)

Record tracker_inv t : Prop := {
  ti_linked : linked (t_finalizedHash t) (t_stack t);
  ti_sink : BHash <$> sink_layers (t_sink t) = BHash <$> t_stack t;
  ti_keyed : keyed t;
  ti_above h b : t_table t !! h = Some b → (t_finalizedHeight t < Block b)%Z
}.

Lemma NewTracker_inv s h hash : sink_layers s = [] → tracker_inv (NewTracker s h hash).
Proof. intros Hs. split; cbn; [done|by rewrite Hs|..]; intros ??; cbn; by rewrite lookup_empty. Qed.

Lemma Verified_inv t b : tracker_inv t → tracker_inv (Verified t b).
Proof.
  intros [Hl Hs Hk Ha]. unfold Verified. destruct (Z.leb_spec (Block b) (t_finalizedHeight t)); [done|].
  split; try done; intros h b'; cbn; intros [[<- <-]|[_ ?]]%lookup_insert_Some;
    [done|by apply Hk|done|by eapply Ha].
Qed.

(** A head event that succeeds leaves the stack ending at the head. *)
Lemma Head_inv fuel t hash t' :
  tracker_inv t → Head fuel t hash = (Ok (), t') →
  tracker_inv t' ∧ tip_of (t_finalizedHash t') (t_stack t') = hash ∧
  t_finalizedHash t' = t_finalizedHash t.
Proof.
  intros [Hl Hs Hk Ha]. unfold Head.
  destruct (chainTo fuel t hash) as [chain|e] eqn:Ec; [|done].
  destruct (chainTo_spec _ _ _ _ Hk Ec) as (Hcl & Hct & _).
  destruct (sameChain chain (t_stack t)) eqn:Esame.
  { intros [= <-]. apply sameChain_spec in Esame. split_and!; [done| |done].
    by rewrite <-(tip_of_hashes _ _ _ Esame). }
  destruct (_ && _) eqn:Eext.
  - apply andb_true_iff in Eext as [Hlen%Nat.eqb_eq Hpre%sameChain_spec].
    destruct (last chain) as [b|] eqn:Elast; [|done].
    apply last_Some in Elast as [pre ->]. rewrite length_app in Hlen. cbn in Hlen.
    rewrite take_app_exact in Hpre by lia.
    cbn [set_stack t_sink]. destruct (sink_Block (t_sink t) b) as [r s'] eqn:Eb. intros [= -> <-].
    apply Block_law in Eb. split_and!; [|done..].
    split; try done. cbn. rewrite Eb, !fmap_app. by rewrite Hs, Hpre.
  - cbn [set_stack t_sink]. destruct (sink_PreferenceReset (t_sink t) chain) as [r s'] eqn:Eb.
    intros [= -> <-]. apply Reset_law in Eb. split_and!; [|done..].
    split; try done. cbn. by rewrite Eb.
Qed.

Lemma reset_to_inv t hash t' :
  tracker_inv t → reset_to t hash = (Ok (), t') →
  tracker_inv t' ∧ t_finalizedHash t' = t_finalizedHash t ∧ t_table t' = t_table t ∧
  ∃ b bs, t_stack t' = b :: bs ∧ BHash b = hash ∧ Parent b = t_finalizedHash t.
Proof.
  intros Hinv. pose proof Hinv as [Hl Hs Hk Ha]. unfold reset_to.
  assert (∀ b, t_table t !! hash = Some b → Parent b = t_finalizedHash t →
    (let t := set_stack t [b] in
     let '(r, s) := sink_PreferenceReset (t_sink t) [b] in (r, set_sink t s)) = (Ok (), t') →
    tracker_inv t' ∧ t_finalizedHash t' = t_finalizedHash t ∧ t_table t' = t_table t ∧
    ∃ b bs, t_stack t' = b :: bs ∧ BHash b = hash ∧ Parent b = t_finalizedHash t) as Hreset.
  { intros b Hb Hp. cbn. destruct (sink_PreferenceReset (t_sink t) [b]) as [r s'] eqn:Er.
    intros [= -> <-]. apply Reset_law in Er. split_and!; try done.
    - split; try done; cbn; by rewrite ?Er.
    - exists b, []. split_and!; [done|by apply Hk|done]. }
  destruct (t_stack t) as [|b bs] eqn:Est; [|case_bool_decide as Hb].
  - destruct (t_table t !! hash) as [b|] eqn:Eb; [|done]. case_bool_decide; [done|]. by apply Hreset.
  - destruct (t_table t !! hash) as [b'|] eqn:Eb; [|done]. case_bool_decide; [done|]. by apply Hreset.
  - intros [= <-]. split_and!; [done..|]. exists b, bs. split_and!; [done..|]. apply Hl.
Qed.

(** Acceptance extends the finalized block and pops the stack. *)
Lemma Accepted_inv t block hash t' :
  tracker_inv t → Accepted t block hash = (Ok (), t') →
  tracker_inv t' ∧ t_finalizedHash t' = hash ∧ t_finalizedHeight t' = block ∧
  ∃ b, BHash b = hash ∧ Parent b = t_finalizedHash t.
Proof.
  intros Hinv. unfold Accepted. destruct (reset_to t hash) as [[[]|e] t1] eqn:Er; [|done].
  destruct (reset_to_inv _ _ _ Hinv Er) as (Hinv1 & Hfin & Htab & b & bs & Hst & Hb & Hp).
  destruct (sink_Finalize (t_sink t1) block hash) as [[[]|e] s'] eqn:Ef; [|done].
  intros [= <-]. apply Finalize_law in Ef as (b' & Hlay & _ & _).
  destruct Hinv1 as [Hl Hs Hk Ha]. rewrite Hst, Hlay in Hs. rewrite Hst in Hl.
  injection Hs as _ Hs. destruct Hl as [_ Hl].
  split_and!; [|done|done|by exists b]. split; cbn.
  - rewrite Hst. cbn. by rewrite <-Hb.
  - rewrite Hst. exact Hs.
  - intros h x [Hx _]%map_lookup_filter_Some. by apply Hk.
  - intros h x [_ Hx]%map_lookup_filter_Some. cbn in Hx. lia.
Qed.

(** *** Executions of the tracker *)

Inductive tracker_run : Tracker sink → list Hash → Prop :=
| tr_new s h hash : sink_layers s = [] → tracker_run (NewTracker s h hash) [hash]
| tr_verified t fs b : tracker_run t fs → tracker_run (Verified t b) fs
| tr_head fuel t fs hash t' :
    tracker_run t fs → Head fuel t hash = (Ok (), t') → tracker_run t' fs
| tr_accepted t fs block hash t' :
    tracker_run t fs → Accepted t block hash = (Ok (), t') → tracker_run t' (hash :: fs).

Lemma tracker_run_inv t fs :
  tracker_run t fs → tracker_inv t ∧ head fs = Some (t_finalizedHash t).
Proof.
  induction 1 as [s h hash Hs|t fs b _ [IH Hf]|fuel t fs hash t' _ [IH Hf] Hh|t fs block hash t' _ [IH Hf] Hh].
  - split; [by apply NewTracker_inv|done].
  - split; [by apply Verified_inv|]. unfold Verified. by case_match.
  - destruct (Head_inv _ _ _ _ IH Hh) as (? & _ & ->). done.
  - destruct (Accepted_inv _ _ _ _ IH Hh) as (? & -> & _). done.
Qed.
End tracker.
