(* ===== verification/SinkProof.v ===== *)
(** * SinkProof: the writer process as a whole

    The composite sink keeps store, memory and bus on the same chain: every
    successful call moves all three together, and a call that fails half way
    leaves the memory reads exactly as they were ([Sink_Finalize_step]).  This
    is where the order "store, then base, then watermark" earns its keep.  The
    writer and a reader process beside it ([node_run]) make runs of the system of
    [TipReader]. *)

From S2P Require Import Prelude Schema Lmdb Capture World Store StoreRead StoreSpec StoreProof.
From S2P Require Import StoreReads StoreWrites Loader Reader Mem MemProof Tipbus TipbusProof.
From S2P Require Import TipReader Node.

(** ** The store under the two writes of a finalization *)

Section store.
Context {env : Type} `{LmdbLaws env} (keccak : bytes → Hash).
Implicit Types d : DB env.

Lemma uval_Latest (b : u64) : (b ≤ Latest)%Z.
Proof. unfold Latest. rewrite uval_u_max. ulia. Qed.

(** A written block shows in the reads from its height on. *)
Lemma WriteBlock_serves_at d (h : u64) B W b d' :
  db_serves keccak d B W → fresh_above (rows d) h → (h < Block b)%Z →
  encodable b → contract b → WriteBlock d b = (Ok (), d') →
  db_serves keccak d' B (if (Block b <=? B)%Z then apply_batch W b else W).
Proof.
  intros (S & (Hwf & Hr & Hg & Hb) & Hc & HS & Hw) Hf Hlt He Hcon Hwr.
  pose proof (WriteBlock_cases d b) as Hcases. pose proof (WriteBlock_cache d b Hc) as Hc'.
  rewrite Hwr in Hcases, Hc'. destruct Hcases as (_ & Hrows & _). cbn [snd] in Hc'.
  exists S. rewrite Hrows. split_and!; [|done|done|].
  - split_and!.
    + by apply wf_block_rows.
    + by eapply recreated_block.
    + unfold genesis_row. change MetaGenesis with (key_bytes KMetaGenesis).
      by rewrite block_rows_meta by auto.
    + unfold baseline_complete. change MetaBaselineComplete with (key_bytes KMetaBaselineComplete).
      by rewrite block_rows_meta by auto.
  - rewrite (db_world_block keccak (rows d) h b) by done.
    destruct (Block b <=? B)%Z; [|done]. unfold apply_batch. by rewrite Hw.
Qed.

Lemma WriteBlock_serves d (h : u64) W b d' :
  db_serves keccak d Latest W → fresh_above (rows d) h → (h < Block b)%Z →
  encodable b → contract b → WriteBlock d b = (Ok (), d') →
  db_serves keccak d' Latest (apply_batch W b) ∧ fresh_above (rows d') (Block b) ∧
  db_archives d' (Block b) (Some b) ∧
  ∀ B o, B ≠ Block b → db_archives d B o → db_archives d' B o.
Proof.
  intros Hs Hf Hlt He Hcon Hwr.
  pose proof (WriteBlock_serves_at d h Latest W b d' Hs Hf Hlt He Hcon Hwr) as Hs'.
  rewrite (proj2 (Z.leb_le _ _)) in Hs' by apply uval_Latest.
  pose proof (WriteBlock_cases d b) as Hcases. rewrite Hwr in Hcases. destruct Hcases as (_ & Hrows & _).
  split_and!; [done|rewrite Hrows; by eapply fresh_above_block| |].
  - destruct (Encode_total b He) as [v Hv]. exists v. split; [|by apply Decode_Encode].
    rewrite Hrows. unfold block_rows. rewrite Hv. apply lookup_insert_eq.
  - intros B o Hne. unfold db_archives. rewrite Hrows. by rewrite lookup_block_rows_frame by naive_solver.
Qed.

(** Rows of other keyspaces do not show in the world. *)
Lemma db_world_meta m v B :
  wf_db m → row_ok KMetaFinalized v →
  db_world keccak (<[MetaFinalized:=v]> m) B ≡ db_world keccak m B.
Proof.
  intros Hwf Hv. change MetaFinalized with (key_bytes KMetaFinalized).
  pose proof (wf_db_insert m KMetaFinalized v Hwf Hv) as Hwf'.
  assert (∀ dk, dk ≠ KMetaFinalized →
    <[key_bytes KMetaFinalized:=v]> m !! key_bytes dk = m !! key_bytes dk) as Hne.
  { intros dk Hdk. apply lookup_insert_ne. intros ?%key_bytes_inj. congruence. }
  assert (∀ p, hprefix p → hist (<[key_bytes KMetaFinalized:=v]> m) p B = hist m p B) as Hh.
  { intros p Hp. apply hist_ext; [done..|]. intros b _.
    destruct Hp as [a|a s|a];
      [apply (Hne (KAccount a b))|apply (Hne (KSlot a s b))|apply (Hne (KDestruct a b))]; done. }
  split.
  - intros a. cbn [db_world w_acct]. unfold read_account. rewrite !Hh by constructor.
    change (AppendBaseAccountKey [] (keccak (abytes a))) with (key_bytes (KBaseAccount (keccak (abytes a)))).
    by rewrite Hne.
  - intros a s. cbn [db_world w_slot]. unfold read_slot. rewrite !Hh by constructor.
    change (AppendBaseSlotKey [] (keccak (abytes a)) (keccak (abytes s)))
      with (key_bytes (KBaseSlot (keccak (abytes a)) (keccak (abytes s)))).
    by rewrite Hne.
Qed.

Lemma SetFinalized_serves d (h f B : u64) W r d' :
  db_serves keccak d B W → fresh_above (rows d) h → SetFinalized d f = (r, d') →
  db_serves keccak d' B W ∧ fresh_above (rows d') h ∧
  (∀ B o, db_archives d B o → db_archives d' B o) ∧
  match r with
  | Ok _ => rows d' !! MetaFinalized = Some (beBytes f)
  | Err e => d' = d ∧ faults ∧ ∃ c, e = ErrLmdb c
  end.
Proof.
  intros Hs Hf Hset. unfold SetFinalized in Hset.
  pose proof (putMeta_cases d KMetaFinalized (beBytes f)) as Hp. cbn [key_bytes] in Hp.
  rewrite Hset in Hp. destruct r as [[]|e]; cycle 1.
  { destruct Hp as (-> & ? & ?). by split_and!. }
  destruct Hp as [Hrows Hd']. destruct Hs as (S & (Hwf & Hr & Hg & Hb) & Hc & HS & Hw).
  assert (row_ok KMetaFinalized (beBytes f)) as Hrow by apply length_be_bytes.
  assert (∀ dk, dk ≠ KMetaFinalized → rows d' !! key_bytes dk = rows d !! key_bytes dk) as Hne.
  { intros dk Hdk. rewrite Hrows. apply lookup_insert_ne.
    change MetaFinalized with (key_bytes KMetaFinalized). intros ?%key_bytes_inj. congruence. }
  pose proof (Hne KMetaGenesis ltac:(done)) as Hgen. cbn [key_bytes] in Hgen.
  pose proof (Hne KMetaBaselineComplete ltac:(done)) as Hcomp. cbn [key_bytes] in Hcomp.
  split_and!.
  - exists S. split_and!; [split_and!|split|done|].
    + rewrite Hrows. by apply (wf_db_insert _ KMetaFinalized).
    + intros a s b. rewrite !Hne by done. apply Hr.
    + unfold genesis_row. by rewrite Hgen.
    + unfold baseline_complete. by rewrite Hcomp.
    + rewrite Hgen, Hd'. apply Hc.
    + rewrite Hcomp, Hd'. apply Hc.
    + rewrite Hrows. rewrite db_world_meta by done. done.
  - intros dk b Hdk Hlt. rewrite Hne; [by eapply Hf|]. by intros ->.
  - intros B' [b|]; unfold db_archives; by rewrite (Hne (KDiff B')).
  - rewrite Hrows. apply lookup_insert_eq.
Qed.

(** The two writes of a finalization: the reads at every height, and the
    archived blocks. *)
Lemma final_reads d (h : u64) b d1 d2 :
  (∃ W, db_serves keccak d Latest W) → fresh_above (rows d) h → (h < Block b)%Z → encodable b → contract b →
  WriteBlock d b = (Ok (), d1) → SetFinalized d1 (Block b) = (Ok (), d2) →
  (∀ B W, db_serves keccak d B W → db_serves keccak d2 B (if (Block b <=? B)%Z then apply_batch W b else W)) ∧
  (∀ B o, B ≠ Block b → db_archives d B o → db_archives d2 B o).
Proof.
  intros [W0 HW0] Hf Hlt He Hcon Hw Hset.
  destruct (WriteBlock_serves d h W0 b d1 HW0 Hf Hlt He Hcon Hw) as (Hs1 & Hf1 & _ & Hk1). split.
  - intros B W Hs. pose proof (WriteBlock_serves_at d h B W b d1 Hs Hf Hlt He Hcon Hw) as Hs'.
    by destruct (SetFinalized_serves d1 (Block b) (Block b) B _ _ d2 Hs' Hf1 Hset) as [? _].
  - intros B o Hne Ha. destruct (SetFinalized_serves d1 (Block b) (Block b) Latest _ _ d2 Hs1 Hf1 Hset) as (_ & _ & Hk & _).
    by apply Hk, Hk1.
Qed.
End store.

(** ** The three destinations on one chain *)

(** Ascending, encodable, contract-abiding blocks above height [h]. *)
Fixpoint layers_chain (h : u64) (bs : list Batch) : Prop :=
  match bs with
  | [] => True
  | b :: bs' => (h < Block b)%Z ∧ encodable b ∧ contract b ∧ layers_chain (Block b) bs'
  end.

Lemma layers_chain_above h bs b : layers_chain h bs → b ∈ bs → (h < Block b)%Z.
Proof.
  revert h. induction bs as [|b' bs IH]; intros h; [by intros _ ?%elem_of_nil|].
  intros (Hlt & _ & _ & Hc) [->|Hin]%elem_of_cons; [done|]. specialize (IH _ Hc Hin). lia.
Qed.

Section sink.
Context {env benv : Type} `{LmdbLaws env, LmdbLaws benv} (keccak : bytes → Hash).
Implicit Types s : Sink env benv.
#[local] Instance store_reader : Reader (DB env) := db_reader keccak.
#[local] Instance store_reader_laws : ReaderLaws (DB env) := db_reader_laws keccak.

Definition sk_layers s : list Batch := batches (sk_st s).

(** Memory is coherent with a store that holds exactly the finalized blocks
    (up to height [h]), the bus mirrors the layers after the log [evs], and
    every layer is pending under its hash. *)
Record sink_inv s (W0 : world) (h : u64) (evs : list Event) : Prop := {
  si_mem : coherent (sk_st s) W0 0;
  si_fresh : fresh_above (rows (s_db (sk_st s))) h;
  si_bus : bus_inv (sk_bus s) evs;
  si_mirror : b_layers (sk_bus s) = sk_layers s;
  si_pending b : b ∈ sk_layers s → sk_pending s !! BHash b = Some b;
  si_chain : layers_chain h (sk_layers s)
}.

(** Either fault of the two environments. *)
Definition any_fault : Prop := faults (env:=env) ∨ faults (env:=benv).

Lemma Sink_Block_step s W0 h evs b :
  sink_inv s W0 h evs →
  layers_chain h (sk_layers s ++ [b]) → live (apply_batch (tip_world (sk_st s) W0) b) →
  (∀ b', b' ∈ sk_layers s → BHash b' ≠ BHash b) →
  frames_ok (sk_layers s ++ [b]) → (Z.of_nat (length evs) + 1 < 2 ^ 64)%Z →
  match Sink_Block s b with
  | (Ok _, s') => sink_inv s' W0 h (evs ++ [EvBlock b]) ∧ sk_layers s' = sk_layers s ++ [b]
  | (Err _, s') => any_fault ∧ coherent (sk_st s') W0 0
  end.
Proof.
  intros [Hmem Hfr Hbus Hmir Hpend Hch] Hch' Hlive Hnew Hfok Hlen. unfold Sink_Block.
  destruct (ApplyBlock_coherent (sk_st s) W0 0 b Hmem Hlive) as [Hmem' Hbs].
  assert (event_ok (EvBlock b)) as Hev.
  { destruct Hfok as [_ [_ Hb]%Forall_app]. by apply Forall_singleton in Hb as [? _]. }
  pose proof (publish_event_step (sk_bus s) evs (EvBlock b) Hbus Hev) as Hpub.
  cbn [apply_event bus_mirror fst snd publish_event] in Hpub. rewrite Hmir in Hpub.
  specialize (Hpub Hfok Hlen).
  destruct (PublishBlock (sk_bus s) b) as [[[]|e] bus']; cycle 1.
  { split; [|done]. right. destruct Hpub as [_ [(? & ? & [=] & _)|[? _]]]; done. }
  destruct Hpub as [Hbus' Hm']. unfold sk_layers in *. cbn [sk_st sk_bus sk_pending].
  rewrite Hbs. split; [|done]. split; unfold sk_layers; cbn [sk_st sk_bus sk_pending]; rewrite ?Hbs; try done.
  - injection Hm' as _ Hl. by rewrite Hl.
  - intros b' [Hin| ->%list_elem_of_singleton]%elem_of_app; [|by rewrite lookup_insert_eq].
    rewrite lookup_insert_ne; [by apply Hpend|]. intros Heq. by apply (Hnew b').
Qed.

Lemma pending_reset bs (p : gmap Hash Batch) :
  NoDup (BHash <$> bs) → (∀ b, b ∈ bs → p !! BHash b = None) →
  ∀ b, b ∈ bs → foldl (λ p b, <[BHash b:=b]> p) p bs !! BHash b = Some b.
Proof.
  induction bs as [|b' bs IH] using rev_ind; [by intros _ _ ? ?%elem_of_nil|].
  rewrite fmap_app. intros (Hnd & Hdis & _)%NoDup_app Hp b Hb. rewrite foldl_snoc.
  apply elem_of_app in Hb as [Hb| ->%list_elem_of_singleton]; [|by rewrite lookup_insert_eq].
  rewrite lookup_insert_ne.
  - apply IH; [done| |done]. intros b'' Hb''. apply Hp, elem_of_app. by left.
  - intros Heq. apply (Hdis (BHash b)); [by apply list_elem_of_fmap_2|]. rewrite <-Heq. by left.
Qed.

Lemma Sink_Reset_step s W0 h evs bs :
  sink_inv s W0 h evs → layers_chain h bs → live_along W0 bs → NoDup (BHash <$> bs) →
  frames_ok bs → (Z.of_nat (length evs) + 1 < 2 ^ 64)%Z →
  match Sink_PreferenceReset s bs with
  | (Ok _, s') => sink_inv s' W0 h (evs ++ [EvReset bs]) ∧ sk_layers s' = bs
  | (Err _, s') => any_fault ∧ coherent (sk_st s') W0 0
  end.
Proof.
  intros [Hmem Hfr Hbus Hmir Hpend Hch] Hch' Hlive Hnd Hfok Hlen. unfold Sink_PreferenceReset.
  destruct (PreferenceReset_coherent (sk_st s) W0 0 bs Hmem) as [Hmem' Hbs]; [done|lia|done|].
  pose proof (publish_event_step (sk_bus s) evs (EvReset bs) Hbus Hfok Hfok Hlen) as Hpub.
  cbn [publish_event] in Hpub.
  destruct (PublishReset (sk_bus s) bs) as [[[]|e] bus']; cycle 1.
  { split; [|done]. right. destruct Hpub as [_ [(? & ? & [=] & _)|[? _]]]; done. }
  destruct Hpub as [Hbus' Hm']. unfold sk_layers in *. cbn [sk_st sk_bus sk_pending].
  split; [|done]. split; unfold sk_layers; cbn [sk_st sk_bus sk_pending]; rewrite ?Hbs; try done.
  - destruct (push_layers (set_layers (lockAndDrain (sk_st s)) []) bs) as (_ & Hd & _).
    unfold PreferenceReset. by rewrite Hd.
  - by injection Hm' as _ Hl.
  - apply pending_reset; [done|]. intros b _. apply lookup_empty.
Qed.

(** Whatever happens, readers of the memory state see the same tip. *)
Definition reads_kept s s' W0 : Prop :=
  ∃ W0' j, coherent (sk_st s') W0' j ∧ tip_world (sk_st s') W0' ≡ tip_world (sk_st s) W0.

Lemma frames_ok_tail b bs : frames_ok (b :: bs) → frames_ok bs.
Proof. intros [Hl Hf]. inversion_clear Hf. split; [|done]. cbn in Hl. lia. Qed.

Lemma coherent_db st W0 j d :
  coherent st W0 j → serves d Latest (stage W0 (batches st) j) → coherent (set_db st d) W0 j.
Proof. intros [] Hd. by split. Qed.

(** Finalizing the oldest layer: all three destinations move on, or a fault
    is reported and the reads are what they were. *)
Lemma Finalize_db (st : State (DB env)) block hash r st' :
  st_Finalize st block hash = (r, st') → s_db st' = s_db st.
Proof. unfold st_Finalize. intros Est. repeat case_match; by simplify_eq. Qed.

(** What the store sees of a finalization. *)
Lemma Sink_Finalize_store s block hash s' b :
  Sink_Finalize s block hash = (Ok (), s') → sk_pending s !! hash = Some b →
  ∃ d1, WriteBlock (s_db (sk_st s)) b = (Ok (), d1) ∧ SetFinalized d1 block = (Ok (), s_db (sk_st s')).
Proof.
  unfold Sink_Finalize. intros Hf Hb. rewrite Hb in Hf. case_bool_decide; [done|].
  destruct (WriteBlock _ b) as [[[]|] d1]; [|done].
  destruct (st_Finalize _ _ _) as [[[]|] st2] eqn:Est; [|done]. apply Finalize_db in Est.
  destruct (SetFinalized _ _) as [[[]|] d3] eqn:E3; [|done].
  destruct (PublishFinalize _ _ _) as [r bus]. injection Hf as -> <-.
  exists d1. split; [done|]. rewrite Est in E3. exact E3.
Qed.

Lemma Sink_Finalize_step s W0 h evs b bs :
  sink_inv s W0 h evs → sk_layers s = b :: bs → (Z.of_nat (length evs) + 1 < 2 ^ 64)%Z →
  match Sink_Finalize s (Block b) (BHash b) with
  | (Ok _, s') =>
      sink_inv s' (apply_batch W0 b) (Block b) (evs ++ [EvFinalize (Block b) (BHash b)]) ∧
      sk_layers s' = bs ∧ reads_kept s s' W0 ∧
      rows (s_db (sk_st s')) !! MetaFinalized = Some (beBytes (Block b)) ∧
      db_archives (s_db (sk_st s')) (Block b) (Some b)
  | (Err _, s') => any_fault ∧ reads_kept s s' W0
  end.
Proof.
  intros [Hmem Hfr Hbus Hmir Hpend Hch] Hls Hlen. rewrite Hls in Hmir, Hpend, Hch.
  assert (apply_batches (apply_batch W0 b) bs ≡ tip_world (sk_st s) W0) as Htip.
  { unfold tip_world. fold (sk_layers s). rewrite Hls. done. }
  unfold sk_layers in Hls. destruct Hch as (Hlt & Henc & Hcon & Hch).
  unfold Sink_Finalize. rewrite Hpend by by left. rewrite bool_decide_eq_false_2 by naive_solver.
  pose proof (WriteBlock_cases (s_db (sk_st s)) b) as Hwc.
  destruct (WriteBlock (s_db (sk_st s)) b) as [[[]|e] d1] eqn:Ew; cycle 1.
  { destruct Hwc as [-> Hwc]. split.
    - left. destruct Hwc as [[_ Hk]|[? _]]; [|done]. destruct Hk. by apply encodable_known.
    - exists W0, 0. split; [by apply coherent_db; [|apply Hmem]|done]. }
  destruct (WriteBlock_serves keccak _ h _ _ _ (coh_store _ _ _ Hmem) Hfr Hlt Henc Hcon Ew)
    as (Hs1 & Hf1 & Ha1 & _).
  assert (coherent (set_db (sk_st s) d1) W0 1) as Hc1.
  { apply commit_coherent; [done|rewrite Hls; cbn; lia|]. unfold stage. rewrite Hls. exact Hs1. }
  destruct (Finalize_coherent (set_db (sk_st s) d1) W0 0 b bs Hc1 Hls) as (st2 & Est & Hc2 & Hb2 & _).
  rewrite Est. pose proof (Finalize_db _ _ _ _ _ Est) as Hdb2. cbn [s_db set_db] in Hdb2.
  destruct (SetFinalized (s_db st2) (Block b)) as [r3 d3] eqn:E3.
  pose proof (coh_store _ _ _ Hc2) as Hs2. rewrite Hdb2 in E3, Hs2.
  destruct (SetFinalized_serves keccak d1 (Block b) (Block b) Latest _ r3 d3 Hs2 Hf1 E3) as (Hs3 & Hf3 & Ha3 & Hr3).
  assert (coherent (set_db st2 d3) (apply_batch W0 b) 0) as Hc3 by by apply coherent_db.
  assert (reads_kept s (MkSink (set_db st2 d3) (sk_bus s) (sk_pending s)) W0) as Hkept.
  { exists (apply_batch W0 b), 0. split; [done|]. rewrite <-Htip. unfold tip_world. cbn [sk_st].
    change (batches (set_db st2 d3)) with (batches st2). by rewrite Hb2. }
  destruct r3 as [[]|e]; [|by split; [left; apply Hr3|]].
  assert (frames_ok bs) as Hfok.
  { eapply frames_ok_tail. rewrite <-Hmir. apply (bi_layers _ _ Hbus). }
  pose proof (publish_event_step (sk_bus s) evs (EvFinalize (Block b) (BHash b)) Hbus I) as Hpub.
  cbn [apply_event bus_mirror fst snd publish_event] in Hpub. rewrite Hmir in Hpub.
  specialize (Hpub Hfok Hlen).
  destruct (PublishFinalize (sk_bus s) (Block b) (BHash b)) as [[[]|e] bus']; cycle 1.
  { split; [|exact Hkept]. right. destruct Hpub as [_ [(? & ? & [= <- _] & Hne)|[? _]]]; done. }
  destruct Hpub as [Hbus' Hm']. unfold sk_layers. cbn [sk_st sk_bus sk_pending].
  change (batches (set_db st2 d3)) with (batches st2). rewrite Hb2.
  split_and!; [|done|exact Hkept|done|by apply Ha3].
  split; unfold sk_layers; cbn [sk_st sk_bus sk_pending];
    change (batches (set_db st2 d3)) with (batches st2); rewrite ?Hb2; try done.
  - by injection Hm' as _ Hl.
  - intros b' Hin. apply map_lookup_filter_Some. split; [apply Hpend; by right|]. cbn.
    pose proof (layers_chain_above _ _ _ Hch Hin). lia.
Qed.
End sink.

(** ** The node beside a reader process

    Another process follows the node's bus over the node's store ([TipReader]).  Its
    steps come between any two of the node's, also within a finalization, which
    writes the store twice before it publishes. *)

Section phases.
Context {env benv : Type} `{Lmdb env, Lmdb benv}.
Implicit Types s : Sink env benv.

(** The steps of [Sink_Finalize] another process can come between. *)
Definition fin_write s (b : Batch) : result (Sink env benv) :=
  match WriteBlock (s_db (sk_st s)) b with
  | (Ok _, d) => Ok (MkSink (set_db (sk_st s) d) (sk_bus s) (sk_pending s))
  | (Err e, _) => Err e
  end.
Definition fin_mark s (b : Batch) : result (Sink env benv) :=
  match st_Finalize (sk_st s) (Block b) (BHash b) with
  | (Ok _, st) =>
      match SetFinalized (s_db st) (Block b) with
      | (Ok _, d) =>
          Ok (MkSink (set_db st d) (sk_bus s) (filter (λ kv, ¬ (Block kv.2 ≤ Block b)%Z) (sk_pending s)))
      | (Err e, _) => Err e
      end
  | (Err e, _) => Err e
  end.
Definition fin_publish s (b : Batch) : result unit * Sink env benv :=
  let '(r, bus) := PublishFinalize (sk_bus s) (Block b) (BHash b) in (r, MkSink (sk_st s) bus (sk_pending s)).

(** One after the other they are [Sink_Finalize]. *)
Lemma Sink_Finalize_phases s b s' :
  sk_pending s !! BHash b = Some b →
  Sink_Finalize s (Block b) (BHash b) = (Ok (), s') ↔
  ∃ s1 s2, fin_write s b = Ok s1 ∧ fin_mark s1 b = Ok s2 ∧ fin_publish s2 b = (Ok (), s').
Proof.
  intros Hp. unfold Sink_Finalize, fin_write. rewrite Hp, bool_decide_false by naive_solver.
  destruct (WriteBlock _ b) as [[[]|] d1]; cycle 1.
  { split; [done|]. by intros (? & ? & ? & _). }
  assert (∀ (P : Sink env benv → Prop) x, (∃ s1, Ok x = Ok s1 ∧ P s1) ↔ P x) as Hone.
  { intros P x. split; [by intros (? & [= <-] & ?)|by exists x]. }
  trans (∃ s2, fin_mark (MkSink (set_db (sk_st s) d1) (sk_bus s) (sk_pending s)) b = Ok s2 ∧ fin_publish s2 b = (Ok (), s')).
  2: { split; [by intros (s2 & ? & ?); exists (MkSink (set_db (sk_st s) d1) (sk_bus s) (sk_pending s)), s2|].
       by intros (? & s2 & [= <-] & ? & ?); exists s2. }
  unfold fin_mark. cbn [sk_st]. destruct (st_Finalize _ _ _) as [[[]|] st2]; [|by split; [|intros (? & ? & _)]].
  destruct (SetFinalized _ _) as [[[]|] d3]; [|by split; [|intros (? & ? & _)]]. rewrite Hone. done.
Qed.
End phases.

(** Between two calls, or in a finalization of a batch: after the block is in the
    store, and after the watermark is. *)
Inductive writer (env benv : Type) :=
| w_idle (s : Sink env benv)
| w_written (s : Sink env benv) (b : Batch)
| w_marked (s : Sink env benv) (b : Batch).
Arguments w_idle {env benv} _.
Arguments w_written {env benv} _ _.
Arguments w_marked {env benv} _ _.

Definition writer_sink {env benv} (w : writer env benv) : Sink env benv :=
  match w with w_idle s | w_written s _ | w_marked s _ => s end.

Section system.
Context {env benv : Type} `{LmdbLaws env, LmdbLaws benv} (keccak : bytes → Hash) (W0 : world).
#[local] Instance system_reader : Reader (DB env) := db_reader keccak.
#[local] Instance system_reader_laws : ReaderLaws (DB env) := db_reader_laws keccak.
Implicit Types (s : Sink env benv) (d : DB env) (o : option (follower (DB env))).

(** A step of the reader: its state and its handle of the store. *)
Inductive reader_moves (bus : benv) : option (follower (DB env)) → DB env → option (follower (DB env)) → DB env → Prop :=
| rm_start d f : start d bus = Ok f → reader_moves bus None d (Some f) d
| rm_follow f d f' : follow bus f = Ok (Some f') → reader_moves bus (Some f) d (Some f') d
| rm_register f d : reader_moves bus (Some f) d (Some (set_st f (Register (fo_st f) NewSideBuffer))) d
| rm_account f d i a r st :
    with_buffer (fo_st f) i (λ x sb, st_Account x a sb) = Some (r, st) →
    reader_moves bus (Some f) d (Some (set_st f st)) (s_db st)
| rm_slot f d i a k r st :
    with_buffer (fo_st f) i (λ x sb, st_Slot x a k sb) = Some (r, st) →
    reader_moves bus (Some f) d (Some (set_st f st)) (s_db st)
| rm_code f d i h r st :
    with_buffer (fo_st f) i (λ x sb, let '(r, sb) := st_Code x h sb in (r, x, sb)) = Some (r, st) →
    reader_moves bus (Some f) d (Some (set_st f st)) (s_db st).

(** The node, the height finalized when the call in progress began, the events
    published and the blocks written, the reader and its handle. *)
Record nsys := MkNsys {
  ns_writer : writer env benv;
  ns_height : u64;
  ns_evs : list Event;
  ns_committed : list Batch;
  ns_reader : option (follower (DB env));
  ns_handle : DB env
}.

(** What the node is called with is what its engine gives it: chains above the
    finalized height whose batches have distinct hashes, and finalizations of the
    oldest layer.  The reader's handle sees the node's environment, its caches
    agreeing with the rows. *)
Inductive node_run : nsys → Prop :=
| nr_open e bus e' st h d :
    OpenWriter e = (Ok bus, e') → sink_inv keccak (NewSink st bus) W0 h [] →
    db_env d = db_env (s_db st) → cache_ok d → node_run (MkNsys (w_idle (NewSink st bus)) h [] [] None d)
| nr_block s h evs F o d b s' :
    node_run (MkNsys (w_idle s) h evs F o d) → Sink_Block s b = (Ok (), s') →
    layers_chain h (sk_layers s ++ [b]) → live (apply_batches (apply_batches W0 F) (sk_layers s ++ [b])) →
    (∀ b', b' ∈ sk_layers s → BHash b' ≠ BHash b) → frames_ok (sk_layers s ++ [b]) →
    (Z.of_nat (length evs) + 1 < 2 ^ 64)%Z → node_run (MkNsys (w_idle s') h (evs ++ [EvBlock b]) F o d)
| nr_reset s h evs F o d bs s' :
    node_run (MkNsys (w_idle s) h evs F o d) → Sink_PreferenceReset s bs = (Ok (), s') →
    layers_chain h bs → live_along (apply_batches W0 F) bs → NoDup (BHash <$> bs) → frames_ok bs →
    (Z.of_nat (length evs) + 1 < 2 ^ 64)%Z → node_run (MkNsys (w_idle s') h (evs ++ [EvReset bs]) F o d)
| nr_write s h evs F o d b bs s' d' :
    node_run (MkNsys (w_idle s) h evs F o d) → sk_layers s = b :: bs → fin_write s b = Ok s' →
    db_env d' = db_env (s_db (sk_st s')) → cache_ok d' → node_run (MkNsys (w_written s' b) h evs (F ++ [b]) (see d' o) d')
| nr_mark s h evs F o d b s' d' :
    node_run (MkNsys (w_written s b) h evs F o d) → fin_mark s b = Ok s' →
    db_env d' = db_env (s_db (sk_st s')) → cache_ok d' → node_run (MkNsys (w_marked s' b) h evs F (see d' o) d')
| nr_publish s h evs F o d b s' :
    node_run (MkNsys (w_marked s b) h evs F o d) → fin_publish s b = (Ok (), s') →
    (Z.of_nat (length evs) + 1 < 2 ^ 64)%Z →
    node_run (MkNsys (w_idle s') (Block b) (evs ++ [EvFinalize (Block b) (BHash b)]) F o d)
| nr_reader w h evs F o d o' d' :
    node_run (MkNsys w h evs F o d) → reader_moves (b_env (sk_bus (writer_sink w))) o d o' d' →
    node_run (MkNsys w h evs F o' d').

(** In a finalization, the sink it began with. *)
Definition writer_ok (w : writer env benv) (h : u64) (evs : list Event) (F : list Batch) : Prop :=
  let F0 := (tip_history evs).1 in
  match w with
  | w_idle s => sink_inv keccak s (apply_batches W0 F) h evs ∧ F0 = F
  | w_written s b =>
      ∃ s0 bs, sink_inv keccak s0 (apply_batches W0 F0) h evs ∧ sk_layers s0 = b :: bs ∧ F = F0 ++ [b] ∧ fin_write s0 b = Ok s
  | w_marked s b =>
      ∃ s0 bs s1, sink_inv keccak s0 (apply_batches W0 F0) h evs ∧ sk_layers s0 = b :: bs ∧ F = F0 ++ [b] ∧
        fin_write s0 b = Ok s1 ∧ fin_mark s1 b = Ok s
  end.

Definition nsys_ok (y : nsys) : Prop :=
  writer_ok (ns_writer y) (ns_height y) (ns_evs y) (ns_committed y) ∧
  ts_run W0 (MkSystem (sk_bus (writer_sink (ns_writer y))) (ns_evs y) (ns_committed y) (ns_reader y)) (ns_handle y).

Lemma other_serves d d' W : db_serves keccak d Latest W → db_env d' = db_env d → cache_ok d' → db_serves keccak d' Latest W.
Proof. intros (S & ? & _ & ? & ?) He Hc. exists S. unfold rows in *. by rewrite He. Qed.

Lemma reader_moves_run b evs F o d o' d' :
  ts_run W0 (MkSystem b evs F o) d → reader_moves (b_env b) o d o' d' → ts_run W0 (MkSystem b evs F o') d'.
Proof.
  intros Hr Hm. inversion Hm; subst; [by eapply ts_start|by eapply ts_follow|by apply ts_register|by eapply ts_account
    |by eapply ts_slot|by eapply ts_code].
Qed.

(** *** The node's steps *)

Lemma open_ok e bus e' st h d :
  OpenWriter e = (Ok bus, e') → sink_inv keccak (NewSink st bus) W0 h [] → db_env d = db_env (s_db st) → cache_ok d →
  nsys_ok (MkNsys (w_idle (NewSink st bus)) h [] [] None d).
Proof.
  intros Ho Hi He Hc. split; [by split|]. pose proof (si_mem _ _ _ _ _ Hi) as Hm. cbn in Hm.
  pose proof (si_mirror _ _ _ _ _ Hi) as Hl. pose proof (OpenWriter_cases e) as Hoc. rewrite Ho in Hoc. destruct Hoc as (_ & Hb & _).
  injection Hb as _ Hb. cbn in Hl. rewrite Hb in Hl. eapply ts_open; [done| |].
  - eapply other_serves; [|done..]. pose proof (coh_store _ _ _ Hm) as Hs. exact Hs.
  - pose proof (coh_live _ _ _ Hm 0) as Hlv. exact Hlv.
Qed.

(** Publishing what the sink did, with the rest of the system as it is. *)
Lemma block_ok s h evs F o d b s' :
  nsys_ok (MkNsys (w_idle s) h evs F o d) → Sink_Block s b = (Ok (), s') →
  layers_chain h (sk_layers s ++ [b]) → live (apply_batches (apply_batches W0 F) (sk_layers s ++ [b])) →
  (∀ b', b' ∈ sk_layers s → BHash b' ≠ BHash b) → frames_ok (sk_layers s ++ [b]) →
  (Z.of_nat (length evs) + 1 < 2 ^ 64)%Z → nsys_ok (MkNsys (w_idle s') h (evs ++ [EvBlock b]) F o d).
Proof.
  intros [[Hi HF] Hr] Hb Hch Hlv Hd Hfr Hlen. cbn in HF, Hr. pose proof (si_mirror _ _ _ _ _ Hi) as Hmir.
  pose proof (ti_layers _ _ _ (ts_run_inv _ _ _ Hr)) as Hly. cbn in Hly. rewrite Hmir in Hly.
  pose proof (Sink_Block_step keccak s _ h evs b Hi Hch) as Hs. rewrite Hb in Hs.
  destruct Hs as [Hi' _]; [by rewrite apply_batches_app in Hlv|done..|].
  split; [by split; [|cbn; rewrite history_snoc]|]. cbn.
  assert (publish_event (sk_bus s) (EvBlock b) = (Ok (), sk_bus s')) as Hp.
  { unfold Sink_Block in Hb. cbn. destruct (PublishBlock (sk_bus s) b). by simplify_eq. }
  eapply ts_publish; [done| |cbn; by rewrite Hmir|done|done| |done].
  - destruct Hfr as [_ [_ [[Henc _] _]%Forall_cons]%Forall_app]. exact Henc.
  - rewrite history_snoc. unfold live_hist. cbn. rewrite HF, <-Hly. apply live_along_snoc; [apply (si_mem _ _ _ _ _ Hi)|].
    by rewrite apply_batches_app in Hlv.
Qed.

Lemma reset_ok s h evs F o d bs s' :
  nsys_ok (MkNsys (w_idle s) h evs F o d) → Sink_PreferenceReset s bs = (Ok (), s') →
  layers_chain h bs → live_along (apply_batches W0 F) bs → NoDup (BHash <$> bs) → frames_ok bs →
  (Z.of_nat (length evs) + 1 < 2 ^ 64)%Z → nsys_ok (MkNsys (w_idle s') h (evs ++ [EvReset bs]) F o d).
Proof.
  intros [[Hi HF] Hr] Hb Hch Hlv Hd Hfr Hlen. cbn in HF, Hr.
  pose proof (Sink_Reset_step keccak s _ h evs bs Hi Hch Hlv Hd Hfr Hlen) as Hs. rewrite Hb in Hs. destruct Hs as [Hi' _].
  split; [by split; [|cbn; rewrite history_snoc]|]. cbn.
  assert (publish_event (sk_bus s) (EvReset bs) = (Ok (), sk_bus s')) as Hp.
  { unfold Sink_PreferenceReset in Hb. cbn. destruct (PublishReset (sk_bus s) bs). by simplify_eq. }
  eapply ts_publish; [done|done|done|done|done| |done]. rewrite history_snoc. unfold live_hist. cbn. by rewrite HF.
Qed.

(** The block in the store: the reader's handle serves it. *)
Lemma write_ok s h evs F o d b bs s' d' :
  nsys_ok (MkNsys (w_idle s) h evs F o d) → sk_layers s = b :: bs → fin_write s b = Ok s' →
  db_env d' = db_env (s_db (sk_st s')) → cache_ok d' → nsys_ok (MkNsys (w_written s' b) h evs (F ++ [b]) (see d' o) d').
Proof.
  intros [[Hi HF] Hr] Hl Hw He Hc. cbn in HF, Hr. split; [exists s, bs; cbn; by rewrite HF|]. cbn.
  destruct Hi as [Hmem Hfr _ _ _ Hch]. rewrite Hl in Hch. destruct Hch as (Hlt & Henc & Hcon & _).
  pose proof (coh_live _ _ _ Hmem 1) as Hlv. unfold stage in Hlv. change (batches (sk_st s)) with (sk_layers s) in Hlv. rewrite Hl in Hlv.
  assert (apply_batches W0 (F ++ [b]) = apply_batch (apply_batches W0 F) b) as HW by by rewrite apply_batches_app.
  unfold fin_write in Hw. destruct (WriteBlock _ b) as [[[]|] d1] eqn:Ew; [|done]. simplify_eq. cbn in *.
  destruct (WriteBlock_serves keccak _ h _ _ _ (coh_store _ _ _ Hmem) Hfr Hlt Henc Hcon Ew) as (Hs1 & _).
  eapply ts_commit; [done| |by rewrite HW]. rewrite HW. by eapply other_serves.
Qed.

Lemma mark_ok s h evs F o d b s' d' :
  nsys_ok (MkNsys (w_written s b) h evs F o d) → fin_mark s b = Ok s' →
  db_env d' = db_env (s_db (sk_st s')) → cache_ok d' → nsys_ok (MkNsys (w_marked s' b) h evs F (see d' o) d').
Proof.
  intros [(s0 & bs & Hi & Hl & HF & Hw) Hr] Hm He Hc. split; [by exists s0, bs, s|]. cbn in *.
  destruct Hi as [Hmem Hfr _ _ _ Hch]. rewrite Hl in Hch. destruct Hch as (Hlt & Henc & Hcon & _).
  unfold fin_write in Hw. destruct (WriteBlock _ b) as [[[]|] d1] eqn:Ew; [|done]. simplify_eq. cbn in *.
  destruct (WriteBlock_serves keccak _ h _ _ _ (coh_store _ _ _ Hmem) Hfr Hlt Henc Hcon Ew) as (Hs1 & Hf1 & _).
  unfold fin_mark in Hm. destruct (st_Finalize _ _ _) as [[[]|] st] eqn:Est; [|done]. apply Finalize_db in Est. cbn in Est.
  destruct (SetFinalized (s_db st) (Block b)) as [[[]|] d3] eqn:E3; [|done]. injection Hm as <-. cbn in *. rewrite Est in E3.
  destruct (SetFinalized_serves keccak d1 (Block b) (Block b) Latest _ _ d3 Hs1 Hf1 E3) as (Hs3 & _).
  eapply ts_store; [done|]. rewrite apply_batches_app. by eapply other_serves.
Qed.

Lemma fin_bus s b s1 s2 : fin_write s b = Ok s1 → fin_mark s1 b = Ok s2 → sk_bus s2 = sk_bus s.
Proof. unfold fin_write, fin_mark. intros ??. by repeat case_match; simplify_eq. Qed.

Lemma publish_finalize_ok s h evs F o d b s' :
  nsys_ok (MkNsys (w_marked s b) h evs F o d) → fin_publish s b = (Ok (), s') →
  (Z.of_nat (length evs) + 1 < 2 ^ 64)%Z →
  nsys_ok (MkNsys (w_idle s') (Block b) (evs ++ [EvFinalize (Block b) (BHash b)]) F o d).
Proof.
  intros [(s0 & bs & s1 & Hi & Hl & HF & Hw & Hm) Hr] Hp Hlen. cbn in Hi, HF, Hr.
  pose proof (fin_bus _ _ _ _ Hw Hm) as Hbus. pose proof (si_mirror _ _ _ _ _ Hi) as Hmir. rewrite <-Hbus, Hl in Hmir.
  pose proof (ti_layers _ _ _ (ts_run_inv _ _ _ Hr)) as Hly. cbn in Hly. rewrite Hmir in Hly.
  assert (Sink_Finalize s0 (Block b) (BHash b) = (Ok (), s')) as Hf.
  { apply Sink_Finalize_phases; [apply (si_pending _ _ _ _ _ Hi); rewrite Hl; by left|]. by exists s1, s. }
  pose proof (Sink_Finalize_step keccak s0 _ h evs b bs Hi Hl Hlen) as Hs. rewrite Hf in Hs. destruct Hs as (Hi' & Hl' & _).
  assert (tip_history (evs ++ [EvFinalize (Block b) (BHash b)]) = (F, bs)) as Hh
    by (rewrite history_snoc; cbn; by rewrite <-Hly, HF).
  split; [split; cbn; [by rewrite HF, apply_batches_app|by rewrite Hh]|]. cbn.
  assert (publish_event (sk_bus s) (EvFinalize (Block b) (BHash b)) = (Ok (), sk_bus s')) as Hpe.
  { unfold fin_publish in Hp. cbn. destruct (PublishFinalize _ _ _). by simplify_eq. }
  eapply ts_publish; [done|done| |done| | |done].
  - cbn. rewrite Hmir. pose proof (bi_layers _ _ (si_bus _ _ _ _ _ Hi)) as Hfr. rewrite <-Hbus, Hmir in Hfr.
    by eapply frames_ok_tail.
  - exists b. rewrite <-Hly. split_and!; [done..|]. by rewrite HF, list_lookup_middle.
  - rewrite Hh. unfold live_hist. cbn. pose proof (coh_live _ _ _ (si_mem _ _ _ _ _ Hi')) as Hlv.
    change (batches (sk_st s')) with (sk_layers s') in Hlv. rewrite Hl' in Hlv. by rewrite HF, apply_batches_app.
Qed.

(** Every run of the node and its reader is a run of the system. *)
Lemma node_run_ok y : node_run y → nsys_ok y.
Proof.
  induction 1; [by eapply open_ok|by eapply block_ok|by eapply reset_ok|by eapply write_ok|by eapply mark_ok
    |by eapply publish_finalize_ok|]. destruct IHnode_run as [Hw Hr]. split; [done|]. by eapply reader_moves_run.
Qed.
End system.
