(* ===== verification/NodeProof.v ===== *)
(** * NodeProof: baselines from an iterator, and resuming

    [RunBaseline] only completes over entries in strictly ascending order, and
    then every entry is a row of the store; [WriteFinal] leaves a resume point
    that names the block it wrote. *)

From Stdlib Require Import Sorted.
From S2P Require Import Prelude Schema Lmdb Capture World Store StoreRead StoreSpec StoreProof.
From S2P Require Import StoreReads StoreWrites Loader Reader Mem Tipbus Node SinkProof.

(** ** Entries *)

Definition entry_call (e : Entry) : option lcall :=
  match e with
  | EntryAccount a x => Some (CAccount a x)
  | EntrySlot a s v => Some (CSlot a s v)
  | EntryCode h c => Some (CCode h c)
  | EntryOther _ => None
  end.

Definition entry_op (S : u64) (e : Entry) : option blOp :=
  match entry_call e with Some c => call_op S c | None => None end.

(** The order of the store's key layout: by kind, then by key. *)
Definition entry_lt (e e' : Entry) : Prop :=
  match entry_key e, entry_key e' with
  | Some k, Some k' => (entry_kind e < entry_kind e')%Z ∨ entry_kind e = entry_kind e' ∧ (k < k')%bytes
  | _, _ => False
  end.

Definition known_entry (e : Entry) : Prop := is_Some (entry_key e).
#[export] Instance known_entry_dec e : Decision (known_entry e).
Proof. unfold known_entry. apply _. Defined.

Lemma entry_lt_trans e1 e2 e3 : entry_lt e1 e2 → entry_lt e2 e3 → entry_lt e1 e3.
Proof.
  unfold entry_lt. destruct (entry_key e1), (entry_key e2), (entry_key e3); try done.
  intros [?|[He ?]] [?|[He' ?]]; [left; lia|left; rewrite <-He'; done|left; rewrite He; done|].
  right. split; [congruence|by eapply bytes_lt_trans].
Qed.

Definition entry_dbkey (S : u64) (e : Entry) : option dbkey :=
  match e with
  | EntryAccount a _ => Some (KAccount a S)
  | EntrySlot a s _ => Some (KSlot a s S)
  | EntryCode h _ => Some (KCode h)
  | EntryOther _ => None
  end.

Lemma entry_op_key S e op :
  entry_op S e = Some op → ∃ dk, entry_dbkey S e = Some dk ∧ bo_k op = key_bytes dk.
Proof. destruct e; intros [= <-]; eexists; split; reflexivity. Qed.

(** Entries in order write different rows. *)
Lemma entry_lt_op S e e' op op' :
  entry_lt e e' → entry_op S e = Some op → entry_op S e' = Some op' → bo_k op ≠ bo_k op'.
Proof.
  intros Hlt (dk & Hdk & ->)%entry_op_key (dk' & Hdk' & ->)%entry_op_key ->%key_bytes_inj.
  destruct e, e'; simplify_eq/=; (destruct Hlt as [Hlt|[_ Hlt]]; [done|by apply bytes_lt_irrefl in Hlt]).
Qed.

Lemma known_entry_op S e :
  known_entry e → ∃ op, entry_op S e = Some op ∧ blop_ok op ∧ bo_del op = false.
Proof.
  destruct e as [a x|a s v|h c|k]; intros [key Hk]; try discriminate Hk.
  - eexists. split_and!; [done|by eapply (call_op_ok S (CAccount a x))|done].
  - eexists. split_and!; [done|by eapply (call_op_ok S (CSlot a s v))|done].
  - eexists. split_and!; [done|by eapply (call_op_ok S (CCode h c))|done].
Qed.

(** Rows written in order are all there at the end. *)
Lemma ascending_rows S it m e op :
  StronglySorted entry_lt it → e ∈ it → entry_op S e = Some op → bo_del op = false →
  apply_blops m (omap (entry_op S) it) !! bo_k op = Some (bo_v op).
Proof.
  intros Hs. revert m. induction Hs as [|e' it Hs IH Hlt]; intros m Hin Hop Hd;
    [by apply elem_of_nil in Hin|].
  apply elem_of_cons in Hin as [->|Hin]; cbn [omap list_omap].
  - rewrite Hop. cbn. unfold apply_blop at 2. rewrite Hd.
    clear IH Hs. revert m. induction Hlt as [|e2 it Hlt _ IH]; intros m; cbn.
    + apply lookup_insert_eq.
    + destruct (entry_op S e2) as [op2|] eqn:E2; [|apply IH].
      cbn. pose proof (entry_lt_op _ _ _ _ _ Hlt Hop E2) as Hne.
      assert (apply_blop (<[bo_k op:=bo_v op]> m) op2 =
        <[bo_k op:=bo_v op]> (apply_blop m op2)) as ->; [|apply IH].
      unfold apply_blop. destruct (bo_del op2);
        [by rewrite delete_insert_ne|by rewrite insert_insert_ne].
  - destruct (entry_op S e') as [op'|]; cbn; by apply IH.
Qed.

(** ** The loop *)

Section baseline.
Context {env : Type} `{LmdbLaws env}.
Implicit Types (d : DB env) (bl : Baseline).

Definition after_prev (kind : byte) (key : bytes) (e : Entry) : Prop :=
  match entry_key e with
  | Some k => (kind < entry_kind e)%Z ∨ entry_kind e = kind ∧ (key < k)%bytes
  | None => False
  end.

Lemma baseline_step d bl e :
  known_entry e →
  match e with
  | EntryAccount a x => bl_Account d bl a x
  | EntrySlot a s v => bl_Slot d bl a s v
  | EntryCode h c => bl_Code d bl h c
  | EntryOther _ => (Ok (), d, bl)
  end = match entry_call e with Some c => loader_step d bl c | None => (Ok (), d, bl) end.
Proof. by destruct e. Qed.

Lemma Flush_progress d bl : bl_progress bl = None → bl_progress (Flush d bl).2 = None.
Proof.
  intros Hp. unfold Flush. destruct (_ && _); [done|].
  destruct (Update _ _) as [[[]|] e']; done.
Qed.

Lemma loader_step_progress d bl c :
  bl_progress bl = None → is_Some (call_op (bl_s bl) c) → bl_progress (loader_step d bl c).2 = None.
Proof.
  intros Hp Hc. destruct c; cbn [loader_step]; try (by destruct Hc);
    unfold bl_Account, bl_Slot, bl_Code, BaseAccount, BaseSlot, QueueStorage, DequeueStorage,
      bl_add, bl_addDel; case_match; try done; by apply Flush_progress.
Qed.

Lemma wf_call_effect S m c : wf_db m → is_Some (call_op S c) → wf_db (call_effect S m c).
Proof.
  intros Hwf [op Hop]. assert (call_effect S m c = apply_blops m [op]) as ->.
  { destruct c; simplify_eq/=; done. }
  apply wf_apply_blops; [done|]. constructor; [by eapply call_op_ok|done].
Qed.

(** One loop body on an entry the guard let through. *)
Definition add_entry d bl (e : Entry) : result unit * DB env * Baseline :=
  match e with
  | EntryAccount a x => bl_Account d bl a x
  | EntrySlot a s v => bl_Slot d bl a s v
  | EntryCode h c => bl_Code d bl h c
  | EntryOther _ => (Ok (), d, bl)
  end.

Lemma loader_step_fails d bl c er d' bl' :
  buffer_ok bl → loader_step d bl c = (Err er, d', bl') → faults ∧ ∃ n, er = ErrLmdb n.
Proof.
  intros Hb Hs. destruct (call_op (bl_s bl) c) as [op|] eqn:Eo.
  - assert ((if (baselineChunk <=? Z.of_nat (length (bl_ops (bl_append bl op))))%Z
             then Flush d (bl_append bl op) else (Ok (), d, bl_append bl op)) = (Err er, d', bl')) as Ha.
    { rewrite <-Hs. destruct c; cbn [call_op] in Eo; simplify_eq; done. }
    destruct (_ <=? _)%Z; [|done]. pose proof (Flush_cases d (bl_append bl op)) as Hf. rewrite Ha in Hf.
    destruct Hf as (_ & _ & ?); [|done]. apply Forall_app. split; [done|].
    constructor; [by eapply call_op_ok|constructor].
  - destruct c; try done; cbn [loader_step] in Hs.
    pose proof (Flush_cases d bl Hb) as Hf. rewrite Hs in Hf. by destruct Hf as (_ & _ & ?).
Qed.

Lemma add_entry_spec d bl e :
  known_entry e → buffer_ok bl → wf_db (rows d) → bl_progress bl = None →
  match add_entry d bl e with
  | (Ok _, d1, bl1) =>
      buffer_ok bl1 ∧ wf_db (rows d1) ∧ bl_progress bl1 = None ∧ bl_s bl1 = bl_s bl ∧
      ∃ op, entry_op (bl_s bl) e = Some op ∧ view d1 bl1 = apply_blop (view d bl) op
  | (Err er, _, _) => faults ∧ ∃ n, er = ErrLmdb n
  end.
Proof.
  intros Hk Hb Hwf Hp. unfold add_entry. rewrite (baseline_step d bl e Hk).
  destruct (known_entry_op (bl_s bl) e Hk) as (op & Hop & Hopok & Hdel).
  destruct (entry_call e) as [c|] eqn:Ec; [|by destruct e].
  assert (is_Some (call_op (bl_s bl) c)) as Hc.
  { unfold entry_op in Hop. rewrite Ec in Hop. by eexists. }
  pose proof (loader_step_spec d bl c Hb) as (Hb1 & Hs1 & Hstep).
  pose proof (loader_step_progress d bl c Hp Hc) as Hp1.
  destruct (loader_step d bl c) as [[[[]|er] d1] bl1] eqn:El; [|exact (loader_step_fails d bl c er d1 bl1 Hb El)].
  cbn [snd] in *. destruct Hstep as [Hv Hcom]. split_and!; [done| |done|done|].
  - destruct Hcom as [->| ->]; [done|]. rewrite Hv. apply wf_call_effect; [|done].
    unfold view. rewrite Hp. by apply wf_apply_blops.
  - exists op. split; [done|]. rewrite Hv. unfold entry_op in Hop. rewrite Ec in Hop.
    by destruct c; simplify_eq/=.
Qed.

(** The guard of the loop body is [after_prev]. *)
Lemma guard_spec (kind : byte) key e k :
  entry_key e = Some k →
  (entry_kind e <? kind)%Z = false ∧
    (entry_kind e =? kind)%Z && bool_decide (k ≤ key)%bytes = false ↔ after_prev kind key e.
Proof.
  intros Ek. unfold after_prev. rewrite Ek, Z.ltb_ge, andb_false_iff, Z.eqb_neq, bool_decide_eq_false,
    <-bytes_lt_not_le. split.
  - intros [Hle Hor]. destruct (decide (uval (entry_kind e) = kind)) as [Heq%uint_eq|]; [right|left; lia].
    split; [done|]. destruct Hor as [[]|?]; [by rewrite Heq|done].
  - intros [Hlt|[-> Hlt]]; (split; [lia|]); [left; lia|by right].
Qed.

Lemma after_prev_trans (kind : byte) key e e' k :
  entry_key e = Some k → after_prev kind key e → after_prev (entry_kind e) k e' → after_prev kind key e'.
Proof.
  intros Ek. unfold after_prev. rewrite Ek. destruct (entry_key e'); [|done].
  intros [?|[He ?]] [?|[He' ?]]; [left; lia|left; by rewrite He'|left; by rewrite <-He|].
  right. split; [congruence|by eapply bytes_lt_trans].
Qed.

Lemma after_prev_lt e k e' : entry_key e = Some k → after_prev (entry_kind e) k e' ↔ entry_lt e e'.
Proof.
  intros Ek. unfold after_prev, entry_lt. rewrite Ek. destruct (entry_key e'); [|done].
  split; (intros [?|[He ?]]; [by left|right; by rewrite He]).
Qed.

(** The entries the loop accepts after one of [kind] and [key]. *)
Definition ascending (kind : byte) (key : bytes) (it : list Entry) : Prop :=
  StronglySorted entry_lt it ∧ Forall (after_prev kind key) it.

Lemma ascending_cons kind key e k it :
  entry_key e = Some k →
  ascending kind key (e :: it) ↔ after_prev kind key e ∧ ascending (entry_kind e) k it.
Proof.
  intros Ek. unfold ascending. split.
  - intros [[Hs Hlt]%StronglySorted_inv [Ha Has]%Forall_cons]. split_and!; [done..|].
    eapply Forall_impl; [exact Hlt|]. intros e'. by apply after_prev_lt.
  - intros (Ha & Hs & Has). split.
    + constructor; [done|]. eapply Forall_impl; [exact Has|]. intros e'. by apply after_prev_lt.
    + constructor; [done|]. eapply Forall_impl; [exact Has|]. intros e'. by apply after_prev_trans.
Qed.

Lemma entry_op_queue S e op m h :
  entry_op S e = Some op →
  apply_blop m op !! key_bytes (KStorageQueue h) = m !! key_bytes (KStorageQueue h).
Proof.
  intros Hop. destruct (entry_op_key _ _ _ Hop) as (dk & Hdk & Hk). unfold apply_blop.
  assert (bo_k op ≠ key_bytes (KStorageQueue h)).
  { rewrite Hk. intros ->%key_bytes_inj. by destruct e. }
  destruct (bo_del op); [by rewrite lookup_delete_ne|by rewrite lookup_insert_ne].
Qed.

(** The whole loop: it ends well exactly when the iterator ends well, its
    entries are of known kinds and ascending and no account is queued. *)
Lemma baseline_loop_cases d bl kind key it end_ :
  buffer_ok bl → wf_db (rows d) → bl_progress bl = None →
  let v := apply_blops (view d bl) (omap (entry_op (bl_s bl)) it) in
  match baseline_loop d bl kind key it end_ with
  | (Ok _, d', _) =>
      end_ = None ∧ Forall known_entry it ∧ ascending kind key it ∧ queue_empty (view d bl) ∧
      rows d' = <[MetaBaselineComplete:=[byte_lit 1]]> (delete MetaBaselineProgress v)
  | (Err er, _, _) =>
      end_ ≠ None ∨ ¬ Forall known_entry it ∨ ¬ ascending kind key it ∨ ¬ queue_empty (view d bl) ∨
      faults ∧ ∃ n, er = ErrLmdb n
  end.
Proof.
  revert d bl kind key. induction it as [|e it IH]; intros d bl kind key Hb Hwf Hp v; cbn [baseline_loop].
  - destruct end_; [by left|]. pose proof (Finish_cases d bl Hwf Hb) as Hfin. subst v.
    unfold view. rewrite Hp. cbn [put_progress]. destruct (Finish d bl) as [[[u|er] d'] bl'].
    + destruct Hfin as (Hq & _ & Hrows). by repeat split; try constructor.
    + destruct Hfin as (_ & _ & [[_ ?]|?]); by eauto 6.
  - destruct (entry_key e) as [k|] eqn:Ek; cycle 1.
    { right; left. intros [[? Hk] _]%Forall_cons. congruence. }
    pose proof (guard_spec kind key e k Ek) as Hg.
    pose proof (ascending_cons kind key e k it Ek) as Hasc.
    destruct (entry_kind e <? kind)%Z; [right; right; left; by intros [[??]%Hg _]%Hasc|].
    destruct (_ && _); [right; right; left; by intros [[??]%Hg _]%Hasc|].
    assert (known_entry e) as Hk by by eexists.
    pose proof (add_entry_spec d bl e Hk Hb Hwf Hp) as Hadd. fold (add_entry d bl e).
    destruct (add_entry d bl e) as [[[u|er] d1] bl1]; [|by eauto 6].
    destruct Hadd as (Hb1 & Hwf1 & Hp1 & Hs1 & op & Hop & Hv).
    specialize (IH d1 bl1 (entry_kind e) k Hb1 Hwf1 Hp1). cbv zeta in IH. rewrite Hs1, Hv in IH.
    assert (queue_empty (apply_blop (view d bl) op) ↔ queue_empty (view d bl)) as Hq.
    { unfold queue_empty. by setoid_rewrite (entry_op_queue _ _ _ _ _ Hop). }
    subst v. cbn [omap list_omap]. rewrite Hop. change (apply_blops (view d bl) (op :: ?l))
      with (apply_blops (apply_blop (view d bl) op) l).
    destruct (baseline_loop d1 bl1 (entry_kind e) k it end_) as [[[u'|er] d'] bl'];
      rewrite Forall_cons; tauto.
Qed.

(** Before its first entry the loop accepts any known kind. *)
Lemma ascending_start it :
  Forall known_entry it → ascending u_zero [] it ↔ StronglySorted entry_lt it.
Proof.
  intros Hk. split; [by intros [? _]|]. intros Hs. split; [done|].
  eapply Forall_impl; [exact Hk|]. intros e [k Hek]. unfold after_prev. rewrite Hek. left.
  by destruct e.
Qed.

Lemma known_entries_ok S it : Forall known_entry it → Forall blop_ok (omap (entry_op S) it).
Proof.
  intros Hk. apply Forall_forall. intros op (e & He & Hop)%list_elem_of_omap.
  rewrite Forall_forall in Hk. destruct (known_entry_op S e (Hk e He)) as (op' & ? & ? & _). congruence.
Qed.

(** The rows of a finished baseline. *)
Lemma finished_rows S it m e op :
  Forall known_entry it → StronglySorted entry_lt it → e ∈ it → entry_op S e = Some op →
  (<[MetaBaselineComplete:=[byte_lit 1]]>
    (delete MetaBaselineProgress (apply_blops m (omap (entry_op S) it)))) !! bo_k op = Some (bo_v op).
Proof.
  intros Hk Hs He Hop. rewrite Forall_forall in Hk.
  destruct (known_entry_op S e (Hk e He)) as (op' & Hop' & Hopok & Hdel). simplify_eq.
  pose proof (blop_not_meta op KMetaBaselineComplete Hopok eq_refl) as Hn1. cbn [key_bytes] in Hn1.
  pose proof (blop_not_meta op KMetaBaselineProgress Hopok eq_refl) as Hn2. cbn [key_bytes] in Hn2.
  rewrite lookup_insert_ne, lookup_delete_ne by done. by eapply ascending_rows.
Qed.

Lemma queue_empty_genesis m v : queue_empty (<[MetaGenesis:=v]> m) ↔ queue_empty m.
Proof.
  unfold queue_empty. change MetaGenesis with (key_bytes KMetaGenesis).
  split; intros Hq h; specialize (Hq h); [rewrite lookup_insert_ne in Hq|rewrite lookup_insert_ne]; try done;
    by intros ?%key_bytes_inj.
Qed.

(** The whole function: success, and what a failure means. *)
Lemma RunBaseline_cases d S it end_ :
  wf_db (rows d) → cache_ok d →
  match RunBaseline d S it end_ with
  | (Ok _, d') =>
      end_ = None ∧ Forall known_entry it ∧ StronglySorted entry_lt it ∧
      genesis_row (rows d') = Some S ∧ baseline_complete (rows d') = true ∧
      ∀ e op, e ∈ it → entry_op S e = Some op → rows d' !! bo_k op = Some (bo_v op)
  | (Err er, _) =>
      end_ ≠ None ∨ ¬ Forall known_entry it ∨ ¬ StronglySorted entry_lt it ∨
      ¬ queue_empty (rows d) ∨ (∃ g, genesis_row (rows d) = Some g ∧ g ≠ S) ∨
      faults ∧ ∃ n, er = ErrLmdb n
  end.
Proof.
  intros Hwf Hc. unfold RunBaseline. pose proof (NewBaseline_cases d S Hwf Hc) as Hnew.
  destruct (NewBaseline d S) as [[bl|er] d1]; cycle 1.
  { destruct Hnew as (_ & _ & [(g & ? & ? & _)|?]); by eauto 8. }
  destruct Hnew as (-> & _ & Hrows1).
  assert (wf_db (rows d1) ∧ genesis_row (rows d1) = Some S ∧
          (queue_empty (rows d1) ↔ queue_empty (rows d))) as (Hwf1 & Hg1 & Hq1).
  { destruct Hrows1 as [[Hg ->]|[_ ->]]; [done|]. split_and!.
    - apply (wf_db_insert _ KMetaGenesis); [done|]. apply length_be_bytes.
    - unfold genesis_row. rewrite lookup_insert_eq. cbn [fmap option_fmap option_map].
      by rewrite beU64_beBytes.
    - apply queue_empty_genesis. }
  pose proof (baseline_loop_cases d1 (MkBaseline S [] None) u_zero [] it end_ (Forall_nil_2 _) Hwf1
    eq_refl) as Hl. cbv zeta in Hl. cbn [bl_s] in Hl.
  change (view d1 (MkBaseline S [] None)) with (rows d1) in Hl.
  pose proof (ascending_start it) as Hasc.
  destruct (baseline_loop d1 _ _ _ _ _) as [[[u|er] d2] bl2];
    [|destruct (decide (Forall known_entry it)); tauto].
  destruct Hl as (-> & Hk & Hs%Hasc & _ & Hrows2); [|done]. split_and!; [done..| | |].
  - unfold genesis_row in *. rewrite Hrows2, lookup_insert_ne, lookup_delete_ne by done.
    change MetaGenesis with (key_bytes KMetaGenesis).
    rewrite apply_blops_meta by (done || by apply known_entries_ok). done.
  - unfold baseline_complete. by rewrite Hrows2, lookup_insert_eq.
  - intros e op He Hop. rewrite Hrows2. by eapply finished_rows.
Qed.

(** ** Resuming after a crash *)

Lemma Finalized_upto d f :
  rows d !! MetaFinalized = Some (beBytes f) → upto_faults (Finalized d) (Ok (Some f)).
Proof.
  intros Hf. apply View_upto. unfold getMetaU64. eapply upto_trans_bind; [apply get_upto|].
  fold (rows d). rewrite Hf. left. unfold beBytes, AppendUint64. cbn [app].
  rewrite length_be_bytes. cbn [Nat.eqb]. unfold beU64. by rewrite Uint64_be_bytes'.
Qed.

Lemma WriteFinal_cases d b :
  encodable b →
  match WriteFinal d b with
  | (Ok _, d') =>
      upto_faults (resumeFromStore d').1 (Ok (MkAnchor (Block b) (Some (BHash b)))) ∧
      rows d' = <[MetaFinalized:=beBytes (Block b)]> (block_rows b (rows d))
  | (Err e, d') => (d' = d ∨ rows d' = block_rows b (rows d)) ∧ faults ∧ ∃ c, e = ErrLmdb c
  end.
Proof.
  intros He. unfold WriteFinal. pose proof (WriteBlock_cases d b) as Hw.
  destruct (WriteBlock d b) as [[[]|e] d1]; cycle 1.
  { destruct Hw as (-> & [[_ Hn]|?]); [|by eauto]. destruct Hn. by apply encodable_known. }
  destruct Hw as (_ & Hrows1 & _).
  unfold SetFinalized. pose proof (putMeta_cases d1 KMetaFinalized (beBytes (Block b))) as Hp.
  cbn [key_bytes] in Hp. destruct (putMeta d1 MetaFinalized _) as [[[]|e] d2]; cycle 1.
  { destruct Hp as (-> & ?). by eauto. }
  destruct Hp as [Hrows2 _]. rewrite Hrows1 in Hrows2. split; [|done].
  assert (rows d2 !! MetaFinalized = Some (beBytes (Block b))) as Hf.
  { rewrite Hrows2. apply lookup_insert_eq. }
  unfold resumeFromStore.
  destruct (Finalized_upto d2 _ Hf) as [->|[? [c ->]]]; [|right; by eauto].
  destruct (GetDiff_upto d2 (Block b) b) as [->|[? [c ->]]]; [|by left|right; by eauto].
  destruct (Encode_total b He) as [v Hv]. exists v. split; [|by apply Decode_Encode].
  rewrite Hrows2, lookup_insert_ne by (by intros ?%(key_bytes_inj KMetaFinalized (KDiff (Block b)))).
  unfold block_rows. rewrite Hv. apply lookup_insert_eq.
Qed.
End baseline.
