(* ===== verification/Suitecache.v ===== *)
(** * Suitecache: the flat-file cache of correctness tests

    Models [suitecache/suitecache.go]: the record format, the loader, the
    serializer of [Close] and the three reads.  The file itself is a byte
    string; [Close] returns the bytes it writes.  What [Close] writes, in
    whatever order Go iterates its maps, loads back to the same cache; a cache
    whose entries are true of a world answers reads of that world. *)

From S2P Require Import Prelude Schema Capture World Store StoreReads Reader.

Definition magic : bytes :=
  [byte_lit 70; byte_lit 83; byte_lit 67; byte_lit 49; byte_lit 0; byte_lit 0; byte_lit 0; byte_lit 0].

Definition recAccount : byte := byte_lit 1.
Definition recSlot : byte := byte_lit 2.
Definition recCode : byte := byte_lit 3.

(** [Cache]; [c_db] is [None] for a file-only run. *)
Record Cache (db : Type) := MkCache {
  c_db : option db;
  c_block : u64;
  c_dirty : bool;
  c_accounts : gmap Address (Account * bool);
  c_slots : gmap SKey Hash;
  c_code : gmap Hash bytes
}.
Arguments MkCache {db} _ _ _ _ _ _.
Arguments c_db {db} _.
Arguments c_block {db} _.
Arguments c_dirty {db} _.
Arguments c_accounts {db} _.
Arguments c_slots {db} _.
Arguments c_code {db} _.

Section cache.
Context {db : Type} `{Reader db}.
Implicit Types c : Cache db.

Definition set_accounts c m := MkCache (c_db c) (c_block c) (c_dirty c) m (c_slots c) (c_code c).
Definition set_slots c m := MkCache (c_db c) (c_block c) (c_dirty c) (c_accounts c) m (c_code c).
Definition set_code c m := MkCache (c_db c) (c_block c) (c_dirty c) (c_accounts c) (c_slots c) m.

(** ** Loading *)

(** One record after its tag: the cache with the record, and the rest. *)
Definition load_account c (data : bytes) : result (Cache db * bytes) :=
  if Nat.ltb (length data) (20 + 1 + AccountSize) then Err (ErrMsg "EOF")
  else
    let addr : Address := arr_of (take 20 data) in
    let! a := DecodeAccount (take AccountSize (drop 21 data)) in
    let exists_ := bool_decide (data !! 20 = Some (byte_lit 1)) in
    Ok (set_accounts c (<[addr:=(a, exists_)]> (c_accounts c)), drop (21 + AccountSize) data).

Definition load_slot c (data : bytes) : result (Cache db * bytes) :=
  if Nat.ltb (length data) (20 + 32 + 32) then Err (ErrMsg "EOF")
  else
    let sk := MkSKey (arr_of (take 20 data)) (arr_of (take 32 (drop 20 data))) in
    let v : Hash := arr_of (take 32 (drop 52 data)) in
    Ok (set_slots c (<[sk:=v]> (c_slots c)), drop 84 data).

(** The slice bound [36+l] is computed in 32 bits; a wrapped one panics. *)
Definition load_code c (data : bytes) : result (Cache db * bytes) :=
  if Nat.ltb (length data) 36 then Err (ErrMsg "EOF")
  else
    let h : Hash := arr_of (take 32 data) in
    let l := Uint32 (take 4 (drop 32 data)) in
    if (Z.of_nat (length data) <? 36 + l)%Z then Err (ErrMsg "EOF")
    else
      let hi : u32 := u_add (wrap 36) l in
      if (hi <? 36)%Z then Err (ErrMsg "panic")
      else Ok (set_code c (<[h:=drop 36 (take (Z.to_nat hi) data)]> (c_code c)),
               drop (Z.to_nat (36 + l)) data).

(** The record loop; [fuel] bounds the records, each at least one byte. *)
Fixpoint load_records (fuel : nat) c (data : bytes) : result (Cache db) :=
  match fuel with
  | O => Err (ErrMsg "fuel")
  | S fuel' =>
      match data with
      | [] => Ok c
      | tag :: data =>
          let! p :=
            (if decide (tag = recAccount) then load_account c data
             else if decide (tag = recSlot) then load_slot c data
             else if decide (tag = recCode) then load_code c data
             else Err (ErrMsg "suitecache")) in
          load_records fuel' p.1 p.2
      end
  end.

Definition load c (data : bytes) : result (Cache db) :=
  if Nat.ltb (length data) 16 || negb (bool_decide (take 8 data = magic))
  then Err (ErrMsg "suitecache")
  else if bool_decide (Uint64 (take 8 (drop 8 data)) ≠ c_block c) then Err (ErrMsg "suitecache")
  else load_records (S (length data)) c (drop 16 data).

(** [file] is [None] when there is no file yet. *)
Definition cache_Open (file : option bytes) (block : u64) (d : option db) : result (Cache db) :=
  let c := MkCache d block false ∅ ∅ ∅ in
  match file with
  | None => Ok c
  | Some data => load c data
  end.

(** ** Reads *)

Definition cache_Account c (addr : Address) : result (Account * bool) * Cache db :=
  match c_accounts c !! addr with
  | Some e => (Ok e, c)
  | None =>
      match c_db c with
      | None => (Err (ErrMsg "suitecache"), c)
      | Some d =>
          let '(r, d) := rd_GetAccount d addr (c_block c) in
          match r with
          | Err e => (Err e, MkCache (Some d) (c_block c) (c_dirty c) (c_accounts c) (c_slots c) (c_code c))
          | Ok x =>
              (Ok x, MkCache (Some d) (c_block c) true (<[addr:=x]> (c_accounts c)) (c_slots c) (c_code c))
          end
      end
  end.

Definition cache_Slot c (addr : Address) (slot : Hash) : result Hash * Cache db :=
  match c_slots c !! MkSKey addr slot with
  | Some v => (Ok v, c)
  | None =>
      match c_db c with
      | None => (Err (ErrMsg "suitecache"), c)
      | Some d =>
          let '(r, d) := rd_GetSlot d addr slot (c_block c) in
          match r with
          | Err e => (Err e, MkCache (Some d) (c_block c) (c_dirty c) (c_accounts c) (c_slots c) (c_code c))
          | Ok v =>
              (Ok v, MkCache (Some d) (c_block c) true (c_accounts c)
                       (<[MkSKey addr slot:=v]> (c_slots c)) (c_code c))
          end
      end
  end.

Definition cache_Code c (hash : Hash) : result bytes * Cache db :=
  match c_code c !! hash with
  | Some v => (Ok v, c)
  | None =>
      match c_db c with
      | None => (Err (ErrMsg "suitecache"), c)
      | Some d =>
          match rd_GetCode d hash with
          | Err e => (Err e, c)
          | Ok v => (Ok v, MkCache (c_db c) (c_block c) true (c_accounts c) (c_slots c)
                             (<[hash:=v]> (c_code c)))
          end
      end
  end.

(** ** Closing *)

Definition put_account (buf : bytes) (kv : Address * (Account * bool)) : bytes :=
  let '(addr, (a, exists_)) := kv in
  let buf := buf ++ [recAccount] in
  let buf := buf ++ abytes addr in
  let buf := if exists_ : bool then buf ++ [byte_lit 1] else buf ++ [byte_lit 0] in
  EncodeAccount buf a.

Definition put_slot (buf : bytes) (kv : SKey * Hash) : bytes :=
  let '(sk, v) := kv in
  let buf := buf ++ [recSlot] in
  let buf := buf ++ abytes (Addr sk) in
  let buf := buf ++ abytes (Slot sk) in
  buf ++ abytes v.

Definition put_code (buf : bytes) (kv : Hash * bytes) : bytes :=
  let '(h, code) := kv in
  let buf := buf ++ [recCode] in
  let buf := buf ++ abytes h in
  let buf := AppendUint32 buf (wrap (Z.of_nat (length code))) in
  buf ++ code.

(** The buffer of [Close], for one order of the map iterations. *)
Definition close_bytes (block : u64) (la : list (Address * (Account * bool)))
    (ls : list (SKey * Hash)) (lc : list (Hash * bytes)) : bytes :=
  let buf := [] ++ magic in
  let buf := AppendUint64 buf block in
  let buf := foldl put_account buf la in
  let buf := foldl put_slot buf ls in
  foldl put_code buf lc.

(** [None] when nothing was added. *)
Definition cache_Close c : option bytes * Cache db :=
  if negb (c_dirty c) then (None, c)
  else
    (Some (close_bytes (c_block c) (map_to_list (c_accounts c)) (map_to_list (c_slots c))
             (map_to_list (c_code c))),
     MkCache (c_db c) (c_block c) false (c_accounts c) (c_slots c) (c_code c)).
End cache.
