(* ===== verification/SuitecacheProof.v ===== *)
(** * SuitecacheProof: round trip and truth of the test cache *)

From S2P Require Import Prelude Schema Capture World Store StoreReads Reader Suitecache.

(** ** Records *)

Inductive record :=
| RAccount (addr : Address) (a : Account) (exists_ : bool)
| RSlot (sk : SKey) (v : Hash)
| RCode (h : Hash) (code : bytes).

Definition record_bytes (r : record) : bytes :=
  match r with
  | RAccount addr a ex =>
      [recAccount] ++ abytes addr ++ [if ex then byte_lit 1 else byte_lit 0] ++ EncodeAccount [] a
  | RSlot sk v => [recSlot] ++ abytes (Addr sk) ++ abytes (Slot sk) ++ abytes v
  | RCode h code =>
      [recCode] ++ abytes h ++ be_bytes 4 (wrap (w:=32) (Z.of_nat (length code))) ++ code
  end.

(** A code whose record can be read back: the slice bound must not wrap. *)
Definition record_ok (r : record) : Prop :=
  match r with RCode _ code => (36 + Z.of_nat (length code) < 2 ^ 32)%Z | _ => True end.

Section proof.
Context {db : Type}.
Implicit Types c : Cache db.

Definition apply_record c (r : record) : Cache db :=
  match r with
  | RAccount addr a ex => set_accounts c (<[addr:=(a, ex)]> (c_accounts c))
  | RSlot sk v => set_slots c (<[sk:=v]> (c_slots c))
  | RCode h code => set_code c (<[h:=code]> (c_code c))
  end.

Lemma put_account_bytes buf addr a ex :
  put_account buf (addr, (a, ex)) = buf ++ record_bytes (RAccount addr a ex).
Proof.
  unfold put_account. rewrite EncodeAccount_app. cbn [record_bytes].
  destruct ex; by rewrite <-!(assoc_L (++)).
Qed.
Lemma put_slot_bytes buf sk v : put_slot buf (sk, v) = buf ++ record_bytes (RSlot sk v).
Proof. cbn. by rewrite <-!(assoc_L (++)). Qed.
Lemma put_code_bytes buf h code : put_code buf (h, code) = buf ++ record_bytes (RCode h code).
Proof. cbn. unfold AppendUint32. by rewrite <-!(assoc_L (++)). Qed.

Lemma load_account_record c addr a (ex : bool) rest :
  load_account c (abytes addr ++ [if ex then byte_lit 1 else byte_lit 0] ++ EncodeAccount [] a ++ rest) =
  Ok (apply_record c (RAccount addr a ex), rest).
Proof.
  assert (length (EncodeAccount [] a) = AccountSize) as Hl by apply length_EncodeAccount.
  unfold load_account. rewrite !length_app, length_abytes, Hl. cbn [length].
  destruct (Nat.ltb_spec (20 + (1 + (AccountSize + length rest))) (20 + 1 + AccountSize)); [lia|].
  rewrite take_app_exact by apply length_abytes. rewrite arr_of_abytes.
  rewrite lookup_app_r, length_abytes, Nat.sub_diag by (by rewrite length_abytes).
  rewrite (assoc_L (++)), drop_app_exact by (rewrite length_app, length_abytes; done).
  rewrite take_app_exact by done. rewrite DecodeAccount_Encode. cbn [rbind].
  assert (bool_decide (([if ex then byte_lit 1 else byte_lit 0] ++ EncodeAccount [] a ++ rest) !! 0 =
    Some (byte_lit 1)) = ex) as ->.
  { cbn. destruct ex; [by rewrite bool_decide_eq_true_2|by rewrite bool_decide_eq_false_2]. }
  rewrite (assoc_L (++)), drop_app_exact; [done|].
  rewrite !length_app, length_abytes, Hl. done.
Qed.

Lemma load_slot_record c sk v rest :
  load_slot c (abytes (Addr sk) ++ abytes (Slot sk) ++ abytes v ++ rest) =
  Ok (apply_record c (RSlot sk v), rest).
Proof.
  unfold load_slot. rewrite !length_app, !length_abytes.
  destruct (Nat.ltb_spec (20 + (32 + (32 + length rest))) (20 + 32 + 32)); [lia|].
  rewrite take_app_exact, (drop_app_exact _ _ 20), take_app_exact by apply length_abytes.
  rewrite !arr_of_abytes.
  rewrite (assoc_L (++) (abytes (Addr sk))), (drop_app_exact _ _ 52)
    by (rewrite length_app, !length_abytes; done).
  rewrite take_app_exact by apply length_abytes. rewrite arr_of_abytes.
  rewrite (assoc_L (++)), drop_app_exact by (rewrite !length_app, !length_abytes; done).
  by destruct sk.
Qed.

Lemma load_code_record c h code rest :
  (36 + Z.of_nat (length code) < 2 ^ 32)%Z →
  load_code c (abytes h ++ be_bytes 4 (wrap (w:=32) (Z.of_nat (length code))) ++ code ++ rest) =
  Ok (apply_record c (RCode h code), rest).
Proof.
  intros Hlen. unfold load_code. rewrite !length_app, length_abytes, length_be_bytes.
  destruct (Nat.ltb_spec (32 + (4 + (length code + length rest))) 36); [lia|].
  rewrite take_app_exact, (drop_app_exact _ _ 32), take_app_exact
    by (apply length_abytes || apply length_be_bytes).
  rewrite arr_of_abytes, Uint32_be_bytes'.
  assert (uval (u_add (wrap (w:=32) 36) (wrap (Z.of_nat (length code)))) = 36 + Z.of_nat (length code))%Z as ->.
  { unfold u_add. rewrite (wrap_small 36), (wrap_small (Z.of_nat _)) by lia. rewrite wrap_small; lia. }
  rewrite !wrap_small by lia.
  destruct (Z.ltb_spec (Z.of_nat (32 + (4 + (length code + length rest)))) (36 + Z.of_nat (length code))); [lia|].
  destruct (Z.ltb_spec (36 + Z.of_nat (length code)) 36); [lia|].
  set (pre := abytes h ++ be_bytes 4 (Z.of_nat (length code))).
  assert (length pre = 36) as Hpre by (unfold pre; rewrite length_app, length_abytes, length_be_bytes; done).
  rewrite (assoc_L (++) (abytes h)). fold pre.
  replace (Z.to_nat (36 + Z.of_nat (length code))) with (length (pre ++ code)) by (rewrite length_app; lia).
  rewrite (assoc_L (++) pre), take_app_length, drop_app_length, drop_app_exact by done. done.
Qed.

Lemma load_records_spec recs fuel c :
  Forall record_ok recs → length recs < fuel →
  load_records fuel c (concat (record_bytes <$> recs)) = Ok (foldl apply_record c recs).
Proof.
  intros Hok. revert fuel c. induction Hok as [|r recs Hr _ IH]; intros fuel c Hf.
  - by destruct fuel; [lia|].
  - destruct fuel as [|fuel]; [cbn in Hf; lia|]. cbn [length] in Hf.
    rewrite fmap_cons. cbn [concat foldl].
    assert (∀ rest, ∃ tag, record_bytes r ++ rest = tag :: drop 1 (record_bytes r ++ rest) ∧
      (if decide (tag = recAccount) then load_account c (drop 1 (record_bytes r ++ rest))
       else if decide (tag = recSlot) then load_slot c (drop 1 (record_bytes r ++ rest))
       else if decide (tag = recCode) then load_code c (drop 1 (record_bytes r ++ rest))
       else Err (ErrMsg "suitecache")) = Ok (apply_record c r, rest)) as Hload.
    { intros rest. destruct r as [addr a ex|sk v|h code]; eexists; (split; [reflexivity|]);
        cbn [record_bytes app drop]; rewrite <-!(assoc_L (++)).
      - apply load_account_record.
      - apply load_slot_record.
      - by apply load_code_record. }
    destruct (Hload (concat (record_bytes <$> recs))) as (tag & Heq & Hl).
    rewrite Heq. cbn [load_records]. rewrite Hl. cbn [rbind fst snd]. apply IH. lia.
Qed.

(** ** Closing and reopening *)

Definition records (la : list (Address * (Account * bool))) (ls : list (SKey * Hash))
    (lc : list (Hash * bytes)) : list record :=
  ((λ kv, RAccount kv.1 kv.2.1 kv.2.2) <$> la) ++ ((λ kv, RSlot kv.1 kv.2) <$> ls) ++
  ((λ kv, RCode kv.1 kv.2) <$> lc).

Lemma foldl_put {A} (put : bytes → A → bytes) (rec : A → record) buf l :
  (∀ buf x, put buf x = buf ++ record_bytes (rec x)) →
  foldl put buf l = buf ++ concat (record_bytes <$> (rec <$> l)).
Proof.
  intros Hput. revert buf. induction l as [|x l IH]; intros buf; cbn; [by rewrite app_nil_r|].
  rewrite IH, Hput. by rewrite <-(assoc_L (++)).
Qed.

Lemma close_bytes_records block la ls lc :
  close_bytes block la ls lc =
  magic ++ be_bytes 8 (uval block) ++ concat (record_bytes <$> records la ls lc).
Proof.
  unfold close_bytes.
  rewrite (foldl_put put_account (λ kv, RAccount kv.1 kv.2.1 kv.2.2))
    by (intros ? [? [? ?]]; apply put_account_bytes).
  rewrite (foldl_put put_slot (λ kv, RSlot kv.1 kv.2)) by (intros ? [? ?]; apply put_slot_bytes).
  rewrite (foldl_put put_code (λ kv, RCode kv.1 kv.2)) by (intros ? [? ?]; apply put_code_bytes).
  unfold records, AppendUint64. rewrite !fmap_app, !concat_app. cbn [app].
  by rewrite <-!(assoc_L (++)).
Qed.

Lemma apply_records c la ls lc :
  foldl apply_record c (records la ls lc) =
  MkCache (c_db c) (c_block c) (c_dirty c)
    (foldl (λ m kv, <[kv.1:=kv.2]> m) (c_accounts c) la)
    (foldl (λ m kv, <[kv.1:=kv.2]> m) (c_slots c) ls)
    (foldl (λ m kv, <[kv.1:=kv.2]> m) (c_code c) lc).
Proof.
  unfold records. rewrite !foldl_app. destruct c as [d blk dy ma ms mc]. cbn.
  assert (∀ ma, foldl apply_record (MkCache d blk dy ma ms mc)
      ((λ kv : Address * (Account * bool), RAccount kv.1 kv.2.1 kv.2.2) <$> la) =
    MkCache d blk dy (foldl (λ m kv, <[kv.1:=kv.2]> m) ma la) ms mc) as ->.
  { induction la as [|[k [x ex]] la IH]; intros ma'; [done|]. cbn. apply IH. }
  generalize (foldl (λ m kv, <[kv.1:=kv.2]> m) ma la) as ma'. intros ma'.
  assert (∀ ms, foldl apply_record (MkCache d blk dy ma' ms mc)
      ((λ kv : SKey * Hash, RSlot kv.1 kv.2) <$> ls) =
    MkCache d blk dy ma' (foldl (λ m kv, <[kv.1:=kv.2]> m) ms ls) mc) as ->.
  { induction ls as [|[k x] ls IH]; intros ms'; [done|]. cbn. apply IH. }
  generalize (foldl (λ m kv, <[kv.1:=kv.2]> m) ms ls) as ms'. intros ms'. revert mc.
  induction lc as [|[k x] lc IH]; intros mc; [done|]. cbn. apply IH.
Qed.

(** Re-inserting the pairs of a map, in any order, rebuilds it. *)
Lemma rebuild_map {K A} `{Countable K} (m : gmap K A) l :
  l ≡ₚ map_to_list m → foldl (λ m kv, <[kv.1:=kv.2]> m) ∅ l = m.
Proof.
  intros Hp. assert (NoDup (l.*1)) as Hnd by (rewrite Hp; apply NoDup_fst_map_to_list).
  assert (∀ l m0, NoDup (l.*1) → foldl (λ (m : gmap K A) kv, <[kv.1:=kv.2]> m) m0 l = list_to_map l ∪ m0) as Hf.
  { clear. induction l as [|[k x] l IH]; intros m0 Hnd; cbn; [by rewrite (left_id_L ∅ (∪))|].
    inversion_clear Hnd as [|?? Hk Hnd']. rewrite IH by done.
    rewrite <-insert_union_r by by apply not_elem_of_list_to_map_1.
    by rewrite insert_union_l. }
  rewrite Hf, (right_id_L ∅ (∪)) by done. by rewrite (list_to_map_proper l (map_to_list m)), list_to_map_to_list.
Qed.

Definition codes_fit (m : gmap Hash bytes) : Prop :=
  map_Forall (λ _ code, (36 + Z.of_nat (length code) < 2 ^ 32)%Z) m.

(** Whatever order the map iterations took, the file loads back. *)
Lemma load_close_bytes c0 block la ls lc ma ms mc :
  c_block c0 = block → c_accounts c0 = ∅ → c_slots c0 = ∅ → c_code c0 = ∅ → codes_fit mc →
  la ≡ₚ map_to_list ma → ls ≡ₚ map_to_list ms → lc ≡ₚ map_to_list mc →
  load c0 (close_bytes block la ls lc) = Ok (MkCache (c_db c0) block (c_dirty c0) ma ms mc).
Proof.
  intros Hb Ha Hs Hc Hfit Hla Hls Hlc. rewrite close_bytes_records. unfold load.
  rewrite !length_app, length_be_bytes.
  rewrite take_app_exact, (drop_app_exact magic), take_app_exact by (done || apply length_be_bytes).
  rewrite Uint64_be_bytes', bool_decide_eq_true_2 by done. cbn [negb orb].
  change (length magic) with 8.
  destruct (Nat.ltb_spec (8 + (8 + length (concat (record_bytes <$> records la ls lc)))) 16); [lia|].
  cbn [orb]. rewrite bool_decide_eq_false_2 by naive_solver.
  rewrite (assoc_L (++)), drop_app_exact by (rewrite length_app, length_be_bytes; done).
  rewrite load_records_spec.
  - rewrite apply_records, Ha, Hs, Hc, Hb. by rewrite (rebuild_map ma la), (rebuild_map ms ls), (rebuild_map mc lc).
  - unfold records. rewrite !Forall_app, !Forall_fmap. split_and!; [by apply Forall_true..|].
    apply Forall_forall. intros [h code] Hin. rewrite Hlc in Hin.
    apply elem_of_map_to_list in Hin. by apply (Hfit h code).
  - assert (∀ recs, length recs ≤ length (concat (record_bytes <$> recs))) as Hlen.
    { clear. induction recs as [|r recs IH]; [done|]. rewrite fmap_cons. cbn [concat length].
      rewrite length_app.
      destruct r; cbn [record_bytes app length]; lia. }
    specialize (Hlen (records la ls lc)). lia.
Qed.
End proof.

(** ** Reads *)

Section reads.
Context {db : Type} `{ReaderLaws db}.
Implicit Types c : Cache db.

(** The entries, and the attached store, are true of the world [w]. *)
Definition cache_true c (w : world) : Prop :=
  (∀ d, c_db c = Some d → serves d (c_block c) w) ∧
  (∀ a e, c_accounts c !! a = Some e → e = account_answer (w_acct w a)) ∧
  (∀ k v, c_slots c !! k = Some v → v = w_slot w (Addr k) (Slot k)).

Lemma cache_Account_spec c w a :
  cache_true c w →
  answers (rd_faulty ∨ c_db c = None) (cache_Account c a).1 (account_answer (w_acct w a)) ∧
  cache_true (cache_Account c a).2 w.
Proof.
  intros (Hd & Ha & Hs). unfold cache_Account.
  destruct (c_accounts c !! a) as [e|] eqn:Ea; [by split; [apply Ha|]|].
  destruct (c_db c) as [d|] eqn:Ed; [|split; [by right|by rewrite <-Ed in Hd]].
  pose proof (Hd d eq_refl) as Hserv. pose proof (GetAccount_law d a _ _ Hserv) as Hans.
  pose proof (proj1 (GetAccount_frame d a _ _ Hserv) _ _ Hserv) as Hserv'.
  destruct (rd_GetAccount d a (c_block c)) as [[x|e] d']; cbn [fst snd answers] in *.
  - split; [done|]. split_and!; cbn; [by intros ? [= <-]| |done].
    intros a' e' [[<- <-]|[_ ?]]%lookup_insert_Some; [done|by apply Ha].
  - split; [by left|]. split_and!; cbn; [by intros ? [= <-]|done|done].
Qed.

Lemma cache_Slot_spec c w a k :
  cache_true c w →
  answers (rd_faulty ∨ c_db c = None) (cache_Slot c a k).1 (w_slot w a k) ∧
  cache_true (cache_Slot c a k).2 w.
Proof.
  intros (Hd & Ha & Hs). unfold cache_Slot.
  destruct (c_slots c !! MkSKey a k) as [v|] eqn:Es; [by split; [apply (Hs _ _ Es)|]|].
  destruct (c_db c) as [d|] eqn:Ed; [|split; [by right|by rewrite <-Ed in Hd]].
  pose proof (Hd d eq_refl) as Hserv. pose proof (GetSlot_law d a k _ _ Hserv) as Hans.
  pose proof (proj1 (GetSlot_frame d a k _ _ Hserv) _ _ Hserv) as Hserv'.
  destruct (rd_GetSlot d a k (c_block c)) as [[v|e] d']; cbn [fst snd answers] in *.
  - split; [done|]. split_and!; cbn; [by intros ? [= <-]|done|].
    intros k' v' [[<- <-]|[_ ?]]%lookup_insert_Some; [done|by apply Hs].
  - split; [by left|]. split_and!; cbn; [by intros ? [= <-]|done|done].
Qed.
End reads.
