(* ===== verification/Engine.v ===== *)
(** * Engine: the batch execution engine

    Models [engine/engine.go]: the per-call view with its overlay, the worker
    pool, one attempt of a batch under a single read phase ([run_own]), and the
    requeue loop ([Execute_step]).  An executor is code outside the package (the
    [Executor] interface): it is a program over the view's methods ([prog]), and the
    goroutines of an attempt interleave call by call of those methods.  A worker's
    view lives on in the pool with whatever its last call left in the overlay, and
    other users of the engine, of the state and of the store act in between
    ([others]: they borrow workers, read, and commit blocks to the store; and outside
    a read phase [mem_write]: they move the tip).  Whatever the schedule, every call
    of a batch returns what it computes on the world of the tip. *)

From S2P Require Import Prelude Schema Capture World Store StoreRead StoreReads Reader Mem MemProof.

(** ** The view *)

(** [View]: [v_sb] is the index of the worker's registered side buffer. *)
Record View := MkView {
  v_sb : nat;
  v_balances : gmap Address u256;
  v_slots : gmap SKey Hash
}.

Definition newView (sb : nat) : View := MkView sb ∅ ∅.
Definition v_reset (v : View) : View := MkView (v_sb v) ∅ ∅.

Section view.
Context {db : Type} `{Reader db}.
Implicit Types s : State db.

Definition view_Account (v : View) s (addr : Address) : option (result (Account * bool) * State db) :=
  with_buffer s (v_sb v) (λ s sb, st_Account s addr sb).

Definition view_Balance (v : View) s (addr : Address) : option (result u256 * State db) :=
  match v_balances v !! addr with
  | Some b => Some (Ok b, s)
  | None =>
      match view_Account v s addr with
      | Some (r, s) => Some (rmap (λ x, Balance x.1) r, s)
      | None => None
      end
  end.

Definition SetBalance (v : View) (addr : Address) (b : u256) : View :=
  MkView (v_sb v) (<[addr:=b]> (v_balances v)) (v_slots v).

Definition view_Slot (v : View) s (addr : Address) (slot : Hash) : option (result Hash * State db) :=
  match v_slots v !! MkSKey addr slot with
  | Some val => Some (Ok val, s)
  | None => with_buffer s (v_sb v) (λ s sb, st_Slot s addr slot sb)
  end.

Definition SetSlot (v : View) (addr : Address) (slot val : Hash) : View :=
  MkView (v_sb v) (v_balances v) (<[MkSKey addr slot:=val]> (v_slots v)).

Definition view_Code (v : View) s (hash : Hash) : option (result bytes * State db) :=
  with_buffer s (v_sb v) (λ s sb, let '(r, sb) := st_Code s hash sb in (r, s, sb)).

Definition view_TipInfo s : Hash * u64 * u64 := TipInfo s.

(** ** Executors *)

(** A call of an executor, as the sequence of view methods it uses. *)
Inductive prog (R : Type) :=
| Ret (r : R)
| PAccount (a : Address) (k : result (Account * bool) → prog R)
| PBalance (a : Address) (k : result u256 → prog R)
| PSlot (a : Address) (slot : Hash) (k : result Hash → prog R)
| PCode (hash : Hash) (k : result bytes → prog R)
| PSetBalance (a : Address) (b : u256) (p : prog R)
| PSetSlot (a : Address) (slot val : Hash) (p : prog R)
| PTipInfo (k : Hash * u64 * u64 → prog R).
Arguments Ret {R} _.
Arguments PAccount {R} _ _.
Arguments PBalance {R} _ _.
Arguments PSlot {R} _ _ _.
Arguments PCode {R} _ _.
Arguments PSetBalance {R} _ _ _.
Arguments PSetSlot {R} _ _ _ _.
Arguments PTipInfo {R} _.

Context {R : Type}.

(** A goroutine: its worker's view and what is left to run. *)
Definition thread : Type := View * prog R.

(** One view method of one goroutine, under the shared read lock. *)
Inductive thread_step : State db → thread → State db → thread → Prop :=
| ts_account s v a k r s' :
    view_Account v s a = Some (r, s') → thread_step s (v, PAccount a k) s' (v, k r)
| ts_balance s v a k r s' :
    view_Balance v s a = Some (r, s') → thread_step s (v, PBalance a k) s' (v, k r)
| ts_slot s v a slot k r s' :
    view_Slot v s a slot = Some (r, s') → thread_step s (v, PSlot a slot k) s' (v, k r)
| ts_code s v hash k r s' :
    view_Code v s hash = Some (r, s') → thread_step s (v, PCode hash k) s' (v, k r)
| ts_set_balance s v a b p : thread_step s (v, PSetBalance a b p) s (SetBalance v a b, p)
| ts_set_slot s v a slot val p :
    thread_step s (v, PSetSlot a slot val p) s (SetSlot v a slot val, p)
| ts_tip s v k : thread_step s (v, PTipInfo k) s (v, k (view_TipInfo s)).

(** What became of a call of the batch: a worker was taken for it, its executor
    runs, or its result is stored. *)
Inductive slot :=
| Taken (v : View) (p : prog R)
| Running (v : View) (p : prog R)
| Finished (r : R).

(** ** Building the pool *)

(** [New] registers one fresh side buffer per executor; worker [i] gets the
    view on it. *)
Fixpoint engine_New s (execs : nat) : State db * list View :=
  match execs with
  | O => (s, [])
  | S n =>
      let i := length (s_buffers s) in
      let '(s, vs) := engine_New (Register s NewSideBuffer) n in
      (s, newView i :: vs)
  end.
End view.
Arguments Ret {R} _.
Arguments PAccount {R} _ _.
Arguments PBalance {R} _ _.
Arguments PSlot {R} _ _ _.
Arguments PCode {R} _ _.
Arguments PSetBalance {R} _ _ _.
Arguments PSetSlot {R} _ _ _ _.
Arguments PTipInfo {R} _.

Arguments slot _ : clear implicits.
Arguments Taken {R} _ _.
Arguments Running {R} _ _.
Arguments Finished {R} _.

(** ** The attempt and the requeue loop *)

(** What the goroutines share: the state, the pool channel, and (a ghost) how many
    of the unfinalized blocks the store has already. *)
Record Shared (db : Type) := MkShared {
  sh_st : State db;
  sh_pool : list View;
  sh_committed : nat
}.
Arguments MkShared {db} _ _ _.
Arguments sh_st {db} _.
Arguments sh_pool {db} _.
Arguments sh_committed {db} _.

(** The stores of a process only gain code. *)
Definition code_grows (c0 c1 : Hash → result bytes) : Prop :=
  ∀ h, c1 h = c0 h ∨ ∃ e c, c0 h = Err e ∧ c1 h = Ok c.

Section machine.
Context {db : Type} `{ReaderLaws db} {R : Type}.
Implicit Types (s : State db) (sh : Shared db).

(** [State.BeginBatch]: the stamp, under the read lock that [EndBatch] gives back. *)
Definition BeginBatch s : Hash := s_tip s.

(** Steps of this batch, in [Engine.run]: the loop takes a worker for the next
    call; the goroutine of a call resets the view, runs the executor, stores the
    result and returns the worker. *)
Inductive run_own : Shared db * list (prog R) * list (slot R) → Shared db * list (prog R) * list (slot R) → Prop :=
| ro_take s v pool j p todo slots :
    run_own (MkShared s (v :: pool) j, p :: todo, slots) (MkShared s pool j, todo, slots ++ [Taken v p])
| ro_reset sh todo slots i v p :
    slots !! i = Some (Taken v p) →
    run_own (sh, todo, slots) (sh, todo, <[i:=Running (v_reset v) p]> slots)
| ro_view s pool j todo slots i v p s' v' p' :
    slots !! i = Some (Running v p) → thread_step s (v, p) s' (v', p') →
    run_own (MkShared s pool j, todo, slots) (MkShared s' pool j, todo, <[i:=Running v' p']> slots)
| ro_finish s pool j todo slots i v r :
    slots !! i = Some (Running v (Ret r)) →
    run_own (MkShared s pool j, todo, slots) (MkShared s (pool ++ [v]) j, todo, <[i:=Finished r]> slots).

(** Steps of others that a read phase does not keep out: other batches take
    workers and return them with any overlay, and read through any side buffer; the
    store commits the next unfinalized block. *)
Inductive others (W0 : world) : Shared db → Shared db → Prop :=
| ot_take s v pool j : others W0 (MkShared s (v :: pool) j) (MkShared s pool j)
| ot_put s v pool j :
    v_sb v < length (s_buffers s) → others W0 (MkShared s pool j) (MkShared s (pool ++ [v]) j)
| ot_account s pool j i a r s' :
    with_buffer s i (λ s sb, st_Account s a sb) = Some (r, s') → others W0 (MkShared s pool j) (MkShared s' pool j)
| ot_slot s pool j i a k r s' :
    with_buffer s i (λ s sb, st_Slot s a k sb) = Some (r, s') → others W0 (MkShared s pool j) (MkShared s' pool j)
| ot_code s pool j i h r s' :
    with_buffer s i (λ s sb, let '(r, sb) := st_Code s h sb in (r, s, sb)) = Some (r, s') →
    others W0 (MkShared s pool j) (MkShared s' pool j)
| ot_commit s pool j d :
    j < length (batches s) → serves d Latest (stage W0 (batches s) (S j)) →
    code_grows (rd_GetCode (s_db s)) (rd_GetCode d) →
    others W0 (MkShared s pool j) (MkShared (set_db s d) pool (S j)).

(** One step while the batch is held. *)
Inductive run_step (W0 : world) : Shared db * list (prog R) * list (slot R) → Shared db * list (prog R) * list (slot R) → Prop :=
| rn_own a a' : run_own a a' → run_step W0 a a'
| rn_others sh todo slots sh' : others W0 sh sh' → run_step W0 (sh, todo, slots) (sh', todo, slots).

(** Write phases of others, which wait for the read lock.  [world_of] names the world
    after a block by the block's hash, and the preferred chain of a reset is not empty. *)
Inductive mem_write (world_of : Hash → world) : State db → world → nat → State db → world → nat → Prop :=
| mw_register s W0 j : mem_write world_of s W0 j (Register s NewSideBuffer) W0 j
| mw_block s W0 j b :
    live (apply_batch (tip_world s W0) b) → apply_batch (tip_world s W0) b = world_of (BHash b) →
    mem_write world_of s W0 j (ApplyBlock s b) W0 j
| mw_finalize s W0 j b bs s' :
    batches s = b :: bs → st_Finalize s (Block b) (BHash b) = (Ok (), s') →
    mem_write world_of s W0 (S j) s' (apply_batch W0 b) j
| mw_finalize_err s W0 j block hash er s' :
    st_Finalize s block hash = (Err er, s') → mem_write world_of s W0 j s' W0 j
| mw_reset s W0 j bs b :
    take j bs = take j (batches s) → j ≤ length bs → live_along W0 bs →
    last bs = Some b → apply_batches W0 bs = world_of (BHash b) →
    mem_write world_of s W0 j (PreferenceReset s bs) W0 j.

(** Where [Execute] is. *)
Inductive phase :=
| XIdle
| XRun (stamp : Hash) (todo : list (prog R)) (slots : list (slot R))
| XCheck (results : list R) (stamp : Hash)
| XReturned (results : list R).

Definition unlocked (ph : phase) : bool :=
  match ph with XIdle | XCheck _ _ => true | XRun _ _ _ | XReturned _ => false end.

(** [x_base] is a ghost: the world of the last block finalized in memory. *)
Record Exec := MkExec {
  x_sh : Shared db;
  x_base : world;
  x_requeues : u64;
  x_phase : phase
}.

(** [Engine.Execute]: attempts, until the tip is the stamp of the attempt. *)
Inductive Execute_step (calls : list (prog R)) : Exec → Exec → Prop :=
| xs_begin sh W q :
    Execute_step calls (MkExec sh W q XIdle) (MkExec sh W q (XRun (BeginBatch (sh_st sh)) calls []))
| xs_run sh W q stamp todo slots sh' todo' slots' :
    run_own (sh, todo, slots) (sh', todo', slots') →
    Execute_step calls (MkExec sh W q (XRun stamp todo slots)) (MkExec sh' W q (XRun stamp todo' slots'))
| xs_end sh W q stamp results :
    Execute_step calls (MkExec sh W q (XRun stamp [] (Finished <$> results))) (MkExec sh W q (XCheck results stamp))
| xs_return sh W q results stamp :
    TipHash (sh_st sh) = stamp →
    Execute_step calls (MkExec sh W q (XCheck results stamp)) (MkExec sh W q (XReturned results))
| xs_requeue sh W q results stamp :
    TipHash (sh_st sh) ≠ stamp →
    Execute_step calls (MkExec sh W q (XCheck results stamp)) (MkExec sh W (u_add q (wrap 1)) XIdle).

Inductive world_step (world_of : Hash → world) : Exec → Exec → Prop :=
| ws_others sh W q ph sh' :
    (∀ results, ph ≠ XReturned results) → others W sh sh' →
    world_step world_of (MkExec sh W q ph) (MkExec sh' W q ph)
| ws_write s pool j W q ph s' W' j' :
    unlocked ph = true → mem_write world_of s W j s' W' j' →
    world_step world_of (MkExec (MkShared s pool j) W q ph) (MkExec (MkShared s' pool j') W' q ph).

(** A run of [Execute] among the others. *)
Definition Execute_run (world_of : Hash → world) (calls : list (prog R)) : Exec → Exec → Prop :=
  rtc (λ x y, Execute_step calls x y ∨ world_step world_of x y).
End machine.

(** ** Schedules do not matter *)

(** What a call computes on a world and its code, given the overlay of its view. *)
Fixpoint eval {R : Type} (w : world) (code : Hash → result bytes) (tip : Hash * u64 * u64) (bal : gmap Address u256)
    (sl : gmap SKey Hash) (p : prog R) : R :=
  match p with
  | Ret r => r
  | PAccount a k => eval w code tip bal sl (k (Ok (account_answer (w_acct w a))))
  | PBalance a k =>
      eval w code tip bal sl
        (k (Ok (default (Balance (account_answer (w_acct w a)).1) (bal !! a))))
  | PSlot a slot k => eval w code tip bal sl (k (Ok (default (w_slot w a slot) (sl !! MkSKey a slot))))
  | PCode hash k => eval w code tip bal sl (k (code hash))
  | PSetBalance a b p => eval w code tip (<[a:=b]> bal) sl p
  | PSetSlot a slot val p => eval w code tip bal (<[MkSKey a slot:=val]> sl) p
  | PTipInfo k => eval w code tip bal sl (k tip)
  end.

(** The results a call can have when a code read may answer anything in [C]. *)
Fixpoint evals {R : Type} (C : Hash → result bytes → Prop) (w : world) (tip : Hash * u64 * u64) (bal : gmap Address u256)
    (sl : gmap SKey Hash) (p : prog R) (r : R) : Prop :=
  match p with
  | Ret r' => r = r'
  | PAccount a k => evals C w tip bal sl (k (Ok (account_answer (w_acct w a)))) r
  | PBalance a k =>
      evals C w tip bal sl (k (Ok (default (Balance (account_answer (w_acct w a)).1) (bal !! a)))) r
  | PSlot a slot k => evals C w tip bal sl (k (Ok (default (w_slot w a slot) (sl !! MkSKey a slot)))) r
  | PCode hash k => ∃ x, C hash x ∧ evals C w tip bal sl (k x) r
  | PSetBalance a b p => evals C w tip (<[a:=b]> bal) sl p r
  | PSetSlot a slot val p => evals C w tip bal (<[MkSKey a slot:=val]> sl) p r
  | PTipInfo k => evals C w tip bal sl (k tip) r
  end.

(** The answers while the store goes from code [c0] to code [c1]. *)
Definition code_between (c0 c1 : Hash → result bytes) (h : Hash) (x : result bytes) : Prop := x = c0 h ∨ x = c1 h.

Lemma code_grows_refl c : code_grows c c.
Proof. intros h. by left. Qed.

Lemma code_grows_trans c0 c1 c2 : code_grows c0 c1 → code_grows c1 c2 → code_grows c0 c2.
Proof.
  intros H01 H12 h. destruct (H01 h) as [E|(e & c & E0 & E1)], (H12 h) as [E'|(e' & c' & E1' & E2)];
    [left; congruence|right; exists e', c'; split; congruence|right; exists e, c; split; congruence|congruence].
Qed.

Lemma code_between_mono c0 c1 c2 h x :
  code_grows c0 c1 → code_grows c1 c2 → code_between c0 c1 h x → code_between c0 c2 h x.
Proof.
  intros H01 H12 [->| ->]; [by left|]. destruct (H12 h) as [E|(e & c & E1 & _)]; [right; by rewrite E|].
  left. destruct (H01 h) as [E|(? & ? & _ & E)]; [done|congruence].
Qed.

Lemma evals_mono {R : Type} (C C' : Hash → result bytes → Prop) w tip bal sl (p : prog R) r :
  (∀ h x, C h x → C' h x) → evals C w tip bal sl p r → evals C' w tip bal sl p r.
Proof.
  intros HC. revert bal sl. induction p as [r'|a k IH|a k IH|a slot k IH|h k IH|a b p IH|a slot val p IH|k IH];
    intros bal sl; cbn; auto. intros (x & Hx & Hr). exists x. auto.
Qed.

(** When the code does not change there is one result. *)
Lemma evals_eval {R : Type} (C : Hash → result bytes → Prop) code w tip bal sl (p : prog R) r :
  (∀ h x, C h x → x = code h) → evals C w tip bal sl p r → r = eval w code tip bal sl p.
Proof.
  intros HC. revert bal sl. induction p as [r'|a k IH|a k IH|a slot k IH|h k IH|a b p IH|a slot val p IH|k IH];
    intros bal sl; cbn; auto. intros (x & ->%HC & Hr). auto.
Qed.

Section schedules.
Context {db : Type} `{ReaderLaws db} {R : Type}.
Implicit Types s : State db.

Lemma st_Account_frame s a sb : ∃ r d sb', st_Account s a sb = (r, set_db s d, sb').
Proof. unfold st_Account. destruct s; cbn; repeat case_match; simplify_eq; by do 3 eexists. Qed.

Lemma st_Slot_frame s a k sb : ∃ r d sb', st_Slot s a k sb = (r, set_db s d, sb').
Proof.
  unfold st_Slot, slot_miss, pin_owner.
  destruct s; cbn; repeat case_match; simplify_eq; by do 3 eexists.
Qed.

Lemma st_Code_frame s h sb : ∃ r d sb', (let '(r, sb) := st_Code s h sb in (r, s, sb)) = (r, set_db s d, sb').
Proof. unfold st_Code. destruct s; cbn; repeat case_match; simplify_eq; by do 3 eexists. Qed.

(** *** Code

    Pinned code is what the store has: reads keep to that, and so do the write
    phases, as long as the store does not change the code of a hash. *)

Definition pins_code (code : Hash → result bytes) (m : gmap Hash bytes) : Prop := ∀ h c, m !! h = Some c → code h = Ok c.

Record codes_ok (code : Hash → result bytes) s : Prop := {
  co_store h : rd_GetCode (s_db s) h = code h;
  co_base : pins_code code (m_code (s_base s));
  co_buffers : Forall (λ sb, pins_code code (sb_code sb)) (s_buffers s)
}.

(** A read that pins no code. *)
Definition code_frame {A : Type} s (x : result A * State db * SideBuffer) (sb : SideBuffer) : Prop :=
  (∀ h, rd_GetCode (s_db x.1.2) h = rd_GetCode (s_db s) h) ∧ m_code (s_base x.1.2) = m_code (s_base s) ∧
  s_buffers x.1.2 = s_buffers s ∧ sb_code x.2 = sb_code sb.

Lemma st_Account_code s a sb : code_frame s (st_Account s a sb) sb.
Proof.
  unfold st_Account. pose proof (GetAccount_code (s_db s) a Latest) as Hc.
  destruct (rd_GetAccount (s_db s) a Latest) as [r d]. cbn in Hc. by repeat case_match.
Qed.

Lemma pin_owner_code s a sb : code_frame s (pin_owner s a sb) sb.
Proof.
  unfold pin_owner. pose proof (GetAccount_code (s_db s) a Latest) as Hc.
  destruct (rd_GetAccount (s_db s) a Latest) as [r d]. cbn in Hc. by repeat case_match.
Qed.

Lemma st_Slot_code s a k sb : code_frame s (st_Slot s a k sb) sb.
Proof.
  assert (code_frame s (slot_miss s a k sb) sb) as Hm; [|unfold st_Slot; by repeat case_match].
  unfold slot_miss. pose proof (GetSlot_code (s_db s) a k Latest) as Hc.
  destruct (rd_GetSlot (s_db s) a k Latest) as [[v|er] d]; cbn in Hc; [|by case_match].
  case_match; [done|].
  pose proof (pin_owner_code (set_db s d) a (MkSideBuffer (sb_accounts sb) (<[MkSKey a k:=v]> (sb_slots sb)) (sb_code sb))) as Hp.
  destruct (pin_owner _ _ _) as [[r s'] sb']. destruct Hp as (Hg & Hb & Hbf & Hs). cbn in *.
  split_and!; cbn; try done. intros h. by rewrite Hg.
Qed.

Lemma with_buffer_codes {A : Type} code s i (f : State db → SideBuffer → result A * State db * SideBuffer) r s' :
  codes_ok code s → (∀ sb, code_frame s (f s sb) sb) → with_buffer s i f = Some (r, s') → codes_ok code s'.
Proof.
  intros [Hs Hb Hbf] Hf. unfold with_buffer. destruct (s_buffers s !! i) as [sb|] eqn:Hi; [|done].
  specialize (Hf sb). destruct (f s sb) as [[r0 s0] sb0]. destruct Hf as (Hg & Hm & Hbs & Hc). cbn in *. intros [= _ <-].
  split; cbn [s_db s_base s_buffers set_buffers].
  - intros h. by rewrite Hg.
  - by rewrite Hm.
  - rewrite Hbs. apply Forall_insert; [done|]. rewrite Hc. rewrite Forall_lookup in Hbf. by apply (Hbf i).
Qed.

Lemma view_Code_codes code v s h r s' : codes_ok code s → view_Code v s h = Some (r, s') → r = code h ∧ codes_ok code s'.
Proof.
  intros [Hs Hb Hbf]. unfold view_Code, with_buffer. destruct (s_buffers s !! v_sb v) as [sb|] eqn:Hi; [|done].
  assert (pins_code code (sb_code sb)) as Hsb by (rewrite Forall_lookup in Hbf; by apply (Hbf (v_sb v))).
  assert (match st_Code s h sb with (r, sb') => r = code h ∧ pins_code code (sb_code sb') end) as Hc.
  { unfold st_Code. destruct (m_code (s_base s) !! h) as [c|] eqn:E1; [by rewrite (Hb _ _ E1)|].
    destruct (sb_code sb !! h) as [c|] eqn:E2; [by rewrite (Hsb _ _ E2)|]. rewrite <-Hs.
    destruct (rd_GetCode (s_db s) h) as [c|er] eqn:E3; [|done]. split; [done|]. cbn.
    intros h' c' [[<- <-]|[_ ?]]%lookup_insert_Some; [by rewrite <-Hs|by apply Hsb]. }
  destruct (st_Code s h sb) as [r0 sb0]. intros [= <- <-]. destruct Hc as [-> Hsb0]. split; [done|].
  split; cbn; [done..|]. by apply Forall_insert.
Qed.

Lemma drain_code_pins code m kv : pins_code code (m_code m) → code kv.1 = Ok kv.2 → pins_code code (m_code (drain_code m kv)).
Proof.
  intros Hm Hk h c. unfold drain_code, PinCode. destruct (m_code m !! kv.1) eqn:E; [apply Hm|]. cbn.
  intros [[<- <-]|[_ ?]]%lookup_insert_Some; [done|by apply Hm].
Qed.

Lemma drain_buffer_pins code m sb : pins_code code (m_code m) → pins_code code (sb_code sb) → pins_code code (m_code (drain_buffer m sb)).
Proof.
  intros Hm Hsb. unfold drain_buffer.
  assert (∀ l m, m_code (foldl drain_account m l) = m_code m) as Ha.
  { induction l as [|[a [x []]] l IH]; intros m'; cbn; [done|rewrite IH; unfold PinAccount; by repeat case_match..]. }
  assert (∀ l m, m_code (foldl drain_slot m l) = m_code m) as Hsl.
  { induction l as [|[[a k] v] l IH]; intros m'; cbn; [done|]. rewrite IH. destruct (m_accounts m' !! a); [|done].
    unfold PinSlot. by repeat case_match. }
  assert (∀ l m, pins_code code (m_code m) → Forall (λ kv, code kv.1 = Ok kv.2) l → pins_code code (m_code (foldl drain_code m l))) as Hc.
  { induction l as [|kv l IH]; intros m' Hp Hl; cbn; [done|]. apply Forall_cons in Hl as [? ?]. apply IH; [by apply drain_code_pins|done]. }
  apply Hc; [by rewrite Hsl, Ha|]. apply Forall_forall. intros [h c] Hin%elem_of_map_to_list. by apply Hsb.
Qed.

Lemma codes_drain code s : codes_ok code s → codes_ok code (lockAndDrain s).
Proof.
  intros [Hs Hb Hbf]. split; cbn; [done| |by apply Forall_fmap, Forall_true; intros ? ? ?].
  revert Hb. generalize (s_base s). induction Hbf as [|sb bufs Hsb _ IH]; intros m Hm; cbn; [done|]. apply IH. by apply drain_buffer_pins.
Qed.

(** The write phases, and a new block in the store. *)
Lemma codes_block code s b : codes_ok code s → codes_ok code (ApplyBlock s b).
Proof. intros [Hs Hb Hbf]%codes_drain. by split. Qed.

Lemma codes_reset code s bs : codes_ok code s → codes_ok code (PreferenceReset s bs).
Proof.
  intros Hc%codes_drain. unfold PreferenceReset. assert (codes_ok code (set_layers (lockAndDrain s) [])) as Hc' by (destruct Hc; by split).
  revert Hc'. generalize (set_layers (lockAndDrain s) []). induction bs as [|b bs IH]; intros s' Hs'; cbn; [done|].
  apply IH. destruct Hs'. by split.
Qed.

Lemma codes_commit code code' s d :
  codes_ok code s → (∀ h c, code h = Ok c → code' h = Ok c) → (∀ h, rd_GetCode d h = code' h) → codes_ok code' (set_db s d).
Proof.
  intros [Hs Hb Hbf] Hsub Hd. split; cbn; [done| |].
  - intros h c Hc. by apply Hsub, Hb.
  - eapply Forall_impl; [exact Hbf|]. intros sb Hsb h c Hc. by apply Hsub, Hsb.
Qed.

Lemma codes_register code s : codes_ok code s → codes_ok code (Register s NewSideBuffer).
Proof. intros [Hs Hb Hbf]. split; cbn; [done..|]. apply Forall_app. split; [done|]. apply Forall_singleton. by intros ??. Qed.

Lemma apply_op_map_code m op : m_code (apply_op_map m op) = m_code m.
Proof. unfold apply_op_map. by repeat case_match. Qed.

Lemma codes_finalize code s block hash r s' : codes_ok code s → st_Finalize s block hash = (r, s') → codes_ok code s'.
Proof.
  intros Hc%codes_drain. unfold st_Finalize. destruct (s_layers (lockAndDrain s)) as [|l ls]; [by intros [= _ <-]|].
  repeat case_bool_decide; intros [= _ <-]; try done. destruct Hc as [Hs Hb Hbf]. split; cbn [s_db s_base s_buffers]; try done.
  unfold Apply. apply (foldl_inv (λ m, pins_code code (m_code m))); [|done].
  intros m op. rewrite apply_op_map_code. auto.
Qed.

Lemma codes_write world_of code s W j s' W' j' :
  codes_ok code s → mem_write world_of s W j s' W' j' → codes_ok code s'.
Proof. intros Hc. destruct 1; eauto using codes_register, codes_block, codes_finalize, codes_reset. Qed.

(** *** One view method *)

(** What a state keeps of another while the batch is held. *)
Record held s W0 s' : Prop := {
  he_world : tip_world s' W0 = tip_world s W0;
  he_tip : TipInfo s' = TipInfo s;
  he_buffers : length (s_buffers s') = length (s_buffers s)
}.

Lemma held_refl s W0 : held s W0 s.
Proof. done. Qed.

Lemma held_trans s1 s2 s3 W0 : held s1 W0 s2 → held s2 W0 s3 → held s1 W0 s3.
Proof. intros [] []. split; congruence. Qed.

Lemma with_buffer_held {A : Type} s W0 i (f : State db → SideBuffer → result A * State db * SideBuffer) r s' :
  (∀ sb, ∃ r d sb', f s sb = (r, set_db s d, sb')) → with_buffer s i f = Some (r, s') → held s W0 s'.
Proof.
  intros Hf Hw. destruct (with_buffer_frame s i f r s' Hf Hw) as [Hb Ht]. split; [by unfold tip_world; rewrite Hb|done|].
  revert Hw. unfold with_buffer. destruct (s_buffers s !! i) as [sb|]; [|done].
  destruct (Hf sb) as (r1 & d & sb' & ->). intros [= _ <-]. cbn. by rewrite length_insert.
Qed.

Lemma read_account code s i a r s' W0 j :
  ¬ rd_faulty → mem_run s W0 j → codes_ok code s → with_buffer s i (λ s sb, st_Account s a sb) = Some (r, s') →
  r = Ok (account_answer (w_acct (tip_world s W0) a)) ∧ mem_run s' W0 j ∧ codes_ok code s' ∧ held s W0 s'.
Proof.
  intros Hnf Hm Hco Hr. pose proof (with_buffer_account s W0 j i a (mem_run_coherent _ _ _ Hm)) as Hs.
  rewrite Hr in Hs. split_and!; [by apply (answers_ok _ _ _ (proj1 Hs))|by eapply run_account|
    exact (with_buffer_codes _ _ _ _ _ _ Hco (st_Account_code s a) Hr)|exact (with_buffer_held _ _ _ _ _ _ (st_Account_frame s a) Hr)].
Qed.

Lemma read_slot code s i a k r s' W0 j :
  ¬ rd_faulty → mem_run s W0 j → codes_ok code s → with_buffer s i (λ s sb, st_Slot s a k sb) = Some (r, s') →
  r = Ok (w_slot (tip_world s W0) a k) ∧ mem_run s' W0 j ∧ codes_ok code s' ∧ held s W0 s'.
Proof.
  intros Hnf Hm Hco Hr. pose proof (with_buffer_slot s W0 j i a k (mem_run_coherent _ _ _ Hm)) as Hs.
  rewrite Hr in Hs. split_and!; [by apply (answers_ok _ _ _ (proj1 Hs))|by eapply run_slot|
    exact (with_buffer_codes _ _ _ _ _ _ Hco (st_Slot_code s a k) Hr)|exact (with_buffer_held _ _ _ _ _ _ (st_Slot_frame s a k) Hr)].
Qed.

Lemma read_code code s i h r s' W0 j :
  mem_run s W0 j → codes_ok code s →
  with_buffer s i (λ s sb, let '(r, sb) := st_Code s h sb in (r, s, sb)) = Some (r, s') →
  r = code h ∧ mem_run s' W0 j ∧ codes_ok code s' ∧ held s W0 s'.
Proof.
  intros Hm Hco Hr. destruct (view_Code_codes code (newView i) s h r s' Hco Hr) as [-> Hco'].
  split_and!; [done|by eapply run_code|done|exact (with_buffer_held _ _ _ _ _ _ (st_Code_frame s h) Hr)].
Qed.

(** A step leaves at most results that the thread had before. *)
Lemma thread_step_evals code s (t : thread (R:=R)) s' t' W0 j :
  ¬ rd_faulty → mem_run s W0 j → codes_ok code s → thread_step s t s' t' →
  mem_run s' W0 j ∧ codes_ok code s' ∧ held s W0 s' ∧ v_sb t'.1 = v_sb t.1 ∧
  ∀ (C : Hash → result bytes → Prop) r, (∀ h, C h (code h)) →
    evals C (tip_world s W0) (TipInfo s) (v_balances t'.1) (v_slots t'.1) t'.2 r →
    evals C (tip_world s W0) (TipInfo s) (v_balances t.1) (v_slots t.1) t.2 r.
Proof.
  intros Hnf Hm Hco Hstep. pose proof (mem_run_coherent _ _ _ Hm) as Hc.
  destruct Hstep as [s v a k r s' Hr|s v a k r s' Hr|s v a slot k r s' Hr|s v h k r s' Hr|s v a b p|s v a slot val p|s v k];
    cbn [fst snd evals]; try done.
  - destruct (read_account code s (v_sb v) a r s' W0 j Hnf Hm Hco Hr) as (-> & ? & ? & ?). by split_and!.
  - unfold view_Balance in Hr. destruct (v_balances v !! a) as [b|]; [by simplify_eq|].
    destruct (view_Account v s a) as [[r0 s0]|] eqn:E; [|done]. injection Hr as <- <-.
    destruct (read_account code s (v_sb v) a r0 s0 W0 j Hnf Hm Hco E) as (-> & ? & ? & ?). by split_and!.
  - unfold view_Slot in Hr. destruct (v_slots v !! MkSKey a slot) as [b|]; [by simplify_eq|].
    destruct (read_slot code s (v_sb v) a slot r s' W0 j Hnf Hm Hco Hr) as (-> & ? & ? & ?). by split_and!.
  - destruct (read_code code s (v_sb v) h r s' W0 j Hm Hco Hr) as (-> & ? & ? & ?). split_and!; [done..|].
    intros C x HC Hx. by exists (code h).
Qed.
End schedules.
