(* ===== verification/EngineLive.v ===== *)
(** * EngineLive: what an attempt computes, and that it ends

    The invariant of an attempt ([attempt_ok]): every call of the batch, started or
    finished, can only have results it has on the world of the tip with an empty
    overlay, whatever overlay its worker came with.  A call whose worker has a
    registered buffer can always take its next step, and an executor's program is a
    finite tree, so an attempt with a worker at hand can always be finished
    ([run_completes]), and [Execute] returns ([Execute_completes]) with an attempt
    whose world is the one at the tip ([Execute_ok]). *)

From S2P Require Import Prelude Schema Capture World Store StoreReads Reader Mem MemProof Engine.

Section live.
Context {db : Type} `{ReaderLaws db} {R : Type}.
Implicit Types s : State db.

Lemma with_buffer_some {A : Type} s i (f : State db → SideBuffer → result A * State db * SideBuffer) :
  i < length (s_buffers s) → (∀ sb, ∃ r d sb', f s sb = (r, set_db s d, sb')) →
  ∃ r s', with_buffer s i f = Some (r, s') ∧ length (s_buffers s') = length (s_buffers s).
Proof.
  intros [sb Hsb]%lookup_lt_is_Some_2 Hf. unfold with_buffer. rewrite Hsb.
  destruct (Hf sb) as (r & d & sb' & ->). do 2 eexists. split; [done|].
  cbn [s_buffers set_buffers set_db]. by rewrite length_insert.
Qed.

(** The account of the newest layer is read from it. *)
Lemma layer_account_read s b v a acct :
  v_sb v < length (s_buffers (ApplyBlock s b)) → net_acct (Ops b) a = Some acct →
  ∃ s', view_Account v (ApplyBlock s b) a = Some (Ok (acct, true), s').
Proof.
  intros [sb Hsb]%lookup_lt_is_Some_2 Ha. unfold view_Account, with_buffer. rewrite Hsb. unfold st_Account.
  unfold ApplyBlock at 1. cbn [push_layer set_tip set_layers s_layers lockAndDrain]. rewrite reverse_snoc. cbn [layers_account].
  rewrite (proj1 (proj2 (newLayer_spec b)) a), Ha. by eexists.
Qed.

(** A code read answers the code of the store. *)
Lemma view_Code_total code s v h :
  codes_ok code s → v_sb v < length (s_buffers s) → ∃ s', view_Code v s h = Some (code h, s').
Proof.
  intros Hco Hv.
  destruct (with_buffer_some s (v_sb v) (λ s sb, let '(r, sb) := st_Code s h sb in (r, s, sb)) Hv (st_Code_frame s h))
    as (r & s' & Hr & _).
  exists s'. destruct (view_Code_codes code v s h r s' Hco Hr) as [-> _]. exact Hr.
Qed.

(** A call of a worker with a registered buffer is finished or can step. *)
Lemma thread_progress s (t : thread (R:=R)) :
  v_sb t.1 < length (s_buffers s) →
  (∃ r, t.2 = Ret r) ∨
  ∃ s' t', thread_step s t s' t' ∧ length (s_buffers s') = length (s_buffers s) ∧
    v_sb t'.1 = v_sb t.1.
Proof.
  destruct t as [v p]. cbn [fst snd]. intros Hi.
  destruct p as [r|a k|a k|a slot k|h k|a b p|a slot val p|k]; [by left; eexists|right..].
  - destruct (with_buffer_some s (v_sb v) (λ s sb, st_Account s a sb) Hi (st_Account_frame s a)) as (r & s' & Hr & Hl).
    exists s', (v, k r). split_and!; [by constructor|done|done].
  - assert (∃ r s', view_Balance v s a = Some (r, s') ∧ length (s_buffers s') = length (s_buffers s))
      as (r & s' & Hr & Hl).
    { unfold view_Balance. destruct (v_balances v !! a); [by do 2 eexists|].
      destruct (with_buffer_some s (v_sb v) (λ s sb, st_Account s a sb) Hi (st_Account_frame s a)) as (r & s' & Hr & Hl).
      unfold view_Account. rewrite Hr. by do 2 eexists. }
    exists s', (v, k r). split_and!; [by constructor|done|done].
  - assert (∃ r s', view_Slot v s a slot = Some (r, s') ∧ length (s_buffers s') = length (s_buffers s))
      as (r & s' & Hr & Hl).
    { unfold view_Slot. destruct (v_slots v !! _); [by do 2 eexists|].
      apply (with_buffer_some s (v_sb v) (λ s sb, st_Slot s a slot sb) Hi (st_Slot_frame s a slot)). }
    exists s', (v, k r). split_and!; [by constructor|done|done].
  - destruct (with_buffer_some s (v_sb v) (λ s sb, let '(r, sb) := st_Code s h sb in (r, s, sb)) Hi (st_Code_frame s h))
      as (r & s' & Hr & Hl).
    exists s', (v, k r). split_and!; [by constructor|done|done].
  - exists s, (SetBalance v a b, p). split_and!; [by constructor|done|done].
  - exists s, (SetSlot v a slot val, p). split_and!; [by constructor|done|done].
  - exists s, (v, k (view_TipInfo s)). split_and!; [by constructor|done|done].
Qed.

(** A step of a thread leaves a subprogram: programs are finite. *)
Inductive smaller : prog R → prog R → Prop :=
| sm_account a k r : smaller (k r) (PAccount a k)
| sm_balance a k r : smaller (k r) (PBalance a k)
| sm_slot a slot k r : smaller (k r) (PSlot a slot k)
| sm_code h k r : smaller (k r) (PCode h k)
| sm_set_balance a b p : smaller p (PSetBalance a b p)
| sm_set_slot a slot val p : smaller p (PSetSlot a slot val p)
| sm_tip k i : smaller (k i) (PTipInfo k).

Lemma smaller_wf : well_founded smaller.
Proof.
  intros p. induction p as [r|a k IH|a k IH|a slot k IH|h k IH|a b p IH|a slot val p IH|k IH];
    constructor; intros q Hq; inversion Hq; subst; auto.
Qed.

Lemma thread_step_smaller s (t : thread (R:=R)) s' t' : thread_step s t s' t' → smaller t'.2 t.2.
Proof. destruct 1; constructor. Qed.

(** ** The invariant of an attempt *)

Definition registered s (pool : list View) : Prop := Forall (λ v, v_sb v < length (s_buffers s)) pool.

Definition slot_view (x : slot R) : option View :=
  match x with Taken v _ | Running v _ => Some v | Finished _ => None end.

(** A slot of call [p]: only results of [p] with an empty overlay are left. *)
Definition slot_ok (C : Hash → result bytes → Prop) (w : world) (tip : Hash * u64 * u64) (p : prog R) (x : slot R) : Prop :=
  match x with
  | Taken _ q => q = p
  | Running v q =>
      ∀ (C' : Hash → result bytes → Prop) r, (∀ h y, C h y → C' h y) →
        evals C' w tip (v_balances v) (v_slots v) q r → evals C' w tip ∅ ∅ p r
  | Finished r => evals C w tip ∅ ∅ p r
  end.

Lemma slot_ok_mono (C C' : Hash → result bytes → Prop) w tip p x :
  (∀ h y, C h y → C' h y) → slot_ok C w tip p x → slot_ok C' w tip p x.
Proof.
  intros HC. destruct x as [v q|v q|r]; cbn; [done| |by apply evals_mono]. intros Hx D r HD. apply Hx. auto.
Qed.

(** What the store's code was when the attempt began is [code0]. *)
Record attempt_ok (code0 : Hash → result bytes) (W0 : world) (calls : list (prog R))
    (a : Shared db * list (prog R) * list (slot R)) (code : Hash → result bytes) : Prop := {
  ao_mem : mem_run (sh_st a.1.1) W0 (sh_committed a.1.1);
  ao_codes : codes_ok code (sh_st a.1.1);
  ao_grows : code_grows code0 code;
  ao_pool : registered (sh_st a.1.1) (sh_pool a.1.1);
  ao_views : registered (sh_st a.1.1) (omap slot_view a.2);
  ao_slots : ∃ started, calls = started ++ a.1.2 ∧
    Forall2 (slot_ok (code_between code0 code) (tip_world (sh_st a.1.1) W0) (TipInfo (sh_st a.1.1))) started a.2
}.

Lemma registered_held s W0 s' pool : held s W0 s' → registered s pool → registered s' pool.
Proof. intros Hh. unfold registered. by rewrite (he_buffers _ _ _ Hh). Qed.

Lemma registered_slots s (slots : list (slot R)) :
  registered s (omap slot_view slots) ↔ ∀ i x v, slots !! i = Some x → slot_view x = Some v → v_sb v < length (s_buffers s).
Proof.
  unfold registered. rewrite Forall_forall. setoid_rewrite list_elem_of_omap. split.
  - intros Hs i x v Hi Hv. apply Hs. exists x. split; [by eapply list_elem_of_lookup_2|done].
  - intros Hs v (x & [i Hi]%list_elem_of_lookup & Hv). by eapply Hs.
Qed.

Lemma registered_set s (slots : list (slot R)) i x y :
  slots !! i = Some x → (∀ v, slot_view y = Some v → ∃ u, slot_view x = Some u ∧ v_sb v = v_sb u) →
  registered s (omap slot_view slots) → registered s (omap slot_view (<[i:=y]> slots)).
Proof.
  intros Hi Hy Hs. apply registered_slots. intros k z v Hk Hv. pose proof (proj1 (registered_slots _ _) Hs) as Hs'.
  destruct (decide (k = i)) as [->|Hne].
  - rewrite list_lookup_insert_eq in Hk by (by eapply lookup_lt_Some). injection Hk as <-.
    destruct (Hy v Hv) as (u & Hu & ->). by eapply Hs'.
  - rewrite list_lookup_insert_ne in Hk by done. by eapply Hs'.
Qed.

Lemma slots_set (P : prog R → slot R → Prop) started slots i x y :
  Forall2 P started slots → slots !! i = Some x → (∀ p, P p x → P p y) → Forall2 P started (<[i:=y]> slots).
Proof.
  intros Hf Hi Hy. destruct (Forall2_lookup_r _ _ _ _ _ Hf Hi) as (p & Hp & Hx).
  rewrite <-(list_insert_id started i p) by done. apply Forall2_insert; auto.
Qed.

Lemma Forall2_slot_mono code0 code code' w tip started slots :
  code_grows code0 code → code_grows code code' →
  Forall2 (slot_ok (code_between code0 code) w tip) started slots →
  Forall2 (slot_ok (code_between code0 code') w tip) started slots.
Proof.
  intros Hg Hg1 Hf. eapply Forall2_impl; [exact Hf|]. intros p x. apply slot_ok_mono. intros h y.
  by apply code_between_mono.
Qed.

Lemma own_ok code0 W0 calls code a a' :
  ¬ rd_faulty → attempt_ok code0 W0 calls a code → run_own a a' →
  attempt_ok code0 W0 calls a' code ∧ held (sh_st a.1.1) W0 (sh_st a'.1.1).
Proof.
  intros Hnf Ha Hs. destruct Ha as [Hm Hc Hg Hp Hv (started & Hcalls & Hf)].
  destruct Hs as [s v pool j p todo slots|sh todo slots i v p Hi|s pool j todo slots i v p s' v' p' Hi Ht|s pool j todo slots i v r Hi];
    cbn [fst snd sh_st sh_pool sh_committed] in *.
  - split; [|apply held_refl]. unfold registered in Hp. apply Forall_cons in Hp as [Hpv Hp]. split; cbn; try done.
    + rewrite omap_app. cbn. apply Forall_app. split; [done|]. by apply Forall_singleton.
    + exists (started ++ [p]). split; [by rewrite <-(assoc_L (++))|]. apply Forall2_app; [done|]. by constructor.
  - split; [|apply held_refl]. split; cbn; try done.
    + eapply registered_set; [done| |done]. cbn. intros ? [= <-]. by exists v.
    + exists started. split; [done|]. eapply slots_set; [done|done|]. cbn. by intros q ->.
  - destruct (thread_step_evals code s (v, p) s' (v', p') W0 j Hnf Hm Hc Ht) as (Hm' & Hc' & Hh & Hsb & Hev).
    cbn [fst snd] in *. split; [|done]. split; cbn; try done; [by eapply registered_held| |].
    + eapply registered_held; [done|]. eapply registered_set; [done| |done]. cbn. intros ? [= <-]. by exists v.
    + exists started. split; [done|]. rewrite (he_world _ _ _ Hh), (he_tip _ _ _ Hh). eapply slots_set; [done|done|].
      cbn. intros q Hq C r HC Hr. apply Hq; [done|]. apply Hev; [|done]. intros h. apply HC. by right.
  - split; [|apply held_refl]. split; cbn; try done.
    + apply Forall_app. split; [done|]. apply Forall_singleton. eapply registered_slots; [done..|]. done.
    + by eapply registered_set.
    + exists started. split; [done|]. eapply slots_set; [done|done|]. cbn. intros q Hq. by apply Hq.
Qed.

Lemma others_ok code0 W0 calls code sh todo slots sh' :
  ¬ rd_faulty → attempt_ok code0 W0 calls (sh, todo, slots) code → others W0 sh sh' →
  held (sh_st sh) W0 (sh_st sh') ∧
  ∃ code', code_grows code code' ∧ attempt_ok code0 W0 calls (sh', todo, slots) code'.
Proof.
  intros Hnf Ha Hs. destruct Ha as [Hm Hc Hg Hp Hv (started & Hcalls & Hf)].
  assert (∀ s' j', mem_run s' W0 j' → codes_ok code s' → held (sh_st sh) W0 s' →
    held (sh_st sh) W0 s' ∧
    ∃ code', code_grows code code' ∧ attempt_ok code0 W0 calls (MkShared s' (sh_pool sh) j', todo, slots) code') as Hread.
  { intros s' j' Hm' Hc' Hh. split; [done|]. exists code. split; [apply code_grows_refl|]. cbn [fst snd] in *.
    split; cbn; try done; [by eapply registered_held..|]. exists started.
    by rewrite (he_world _ _ _ Hh), (he_tip _ _ _ Hh). }
  destruct Hs as [s v pool j|s v pool j Hr|s pool j i x r s' Hw|s pool j i x k r s' Hw|s pool j i h r s' Hw|s pool j d Hj Hd Hgd];
    cbn [fst snd sh_st sh_pool sh_committed] in *.
  - split; [apply held_refl|]. exists code. split; [apply code_grows_refl|]. apply Forall_cons in Hp as [_ Hp].
    split; cbn; try done. by exists started.
  - split; [apply held_refl|]. exists code. split; [apply code_grows_refl|]. split; cbn; try done; [|by exists started].
    apply Forall_app. split; [done|]. by apply Forall_singleton.
  - destruct (read_account code s i x r s' W0 j Hnf Hm Hc Hw) as (_ & ? & ? & ?). by apply Hread.
  - destruct (read_slot code s i x k r s' W0 j Hnf Hm Hc Hw) as (_ & ? & ? & ?). by apply Hread.
  - destruct (read_code code s i h r s' W0 j Hm Hc Hw) as (_ & ? & ? & ?). by apply Hread.
  - split; [done|]. assert (code_grows code (rd_GetCode d)) as Hg'.
    { intros h. rewrite <-(co_store _ _ Hc h). apply Hgd. }
    exists (rd_GetCode d). split; [done|]. split; cbn; try done.
    + by apply run_commit.
    + eapply codes_commit; [done| |done]. intros h c Hh. destruct (Hg' h) as [->|(?&?&?&?)]; congruence.
    + by eapply code_grows_trans.
    + exists started. split; [done|]. by eapply Forall2_slot_mono.
Qed.

Lemma step_ok code0 W0 calls code a a' :
  ¬ rd_faulty → attempt_ok code0 W0 calls a code → run_step W0 a a' →
  held (sh_st a.1.1) W0 (sh_st a'.1.1) ∧ ∃ code', attempt_ok code0 W0 calls a' code'.
Proof.
  intros Hnf Ha Hs. destruct Hs as [b b' Ho|sh todo slots sh' Ho].
  - destruct (own_ok _ _ _ _ _ _ Hnf Ha Ho) as [Ha' Hh]. eauto.
  - destruct (others_ok _ _ _ _ _ _ _ _ Hnf Ha Ho) as [Hh (code' & _ & Ha')]. eauto.
Qed.

Lemma steps_ok code0 W0 calls code a a' :
  ¬ rd_faulty → attempt_ok code0 W0 calls a code → rtc (run_step W0) a a' →
  held (sh_st a.1.1) W0 (sh_st a'.1.1) ∧ ∃ code', attempt_ok code0 W0 calls a' code'.
Proof.
  intros Hnf Ha Hs. revert code Ha. induction Hs as [a|a a1 a' H1 _ IH]; intros code Ha; [eauto using held_refl|].
  destruct (step_ok _ _ _ _ _ _ Hnf Ha H1) as [Hh (code1 & Ha1)]. destruct (IH _ Ha1) as [Hh' Hx].
  split; [by eapply held_trans|done].
Qed.

Lemma attempt_begin code s pool j W0 calls :
  mem_run s W0 j → codes_ok code s → registered s pool →
  attempt_ok code W0 calls (MkShared s pool j, calls, []) code.
Proof. intros Hm Hc Hp. split; cbn; try done; [apply code_grows_refl|by constructor|]. by exists []. Qed.

(** The results of a finished attempt. *)
Lemma attempt_results code0 W0 calls sh code (results : list R) :
  attempt_ok code0 W0 calls (sh, [], Finished <$> results) code →
  Forall2 (evals (code_between code0 code) (tip_world (sh_st sh) W0) (TipInfo (sh_st sh)) ∅ ∅) calls results.
Proof.
  intros [_ _ _ _ _ (started & Hcalls & Hf)]. cbn [fst snd] in *. rewrite app_nil_r in Hcalls. subst started.
  rewrite Forall2_fmap_r in Hf. eapply Forall2_impl; [exact Hf|]. done.
Qed.

(** The pool that [New] builds. *)
Lemma engine_New_ok code s W j n :
  mem_run s W j → codes_ok code s →
  let '(s', pool) := engine_New s n in
  mem_run s' W j ∧ codes_ok code s' ∧ registered s' pool ∧ length pool = n ∧
  length (s_buffers s') = length (s_buffers s) + n.
Proof.
  revert s. induction n as [|n IH]; intros s Hm Hco; cbn; [split_and!; [done|done|by apply Forall_nil_2|done|lia]|].
  specialize (IH (Register s NewSideBuffer) (run_register _ _ _ Hm) (codes_register _ _ Hco)).
  destruct (engine_New (Register s NewSideBuffer) n) as [s' pool]. destruct IH as (? & ? & ? & <- & Hl).
  cbn in Hl. rewrite length_app in Hl. cbn in Hl. split_and!; try done; [|lia]. constructor; [cbn; lia|done].
Qed.

(** ** An attempt can be finished *)

Lemma insert_middle {A : Type} (l1 l2 : list A) x y : <[length l1:=y]> (l1 ++ x :: l2) = l1 ++ y :: l2.
Proof. rewrite <-(Nat.add_0_r (length l1)). by rewrite insert_app_r. Qed.

(** The goroutine of call [i] alone can be run to its result. *)
Lemma finish_running s pool j todo (slots : list (slot R)) i v p :
  slots !! i = Some (Running v p) → v_sb v < length (s_buffers s) →
  ∃ s' v' r, rtc run_own (MkShared s pool j, todo, slots) (MkShared s' (pool ++ [v']) j, todo, <[i:=Finished r]> slots) ∧
    v_sb v' = v_sb v ∧ length (s_buffers s') = length (s_buffers s).
Proof.
  revert s slots v. induction (smaller_wf p) as [p _ IH]. intros s slots v Hi Hv.
  destruct (thread_progress s (v, p) Hv) as [[r Hp]|(s1 & [v1 p1] & Hstep & Hl & Hsb)].
  - cbn in Hp. subst p. exists s, v, r. split_and!; [|done|done]. by apply rtc_once, ro_finish.
  - cbn [fst snd] in *. pose proof (lookup_lt_Some _ _ _ Hi) as Hlt.
    destruct (IH p1 (thread_step_smaller _ _ _ _ Hstep) s1 (<[i:=Running v1 p1]> slots) v1)
      as (s' & v' & r & Hrun & Hv' & Hl').
    + by apply list_lookup_insert_eq.
    + by rewrite Hsb, Hl.
    + exists s', v', r. rewrite list_insert_insert_eq in Hrun. split_and!; [|congruence|congruence].
      eapply rtc_l; [|exact Hrun]. by eapply ro_view.
Qed.

Lemma finish_slot s pool j todo (slots : list (slot R)) i x v :
  slots !! i = Some x → slot_view x = Some v → v_sb v < length (s_buffers s) →
  ∃ s' v' r, rtc run_own (MkShared s pool j, todo, slots) (MkShared s' (pool ++ [v']) j, todo, <[i:=Finished r]> slots) ∧
    v_sb v' = v_sb v ∧ length (s_buffers s') = length (s_buffers s).
Proof.
  intros Hi Hx Hv. destruct x as [u p|u p|r]; simplify_eq/=; [|by eapply finish_running].
  pose proof (lookup_lt_Some _ _ _ Hi) as Hlt.
  destruct (finish_running s pool j todo (<[i:=Running (v_reset v) p]> slots) i (v_reset v) p)
    as (s' & v' & r & Hrun & Hv' & Hl'); [by apply list_lookup_insert_eq|done|].
  exists s', v', r. rewrite list_insert_insert_eq in Hrun. split_and!; [|done|done].
  eapply rtc_l; [|exact Hrun]. by apply ro_reset.
Qed.

(** The calls under way can be finished, and their workers are in the pool again. *)
Lemma finish_slots (rest : list (slot R)) s pool j todo (dn : list R) :
  registered s pool → registered s (omap slot_view rest) →
  ∃ s' pool' results,
    rtc run_own (MkShared s pool j, todo, (Finished <$> dn) ++ rest) (MkShared s' pool' j, todo, Finished <$> results) ∧
    registered s' pool' ∧ (pool ≠ [] ∨ omap slot_view rest ≠ [] → pool' ≠ []).
Proof.
  revert s pool dn. induction rest as [|x rest IH]; intros s pool dn Hp Hr.
  - exists s, pool, dn. rewrite app_nil_r. split_and!; [done..|]. by intros [?|?].
  - destruct (slot_view x) as [v|] eqn:Ex.
    + unfold registered in Hr. cbn in Hr. rewrite Ex in Hr. apply Forall_cons in Hr as [Hv Hr].
      destruct (finish_slot s pool j todo ((Finished <$> dn) ++ x :: rest) (length dn) x v)
        as (s1 & v' & r & Hrun & Hv' & Hl); [|done|done|].
      { apply list_lookup_middle. by rewrite length_fmap. }
      destruct (IH s1 (pool ++ [v']) (dn ++ [r])) as (s' & pool' & results & Hrun' & Hp' & Hne).
      { unfold registered. rewrite Hl. apply Forall_app. split; [done|]. apply Forall_singleton. by rewrite Hv'. }
      { unfold registered. by rewrite Hl. }
      exists s', pool', results. split_and!; [|done|].
      * etrans; [exact Hrun|]. revert Hrun'. rewrite fmap_app, <-(assoc_L (++)). cbn.
        by rewrite <-(length_fmap Finished dn), insert_middle.
      * intros _. apply Hne. left. by destruct pool.
    + destruct x as [| |r]; try done. destruct (IH s pool (dn ++ [r]) Hp Hr) as (s' & pool' & results & Hrun & Hp' & Hne).
      exists s', pool', results. split_and!; [|done|done]. by rewrite fmap_app, <-(assoc_L (++)) in Hrun.
Qed.

Definition has_worker (sh : Shared db) (slots : list (slot R)) : Prop :=
  sh_pool sh ≠ [] ∨ omap slot_view slots ≠ [].

(** With a worker at hand, the batch finishes by its own steps. *)
Lemma run_completes sh todo (slots : list (slot R)) :
  registered (sh_st sh) (sh_pool sh) → registered (sh_st sh) (omap slot_view slots) → has_worker sh slots →
  ∃ sh' results, rtc run_own (sh, todo, slots) (sh', [], Finished <$> results) ∧ sh_pool sh' ≠ [].
Proof.
  destruct sh as [s pool j]. cbn. unfold has_worker. cbn.
  revert s pool slots. induction todo as [|p todo IH]; intros s pool slots Hp Hv Hw.
  - destruct (finish_slots slots s pool j [] [] Hp Hv) as (s' & pool' & results & Hrun & _ & Hne). eauto.
  - destruct (finish_slots slots s pool j (p :: todo) [] Hp Hv) as (s1 & pool1 & results1 & Hrun & Hp1 & Hne).
    specialize (Hne Hw). destruct pool1 as [|v pool1]; [done|]. apply Forall_cons in Hp1 as [Hv1 Hp1].
    assert (omap slot_view ((Finished <$> results1) ++ [Taken v p]) = [v]) as Ho.
    { rewrite omap_app. cbn. replace (omap slot_view (Finished <$> results1)) with (@nil View); [done|].
      clear. by induction results1. }
    destruct (IH s1 pool1 ((Finished <$> results1) ++ [Taken v p])) as (sh' & results & Hrun' & Hne').
    + done.
    + rewrite Ho. by apply Forall_singleton.
    + right. by rewrite Ho.
    + exists sh', results. split; [|done]. etrans; [exact Hrun|]. eapply rtc_l; [|exact Hrun']. apply ro_take.
Qed.

(** ** [Execute] *)

Lemma own_steps_ok code0 W0 calls code a a' :
  ¬ rd_faulty → attempt_ok code0 W0 calls a code → rtc run_own a a' →
  attempt_ok code0 W0 calls a' code ∧ held (sh_st a.1.1) W0 (sh_st a'.1.1).
Proof.
  intros Hnf Ha Hs. induction Hs as [a|a a1 a' Hs _ IH]; [eauto using held_refl|].
  destruct (own_ok _ _ _ _ _ _ Hnf Ha Hs) as [Ha1 Hh]. destruct (IH Ha1) as [Ha' Hh']. split; [done|by eapply held_trans].
Qed.

Lemma Finalize_tip s block hash s' :
  st_Finalize s block hash = (Ok (), s') →
  TipHash s' = (if Nat.eqb (length (s_layers s')) 0 then hash else TipHash s) ∧
  length (s_buffers s') = length (s_buffers s).
Proof.
  unfold st_Finalize. destruct (s_layers (lockAndDrain s)) as [|l ls]; [done|]. repeat case_bool_decide; try done.
  intros [= <-]. cbn. by rewrite length_fmap.
Qed.

Lemma mem_write_ok world_of s W j s' W' j' :
  mem_run s W j → tip_world s W = world_of (TipHash s) → mem_write world_of s W j s' W' j' →
  mem_run s' W' j' ∧ tip_world s' W' = world_of (TipHash s') ∧ length (s_buffers s) ≤ length (s_buffers s').
Proof.
  intros Hm Ht Hw. pose proof (mem_run_coherent _ _ _ Hm) as Hc.
  destruct Hw as [s W j|s W j b Hl Hb|s W j b bs s' Hbs Hf|s W j block hash er s' Hf|s W j bs b Htk Hj Hl Hlast Hb].
  - split_and!; [by apply run_register|done|]. cbn. rewrite length_app. lia.
  - destruct (ApplyBlock_coherent s W j b Hc Hl) as [_ Hbs]. split_and!; [by apply run_block| |cbn; by rewrite length_fmap].
    unfold tip_world in *. by rewrite Hbs, apply_batches_app.
  - pose proof (run_finalize s W j b bs s' Hm Hbs Hf) as Hm'. split; [done|].
    destruct (Finalize_coherent s W j b bs Hc Hbs) as (s'' & Hf' & _ & Hbs' & _). rewrite Hf in Hf'. injection Hf' as <-.
    pose proof (mem_run_stamp s W (S j) Hm) as Hst. split.
    + transitivity (tip_world s W); [by unfold tip_world; rewrite Hbs, Hbs'|]. rewrite Ht. f_equal.
      rewrite (proj1 (Finalize_tip _ _ _ _ Hf)). pose proof (length_fmap l_batch (s_layers s')) as Hls.
      change (l_batch <$> s_layers s') with (batches s') in Hls. rewrite <-Hls, Hbs'.
      destruct bs as [|b2 bs]; [|done]. pose proof (Hst b ltac:(by rewrite Hbs)) as Hb.
      unfold TipInfo, stamp in Hb. unfold TipHash. cbn. congruence.
    + by rewrite (proj2 (Finalize_tip _ _ _ _ Hf)).
  - pose proof Hf as Hf'. apply Finalize_err in Hf' as ->. split_and!; [by eapply run_finalize_err|done|].
    cbn. by rewrite length_fmap.
  - pose proof (run_reset s W j bs Hm Htk Hj Hl) as Hm'. destruct (PreferenceReset_coherent s W j bs Hc Htk Hj Hl) as [_ Hbs].
    pose proof (mem_run_stamp _ _ _ Hm' b) as Hst. rewrite Hbs in Hst. specialize (Hst Hlast).
    split_and!; [done| |].
    + unfold tip_world. rewrite Hbs, Hb. f_equal. unfold TipInfo, stamp in Hst. unfold TipHash. congruence.
    + unfold PreferenceReset. destruct (push_layers (set_layers (lockAndDrain s) []) bs) as (_ & _ & _ & ->).
      cbn. by rewrite length_fmap.
Qed.

(** Results of an attempt stamped [stamp]: they are those of the world of that block,
    with the code the store had while the attempt ran. *)
Definition fresh_results (world_of : Hash → world) (calls : list (prog R)) (code : Hash → result bytes)
    (stamp : Hash) (results : list R) : Prop :=
  ∃ code0 code1 tip, code_grows code0 code1 ∧ code_grows code1 code ∧ tip.1.1 = stamp ∧
    Forall2 (evals (code_between code0 code1) (world_of stamp) tip ∅ ∅) calls results.

Definition phase_ok (world_of : Hash → world) (calls : list (prog R)) (code : Hash → result bytes) (x : Exec (R:=R)) : Prop :=
  match x_phase x with
  | XIdle => True
  | XRun stamp todo slots =>
      stamp = TipHash (sh_st (x_sh x)) ∧ ∃ code0, attempt_ok code0 (x_base x) calls (x_sh x, todo, slots) code
  | XCheck results stamp => fresh_results world_of calls code stamp results
  | XReturned results => fresh_results world_of calls code (TipHash (sh_st (x_sh x))) results
  end.

Record exec_ok (world_of : Hash → world) (calls : list (prog R)) (code : Hash → result bytes) (x : Exec (R:=R)) : Prop := {
  eo_mem : mem_run (sh_st (x_sh x)) (x_base x) (sh_committed (x_sh x));
  eo_codes : codes_ok code (sh_st (x_sh x));
  eo_pool : registered (sh_st (x_sh x)) (sh_pool (x_sh x));
  eo_tip : tip_world (sh_st (x_sh x)) (x_base x) = world_of (TipHash (sh_st (x_sh x)));
  eo_phase : phase_ok world_of calls code x
}.

Lemma fresh_grows world_of calls code code' stamp results :
  code_grows code code' → fresh_results world_of calls code stamp results → fresh_results world_of calls code' stamp results.
Proof.
  intros Hg (c0 & c1 & tip & H01 & H1 & Ht & Hf). exists c0, c1, tip. split_and!; [done| |done|done].
  by eapply code_grows_trans.
Qed.

Lemma held_hash s W0 s' : held s W0 s' → TipHash s' = TipHash s.
Proof. intros [_ Ht _]. unfold TipInfo in Ht. unfold TipHash. congruence. Qed.

Lemma Execute_step_ok world_of calls code x x' :
  ¬ rd_faulty → exec_ok world_of calls code x → Execute_step calls x x' → exec_ok world_of calls code x'.
Proof.
  intros Hnf [Hm Hc Hp Ht Hph] Hs.
  destruct Hs as [sh W q|sh W q stamp todo slots sh' todo' slots' Ho|sh W q stamp results|sh W q results stamp Heq|sh W q results stamp Hne];
    cbn in *; unfold phase_ok in Hph; cbn in Hph.
  - split; cbn; try done. split; [done|]. exists code. cbn. destruct sh. by apply attempt_begin.
  - destruct Hph as [-> (code0 & Ha)]. destruct (own_ok _ _ _ _ _ _ Hnf Ha Ho) as [Ha' Hh]. cbn in Hh.
    pose proof Ha' as [Hm' Hc' _ Hp' _ _]. cbn in *.
    split; cbn; try done; [by rewrite (he_world _ _ _ Hh), (held_hash _ _ _ Hh)|].
    split; cbn; [by rewrite (held_hash _ _ _ Hh)|by exists code0].
  - destruct Hph as [-> (code0 & Ha)]. split; cbn; try done. exists code0, code, (TipInfo (sh_st sh)).
    split_and!; [apply (ao_grows _ _ _ _ _ Ha)|apply code_grows_refl|done|]. rewrite <-Ht. by apply attempt_results.
  - subst stamp. by split.
  - by split.
Qed.

Lemma world_step_ok world_of calls code x x' :
  ¬ rd_faulty → exec_ok world_of calls code x → world_step world_of x x' → ∃ code', exec_ok world_of calls code' x'.
Proof.
  intros Hnf [Hm Hc Hp Ht Hph] Hs. destruct Hs as [sh W q ph sh' Hret Ho|s pool j W q ph s' W' j' Hun Hw]; cbn in *.
  - assert (∃ todo slots code0 cs, attempt_ok code0 W cs (sh, todo, slots) code ∧
      ∀ code' , code_grows code code' → held (sh_st sh) W (sh_st sh') → attempt_ok code0 W cs (sh', todo, slots) code' →
        phase_ok world_of calls code' (MkExec sh' W q ph)) as (todo & slots & code0 & cs & Ha & Hback).
    { unfold phase_ok in *. cbn in *. assert (attempt_ok code W (@nil (prog R)) (sh, [], []) code) as Hempty
        by (destruct sh; by apply attempt_begin).
      destruct ph as [|stamp todo slots|results stamp|results]; [| | |by destruct (Hret results)].
      - by exists [], [], code, [].
      - destruct Hph as [-> (code0 & Ha)]. exists todo, slots, code0, calls. split; [done|]. intros code' Hg Hh Ha'.
        split; [by rewrite (held_hash _ _ _ Hh)|by exists code0].
      - exists [], [], code, []. split; [done|]. intros code' Hg Hh _. by eapply fresh_grows. }
    destruct (others_ok _ _ _ _ _ _ _ _ Hnf Ha Ho) as [Hh (code' & Hg & Ha')]. exists code'.
    pose proof Ha' as [Hm' Hc' _ Hp' _ _]. cbn in *.
    split; cbn; try done; [by rewrite (he_world _ _ _ Hh), (held_hash _ _ _ Hh)|by apply Hback].
  - exists code. destruct (mem_write_ok world_of s W j s' W' j' Hm Ht Hw) as (Hm' & Ht' & Hl). split; cbn; try done.
    + by eapply codes_write.
    + eapply Forall_impl; [exact Hp|]. cbn. intros v Hv. lia.
    + by destruct ph.
Qed.

Lemma Execute_ok world_of calls code x x' :
  ¬ rd_faulty → exec_ok world_of calls code x → Execute_run world_of calls x x' → ∃ code', exec_ok world_of calls code' x'.
Proof.
  intros Hnf Hx Hr. revert code Hx. induction Hr as [x|x y x' Hs _ IH]; intros code Hx; [by exists code|].
  destruct Hs as [Hs|Hs]; [by eapply IH, Execute_step_ok|].
  destruct (world_step_ok _ _ _ _ _ Hnf Hx Hs) as (code' & Hy). by eapply IH.
Qed.

(** A worker is in the pool or with this batch. *)
Definition exec_worker (x : Exec (R:=R)) : Prop :=
  match x_phase x with XRun _ _ slots => has_worker (x_sh x) slots | _ => sh_pool (x_sh x) ≠ [] end.

Lemma run_lift (calls : list (prog R)) W q stamp sh todo slots sh' todo' slots' :
  rtc run_own (sh, todo, slots) (sh', todo', slots') →
  rtc (Execute_step calls) (MkExec sh W q (XRun stamp todo slots)) (MkExec sh' W q (XRun stamp todo' slots')).
Proof.
  intros Hr. remember (sh, todo, slots) as a eqn:Ea. remember (sh', todo', slots') as a' eqn:Ea'.
  revert sh todo slots Ea. induction Hr as [a|a [[sh1 todo1] slots1] a' Hs _ IH]; intros; simplify_eq; [done|].
  eapply rtc_l; [by apply xs_run|]. by apply IH.
Qed.

(** An attempt by itself, from its start or its middle, ends at the check with the
    tip it ran on and a worker in the pool. *)
Lemma attempt_completes world_of calls code sh W q stamp todo slots :
  ¬ rd_faulty → exec_ok world_of calls code (MkExec sh W q (XRun stamp todo slots)) → has_worker sh slots →
  ∃ sh' results, rtc (Execute_step calls) (MkExec sh W q (XRun stamp todo slots)) (MkExec sh' W q (XCheck results stamp)) ∧
    TipHash (sh_st sh') = stamp ∧ sh_pool sh' ≠ [].
Proof.
  intros Hnf [_ _ _ _ [Hst (code0 & Ha)]] Hw. cbn in Hst, Ha. pose proof Ha as [_ _ _ Hp Hv _]. cbn in Hp, Hv.
  destruct (run_completes sh todo slots Hp Hv Hw) as (sh' & results & Hrun & Hne).
  destruct (own_steps_ok _ _ _ _ _ _ Hnf Ha Hrun) as [_ Hh]. cbn in Hh. exists sh', results.
  split_and!; [|by rewrite (held_hash _ _ _ Hh)|done]. etrans; [by apply run_lift|]. apply rtc_once, xs_end.
Qed.

(** By its own steps [Execute] returns. *)
Lemma Execute_completes world_of calls code x :
  ¬ rd_faulty → exec_ok world_of calls code x → exec_worker x →
  ∃ x' results, rtc (Execute_step calls) x x' ∧ x_phase x' = XReturned results.
Proof.
  intros Hnf Hx Hw. destruct x as [sh W q ph].
  assert (∀ sh W q stamp todo slots, exec_ok world_of calls code (MkExec sh W q (XRun stamp todo slots)) → has_worker sh slots →
    ∃ x' results, rtc (Execute_step calls) (MkExec sh W q (XRun stamp todo slots)) x' ∧ x_phase x' = XReturned results) as Hrun.
  { clear -Hnf. intros sh W q stamp todo slots Hx Hw.
    destruct (attempt_completes _ _ _ _ _ _ _ _ _ Hnf Hx Hw) as (sh' & results & Hr & Ht & _).
    exists (MkExec sh' W q (XReturned results)), results. split; [|done]. eapply rtc_r; [exact Hr|]. by apply xs_return. }
  assert (∀ sh W q, exec_ok world_of calls code (MkExec sh W q XIdle) → sh_pool sh ≠ [] →
    ∃ x' results, rtc (Execute_step calls) (MkExec sh W q XIdle) x' ∧ x_phase x' = XReturned results) as Hidle.
  { intros sh0 W' q' Hx' Hw'. pose proof (xs_begin calls sh0 W' q') as Hb.
    destruct (Hrun _ _ _ _ _ _ (Execute_step_ok _ _ _ _ _ Hnf Hx' Hb)) as (x' & results & Hr & Hd); [by left|].
    exists x', results. split; [by eapply rtc_l|done]. }
  destruct ph as [|stamp todo slots|results stamp|results]; [by apply Hidle|by apply Hrun| |by eexists _, results].
  unfold exec_worker in Hw. cbn in Hw. destruct (decide (TipHash (sh_st sh) = stamp)) as [Ht|Ht].
  - exists (MkExec sh W q (XReturned results)), results. split; [by apply rtc_once, xs_return|done].
  - pose proof (xs_requeue calls sh W q results stamp Ht) as Hb.
    destruct (Hidle _ _ _ (Execute_step_ok _ _ _ _ _ Hnf Hx Hb) Hw) as (x' & rs & Hr & Hd).
    exists x', rs. split; [by eapply rtc_l|done].
Qed.
End live.
