(* ===== verification/Exec.v ===== *)
(** * Exec: executing blocks and capturing their writes

    Models [follower/exec/statedb.go] (layers, the read view, the capture tries)
    and the bookkeeping of [follower/exec/exec.go] (pending layers, the dry-run
    base, the header window, the validation of [Execute]).  The state transition
    of transactions is libevm's and coreth's: their functions are parameters,
    programs that read through the callbacks they are given ([lib_prog]); the block
    program that calls them in order is [run_block].  The executor takes any such
    program that ends with the trie writes of its commit ([evm_prog]). *)

From S2P Require Import Prelude Schema Capture Store StoreRead Reader.

(** ** Layers *)

Record xlayer := MkXLayer {
  xl_block : u64;
  xl_parent : Hash;
  xl_accounts : gmap Address Account;
  xl_slots : gmap SKey Hash;
  xl_destructed : gset Address;
  xl_codes : gmap Hash bytes
}.

(** One operation of [layer.apply]. *)
Definition xl_apply_op (l : xlayer) (op : Op) : xlayer :=
  match op with
  | OpAccount a x =>
      MkXLayer (xl_block l) (xl_parent l) (<[a:=x]> (xl_accounts l)) (xl_slots l) (xl_destructed l)
        (xl_codes l)
  | OpSlot a s v =>
      MkXLayer (xl_block l) (xl_parent l) (xl_accounts l) (<[MkSKey a s:=v]> (xl_slots l))
        (xl_destructed l) (xl_codes l)
  | OpDeleteSlot a s =>
      MkXLayer (xl_block l) (xl_parent l) (xl_accounts l) (<[MkSKey a s:=arr_zero]> (xl_slots l))
        (xl_destructed l) (xl_codes l)
  | OpDestruct a =>
      MkXLayer (xl_block l) (xl_parent l) (delete a (xl_accounts l))
        (filter (λ kv, Addr kv.1 ≠ a) (xl_slots l)) ({[a]} ∪ xl_destructed l) (xl_codes l)
  | OpCode h c =>
      MkXLayer (xl_block l) (xl_parent l) (xl_accounts l) (xl_slots l) (xl_destructed l)
        (<[h:=c]> (xl_codes l))
  | OpOther _ => l
  end.

Definition xl_apply (l : xlayer) (ops : list Op) : xlayer := foldl xl_apply_op l ops.

Definition x_newLayer (b : Batch) : xlayer :=
  xl_apply (MkXLayer (Block b) (Parent b) ∅ ∅ ∅ ∅) (Ops b).

(** ** The read view: layers newest first, then the store at [Latest] *)

Section view.
Context {db : Type} `{Reader db}.

Fixpoint xv_account (d : db) (layers : list xlayer) (addr : Address) : result (Account * bool) * db :=
  match layers with
  | [] => rd_GetAccount d addr Latest
  | l :: ls =>
      match xl_accounts l !! addr with
      | Some a => (Ok (a, true), d)
      | None =>
          if bool_decide (addr ∈ xl_destructed l) then (Ok (Account_zero, false), d)
          else xv_account d ls addr
      end
  end.

Fixpoint xv_slot (d : db) (layers : list xlayer) (addr : Address) (slot : Hash) : result Hash * db :=
  match layers with
  | [] => rd_GetSlot d addr slot Latest
  | l :: ls =>
      match xl_slots l !! MkSKey addr slot with
      | Some v => (Ok v, d)
      | None =>
          if bool_decide (addr ∈ xl_destructed l) then (Ok arr_zero, d)
          else xv_slot d ls addr slot
      end
  end.

Fixpoint xv_code (d : db) (layers : list xlayer) (hash : Hash) : result bytes :=
  match layers with
  | [] => rd_GetCode d hash
  | l :: ls =>
      match xl_codes l !! hash with
      | Some c => Ok c
      | None => xv_code d ls hash
      end
  end.
End view.

(** ** The capture tries *)

(** [types.StateAccount]; the storage root is always the empty root. *)
Record StateAccount := MkStateAccount {
  sa_Nonce : u64;
  sa_Balance : option u256;
  sa_CodeHash : bytes
}.

Section tries.
(** [types.EmptyCodeHash] *)
Context (EmptyCodeHash : Hash).

(** [accountTrie.GetAccount] on what the view answered. *)
Definition at_GetAccount (r : result (Account * bool)) : result (option StateAccount) :=
  let! p := r in
  if negb p.2 then Ok None
  else
    let codeHash := if decide (CodeHash p.1 = arr_zero) then EmptyCodeHash else CodeHash p.1 in
    Ok (Some (MkStateAccount (Nonce p.1) (Some (Balance p.1)) (abytes codeHash))).

(** [storageTrie.GetStorage]: the key is checked before the view is read. *)
Definition st_GetStorage_key (key : bytes) : result Hash :=
  if negb (Nat.eqb (length key) 32) then Err (ErrMsg "exec") else Ok (BytesToHash key).
Definition st_GetStorage_value (r : result Hash) : result (option bytes) :=
  let! v := r in
  if decide (v = arr_zero) then Ok None else Ok (Some (abytes v)).

(** The write methods of [state.Trie]. *)
Inductive TrieWrite :=
| UpdateAccount (address : Address) (account : StateAccount)
| DeleteAccount (address : Address)
| UpdateContractCode (codeHash : Hash) (code : bytes)
| UpdateStorage (key value : bytes)
| DeleteStorage (key : bytes).

Definition captured_account (account : StateAccount) : Account :=
  MkAccount (default u_zero (sa_Balance account)) (sa_Nonce account)
    (if Nat.eqb (length (sa_CodeHash account)) 32 then BytesToHash (sa_CodeHash account)
     else EmptyCodeHash).

(** The account trie captures account, destruct and code operations and
    refuses storage. *)
Definition accountTrie_write (ops : list Op) (w : TrieWrite) : result (list Op) :=
  match w with
  | UpdateAccount a acct => Ok (ops ++ [OpAccount a (captured_account acct)])
  | DeleteAccount a => Ok (ops ++ [OpDestruct a])
  | UpdateContractCode h c => Ok (ops ++ [OpCode h c])
  | UpdateStorage _ _ | DeleteStorage _ => Err (ErrMsg "exec")
  end.

(** The storage trie of [addr] captures slots and refuses the rest. *)
Definition storageTrie_write (addr : Address) (ops : list Op) (w : TrieWrite) : result (list Op) :=
  match w with
  | UpdateStorage key value =>
      if negb (Nat.eqb (length key) 32) then Err (ErrMsg "exec")
      else Ok (ops ++ [OpSlot addr (BytesToHash key) (BytesToHash value)])
  | DeleteStorage key =>
      if negb (Nat.eqb (length key) 32) then Err (ErrMsg "exec")
      else Ok (ops ++ [OpDeleteSlot addr (BytesToHash key)])
  | UpdateAccount _ _ | DeleteAccount _ | UpdateContractCode _ _ => Err (ErrMsg "exec")
  end.

(** A write through the trie [OpenTrie] ([None]) or [OpenStorageTrie] (of an
    address) returned. *)
Definition trie_write (ops : list Op) (tw : option Address * TrieWrite) : result (list Op) :=
  match tw.1 with
  | None => accountTrie_write ops tw.2
  | Some addr => storageTrie_write addr ops tw.2
  end.

(** A refused write fails the commit. *)
Fixpoint trie_writes (ops : list Op) (ws : list (option Address * TrieWrite)) : result (list Op) :=
  match ws with
  | [] => Ok ops
  | w :: ws' => let! ops := trie_write ops w in trie_writes ops ws'
  end.
End tries.

(** ** The executor *)

(** What the executor uses of a header: its hash, height ([Number.Uint64()]),
    the gas limit, the three validated fields and the time. *)
Record Header := MkHeader {
  hd_Hash : Hash;
  hd_Number : u64;
  hd_GasLimit : u64;
  hd_GasUsed : u64;
  hd_ReceiptHash : Hash;
  hd_Bloom : bytes;
  hd_Time : u64
}.

#[export] Instance Header_eq_dec : EqDecision Header.
Proof. solve_decision. Defined.

Record Exec (db : Type) := MkExec {
  x_db : db;
  x_pending : gmap Hash xlayer;
  x_dryBase : option xlayer;
  x_finalized : u64;
  x_headers : gmap Hash Header
}.
Arguments MkExec {db} _ _ _ _ _.
Arguments x_db {db} _.
Arguments x_pending {db} _.
Arguments x_dryBase {db} _.
Arguments x_finalized {db} _.
Arguments x_headers {db} _.

Definition headerHistory : Z := 300.

(** A function of libevm or coreth, from outside: a program over the callbacks of
    the capture database and of [chainCtx]. *)
Inductive lib_prog (A : Type) :=
| EDone (r : A)
| EAccount (a : Address) (k : result (option StateAccount) → lib_prog A)
| EStorage (a : Address) (key : bytes) (k : result (option bytes) → lib_prog A)
| ECode (h : Hash) (k : result bytes → lib_prog A)
| EHeader (h : Hash) (number : u64) (k : option Header → lib_prog A).
Arguments EDone {A} _.
Arguments EAccount {A} _ _.
Arguments EStorage {A} _ _ _.
Arguments ECode {A} _ _.
Arguments EHeader {A} _ _ _.

(** One call after the other. *)
Fixpoint lib_bind {A B} (p : lib_prog A) (f : A → lib_prog B) : lib_prog B :=
  match p with
  | EDone r => f r
  | EAccount a k => EAccount a (λ x, lib_bind (k x) f)
  | EStorage a key k => EStorage a key (λ x, lib_bind (k x) f)
  | ECode h k => ECode h (λ x, lib_bind (k x) f)
  | EHeader h n k => EHeader h n (λ x, lib_bind (k x) f)
  end.

(** A call whose error is returned. *)
Definition lib_try {A B} (p : lib_prog (result A)) (f : A → lib_prog (result B)) : lib_prog (result B) :=
  lib_bind p (λ r, match r with Ok x => f x | Err e => EDone (Err e) end).

Notation "'call!' x := p 'in' k" := (lib_try p (λ x, k))
  (at level 200, x pattern, p at level 100, k at level 200).

(** What a block's program ends with: an error, or the commit's trie writes, the
    gas used and the receipts. *)
Definition evm_prog (Receipts : Type) : Type :=
  lib_prog (result (list (option Address * TrieWrite) * u64 * Receipts)).

(** ** The program of a block *)

(** What [run] calls: the state database with its journal ([sdb]), transactions and
    receipts, the block context and gas pool, the rules of the chain configuration
    and the atomic transactions.  A function that changes the state database or the
    gas pool returns them; after an error both are dropped. *)
Record Coreth := MkCoreth {
  c_StateDB : Type;
  c_Tx : Type;
  c_Receipt : Type;
  c_BlockCtx : Type;
  c_GasPool : Type;
  c_AtomicTx : Type;
  (* state.New on the capture database *)
  c_state_New : lib_prog (result c_StateDB);
  (* corethcore.ApplyUpgrades, with the parent's time *)
  c_ApplyUpgrades : u64 → Header → c_StateDB → lib_prog (result c_StateDB);
  c_NewEVMBlockContext : Header → c_BlockCtx;
  (* new(GasPool).AddGas *)
  c_AddGas : u64 → c_GasPool;
  (* SetTxContext(tx.Hash(), txIndex) *)
  c_SetTxContext : c_StateDB → c_Tx → nat → c_StateDB;
  (* corethcore.ApplyTransaction; the gas used so far is the last argument *)
  c_ApplyTransaction : c_BlockCtx → c_GasPool → c_StateDB → Header → c_Tx → u64 →
    lib_prog (result (c_Receipt * c_GasPool * c_StateDB * u64));
  (* GetRulesExtra(Rules(number, time)): IsApricotPhase5, when there is an extra *)
  c_RulesExtra : Header → option bool;
  c_ExtractAtomicTxs : bytes → bool → result (list c_AtomicTx);
  c_EVMStateTransfer : c_AtomicTx → c_StateDB → lib_prog (result c_StateDB);
  c_IsEIP158 : Header → bool;
  (* sdb.Commit: the writes it makes through the tries *)
  c_Commit : c_StateDB → u64 → bool → lib_prog (result (list (option Address * TrieWrite)))
}.

(** What [run] reads of a block beside its header. *)
Record BlockBody (c : Coreth) := MkBlockBody {
  bb_Transactions : list (c_Tx c);
  bb_ExtData : bytes
}.
Arguments MkBlockBody {c} _ _.
Arguments bb_Transactions {c} _.
Arguments bb_ExtData {c} _.

Section block.
Context (c : Coreth).

(** The transaction loop, from index [txIndex]. *)
Fixpoint apply_txs (blockCtx : c_BlockCtx c) (header : Header) (txIndex : nat) (txs : list (c_Tx c))
    (gp : c_GasPool c) (sdb : c_StateDB c) (usedGas : u64) (receipts : list (c_Receipt c)) :
    lib_prog (result (c_StateDB c * u64 * list (c_Receipt c))) :=
  match txs with
  | [] => EDone (Ok (sdb, usedGas, receipts))
  | tx :: txs' =>
      call! (receipt, gp, sdb, usedGas) :=
        c_ApplyTransaction c blockCtx gp (c_SetTxContext c sdb tx txIndex) header tx usedGas in
      apply_txs blockCtx header (S txIndex) txs' gp sdb usedGas (receipts ++ [receipt])
  end.

(** The loop over the atomic transactions. *)
Fixpoint transfer_all (atomicTxs : list (c_AtomicTx c)) (sdb : c_StateDB c) : lib_prog (result (c_StateDB c)) :=
  match atomicTxs with
  | [] => EDone (Ok sdb)
  | atx :: atomicTxs' => call! sdb := c_EVMStateTransfer c atx sdb in transfer_all atomicTxs' sdb
  end.

(** Atomic transactions live in the block's [ExtData]. *)
Definition apply_atomic (header : Header) (extData : bytes) (sdb : c_StateDB c) : lib_prog (result (c_StateDB c)) :=
  match extData with
  | [] => EDone (Ok sdb)
  | _ =>
      let isAP5 := default false (c_RulesExtra c header) in
      call! atomicTxs := EDone (c_ExtractAtomicTxs c extData isAP5) in
      transfer_all atomicTxs sdb
  end.

(** [Exec.run] from the opened view on. *)
Definition run_block (parentHeader header : Header) (blk : BlockBody c) : evm_prog (list (c_Receipt c)) :=
  call! sdb := c_state_New c in
  call! sdb := c_ApplyUpgrades c (hd_Time parentHeader) header sdb in
  let blockCtx := c_NewEVMBlockContext c header in
  let gp := c_AddGas c (hd_GasLimit header) in
  call! (sdb, usedGas, receipts) := apply_txs blockCtx header 0 (bb_Transactions blk) gp sdb u_zero [] in
  call! sdb := apply_atomic header (bb_ExtData blk) sdb in
  call! writes := c_Commit c sdb (hd_Number header) (c_IsEIP158 c header) in
  EDone (Ok (writes, usedGas, receipts)).
End block.

Section exec.
Context {db : Type} `{Reader db}.
Context {Body Receipts : Type} (EmptyCodeHash : Hash).
(** the transition of a block on its parent header; [DeriveSha], [CreateBloom] *)
Context (evm : Header → Header → Body → evm_prog Receipts).
Context (DeriveSha : Receipts → Hash) (CreateBloom : Receipts → bytes).
Implicit Types e : Exec db.

Definition exec_New (d : db) : Exec db := MkExec d ∅ None u_zero ∅.

Definition SeedHeaders e (headers : list Header) : Exec db :=
  MkExec (x_db e) (x_pending e) (x_dryBase e) (x_finalized e)
    (foldl (λ m h, <[hd_Hash h:=h]> m) (x_headers e) headers).

Definition exec_prune e (height : u64) : Exec db :=
  MkExec (x_db e) (filter (λ kv, ¬ (xl_block kv.2 ≤ height)%Z) (x_pending e)) (x_dryBase e) height
    (if (headerHistory <? height)%Z
     then filter (λ kv, ¬ (hd_Number kv.2 < u_sub height (wrap headerHistory))%Z) (x_headers e)
     else x_headers e).

Definition OnFinalized e (height : u64) : Exec db := exec_prune e height.

Definition FoldFinalized e (b : Batch) : Exec db :=
  let base := default (x_newLayer (MkBatch u_zero arr_zero arr_zero u_zero [])) (x_dryBase e) in
  exec_prune (MkExec (x_db e) (x_pending e) (Some (xl_apply base (Ops b))) (x_finalized e) (x_headers e))
    (Block b).

(** The walk of [viewAt]; [fuel] bounds the parent links followed. *)
Fixpoint pending_walk (fuel : nat) (pending : gmap Hash xlayer) (h : Hash) : option (list xlayer) :=
  match fuel with
  | O => None
  | S fuel' =>
      match pending !! h with
      | None => Some []
      | Some l => (l ::.) <$> pending_walk fuel' pending (xl_parent l)
      end
  end.

Definition viewAt (fuel : nat) e (parent : Hash) : option (list xlayer) :=
  (λ layers, layers ++ match x_dryBase e with Some l => [l] | None => [] end) <$>
    pending_walk fuel (x_pending e) parent.

(** [chainCtx.GetHeader] *)
Definition GetHeader e (hash : Hash) (number : u64) : option Header :=
  match x_headers e !! hash with
  | Some h => if bool_decide (hd_Number h ≠ number) then None else Some h
  | None => None
  end.

(** Run a transition against the view: reads answer through the layers and
    the store, whose caches they may fill. *)
Fixpoint run_evm {A} (d : db) (layers : list xlayer) (headers : Hash → u64 → option Header)
    (p : lib_prog A) : A * db :=
  match p with
  | EDone r => (r, d)
  | EAccount a k =>
      let '(r, d) := xv_account d layers a in
      run_evm d layers headers (k (at_GetAccount EmptyCodeHash r))
  | EStorage a key k =>
      match st_GetStorage_key key with
      | Err er => run_evm d layers headers (k (Err er))
      | Ok slot =>
          let '(r, d) := xv_slot d layers a slot in
          run_evm d layers headers (k (st_GetStorage_value r))
      end
  | ECode h k => run_evm d layers headers (k (xv_code d layers h))
  | EHeader h n k => run_evm d layers headers (k (headers h n))
  end.

Definition set_xdb e (d : db) : Exec db :=
  MkExec d (x_pending e) (x_dryBase e) (x_finalized e) (x_headers e).

(** [Exec.run] *)
Definition exec_run (fuel : nat) e (parent : Hash) (header : Header) (body : Body) :
    result (list Op * u64 * Receipts) * Exec db :=
  match x_headers e !! parent with
  | None => (Err (ErrMsg "exec"), e)
  | Some parentHeader =>
      if bool_decide (hd_Number parentHeader ≠ u_sub (hd_Number header) (wrap 1))
      then (Err (ErrMsg "exec"), e)
      else
        match viewAt fuel e parent with
        | None => (Err (ErrMsg "fuel"), e)
        | Some layers =>
            let '(r, d) := run_evm (x_db e) layers (GetHeader e) (evm parentHeader header body) in
            (let! p := r in
             let! ops := trie_writes EmptyCodeHash [] p.1.1 in
             Ok (ops, p.1.2, p.2), set_xdb e d)
        end
  end.

(** [Exec.Execute] *)
Definition exec_Execute (fuel : nat) e (parent : Hash) (header : Header) (body : Body) :
    result Batch * Exec db :=
  let '(r, e) := exec_run fuel e parent header body in
  match r with
  | Err er => (Err er, e)
  | Ok (ops, usedGas, receipts) =>
      if bool_decide (usedGas ≠ hd_GasUsed header) then (Err (ErrMsg "exec"), e)
      else if bool_decide (DeriveSha receipts ≠ hd_ReceiptHash header) then (Err (ErrMsg "exec"), e)
      else if bool_decide (CreateBloom receipts ≠ hd_Bloom header) then (Err (ErrMsg "exec"), e)
      else
        let batch := MkBatch (hd_Number header) (hd_Hash header) parent
                       (wrap (hd_Time header * 1000)) ops in
        (Ok batch,
         MkExec (x_db e) (<[BHash batch:=x_newLayer batch]> (x_pending e)) (x_dryBase e)
           (x_finalized e) (<[hd_Hash header:=header]> (x_headers e)))
  end.
End exec.
