(* ===== verification/ExecProof.v ===== *)
(** * ExecProof: blocks execute on their parent's world

    A layer is a partial world over what lies below it, so a view of layers over
    the store answers the world of the parent block; the transition sees nothing
    else.  The executor's bookkeeping keeps that true as blocks are executed,
    finalized into the store, or folded into the dry-run base. *)

From S2P Require Import Prelude Schema Capture World Store StoreRead StoreReads Reader Exec.

(** ** A layer over a world *)

Definition layer_world (l : xlayer) (w : world) : world :=
  MkWorld
    (λ a, match xl_accounts l !! a with
          | Some x => Some x
          | None => if bool_decide (a ∈ xl_destructed l) then None else w_acct w a
          end)
    (λ a s, match xl_slots l !! MkSKey a s with
            | Some v => v
            | None => if bool_decide (a ∈ xl_destructed l) then zero_hash else w_slot w a s
            end).

Lemma lookup_insert_slot (m : gmap SKey Hash) a s v a' s' :
  <[MkSKey a s:=v]> m !! MkSKey a' s' = if decide (a' = a ∧ s' = s) then Some v else m !! MkSKey a' s'.
Proof.
  case_decide as Hd; [destruct Hd as [-> ->]; apply lookup_insert_eq|].
  apply lookup_insert_ne. intros [= -> ->]. by apply Hd.
Qed.

Lemma layer_world_op l op w : layer_world (xl_apply_op l op) w ≡ apply_op (layer_world l w) op.
Proof.
  destruct op as [a x|a s v|a s|a|h c|k]; split;
    cbn [layer_world xl_apply_op apply_op w_acct w_slot xl_accounts xl_slots xl_destructed]; try done.
  - intros a'. case_decide; subst; [by rewrite lookup_insert_eq|by rewrite lookup_insert_ne].
  - intros a' s'. rewrite lookup_insert_slot. by case_decide.
  - intros a' s'. rewrite lookup_insert_slot. by case_decide.
  - intros a'. case_decide; subst.
    + by rewrite lookup_delete_eq, bool_decide_eq_true_2 by set_solver.
    + rewrite lookup_delete_ne by done. erewrite bool_decide_ext; [done|set_solver].
  - intros a' s'. case_decide as Ha; subst.
    + rewrite map_lookup_filter_None_2 by (right; cbn; naive_solver).
      by rewrite bool_decide_eq_true_2 by set_solver.
    + assert (filter (λ kv, Addr kv.1 ≠ a) (xl_slots l) !! MkSKey a' s' = xl_slots l !! MkSKey a' s') as ->.
      { apply option_eq. intros v. rewrite map_lookup_filter_Some. cbn. naive_solver. }
      erewrite (bool_decide_ext (a' ∈ {[a]} ∪ _)); [done|set_solver].
Qed.

#[export] Instance layer_world_proper l : Proper ((≡) ==> (≡)) (layer_world l).
Proof.
  intros w1 w2 [Ha Hs]. split; cbn; intros; repeat case_match; auto.
Qed.

Lemma layer_world_apply l ops w : layer_world (xl_apply l ops) w ≡ apply_ops (layer_world l w) ops.
Proof.
  revert l. induction ops as [|op ops IH]; intros l; [done|].
  unfold xl_apply, apply_ops in *. cbn [foldl]. rewrite IH.
  apply (apply_ops_proper _ _ (layer_world_op l op w) ops ops eq_refl).
Qed.

Lemma layer_world_new b w : layer_world (x_newLayer b) w ≡ apply_batch w b.
Proof.
  unfold x_newLayer. rewrite layer_world_apply. unfold apply_batch. apply apply_ops_proper; [|done].
  split; cbn; intros; by rewrite lookup_empty, bool_decide_eq_false_2 by set_solver.
Qed.

Lemma newLayer_fields b : xl_block (x_newLayer b) = Block b ∧ xl_parent (x_newLayer b) = Parent b.
Proof.
  unfold x_newLayer, xl_apply. generalize (Ops b). intros ops.
  set (l := MkXLayer _ _ _ _ _ _). change (Block b) with (xl_block l). change (Parent b) with (xl_parent l).
  clearbody l. revert l. induction ops as [|op ops IH]; intros l; [done|]. cbn [foldl].
  destruct (IH (xl_apply_op l op)) as [-> ->]. by destruct op.
Qed.

(** Layers newest first. *)
Definition layers_world (ls : list xlayer) (w : world) : world := foldr layer_world w ls.

#[export] Instance layers_world_proper ls : Proper ((≡) ==> (≡)) (layers_world ls).
Proof. intros w1 w2 Hw. induction ls as [|l ls IH]; [done|]. cbn. by rewrite IH. Qed.

Lemma layers_world_batches cs w : layers_world (x_newLayer <$> cs) w ≡ apply_batches w (reverse cs).
Proof.
  induction cs as [|b cs IH]; [done|]. rewrite reverse_cons. unfold apply_batches. rewrite foldl_snoc.
  cbn [fmap list_fmap layers_world foldr]. rewrite layer_world_new.
  unfold apply_batch. by apply apply_ops_proper.
Qed.

Lemma layers_world_app ls ls' w : layers_world (ls ++ ls') w = layers_world ls (layers_world ls' w).
Proof. apply foldr_app. Qed.

(** ** The view answers that world *)

Section view.
Context {db : Type} `{ReaderLaws db}.

(** Same store for reading: the world at the tip and the code it has. *)
Definition same_store (d d' : db) : Prop :=
  (∀ w, serves d Latest w → serves d' Latest w) ∧ (∀ h, rd_GetCode d' h = rd_GetCode d h).

Lemma same_store_refl d : same_store d d.
Proof. done. Qed.

Lemma xv_account_spec d ls a w :
  serves d Latest w →
  answers rd_faulty (xv_account d ls a).1 (account_answer (w_acct (layers_world ls w) a)) ∧
  same_store d (xv_account d ls a).2.
Proof.
  intros Hs. induction ls as [|l ls IH]; cbn [xv_account layers_world foldr].
  - split; [by apply GetAccount_law|]. split; [|apply GetAccount_code].
    intros w'. apply (GetAccount_frame d a Latest w Hs).
  - cbn [layer_world w_acct]. destruct (xl_accounts l !! a); [done|]. by case_bool_decide.
Qed.

Lemma xv_slot_spec d ls a s w :
  serves d Latest w →
  answers rd_faulty (xv_slot d ls a s).1 (w_slot (layers_world ls w) a s) ∧
  same_store d (xv_slot d ls a s).2.
Proof.
  intros Hs. induction ls as [|l ls IH]; cbn [xv_slot layers_world foldr].
  - split; [by apply GetSlot_law|]. split; [|apply GetSlot_code].
    intros w'. apply (GetSlot_frame d a s Latest w Hs).
  - cbn [layer_world w_slot]. destruct (xl_slots l !! MkSKey a s); [done|]. by case_bool_decide.
Qed.

Lemma xv_code_same d d' ls h : same_store d d' → xv_code d' ls h = xv_code d ls h.
Proof. intros [_ Hc]. induction ls as [|l ls IH]; [apply Hc|]. cbn [xv_code]. by rewrite IH. Qed.

(** ** The transition depends on the world only *)

Context {A : Type} (EmptyCodeHash : Hash).

Fixpoint eval_evm (w : world) (code : Hash → result bytes) (headers : Hash → u64 → option Header)
    (p : lib_prog A) : A :=
  match p with
  | EDone r => r
  | EAccount a k =>
      eval_evm w code headers (k (at_GetAccount EmptyCodeHash (Ok (account_answer (w_acct w a)))))
  | EStorage a key k =>
      eval_evm w code headers
        (k (let! slot := st_GetStorage_key key in st_GetStorage_value (Ok (w_slot w a slot))))
  | ECode h k => eval_evm w code headers (k (code h))
  | EHeader h n k => eval_evm w code headers (k (headers h n))
  end.

Lemma eval_evm_world w w' code code' headers p :
  w ≡ w' → (∀ h, code h = code' h) → eval_evm w code headers p = eval_evm w' code' headers p.
Proof.
  intros [Ha Hs] Hc. induction p as [r|a k IH|a key k IH|h k IH|h n k IH]; cbn [eval_evm]; [done|..].
  - by rewrite Ha, IH.
  - destruct (st_GetStorage_key key) as [slot|er]; cbn [rbind]; [rewrite Hs|]; apply IH.
  - by rewrite Hc, IH.
  - apply IH.
Qed.

Lemma run_evm_spec d ls headers p w :
  ¬ rd_faulty → serves d Latest w →
  (run_evm EmptyCodeHash d ls headers p).1 = eval_evm (layers_world ls w) (xv_code d ls) headers p ∧
  same_store d (run_evm EmptyCodeHash d ls headers p).2.
Proof.
  intros Hnf. revert d. induction p as [r|a k IH|a key k IH|h k IH|h n k IH]; intros d Hs;
    cbn [run_evm eval_evm]; [done|..].
  - destruct (xv_account_spec d ls a w Hs) as [Hr Hd]. apply answers_ok in Hr; [|done].
    destruct (xv_account d ls a) as [r d']. cbn [fst snd] in *. subst r.
    destruct (IH (at_GetAccount EmptyCodeHash (Ok (account_answer (w_acct (layers_world ls w) a)))) d')
      as [He Hd']; [by apply Hd|].
    rewrite He. split; [|split; [intros w'; by intros ?%Hd%Hd'|intros h; by rewrite (proj2 Hd'), (proj2 Hd)]].
    apply eval_evm_world; [done|]. intros h. by apply xv_code_same.
  - destruct (st_GetStorage_key key) as [slot|er]; [|by apply IH]. cbn [rbind].
    destruct (xv_slot_spec d ls a slot w Hs) as [Hr Hd]. apply answers_ok in Hr; [|done].
    destruct (xv_slot d ls a slot) as [r d']. cbn [fst snd] in *. subst r.
    destruct (IH (st_GetStorage_value (Ok (w_slot (layers_world ls w) a slot))) d') as [He Hd'];
      [by apply Hd|].
    rewrite He. split; [|split; [intros w'; by intros ?%Hd%Hd'|intros h; by rewrite (proj2 Hd'), (proj2 Hd)]].
    apply eval_evm_world; [done|]. intros h. by apply xv_code_same.
  - by apply IH.
  - by apply IH.
Qed.
End view.

(** A layer has code for every hash its batch brings code for. *)
Lemma layer_code b h c : OpCode h c ∈ Ops b → ∃ c', OpCode h c' ∈ Ops b ∧ xl_codes (x_newLayer b) !! h = Some c'.
Proof.
  unfold x_newLayer, xl_apply. generalize (MkXLayer (Block b) (Parent b) ∅ ∅ ∅ ∅).
  induction (Ops b) as [|op ops IH] using rev_ind; intros l; [by intros ?%elem_of_nil|].
  rewrite foldl_app. cbn [foldl]. set (l' := foldl xl_apply_op l ops). intros Hin.
  assert ((∃ x, op = OpCode h x) ∨ ¬ ∃ x, op = OpCode h x) as [[x ->]|Hne].
  { destruct op as [| | | |h0 x|]; try (right; by intros [? ?]).
    destruct (decide (h0 = h)) as [->|]; [left; by eexists|right; by intros [? [= ? ?]]]. }
  { exists x. split; [apply elem_of_app; right; by left|]. cbn. apply lookup_insert_eq. }
  apply elem_of_app in Hin as [Hin|[<-|[]%elem_of_nil]%elem_of_cons]; [|by destruct Hne; eexists].
  destruct (IH l Hin) as (c' & Hc' & Hl). exists c'. split; [apply elem_of_app; by left|]. fold l' in Hl.
  destruct op as [| | | |h0 x|]; cbn; try done. rewrite lookup_insert_ne; [done|]. intros ->. destruct Hne. by eexists.
Qed.

(** ** The block program

    What [run_block] does, as a run: each call succeeds on what the calls before
    it left. *)

Section block.
Context (EmptyCodeHash : Hash) (w : world) (code : Hash → result bytes) (headers : Hash → u64 → option Header).
Context (c : Coreth).

Lemma eval_bind {A B} (p : lib_prog A) (f : A → lib_prog B) :
  eval_evm EmptyCodeHash w code headers (lib_bind p f) =
  eval_evm EmptyCodeHash w code headers (f (eval_evm EmptyCodeHash w code headers p)).
Proof. induction p as [r|a k IH|a key k IH|h k IH|h n k IH]; cbn [lib_bind eval_evm]; [done|apply IH..]. Qed.

Lemma eval_try {A B} (p : lib_prog (result A)) (f : A → lib_prog (result B)) y :
  eval_evm EmptyCodeHash w code headers (lib_try p f) = Ok y ↔
  ∃ x, eval_evm EmptyCodeHash w code headers p = Ok x ∧ eval_evm EmptyCodeHash w code headers (f x) = Ok y.
Proof.
  unfold lib_try. rewrite eval_bind. destruct (eval_evm _ _ _ _ p) as [x|er]; cbn.
  - split; [by exists x|]. by intros (? & [= <-] & ?).
  - split; [done|]. by intros (? & ? & _).
Qed.

(** Transactions [i], [i+1], ... each on the gas pool, the state and the gas used
    that the one before left, giving one receipt each. *)
Inductive txs_run (blockCtx : c_BlockCtx c) (header : Header) :
    nat → list (c_Tx c) → c_GasPool c * c_StateDB c * u64 → list (c_Receipt c) → c_StateDB c * u64 → Prop :=
| txs_run_nil i gp sdb gas : txs_run blockCtx header i [] (gp, sdb, gas) [] (sdb, gas)
| txs_run_cons i tx txs gp sdb gas receipt gp' sdb' gas' receipts res :
    eval_evm EmptyCodeHash w code headers
      (c_ApplyTransaction c blockCtx gp (c_SetTxContext c sdb tx i) header tx gas) = Ok (receipt, gp', sdb', gas') →
    txs_run blockCtx header (S i) txs (gp', sdb', gas') receipts res →
    txs_run blockCtx header i (tx :: txs) (gp, sdb, gas) (receipt :: receipts) res.

Inductive transfers_run : list (c_AtomicTx c) → c_StateDB c → c_StateDB c → Prop :=
| transfers_nil sdb : transfers_run [] sdb sdb
| transfers_cons atx atxs sdb sdb1 sdb2 :
    eval_evm EmptyCodeHash w code headers (c_EVMStateTransfer c atx sdb) = Ok sdb1 →
    transfers_run atxs sdb1 sdb2 → transfers_run (atx :: atxs) sdb sdb2.

(** The atomic transactions of the extra data, if there are data. *)
Definition atomic_run (header : Header) (extData : bytes) (sdb sdb' : c_StateDB c) : Prop :=
  if decide (extData = []) then sdb' = sdb
  else ∃ atxs, c_ExtractAtomicTxs c extData (default false (c_RulesExtra c header)) = Ok atxs ∧ transfers_run atxs sdb sdb'.

Record block_run (ph header : Header) (blk : BlockBody c) (writes : list (option Address * TrieWrite)) (gas : u64)
    (receipts : list (c_Receipt c)) : Prop := {
  br_run : ∃ sdb0 sdb1 sdb2 sdb3,
    eval_evm EmptyCodeHash w code headers (c_state_New c) = Ok sdb0 ∧
    eval_evm EmptyCodeHash w code headers (c_ApplyUpgrades c (hd_Time ph) header sdb0) = Ok sdb1 ∧
    txs_run (c_NewEVMBlockContext c header) header 0 (bb_Transactions blk)
      (c_AddGas c (hd_GasLimit header), sdb1, u_zero) receipts (sdb2, gas) ∧
    atomic_run header (bb_ExtData blk) sdb2 sdb3 ∧
    eval_evm EmptyCodeHash w code headers (c_Commit c sdb3 (hd_Number header) (c_IsEIP158 c header)) = Ok writes
}.

Lemma apply_txs_run blockCtx header txs i gp sdb gas done sdb' gas' receipts :
  eval_evm EmptyCodeHash w code headers (apply_txs c blockCtx header i txs gp sdb gas done) = Ok (sdb', gas', receipts) ↔
  ∃ rs, receipts = done ++ rs ∧ txs_run blockCtx header i txs (gp, sdb, gas) rs (sdb', gas').
Proof.
  revert i gp sdb gas done. induction txs as [|tx txs IH]; intros i gp sdb gas done; cbn [apply_txs].
  - cbn [eval_evm]. split.
    + intros [= <- <- <-]. exists []. split; [by rewrite app_nil_r|constructor].
    + intros (rs & -> & Hr). inversion Hr; subst. by rewrite app_nil_r.
  - rewrite eval_try. split.
    + intros ([[[r gp1] sdb1] gas1] & Ht & (rs & -> & Hr)%IH). exists (r :: rs).
      split; [by rewrite <-app_assoc|by econstructor].
    + intros (rs & -> & Hr). inversion Hr; subst. eexists (_, _, _, _). split; [done|]. apply IH.
      eexists. split; [|done]. by rewrite <-app_assoc.
Qed.

Lemma txs_run_length blockCtx header i txs st receipts res :
  txs_run blockCtx header i txs st receipts res → length receipts = length txs.
Proof. induction 1; cbn; lia. Qed.

Lemma transfer_all_run atxs sdb sdb' :
  eval_evm EmptyCodeHash w code headers (transfer_all c atxs sdb) = Ok sdb' ↔ transfers_run atxs sdb sdb'.
Proof.
  revert sdb. induction atxs as [|atx atxs IH]; intros sdb; cbn [transfer_all].
  - cbn [eval_evm]. split; [intros [= <-]; constructor|by inversion 1].
  - rewrite eval_try. split.
    + intros (sdb1 & Ht & ?%IH). by econstructor.
    + inversion 1; subst. eexists. split; [done|]. by apply IH.
Qed.

Lemma apply_atomic_run header extData sdb sdb' :
  eval_evm EmptyCodeHash w code headers (apply_atomic c header extData sdb) = Ok sdb' ↔ atomic_run header extData sdb sdb'.
Proof.
  unfold atomic_run. destruct extData as [|b extData]; cbn [apply_atomic].
  - rewrite decide_True by done. cbn [eval_evm]. split; [by intros [= <-]|by intros ->].
  - rewrite decide_False by done. rewrite eval_try. cbn [eval_evm]. by setoid_rewrite transfer_all_run.
Qed.

(** The program succeeds exactly when the block has such a run, with its result. *)
Lemma run_block_run ph header blk writes gas receipts :
  eval_evm EmptyCodeHash w code headers (run_block c ph header blk) = Ok (writes, gas, receipts) ↔
  block_run ph header blk writes gas receipts.
Proof.
  unfold run_block. rewrite eval_try. split.
  - intros (sdb0 & H0 & (sdb1 & H1 & ([[sdb2 gas'] rs] & H2 & (sdb3 & H3 & (ws & H4 & H5)%eval_try)%eval_try)%eval_try)%eval_try).
    cbn [eval_evm] in H5. simplify_eq. apply apply_txs_run in H2 as (rs & -> & H2). apply apply_atomic_run in H3.
    split. by exists sdb0, sdb1, sdb2, sdb3.
  - intros [(sdb0 & sdb1 & sdb2 & sdb3 & H0 & H1 & H2 & H3 & H4)].
    exists sdb0. split; [done|]. apply eval_try. exists sdb1. split; [done|]. apply eval_try.
    exists (sdb2, gas, receipts). split; [apply apply_txs_run; by exists receipts|]. apply eval_try. exists sdb3.
    split; [by apply apply_atomic_run|]. apply eval_try. by exists writes.
Qed.
End block.

(** ** Pending chains *)

(** The batches of the pending layers from [h] down, newest first. *)
Inductive pending_chain (p : gmap Hash xlayer) : Hash → list Batch → Prop :=
| pc_end h : p !! h = None → pending_chain p h []
| pc_step h b cs :
    p !! h = Some (x_newLayer b) → pending_chain p (Parent b) cs → pending_chain p h (b :: cs).

Lemma pending_walk_chain p h cs fuel :
  walk_down xl_parent (λ l, uval (xl_block l)) p → pending_chain p h cs →
  walk_left (λ l, uval (xl_block l)) p h < fuel → pending_walk fuel p h = Some (x_newLayer <$> cs).
Proof.
  intros Hd Hc. revert fuel. induction Hc as [h Hn|h b cs Hb Hc IH]; intros [|fuel] Hf; [lia| |lia|];
    cbn [pending_walk]; [by rewrite Hn|]. rewrite Hb.
  pose proof (walk_left_next xl_parent (λ l, uval (xl_block l)) p h _ Hd Hb) as Hl.
  rewrite (proj2 (newLayer_fields b)) in *. rewrite IH by lia. done.
Qed.

Section inv.
Context {db : Type} `{ReaderLaws db}.
Implicit Types e : Exec db.

(** [W] is the store's tip world, [D] the batches folded into the dry-run
    base. *)
Record exec_inv e (W : world) (D : list Batch) : Prop := {
  xi_store : serves (x_db e) Latest W;
  xi_dry : match x_dryBase e with
           | Some l => ∀ w, layer_world l w ≡ apply_batches w D
           | None => D = []
           end;
  xi_pending h l : x_pending e !! h = Some l → ∃ b, l = x_newLayer b ∧ BHash b = h;
  xi_header h l : x_pending e !! h = Some l →
    ∃ hd, x_headers e !! h = Some hd ∧ hd_Number hd = xl_block l;
  xi_parent h l : x_pending e !! h = Some l →
    ∃ hd, x_headers e !! xl_parent l = Some hd ∧ (hd_Number hd + 1 = xl_block l)%Z
}.

Lemma exec_inv_down e W D : exec_inv e W D → walk_down xl_parent (λ l, uval (xl_block l)) (x_pending e).
Proof.
  intros Hi h l l' Hl Hl'. destruct (xi_parent _ _ _ Hi _ _ Hl) as (hd & Hhd & Hn).
  destruct (xi_header _ _ _ Hi _ _ Hl') as (hd' & Hhd' & Hn'). rewrite Hhd in Hhd'. simplify_eq.
  rewrite <-Hn'. lia.
Qed.

(** Every hash starts a chain. *)
Lemma pending_chain_exists e W D h : exec_inv e W D → ∃ cs, pending_chain (x_pending e) h cs.
Proof.
  intros Hi. pose proof (exec_inv_down _ _ _ Hi) as Hd.
  remember (walk_left (λ l, uval (xl_block l)) (x_pending e) h) as n eqn:Hn. revert h Hn.
  induction (lt_wf n) as [n _ IH]. intros h ->.
  destruct (x_pending e !! h) as [l|] eqn:El; [|exists []; by constructor].
  destruct (xi_pending _ _ _ Hi _ _ El) as (b & -> & _).
  destruct (IH _ (walk_left_next xl_parent (λ l, uval (xl_block l)) (x_pending e) h _ Hd El) _ eq_refl)
    as [cs Hcs].
  exists (b :: cs). constructor; [done|]. by rewrite (proj2 (newLayer_fields b)) in Hcs.
Qed.

(** The world the children of [h] start from. *)
Definition chain_world (W : world) (D cs : list Batch) : world :=
  apply_batches (apply_batches W D) (reverse cs).

Lemma viewAt_spec e W D h cs fuel :
  exec_inv e W D → pending_chain (x_pending e) h cs → size (x_pending e) < fuel →
  ∃ ls, viewAt fuel e h = Some ls ∧ layers_world ls W ≡ chain_world W D cs.
Proof.
  intros Hi Hc Hf. pose proof (exec_inv_down _ _ _ Hi) as Hd. unfold viewAt.
  pose proof (walk_left_size (λ l, uval (xl_block l)) (x_pending e) h).
  rewrite (pending_walk_chain _ _ _ fuel Hd Hc) by lia. eexists. split; [done|].
  rewrite layers_world_app. etrans; [apply layers_world_batches|].
  apply apply_batches_proper; [|done]. pose proof (xi_dry _ _ _ Hi) as Hdry.
  destruct (x_dryBase e) as [l|]; [apply Hdry|by rewrite Hdry].
Qed.

(** ** Pruning *)

Lemma chain_above p h cs b :
  walk_down xl_parent (λ l, uval (xl_block l)) p → pending_chain p h (cs ++ [b]) →
  ∀ b', b' ∈ cs → (Block b < Block b')%Z.
Proof.
  intros Hd Hc. remember (cs ++ [b]) as c eqn:Ec. revert cs Ec.
  induction Hc as [h Hn|h b0 c Hb0 Hc IH]; intros cs Ec; [by destruct cs|].
  destruct cs as [|b1 cs]; [by intros b' ?%elem_of_nil|]. injection Ec as <- ->.
  specialize (IH cs eq_refl). intros b' [->|Hin]%elem_of_cons; [|by apply IH].
  destruct cs as [|b2 cs].
  - inversion_clear Hc as [|?? ? Hb1 _]. pose proof (Hd h _ (x_newLayer b) Hb0) as Hlt. cbn in Hlt.
    rewrite (proj2 (newLayer_fields b0)), !(proj1 (newLayer_fields _)) in Hlt. by apply Hlt.
  - assert (Block b < Block b2)%Z by (apply IH; by left).
    inversion_clear Hc as [|?? ? Hb1 _]. pose proof (Hd h _ (x_newLayer b2) Hb0) as Hlt. cbn in Hlt.
    rewrite (proj2 (newLayer_fields b0)), !(proj1 (newLayer_fields _)) in Hlt. specialize (Hlt Hb1). lia.
Qed.

Lemma prune_chain p h cs b :
  walk_down xl_parent (λ l, uval (xl_block l)) p → pending_chain p h (cs ++ [b]) →
  pending_chain (filter (λ kv, ¬ (xl_block kv.2 ≤ Block b)%Z) p) h cs.
Proof.
  intros Hd Hc. pose proof (chain_above p h cs b Hd Hc) as Ha.
  remember (cs ++ [b]) as c eqn:Ec. revert cs Ec Ha.
  induction Hc as [h Hn|h b0 c Hb0 Hc IH]; intros cs Ec Ha; [by destruct cs|].
  destruct cs as [|b1 cs]; injection Ec as <- ->.
  - constructor. apply map_lookup_filter_None. right. intros l Hl. rewrite Hb0 in Hl. simplify_eq. cbn.
    rewrite (proj1 (newLayer_fields b0)). lia.
  - constructor; [|apply IH; [done|]; intros b' ?; apply Ha; by right].
    apply map_lookup_filter_Some. split; [done|]. cbn. rewrite (proj1 (newLayer_fields b0)).
    specialize (Ha b0 (list_elem_of_here _ _)). lia.
Qed.

Lemma prune_inv e W D W' D' height base d :
  exec_inv e W D → serves d Latest W' →
  match base with Some l => ∀ w, layer_world l w ≡ apply_batches w D' | None => D' = [] end →
  exec_inv (exec_prune (MkExec d (x_pending e) base (x_finalized e) (x_headers e)) height) W' D'.
Proof.
  intros Hi Hs Hb.
  assert (∀ h hd, x_headers e !! h = Some hd → (height ≤ hd_Number hd)%Z →
    x_headers (exec_prune (MkExec d (x_pending e) base (x_finalized e) (x_headers e)) height) !! h = Some hd)
    as Hkeep.
  { intros h hd Hh Hle. cbn [exec_prune x_headers]. destruct (Z.ltb_spec headerHistory height); [|done].
    apply map_lookup_filter_Some. split; [done|]. cbn [snd].
    pose proof (uint_range height). unfold headerHistory in *.
    assert (uval (u_sub height (wrap 300)) = height - 300)%Z as ->; [|lia].
    unfold u_sub. rewrite !uval_wrap. rewrite (Z.mod_small 300) by lia. apply Z.mod_small. lia. }
  split; [done|done|..]; intros h l [Hl Hgt]%map_lookup_filter_Some; cbn [snd x_pending] in *.
  - by apply (xi_pending _ _ _ Hi).
  - destruct (xi_header _ _ _ Hi _ _ Hl) as (hd & Hhd & Hn). exists hd. split; [|done].
    apply Hkeep; [done|]. rewrite Hn. lia.
  - destruct (xi_parent _ _ _ Hi _ _ Hl) as (hd & Hhd & Hn). exists hd. split; [|done].
    apply Hkeep; [done|]. lia.
Qed.

(** ** The operations *)

(** The store has committed the oldest pending block of [h]'s chain. *)
Lemma OnFinalized_spec e W h cs b d :
  exec_inv e W [] → x_dryBase e = None → pending_chain (x_pending e) h (cs ++ [b]) →
  serves d Latest (apply_batch W b) →
  let e' := OnFinalized (set_xdb e d) (Block b) in
  exec_inv e' (apply_batch W b) [] ∧ pending_chain (x_pending e') h cs ∧
  chain_world (apply_batch W b) [] cs = chain_world W [] (cs ++ [b]).
Proof.
  intros Hi Hb Hc Hs e'. pose proof (exec_inv_down _ _ _ Hi) as Hd. split_and!.
  - unfold e', OnFinalized, set_xdb. rewrite Hb. by eapply prune_inv.
  - by apply prune_chain.
  - unfold chain_world. by rewrite reverse_app.
Qed.

(** The dry run folds it instead; the store stays behind. *)
Lemma FoldFinalized_spec e W D h cs b :
  exec_inv e W D → pending_chain (x_pending e) h (cs ++ [b]) →
  let e' := FoldFinalized e b in
  exec_inv e' W (D ++ [b]) ∧ pending_chain (x_pending e') h cs ∧
  chain_world W (D ++ [b]) cs = chain_world W D (cs ++ [b]).
Proof.
  intros Hi Hc e'. pose proof (exec_inv_down _ _ _ Hi) as Hd. split_and!.
  - unfold e', FoldFinalized. eapply prune_inv; [done|apply Hi|]. intros w.
    rewrite layer_world_apply. unfold apply_batches. rewrite foldl_snoc.
    unfold apply_batch at 1. apply apply_ops_proper; [|done].
    pose proof (xi_dry _ _ _ Hi) as Hdry. destruct (x_dryBase e) as [l|]; cbn [default]; [apply Hdry|].
    rewrite Hdry, layer_world_new. done.
  - by apply prune_chain.
  - unfold chain_world, apply_batches. by rewrite foldl_snoc, reverse_app.
Qed.

(** A chain below height [num] does not notice a new layer at [num]. *)
Lemma chain_insert e W D h hd cs key num l :
  exec_inv e W D → pending_chain (x_pending e) h cs → x_headers e !! h = Some hd →
  (hd_Number hd < num)%Z → (∀ hd', x_headers e !! key = Some hd' → uval (hd_Number hd') = num) →
  pending_chain (<[key:=l]> (x_pending e)) h cs.
Proof.
  intros Hi Hc. revert hd. induction Hc as [h Hn|h b cs Hb Hc IH]; intros hd Hh Hlt Hkey;
    assert (key ≠ h) as Hne by (intros ->; specialize (Hkey _ Hh); lia).
  - constructor. by rewrite lookup_insert_ne.
  - constructor; [by rewrite lookup_insert_ne|].
    destruct (xi_parent _ _ _ Hi _ _ Hb) as (ph & Hph & Hpn). rewrite (proj2 (newLayer_fields b)) in Hph.
    destruct (xi_header _ _ _ Hi _ _ Hb) as (hd' & Hh' & Hn'). rewrite Hh in Hh'. simplify_eq.
    eapply IH; [done|rewrite <-Hn' in Hpn; lia|done].
Qed.

Lemma set_xdb_inv e W D d : exec_inv e W D → serves d Latest W → exec_inv (set_xdb e d) W D.
Proof. intros [] ?. by split. Qed.

Context {Body Receipts : Type} (EmptyCodeHash : Hash).
Context (evm : Header → Header → Body → evm_prog Receipts).
Context (DeriveSha : Receipts → Hash) (CreateBloom : Receipts → bytes).

(** What the transition computes on the parent's world. *)
Definition transition e (w : world) (ls : list xlayer) (ph header : Header) (body : Body) :=
  let! p := eval_evm EmptyCodeHash w (xv_code (x_db e) ls) (GetHeader e) (evm ph header body) in
  let! ops := trie_writes EmptyCodeHash [] p.1.1 in Ok (ops, p.1.2, p.2).

Lemma transition_ok e w ls ph header body ops gas receipts :
  transition e w ls ph header body = Ok (ops, gas, receipts) ↔
  ∃ writes, eval_evm EmptyCodeHash w (xv_code (x_db e) ls) (GetHeader e) (evm ph header body) = Ok (writes, gas, receipts) ∧
    trie_writes EmptyCodeHash [] writes = Ok ops.
Proof.
  unfold transition. destruct (eval_evm _ _ _ _ _) as [[[ws g] rs]|er]; cbn [rbind]; [|split; [done|by intros (? & ? & _)]].
  cbn. destruct (trie_writes _ _ ws) as [ops'|er] eqn:E; cbn [rbind]; split; intros Hx.
  - simplify_eq. by exists ws.
  - destruct Hx as (? & ? & ?). simplify_eq. congruence.
  - done.
  - destruct Hx as (? & ? & ?). simplify_eq. congruence.
Qed.

Lemma exec_run_spec fuel e W D parent header body cs :
  ¬ rd_faulty → exec_inv e W D → pending_chain (x_pending e) parent cs → size (x_pending e) < fuel →
  match exec_run EmptyCodeHash evm fuel e parent header body with
  | (r, e') =>
      (∃ d, e' = set_xdb e d ∧ serves d Latest W) ∧
      (r = Err (ErrMsg "exec") ∧
         (∀ ph, x_headers e !! parent = Some ph → hd_Number ph ≠ u_sub (hd_Number header) (wrap 1)) ∨
       ∃ ph ls, x_headers e !! parent = Some ph ∧ hd_Number ph = u_sub (hd_Number header) (wrap 1) ∧
         viewAt fuel e parent = Some ls ∧ r = transition e (chain_world W D cs) ls ph header body)
  end.
Proof.
  intros Hnf Hi Hc Hf. destruct (viewAt_spec e W D parent cs fuel Hi Hc Hf) as (ls & Hls & Hw).
  pose proof (xi_store _ _ _ Hi) as Hs. unfold exec_run.
  assert (∃ d, e = set_xdb e d ∧ serves d Latest W) as Hsame by (exists (x_db e); by destruct e).
  destruct (x_headers e !! parent) as [ph|]; [|split; [done|by left]].
  case_bool_decide as Hn; [split; [done|left]; split; [done|]; by intros ? [= <-]|].
  rewrite Hls. destruct (run_evm_spec EmptyCodeHash (x_db e) ls (GetHeader e) (evm ph header body) W Hnf Hs)
    as [Hr Hd]. destruct (run_evm _ _ _ _ _) as [r d]. cbn [fst snd] in *.
  split; [exists d; split; [done|by apply Hd]|]. right. exists ph, ls. split_and!; [done..|].
  unfold transition. by rewrite Hr, (eval_evm_world EmptyCodeHash _ _ _ _ _ _ Hw (λ _, eq_refl)).
Qed.

(** Recording an executed block keeps the invariant and puts it on top of its
    parent's chain. *)
Lemma record_block e W D parent ph header b cs :
  exec_inv e W D → pending_chain (x_pending e) parent cs → x_headers e !! parent = Some ph →
  (hd_Number ph + 1 = hd_Number header)%Z →
  (∀ hd, x_headers e !! hd_Hash header = Some hd → hd = header) →
  Block b = hd_Number header → BHash b = hd_Hash header → Parent b = parent →
  let e' := MkExec (x_db e) (<[BHash b:=x_newLayer b]> (x_pending e)) (x_dryBase e) (x_finalized e)
              (<[hd_Hash header:=header]> (x_headers e)) in
  exec_inv e' W D ∧ pending_chain (x_pending e') (BHash b) (b :: cs).
Proof.
  intros Hi Hc Hph Hn Huniq HB HH HP e'. destruct (newLayer_fields b) as [Hlb Hlp].
  assert (∀ h hd, x_headers e !! h = Some hd → <[hd_Hash header:=header]> (x_headers e) !! h = Some hd)
    as Hkeep.
  { intros h hd Hh. destruct (decide (hd_Hash header = h)) as [<-|?];
      [rewrite lookup_insert_eq; by rewrite (Huniq _ Hh)|by rewrite lookup_insert_ne]. }
  subst e'. split; [split; cbn [x_db x_pending x_dryBase x_headers]|cbn [x_pending]].
  - apply Hi.
  - apply Hi.
  - intros h l [[<- <-]|[_ Hl]]%lookup_insert_Some; [by exists b|by apply (xi_pending _ _ _ Hi)].
  - intros h l [[<- <-]|[_ Hl]]%lookup_insert_Some.
    + exists header. split; [by rewrite HH, lookup_insert_eq|by rewrite Hlb].
    + destruct (xi_header _ _ _ Hi _ _ Hl) as (hd & Hhd & ?). exists hd. split; [by apply Hkeep|done].
  - intros h l [[<- <-]|[_ Hl]]%lookup_insert_Some.
    + exists ph. rewrite Hlp, Hlb, HP, HB. split; [by apply Hkeep|done].
    + destruct (xi_parent _ _ _ Hi _ _ Hl) as (hd & Hhd & ?). exists hd. split; [by apply Hkeep|done].
  - constructor; [apply lookup_insert_eq|]. rewrite HP.
    eapply (chain_insert e W D parent ph cs _ (hd_Number header)); [done..|lia|].
    intros hd Hhd. rewrite HH in Hhd. by rewrite (Huniq _ Hhd).
Qed.

Lemma exec_Execute_spec fuel e W D parent header body cs :
  ¬ rd_faulty → exec_inv e W D → pending_chain (x_pending e) parent cs → size (x_pending e) < fuel →
  (0 < hd_Number header)%Z → (∀ hd, x_headers e !! hd_Hash header = Some hd → hd = header) →
  match exec_Execute EmptyCodeHash evm DeriveSha CreateBloom fuel e parent header body with
  | (Ok b, e') =>
      exec_inv e' W D ∧ pending_chain (x_pending e') (BHash b) (b :: cs) ∧
      Block b = hd_Number header ∧ BHash b = hd_Hash header ∧ Parent b = parent ∧
      Time b = wrap (hd_Time header * 1000) ∧
      ∃ ph ls receipts, x_headers e !! parent = Some ph ∧ viewAt fuel e parent = Some ls ∧
        hd_Number ph = u_sub (hd_Number header) (wrap 1) ∧ transition e (chain_world W D cs) ls ph header body = Ok (Ops b, hd_GasUsed header, receipts) ∧
        DeriveSha receipts = hd_ReceiptHash header ∧ CreateBloom receipts = hd_Bloom header
  | (Err _, e') => exec_inv e' W D ∧ x_pending e' = x_pending e ∧ x_headers e' = x_headers e
  end.
Proof.
  intros Hnf Hi Hc Hf Hpos Huniq. unfold exec_Execute.
  pose proof (exec_run_spec fuel e W D parent header body cs Hnf Hi Hc Hf) as Hrun.
  destruct (exec_run _ _ _ _ _ _ _) as [r e1]. destruct Hrun as [(d & -> & Hs) Hr].
  pose proof (set_xdb_inv e W D d Hi Hs) as Hi1.
  destruct r as [[[ops gas] receipts]|er]; [|by split_and!].
  case_bool_decide as Hg; [by split_and!|]. case_bool_decide as Hrc; [by split_and!|].
  case_bool_decide as Hbl; [by split_and!|].
  destruct Hr as [[? _]|(ph & ls & Hph & Hn & Hls & Htr)]; [done|].
  assert (hd_Number ph + 1 = hd_Number header)%Z as Hn'.
  { rewrite Hn. unfold u_sub. rewrite !uval_wrap. pose proof (uint_range (hd_Number header)).
    rewrite (Z.mod_small 1), Z.mod_small by lia. lia. }
  set (b := MkBatch _ _ _ _ _).
  destruct (record_block (set_xdb e d) W D parent ph header b cs Hi1 Hc Hph Hn' Huniq eq_refl eq_refl eq_refl)
    as [Hi' Hc'].
  split_and!; [exact Hi'|exact Hc'|done..|]. exists ph, ls, receipts. by rewrite <-Hg, <-Htr.
Qed.
(** And a block that passes every check is not refused. *)
Lemma exec_Execute_complete fuel e W D parent header body cs ph ls ops receipts :
  ¬ rd_faulty → exec_inv e W D → pending_chain (x_pending e) parent cs → size (x_pending e) < fuel →
  x_headers e !! parent = Some ph → hd_Number ph = u_sub (hd_Number header) (wrap 1) → viewAt fuel e parent = Some ls →
  transition e (chain_world W D cs) ls ph header body = Ok (ops, hd_GasUsed header, receipts) →
  DeriveSha receipts = hd_ReceiptHash header → CreateBloom receipts = hd_Bloom header →
  (exec_Execute EmptyCodeHash evm DeriveSha CreateBloom fuel e parent header body).1 =
    Ok (MkBatch (hd_Number header) (hd_Hash header) parent (wrap (hd_Time header * 1000)) ops).
Proof.
  intros Hnf Hi Hc Hf Hph Hn Hls Ht Hd Hb. unfold exec_Execute.
  pose proof (exec_run_spec fuel e W D parent header body cs Hnf Hi Hc Hf) as Hrun.
  destruct (exec_run _ _ _ _ _ _ _) as [r e1]. destruct Hrun as [_ [[_ Hne]|(ph' & ls' & Hph' & _ & Hls' & ->)]].
  { by destruct (Hne ph Hph). }
  simplify_eq. rewrite Ht. rewrite !bool_decide_false by (intros ?; done). done.
Qed.
End inv.
