(* ===== verification/SimState.v ===== *)
(** * SimState: the simulator's journaled overlay

    Models [sim/statedb.go]: the per-executor [vm.StateDB], a journaled overlay
    over an engine view.  During a call the view answers from one held batch,
    so it is a record of functions ([ViewReads]); [keccak] (libevm's crypto) is
    a parameter.  The handle [evm] the database keeps is the executor's own EVM
    object: its [EVM] here is what of that object outlives a call, and [fail]
    invalidates and cancels it. *)

From S2P Require Import Prelude Schema.

(** The four view methods the overlay reads through. *)
Record ViewReads := MkViewReads {
  vr_Account : Address → result (Account * bool);
  vr_Balance : Address → result u256;
  vr_Slot : Address → Hash → result Hash;
  vr_Code : Hash → result bytes
}.

(** [slot[0] &^= 0x01] *)
Definition normSlot (slot : Hash) : Hash :=
  match abytes slot with
  | [] => slot
  | b :: rest => arr_of (wrap (Z.ldiff b 1) :: rest)
  end.

(** [jentry]; [prev] is [None] when the overlay had no entry. *)
Inductive jentry :=
| JBalance (addr : Address) (prev : option u256)
| JStorage (addr : Address) (slot : Hash) (prev : option Hash)
| JNonce (addr : Address) (prev : option u64)
| JCode (addr : Address)
| JRefund (prev : u64)
| JLog
| JDestruct (addr : Address)
| JCreated (addr : Address)
| JTransient (addr : Address) (slot : Hash) (prev : option Hash)
| JALAddr (addr : Address)
| JALSlot (addr : Address) (slot : Hash).

(** What of [vm.EVM] outlives a call: the block context, the sticky flag of
    [Cancel], and the error of [InvalidateExecution], which lasts until [Reset]. *)
Record EVM := MkEVM {
  ev_Number : u64;
  ev_Time : u64;
  ev_cancelled : bool;
  ev_invalid : option error
}.
Definition evm_InvalidateExecution (evm : EVM) (err : error) : EVM :=
  MkEVM (ev_Number evm) (ev_Time evm) (ev_cancelled evm) (Some err).
Definition evm_Cancel (evm : EVM) : EVM := MkEVM (ev_Number evm) (ev_Time evm) true (ev_invalid evm).
Definition evm_Reset (evm : EVM) : EVM := MkEVM (ev_Number evm) (ev_Time evm) (ev_cancelled evm) None.

(** The per-call state; an access-list entry without a slot map is [None]. *)
Record stateDB (Log : Type) := MkStateDB {
  sd_evm : option EVM;
  sd_balances : gmap Address u256;
  sd_slots : gmap SKey Hash;
  sd_ovSlots : gmap SKey Hash;
  sd_nonces : gmap Address u64;
  sd_codes : gmap Address bytes;
  sd_codeHashes : gmap Address Hash;
  sd_created : gset Address;
  sd_destructed : gset Address;
  sd_transient : gmap SKey Hash;
  sd_al : gmap Address (option (gset Hash));
  sd_refund : u64;
  sd_logs : list Log;
  sd_journal : list jentry;
  sd_readErr : option error
}.
Arguments MkStateDB {Log} _ _ _ _ _ _ _ _ _ _ _ _ _ _ _.
Arguments sd_evm {Log} _.
Arguments sd_balances {Log} _.
Arguments sd_slots {Log} _.
Arguments sd_ovSlots {Log} _.
Arguments sd_nonces {Log} _.
Arguments sd_codes {Log} _.
Arguments sd_codeHashes {Log} _.
Arguments sd_created {Log} _.
Arguments sd_destructed {Log} _.
Arguments sd_transient {Log} _.
Arguments sd_al {Log} _.
Arguments sd_refund {Log} _.
Arguments sd_logs {Log} _.
Arguments sd_journal {Log} _.
Arguments sd_readErr {Log} _.

Section sim.
Context {Log : Type} (view : ViewReads) (keccak : bytes → Hash).
Implicit Types s : stateDB Log.

(** ** Field updates *)

Definition with_evm s x : stateDB Log :=
  MkStateDB x (sd_balances s) (sd_slots s) (sd_ovSlots s) (sd_nonces s) (sd_codes s) (sd_codeHashes s)
    (sd_created s) (sd_destructed s) (sd_transient s) (sd_al s) (sd_refund s) (sd_logs s) (sd_journal s)
    (sd_readErr s).
Definition with_balances s x : stateDB Log :=
  MkStateDB (sd_evm s) x (sd_slots s) (sd_ovSlots s) (sd_nonces s) (sd_codes s) (sd_codeHashes s)
    (sd_created s) (sd_destructed s) (sd_transient s) (sd_al s) (sd_refund s) (sd_logs s) (sd_journal s) (sd_readErr s).
Definition with_slots s x : stateDB Log :=
  MkStateDB (sd_evm s) (sd_balances s) x (sd_ovSlots s) (sd_nonces s) (sd_codes s) (sd_codeHashes s)
    (sd_created s) (sd_destructed s) (sd_transient s) (sd_al s) (sd_refund s) (sd_logs s) (sd_journal s) (sd_readErr s).
Definition with_ovSlots s x : stateDB Log :=
  MkStateDB (sd_evm s) (sd_balances s) (sd_slots s) x (sd_nonces s) (sd_codes s) (sd_codeHashes s)
    (sd_created s) (sd_destructed s) (sd_transient s) (sd_al s) (sd_refund s) (sd_logs s) (sd_journal s) (sd_readErr s).
Definition with_nonces s x : stateDB Log :=
  MkStateDB (sd_evm s) (sd_balances s) (sd_slots s) (sd_ovSlots s) x (sd_codes s) (sd_codeHashes s)
    (sd_created s) (sd_destructed s) (sd_transient s) (sd_al s) (sd_refund s) (sd_logs s) (sd_journal s) (sd_readErr s).
Definition with_codes s x y : stateDB Log :=
  MkStateDB (sd_evm s) (sd_balances s) (sd_slots s) (sd_ovSlots s) (sd_nonces s) x y
    (sd_created s) (sd_destructed s) (sd_transient s) (sd_al s) (sd_refund s) (sd_logs s) (sd_journal s) (sd_readErr s).
Definition with_created s x : stateDB Log :=
  MkStateDB (sd_evm s) (sd_balances s) (sd_slots s) (sd_ovSlots s) (sd_nonces s) (sd_codes s) (sd_codeHashes s)
    x (sd_destructed s) (sd_transient s) (sd_al s) (sd_refund s) (sd_logs s) (sd_journal s) (sd_readErr s).
Definition with_destructed s x : stateDB Log :=
  MkStateDB (sd_evm s) (sd_balances s) (sd_slots s) (sd_ovSlots s) (sd_nonces s) (sd_codes s) (sd_codeHashes s)
    (sd_created s) x (sd_transient s) (sd_al s) (sd_refund s) (sd_logs s) (sd_journal s) (sd_readErr s).
Definition with_transient s x : stateDB Log :=
  MkStateDB (sd_evm s) (sd_balances s) (sd_slots s) (sd_ovSlots s) (sd_nonces s) (sd_codes s) (sd_codeHashes s)
    (sd_created s) (sd_destructed s) x (sd_al s) (sd_refund s) (sd_logs s) (sd_journal s) (sd_readErr s).
Definition with_al s x : stateDB Log :=
  MkStateDB (sd_evm s) (sd_balances s) (sd_slots s) (sd_ovSlots s) (sd_nonces s) (sd_codes s) (sd_codeHashes s)
    (sd_created s) (sd_destructed s) (sd_transient s) x (sd_refund s) (sd_logs s) (sd_journal s) (sd_readErr s).
Definition with_refund s x : stateDB Log :=
  MkStateDB (sd_evm s) (sd_balances s) (sd_slots s) (sd_ovSlots s) (sd_nonces s) (sd_codes s) (sd_codeHashes s)
    (sd_created s) (sd_destructed s) (sd_transient s) (sd_al s) x (sd_logs s) (sd_journal s) (sd_readErr s).
Definition with_logs s x : stateDB Log :=
  MkStateDB (sd_evm s) (sd_balances s) (sd_slots s) (sd_ovSlots s) (sd_nonces s) (sd_codes s) (sd_codeHashes s)
    (sd_created s) (sd_destructed s) (sd_transient s) (sd_al s) (sd_refund s) x (sd_journal s) (sd_readErr s).
Definition with_journal s x : stateDB Log :=
  MkStateDB (sd_evm s) (sd_balances s) (sd_slots s) (sd_ovSlots s) (sd_nonces s) (sd_codes s) (sd_codeHashes s)
    (sd_created s) (sd_destructed s) (sd_transient s) (sd_al s) (sd_refund s) (sd_logs s) x (sd_readErr s).
Definition with_readErr s x : stateDB Log :=
  MkStateDB (sd_evm s) (sd_balances s) (sd_slots s) (sd_ovSlots s) (sd_nonces s) (sd_codes s) (sd_codeHashes s)
    (sd_created s) (sd_destructed s) (sd_transient s) (sd_al s) (sd_refund s) (sd_logs s) (sd_journal s) x.

Definition record_j s (e : jentry) : stateDB Log := with_journal s (sd_journal s ++ [e]).

(** ** Life cycle *)

Definition newStateDB : stateDB Log := MkStateDB None ∅ ∅ ∅ ∅ ∅ ∅ ∅ ∅ ∅ ∅ u_zero [] [] None.

(** The overrides of the call, in the order Go iterates them. *)
Definition seed_slot (addr : Address) s (kv : Hash * Hash) : stateDB Log :=
  let k := MkSKey addr (normSlot kv.1) in
  let s := with_slots s (<[k:=kv.2]> (sd_slots s)) in
  with_ovSlots s (<[k:=kv.2]> (sd_ovSlots s)).

Definition seed (balanceOverrides : list (Address * u256))
    (storageOverrides : list (Address * list (Hash * Hash))) s : stateDB Log :=
  let s := foldl (λ s kv, with_balances s (<[kv.1:=kv.2]> (sd_balances s))) s balanceOverrides in
  foldl (λ s kv, foldl (seed_slot kv.1) s kv.2) s storageOverrides.

(** [reset]: the database is never reallocated, so every field is cleared. *)
Definition sd_reset s (evm : EVM) (balanceOverrides : list (Address * u256))
    (storageOverrides : list (Address * list (Hash * Hash))) : stateDB Log :=
  let s := with_evm s (Some evm) in
  let s := with_balances s ∅ in
  let s := with_slots s ∅ in
  let s := with_ovSlots s ∅ in
  let s := with_nonces s ∅ in
  let s := with_codes s ∅ (sd_codeHashes s) in
  let s := with_codes s (sd_codes s) ∅ in
  let s := with_created s ∅ in
  let s := with_destructed s ∅ in
  let s := with_transient s ∅ in
  let s := with_al s ∅ in
  let s := with_refund s u_zero in
  let s := with_logs s [] in
  let s := with_journal s [] in
  let s := with_readErr s None in
  seed balanceOverrides storageOverrides s.

(** The first failed read is kept, and aborts the EVM run. *)
Definition fail s (err : error) : stateDB Log :=
  match sd_readErr s with
  | None =>
      let s := with_readErr s (Some err) in
      match sd_evm s with
      | Some evm => with_evm s (Some (evm_Cancel (evm_InvalidateExecution evm err)))
      | None => s
      end
  | Some _ => s
  end.

(** ** Underlying reads *)

Definition sd_account s (addr : Address) : (Account * bool) * stateDB Log :=
  match vr_Account view addr with
  | Err e => ((Account_zero, false), fail s e)
  | Ok r => (r, s)
  end.

Definition sd_balance s (addr : Address) : u256 * stateDB Log :=
  match sd_balances s !! addr with
  | Some b => (b, s)
  | None =>
      match vr_Balance view addr with
      | Err e => (u_zero, fail s e)
      | Ok b => (b, s)
      end
  end.

(** ** Journal *)

Definition Snapshot s : nat := length (sd_journal s).

Definition restore {K A} `{Countable K} (m : gmap K A) (k : K) (prev : option A) : gmap K A :=
  match prev with Some p => <[k:=p]> m | None => delete k m end.

Definition undo s (e : jentry) : stateDB Log :=
  match e with
  | JBalance addr prev => with_balances s (restore (sd_balances s) addr prev)
  | JStorage addr slot prev => with_slots s (restore (sd_slots s) (MkSKey addr slot) prev)
  | JNonce addr prev => with_nonces s (restore (sd_nonces s) addr prev)
  | JCode addr => with_codes s (delete addr (sd_codes s)) (delete addr (sd_codeHashes s))
  | JRefund prev => with_refund s prev
  | JLog => with_logs s (take (length (sd_logs s) - 1) (sd_logs s))
  | JDestruct addr => with_destructed s (sd_destructed s ∖ {[addr]})
  | JCreated addr => with_created s (sd_created s ∖ {[addr]})
  | JTransient addr slot prev => with_transient s (restore (sd_transient s) (MkSKey addr slot) prev)
  | JALAddr addr => with_al s (delete addr (sd_al s))
  | JALSlot addr slot =>
      match sd_al s !! addr with
      | Some (Some m) => with_al s (<[addr:=Some (m ∖ {[slot]})]> (sd_al s))
      | _ => s
      end
  end.

(** Newest entry first, down to [rev]. *)
Definition RevertToSnapshot s (rev : nat) : stateDB Log :=
  with_journal (foldl undo s (reverse (drop rev (sd_journal s)))) (take rev (sd_journal s)).

(** ** Balances, nonces, code *)

Definition GetBalance s (addr : Address) : u256 * stateDB Log := sd_balance s addr.

Definition setBalance s (addr : Address) (b : u256) : stateDB Log :=
  let prev := sd_balances s !! addr in
  let s := record_j s (JBalance addr prev) in
  with_balances s (<[addr:=b]> (sd_balances s)).

Definition AddBalance s (addr : Address) (amount : u256) : stateDB Log :=
  let '(b, s) := sd_balance s addr in setBalance s addr (u_add b amount).

Definition SubBalance s (addr : Address) (amount : u256) : stateDB Log :=
  let '(b, s) := sd_balance s addr in setBalance s addr (u_sub b amount).

Definition GetNonce s (addr : Address) : u64 * stateDB Log :=
  match sd_nonces s !! addr with
  | Some n => (n, s)
  | None => let '(a, s) := sd_account s addr in (Nonce a.1, s)
  end.

Definition SetNonce s (addr : Address) (n : u64) : stateDB Log :=
  let s := record_j s (JNonce addr (sd_nonces s !! addr)) in
  with_nonces s (<[addr:=n]> (sd_nonces s)).

(** [ethtypes.EmptyCodeHash] *)
Definition EmptyCodeHash : Hash := keccak [].

Definition GetCodeHash s (addr : Address) : Hash * stateDB Log :=
  match sd_codeHashes s !! addr with
  | Some h => (h, s)
  | None =>
      let '((a, exists_), s) := sd_account s addr in
      if negb exists_ then (arr_zero, s)
      else if bool_decide (CodeHash a = arr_zero) then (EmptyCodeHash, s)
      else (CodeHash a, s)
  end.

Definition sd_GetCode s (addr : Address) : bytes * stateDB Log :=
  match sd_codes s !! addr with
  | Some c => (c, s)
  | None =>
      let '(h, s) := GetCodeHash s addr in
      if bool_decide (h = arr_zero) || bool_decide (h = EmptyCodeHash) then ([], s)
      else match vr_Code view h with
           | Err e => ([], fail s e)
           | Ok c => (c, s)
           end
  end.

Definition GetCodeSize s (addr : Address) : Z * stateDB Log :=
  let '(c, s) := sd_GetCode s addr in (Z.of_nat (length c), s).

Definition SetCode s (addr : Address) (code : bytes) : stateDB Log :=
  let s := record_j s (JCode addr) in
  with_codes s (<[addr:=code]> (sd_codes s)) (<[addr:=keccak code]> (sd_codeHashes s)).

(** ** Storage *)

Definition GetState s (addr : Address) (slot : Hash) : Hash * stateDB Log :=
  let slot := normSlot slot in
  match sd_slots s !! MkSKey addr slot with
  | Some v => (v, s)
  | None =>
      match vr_Slot view addr slot with
      | Err e => (arr_zero, fail s e)
      | Ok v => (v, s)
      end
  end.

Definition GetCommittedState s (addr : Address) (slot : Hash) : Hash * stateDB Log :=
  let slot := normSlot slot in
  match sd_ovSlots s !! MkSKey addr slot with
  | Some v => (v, s)
  | None =>
      match vr_Slot view addr slot with
      | Err e => (arr_zero, fail s e)
      | Ok v => (v, s)
      end
  end.

Definition SetState s (addr : Address) (slot val : Hash) : stateDB Log :=
  let k := MkSKey addr (normSlot slot) in
  let s := record_j s (JStorage addr (Slot k) (sd_slots s !! k)) in
  with_slots s (<[k:=val]> (sd_slots s)).

Definition GetTransientState s (addr : Address) (slot : Hash) : Hash :=
  default arr_zero (sd_transient s !! MkSKey addr slot).

Definition SetTransientState s (addr : Address) (slot val : Hash) : stateDB Log :=
  let k := MkSKey addr slot in
  let s := record_j s (JTransient addr slot (sd_transient s !! k)) in
  with_transient s (<[k:=val]> (sd_transient s)).

(** ** Account life cycle *)

Definition CreateAccount s (addr : Address) : stateDB Log :=
  if bool_decide (addr ∈ sd_created s) then s
  else
    let s := record_j s (JCreated addr) in
    with_created s ({[addr]} ∪ sd_created s).

Definition SelfDestruct s (addr : Address) : stateDB Log :=
  let s := if bool_decide (addr ∈ sd_destructed s) then s
           else
             let s := record_j s (JDestruct addr) in
             with_destructed s ({[addr]} ∪ sd_destructed s) in
  setBalance s addr u_zero.

Definition HasSelfDestructed s (addr : Address) : bool := bool_decide (addr ∈ sd_destructed s).

Definition Selfdestruct6780 s (addr : Address) : stateDB Log :=
  if bool_decide (addr ∈ sd_created s) then SelfDestruct s addr else s.

Definition Exist s (addr : Address) : bool * stateDB Log :=
  if bool_decide (addr ∈ sd_created s) then (true, s)
  else if bool_decide (addr ∈ sd_destructed s) then (true, s)
  else if bool_decide (is_Some (sd_balances s !! addr)) then (true, s)
  else if bool_decide (is_Some (sd_nonces s !! addr)) then (true, s)
  else let '((_, exists_), s) := sd_account s addr in (exists_, s).

Definition Empty s (addr : Address) : bool * stateDB Log :=
  let '(n, s) := GetNonce s addr in
  if bool_decide (n ≠ u_zero) then (false, s)
  else
    let '(b, s) := sd_balance s addr in
    if negb (bool_decide (b = u_zero)) then (false, s)
    else
      let '(h, s) := GetCodeHash s addr in
      (bool_decide (h = arr_zero) || bool_decide (h = EmptyCodeHash), s).

(** ** Refunds and logs *)

Definition AddRefund s (gas : u64) : stateDB Log :=
  let s := record_j s (JRefund (sd_refund s)) in
  with_refund s (u_add (sd_refund s) gas).

Definition SubRefund s (gas : u64) : stateDB Log :=
  let s := record_j s (JRefund (sd_refund s)) in
  if (sd_refund s <? gas)%Z then fail s (ErrMsg "sim")
  else with_refund s (u_sub (sd_refund s) gas).

Definition GetRefund s : u64 := sd_refund s.

Definition AddLog s (l : Log) : stateDB Log :=
  let s := record_j s JLog in with_logs s (sd_logs s ++ [l]).

(** ** Access list *)

Definition AddressInAccessList s (addr : Address) : bool := bool_decide (is_Some (sd_al s !! addr)).

Definition SlotInAccessList s (addr : Address) (slot : Hash) : bool * bool :=
  match sd_al s !! addr with
  | None => (false, false)
  | Some None => (true, false)
  | Some (Some m) => (true, bool_decide (slot ∈ m))
  end.

Definition AddAddressToAccessList s (addr : Address) : stateDB Log :=
  match sd_al s !! addr with
  | None => let s := record_j s (JALAddr addr) in with_al s (<[addr:=None]> (sd_al s))
  | Some _ => s
  end.

Definition AddSlotToAccessList s (addr : Address) (slot : Hash) : stateDB Log :=
  let '(s, m) :=
    match sd_al s !! addr with
    | None =>
        let s := record_j s (JALAddr addr) in
        (with_al s (<[addr:=Some ∅]> (sd_al s)), ∅)
    | Some None => (with_al s (<[addr:=Some ∅]> (sd_al s)), ∅)
    | Some (Some m) => (s, m)
    end in
  if bool_decide (slot ∈ m) then s
  else
    let s := record_j s (JALSlot addr slot) in
    with_al s (<[addr:=Some ({[slot]} ∪ m)]> (sd_al s)).

(** [params.Rules], the two forks that are tested. *)
Record Rules := MkRules { IsBerlin : bool; IsShanghai : bool }.

Definition Prepare s (rules : Rules) (sender coinbase : Address) (dst : option Address)
    (precompiles : list Address) (accessList : list (Address * list Hash)) : stateDB Log :=
  if negb (IsBerlin rules) then s
  else
    let s := AddAddressToAccessList s sender in
    let s := match dst with Some a => AddAddressToAccessList s a | None => s end in
    let s := foldl AddAddressToAccessList s precompiles in
    let s := foldl (λ s el,
      foldl (λ s key, AddSlotToAccessList s el.1 key) (AddAddressToAccessList s el.1) el.2)
      s accessList in
    if IsShanghai rules then AddAddressToAccessList s coinbase else s.
End sim.
