(* ===== verification/SimProof.v ===== *)
(** * SimProof: reverting restores the overlay

    Every write of the overlay journals what undoes it, so reverting to a
    snapshot after any mixture of writes, reads and inner reverts restores the
    overlay the snapshot saw, up to what cannot be observed (an access-list
    entry with no slot map and one with an empty slot map answer alike) and
    without the sticky read error.  Code is the exception the hypothesis
    names: its journal entry keeps no previous value. *)

From S2P Require Import Prelude Schema SimState.

(** ** Observational equality *)

Definition al_norm (al : gmap Address (option (gset Hash))) : gmap Address (gset Hash) :=
  default ∅ <$> al.

Section proof.
Context {Log : Type} (view : ViewReads) (keccak : bytes → Hash).
Implicit Types s : stateDB Log.

(** Everything but the journal, the read error, the EVM handle and the shape of the
    access list. *)
Record overlay_eq (s1 s2 : stateDB Log) : Prop := {
  oe_balances : sd_balances s1 = sd_balances s2;
  oe_slots : sd_slots s1 = sd_slots s2;
  oe_ovSlots : sd_ovSlots s1 = sd_ovSlots s2;
  oe_nonces : sd_nonces s1 = sd_nonces s2;
  oe_codes : sd_codes s1 = sd_codes s2;
  oe_codeHashes : sd_codeHashes s1 = sd_codeHashes s2;
  oe_created : sd_created s1 = sd_created s2;
  oe_destructed : sd_destructed s1 = sd_destructed s2;
  oe_transient : sd_transient s1 = sd_transient s2;
  oe_al : al_norm (sd_al s1) = al_norm (sd_al s2);
  oe_refund : sd_refund s1 = sd_refund s2;
  oe_logs : sd_logs s1 = sd_logs s2
}.

#[export] Instance overlay_equiv : Equiv (stateDB Log) := overlay_eq.
#[export] Instance overlay_equivalence : Equivalence (≡@{stateDB Log}).
Proof.
  split.
  - by intros s.
  - intros s1 s2 []. by split.
  - intros s1 s2 s3 [] []. split; by etrans.
Qed.

Lemma al_norm_delete al a : al_norm (delete a al) = delete a (al_norm al).
Proof. apply fmap_delete. Qed.
Lemma al_norm_insert al a x : al_norm (<[a:=x]> al) = <[a:=default ∅ x]> (al_norm al).
Proof. apply fmap_insert. Qed.

Definition undo_al_slot (al : gmap Address (gset Hash)) (a : Address) (slot : Hash) :=
  match al !! a with Some m => <[a:=m ∖ {[slot]}]> al | None => al end.

Lemma al_norm_undo_slot s a slot :
  al_norm (sd_al (undo s (JALSlot a slot))) = undo_al_slot (al_norm (sd_al s)) a slot.
Proof.
  unfold undo_al_slot, al_norm. cbn [undo]. rewrite lookup_fmap.
  destruct (sd_al s !! a) as [[m|]|] eqn:E; cbn.
  - by rewrite fmap_insert.
  - rewrite insert_id; [done|]. rewrite lookup_fmap, E. cbn. f_equal. set_solver.
  - done.
Qed.

#[export] Instance undo_proper : Proper ((≡) ==> (=) ==> (≡)) (@undo Log).
Proof.
  intros s1 s2 [] e ? <-.
  destruct e; try (split; cbn [undo with_balances with_slots with_nonces with_codes with_refund with_logs
    with_destructed with_created with_transient with_al sd_balances sd_slots sd_ovSlots sd_nonces
    sd_codes sd_codeHashes sd_created sd_destructed sd_transient sd_al sd_refund sd_logs];
    rewrite ?al_norm_delete; congruence).
  split; [..|rewrite !al_norm_undo_slot; congruence| |];
    cbn [undo]; repeat case_match; assumption.
Qed.

Lemma undo_journal s e : sd_journal (undo s e) = sd_journal s.
Proof. destruct e; cbn; try done. by repeat case_match. Qed.

Definition undo_all s (es : list jentry) : stateDB Log := foldl undo s (reverse es).

#[export] Instance undo_all_proper : Proper ((≡) ==> (=) ==> (≡)) undo_all.
Proof.
  intros s1 s2 Hs es ? <-. unfold undo_all. revert s1 s2 Hs.
  induction (reverse es) as [|e l IH]; intros s1 s2 Hs; [done|]. cbn. apply IH. by rewrite Hs.
Qed.

Lemma undo_all_app s es1 es2 : undo_all s (es1 ++ es2) = undo_all (undo_all s es2) es1.
Proof. unfold undo_all. by rewrite reverse_app, foldl_app. Qed.

Lemma undo_all_journal s j es :
  undo_all (with_journal s j) es ≡ undo_all s es.
Proof. apply undo_all_proper; [by split|done]. Qed.

(** ** One write *)

(** [s'] extends the journal of [s] by entries that undo the difference. *)
Definition undoable s s' : Prop :=
  ∃ es, sd_journal s' = sd_journal s ++ es ∧ undo_all s' es ≡ s.

Lemma undoable_refl s : undoable s s.
Proof. exists []. by rewrite app_nil_r. Qed.

Lemma undoable_trans s1 s2 s3 : undoable s1 s2 → undoable s2 s3 → undoable s1 s3.
Proof.
  intros (es & Hj & Hu) (es' & Hj' & Hu'). exists (es ++ es'). split.
  - by rewrite Hj', Hj, (assoc_L (++)).
  - by rewrite undo_all_app, Hu'.
Qed.

(** Changes outside the overlay need no undoing. *)
Lemma undoable_quiet s s' : sd_journal s' = sd_journal s → s' ≡ s → undoable s s'.
Proof. intros Hj Hs. exists []. by rewrite app_nil_r. Qed.

Lemma undoable_one s s' e : sd_journal s' = sd_journal s ++ [e] → undo s' e ≡ s → undoable s s'.
Proof. intros Hj Hu. by exists [e]. Qed.

Lemma restore_insert {K A} `{Countable K} (m : gmap K A) k x : restore (<[k:=x]> m) k (m !! k) = m.
Proof.
  unfold restore. destruct (m !! k) as [p|] eqn:E.
  - by rewrite insert_insert_eq, insert_id.
  - by rewrite delete_insert_id.
Qed.

Lemma fail_quiet s e : undoable s (fail s e).
Proof. unfold fail. repeat case_match; apply undoable_quiet; done. Qed.

Lemma sd_balance_quiet s a : undoable s (sd_balance view s a).2.
Proof. unfold sd_balance. repeat case_match; cbn; auto using undoable_refl, fail_quiet. Qed.

Lemma setBalance_undoable s a b : undoable s (setBalance s a b).
Proof. eapply undoable_one; [done|]. split; try done. cbn. apply restore_insert. Qed.

Lemma AddBalance_undoable s a x : undoable s (AddBalance view s a x).
Proof.
  unfold AddBalance. pose proof (sd_balance_quiet s a) as Hq.
  destruct (sd_balance view s a) as [b s1]. eapply undoable_trans; [done|apply setBalance_undoable].
Qed.
Lemma SubBalance_undoable s a x : undoable s (SubBalance view s a x).
Proof.
  unfold SubBalance. pose proof (sd_balance_quiet s a) as Hq.
  destruct (sd_balance view s a) as [b s1]. eapply undoable_trans; [done|apply setBalance_undoable].
Qed.
Lemma SetNonce_undoable s a n : undoable s (SetNonce s a n).
Proof. eapply undoable_one; [done|]. split; try done. cbn. apply restore_insert. Qed.
Lemma SetState_undoable s a k v : undoable s (SetState s a k v).
Proof. eapply undoable_one; [done|]. split; try done. cbn. apply restore_insert. Qed.
Lemma SetTransientState_undoable s a k v : undoable s (SetTransientState s a k v).
Proof. eapply undoable_one; [done|]. split; try done. cbn. apply restore_insert. Qed.
Lemma SetCode_undoable s a c :
  sd_codes s !! a = None → sd_codeHashes s !! a = None → undoable s (SetCode keccak s a c).
Proof.
  intros H1 H2. eapply undoable_one; [done|]. split; try done; cbn; by rewrite delete_insert_id.
Qed.
Lemma CreateAccount_undoable s a : undoable s (CreateAccount s a).
Proof.
  unfold CreateAccount. case_bool_decide; [apply undoable_refl|].
  eapply undoable_one; [done|]. split; try done. cbn. set_solver.
Qed.
Lemma SelfDestruct_undoable s a : undoable s (SelfDestruct s a).
Proof.
  unfold SelfDestruct. eapply undoable_trans; [|apply setBalance_undoable].
  case_bool_decide; [apply undoable_refl|].
  eapply undoable_one; [done|]. split; try done. cbn. set_solver.
Qed.
Lemma AddRefund_undoable s g : undoable s (AddRefund s g).
Proof. eapply undoable_one; [done|]. by split. Qed.
Lemma SubRefund_undoable s g : undoable s (SubRefund s g).
Proof.
  unfold SubRefund. cbn [sd_refund record_j with_journal]. destruct (_ <? _)%Z.
  - eapply undoable_trans; [|apply fail_quiet]. eapply undoable_one; [done|]. by split.
  - eapply undoable_one; [done|]. by split.
Qed.
Lemma AddLog_undoable s l : undoable s (AddLog s l).
Proof.
  eapply undoable_one; [done|]. split; try done. cbn.
  rewrite length_app. cbn. by rewrite Nat.add_sub, take_app_length.
Qed.
Lemma AddAddress_undoable s a : undoable s (AddAddressToAccessList s a).
Proof.
  unfold AddAddressToAccessList. destruct (sd_al s !! a) as [x|] eqn:E; [apply undoable_refl|].
  eapply undoable_one; [done|]. split; try done. cbn. by rewrite delete_insert_id.
Qed.
Lemma AddSlot_undoable s a k : undoable s (AddSlotToAccessList s a k).
Proof.
  unfold AddSlotToAccessList.
  assert (∀ s0 (m : gset Hash), sd_al s0 !! a = Some (Some m) →
    undoable s0 (if bool_decide (k ∈ m) then s0
      else with_al (record_j s0 (JALSlot a k)) (<[a:=Some ({[k]} ∪ m)]> (sd_al (record_j s0 (JALSlot a k)))))) as Hadd.
  { intros s0 m Hm. case_bool_decide as Hk; [apply undoable_refl|].
    eapply undoable_one; [done|]. split; try done.
    all: try (cbn [undo with_al sd_al record_j with_journal]; rewrite lookup_insert_eq; done).
    rewrite al_norm_undo_slot. unfold undo_al_slot. cbn [with_al sd_al record_j with_journal].
    rewrite al_norm_insert, lookup_insert_eq, insert_insert_eq. cbn [default].
    rewrite insert_id; [done|]. unfold al_norm. rewrite lookup_fmap, Hm. cbn. f_equal. set_solver. }
  destruct (sd_al s !! a) as [[m|]|] eqn:E.
  - by apply Hadd.
  - eapply undoable_trans; [|apply Hadd; cbn; by rewrite lookup_insert_eq].
    apply undoable_quiet; [done|]. split; try done. cbn [with_al sd_al].
    rewrite al_norm_insert. cbn. apply insert_id. unfold al_norm. by rewrite lookup_fmap, E.
  - eapply undoable_trans; [|apply Hadd; cbn; by rewrite lookup_insert_eq].
    eapply undoable_one; [done|]. split; try done. cbn. by rewrite delete_insert_id.
Qed.

(** ** Any run *)

Lemma foldl_undo_journal s es : sd_journal (foldl undo s es) = sd_journal s.
Proof. revert s. induction es as [|e es IH]; intros s; [done|]. cbn. by rewrite IH, undo_journal. Qed.

(** [sim_run s0 s]: from the snapshot state [s0] by writes, reads and reverts
    that stay above the snapshot.  Code is set only where none was set. *)
Inductive sim_run (s0 : stateDB Log) : stateDB Log → Prop :=
| sr_refl : sim_run s0 s0
| sr_add_balance s a x : sim_run s0 s → sim_run s0 (AddBalance view s a x)
| sr_sub_balance s a x : sim_run s0 s → sim_run s0 (SubBalance view s a x)
| sr_nonce s a n : sim_run s0 s → sim_run s0 (SetNonce s a n)
| sr_code s a c :
    sim_run s0 s → sd_codes s !! a = None → sd_codeHashes s !! a = None →
    sim_run s0 (SetCode keccak s a c)
| sr_state s a k v : sim_run s0 s → sim_run s0 (SetState s a k v)
| sr_transient s a k v : sim_run s0 s → sim_run s0 (SetTransientState s a k v)
| sr_create s a : sim_run s0 s → sim_run s0 (CreateAccount s a)
| sr_destruct s a : sim_run s0 s → sim_run s0 (SelfDestruct s a)
| sr_destruct6780 s a : sim_run s0 s → sim_run s0 (Selfdestruct6780 s a)
| sr_add_refund s g : sim_run s0 s → sim_run s0 (AddRefund s g)
| sr_sub_refund s g : sim_run s0 s → sim_run s0 (SubRefund s g)
| sr_log s l : sim_run s0 s → sim_run s0 (AddLog s l)
| sr_address s a : sim_run s0 s → sim_run s0 (AddAddressToAccessList s a)
| sr_slot s a k : sim_run s0 s → sim_run s0 (AddSlotToAccessList s a k)
| sr_read_err s e : sim_run s0 s → sim_run s0 (fail s e)
| sr_revert s rev : sim_run s0 s → Snapshot s0 ≤ rev → sim_run s0 (RevertToSnapshot s rev).

Lemma sim_run_undoable s0 s : sim_run s0 s → undoable s0 s.
Proof.
  induction 1; [apply undoable_refl|..];
    try (eapply undoable_trans; [eassumption|]; clear s0 H IHsim_run;
      solve [auto using AddBalance_undoable, SubBalance_undoable, SetNonce_undoable,
        SetCode_undoable, SetState_undoable, SetTransientState_undoable, CreateAccount_undoable,
        SelfDestruct_undoable, AddRefund_undoable, SubRefund_undoable, AddLog_undoable,
        AddAddress_undoable, AddSlot_undoable, fail_quiet]).
  - eapply undoable_trans; [done|]. unfold Selfdestruct6780.
    case_bool_decide; [apply SelfDestruct_undoable|apply undoable_refl].
  - destruct IHsim_run as (es & Hj & Hu). unfold Snapshot, RevertToSnapshot in *.
    set (n := rev - length (sd_journal s0)).
    assert (take rev (sd_journal s) = sd_journal s0 ++ take n es) as Ht.
    { rewrite Hj, take_app, take_ge by lia. done. }
    assert (drop rev (sd_journal s) = drop n es) as Hd.
    { rewrite Hj, drop_app, drop_ge by lia. done. }
    exists (take n es). cbn [sd_journal with_journal]. split; [done|].
    rewrite undo_all_journal, Hd. fold (undo_all s (drop n es)).
    by rewrite <-undo_all_app, take_drop.
Qed.

Lemma revert_restores s0 s :
  sim_run s0 s →
  RevertToSnapshot s (Snapshot s0) ≡ s0 ∧
  sd_journal (RevertToSnapshot s (Snapshot s0)) = sd_journal s0.
Proof.
  intros (es & Hj & Hu)%sim_run_undoable. unfold RevertToSnapshot, Snapshot. rewrite Hj.
  rewrite drop_app_length, take_app_length. split; [|done].
  transitivity (undo_all s es); [by split|done].
Qed.

Lemma al_reads_agree s1 s2 a k :
  al_norm (sd_al s1) = al_norm (sd_al s2) →
  AddressInAccessList s1 a = AddressInAccessList s2 a ∧
  SlotInAccessList s1 a k = SlotInAccessList s2 a k.
Proof.
  intros Hal. unfold AddressInAccessList, SlotInAccessList.
  assert (default ∅ <$> sd_al s1 !! a = default ∅ <$> sd_al s2 !! a) as Ha.
  { rewrite <-!lookup_fmap. unfold al_norm in Hal. by rewrite Hal. }
  destruct (sd_al s1 !! a) as [[m1|]|], (sd_al s2 !! a) as [[m2|]|];
    cbn in Ha; simplify_eq; try done;
    (split; [by rewrite !bool_decide_eq_true_2 by eauto|]);
    try done; by rewrite bool_decide_eq_false_2 by set_solver.
Qed.

(** Reads do not tell equivalent overlays apart. *)
Lemma reads_agree s1 s2 a k :
  s1 ≡ s2 →
  (GetState view s1 a k).1 = (GetState view s2 a k).1 ∧
  (GetCommittedState view s1 a k).1 = (GetCommittedState view s2 a k).1 ∧
  (GetBalance view s1 a).1 = (GetBalance view s2 a).1 ∧
  (GetNonce view s1 a).1 = (GetNonce view s2 a).1 ∧
  (GetCodeHash view keccak s1 a).1 = (GetCodeHash view keccak s2 a).1 ∧
  (sd_GetCode view keccak s1 a).1 = (sd_GetCode view keccak s2 a).1 ∧
  (Exist view s1 a).1 = (Exist view s2 a).1 ∧
  GetTransientState s1 a k = GetTransientState s2 a k ∧
  HasSelfDestructed s1 a = HasSelfDestructed s2 a ∧ GetRefund s1 = GetRefund s2 ∧
  AddressInAccessList s1 a = AddressInAccessList s2 a ∧
  SlotInAccessList s1 a k = SlotInAccessList s2 a k.
Proof.
  intros [Hb Hs Ho Hn Hc Hch Hcr Hd Ht Hal Hr Hl].
  destruct (al_reads_agree s1 s2 a k Hal) as [-> ->].
  unfold GetState, GetCommittedState, GetBalance, sd_balance, GetNonce, sd_GetCode,
    GetCodeHash, Exist, sd_account, GetTransientState, HasSelfDestructed, GetRefund.
  rewrite Hb, Hs, Ho, Hn, Hc, Hch, Hcr, Hd, Ht, Hr.
  destruct (vr_Account view a) as [[acct []]|]; cbn [negb fst snd];
    split_and!; by repeat (case_match; simplify_eq/=).
Qed.
End proof.

(** ** Slot normalization *)

Lemma clear_bit0 (z : Z) : Z.ldiff z 1 = (z / 2 * 2)%Z.
Proof.
  change 1%Z with (Z.ones 1) at 1. rewrite Z.ldiff_ones_r by lia.
  rewrite Z.shiftl_mul_pow2, Z.shiftr_div_pow2 by lia. by rewrite Z.pow_1_r.
Qed.

Lemma clear_bit0_byte (b : byte) : uval (wrap (w:=8) (Z.ldiff b 1)) = (b / 2 * 2)%Z.
Proof.
  pose proof (uint_range b). rewrite clear_bit0. apply wrap_small.
  pose proof (Z.mul_div_le b 2 ltac:(lia)). pose proof (Z.div_pos b 2 ltac:(lia) ltac:(lia)). lia.
Qed.

Lemma abytes_normSlot slot b rest :
  abytes slot = b :: rest → abytes (normSlot slot) = wrap (Z.ldiff b 1) :: rest.
Proof.
  intros Hs. pose proof (length_abytes slot) as Hl. unfold normSlot. rewrite Hs in *.
  rewrite abytes_arr_of; [done|]. exact Hl.
Qed.

Lemma normSlot_idem slot : normSlot (normSlot slot) = normSlot slot.
Proof.
  pose proof (length_abytes slot) as Hl. destruct (abytes slot) as [|b rest] eqn:Hs; [done|].
  apply arr_eq. rewrite (abytes_normSlot (normSlot slot) _ _ (abytes_normSlot slot b rest Hs)).
  rewrite (abytes_normSlot slot b rest Hs). f_equal. apply uint_eq.
  rewrite !clear_bit0_byte, Z.div_mul by lia. done.
Qed.

(** Two slots are the same storage cell iff they differ at most in bit 0 of
    their first byte. *)
Lemma normSlot_eq s1 s2 b1 b2 r1 r2 :
  abytes s1 = b1 :: r1 → abytes s2 = b2 :: r2 →
  normSlot s1 = normSlot s2 ↔ (b1 / 2 = b2 / 2)%Z ∧ r1 = r2.
Proof.
  intros H1 H2. split.
  - intros Heq. apply (f_equal abytes) in Heq.
    rewrite (abytes_normSlot _ _ _ H1), (abytes_normSlot _ _ _ H2) in Heq.
    assert (uval (wrap (w:=8) (Z.ldiff b1 1)) = uval (wrap (w:=8) (Z.ldiff b2 1)) ∧ r1 = r2) as [Hb ->]
      by (split; congruence).
    rewrite !clear_bit0_byte in Hb. split; [lia|done].
  - intros [Hb ->]. apply arr_eq. rewrite (abytes_normSlot _ _ _ H1), (abytes_normSlot _ _ _ H2).
    f_equal. apply uint_eq. rewrite !clear_bit0_byte. lia.
Qed.

Section behaviour.
Context {Log : Type} (view : ViewReads) (keccak : bytes → Hash).
Implicit Types s : stateDB Log.

(** ** Storage *)

Lemma SetState_GetState s a k v a' k' :
  (GetState view (SetState s a k v) a' k').1 =
  if decide (a' = a ∧ normSlot k' = normSlot k) then v else (GetState view s a' k').1.
Proof.
  unfold GetState, SetState. cbn [sd_slots with_slots record_j with_journal].
  case_decide as Hc.
  - destruct Hc as [-> ->]. by rewrite lookup_insert_eq.
  - rewrite lookup_insert_ne by naive_solver. by repeat case_match.
Qed.

Lemma SetState_GetCommittedState s a k v a' k' :
  (GetCommittedState view (SetState s a k v) a' k').1 = (GetCommittedState view s a' k').1.
Proof. unfold GetCommittedState. cbn. by repeat case_match. Qed.

(** ** Balances wrap at 256 bits *)

Lemma sd_balance_fail s a : sd_balances (sd_balance view s a).2 = sd_balances s.
Proof. unfold sd_balance, fail. by repeat case_match. Qed.

Lemma AddBalance_GetBalance s a x a' :
  (GetBalance view (AddBalance view s a x) a').1 =
  if decide (a' = a) then u_add (GetBalance view s a).1 x else (GetBalance view s a').1.
Proof.
  unfold GetBalance, AddBalance. pose proof (sd_balance_fail s a) as Hb.
  destruct (sd_balance view s a) as [b s1] eqn:E; cbn [fst snd] in *.
  unfold sd_balance, setBalance. cbn [sd_balances with_balances record_j with_journal].
  case_decide; subst; [by rewrite lookup_insert_eq|].
  rewrite lookup_insert_ne, Hb by done. by repeat case_match.
Qed.

(** ** The warm set *)

Definition warm s (a : Address) : Prop := AddressInAccessList s a = true.
Definition warm_slot s (a : Address) (k : Hash) : Prop := SlotInAccessList s a k = (true, true).

Lemma warm_spec s a : warm s a ↔ is_Some (sd_al s !! a).
Proof. apply bool_decide_eq_true. Qed.
Lemma warm_slot_spec s a k : warm_slot s a k ↔ ∃ m, sd_al s !! a = Some (Some m) ∧ k ∈ m.
Proof.
  unfold warm_slot, SlotInAccessList. destruct (sd_al s !! a) as [[m|]|]; [|naive_solver..].
  case_bool_decide; naive_solver.
Qed.

Lemma AddAddress_al s a :
  sd_al (AddAddressToAccessList s a) =
  match sd_al s !! a with None => <[a:=None]> (sd_al s) | Some _ => sd_al s end.
Proof. unfold AddAddressToAccessList. by destruct (sd_al s !! a). Qed.

Lemma AddSlot_al s a k :
  ∃ m, sd_al (AddSlotToAccessList s a k) = <[a:=Some m]> (sd_al s) ∧ k ∈ m ∧
    (∀ m0, sd_al s !! a = Some (Some m0) → m0 ⊆ m).
Proof.
  unfold AddSlotToAccessList. destruct (sd_al s !! a) as [[m|]|] eqn:E.
  - case_bool_decide as Hk.
    + exists m. split_and!; [by rewrite insert_id|done|by intros ? [= <-]].
    + exists ({[k]} ∪ m). split_and!; [done|set_solver|]. intros ? [= <-]. set_solver.
  - rewrite bool_decide_eq_false_2 by set_solver. exists ({[k]} ∪ ∅).
    split_and!; [cbn; by rewrite insert_insert_eq|set_solver|done].
  - rewrite bool_decide_eq_false_2 by set_solver. exists ({[k]} ∪ ∅).
    split_and!; [cbn; by rewrite insert_insert_eq|set_solver|done].
Qed.

(** Warming never cools. *)
Definition warmer s s' : Prop :=
  (∀ a, warm s a → warm s' a) ∧ (∀ a k, warm_slot s a k → warm_slot s' a k).

Lemma warmer_refl s : warmer s s.
Proof. done. Qed.
Lemma warmer_trans s1 s2 s3 : warmer s1 s2 → warmer s2 s3 → warmer s1 s3.
Proof. intros [??] [??]. split; eauto. Qed.

Lemma AddAddress_warm s a :
  warmer s (AddAddressToAccessList s a) ∧ warm (AddAddressToAccessList s a) a.
Proof.
  unfold warmer. setoid_rewrite warm_spec. setoid_rewrite warm_slot_spec. rewrite AddAddress_al.
  destruct (sd_al s !! a) as [x|] eqn:E; [by eauto|]. split; [split|by rewrite lookup_insert_eq].
  - intros a' [y Hy]. rewrite lookup_insert_ne by congruence. eauto.
  - intros a' k (m & Hm & ?). rewrite lookup_insert_ne by congruence. eauto.
Qed.

Lemma AddSlot_warm s a k :
  warmer s (AddSlotToAccessList s a k) ∧ warm_slot (AddSlotToAccessList s a k) a k.
Proof.
  unfold warmer. setoid_rewrite warm_spec. setoid_rewrite warm_slot_spec.
  destruct (AddSlot_al s a k) as (m & -> & Hk & Hm). split; [split|].
  - intros a' [y Hy]. destruct (decide (a' = a)) as [->|];
      [by rewrite lookup_insert_eq|rewrite lookup_insert_ne by done; eauto].
  - intros a' k' (m' & Hm' & Hk'). destruct (decide (a' = a)) as [->|].
    + rewrite lookup_insert_eq. exists m. split; [done|]. by eapply Hm.
    + rewrite lookup_insert_ne by done. eauto.
  - rewrite lookup_insert_eq. eauto.
Qed.

(** A fold of warming steps keeps everything warm and does each step's work. *)
Lemma foldl_warm {A} (f : stateDB Log → A → stateDB Log) (P : stateDB Log → A → Prop) l s :
  (∀ s x, warmer s (f s x) ∧ P (f s x) x) →
  (∀ s s' x, warmer s s' → P s x → P s' x) →
  warmer s (foldl f s l) ∧ ∀ x, x ∈ l → P (foldl f s l) x.
Proof.
  intros Hf HP. revert s. induction l as [|y l IH]; intros s; cbn.
  { split; [apply warmer_refl|]. by intros x ?%elem_of_nil. }
  destruct (Hf s y) as [Hw Hy]. destruct (IH (f s y)) as [Hw' Hl].
  split; [by eapply warmer_trans|]. intros x [->|Hx]%elem_of_cons; [by eapply HP|by apply Hl].
Qed.

Definition entry_warm s (el : Address * list Hash) : Prop :=
  warm s el.1 ∧ ∀ k, k ∈ el.2 → warm_slot s el.1 k.

Lemma warm_list_entry s (el : Address * list Hash) :
  let s' := foldl (λ s key, AddSlotToAccessList s el.1 key) (AddAddressToAccessList s el.1) el.2 in
  warmer s s' ∧ entry_warm s' el.
Proof.
  destruct (AddAddress_warm s el.1) as [Hw Ha].
  destruct (foldl_warm (λ s key, AddSlotToAccessList s el.1 key) (λ s k, warm_slot s el.1 k) el.2
    (AddAddressToAccessList s el.1)) as [Hw' Hk].
  - intros s0 x. apply AddSlot_warm.
  - intros s0 s1 x [_ Hs] Hx. by apply Hs.
  - split; [by eapply warmer_trans|]. split; [by apply Hw'|done].
Qed.

Lemma Prepare_warm s rules sender coinbase dst precompiles accessList :
  IsBerlin rules = true →
  let s' := Prepare s rules sender coinbase dst precompiles accessList in
  warm s' sender ∧ (∀ a, dst = Some a → warm s' a) ∧ (∀ a, a ∈ precompiles → warm s' a) ∧
  (∀ el, el ∈ accessList → entry_warm s' el) ∧ (IsShanghai rules = true → warm s' coinbase).
Proof.
  intros HB. cbv zeta. unfold Prepare. rewrite HB. cbn [negb].
  destruct (AddAddress_warm s sender) as [_ H1]. set (s1 := AddAddressToAccessList s sender) in *.
  set (s2 := match dst with Some a => AddAddressToAccessList s1 a | None => s1 end).
  assert (warmer s1 s2 ∧ ∀ a, dst = Some a → warm s2 a) as [W2 H2].
  { subst s2. destruct dst as [a|]; [|by split]. destruct (AddAddress_warm s1 a). split; [done|].
    by intros ? [= <-]. }
  destruct (foldl_warm AddAddressToAccessList warm precompiles s2) as [W3 H3].
  { intros s0 a. apply AddAddress_warm. }
  { intros s0 s' a [Hs _] Ha. by apply Hs. }
  set (s3 := foldl AddAddressToAccessList s2 precompiles) in *.
  destruct (foldl_warm (λ s el, foldl (λ s key, AddSlotToAccessList s el.1 key)
    (AddAddressToAccessList s el.1) el.2) entry_warm accessList s3) as [W4 H4].
  { intros s0 el. apply warm_list_entry. }
  { intros s0 s' el [Ha Hk] [??]. split; eauto. }
  set (s4 := foldl _ s3 accessList) in *.
  set (s5 := if IsShanghai rules then AddAddressToAccessList s4 coinbase else s4).
  assert (warmer s4 s5 ∧ (IsShanghai rules = true → warm s5 coinbase)) as [W5 H5].
  { subst s5. destruct (IsShanghai rules); [|by split]. destruct (AddAddress_warm s4 coinbase). by split. }
  assert (warmer s2 s5) as W25 by eauto using warmer_trans.
  assert (warmer s1 s5) as W15 by eauto using warmer_trans.
  assert (warmer s3 s5) as W35 by eauto using warmer_trans.
  split_and!; [by apply W15|intros a Ha; by apply W25, H2|intros a Ha; by apply W35, H3| |done].
  intros el Hel. destruct (H4 el Hel). split; [by apply W5|]. intros k Hk. apply W5. auto.
Qed.

(** Setting code over code is not undone: the first code is lost. *)
Lemma SetCode_revert_loses s a c1 c2 :
  sd_codes (RevertToSnapshot (SetCode keccak (SetCode keccak s a c1) a c2)
              (Snapshot (SetCode keccak s a c1))) !! a = None.
Proof.
  unfold RevertToSnapshot, Snapshot. cbn [sd_journal SetCode record_j with_journal with_codes].
  rewrite drop_app_length. cbn. apply lookup_delete_eq.
Qed.
End behaviour.
