(* ===== verification/SimCall.v ===== *)
(** * SimCall: simulating a call

    Models [sim/sim.go]: the pooled executor, its per-tip environment and the
    execution of one call.  The EVM itself is libevm's: [evm_Call] is a parameter
    that runs over the state database of [SimState] with the reads of a view.  The
    EVM object and the state database outlive the call: the executor goes on with
    the database the call left, and with the EVM object that database's handle
    points to, which a failed read has cancelled.  The persistent caller contracts
    only carry jump-destination analysis. *)

From S2P Require Import Prelude Schema SimState.

Definition DefaultGasCap : u64 := u64_lit 50000000.

(** [Call]; the maps are in the order they are ranged over. *)
Record Call := MkCall {
  ca_From : Address;
  ca_To : Address;
  ca_Input : bytes;
  ca_Gas : u64;
  ca_Value : option u256;
  ca_BalanceOverrides : list (Address * u256);
  ca_StorageOverrides : list (Address * list (Hash * Hash));
  ca_AccessList : list (Address * list Hash)
}.

(** What the engine hands over: a [*Call], or something else. *)
Inductive anycall := ACall (c : Call) | AOther.

Record Result (Log : Type) := MkResult {
  rs_ReturnData : bytes;
  rs_GasUsed : u64;
  rs_Logs : list Log;
  rs_Err : option error
}.
Arguments MkResult {Log} _ _ _ _.
Arguments rs_ReturnData {Log} _.
Arguments rs_GasUsed {Log} _.
Arguments rs_Logs {Log} _.
Arguments rs_Err {Log} _.

Record Executor (Log : Type) := MkExecutor {
  se_sdb : stateDB Log;
  se_envTip : Hash;
  se_evm : option EVM;
  se_rules : Rules;
  se_precompiles : list Address;
  se_callers : gset Address
}.
Arguments MkExecutor {Log} _ _ _ _ _ _.
Arguments se_sdb {Log} _.
Arguments se_envTip {Log} _.
Arguments se_evm {Log} _.
Arguments se_rules {Log} _.
Arguments se_precompiles {Log} _.
Arguments se_callers {Log} _.

Section sim.
Context {Log : Type} (blackholeAddr : Address) (keccak : bytes → Hash).
(** [chainCfg.Rules], [vm.ActivePrecompiles], and [evm.Call] of a caller over a
    state database *)
Context (Rules_at : u64 → u64 → Rules) (ActivePrecompiles : Rules → list Address).
Context (evm_Call : ViewReads → EVM → Address → Address → bytes → u64 → u256 → stateDB Log →
  (bytes * u64 * option error) * stateDB Log).
Implicit Types (e : Executor Log) (s : stateDB Log).

Definition sim_New : Executor Log := MkExecutor newStateDB arr_zero None (MkRules false false) [] ∅.

Definition NewPool (n : nat) : list (Executor Log) := replicate n sim_New.

Definition callerFor e (from : Address) : Address * Executor Log :=
  if bool_decide (from ∈ se_callers e) then (from, e)
  else (from, MkExecutor (se_sdb e) (se_envTip e) (se_evm e) (se_rules e) (se_precompiles e) ({[from]} ∪ se_callers e)).

Definition rebuildEnv e (tip : Hash) (num time : u64) : EVM * Executor Log :=
  let evm := MkEVM num time false None in
  let rules := Rules_at num time in
  (evm, MkExecutor (se_sdb e) tip (Some evm) rules (ActivePrecompiles rules) (se_callers e)).

Definition set_env e (tip : Hash) (evm : option EVM) : Executor Log :=
  MkExecutor (se_sdb e) tip evm (se_rules e) (se_precompiles e) (se_callers e).
Definition set_sdb e (s : stateDB Log) : Executor Log :=
  MkExecutor s (se_envTip e) (se_evm e) (se_rules e) (se_precompiles e) (se_callers e).

Definition sim_Execute e (c : anycall) (v : ViewReads) (tipInfo : Hash * u64 * u64) : Result Log * Executor Log :=
  match c with
  | AOther => (MkResult [] u_zero [] (Some (ErrMsg "sim")), e)
  | ACall call =>
      let '(tip, num, time) := tipInfo in
      if bool_decide (num = u_zero) then (MkResult [] u_zero [] (Some (ErrMsg "sim: no tip")), e)
      else
        let '(evm, e) :=
          match se_evm e with
          | Some evm => if bool_decide (se_envTip e ≠ tip) then rebuildEnv e tip num time else (evm, e)
          | None => rebuildEnv e tip num time
          end in
        let s := sd_reset (se_sdb e) evm (ca_BalanceOverrides call) (ca_StorageOverrides call) in
        let evm := evm_Reset evm in
        let s := with_evm s (Some evm) in
        let s := Prepare s (se_rules e) (ca_From call) blackholeAddr (Some (ca_To call)) (se_precompiles e)
                   (ca_AccessList call) in
        let gas := if bool_decide (ca_Gas call = u_zero) then DefaultGasCap else ca_Gas call in
        let value := default u_zero (ca_Value call) in
        let '(caller, e) := callerFor e (ca_From call) in
        let '((ret, gasLeft, err), s) := evm_Call v evm caller (ca_To call) (ca_Input call) gas value s in
        let e := set_sdb (set_env e (se_envTip e) (sd_evm s)) s in
        match sd_readErr s with
        | Some rerr => (MkResult [] u_zero [] (Some rerr), set_env e arr_zero None)
        | None => (MkResult ret (u_sub gas gasLeft) (sd_logs s) err, e)
        end
  end.

(** ** What a call is *)

(** The call alone, on a new EVM for the tip and a new database. *)
Definition call_spec (c : anycall) (v : ViewReads) (tipInfo : Hash * u64 * u64) : Result Log :=
  match c with
  | AOther => MkResult [] u_zero [] (Some (ErrMsg "sim"))
  | ACall call =>
      let '(_, num, time) := tipInfo in
      if bool_decide (num = u_zero) then MkResult [] u_zero [] (Some (ErrMsg "sim: no tip"))
      else
        let rules := Rules_at num time in
        let evm := MkEVM num time false None in
        let s := seed (ca_BalanceOverrides call) (ca_StorageOverrides call) (with_evm newStateDB (Some evm)) in
        let s := Prepare s rules (ca_From call) blackholeAddr
                   (Some (ca_To call)) (ActivePrecompiles rules) (ca_AccessList call) in
        let gas := if bool_decide (ca_Gas call = u_zero) then DefaultGasCap else ca_Gas call in
        let '((ret, gasLeft, err), s) :=
          evm_Call v evm (ca_From call) (ca_To call) (ca_Input call) gas (default u_zero (ca_Value call)) s in
        match sd_readErr s with
        | Some rerr => MkResult [] u_zero [] (Some rerr)
        | None => MkResult ret (u_sub gas gasLeft) (sd_logs s) err
        end
  end.

(** One call of a method of [vm.StateDB], as the EVM makes them.  [Snapshot] and
    the reads without a view read change nothing. *)
Inductive sdb_call (v : ViewReads) (s : stateDB Log) : stateDB Log → Prop :=
| dc_get_balance a : sdb_call v s (GetBalance v s a).2
| dc_add_balance a x : sdb_call v s (AddBalance v s a x)
| dc_sub_balance a x : sdb_call v s (SubBalance v s a x)
| dc_get_nonce a : sdb_call v s (GetNonce v s a).2
| dc_set_nonce a n : sdb_call v s (SetNonce s a n)
| dc_get_code_hash a : sdb_call v s (GetCodeHash v keccak s a).2
| dc_get_code a : sdb_call v s (sd_GetCode v keccak s a).2
| dc_get_code_size a : sdb_call v s (GetCodeSize v keccak s a).2
| dc_set_code a c : sdb_call v s (SetCode keccak s a c)
| dc_get_state a k : sdb_call v s (GetState v s a k).2
| dc_get_committed a k : sdb_call v s (GetCommittedState v s a k).2
| dc_set_state a k x : sdb_call v s (SetState s a k x)
| dc_set_transient a k x : sdb_call v s (SetTransientState s a k x)
| dc_create a : sdb_call v s (CreateAccount s a)
| dc_destruct a : sdb_call v s (SelfDestruct s a)
| dc_destruct6780 a : sdb_call v s (Selfdestruct6780 s a)
| dc_exist a : sdb_call v s (Exist v s a).2
| dc_empty a : sdb_call v s (Empty v keccak s a).2
| dc_add_refund g : sdb_call v s (AddRefund s g)
| dc_sub_refund g : sdb_call v s (SubRefund s g)
| dc_log l : sdb_call v s (AddLog s l)
| dc_address a : sdb_call v s (AddAddressToAccessList s a)
| dc_slot a k : sdb_call v s (AddSlotToAccessList s a k)
| dc_revert rev : sdb_call v s (RevertToSnapshot s rev).

(** What is relied on of [evm.Call]: it changes the state database through its
    methods only. *)
Definition evm_uses_methods : Prop :=
  ∀ v evm caller to input gas value s,
    rtc (sdb_call v) s (evm_Call v evm caller to input gas value s).2.

(** [info] are the height and time of the block of a tip hash.  The executors of
    a process: new ones, and those that have executed calls at its tips. *)
Inductive pooled (info : Hash → u64 * u64) : Executor Log → Prop :=
| po_new : pooled info sim_New
| po_execute e c v tip :
    pooled info e → pooled info (sim_Execute e c v (tip, (info tip).1, (info tip).2)).2.

(** A cached environment is the one of its tip, and not cancelled. *)
Definition env_ok (info : Hash → u64 * u64) e : Prop :=
  ∀ evm, se_evm e = Some evm →
    evm = MkEVM (info (se_envTip e)).1 (info (se_envTip e)).2 false None ∧
    se_rules e = Rules_at (info (se_envTip e)).1 (info (se_envTip e)).2 ∧
    se_precompiles e = ActivePrecompiles (se_rules e).

(** *** No method touches the EVM unless a read fails *)

(** The database is [s] up to the read error: none, and the EVM is the one of [s]. *)
Definition quiet s s' : Prop :=
  sd_readErr s' = None → sd_readErr s = None ∧ sd_evm s' = sd_evm s.

#[export] Instance quiet_preorder : PreOrder quiet.
Proof. split; [by intros s|]. intros s1 s2 s3 H12 H23 H3. destruct (H23 H3) as [H2 ->]. by apply H12. Qed.

Lemma quiet_fail s err : quiet s (fail s err).
Proof. unfold quiet, fail. destruct (sd_readErr s) eqn:E; [congruence|]. by destruct (sd_evm (with_readErr s (Some err))). Qed.

Lemma quiet_same s s' : sd_readErr s' = sd_readErr s → sd_evm s' = sd_evm s → quiet s s'.
Proof. intros H1 H2 H3. split; [congruence|done]. Qed.

Lemma quiet_account v s a : quiet s (sd_account v s a).2.
Proof. unfold sd_account. case_match; [done|apply quiet_fail]. Qed.

Lemma quiet_balance v s a : quiet s (sd_balance v s a).2.
Proof. unfold sd_balance. repeat case_match; try done. apply quiet_fail. Qed.

Lemma quiet_nonce v s a : quiet s (GetNonce v s a).2.
Proof.
  unfold GetNonce. case_match; [done|]. pose proof (quiet_account v s a). by destruct (sd_account v s a).
Qed.

Lemma quiet_code_hash v s a : quiet s (GetCodeHash v keccak s a).2.
Proof.
  unfold GetCodeHash. case_match; [done|]. pose proof (quiet_account v s a).
  destruct (sd_account v s a) as [[? []] ?]; cbn [negb]; [|done]. by case_bool_decide.
Qed.

Lemma quiet_code v s a : quiet s (sd_GetCode v keccak s a).2.
Proof.
  unfold sd_GetCode. case_match; [done|]. pose proof (quiet_code_hash v s a) as Hq.
  destruct (GetCodeHash v keccak s a) as [h s1]. repeat case_match; try done. etrans; [exact Hq|apply quiet_fail].
Qed.

Lemma undo_evm s x : sd_readErr (undo s x) = sd_readErr s ∧ sd_evm (undo s x) = sd_evm s.
Proof. destruct x; cbn; try done. by repeat case_match. Qed.

Lemma quiet_revert s rev : quiet s (RevertToSnapshot s rev).
Proof.
  unfold RevertToSnapshot. generalize (reverse (drop rev (sd_journal s))). intros es.
  apply quiet_same; cbn [sd_readErr sd_evm with_journal]; revert s; induction es as [|x es IH]; intros s; try done;
    cbn; rewrite IH; apply undo_evm.
Qed.

Lemma quiet_call v s s' : sdb_call v s s' → quiet s s'.
Proof.
  destruct 1; try (by apply quiet_same); try apply quiet_balance; try apply quiet_nonce; try apply quiet_code_hash;
    try apply quiet_code; try apply quiet_revert.
  - pose proof (quiet_balance v s a) as Hq. unfold AddBalance. by destruct (sd_balance v s a).
  - pose proof (quiet_balance v s a) as Hq. unfold SubBalance. by destruct (sd_balance v s a).
  - pose proof (quiet_code v s a) as Hq. unfold GetCodeSize. by destruct (sd_GetCode v keccak s a).
  - unfold GetState. repeat case_match; try done. apply quiet_fail.
  - unfold GetCommittedState. repeat case_match; try done. apply quiet_fail.
  - unfold CreateAccount. case_bool_decide; by apply quiet_same.
  - unfold SelfDestruct. case_bool_decide; by apply quiet_same.
  - unfold Selfdestruct6780, SelfDestruct. repeat case_bool_decide; by apply quiet_same.
  - unfold Exist. repeat case_bool_decide; try done. pose proof (quiet_account v s a).
    by destruct (sd_account v s a) as [[??]?].
  - unfold Empty. pose proof (quiet_nonce v s a) as Hn. destruct (GetNonce v s a) as [n s1]. cbn [snd] in Hn.
    case_bool_decide; [done|]. pose proof (quiet_balance v s1 a) as Hb. destruct (sd_balance v s1 a) as [b s2].
    cbn [snd] in Hb. case_match; [by etrans|]. pose proof (quiet_code_hash v s2 a) as Hc.
    destruct (GetCodeHash v keccak s2 a) as [h s3]. etrans; [exact Hn|]. by etrans.
  - unfold SubRefund. case_match; [|by apply quiet_same]. etrans; [|apply quiet_fail]. by apply quiet_same.
  - unfold AddAddressToAccessList. case_match; by apply quiet_same.
  - unfold AddSlotToAccessList. repeat case_match; simplify_eq; by apply quiet_same.
Qed.

Lemma quiet_run v s s' : rtc (sdb_call v) s s' → quiet s s'.
Proof. induction 1 as [|s1 s2 s3 H12 _ IH]; [done|]. etrans; [by eapply quiet_call|done]. Qed.

(** *** The database of a call *)

(** Nothing of the calls before is left. *)
Lemma sd_reset_fresh s evm bal stor :
  sd_reset s evm bal stor = seed bal stor (with_evm newStateDB (Some evm)).
Proof. done. Qed.

Lemma with_evm_id s evm : sd_evm s = Some evm → with_evm s (Some evm) = s.
Proof. destruct s. cbn. by intros ->. Qed.

(** The environment [Execute] goes on with. *)
Lemma env_for info e tip :
  env_ok info e →
  match (match se_evm e with
         | Some evm => if bool_decide (se_envTip e ≠ tip) then rebuildEnv e tip (info tip).1 (info tip).2 else (evm, e)
         | None => rebuildEnv e tip (info tip).1 (info tip).2
         end) with
  | (evm, e') => evm = MkEVM (info tip).1 (info tip).2 false None ∧ se_evm e' = Some evm ∧ se_envTip e' = tip ∧
      se_rules e' = Rules_at (info tip).1 (info tip).2 ∧ se_precompiles e' = ActivePrecompiles (se_rules e')
  end.
Proof.
  intros He. destruct (se_evm e) as [evm|] eqn:Ee; [|done]. case_bool_decide as Ht; [done|].
  subst tip. by destruct (He evm Ee) as (-> & -> & ->).
Qed.

Lemma foldl_evm {A} (f : stateDB Log → A → stateDB Log) l s :
  (∀ s x, sd_evm (f s x) = sd_evm s) → sd_evm (foldl f s l) = sd_evm s.
Proof. intros Hf. revert s. induction l as [|x l IH]; intros s; [done|]. cbn. by rewrite IH. Qed.

Lemma address_evm s a : sd_evm (AddAddressToAccessList s a) = sd_evm s.
Proof. unfold AddAddressToAccessList. by case_match. Qed.
Lemma slot_evm s a k : sd_evm (AddSlotToAccessList s a k) = sd_evm s.
Proof. unfold AddSlotToAccessList. repeat case_match; by simplify_eq. Qed.

Lemma seed_evm bal stor s : sd_evm (seed bal stor s) = sd_evm s.
Proof. unfold seed. rewrite !foldl_evm; [done|done|]. intros s' [a kvs]. by apply foldl_evm. Qed.

Lemma Prepare_evm s rules sender coinbase dst precompiles al :
  sd_evm (Prepare s rules sender coinbase dst precompiles al) = sd_evm s.
Proof.
  unfold Prepare. destruct (IsBerlin rules); [|done]. cbn [negb].
  assert (∀ s', sd_evm (if IsShanghai rules then AddAddressToAccessList s' coinbase else s') = sd_evm s') as ->
    by (intros s'; destruct (IsShanghai rules); [apply address_evm|done]).
  rewrite foldl_evm; [rewrite foldl_evm by apply address_evm|].
  - destruct dst; by rewrite ?address_evm.
  - intros s' [a ks]. rewrite foldl_evm by (intros; apply slot_evm). apply address_evm.
Qed.

Lemma execute_spec info e c v tip :
  evm_uses_methods → env_ok info e →
  let '(r, e') := sim_Execute e c v (tip, (info tip).1, (info tip).2) in
  r = call_spec c v (tip, (info tip).1, (info tip).2) ∧ env_ok info e'.
Proof.
  intros Hm He. unfold sim_Execute, call_spec. destruct c as [call|]; [|done]. case_bool_decide; [done|].
  pose proof (env_for info e tip He) as Henv.
  destruct (match se_evm e with Some _ => _ | None => _ end) as [evm e1].
  destruct Henv as (-> & Hevm & Htip & Hr & Hp). rewrite Hp, Hr, sd_reset_fresh.
  set (evm0 := MkEVM (info tip).1 (info tip).2 false None). change (evm_Reset evm0) with evm0.
  rewrite (with_evm_id (seed _ _ (with_evm newStateDB _)) evm0) by apply seed_evm.
  set (s0 := Prepare _ _ _ _ _ _ _). assert (sd_evm s0 = Some evm0) as Hs0.
  { unfold s0. by rewrite Prepare_evm, seed_evm. }
  set (cf := callerFor e1 (ca_From call)).
  assert (cf.1 = ca_From call ∧ se_envTip cf.2 = se_envTip e1 ∧
    se_rules cf.2 = se_rules e1 ∧ se_precompiles cf.2 = se_precompiles e1) as (H1 & H3 & H4 & H5)
    by (unfold cf, callerFor; by case_bool_decide).
  destruct cf as [caller e2]. cbn [fst snd] in *. subst caller.
  pose proof (Hm v evm0 (ca_From call) (ca_To call) (ca_Input call)
    (if bool_decide (ca_Gas call = u_zero) then DefaultGasCap else ca_Gas call) (default u_zero (ca_Value call)) s0) as Hq.
  destruct (evm_Call _ _ _ _ _ _ _ _) as [[[ret gasLeft] err] s]. cbn [snd] in Hq.
  destruct (sd_readErr s) eqn:Ers; [by split|]. split; [done|].
  destruct (quiet_run v s0 s Hq Ers) as [_ Hsame].
  intros evm. cbn. rewrite Hsame, Hs0, H3, H4, H5, Htip. intros [= <-]. by rewrite Hp, Hr.
Qed.

Lemma pooled_env info e : evm_uses_methods → pooled info e → env_ok info e.
Proof.
  intros Hm. induction 1 as [|e c v tip _ IH]; [done|]. pose proof (execute_spec info e c v tip Hm IH) as Hs.
  destruct (sim_Execute e c v _) as [r e']. apply Hs.
Qed.
End sim.
