(* ===== verification/Simbench.v ===== *)
(** * Simbench: the calls of the benchmark program

    Models the calldata builders of [cmd/simbench/main.go] and the decoding of
    results: 4-byte selectors and 32-byte words.  Decoding what the builders wrote
    gives the arguments back ([call_args]). *)

From S2P Require Import Prelude Schema SimState SimCall.

(** [common.HexToAddress] on a literal *)
Definition hex_address (z : Z) : Address := arr_of (be_bytes 20 z).

Definition wavax : Address := hex_address 0xB31f66AA3C1e785363F0875A1B74E27b85FD66c7.
Definition usdc : Address := hex_address 0xB97EF9Ef8734C71904D8002F8b6Bc66Dd9c48a6E.
Definition joePair : Address := hex_address 0xf4003F4efBE8691B60249E6afbD307aBE7758adb.
Definition joeRouter : Address := hex_address 0x60aE616a2155Ee3d9A68541Ba4544862310933d4.
Definition univ3Factory : Address := hex_address 0x740b1c1de25031C31FF4fC9A62f554A55cdC1baD.
Definition quoterV2 : Address := hex_address 0xbe0F5544EC67e9B3b2D979aaA43f18Fd87E6257F.
Definition botAddr : Address := hex_address 0x1111111111111111111111111111111111111111.

Definition sel (b4 : u32) : bytes := be_bytes 4 (uval b4).
Definition word (dst : bytes) (v : u256) : bytes := dst ++ be_bytes 32 (uval v).
Definition addrWord (dst : bytes) (a : Address) : bytes := dst ++ replicate 12 u_zero ++ abytes a.

(** A call with the defaults of the other fields. *)
Definition plain_call (to : Address) (input : bytes) : Call := MkCall botAddr to input u_zero None [] [] [].

Definition balanceOfCall (token holder : Address) : Call := plain_call token (addrWord (sel (u32_lit 0x70a08231)) holder).
Definition getReservesCall : Call := plain_call joePair (sel (u32_lit 0x0902f1ac)).
Definition getAmountOutCall (amountIn rIn rOut : u256) : Call :=
  plain_call joeRouter (word (word (word (sel (u32_lit 0x054d50d4)) amountIn) rIn) rOut).
Definition getPoolCall (a b : Address) (fee : u64) : Call :=
  plain_call univ3Factory (word (addrWord (addrWord (sel (u32_lit 0x1698ee82)) a) b) (wrap fee)).
Definition quoteCall (amountIn : u256) : Call :=
  plain_call quoterV2
    (word (word (word (addrWord (addrWord (sel (u32_lit 0xc6a5026a)) wavax) usdc) amountIn) (wrap 500)) (wrap 0)).

(** [retWord]: a word of the returned data, zero when it is too short *)
Definition retWord {Log} (r : Result Log) (i : nat) : u256 :=
  if Nat.ltb (length (rs_ReturnData r)) (S i * 32) then wrap 0
  else wrap (be_val (take 32 (drop (i * 32) (rs_ReturnData r)))).

(** ** What is written is read back *)

(** The words of some data. *)
Definition words (vs : list u256) : bytes := vs ≫= λ v, be_bytes 32 (uval v).

Lemma length_words vs : length (words vs) = length vs * 32.
Proof. induction vs as [|v vs IH]; [done|]. unfold words in *. cbn [mbind list_bind]. rewrite length_app, IH, length_be_bytes. cbn. lia. Qed.

Lemma words_snoc vs v : words (vs ++ [v]) = word (words vs) v.
Proof. unfold words, word. rewrite bind_app. cbn. by rewrite app_nil_r. Qed.

(** An address is a word: its bytes are the low ones. *)
Definition addr_word (a : Address) : u256 := wrap (be_val (abytes a)).

Lemma be_val_lead n l : be_val (replicate n u_zero ++ l) = be_val l.
Proof. induction n as [|n IH]; [done|]. cbn [replicate app be_val]. rewrite IH. change (uval u_zero) with 0%Z. lia. Qed.

Lemma addrWord_word dst a : addrWord dst a = word dst (addr_word a).
Proof.
  unfold addrWord, word, addr_word. f_equal. pose proof (be_val_range (abytes a)) as Hr. rewrite length_abytes in Hr.
  assert (256 ^ Z.of_nat 20 < 2 ^ Z.pos 256)%Z by (by vm_compute). rewrite wrap_small by (split; [lia|]; eapply Z.lt_trans; [apply Hr|done]).
  assert (be_val (abytes a) = be_val (replicate 12 u_zero ++ abytes a)) as -> by by rewrite be_val_lead.
  symmetry. apply be_bytes_val. by rewrite length_app, length_replicate, length_abytes.
Qed.

Lemma retWord_words {Log} (vs : list u256) i gas (logs : list Log) er :
  retWord (MkResult (words vs) gas logs er) i = default (wrap 0) (vs !! i).
Proof.
  unfold retWord. cbn [rs_ReturnData]. rewrite length_words. destruct (Nat.ltb_spec (length vs * 32) (S i * 32)) as [Hlt|Hge].
  { by rewrite (lookup_ge_None_2 vs i) by lia. }
  destruct (lookup_lt_is_Some_2 vs i) as [v Hv]; [lia|]. rewrite Hv. cbn.
  rewrite <-(take_drop_middle vs i v Hv) at 1. unfold words at 1. rewrite bind_app. cbn [mbind list_bind].
  rewrite drop_app_length' by (fold (words (take i vs)); rewrite length_words, length_take; lia).
  rewrite take_app_length' by (by rewrite length_be_bytes). rewrite be_val_bytes.
  change (256 ^ Z.of_nat 32)%Z with (2 ^ 256)%Z. rewrite Z.mod_small by apply uint_range. apply wrap_uval.
Qed.

(** The arguments of a call, as its callee decodes them. *)
Definition call_arg (c : Call) (i : nat) : u256 := retWord (Log:=unit) (MkResult (drop 4 (ca_Input c)) u_zero [] None) i.

Lemma call_arg_words to b4 vs i : call_arg (plain_call to (sel b4 ++ words vs)) i = default (wrap 0) (vs !! i).
Proof.
  unfold call_arg. cbn [ca_Input plain_call]. rewrite drop_app_length' by (unfold sel; by rewrite length_be_bytes). apply retWord_words.
Qed.

Lemma call_args (amountIn rIn rOut : u256) (a b : Address) (fee : u64) :
  call_arg (getAmountOutCall amountIn rIn rOut) <$> [0; 1; 2; 3] = [amountIn; rIn; rOut; wrap 0] ∧
  call_arg (getPoolCall a b fee) <$> [0; 1; 2] = [addr_word a; addr_word b; wrap fee] ∧
  call_arg (quoteCall amountIn) <$> [0; 1; 2; 3; 4] = [addr_word wavax; addr_word usdc; amountIn; wrap 500; wrap 0] ∧
  call_arg (balanceOfCall a b) 0 = addr_word b.
Proof.
  assert (∀ to b4 vs input (idx : list nat), input = sel b4 ++ words vs →
    call_arg (plain_call to input) <$> idx = (λ i, default (wrap 0) (vs !! i)) <$> idx) as Hd.
  { intros to b4 vs input idx ->. apply list_fmap_ext. intros. apply call_arg_words. }
  unfold getAmountOutCall, getPoolCall, quoteCall, balanceOfCall. rewrite !addrWord_word. split_and!.
  - rewrite (Hd _ (u32_lit 0x054d50d4) [amountIn; rIn; rOut]); [done|]. unfold word, words. cbn [mbind list_bind]. by rewrite <-!app_assoc, app_nil_r.
  - rewrite (Hd _ (u32_lit 0x1698ee82) [addr_word a; addr_word b; wrap fee]); [done|]. unfold word, words. cbn [mbind list_bind]. by rewrite <-!app_assoc, app_nil_r.
  - rewrite (Hd _ (u32_lit 0xc6a5026a) [addr_word wavax; addr_word usdc; amountIn; wrap 500; wrap 0]); [done|].
    unfold word, words. cbn [mbind list_bind]. by rewrite <-!app_assoc, app_nil_r.
  - etrans; [|apply (call_arg_words a (u32_lit 0x70a08231) [addr_word b] 0)]. by do 2 f_equal.
Qed.
