(* ===== verification/ScanCode.v ===== *)
(** * ScanCode: the scan for missing code

    [MissingCodeHashes] of [store/read.go] returns, without repetition, exactly
    the code hashes an account row of the baseline refers to and no code row
    holds; it is total with fuel above the number of rows. *)

From S2P Require Import Prelude Schema Lmdb Capture World Store StoreRead StoreSpec StoreProof.
From S2P Require Import StoreReads Scans.

Section scan.
Context {env : Type} `{LmdbLaws env} (keccak : bytes → Hash).
Implicit Types (m : gmap bytes bytes) (ch h : Hash).

(** A code hash some baseline account refers to. *)
Definition code_wanted (m : gmap bytes bytes) (ch : Hash) : Prop :=
  ch ≠ arr_zero ∧ ch ≠ keccak [] ∧
  ∃ h x a, m !! key_bytes (KBaseAccount h) = Some x ∧ DecodeAccount x = Ok a ∧ CodeHash a = ch.

Definition missing_ok (m : gmap bytes bytes) (l : list Hash) : Prop :=
  NoDup l ∧ ∀ ch, ch ∈ l ↔ code_wanted m ch ∧ m !! key_bytes (KCode ch) = None.

Record code_inv (m : gmap bytes bytes) (P : bytes → bool) (seen : gset Hash) (missing : list Hash) :
    Prop := {
  ci_nodup : NoDup missing;
  ci_missing ch : ch ∈ missing → ch ∈ seen ∧ code_wanted m ch ∧ m !! key_bytes (KCode ch) = None;
  ci_seen ch : ch ∈ seen → m !! key_bytes (KCode ch) = None → ch ∈ missing;
  ci_cover h x a : m !! key_bytes (KBaseAccount h) = Some x → DecodeAccount x = Ok a →
    code_wanted m (CodeHash a) → P (key_bytes (KBaseAccount h)) = true ∨ CodeHash a ∈ seen;
  ci_cut k : P k = true → ([PrefBaseAccount] ≤ k)%bytes;
  ci_up k k' : P k = true → (k ≤ k')%bytes → P k' = true
}.

(** Behind a row that is no account row there is none. *)
Lemma account_before dk h :
  ([PrefBaseAccount] ≤ key_bytes dk)%bytes → head (key_bytes dk) ≠ Some PrefBaseAccount →
  (key_bytes (KBaseAccount h) < key_bytes dk)%bytes.
Proof.
  rewrite head_key_bytes. intros Hle Hne. apply bytes_lt_not_le. intros Hc.
  destruct dk; try done; exfalso; unfold bytes_le in Hle, Hc; revert Hle Hc; cbn; by intros [].
Qed.

Lemma code_inv_done m P seen missing :
  code_inv m P seen missing →
  (∀ h, is_Some (m !! key_bytes (KBaseAccount h)) → P (key_bytes (KBaseAccount h)) = false) →
  missing_ok m missing.
Proof.
  intros Hi Hend. split; [apply Hi|]. intros ch. split; [intros Hch; by apply (ci_missing _ _ _ _ Hi)|].
  intros [Hw Hn]. apply (ci_seen _ _ _ _ Hi); [|done]. pose proof Hw as (_ & _ & h & x & a & Hx & Ha & <-).
  destruct (ci_cover _ _ _ _ Hi h x a Hx Ha Hw) as [HP|?]; [|done].
  rewrite Hend in HP by (by exists x). done.
Qed.

Lemma code_inv_step m P seen missing h x a seen' missing' :
  code_inv m P seen missing → first_key m P = Some (key_bytes (KBaseAccount h), x) →
  DecodeAccount x = Ok a →
  seen ⊆ seen' → (code_wanted m (CodeHash a) → CodeHash a ∈ seen') →
  (∀ ch, ch ∈ missing' → ch ∈ seen' ∧ code_wanted m ch ∧ m !! key_bytes (KCode ch) = None) →
  (∀ ch, ch ∈ seen' → m !! key_bytes (KCode ch) = None → ch ∈ missing') → NoDup missing' →
  code_inv m (key_gt (key_bytes (KBaseAccount h))) seen' missing'.
Proof.
  intros Hi (Hx & HP & Hmin)%first_key_Some Ha Hsub Hnew Hm Hs Hnd. split; try done.
  - intros h' x' a' Hx' Ha' Hw. destruct (decide (h' = h)) as [->|Hne]; [right; rewrite Hx in Hx'; injection Hx' as <-; rewrite Ha in Ha'; injection Ha' as <-; by apply Hnew|].
    destruct (ci_cover _ _ _ _ Hi h' x' a' Hx' Ha' Hw) as [HP'|?]; [left|right; by apply Hsub].
    apply key_gt_true. pose proof (Hmin _ _ Hx' HP') as Hle. apply bytes_le_lteq in Hle as [?|Heq]; [done|].
    apply key_bytes_inj in Heq. congruence.
  - intros k Hk%key_gt_true. eapply bytes_le_trans; [exact (ci_cut _ _ _ _ Hi _ HP)|].
    apply bytes_le_lteq. by left.
  - intros k k' Hk%key_gt_true Hle. apply key_gt_true. by eapply bytes_lt_le_trans.
Qed.

Lemma code_scan_upto e fuel P kv seen missing :
  wf_db (contents e) → code_inv (contents e) P seen missing → ahead (contents e) P < fuel →
  kv = lres_of (first_key (contents e) P) ∨ faults ∧ (∃ c, kv = LErr c) →
  ∃ l, upto_faults (code_scan keccak fuel e kv seen missing) (Ok l) ∧ missing_ok (contents e) l.
Proof.
  intros Hwf. revert P kv seen missing.
  induction fuel as [|fuel IH]; intros P kv seen missing Hi Hfuel Hkv; [lia|]. cbn [code_scan].
  destruct (first_key (contents e) P) as [[k v]|] eqn:Ek; cycle 1.
  { exists missing. split; [destruct Hkv as [->|[? [c ->]]]; [by left|right; by eauto]|].
    eapply code_inv_done; [done|]. intros h [x Hx]. by apply (proj1 (first_key_None _ _) Ek) in Hx. }
  pose proof Ek as (Hk & HP & Hmin)%first_key_Some. destruct (Hwf k v Hk) as (dk & -> & Hrow).
  destruct (decide (head (key_bytes dk) = Some PrefBaseAccount)) as [Hh|Hh]; cycle 1.
  { exists missing. split.
    - destruct Hkv as [->|[? [c ->]]]; [left|right; by eauto]. cbn [lres_of].
      rewrite (bool_decide_eq_false_2 _ Hh), orb_true_r. done.
    - eapply code_inv_done; [done|]. intros h [x Hx]. apply not_true_iff_false. intros HP'.
      pose proof (Hmin _ _ Hx HP') as Hle. pose proof (account_before dk h (ci_cut _ _ _ _ Hi _ HP) Hh) as Hlt.
      by apply bytes_lt_not_le in Hlt. }
  assert (∃ h, dk = KBaseAccount h) as [h ->].
  { rewrite head_key_bytes in Hh. destruct dk; try done. by eexists. }
  destruct (DecodeAccount v) as [a|] eqn:Ea; cycle 1.
  { unfold DecodeAccount in Ea. cbn in Hrow. by rewrite Hrow in Ea. }
  pose proof (ahead_decreases _ _ _ _ (ci_up _ _ _ _ Hi) Ek) as Hdec.
  assert (∀ seen' missing', code_inv (contents e) (key_gt (key_bytes (KBaseAccount h))) seen' missing' →
    ∃ l, upto_faults (code_scan keccak fuel e (mdb_next e (key_bytes (KBaseAccount h))) seen' missing') (Ok l) ∧
      missing_ok (contents e) l) as Hgo.
  { intros seen' missing' Hi'. apply (IH _ _ _ _ Hi'); [lia|apply next_law]. }
  assert (∃ l, upto_faults
      (if bool_decide (CodeHash a = arr_zero ∨ CodeHash a = keccak []) || bool_decide (CodeHash a ∈ seen)
       then code_scan keccak fuel e (mdb_next e (key_bytes (KBaseAccount h))) seen missing
       else match mdb_get e (AppendCodeKey [] (CodeHash a)) with
            | LOk _ => code_scan keccak fuel e (mdb_next e (key_bytes (KBaseAccount h))) ({[CodeHash a]} ∪ seen) missing
            | LErr c => Err (ErrLmdb c)
            | LNotFound => code_scan keccak fuel e (mdb_next e (key_bytes (KBaseAccount h)))
                             ({[CodeHash a]} ∪ seen) (missing ++ [CodeHash a])
            end) (Ok l) ∧ missing_ok (contents e) l) as (l & Hl & Hok).
  { destruct (bool_decide _ || bool_decide _) eqn:Eskip.
    - apply Hgo. eapply code_inv_step; [done..| |apply Hi|apply Hi|apply Hi]. intros (Hz & He & _).
      apply orb_true_iff in Eskip as [[?|?]%bool_decide_eq_true|?%bool_decide_eq_true]; done.
    - apply orb_false_iff in Eskip as [Hne%bool_decide_eq_false Hns%bool_decide_eq_false].
      assert (code_wanted (contents e) (CodeHash a)) as Hw.
      { split_and!; [by intros ?; apply Hne; left|by intros ?; apply Hne; right|]. by exists h, v, a. }
      change (AppendCodeKey [] (CodeHash a)) with (key_bytes (KCode (CodeHash a))).
      destruct (contents e !! key_bytes (KCode (CodeHash a))) as [c|] eqn:Ec.
      + destruct (Hgo ({[CodeHash a]} ∪ seen) missing) as (l & Hl & Hok).
        { eapply code_inv_step; [done..|set_solver|set_solver| | |apply Hi].
          - intros ch Hch. destruct (ci_missing _ _ _ _ Hi ch Hch) as (? & ? & ?). split_and!; [set_solver|done..].
          - intros ch [->%elem_of_singleton|Hch]%elem_of_union Hn; [congruence|]. by apply (ci_seen _ _ _ _ Hi). }
        exists l. split; [|done]. destruct (get_law e (key_bytes (KCode (CodeHash a)))) as [->|[? [c' ->]]];
          [by rewrite Ec|right; by eauto].
      + destruct (Hgo ({[CodeHash a]} ∪ seen) (missing ++ [CodeHash a])) as (l & Hl & Hok).
        { eapply code_inv_step; [done..|set_solver|set_solver| | |].
          - intros ch [Hch| ->%list_elem_of_singleton]%elem_of_app; [|split_and!; [set_solver|done..]].
            destruct (ci_missing _ _ _ _ Hi ch Hch) as (? & ? & ?). split_and!; [set_solver|done..].
          - intros ch [->%elem_of_singleton|Hch]%elem_of_union Hn; apply elem_of_app; [right; by apply list_elem_of_singleton|left].
            by apply (ci_seen _ _ _ _ Hi).
          - apply NoDup_app. split_and!; [apply Hi| |apply NoDup_singleton].
            intros ch Hch ->%list_elem_of_singleton. by apply (ci_missing _ _ _ _ Hi) in Hch as [? _]. }
        exists l. split; [|done]. destruct (get_law e (key_bytes (KCode (CodeHash a)))) as [->|[? [c' ->]]];
          [by rewrite Ec|right; by eauto]. }
  exists l. split; [|done]. destruct Hkv as [->|[? [c ->]]]; [|right; by eauto].
  cbn [lres_of]. rewrite length_key_bytes, (bool_decide_eq_true_2 _ Hh).
  cbn [key_len Nat.eqb negb orb BaseAccountKeyLen Nat.add]. rewrite Ea. exact Hl.
Qed.

Lemma MissingCodeHashes_upto fuel (d : DB env) :
  wf_db (rows d) → size (rows d) < fuel →
  ∃ l, upto_faults (MissingCodeHashes keccak fuel d) (Ok l) ∧ missing_ok (rows d) l.
Proof.
  intros Hwf Hfuel.
  destruct (code_scan_upto (db_env d) fuel (key_ge [PrefBaseAccount])
    (mdb_set_range (db_env d) [PrefBaseAccount]) ∅ [] Hwf) as (l & Hl & Hok).
  - split; [constructor|by intros ch ?%elem_of_nil|set_solver|..].
    + intros h x a _ _ _. left. apply key_ge_true. unfold bytes_le. cbn. by destruct (abytes h).
    + by intros k Hk%key_ge_true.
    + intros k k' Hk%key_ge_true Hle. apply key_ge_true. by eapply bytes_le_trans.
  - unfold ahead. eapply Nat.le_lt_trans; [|done]. apply map_size_filter.
  - apply set_range_law.
  - exists l. split; [|done]. by apply View_upto.
Qed.
End scan.
