(* ===== verification/SyncKeys.v ===== *)
(** * SyncKeys: key arithmetic of the state sync

    [incKey], [truncateAt] and [splitRange] of [follower/sync/sync.go]: the
    successor of a fixed-width key, the local truncation of a leaf response at the
    end of a range, and the division of the rest of a key space into contiguous
    ranges.  Keys of one length are compared as big-endian numbers, so the loops
    are measured against arithmetic. *)

From Stdlib Require Export Sorted.
From S2P Require Import Prelude Schema.

(** ** The functions *)

(** The loop of [incKey] below index [i]; [None] is the nil slice. *)
Fixpoint inc_loop (next : bytes) (i : nat) : option bytes :=
  match i with
  | O => None
  | S i' =>
      let b := u_add (next !!! i') (byte_lit 1) in
      let next := <[i':=b]> next in
      if decide (uval b = 0%Z) then inc_loop next i' else Some next
  end.

Definition incKey (key : bytes) : option bytes := inc_loop key (length key).

(** The fields of [message.LeafsResponse] the loader reads. *)
Record LeafsResponse := MkLeafsResponse { Keys : list bytes; Vals : list bytes; More : bool }.

(** The loop of [truncateAt], from the last key down; it returns [i+1]. *)
Fixpoint trunc_loop (keys : list bytes) (end_ : bytes) (i : nat) (done : bool) : nat * bool :=
  match i with
  | O => (O, done)
  | S i' =>
      match bytes_cmp (keys !!! i') end_ with
      | Gt => trunc_loop keys end_ i' true
      | _ => (S i', done)
      end
  end.

Definition truncateAt (resp : LeafsResponse) (end_ : option bytes) : LeafsResponse * bool :=
  if Nat.eqb (length (default [] end_)) 0 || Nat.eqb (length (Keys resp)) 0 then (resp, false)
  else
    let r := trunc_loop (Keys resp) (default [] end_) (length (Keys resp)) false in
    (MkLeafsResponse (take r.1 (Keys resp)) (take r.1 (Vals resp)) (More resp), r.2).

(** A key range, both ends included; an absent end is open. *)
Abbreviation krange := (bytes * option bytes)%type.

(** [pad]: a slice of the key width; a wider number indexes out of range. *)
Definition split_pad (width : nat) (v : Z) : result bytes :=
  if decide (v < 256 ^ Z.of_nat width)%Z then Ok (be_bytes width v) else Err (ErrMsg "panic").

(** The loop of [splitRange], with [left] ranges still to be made. *)
Fixpoint split_loop (width : nat) (step cur : Z) (left : nat) : result (list krange) :=
  match left with
  | O => Ok []
  | S O => let! c := split_pad width cur in Ok [(c, None)]
  | S left' =>
      let! e := split_pad width (cur + step) in
      let! c := split_pad width cur in
      let! rest := split_loop width step (cur + step + 1) left' in
      Ok ((c, Some e) :: rest)
  end.

Definition splitRange (from : bytes) (n : Z) : result (list krange) :=
  let lo := be_val from in
  let hi := (2 ^ (Z.of_nat (length from) * 8) - 1)%Z in
  let span := (hi - lo)%Z in
  if (span <=? 0)%Z || (n <=? 1)%Z then Ok [(from, None)]
  else
    let step := (span / n)%Z in
    if (step =? 0)%Z then Ok [(from, None)]
    else split_loop (length from) step lo (Z.to_nat n).

(** ** Keys as numbers *)

Lemma bytes_lt_val a b :
  length a = length b → (a < b)%bytes ↔ (be_val a < be_val b)%Z.
Proof.
  intros Hl. unfold bytes_lt. rewrite bytes_cmp_val by done. apply Z.compare_lt_iff.
Qed.

Lemma bytes_le_val a b :
  length a = length b → (a ≤ b)%bytes ↔ (be_val a ≤ be_val b)%Z.
Proof.
  intros Hl. unfold bytes_le. rewrite bytes_cmp_val by done. rewrite Z.compare_ngt_iff. lia.
Qed.

Lemma be_val_inj a b : length a = length b → be_val a = be_val b → a = b.
Proof.
  intros Hl Hv. rewrite <-(be_bytes_val (length a) a), <-(be_bytes_val (length a) b) by done.
  by rewrite Hv.
Qed.

Lemma be_val_app a b :
  (be_val (a ++ b) = be_val a * 256 ^ Z.of_nat (length b) + be_val b)%Z.
Proof.
  induction a as [|x a IH]; [done|]. cbn [app be_val]. rewrite IH, length_app, Nat2Z.inj_add, Z.pow_add_r by lia.
  lia.
Qed.

Lemma be_val_zeros n : be_val (replicate n (byte_lit 0)) = 0%Z.
Proof. induction n as [|n IH]; [done|]. cbn [replicate be_val uval]. lia. Qed.

Lemma be_val_ff n : be_val (replicate n (byte_lit 255)) = (256 ^ Z.of_nat n - 1)%Z.
Proof.
  induction n as [|n IH]; [done|].
  cbn [replicate be_val uval]. rewrite IH, length_replicate, pow256_S. lia.
Qed.

(** ** [incKey] *)

Lemma u_add_1_cases (x : byte) :
  (x = byte_lit 255 ∧ u_add x (byte_lit 1) = byte_lit 0) ∨
  ((x < 255)%Z ∧ uval (u_add x (byte_lit 1)) = (x + 1)%Z).
Proof.
  pose proof (uint_range x). destruct (decide (uval x = 255%Z)) as [He|Hne].
  - left. split; apply uint_eq; [done|]. unfold u_add. rewrite uval_wrap, He. done.
  - right. split; [lia|]. unfold u_add. rewrite wrap_small; cbn [uval]; lia.
Qed.

(** The loop works on a prefix of the key; behind it are zeros. *)
Lemma inc_loop_spec (l : bytes) (n : nat) :
  match inc_loop (l ++ replicate n (byte_lit 0)) (length l) with
  | Some next =>
      length next = length l + n ∧
      be_val next = ((be_val l + 1) * 256 ^ Z.of_nat n)%Z
  | None => l = replicate (length l) (byte_lit 255)
  end.
Proof.
  revert n. induction l as [|x l IH] using rev_ind; intros n; [done|].
  rewrite length_app, Nat.add_1_r. cbn [inc_loop].
  rewrite <-app_assoc. cbn [app].
  rewrite (list_lookup_total_middle l (replicate n (byte_lit 0)) x (length l)) by done.
  rewrite insert_app_r_alt, Nat.sub_diag by lia. cbn [insert list_insert].
  destruct (u_add_1_cases x) as [[-> ->]|[Hx Hu]].
  - rewrite decide_True by done. specialize (IH (S n)). cbn [replicate] in IH.
    destruct (inc_loop _ _) as [next|].
    + destruct IH as [Hlen Hval]. split; [lia|]. rewrite Hval, be_val_app, pow256_S.
      cbn [be_val length uval]. change (Z.of_nat 1) with 1%Z. change (Z.of_nat 0) with 0%Z. nia.
    + rewrite IH at 1. rewrite <-replicate_S_end. f_equal. 
  - pose proof (uint_range x). rewrite decide_False by lia. split; [len_solve|].
    rewrite be_val_app. cbn [be_val length]. rewrite be_val_app, be_val_zeros, length_replicate, Hu.
    cbn [be_val length]. change (Z.of_nat 1) with 1%Z. change (Z.of_nat 0) with 0%Z.
    rewrite pow256_S. nia.
Qed.

Lemma incKey_spec key :
  match incKey key with
  | Some next => length next = length key ∧ be_val next = (be_val key + 1)%Z
  | None => be_val key = (256 ^ Z.of_nat (length key) - 1)%Z
  end.
Proof.
  unfold incKey. pose proof (inc_loop_spec key 0) as H. cbn [replicate] in H. rewrite app_nil_r in H.
  destruct (inc_loop key (length key)) as [next|].
  - destruct H as [-> Hv]. split; [lia|]. change (Z.of_nat 0) with 0%Z in Hv. lia.
  - rewrite H at 1. apply be_val_ff.
Qed.

(** The successor in the order of keys of that length. *)
Lemma incKey_next key next x :
  incKey key = Some next → length x = length key → (key < x)%bytes ↔ (next ≤ x)%bytes.
Proof.
  intros He Hx. pose proof (incKey_spec key) as H. rewrite He in H. destruct H as [Hl Hv].
  rewrite bytes_lt_val, bytes_le_val by congruence. lia.
Qed.

Lemma incKey_last key x : incKey key = None → length x = length key → (x ≤ key)%bytes.
Proof.
  intros He Hx. pose proof (incKey_spec key) as H. rewrite He in H.
  rewrite bytes_le_val by done. pose proof (be_val_range x) as Hr. rewrite Hx in Hr. lia.
Qed.

Lemma incKey_length key next : incKey key = Some next → length next = length key.
Proof. intros He. pose proof (incKey_spec key) as H. rewrite He in H. apply H. Qed.

(** ** [truncateAt] *)

Lemma trunc_loop_spec keys end_ i done :
  let r := trunc_loop keys end_ i done in
  r.1 ≤ i ∧ r.2 = done || negb (Nat.eqb r.1 i) ∧
  (∀ j, r.1 ≤ j < i → (end_ < keys !!! j)%bytes) ∧
  (∀ j, r.1 = S j → (keys !!! j ≤ end_)%bytes).
Proof.
  revert done. induction i as [|i IH]; intros done; cbn [trunc_loop].
  { cbn. split_and!; [done|by rewrite orb_false_r|lia|done]. }
  destruct (bytes_cmp (keys !!! i) end_) eqn:Hc; cbv zeta.
  1, 2: cbn [fst snd]; rewrite Nat.eqb_refl, orb_false_r; split_and!; [done|done|lia|];
    intros j [= <-]; unfold bytes_le; by rewrite Hc.
  specialize (IH true). cbv zeta in IH. destruct IH as (Hle & Hd & Hgt & Hbnd).
  split_and!; [lia| | |done].
  - rewrite Hd. symmetry. cbn. rewrite (proj2 (Nat.eqb_neq _ _)) by lia. apply orb_true_r.
  - intros j Hj. destruct (decide (j = i)) as [->|]; [|apply Hgt; lia].
    unfold bytes_lt. by rewrite bytes_cmp_antisym, Hc.
Qed.

Lemma sorted_lt_lookup (l : list bytes) i j x y :
  StronglySorted bytes_lt l → l !! i = Some x → l !! j = Some y → i < j → (x < y)%bytes.
Proof.
  intros Hs. revert i j. induction Hs as [|a l _ IH Hall]; intros i j Hi Hj Hlt; [done|].
  destruct i as [|i], j as [|j]; [lia| |lia|]; simplify_eq/=.
  - rewrite Forall_forall in Hall. apply Hall. by eapply list_elem_of_lookup_2.
  - eapply IH; [done..|lia].
Qed.

(** Of an ascending response, exactly the keys up to the bound are kept, with
    their values, and the result says whether any was dropped. *)
Lemma truncateAt_spec resp end_ :
  StronglySorted bytes_lt (Keys resp) → end_ ≠ Some [] → length (Vals resp) = length (Keys resp) →
  ∃ n, (truncateAt resp end_).1 = MkLeafsResponse (take n (Keys resp)) (take n (Vals resp)) (More resp) ∧
    n ≤ length (Keys resp) ∧
    (truncateAt resp end_).2 = bool_decide (n < length (Keys resp)) ∧
    match end_ with
    | None => n = length (Keys resp)
    | Some e => ∀ i k, Keys resp !! i = Some k → (k ≤ e)%bytes ↔ i < n
    end.
Proof.
  intros Hs He Hl. destruct resp as [ks vs mo]. cbn [Keys Vals More] in *. unfold truncateAt.
  cbn [Keys Vals More].
  destruct end_ as [e|]; cbn [from_option id length Nat.eqb orb]; cycle 1.
  { exists (length ks). rewrite !take_ge by lia. split_and!; [done..| |done].
    symmetry. apply bool_decide_eq_false. cbn. lia. }
  assert (Nat.eqb (length e) 0 = false) as -> by (destruct e; done). cbn [orb].
  destruct (Nat.eqb_spec (length ks) 0) as [->%nil_length_inv|Hne].
  { exists 0. split_and!; [destruct vs; done|done|done|]. by intros i k. }
  pose proof (trunc_loop_spec ks e (length ks) false) as Ht. cbv zeta in Ht.
  destruct (trunc_loop ks e (length ks) false) as [n d]. cbn [fst snd] in *.
  destruct Ht as (Hn & -> & Hgt & Hle). exists n. split_and!; [done|done| |].
  { cbn [orb]. destruct (Nat.eqb_spec n (length ks)); symmetry; case_bool_decide; done || lia. }
  intros i k Hk. split.
  - intros Hke. destruct (decide (i < n)) as [?|Hge]; [done|]. exfalso.
    pose proof (lookup_lt_Some _ _ _ Hk). specialize (Hgt i ltac:(lia)).
    rewrite (list_lookup_total_correct _ _ _ Hk), bytes_lt_not_le in Hgt. done.
  - intros Hi. destruct n as [|n]; [lia|]. specialize (Hle n eq_refl).
    destruct (lookup_lt_is_Some_2 ks n ltac:(lia)) as [y Hy].
    rewrite (list_lookup_total_correct _ _ _ Hy) in Hle.
    destruct (decide (i = n)) as [->|]; [by simplify_eq|].
    eapply bytes_le_trans; [|exact Hle]. apply bytes_le_lteq. left.
    eapply (sorted_lt_lookup ks i n); [done..|lia].
Qed.

(** ** [splitRange] *)

(** The keys of a range. *)
Definition in_range (r : krange) (x : bytes) : Prop :=
  (r.1 ≤ x)%bytes ∧ match r.2 with Some e => (x ≤ e)%bytes | None => True end.

#[export] Instance in_range_dec r x : Decision (in_range r x).
Proof. unfold in_range. destruct (r.2); apply _. Defined.

(** The ranges follow one another from [from] on without gap or overlap, the
    last one open, all of the width of [from]. *)
Fixpoint contiguous (from : bytes) (rs : list krange) : Prop :=
  match rs with
  | [] => False
  | [(lo, None)] => lo = from
  | (lo, Some hi) :: rs' =>
      lo = from ∧ (lo ≤ hi)%bytes ∧ length hi = length from ∧
      ∃ next, incKey hi = Some next ∧ contiguous next rs'
  | (_, None) :: _ :: _ => False
  end.

Lemma split_pad_ok width v :
  (0 ≤ v < 256 ^ Z.of_nat width)%Z →
  split_pad width v = Ok (be_bytes width v) ∧ be_val (be_bytes width v) = v.
Proof.
  intros Hv. unfold split_pad. rewrite decide_True by lia. split; [done|].
  rewrite be_val_bytes. by apply Z.mod_small.
Qed.

Lemma incKey_be_bytes width v :
  (0 ≤ v)%Z → (v + 1 < 256 ^ Z.of_nat width)%Z →
  incKey (be_bytes width v) = Some (be_bytes width (v + 1)).
Proof.
  intros H0 Hv. pose proof (incKey_spec (be_bytes width v)) as H.
  rewrite length_be_bytes, be_val_bytes, Z.mod_small in H by lia.
  destruct (incKey _) as [next|]; [|lia]. destruct H as [Hl Hn]. f_equal.
  apply be_val_inj; [by rewrite length_be_bytes|]. rewrite be_val_bytes, Z.mod_small by lia. done.
Qed.

Lemma split_loop_ok width step cur n :
  (0 ≤ cur)%Z → (0 ≤ step)%Z → (cur + Z.of_nat n * (step + 1) < 256 ^ Z.of_nat width)%Z →
  ∃ rs, split_loop width step cur (S n) = Ok rs ∧ length rs = S n ∧
    contiguous (be_bytes width cur) rs.
Proof.
  revert cur. induction n as [|n IH]; intros cur Hc Hs Hb.
  { exists [(be_bytes width cur, None)]. split_and!; [|done|done].
    cbn [split_loop]. by rewrite (proj1 (split_pad_ok width cur ltac:(lia))). }
  destruct (IH (cur + step + 1)%Z) as (rs & Hrs & Hl & Hct); [lia..|].
  exists ((be_bytes width cur, Some (be_bytes width (cur + step))) :: rs).
  change (split_loop width step cur (S (S n))) with
    (let! e := split_pad width (cur + step) in let! c := split_pad width cur in
     let! rest := split_loop width step (cur + step + 1) (S n) in Ok ((c, Some e) :: rest)).
  rewrite (proj1 (split_pad_ok width (cur + step) ltac:(lia))),
    (proj1 (split_pad_ok width cur ltac:(lia))), Hrs. cbn [rbind].
  split_and!; [done|cbn; lia|]. cbn [contiguous]. split_and!; [done| |by rewrite !length_be_bytes|].
  - rewrite bytes_le_val, !be_val_bytes, !Z.mod_small by (rewrite ?length_be_bytes; done || lia). lia.
  - exists (be_bytes width (cur + step + 1)). split; [|done]. apply incKey_be_bytes; lia.
Qed.

Lemma pow_256 (n : nat) : (2 ^ (Z.of_nat n * 8) = 256 ^ Z.of_nat n)%Z.
Proof. rewrite Z.mul_comm, Z.pow_mul_r by lia. done. Qed.

(** Where the ranges of [splitRange] start and whether the last one fits. *)
Definition split_fits (from : bytes) (n : Z) : Prop :=
  let span := (256 ^ Z.of_nat (length from) - 1 - be_val from)%Z in
  (1 < n)%Z → (n ≤ span)%Z → ((n - 1) * (span / n + 1) ≤ span)%Z.

Lemma splitRange_contiguous from n :
  split_fits from n → ∃ rs, splitRange from n = Ok rs ∧ contiguous from rs.
Proof.
  unfold splitRange, split_fits. rewrite pow_256. set (span := (_ - _)%Z). intros Hfit.
  destruct (Z.leb_spec span 0) as [?|Hsp]; [by exists [(from, None)]|].
  destruct (Z.leb_spec n 1) as [?|Hn]; [by exists [(from, None)]|]. cbn [orb].
  destruct (Z.eqb_spec (span / n) 0) as [?|Hst]; [by exists [(from, None)]|].
  assert (n ≤ span)%Z as Hns.
  { destruct (decide (n ≤ span)%Z); [done|]. rewrite Z.div_small in Hst by lia. done. }
  specialize (Hfit ltac:(lia) Hns). pose proof (Z.div_pos span n ltac:(lia) ltac:(lia)).
  pose proof (be_val_range from).
  destruct (split_loop_ok (length from) (span / n) (be_val from) (Z.to_nat n - 1)) as (rs & Hrs & _ & Hct);
    [lia|lia| |].
  { replace (Z.of_nat (Z.to_nat n - 1)) with (n - 1)%Z by lia. unfold span in Hfit at 2. lia. }
  replace (S (Z.to_nat n - 1)) with (Z.to_nat n) in Hrs by lia. exists rs. split; [done|].
  by rewrite be_bytes_val in Hct.
Qed.

(** A width of [n] ranges fits when the space left is at least [n * n]. *)
Lemma split_fits_wide from n :
  (n * n ≤ 256 ^ Z.of_nat (length from) - 1 - be_val from)%Z → split_fits from n.
Proof.
  unfold split_fits. set (span := (_ - _)%Z). intros Hw Hn Hs.
  pose proof (Z.mul_div_le span n ltac:(lia)).
  assert (n ≤ span / n)%Z by (apply Z.div_le_lower_bound; lia). nia.
Qed.

(** Contiguous ranges cover the keys from [from] on, each by one range. *)
Lemma contiguous_lengths from rs r :
  contiguous from rs → r ∈ rs →
  length r.1 = length from ∧ (from ≤ r.1)%bytes ∧
  match r.2 with Some e => length e = length from | None => True end.
Proof.
  revert from. induction rs as [|[lo [hi|]] rs IH]; intros from Hc Hr; [by apply elem_of_nil in Hr| |].
  - cbn [contiguous] in Hc. destruct Hc as (-> & Hlh & Hlen & next & Hn & Hc).
    apply elem_of_cons in Hr as [->|Hr]; [cbn; by split_and!; auto with flat|].
    destruct (IH _ Hc Hr) as (-> & Hle & He). pose proof (incKey_length _ _ Hn) as Hnl.
    rewrite Hnl, Hlen in *. split_and!; [done| |done].
    eapply bytes_le_trans; [|exact Hle]. eapply bytes_le_trans; [exact Hlh|].
    apply bytes_le_lteq. left. apply (incKey_next hi next next Hn); [congruence|apply bytes_le_refl].
  - destruct rs; [|done]. cbn [contiguous] in Hc. subst lo.
    apply list_elem_of_singleton in Hr as ->. cbn. auto with flat.
Qed.

Lemma contiguous_cover from rs x :
  contiguous from rs → length x = length from →
  (from ≤ x)%bytes ↔ ∃ r, r ∈ rs ∧ in_range r x.
Proof.
  intros Hc Hx. split; cycle 1.
  { intros (r & Hr & Hlo & _). destruct (contiguous_lengths _ _ _ Hc Hr) as (_ & Hf & _).
    by eapply bytes_le_trans. }
  revert from Hc Hx. induction rs as [|[lo [hi|]] rs IH]; intros from Hc Hx Hle; [done| |].
  - cbn [contiguous] in Hc. destruct Hc as (-> & Hlh & Hlen & next & Hn & Hc).
    destruct (decide (x ≤ hi)%bytes) as [Hxh|Hxh%bytes_lt_not_le].
    { exists (from, Some hi). split; [left|by split]. }
    apply (incKey_next hi next x Hn) in Hxh; [|congruence].
    pose proof (incKey_length _ _ Hn) as Hnl.
    destruct (IH next Hc ltac:(congruence) Hxh) as (r & Hr & Hin). exists r. split; [by right|done].
  - destruct rs; [|done]. cbn [contiguous] in Hc. subst lo. exists (from, None). split; [left|by split].
Qed.

Lemma contiguous_disjoint from rs i j r r' x :
  contiguous from rs → rs !! i = Some r → rs !! j = Some r' → i < j → length x = length from →
  in_range r x → in_range r' x → False.
Proof.
  revert from i j. induction rs as [|[lo [hi|]] rs IH]; intros from i j Hc Hi Hj Hlt Hx Hin Hin'; [done| |].
  - cbn [contiguous] in Hc. destruct Hc as (-> & Hlh & Hlen & next & Hn & Hc).
    pose proof (incKey_length _ _ Hn) as Hnl.
    destruct j as [|j]; [lia|]. destruct i as [|i]; simplify_eq/=; [|by eapply (IH next i j); eauto with lia; congruence].
    apply list_elem_of_lookup_2 in Hj. destruct (contiguous_lengths _ _ _ Hc Hj) as (_ & Hf & _).
    destruct Hin as [_ Hxh], Hin' as [Hrx _]. cbn in Hxh.
    assert (next ≤ x)%bytes as Hnx by (by eapply bytes_le_trans).
    apply (incKey_next hi next x Hn) in Hnx; [|congruence]. by apply bytes_lt_not_le in Hnx.
  - destruct rs; [|done]. destruct j; [lia|done].
Qed.

(** A split that does not fail is contiguous. *)
Lemma split_loop_Ok width step cur n rs :
  (0 ≤ cur)%Z → (0 ≤ step)%Z → split_loop width step cur (S n) = Ok rs →
  contiguous (be_bytes width cur) rs ∧ (cur < 256 ^ Z.of_nat width)%Z.
Proof.
  assert (∀ v b, split_pad width v = Ok b → b = be_bytes width v ∧ (v < 256 ^ Z.of_nat width)%Z) as Hpad.
  { intros v b. unfold split_pad. destruct (decide _); [|done]. by intros [= <-]. }
  revert cur rs. induction n as [|n IH]; intros cur rs Hc Hs.
  - cbn [split_loop]. destruct (split_pad width cur) as [c|] eqn:Ep; cbn [rbind]; [|done]. intros [= <-].
    by apply Hpad in Ep as [-> ?].
  - change (split_loop width step cur (S (S n))) with
      (let! e := split_pad width (cur + step) in let! c := split_pad width cur in
       let! rest := split_loop width step (cur + step + 1) (S n) in Ok ((c, Some e) :: rest)).
    destruct (split_pad width (cur + step)) as [e|] eqn:Ee; cbn [rbind]; [|done].
    destruct (split_pad width cur) as [c|] eqn:Ec; cbn [rbind]; [|done].
    destruct (split_loop width step (cur + step + 1) (S n)) as [rest|] eqn:Er; cbn [rbind]; [|done].
    intros [= <-]. apply Hpad in Ee as [-> He], Ec as [-> Hcur].
    destruct (IH (cur + step + 1)%Z rest) as [Hrest Hlt]; [lia|lia|done|]. split; [|done].
    cbn [contiguous]. split_and!; [done| |by rewrite !length_be_bytes|].
    + rewrite bytes_le_val, !be_val_bytes, !Z.mod_small by (rewrite ?length_be_bytes; done || lia). lia.
    + exists (be_bytes width (cur + step + 1)). split; [|done]. apply incKey_be_bytes; lia.
Qed.

Lemma splitRange_Ok from n rs : splitRange from n = Ok rs → contiguous from rs.
Proof.
  unfold splitRange. rewrite pow_256. set (span := (_ - _)%Z).
  destruct ((span <=? 0)%Z || (n <=? 1)%Z) eqn:E1; [by intros [= <-]|].
  apply orb_false_iff in E1 as [Hsp%Z.leb_nle Hn%Z.leb_nle].
  destruct (Z.eqb_spec (span / n) 0) as [?|Hst]; [by intros [= <-]|].
  replace (Z.to_nat n) with (S (Z.to_nat n - 1)) by lia. intros Hs.
  pose proof (Z.div_pos span n ltac:(lia) ltac:(lia)). pose proof (be_val_range from).
  apply split_loop_Ok in Hs as [Hct _]; [|lia|lia]. by rewrite be_bytes_val in Hct.
Qed.

Lemma splitRange_panic from n e : splitRange from n = Err e → e = ErrMsg "panic".
Proof.
  assert (∀ width v e, split_pad width v = Err e → e = ErrMsg "panic") as Hpad.
  { intros width v e'. unfold split_pad. destruct (decide _); [done|]. by intros [= <-]. }
  assert (∀ width step left cur e, split_loop width step cur left = Err e → e = ErrMsg "panic") as Hloop.
  { intros width step left. induction left as [|[|left] IH]; intros cur e'; [done|cbn [split_loop]..].
    - destruct (split_pad width cur) eqn:Ep; cbn [rbind]; [done|]. intros [= <-]. by eapply Hpad.
    - destruct (split_pad width (cur + step)) eqn:Ep; cbn [rbind]; [|intros [= <-]; by eapply Hpad].
      destruct (split_pad width cur) eqn:Ec; cbn [rbind]; [|intros [= <-]; by eapply Hpad].
      specialize (IH (cur + step + 1)%Z).
      change (match left with 0 => _ | _ => _ end) with (split_loop width step (cur + step + 1) (S left)).
      destruct (split_loop width step (cur + step + 1) (S left)); cbn [rbind]; [done|].
      intros [= <-]. by apply IH. }
  unfold splitRange. destruct (_ || _); [done|]. destruct (_ =? 0)%Z; [done|]. apply Hloop.
Qed.
