(* ===== verification/Sync.v ===== *)
(** * Sync: the concurrent state sync into the baseline

    Models [follower/sync/sync.go].  A goroutine is a program ([prog]) over the
    operations it shares with the others: leaf and code requests, the claim of a
    code hash, the send to the writer's channel, the two reads of the database and
    the fork and join of an error group.  The system ([sys]) holds the database,
    the baseline loader with its writer goroutine, the channel and the phase of
    [Run]; [sys_next] is one step of it under a scheduler's choice, so that a list
    of choices is one interleaving of all goroutines.

    The sync client (leaf and code requests, verified against the root) and rlp
    are not part of the repository: they are arguments.  The client is indexed by
    the number of the request, so that it may answer the same request differently
    at different times, or fail. *)

From S2P Require Import Prelude Schema Lmdb Capture World Store StoreRead StoreSpec StoreProof.
From S2P Require Import StoreReads StoreWrites Loader Scans SyncKeys.

(** ** Data *)

(** What the loader sets in a [message.LeafsRequest]: the root, the account
    (zero for the account trie) and the start key; the end is always nil and the
    limit always [leafLimit]. *)
Record LeafsRequest := MkLeafsRequest { lr_Root : Hash; lr_Account : Hash; lr_Start : option bytes }.

Definition leafLimit : nat := 1024.
Definition scanBatch : Z := 4096.

(** [Client]; the first argument is the number of the request. *)
Record Client := MkClient {
  cl_GetLeafs : nat → LeafsRequest → result LeafsResponse;
  cl_GetCode : nat → list Hash → result (list bytes)
}.

(** [types.StateAccount] as decoded from a leaf of the account trie. *)
Record LeafAccount := MkLeafAccount {
  la_Nonce : u64;
  la_Balance : option u256;
  la_Root : Hash;
  la_CodeHash : bytes
}.

(** The package variables and [Config.Workers]. *)
Record Vars := MkVars { splitAfter : Z; splitWays : Z; noStorageResume : bool; cf_Workers : Z }.

Definition default_vars : Vars := MkVars 32 16 false 0.

Definition SetSplitWays (v : Vars) (ways : Z) (noResume : bool) : Vars :=
  MkVars (splitAfter v) (if (0 <? ways)%Z then ways else splitWays v) noResume (cf_Workers v).

(** The default of [Run], and [make(chan bundle, cfg.Workers*2)] *)
Definition Workers (v : Vars) : Z := if (cf_Workers v <=? 0)%Z then 32 else cf_Workers v.
Definition chan_cap (v : Vars) : nat := Z.to_nat (Workers v * 2).

(** A bundle for the writer; its [apply] is the list of calls on the baseline,
    which stops at the first error. *)
Record bundle := MkBundle {
  b_seg : Z;
  b_final : bool;
  b_apply : list lcall;
  b_barrier : bool
}.

Definition apply_bundle (calls : list lcall) : bundle := MkBundle (-1) false calls false.
Definition final_bundle (seg : Z) : bundle := MkBundle seg true [] false.
Definition barrier_bundle : bundle := MkBundle (-1) false [] true.

(** ** Goroutines *)

Inductive prog :=
| PDone
| PFail (e : error)
| PLeafs (req : LeafsRequest) (k : LeafsResponse → prog)
| PCode (hashes : list Hash) (k : list bytes → prog)
| PClaim (h : Hash) (k : bool → prog)
| PEnqueue (b : bundle) (k : prog)
| PMaxSlot (addrHash : Hash) (start end_ : option bytes) (k : option Hash → prog)
| PQueue (after : option Hash) (k : list (Hash * Hash) → prog)
(** the goroutines of one response may run in any order *)
| PAnyOrder (n : nat) (k : list nat → prog)
| PPar (ps : list prog) (k : prog).

(** [s.enqueue] of each bundle in turn *)
Fixpoint enqueue_all (bs : list bundle) (k : prog) : prog :=
  match bs with
  | [] => k
  | b :: bs' => PEnqueue b (enqueue_all bs' k)
  end.

Section programs.
Context (keccak : bytes → Hash).
(** [rlp.DecodeBytes] into a [types.StateAccount], and the content of [rlp.Split] *)
Context (rlp_account : bytes → option LeafAccount) (rlp_content : bytes → option bytes).
Context (Root : Hash) (vars : Vars).

(** [types.EmptyRootHash]: the hash of the rlp of the empty string. *)
Definition EmptyRootHash : Hash := keccak [byte_lit 128].
(** [types.EmptyCodeHash] *)
Definition EmptyCodeHash : Hash := keccak [].

(** The rows of a storage response: [copy(v[32-len(content):], content)]. *)
Fixpoint slot_rows (keys vals : list bytes) : result (list (Hash * Hash)) :=
  match keys with
  | [] => Ok []
  | key :: keys' =>
      if negb (Nat.eqb (length key) 32) then Err (ErrMsg "sync")
      else
        match vals with
        | [] => Err (ErrMsg "panic")
        | val :: vals' =>
            match rlp_content val with
            | None => Err (ErrMsg "sync")
            | Some content =>
                if (32 <? length content) then Err (ErrMsg "sync")
                else
                  let! rest := slot_rows keys' vals' in
                  Ok ((BytesToHash key, arr_of (replicate (32 - length content) (byte_lit 0) ++ content))
                        :: rest)
            end
        end
  end.

(** The request loop of [walkStorage]; [n] counts the requests made. *)
Fixpoint walk_loop (fuel : nat) (addrHash root : Hash) (start end_ : option bytes)
    (maxReqs n : Z) (k : option bytes → prog) : prog :=
  match fuel with
  | O => PFail (ErrMsg "fuel")
  | S fuel' =>
      if (0 <? maxReqs)%Z && (maxReqs <=? n)%Z then k start
      else
        PLeafs (MkLeafsRequest root addrHash start) (λ resp0,
          let r := truncateAt resp0 end_ in
          let resp := r.1 in
          let done := r.2 in
          match slot_rows (Keys resp) (Vals resp) with
          | Err e => PFail e
          | Ok slots =>
              PEnqueue (apply_bundle ((λ kv, CBaseSlot addrHash kv.1 kv.2) <$> slots))
                (if done || negb (More resp) then k None
                 else
                   match last (Keys resp) with
                   | None => PFail (ErrMsg "sync")
                   | Some key =>
                       match incKey key with
                       | None => k None
                       | Some start' =>
                           walk_loop fuel' addrHash root (Some start') end_ maxReqs (n + 1) k
                       end
                   end)
          end)
  end.

Definition walkStorage (fuel : nat) (addrHash root : Hash) (start end_ : option bytes)
    (maxReqs : Z) (k : option bytes → prog) : prog :=
  if (maxReqs =? 0)%Z && negb (noStorageResume vars) then
    PMaxSlot addrHash start end_ (λ wm,
      match wm with
      | None => walk_loop fuel addrHash root start end_ maxReqs 0 k
      | Some wm =>
          match incKey (abytes wm) with
          | None => k None
          | Some next =>
              if (0 <? length (default [] end_)) && bool_decide (default [] end_ < next)%bytes then k None
              else if bool_decide (default [] start < next)%bytes
              then walk_loop fuel addrHash root (Some next) end_ maxReqs 0 k
              else walk_loop fuel addrHash root start end_ maxReqs 0 k
          end
      end)
  else walk_loop fuel addrHash root start end_ maxReqs 0 k.

(** [handleAccount]: the continuation gets the calls of the returned closure. *)
Definition handleAccount (key val : bytes) (k : list lcall → prog) : prog :=
  if negb (Nat.eqb (length key) 32) then PFail (ErrMsg "sync")
  else
    match rlp_account val with
    | None => PFail (ErrMsg "sync")
    | Some acc =>
        let addrHash := BytesToHash key in
        let codeHash := BytesToHash (la_CodeHash acc) in
        let row := MkAccount (default u_zero (la_Balance acc)) (la_Nonce acc) codeHash in
        let hasStorage := bool_decide (la_Root acc ≠ arr_zero ∧ la_Root acc ≠ EmptyRootHash) in
        let apply (code : option bytes) :=
          (match code with Some c => [CCode codeHash c] | None => [] end) ++
          (if hasStorage then [CQueueStorage addrHash (la_Root acc)] else []) ++
          [CBaseAccount addrHash row] in
        if bool_decide (codeHash ≠ arr_zero ∧ codeHash ≠ EmptyCodeHash) then
          PClaim codeHash (λ claimed,
            if (claimed : bool) then k (apply None)
            else PCode [codeHash] (λ blobs,
              match blobs with
              | [] => PFail (ErrMsg "panic")
              (* a nil blob is the empty one *)
              | blob :: _ => k (apply (if decide (blob = []) then None else Some blob))
              end))
        else k (apply None)
    end.

(** The goroutines of one response, in the order they get to run;
    [accountRows[i]] is filled by the [i]-th. *)
Fixpoint handle_all (order : list nat) (keys vals : list bytes) (accountRows : gmap nat (list lcall))
    (k : gmap nat (list lcall) → prog) : prog :=
  match order with
  | [] => k accountRows
  | i :: order' =>
      match keys !! i, vals !! i with
      | Some key, Some val =>
          handleAccount key val (λ apply,
            handle_all order' keys vals (<[i:=apply]> accountRows) k)
      | _, _ => PFail (ErrMsg "panic")
      end
  end.

(** The loop of [runSegment]. *)
Fixpoint segment_loop (fuel : nat) (seg : byte) (start segEnd : bytes) (k : prog) : prog :=
  match fuel with
  | O => PFail (ErrMsg "fuel")
  | S fuel' =>
      PLeafs (MkLeafsRequest Root arr_zero (Some start)) (λ resp0,
        let r := truncateAt resp0 (Some segEnd) in
        let resp := r.1 in
        let done := r.2 in
        PAnyOrder (length (Keys resp)) (λ order,
          handle_all order (Keys resp) (Vals resp) ∅ (λ accountRows,
            enqueue_all ((λ i, MkBundle seg false (default [] (accountRows !! i)) false)
                           <$> seq 0 (length (Keys resp)))
              (if done || negb (More resp) then k
               else
                 match last (Keys resp) with
                 | None => PFail (ErrMsg "sync")
                 | Some key =>
                     match incKey key with
                     | None => k
                     | Some start' => segment_loop fuel' seg start' segEnd k
                     end
                 end))))
  end.

Definition segment_end (seg : byte) : bytes := seg :: replicate 31 (byte_lit 255).
Definition segment_start (seg : byte) : bytes := seg :: replicate 31 (byte_lit 0).

Definition runSegment (fuel : nat) (seg : byte) (start : option bytes) : prog :=
  segment_loop fuel seg (default (segment_start seg) start) (segment_end seg)
    (PEnqueue (final_bundle seg) PDone).

(** The goroutine of one queued storage trie. *)
Definition storage_task (fuel : nat) (addrHash root : Hash) : prog :=
  let dequeue := PEnqueue (apply_bundle [CDequeueStorage addrHash]) PDone in
  walkStorage fuel addrHash root None None (splitAfter vars) (λ next,
    match next with
    | None => dequeue
    | Some next =>
        match splitRange next (splitWays vars) with
        | Err e => PFail e
        | Ok ranges =>
            PPar ((λ r, walkStorage fuel addrHash root (Some r.1) r.2 0 (λ _, PDone)) <$> ranges)
              dequeue
        end
    end).

(** The scan loop of [drainStorageQueue], behind the fence: a page is read,
    its tries are started, and the scan goes on beside them. *)
Fixpoint drain_loop (fuel wfuel : nat) (after : option Hash) : prog :=
  match fuel with
  | O => PFail (ErrMsg "fuel")
  | S fuel' =>
      PQueue after (λ page,
        match last page with
        | None => PDone
        | Some lst =>
            PPar (((λ x, storage_task wfuel x.1 x.2) <$> page) ++
                  [drain_loop fuel' wfuel (Some lst.1)]) PDone
        end)
  end.
End programs.

(** ** The writer goroutine and the phases of [Run] *)

(** [bitmap[seg/8]&(1<<(seg%8)) != 0] and [bitmap[seg/8] |= 1 << (seg%8)] *)
Definition bit_set (bitmap : bytes) (seg : Z) : bool :=
  negb (Z.land (uval (bitmap !!! Z.to_nat (seg / 8))) (Z.shiftl 1 (seg mod 8)) =? 0)%Z.
Definition set_bit (bitmap : bytes) (seg : Z) : bytes :=
  <[Z.to_nat (seg / 8) := wrap (Z.lor (uval (bitmap !!! Z.to_nat (seg / 8))) (Z.shiftl 1 (seg mod 8)))]> bitmap.

(** Where [Run] is: the segments, the fence before phase 2, phase 2, behind
    [close(s.writes)] with the outcome of the goroutines, and the crash of the
    process by a send on the closed channel. *)
Inductive phase :=
| PhSegments (p : prog)
| PhFence
| PhDrain (p : prog)
| PhClosed (r : result unit)
| PhPanic.

Record sys (env : Type) := MkSys {
  y_db : DB env;
  y_bl : Baseline;
  y_bitmap : bytes;
  y_werr : option error;
  y_chan : list bundle;
  y_claims : gset Hash;
  y_calls : nat;
  y_reply : option (result unit);
  y_phase : phase
}.
Arguments MkSys {env} _ _ _ _ _ _ _ _ _.
Arguments y_db {env} _.
Arguments y_bl {env} _.
Arguments y_bitmap {env} _.
Arguments y_werr {env} _.
Arguments y_chan {env} _.
Arguments y_claims {env} _.
Arguments y_calls {env} _.
Arguments y_reply {env} _.
Arguments y_phase {env} _.

(** What the scheduler may choose: a step of the writer, of the goroutine at a
    path in the tree of forks (with the order of a response's goroutines), the
    cancellation of its context, a step of [Run] itself or its cancellation, or a
    send by a goroutine that a failed scan of the queue has left behind. *)
Inductive choice :=
| ChWriter
| ChStep (path : list nat) (order : list nat)
| ChCancel (path : list nat)
| ChMain
| ChCancelMain
| ChPanic.

(** A send: it blocks while the channel is full. *)
Definition has_room {env} (v : Vars) (s : sys env) : bool := length (y_chan s) <? chan_cap v.
Definition push {env} (s : sys env) (b : bundle) : sys env :=
  MkSys (y_db s) (y_bl s) (y_bitmap s) (y_werr s) (y_chan s ++ [b]) (y_claims s) (y_calls s)
    (y_reply s) (y_phase s).
Definition bump {env} (s : sys env) : sys env :=
  MkSys (y_db s) (y_bl s) (y_bitmap s) (y_werr s) (y_chan s) (y_claims s) (S (y_calls s))
    (y_reply s) (y_phase s).
Definition claim {env} (s : sys env) (h : Hash) : sys env :=
  MkSys (y_db s) (y_bl s) (y_bitmap s) (y_werr s) (y_chan s) ({[h]} ∪ y_claims s) (y_calls s)
    (y_reply s) (y_phase s).
Definition set_phase {env} (s : sys env) (ph : phase) : sys env :=
  MkSys (y_db s) (y_bl s) (y_bitmap s) (y_werr s) (y_chan s) (y_claims s) (y_calls s)
    (y_reply s) ph.

Definition prog_error (p : prog) : option error := match p with PFail e => Some e | _ => None end.
Definition prog_done (p : prog) : bool := match p with PDone => true | _ => false end.

Section system.
Context {env : Type} `{Lmdb env}.
Context (keccak : bytes → Hash).
Context (rlp_account : bytes → option LeafAccount) (rlp_content : bytes → option bytes).
Context (Height : u64) (Root : Hash) (vars : Vars) (cl : Client).
(** [message.MaxCodeHashesPerRequest] *)
Context (maxCodeHashes : nat).
(** bounds on the loops: requests per walk and pages; rows of a scan *)
Context (fuel : nat) (scan_fuel : env → nat).

(** One bundle in the writer. *)
Definition writer_step (s : sys env) : option (sys env) :=
  match y_chan s with
  | [] => None
  | b :: chan =>
      match y_werr s with
      | Some _ => (* draining *)
          Some (MkSys (y_db s) (y_bl s) (y_bitmap s) (y_werr s) chan (y_claims s) (y_calls s)
                  (y_reply s) (y_phase s))
      | None =>
          match loader_run (y_db s) (y_bl s) (b_apply b) with
          | (Err e, d, bl) =>
              Some (MkSys d bl (y_bitmap s) (Some e) chan (y_claims s) (y_calls s)
                      (y_reply s) (y_phase s))
          | (Ok _, d, bl) =>
              let bitmap := if b_final b then set_bit (y_bitmap s) (b_seg b) else y_bitmap s in
              let bl := if b_final b then SetProgress bl (Some bitmap) else bl in
              if b_barrier b then
                match Flush d bl with
                | (r, d, bl) =>
                    Some (MkSys d bl bitmap None chan (y_claims s) (y_calls s) (Some r) (y_phase s))
                end
              else Some (MkSys d bl bitmap None chan (y_claims s) (y_calls s) (y_reply s) (y_phase s))
          end
      end
  end.

(** One operation of a goroutine.  A fork continues when all its branches are
    done, and fails once one of them failed: the group's context is cancelled then,
    and what the other branches still had to do is left undone.  The limits of the
    groups ([SetLimit]) are left to the schedule.  A scan that fails does not wait for
    the goroutines started so far; its error ([scan]) tells that they go on. *)
Definition op_step (order : list nat) (s : sys env) (p : prog) : option (sys env * prog) :=
  match p with
  | PDone | PFail _ => None
  | PLeafs req k =>
      Some (bump s, match cl_GetLeafs cl (y_calls s) req with
                    | Ok resp => k resp
                    | Err _ => PFail (ErrMsg "sync")
                    end)
  | PCode hashes k =>
      Some (bump s, match cl_GetCode cl (y_calls s) hashes with
                    | Ok blobs => k blobs
                    | Err _ => PFail (ErrMsg "sync")
                    end)
  | PClaim h k => Some (claim s h, k (bool_decide (h ∈ y_claims s)))
  | PEnqueue b k => if has_room vars s then Some (push s b, k) else None
  | PMaxSlot a start end_ k =>
      Some (s, match MaxBaseSlot (y_db s) a start end_ with
               | Ok o => k o
               | Err e => PFail e
               end)
  | PQueue after k =>
      Some (s, match StorageQueueAfter (scan_fuel (db_env (y_db s))) (y_db s) after scanBatch with
               | Ok page => k page
               | Err _ => PFail (ErrMsg "scan")
               end)
  | PAnyOrder n k => if bool_decide (order ≡ₚ seq 0 n) then Some (s, k order) else None
  | PPar ps k =>
      match omap prog_error ps with
      | e :: _ => Some (s, PFail e)
      | [] => if forallb prog_done ps then Some (s, k) else None
      end
  end.

(** The operations that watch the context. *)
Definition op_cancel (p : prog) : option prog :=
  match p with
  | PLeafs _ _ | PCode _ _ | PEnqueue _ _ => Some (PFail (ErrMsg "context"))
  | _ => None
  end.

Fixpoint at_path {S : Type} (f : S → prog → option (S * prog)) (path : list nat) (s : S) (p : prog) :
    option (S * prog) :=
  match path with
  | [] => f s p
  | i :: path' =>
      match p with
      | PPar ps k =>
          match ps !! i with
          | Some q =>
              match at_path f path' s q with
              | Some (s', q') => Some (s', PPar (<[i:=q']> ps) k)
              | None => None
              end
          | None => None
          end
      | _ => None
      end
  end.

(** A step of the goroutines of the current phase. *)
Definition phase_step (f : sys env → prog → option (sys env * prog)) (path : list nat)
    (s : sys env) : option (sys env) :=
  match y_phase s with
  | PhSegments p => match at_path f path s p with
                    | Some (s', p') => Some (set_phase s' (PhSegments p')) | None => None end
  | PhDrain p => match at_path f path s p with
                 | Some (s', p') => Some (set_phase s' (PhDrain p')) | None => None end
  | PhFence | PhClosed _ | PhPanic => None
  end.

(** [drainStorageQueue] behind its fence *)
Definition drain_prog : prog := drain_loop rlp_content vars fuel fuel None.

Definition main_step (s : sys env) : option (sys env) :=
  match y_phase s with
  | PhSegments PDone => if has_room vars s then Some (set_phase (push s barrier_bundle) PhFence) else None
  | PhSegments (PFail e) => Some (set_phase s (PhClosed (Err e)))
  | PhFence =>
      match y_reply s with
      | Some (Ok _) => Some (set_phase s (PhDrain drain_prog))
      | Some (Err e) => Some (set_phase s (PhClosed (Err e)))
      | None => None
      end
  | PhDrain PDone => Some (set_phase s (PhClosed (Ok ())))
  | PhDrain (PFail e) => Some (set_phase s (PhClosed (Err e)))
  | _ => None
  end.

Definition sys_next (c : choice) (s : sys env) : option (sys env) :=
  match c with
  | ChWriter => writer_step s
  | ChStep path order => phase_step (op_step order) path s
  | ChCancel path => phase_step (λ s p, match op_cancel p with
                                        | Some p' => Some (s, p') | None => None end) path s
  | ChMain => main_step s
  | ChCancelMain =>
      match y_phase s with
      | PhSegments PDone | PhFence => Some (set_phase s (PhClosed (Err (ErrMsg "context"))))
      | _ => None
      end
  | ChPanic =>
      match y_phase s with
      | PhClosed (Err e) => if decide (e = ErrMsg "scan") then Some (set_phase s PhPanic) else None
      | _ => None
      end
  end.

Fixpoint sys_run (sched : list choice) (s : sys env) : option (sys env) :=
  match sched with
  | [] => Some s
  | c :: sched' => match sys_next c s with Some s' => sys_run sched' s' | None => None end
  end.

(** ** [Run] *)

(** The segments still to be walked, with their resume keys. *)
Fixpoint segment_tasks (d : DB env) (bitmap : bytes) (segs : list nat) :
    result (list (byte * option bytes)) :=
  match segs with
  | [] => Ok []
  | seg :: segs' =>
      if bit_set bitmap (Z.of_nat seg) then segment_tasks d bitmap segs'
      else
        let! h := MaxBaseAccountWithPrefix d (wrap (Z.of_nat seg)) in
        let start := match h with Some h => incKey (abytes h) | None => None end in
        let! rest := segment_tasks d bitmap segs' in
        Ok ((wrap (Z.of_nat seg), start) :: rest)
  end.

Definition run_bitmap (d : DB env) : result bytes :=
  let! prog := BaselineProgress d in
  match prog with
  | Some prog =>
      if Nat.eqb (length prog) 32 then Ok prog else Err (ErrMsg "sync")
  | None => Ok (replicate 32 u_zero)
  end.

(** [Run] up to the start of the goroutines. *)
Definition Run_start (d : DB env) : result (sys env) * DB env :=
  match NewBaseline d Height with
  | (Err e, d) => (Err e, d)
  | (Ok bl, d) =>
      (let! bitmap := run_bitmap d in
       let! tasks := segment_tasks d bitmap (seq 0 256) in
       Ok (MkSys d bl bitmap None [] ∅ 0 None
             (PhSegments (PPar ((λ t, runSegment keccak rlp_account Root fuel t.1 t.2) <$> tasks) PDone))), d)
  end.

(** [codeSweep]: [bl.Code] for the blobs of one batch. *)
Fixpoint sweep_store (d : DB env) (bl : Baseline) (batch : list Hash) (blobs : list bytes) :
    result unit * DB env * Baseline :=
  match blobs with
  | [] => (Ok (), d, bl)
  | blob :: blobs' =>
      match batch with
      | [] => (Err (ErrMsg "panic"), d, bl)
      | h :: batch' =>
          match bl_Code d bl h blob with
          | (Ok _, d, bl) => sweep_store d bl batch' blobs'
          | r => r
          end
      end
  end.

Fixpoint sweep_loop (n : nat) (calls : nat) (d : DB env) (bl : Baseline) (missing : list Hash) :
    result unit * DB env * Baseline :=
  match missing with
  | [] => (Ok (), d, bl)
  | _ :: _ =>
      match n with
      | O => (Err (ErrMsg "fuel"), d, bl)
      | S n' =>
          let batch := take maxCodeHashes missing in
          match cl_GetCode cl calls batch with
          | Err _ => (Err (ErrMsg "sync"), d, bl)
          | Ok blobs =>
              match sweep_store d bl batch blobs with
              | (Ok _, d, bl) => sweep_loop n' (S calls) d bl (drop maxCodeHashes missing)
              | r => r
              end
          end
      end
  end.

Definition codeSweep (calls : nat) (d : DB env) (bl : Baseline) : result unit * DB env * Baseline :=
  match MissingCodeHashes keccak (scan_fuel (db_env d)) d with
  | Err e => (Err e, d, bl)
  | Ok missing => sweep_loop (length missing) calls d bl missing
  end.

(** [Run] behind [close(s.writes)] and the writer's last report. *)
Definition Run_end (r : result unit) (s : sys env) : result unit * DB env :=
  match r, y_werr s with
  | Err e, _ => (Err e, y_db s)
  | Ok _, Some e => (Err e, y_db s)
  | Ok _, None =>
      match Flush (y_db s) (y_bl s) with
      | (Err e, d, _) => (Err e, d)
      | (Ok _, d, bl) =>
          match codeSweep (y_calls s) d bl with
          | (Err e, d, _) => (Err e, d)
          | (Ok _, d, bl) =>
              match Finish d bl with
              | (r, d, _) => (r, d)
              end
          end
      end
  end.

(** [Run] under a schedule; [None] when the schedule does not bring it to its
    end. *)
Definition Run (sched : list choice) (d : DB env) : option (result unit * DB env) :=
  match Run_start d with
  | (Err e, d) => Some (Err e, d)
  | (Ok s, _) =>
      match sys_run sched s with
      | Some s' =>
          match y_phase s', y_chan s' with
          | PhClosed r, [] => Some (Run_end r s')
          | _, _ => None
          end
      | None => None
      end
  end.
End system.
