(* ===== verification/SyncTrie.v ===== *)
(** * SyncTrie: tries, responses and the invariant of a partial load

    A state trie is the ascending list of its leaves.  [leafs_ok] is what the
    verified client promises of a response: the leaves from the start key on, cut
    anywhere, and whether leaves remain.  [Inv] is what the rows of a partial load
    satisfy at every moment; it is what a later run resumes from. *)

From Stdlib Require Import Sorted.
From S2P Require Import Prelude Schema Lmdb Capture World Store StoreRead StoreSpec StoreProof.
From S2P Require Import StoreReads StoreWrites Loader Scans SyncKeys Sync.

Abbreviation leaf := (bytes * bytes)%type.

(** Leaves from a start key on. *)
Definition from (start : bytes) (T : list leaf) : list leaf :=
  filter (λ l, (start ≤ l.1)%bytes) T.

Record trie_ok (T : list leaf) : Prop := {
  trie_sorted : StronglySorted bytes_lt T.*1;
  trie_width l : l ∈ T → length l.1 = 32
}.

(** The bound of a range; an absent one holds everything. *)
Definition upto (end_ : option bytes) (k : bytes) : Prop :=
  match end_ with Some e => (k ≤ e)%bytes | None => True end.

#[export] Instance upto_dec end_ k : Decision (upto end_ k).
Proof. destruct end_; apply _. Defined.

(** ** Sorted leaves *)

Lemma StronglySorted_app_inv {A} (R : A → A → Prop) l k :
  StronglySorted R (l ++ k) →
  StronglySorted R l ∧ StronglySorted R k ∧ ∀ x y, x ∈ l → y ∈ k → R x y.
Proof.
  induction l as [|a l IH]; cbn [app]; intros Hs.
  { split_and!; [constructor|done|]. by intros x y ?%elem_of_nil. }
  inversion_clear Hs as [|? ? Hs' Ha]. destruct (IH Hs') as (H1 & H2 & H3).
  apply Forall_app in Ha as [Ha1 Ha2]. split_and!; [by constructor|done|].
  intros x y [->|Hx]%elem_of_cons Hy; [|by apply H3]. rewrite Forall_forall in Ha2. by apply Ha2.
Qed.

Lemma list_filter_all {A} (P : A → Prop) `{∀ x, Decision (P x)} (l : list A) :
  (∀ x, x ∈ l → P x) → filter P l = l.
Proof.
  induction l as [|a l IH]; intros Hl; [done|]. rewrite filter_cons_True by (apply Hl; left).
  f_equal. apply IH. intros x Hx. apply Hl. by right.
Qed.

Lemma list_filter_none {A} (P : A → Prop) `{∀ x, Decision (P x)} (l : list A) :
  (∀ x, x ∈ l → ¬ P x) → filter P l = [].
Proof.
  induction l as [|a l IH]; intros Hl; [done|]. rewrite filter_cons_False by (apply Hl; left).
  apply IH. intros x Hx. apply Hl. by right.
Qed.

Lemma from_app (T1 T2 : list leaf) start :
  (∀ l, l ∈ T1 → (l.1 < start)%bytes) → (∀ l, l ∈ T2 → (start ≤ l.1)%bytes) →
  from start (T1 ++ T2) = T2.
Proof.
  intros H1 H2. unfold from. rewrite filter_app, list_filter_none, list_filter_all; [done|..].
  - intros l Hl. by apply H2.
  - intros l Hl Hle. apply H1 in Hl. by apply bytes_lt_not_le in Hl.
Qed.

(** The leaves from a start key on are a suffix. *)
Lemma from_suffix T start :
  StronglySorted bytes_lt T.*1 →
  ∃ pre, T = pre ++ from start T ∧ ∀ l, l ∈ pre → (l.1 < start)%bytes.
Proof.
  induction T as [|l T IH]; intros Hs; [by exists []; split; [|intros l ?%elem_of_nil]|].
  inversion_clear Hs as [|? ? Hs' Ha]. unfold from. rewrite filter_cons.
  destruct (decide (start ≤ l.1)%bytes) as [Hle|Hlt].
  - exists []. split; [|by intros x ?%elem_of_nil]. cbn. f_equal. symmetry.
    rewrite list_filter_all; [done|]. intros x Hx.
    eapply bytes_le_trans; [exact Hle|]. apply bytes_le_lteq. left.
    rewrite Forall_forall in Ha. apply Ha. by apply list_elem_of_fmap_2.
  - destruct (IH Hs') as (pre & Heq & Hpre). exists (l :: pre). split; [cbn; by f_equal|].
    intros x [->|Hx]%elem_of_cons; [by apply bytes_lt_not_le|by apply Hpre].
Qed.

Lemma elem_of_from T start l : l ∈ from start T ↔ l ∈ T ∧ (start ≤ l.1)%bytes.
Proof. unfold from. rewrite list_elem_of_filter. tauto. Qed.

Lemma from_sorted T start : StronglySorted bytes_lt T.*1 → StronglySorted bytes_lt (from start T).*1.
Proof.
  intros Hs. destruct (from_suffix T start Hs) as (pre & Heq & _). rewrite Heq, fmap_app in Hs.
  by apply StronglySorted_app_inv in Hs as (_ & ? & _).
Qed.

Lemma from_nil T : from [] T = T.
Proof. apply list_filter_all. intros l _. unfold bytes_le. by destruct (l.1). Qed.

(** Behind a page, the leaves start at the successor of its last key. *)
Lemma from_page T start page rest key :
  trie_ok T → from start T = page ++ rest → last page.*1 = Some key →
  match incKey key with
  | Some next => from next T = rest ∧ (start ≤ next)%bytes
  | None => rest = []
  end.
Proof.
  intros [Hs Hw] Hf Hl. rewrite fmap_last in Hl. destruct (last page) as [lk|] eqn:Hlp; [|done].
  injection Hl as <-. pose proof (last_Some_elem_of _ _ Hlp) as Hmem.
  assert (∀ l, l ∈ page ++ rest → l ∈ T ∧ (start ≤ l.1)%bytes) as Hin
    by (intros l; rewrite <-Hf; apply elem_of_from).
  destruct (Hin lk) as [HlT Hle]; [apply elem_of_app; by left|].
  pose proof (from_sorted T start Hs) as Hfs. rewrite Hf, fmap_app in Hfs.
  apply StronglySorted_app_inv in Hfs as (Hps & _ & Hlt).
  assert (∀ l, l ∈ rest → (lk.1 < l.1)%bytes) as Hrest.
  { intros l Hl. apply Hlt; by apply list_elem_of_fmap_2. }
  assert (∀ l, l ∈ page → (l.1 ≤ lk.1)%bytes) as Hpage.
  { intros l Hl. apply last_Some in Hlp as [pre ->]. rewrite fmap_app in Hps.
    apply StronglySorted_app_inv in Hps as (_ & _ & Hp). apply elem_of_app in Hl as [Hl|Hl].
    - apply bytes_le_lteq. left. apply Hp; [by apply list_elem_of_fmap_2|cbn; left].
    - apply list_elem_of_singleton in Hl as ->. apply bytes_le_refl. }
  destruct (incKey lk.1) as [next|] eqn:Hn.
  - pose proof (incKey_length _ _ Hn) as Hnl. rewrite (Hw _ HlT) in Hnl.
    assert (∀ l, l ∈ T → (lk.1 < l.1)%bytes ↔ (next ≤ l.1)%bytes) as Hnext.
    { intros l Hl. apply incKey_next; [done|]. by rewrite (Hw _ Hl), (Hw _ HlT). }
    split.
    + destruct (from_suffix T start Hs) as (pre & Heq & Hpre). rewrite Hf in Heq.
      pose proof Heq as Heq'. rewrite app_assoc in Heq'. rewrite Heq'. apply from_app.
      * intros l Hl. apply bytes_lt_not_le. intros Hle'.
        assert (l ∈ T) as HlT' by (rewrite Heq'; apply elem_of_app; by left).
        apply Hnext in Hle'; [|done]. apply bytes_lt_not_le in Hle'. apply Hle'.
        apply elem_of_app in Hl as [Hl|Hl]; [|by apply Hpage].
        apply bytes_le_lteq. left. eapply bytes_lt_le_trans; [by apply Hpre|done].
      * intros l Hl. apply Hnext; [|by apply Hrest]. rewrite Heq'. apply elem_of_app. by right.
    + eapply bytes_le_trans; [exact Hle|]. apply bytes_le_lteq. left.
      apply (incKey_next _ _ next Hn); [|apply bytes_le_refl]. by rewrite Hnl, (Hw _ HlT).
  - destruct rest as [|l rest]; [done|]. exfalso.
    assert (l ∈ T) as HlT' by (apply Hin, elem_of_app; right; left).
    pose proof (Hrest l ltac:(left)) as Hc. apply bytes_lt_not_le in Hc. apply Hc.
    apply incKey_last; [done|]. by rewrite (Hw _ HlT), (Hw _ HlT').
Qed.

(** ** Responses *)

(** The client's promise, verified by its range proofs: the first leaves from
    the start key on, at most [leafLimit] of them, and whether some remain.
    Under [full] a response is cut at [leafLimit] only. *)
Definition leafs_ok (Trie : Hash → list leaf) (full : Prop) (req : LeafsRequest) (resp : LeafsResponse) :
    Prop :=
  ∃ n, let rest := from (default [] (lr_Start req)) (Trie (lr_Root req)) in
    n ≤ leafLimit ∧ (full → n = leafLimit) ∧
    Keys resp = (take n rest).*1 ∧ Vals resp = (take n rest).*2 ∧
    More resp = bool_decide (n < length rest).

(** The client checks code against its hash. *)
Definition code_ok (keccak : bytes → Hash) (hashes : list Hash) (blobs : list bytes) : Prop :=
  Forall2 (λ h blob, keccak blob = h) hashes blobs.

(** A response, truncated at the end of the range: a page of the leaves in the
    range; when the walk stops, nothing of the range is behind it. *)
Record page_of (T : list leaf) (full : Prop) (start : bytes) (end_ : option bytes)
    (resp : LeafsResponse) (stop : bool) (page rest : list leaf) : Prop := {
  pg_from : from start T = page ++ rest;
  pg_keys : Keys resp = page.*1;
  pg_vals : Vals resp = page.*2;
  pg_upto l : l ∈ page → upto end_ l.1;
  pg_stop : stop = true → ∀ l, l ∈ rest → ¬ upto end_ l.1;
  pg_limit : length page ≤ leafLimit;
  pg_full : stop = false → full → length page = leafLimit
}.

Lemma response_page Trie full root acct start end_ resp :
  trie_ok (Trie root) → end_ ≠ Some [] →
  leafs_ok Trie full (MkLeafsRequest root acct start) resp →
  let r := truncateAt resp end_ in
  ∃ page rest, page_of (Trie root) full (default [] start) end_ r.1 (r.2 || negb (More r.1)) page rest.
Proof.
  intros Hok Hend (n & Hlim & Hn & HK & HV & HM) r. cbn [lr_Start lr_Root] in *.
  set (F := from (default [] start) (Trie root)) in *.
  pose proof (from_sorted (Trie root) (default [] start) (trie_sorted _ Hok)) as Hs. fold F in Hs.
  assert (StronglySorted bytes_lt (take n F).*1) as Hst.
  { rewrite <-(take_drop n F), fmap_app in Hs. by apply StronglySorted_app_inv in Hs as [? _]. }
  destruct (truncateAt_spec resp end_) as (j & Hj & Hjle & Hd & Hb); [by rewrite HK|done|by rewrite HK, HV, !length_fmap|].
  fold r in Hj, Hd. rewrite HK, length_fmap, length_take in Hjle.
  exists (take j F), (drop j F). rewrite Hj. cbn [Keys Vals More].
  assert (take j (take n F) = take j F) as Htt by (rewrite take_take; f_equal; lia).
  split; cbn [Keys Vals More].
  - by rewrite take_drop.
  - by rewrite HK, <-fmap_take, Htt.
  - by rewrite HV, <-fmap_take, Htt.
  - intros l Hl. destruct end_ as [e|]; [|done]. cbn [upto].
    apply list_elem_of_lookup in Hl as [i Hi]. pose proof (lookup_lt_Some _ _ _ Hi) as Hlt.
    rewrite length_take in Hlt. rewrite lookup_take_lt in Hi by lia.
    apply (Hb i l.1); [|lia]. rewrite HK, list_lookup_fmap, lookup_take_lt by lia. by rewrite Hi.
  - rewrite Hd, HM. rewrite HK, length_fmap, length_take. intros Hstop l Hl.
    apply list_elem_of_lookup in Hl as [i Hi]. rewrite lookup_drop in Hi.
    pose proof (lookup_lt_Some _ _ _ Hi) as Hlt.
    case_bool_decide as Hdrop; cbn [orb negb] in Hstop.
    + destruct end_ as [e|]; cbn [upto]; [|rewrite HK, length_fmap, length_take in Hb; lia].
      intros Hle. (* the first dropped key is already beyond the bound *)
      destruct (lookup_lt_is_Some_2 F j ltac:(lia)) as [lj Hlj].
      assert (¬ (lj.1 ≤ e)%bytes) as Hnj.
      { intros Hle'. apply (Hb j lj.1) in Hle'; [lia|].
        rewrite HK, list_lookup_fmap, lookup_take_lt by lia. by rewrite Hlj. }
      apply Hnj. destruct (decide (i = 0)) as [->|]; [rewrite Nat.add_0_r in Hi; by simplify_eq|].
      eapply bytes_le_trans; [|exact Hle]. apply bytes_le_lteq. left.
      eapply (sorted_lt_lookup F.*1 j (j + i)); [done|by rewrite list_lookup_fmap, Hlj|by rewrite list_lookup_fmap, Hi|lia].
    + case_bool_decide; [done|]. lia.
  - rewrite length_take. lia.
  - rewrite Hd, HM. rewrite HK, length_fmap, length_take. intros Hstop Hfull.
    specialize (Hn Hfull). rewrite length_take.
    repeat case_bool_decide; cbn [orb negb] in Hstop; done || lia.
Qed.

(** ** The bitmap *)

Lemma bit_set_set_bit bm seg seg' :
  length bm = 32 → (0 ≤ seg < 256)%Z → (0 ≤ seg' < 256)%Z →
  bit_set (set_bit bm seg) seg' = true ↔ seg' = seg ∨ bit_set bm seg' = true.
Proof.
  intros Hl Hs Hs'. unfold bit_set, set_bit.
  set (i := Z.to_nat (seg / 8)). set (i' := Z.to_nat (seg' / 8)).
  assert (i < 32 ∧ i' < 32) as [Hi Hi'].
  { unfold i, i'. split; apply Nat2Z.inj_lt; rewrite Z2Nat.id by (apply Z.div_pos; lia);
      apply Z.div_lt_upper_bound; lia. }
  assert (∀ (x : byte) j, (0 ≤ j < 8)%Z → negb (Z.land x (Z.shiftl 1 j) =? 0)%Z = Z.testbit x j) as Hbit.
  { intros x j Hj. rewrite Z.shiftl_1_l. destruct (Z.eqb_spec (Z.land x (2 ^ j)) 0) as [Hz|Hnz]; cbn [negb].
    - symmetry. pose proof (f_equal (λ z, Z.testbit z j) Hz) as Hb. cbn beta in Hb.
      rewrite Z.land_spec, Z.pow2_bits_true, andb_true_r, Z.bits_0 in Hb by lia. done.
    - symmetry. apply not_false_iff_true. intros Hb. apply Hnz. apply Z.bits_inj'. intros k Hk.
      rewrite Z.land_spec, Z.bits_0, Z.pow2_bits_eqb by lia.
      destruct (Z.eqb_spec j k) as [<-|]; [by rewrite Hb|apply andb_false_r]. }
  rewrite !Hbit by (apply Z.mod_pos_bound; lia).
  destruct (decide (i = i')) as [Heq|Hne].
  - rewrite <-Heq, list_lookup_total_insert_eq by lia.
    rewrite uval_wrap, Z.mod_pow2_bits_low by (apply Z.mod_pos_bound; lia).
    rewrite Z.lor_spec, Z.shiftl_1_l, Z.pow2_bits_eqb by (apply Z.mod_pos_bound; lia).
    rewrite orb_true_iff, Z.eqb_eq. split; [|intros [->|?]; auto].
    intros [?|Hm]; [by right|left].
    rewrite (Z.div_mod seg 8), (Z.div_mod seg' 8) by lia.
    assert (seg / 8 = seg' / 8)%Z as ->; [|by rewrite Hm].
    apply Z2Nat.inj; [by apply Z.div_pos; lia..|exact Heq].
  - rewrite list_lookup_total_insert_ne by done. split; [by right|]. intros [->|?]; [|done].
    by destruct Hne.
Qed.

Lemma length_set_bit bm seg : length (set_bit bm seg) = length bm.
Proof. apply length_insert. Qed.
