(* ===== verification/SyncLogic.v ===== *)
(** * SyncLogic: a logic for the goroutines of the state sync

    The goroutines of [Sync] share one writer, and each of them works on rows of
    its own.  [safe K p Q L] says that program [p], which owns the row keys [K],
    only ever sends bundles on its own rows whose calls preserve the global
    invariant [Inv] one by one, and ends with [Q]; [L] is the state of the rows
    once everything sent so far is written, together with the keys that may not
    be committed yet.  [step_sound] is the soundness of the logic: whatever the
    interleaving, the rows committed at any moment satisfy [Inv]. *)

From S2P Require Import Prelude Schema Lmdb Capture World Store StoreRead StoreSpec StoreProof.
From S2P Require Import StoreReads StoreWrites Loader Concurrent StoreInv Scans SyncKeys Sync.

(** Rows with everything sent applied, and the keys sent since the last fence. *)
Record lst := MkLst { l_rows : gmap bytes bytes; l_sent : bytes → Prop }.

Abbreviation keyset := (bytes → Prop).

(** Rows that belong to no goroutine: the cursor and the code. *)
Definition free_key (k : bytes) : Prop :=
  k = MetaBaselineProgress ∨ ∃ h, k = key_bytes (KCode h).

Lemma free_key_kind dk :
  free_key (key_bytes dk) → dk = KMetaBaselineProgress ∨ ∃ h, dk = KCode h.
Proof.
  intros [Hp|[h ->%key_bytes_inj]]; [left|right; by exists h].
  by apply (key_bytes_inj dk KMetaBaselineProgress).
Qed.

Definition same_at (L L' : lst) (k : bytes) : Prop :=
  l_rows L !! k = l_rows L' !! k ∧ (l_sent L k ↔ l_sent L' k).
Definition agree (K : keyset) (L L' : lst) : Prop :=
  ∀ k, K k → ¬ free_key k → same_at L L' k.
Definition frame (K : keyset) (L L' : lst) : Prop :=
  ∀ k, ¬ K k → ¬ free_key k → same_at L L' k.

Lemma agree_refl K L : agree K L L.
Proof. by intros k. Qed.
Lemma agree_trans K L1 L2 L3 : agree K L1 L2 → agree K L2 L3 → agree K L1 L3.
Proof.
  intros H1 H2 k Hk Hf. destruct (H1 k Hk Hf), (H2 k Hk Hf). unfold same_at in *.
  split; [congruence|naive_solver].
Qed.
Lemma agree_sub (K K' : keyset) L L' : (∀ k, K' k → K k) → agree K L L' → agree K' L L'.
Proof. intros Hs Ha k Hk. apply Ha, Hs, Hk. Qed.
Lemma agree_frame (K K' : keyset) L L1 L2 :
  (∀ k, K k → K' k → False) → agree K L L1 → frame K' L1 L2 → agree K L L2.
Proof.
  intros Hd Ha Hf. eapply agree_trans; [exact Ha|]. intros k Hk. apply Hf. eauto.
Qed.
Lemma frame_refl K L : frame K L L.
Proof. by intros k. Qed.
Lemma frame_sub (K K' : keyset) L L' : (∀ k, K k → K' k) → frame K L L' → frame K' L L'.
Proof. intros Hs Hf k Hk. apply Hf. naive_solver. Qed.

Section logic.
Context (S : u64).
(** The invariant of the rows and the writer's bitmap. *)
Context (Inv : gmap bytes bytes → bytes → Prop).
(** What the client promises of a response. *)
Context (leafs_ok : LeafsRequest → LeafsResponse → Prop).
Context (code_ok : list Hash → list bytes → Prop).

(** ** Calls on rows and bitmap *)

Abbreviation pst := (gmap bytes bytes * bytes)%type.

Definition pstep (P : pst) (c : lcall) : pst :=
  (call_effect S P.1 c, match c with CSetProgress p => p | _ => P.2 end).

(** The invariant holds before, between and after the calls. *)
Fixpoint calls_inv (P : pst) (cs : list lcall) : Prop :=
  Inv P.1 P.2 ∧ match cs with [] => True | c :: cs' => calls_inv (pstep P c) cs' end.

Definition bundle_calls (bm : bytes) (b : bundle) : list lcall :=
  b_apply b ++ (if b_final b then [CSetProgress (set_bit bm (b_seg b))] else []).

Definition bundle_end (P : pst) (b : bundle) : pst := foldl pstep P (bundle_calls P.2 b).

Fixpoint chan_inv (P : pst) (chan : list bundle) : Prop :=
  match chan with
  | [] => Inv P.1 P.2
  | b :: chan' => calls_inv P (bundle_calls P.2 b) ∧ chan_inv (bundle_end P b) chan'
  end.

Definition chan_end (P : pst) (chan : list bundle) : pst := foldl bundle_end P chan.

Definition call_key (c : lcall) : option bytes := bo_k <$> call_op S c.
Definition sends (b : bundle) (k : bytes) : Prop := ∃ c, c ∈ b_apply b ∧ call_key c = Some k.

(** A worker's calls are rows: neither the cursor nor a flush. *)
Definition row_call (c : lcall) : Prop := is_Some (call_op S c).

Definition send (L : lst) (b : bundle) : lst :=
  MkLst (foldl (call_effect S) (l_rows L) (b_apply b)) (λ k, l_sent L k ∨ sends b k).

(** What a goroutine owning [K] may send. *)
Definition may_send (K : keyset) (L : lst) (b : bundle) : Prop :=
  b_barrier b = false ∧ Forall row_call (b_apply b) ∧
  (∀ k, sends b k → K k ∨ free_key k) ∧
  ∀ P, (∀ k, K k → ¬ free_key k → P.1 !! k = l_rows L !! k) → Inv P.1 P.2 →
    calls_inv P (bundle_calls P.2 b).

(** What a read of the committed rows can see. *)
Definition seen (K : keyset) (L : lst) (m : gmap bytes bytes) : Prop :=
  wf_db m ∧ (∃ bm, Inv m bm) ∧
  ∀ k, K k → ¬ free_key k → ¬ l_sent L k → m !! k = l_rows L !! k.

Definition max_slot_ok (m : gmap bytes bytes) (h : Hash) (start end_ : option bytes) (o : option Hash) :
    Prop :=
  match o with
  | Some s =>
      has_base_slot m h s ∧ (abytes s ≤ range_end end_)%bytes ∧ ¬ below_start s start ∧
      ∀ s', has_base_slot m h s' → (abytes s' ≤ range_end end_)%bytes → (abytes s' ≤ abytes s)%bytes
  | None =>
      ∀ s, has_base_slot m h s → (abytes s ≤ range_end end_)%bytes → below_start s start
  end.

(** ** The logic *)

Inductive safe : keyset → prog → (lst → Prop) → lst → Prop :=
| safe_done (K : keyset) (Q : lst → Prop) L : Q L → safe K PDone Q L
| safe_fail (K : keyset) e Q L : e ≠ ErrMsg "fuel" → safe K (PFail e) Q L
| safe_leafs (K : keyset) req k Q L :
    (∀ resp, leafs_ok req resp → safe K (k resp) Q L) → safe K (PLeafs req k) Q L
| safe_code (K : keyset) hashes k Q L :
    (∀ blobs, code_ok hashes blobs → safe K (k blobs) Q L) → safe K (PCode hashes k) Q L
| safe_claim (K : keyset) h k Q L : (∀ b, safe K (k b) Q L) → safe K (PClaim h k) Q L
| safe_enqueue (K : keyset) b k Q L :
    may_send K L b → safe K k Q (send L b) → safe K (PEnqueue b k) Q L
| safe_max_slot (K : keyset) h start end_ k Q L :
    (∀ m o, seen K L m → max_slot_ok m h start end_ o → safe K (k o) Q L) →
    safe K (PMaxSlot h start end_ k) Q L
| safe_queue (K : keyset) after k Q L :
    (∀ m page, seen K L m → page_ok m after scanBatch page → safe K (k page) Q L) →
    safe K (PQueue after k) Q L
| safe_order (K : keyset) n k Q L :
    (∀ order, order ≡ₚ seq 0 n → safe K (k order) Q L) → safe K (PAnyOrder n k) Q L
| safe_par (K : keyset) ps k Q L (Ks : nat → keyset) (Qs : nat → lst → Prop) (Ls : nat → lst) :
    (∀ i x, Ks i x → K x) →
    (∀ i j x, i ≠ j → Ks i x → Ks j x → False) →
    (∀ i p, ps !! i = Some p → safe (Ks i) p (Qs i) (Ls i) ∧ agree (Ks i) (Ls i) L) →
    (∀ L', (∀ i, i < length ps → ∃ Li, Qs i Li ∧ agree (Ks i) Li L') →
       (∀ x, (∀ i, i < length ps → ¬ Ks i x) → K x → ¬ free_key x → same_at L L' x) →
       safe K k Q L') →
    safe K (PPar ps k) Q L.

(** The common case: no goroutine has run yet. *)
Lemma safe_fork (K : keyset) ps k Q L (Ks : nat → keyset) (Qs : nat → lst → Prop) :
  (∀ i x, Ks i x → K x) →
  (∀ i j x, i ≠ j → Ks i x → Ks j x → False) →
  (∀ i p, ps !! i = Some p → safe (Ks i) p (Qs i) L) →
  (∀ L', (∀ i, i < length ps → ∃ Li, Qs i Li ∧ agree (Ks i) Li L') →
     (∀ x, (∀ i, i < length ps → ¬ Ks i x) → K x → ¬ free_key x → same_at L L' x) →
     safe K k Q L') →
  safe K (PPar ps k) Q L.
Proof.
  intros HK Hd Hps Hk. apply (safe_par K ps k Q L Ks Qs (λ _, L)); [done|done| |done].
  intros i p Hp. split; [by apply Hps|apply agree_refl].
Qed.

(** ** Calls *)

Lemma calls_inv_start P cs : calls_inv P cs → Inv P.1 P.2.
Proof. by destruct cs; intros []. Qed.

Lemma calls_inv_app P cs cs' :
  calls_inv P (cs ++ cs') ↔ calls_inv P cs ∧ calls_inv (foldl pstep P cs) cs'.
Proof.
  revert P. induction cs as [|c cs IH]; intros P; cbn [app calls_inv foldl].
  - split; [|naive_solver]. intros Hc. split; [|done]. split; [by eapply calls_inv_start|done].
  - rewrite IH. naive_solver.
Qed.

Lemma pstep_row P c : row_call c → pstep P c = (call_effect S P.1 c, P.2).
Proof. intros [op Hop]. by destruct c. Qed.

Lemma psteps_rows P cs :
  Forall row_call cs → foldl pstep P cs = (foldl (call_effect S) P.1 cs, P.2).
Proof.
  intros Hr. revert P. induction Hr as [|c cs Hc _ IH]; intros P; [by destruct P|].
  cbn [foldl]. by rewrite pstep_row, IH by done.
Qed.

Lemma call_effect_other m c k :
  call_key c ≠ Some k → k ≠ MetaBaselineProgress → call_effect S m c !! k = m !! k.
Proof.
  intros Hk Hp. unfold call_key in Hk. unfold call_effect.
  destruct c; cbn [call_op fmap option_fmap option_map bo_k] in Hk |- *;
    try (unfold apply_blop; cbn [bo_k bo_v bo_del]; rewrite ?lookup_insert_ne, ?lookup_delete_ne by congruence);
    done.
Qed.

Lemma effects_other m cs k :
  (∀ c, c ∈ cs → call_key c ≠ Some k) → k ≠ MetaBaselineProgress →
  foldl (call_effect S) m cs !! k = m !! k.
Proof.
  intros Hk Hp. revert m. induction cs as [|c cs IH]; intros m; [done|]. cbn [foldl].
  rewrite IH by (intros; apply Hk; by right). apply call_effect_other; [|done]. apply Hk. left.
Qed.

(** What a call leaves at a key depends only on the key. *)
Lemma call_effect_congr m m' c k :
  k ≠ MetaBaselineProgress → m !! k = m' !! k → call_effect S m c !! k = call_effect S m' c !! k.
Proof.
  intros Hp Hm. unfold call_effect. destruct c; cbn [call_op];
    try (unfold apply_blop; cbn [bo_k bo_v bo_del];
         match goal with
         | |- <[?x:=_]> _ !! _ = _ => destruct (decide (k = x)) as [->|];
             [by rewrite !lookup_insert_eq|by rewrite !lookup_insert_ne by congruence]
         | |- delete ?x _ !! _ = _ => destruct (decide (k = x)) as [->|];
             [by rewrite !lookup_delete_eq|by rewrite !lookup_delete_ne by congruence]
         end); done.
Qed.

Lemma effects_congr m m' cs k :
  k ≠ MetaBaselineProgress → m !! k = m' !! k →
  foldl (call_effect S) m cs !! k = foldl (call_effect S) m' cs !! k.
Proof.
  intros Hp. revert m m'. induction cs as [|c cs IH]; intros m m' Hm; [done|]. cbn [foldl].
  by apply IH, call_effect_congr.
Qed.

Lemma bundle_end_rows P b k :
  Forall row_call (b_apply b) → ¬ sends b k → k ≠ MetaBaselineProgress →
  (bundle_end P b).1 !! k = P.1 !! k.
Proof.
  intros Hr Hs Hp. unfold bundle_end, bundle_calls. rewrite foldl_app, (psteps_rows P (b_apply b)) by done.
  assert (foldl (call_effect S) P.1 (b_apply b) !! k = P.1 !! k) as He.
  { apply effects_other; [|done]. intros c Hc Hk. apply Hs. by exists c. }
  destruct (b_final b); [|done]. cbn [foldl pstep fst call_effect].
  by rewrite lookup_insert_ne by congruence.
Qed.

Lemma chan_end_snoc P chan b : chan_end P (chan ++ [b]) = bundle_end (chan_end P chan) b.
Proof. apply foldl_snoc. Qed.

Lemma chan_inv_snoc P chan b :
  chan_inv P chan → calls_inv (chan_end P chan) (bundle_calls (chan_end P chan).2 b) →
  chan_inv P (chan ++ [b]).
Proof.
  revert P. induction chan as [|b' chan IH]; intros P Hc Hb; cbn [app chan_inv] in *.
  - split; [done|]. unfold bundle_end. pose proof (proj1 (calls_inv_app P (bundle_calls P.2 b) [])) as H.
    rewrite app_nil_r in H. apply H in Hb as [_ Hb]. by eapply calls_inv_start.
  - destruct Hc as [? Hc]. split; [done|]. by apply IH.
Qed.

Lemma chan_inv_end P chan : chan_inv P chan → Inv (chan_end P chan).1 (chan_end P chan).2.
Proof.
  revert P. induction chan as [|b chan IH]; intros P Hc; [done|]. destruct Hc as [_ Hc]. by apply IH.
Qed.

Lemma chan_inv_start P chan : chan_inv P chan → Inv P.1 P.2.
Proof. destruct chan; [done|]. intros [Hc _]. by eapply calls_inv_start. Qed.
End logic.
