(* ===== verification/SyncSound.v ===== *)
(** * SyncSound: soundness of the logic of the sync goroutines

    [ghost s G] relates a state of the system to the rows [G] it will have once
    everything sent is written: what is committed satisfies the invariant, and the
    writer, its buffer and the channel lead from there to [G].  Every step of the
    writer keeps [G]; every step of a goroutine moves [G] within the rows the
    goroutine owns ([step_sound]). *)

From S2P Require Import Prelude Schema Lmdb Capture World Store StoreRead StoreSpec StoreProof.
From S2P Require Import StoreReads StoreWrites Loader Concurrent StoreInv Scans SyncKeys Sync.
From S2P Require Import SyncLogic.

Section sound.
Context {env : Type} `{LmdbLaws env}.
Context (S : u64) (Inv : gmap bytes bytes → bytes → Prop).
Context (leafs_ok : LeafsRequest → LeafsResponse → Prop).
Context (code_ok : list Hash → list bytes → Prop).
Implicit Types (d : DB env) (bl : Baseline) (s : sys env).

(** ** The writer's buffer *)

Lemma loader_step_ops d bl c r d' bl' op :
  loader_step d bl c = (r, d', bl') → op ∈ bl_ops bl' →
  op ∈ bl_ops bl ∨ call_op (bl_s bl) c = Some op.
Proof.
  assert (∀ op0, (if (baselineChunk <=? Z.of_nat (length (bl_ops (bl_append bl op0))))%Z
    then Flush d (bl_append bl op0) else (Ok (), d, bl_append bl op0)) = (r, d', bl') →
    op ∈ bl_ops bl' → op ∈ bl_ops bl ∨ op0 = op) as Hadd.
  { intros op0 Ha Hop. destruct (_ <=? _)%Z.
    - apply Flush_buffer in Ha. rewrite Ha in Hop. by apply elem_of_nil in Hop.
    - simplify_eq. cbn [bl_append bl_ops] in Hop.
      apply elem_of_app in Hop as [?| ->%list_elem_of_singleton]; auto. }
  destruct c; cbn [loader_step call_op]; intros Hs Hop;
    try (destruct (Hadd _ Hs Hop) as [?|<-]; by auto).
  - simplify_eq. by left.
  - apply Flush_buffer in Hs. rewrite Hs in Hop. by apply elem_of_nil in Hop.
Qed.

Lemma apply_blops_other m ops k :
  (∀ op, op ∈ ops → bo_k op ≠ k) → apply_blops m ops !! k = m !! k.
Proof.
  intros Hk. unfold apply_blops. revert m. induction ops as [|op ops IH]; intros m; [done|].
  cbn [foldl]. rewrite IH by (intros; apply Hk; by right).
  assert (bo_k op ≠ k) by (apply Hk; left). unfold apply_blop.
  destruct (bo_del op); [by rewrite lookup_delete_ne|by rewrite lookup_insert_ne].
Qed.

(** Keys outside the buffer read the same in the view and in the rows. *)
Lemma view_other d bl (X : keyset) k :
  (∀ op, op ∈ bl_ops bl → X (bo_k op)) → ¬ X k → k ≠ MetaBaselineProgress →
  view d bl !! k = rows d !! k.
Proof.
  intros Hops Hk Hp. unfold view.
  assert (apply_blops (rows d) (bl_ops bl) !! k = rows d !! k) as Hb.
  { apply apply_blops_other. intros op Hop <-. by apply Hk, Hops. }
  destruct (bl_progress bl); [|done]. cbn [put_progress]. by rewrite lookup_insert_ne.
Qed.

(** The part of [ghost] about the loader alone: [X] are the keys in the buffer. *)
Record loader_ok d bl (X : keyset) : Prop := {
  lo_wf : wf_db (rows d);
  lo_cache : cache_ok d;
  lo_buf : buffer_ok bl;
  lo_s : bl_s bl = S;
  lo_inv : ∃ bm, Inv (rows d) bm;
  lo_ops op : op ∈ bl_ops bl → X (bo_k op)
}.

Lemma loader_step_keys d bl (X : keyset) bm c r d' bl' :
  loader_ok d bl X → row_call S c → Inv (call_effect S (view d bl) c) bm →
  (∀ k, call_key S c = Some k → X k) → loader_step d bl c = (r, d', bl') →
  loader_ok d' bl' X ∧
  (∀ k, ¬ X k → k ≠ MetaBaselineProgress → rows d' !! k = rows d !! k) ∧
  (r = Ok () → view d' bl' = call_effect S (view d bl) c).
Proof.
  intros [Hwf Hc Hb Hs Hi Hops] Hrow Hi' HX Hl.
  destruct (loader_step_inv d bl c r d' bl' Hwf Hc Hb Hl) as (Hwf' & Hc' & Hb').
  destruct (loader_step_spec d bl c Hb) as (_ & Hs' & Hspec). rewrite Hl in *. cbn [snd] in *.
  assert (∀ op, op ∈ bl_ops bl' → X (bo_k op)) as Hops'.
  { intros op Hop. destruct (loader_step_ops _ _ _ _ _ _ _ Hl Hop) as [?|Ho]; [by apply Hops|].
    rewrite Hs in Ho. apply HX. unfold call_key. by rewrite Ho. }
  rewrite Hs in Hs', Hspec.
  destruct r as [[]|e].
  - destruct Hspec as [Hv Hr]. split_and!; [split; try done|..|done].
    + destruct Hr as [->|Hr]; [done|]. exists bm. by rewrite Hr, Hv.
    + intros k Hk Hp. destruct Hr as [->|Hr]; [done|]. rewrite Hr, Hv.
      rewrite call_effect_other; [by eapply view_other| |done]. intros Hck. by apply Hk, HX.
  - split_and!; [split; try done; by rewrite Hspec|by intros; rewrite Hspec|done].
Qed.

Lemma loader_run_keys d bl (X : keyset) bm cs r d' bl' :
  loader_ok d bl X → Forall (row_call S) cs → calls_inv S Inv (view d bl, bm) cs →
  (∀ c k, c ∈ cs → call_key S c = Some k → X k) → loader_run d bl cs = (r, d', bl') →
  loader_ok d' bl' X ∧
  (∀ k, ¬ X k → k ≠ MetaBaselineProgress → rows d' !! k = rows d !! k) ∧
  (r = Ok () → view d' bl' = foldl (call_effect S) (view d bl) cs).
Proof.
  intros Hlo Hrow. revert d bl Hlo. induction Hrow as [|c cs Hc _ IH]; intros d bl Hlo Hi HX Hl.
  { cbn [loader_run] in Hl. by simplify_eq. }
  cbn [loader_run] in Hl. destruct Hi as [_ Hi]. rewrite pstep_row in Hi by done. cbn [fst snd] in Hi.
  destruct (loader_step d bl c) as [[r1 d1] bl1] eqn:E1.
  destruct (loader_step_keys d bl X bm c r1 d1 bl1) as (Hlo1 & Hr1 & Hv1); try done.
  { apply calls_inv_start in Hi. done. }
  { intros k. apply HX. left. }
  destruct r1 as [[]|e]; [|by simplify_eq].
  rewrite <-Hv1 in Hi by done. destruct (IH d1 bl1) as (Hlo' & Hr' & Hv'); try done.
  { intros. eapply HX; [by right|done]. }
  split_and!; [done| |].
  - intros k Hk Hp. rewrite Hr', Hr1 by done. done.
  - intros ->. rewrite Hv' by done. cbn [foldl]. by rewrite Hv1.
Qed.

(** The loader fails only where LMDB does. *)
Lemma loader_step_err d bl c e d' bl' :
  buffer_ok bl → loader_step d bl c = (Err e, d', bl') → faults ∧ ∃ x, e = ErrLmdb x.
Proof.
  intros Hb.
  assert (∀ op, blop_ok op → (if (baselineChunk <=? Z.of_nat (length (bl_ops (bl_append bl op))))%Z
    then Flush d (bl_append bl op) else (Ok (), d, bl_append bl op)) = (Err e, d', bl') →
    faults ∧ ∃ x, e = ErrLmdb x) as Hadd.
  { intros op Hop. destruct (_ <=? _)%Z; [|done]. intros Hf.
    pose proof (Flush_cases d (bl_append bl op)) as Hc. rewrite Hf in Hc.
    destruct Hc as (_ & _ & ? & x & ->); [|by split; [|exists x]]. apply Forall_app. by split; [|constructor]. }
  destruct c; try done;
    try (match goal with |- loader_step _ _ ?c = _ → _ =>
      destruct (call_op (bl_s bl) c) as [op|] eqn:Eo; [|discriminate];
      pose proof (Hadd op (call_op_ok _ _ _ Eo)) as Ha; injection Eo as <-; exact Ha end).
  intros Hf. pose proof (Flush_cases d bl Hb) as Hc. cbn [loader_step] in Hf. rewrite Hf in Hc.
  destruct Hc as (_ & _ & ? & x & ->). by split; [|exists x].
Qed.

Lemma loader_run_err d bl cs e d' bl' :
  buffer_ok bl → loader_run d bl cs = (Err e, d', bl') → faults ∧ ∃ x, e = ErrLmdb x.
Proof.
  revert d bl. induction cs as [|c cs IH]; intros d bl Hb; cbn [loader_run]; [done|].
  destruct (loader_step_spec d bl c Hb) as (Hb1 & _).
  destruct (loader_step d bl c) as [[[[]|e1] d1] bl1] eqn:E1; cbn [snd] in Hb1; [by apply IH|].
  intros [= <- <- <-]. exact (loader_step_err _ _ _ _ _ _ Hb E1).
Qed.

(** ** The ghost state *)

Definition writer_ok s (G : lst) : Prop :=
  Forall (λ b, Forall (row_call S) (b_apply b) ∧ ∀ k, sends S b k → l_sent G k ∨ free_key k) (y_chan s) ∧
  chan_inv S Inv (view (y_db s) (y_bl s), y_bitmap s) (y_chan s) ∧
  (∀ k, ¬ free_key k →
     (chan_end S (view (y_db s) (y_bl s), y_bitmap s) (y_chan s)).1 !! k = l_rows G !! k) ∧
  (∀ op, op ∈ bl_ops (y_bl s) → l_sent G (bo_k op) ∨ free_key (bo_k op)).

Record ghost s (G : lst) : Prop := {
  gh_loader : loader_ok (y_db s) (y_bl s) (λ _, True);
  gh_unsent k : ¬ free_key k → ¬ l_sent G k → rows (y_db s) !! k = l_rows G !! k;
  gh_writer : y_werr s = None → (∀ e, y_reply s ≠ Some (Err e)) → writer_ok s G;
  gh_werr e : y_werr s = Some e → faults ∧ ∃ x, e = ErrLmdb x
}.

(** A fence is the last bundle, and a failed fence leaves the channel empty. *)
Definition fence_ok s : Prop :=
  (∀ i b, y_chan s !! i = Some b → b_barrier b = true → y_chan s !! (i + 1)%nat = None) ∧
  ∀ e, y_reply s = Some (Err e) → y_chan s = [].

Lemma loader_ok_sub d bl (X Y : keyset) :
  loader_ok d bl X → (∀ op, op ∈ bl_ops bl → Y (bo_k op)) → loader_ok d bl Y.
Proof. by intros [] ?. Qed.

Lemma SetProgress_view d bl p :
  view d (SetProgress bl (Some p)) = <[MetaBaselineProgress:=p]> (view d bl).
Proof.
  unfold view. cbn [SetProgress bl_ops bl_progress put_progress].
  destruct (bl_progress bl); cbn [put_progress]; [by rewrite insert_insert_eq|done].
Qed.

(** A flush inside the writer commits the view. *)
Lemma Flush_ok d bl (X : keyset) bm r d' bl' :
  loader_ok d bl X → Inv (view d bl) bm → Flush d bl = (r, d', bl') →
  loader_ok d' bl' X ∧
  (∀ k, ¬ X k → k ≠ MetaBaselineProgress → rows d' !! k = rows d !! k) ∧
  bl_ops bl' = [] ∧
  match r with Ok _ => rows d' = view d bl ∧ view d' bl' = view d bl | Err _ => rows d' = rows d end.
Proof.
  intros [Hwf Hc Hb Hs Hi Hops] Hv Hf.
  destruct (Flush_inv d bl r d' bl' Hwf Hc Hb Hf) as (Hwf' & Hc' & Hb').
  pose proof (Flush_cases d bl Hb) as Hcase. rewrite Hf in Hcase.
  destruct r as [[]|e].
  - destruct Hcase as (Hr & -> & _). split_and!; [split; try done|..|done|done|].
    + rewrite Hr. by exists bm.
    + intros op Hop. by apply elem_of_nil in Hop.
    + intros k Hk Hp. rewrite Hr. by eapply view_other.
    + by rewrite <-Hr.
  - destruct Hcase as (-> & -> & _). split_and!; [split; try done|done..].
    intros op Hop. by apply elem_of_nil in Hop.
Qed.

(** What a step of the writer leaves alone. *)
Definition same_workers s s' : Prop :=
  y_claims s' = y_claims s ∧ y_calls s' = y_calls s ∧ y_phase s' = y_phase s.

Lemma loader_ok_progress d bl (X : keyset) p :
  loader_ok d bl X → loader_ok d (SetProgress bl (Some p)) X.
Proof. by intros [Hwf Hc Hb Hs Hi Hops]; split. Qed.

(** The calls of a bundle leave the writer at its logical end. *)
Lemma bundle_run d bl bm b (X : keyset) d1 bl1 :
  loader_ok d bl X → Forall (row_call S) (b_apply b) → (∀ k, sends S b k → X k) →
  calls_inv S Inv (view d bl, bm) (bundle_calls bm b) →
  loader_run d bl (b_apply b) = (Ok (), d1, bl1) →
  let bm' := if b_final b then set_bit bm (b_seg b) else bm in
  let bl' := if b_final b then SetProgress bl1 (Some bm') else bl1 in
  loader_ok d1 bl' X ∧ (∀ k, ¬ X k → k ≠ MetaBaselineProgress → rows d1 !! k = rows d !! k) ∧
  (view d1 bl', bm') = bundle_end S (view d bl, bm) b.
Proof.
  intros Hlo Hrow HX Hci Hl bm' bl'. unfold bundle_calls in Hci.
  apply calls_inv_app in Hci as [Hci _].
  destruct (loader_run_keys d bl X bm _ (Ok ()) d1 bl1 Hlo Hrow Hci) as (Hlo1 & Hr1 & Hv1); [|done|].
  { intros c k Hc Hk. apply HX. by exists c. }
  specialize (Hv1 eq_refl).
  assert (loader_ok d1 bl' X) by (unfold bl'; destruct (b_final b); [by apply loader_ok_progress|done]).
  split_and!; [done|done|]. unfold bundle_end, bundle_calls, bm', bl'.
  rewrite foldl_app, (psteps_rows S (view d bl, bm)) by done. cbn [fst snd].
  destruct (b_final b); cbn [foldl]; [|by rewrite Hv1].
  rewrite SetProgress_view, Hv1. done.
Qed.

Lemma ghost_chan s G b chan :
  ghost s G → fence_ok s → y_chan s = b :: chan → y_werr s = None →
  let X := λ k, l_sent G k ∨ free_key k in
  writer_ok s G ∧ loader_ok (y_db s) (y_bl s) X ∧
  Forall (row_call S) (b_apply b) ∧ (∀ k, sends S b k → X k) ∧
  calls_inv S Inv (view (y_db s) (y_bl s), y_bitmap s) (bundle_calls (y_bitmap s) b) ∧
  (b_barrier b = true → chan = []).
Proof.
  intros [Hlo Hu Hw _] [Hlast Hf] Hc Hn X.
  assert (writer_ok s G) as Hwo.
  { apply Hw; [done|]. intros e He. apply Hf in He. congruence. }
  split; [done|]. destruct Hwo as (Hfa & Hci & _ & Hops). rewrite Hc in Hfa, Hci.
  inversion_clear Hfa as [|? ? [Hrow Hs] _]. destruct Hci as [Hci _].
  split_and!; [by eapply loader_ok_sub|done..|].
  intros Hb. specialize (Hlast 0 b). rewrite Hc in Hlast. specialize (Hlast eq_refl Hb).
  by destruct chan.
Qed.

Lemma fence_ok_tail s s' :
  fence_ok s → y_chan s' = tail (y_chan s) → (∀ e, y_reply s' = Some (Err e) → y_chan s' = []) →
  fence_ok s'.
Proof.
  intros [Hl _] Hc Hr. split; [|done]. intros i b Hi Hb. rewrite Hc in *.
  destruct (y_chan s) as [|b0 chan]; [done|]. exact (Hl (1 + i) b Hi Hb).
Qed.

Lemma writer_step_shape s s' :
  writer_step s = Some s' →
  same_workers s s' ∧ y_chan s' = tail (y_chan s) ∧
  (y_reply s' = y_reply s ∨
   y_werr s = None ∧ ∃ b chan, y_chan s = b :: chan ∧ b_barrier b = true).
Proof.
  unfold writer_step. destruct (y_chan s) as [|b chan]; [done|].
  destruct (y_werr s); [intros; simplify_eq; by split_and!; [..|left]|].
  destruct (loader_run _ _ _) as [[[] ?] ?]; [|intros; simplify_eq; by split_and!; [..|left]].
  destruct (b_barrier b) eqn:Hb; [destruct (Flush _ _) as [[]]|]; intros; simplify_eq;
    (split_and!; [done|done|]); [right; split; [done|by exists b, chan]|by left].
Qed.

Lemma writer_sound s G s' :
  ghost s G → fence_ok s → writer_step s = Some s' →
  ghost s' G ∧ fence_ok s' ∧ same_workers s s' ∧ y_chan s' = tail (y_chan s).
Proof.
  intros Hg Hfe Hst. destruct (writer_step_shape s s' Hst) as (Hsw & Hch & Hrep).
  assert (ghost s' G ∧ (∀ e, y_reply s' = Some (Err e) → y_chan s' = [])) as [Hg' Hrep'].
  2: { split_and!; [done|by eapply fence_ok_tail|done..]. }
  split; cycle 1.
  { intros e He. rewrite Hch. destruct Hrep as [Hrep|(Hn & b & chan & Hc & Hb)].
    - rewrite Hrep in He. destruct Hfe as [_ Hf]. by rewrite (Hf e He).
    - rewrite Hc. apply (ghost_chan s G b chan Hg Hfe Hc Hn). done. }
  clear Hsw Hch Hrep. unfold writer_step in Hst. destruct (y_chan s) as [|b chan] eqn:Ec; [done|].
  destruct (y_werr s) as [e|] eqn:Ew.
  { injection Hst as <-. destruct Hg as [? ? ? Hwe]. split; cbn [y_db y_bl y_werr]; [done|done|done|]. intros e0 He0. apply Hwe. congruence. }
  destruct (ghost_chan s G b chan Hg Hfe Ec Ew) as (Hwo & Hlo & Hrow & HX & Hci & _).
  destruct (loader_run (y_db s) (y_bl s) (b_apply b)) as [[r d1] bl1] eqn:El.
  assert (∀ d' bl' (X : keyset), loader_ok d' bl' X → loader_ok d' bl' (λ _, True)) as Htrue.
  { intros d' bl' X Hok. by eapply loader_ok_sub. }
  assert (∀ d', (∀ k, ¬ (l_sent G k ∨ free_key k) → k ≠ MetaBaselineProgress →
      rows d' !! k = rows (y_db s) !! k) →
    ∀ k, ¬ free_key k → ¬ l_sent G k → rows d' !! k = l_rows G !! k) as Hun.
  { intros d' Hd' k Hk Hs. rewrite Hd'; [by apply (gh_unsent _ _ Hg)|naive_solver|].
    intros ->. apply Hk. by left. }
  destruct r as [[]|e]; cycle 1.
  { injection Hst as <-. pose proof (proj1 (calls_inv_app S Inv _ _ _) Hci) as [Hci' _].
    destruct (loader_run_keys _ _ _ (y_bitmap s) _ (Err e) d1 bl1 Hlo Hrow Hci')
      as (Hlo1 & Hr1 & _); [by intros c k Hc Hk; apply HX; exists c|done|].
    split; cbn [y_db y_bl y_werr]; [by eapply Htrue|by apply Hun|done|].
    intros e0 [= <-]. exact (loader_run_err _ _ _ _ _ _ (lo_buf _ _ _ Hlo) El). }
  destruct (bundle_run _ _ _ _ _ _ _ Hlo Hrow HX Hci El) as (Hlo1 & Hr1 & He). cbv zeta in *.
  set (bm' := if b_final b then set_bit (y_bitmap s) (b_seg b) else y_bitmap s) in *.
  set (bl' := if b_final b then SetProgress bl1 (Some bm') else bl1) in *.
  destruct Hwo as (Hf & Hcinv & Hend & _). rewrite Ec in Hf, Hcinv, Hend.
  inversion_clear Hf as [|? ? _ Hf']. destruct Hcinv as [_ Hcinv].
  change (chan_end S ?P (b :: chan)) with (chan_end S (bundle_end S P b) chan) in Hend.
  rewrite <-He in Hcinv, Hend.
  destruct (b_barrier b); cycle 1.
  { injection Hst as <-. split; cbn [y_db y_bl y_werr]; [by eapply Htrue|by apply Hun| |done].
    intros _ _. split_and!; cbn [y_db y_bl y_bitmap y_chan]; [done..|apply Hlo1]. }
  destruct (Flush d1 bl') as [[r2 d2] bl2] eqn:Ef. injection Hst as <-.
  destruct (Flush_ok d1 bl' _ bm' r2 d2 bl2 Hlo1) as (Hlo2 & Hr2 & Hops2 & Hr); [|done|].
  { by apply chan_inv_start in Hcinv. }
  split; cbn [y_db y_bl y_werr y_reply]; [by eapply Htrue| | |done].
  - apply Hun. intros k Hk Hp. rewrite Hr2, Hr1 by done. done.
  - intros _ Hne. destruct r2 as [[]|e]; [|by destruct (Hne e)]. destruct Hr as [_ Hv].
    split_and!; cbn [y_db y_bl y_bitmap y_chan]; [done|by rewrite Hv|by rewrite Hv|apply Hlo2].
Qed.

(** ** Goroutines *)

Context (cl : Client) (scan_fuel : env → nat).
Context (client_ok : ∀ n req resp, cl_GetLeafs cl n req = Ok resp → leafs_ok req resp).
Context (client_code_ok : ∀ n hashes blobs, cl_GetCode cl n hashes = Ok blobs → code_ok hashes blobs).
Context (scan_enough : ∀ e, size (contents e) < scan_fuel e).

Abbreviation safe := (safe S Inv leafs_ok code_ok).

Definition going s : Prop := ∀ e, y_reply s ≠ Some (Err e).

(** What a step of a goroutine leaves alone. *)
Definition same_main s s' : Prop :=
  y_reply s' = y_reply s ∧ y_phase s' = y_phase s ∧
  (y_chan s' = y_chan s ∨ ∃ b, b_barrier b = false ∧ y_chan s' = y_chan s ++ [b]).

Lemma ghost_same s s' G :
  ghost s G → y_db s' = y_db s → y_bl s' = y_bl s → y_bitmap s' = y_bitmap s →
  y_werr s' = y_werr s → y_chan s' = y_chan s → y_reply s' = y_reply s → ghost s' G.
Proof.
  intros [Hl Hu Hw Hwe] Hd Hb Hm He Hc Hr. split; [by rewrite Hd, Hb|by rewrite Hd| |by rewrite He].
  unfold writer_ok in *. by rewrite Hd, Hb, Hm, He, Hc, Hr.
Qed.

(** Sending a bundle. *)
Lemma ghost_send s G K L b :
  ghost s G → going s → agree K L G → may_send S Inv K L b → ghost (push s b) (send S G b).
Proof.
  intros [Hl Hu Hw Hwe] Hgo Ha (Hbar & Hrow & Hkeys & Hci). split; [done| | |done].
  - intros k Hk Hs. cbn [push y_db send l_rows l_sent] in *. rewrite Hu by naive_solver.
    symmetry. apply effects_other; [|by intros ->; apply Hk; left].
    intros c Hc Hck. apply Hs. right. by exists c.
  - intros He _. destruct (Hw He Hgo) as (Hf & Hc & Hend & Hops).
    unfold writer_ok. cbn [push y_db y_bl y_chan y_bitmap].
    set (P := (view (y_db s) (y_bl s), y_bitmap s)) in *.
    split_and!.
    + apply Forall_app. split; [|constructor; [|done]].
      * eapply Forall_impl; [exact Hf|]. intros b' [? Hb']. split; [done|].
        intros k Hk. destruct (Hb' k Hk); [left; by left|by right].
      * split; [done|]. intros k Hk. left. by right.
    + apply chan_inv_snoc; [done|]. apply Hci; [|by apply chan_inv_end].
      intros k HK Hk. rewrite Hend by done. symmetry. by apply Ha.
    + intros k Hk. rewrite chan_end_snoc. unfold bundle_end, bundle_calls.
      rewrite foldl_app, (psteps_rows S (chan_end S P (y_chan s))) by done.
      assert (k ≠ MetaBaselineProgress) by (intros ->; apply Hk; by left).
      transitivity (foldl (call_effect S) (chan_end S P (y_chan s)).1 (b_apply b) !! k).
      { destruct (b_final b); [|done]. cbn [foldl pstep fst call_effect].
        by rewrite lookup_insert_ne by congruence. }
      cbn [send l_rows]. apply (effects_congr S); [done|by apply Hend].
    + intros op Hop. destruct (Hops op Hop); [left; by left|by right].
Qed.

Lemma seen_rows s G K L :
  ghost s G → agree K L G → seen Inv K L (rows (y_db s)).
Proof.
  intros [Hl Hu _ _] Ha. split_and!; [apply Hl|apply Hl|].
  intros k HK Hk Hs. destruct (Ha k HK Hk) as [-> Hiff]. apply Hu; [done|]. by rewrite <-Hiff.
Qed.

(** The state a goroutine's step reaches, seen from outside its rows. *)
Definition stepped (K : keyset) s G s' (p' : prog) (Q : lst → Prop) : Prop :=
  ∃ G' L', ghost s' G' ∧ safe K p' Q L' ∧ agree K L' G' ∧ frame K G G' ∧ same_main s s'.

Lemma stepped_same (K : keyset) s G s' p' Q L :
  ghost s' G → safe K p' Q L → agree K L G → same_main s s' → stepped K s G s' p' Q.
Proof. intros. by exists G, L. Qed.

Lemma bump_same s G : ghost s G → ghost (bump s) G ∧ same_main s (bump s).
Proof. intros Hg. split; [by eapply ghost_same|]. by split_and!; [..|left]. Qed.

Lemma omap_nil_lookup ps i p : omap prog_error ps = [] → ps !! i = Some p → prog_error p = None.
Proof.
  revert i. induction ps as [|q ps IH]; intros i Ho Hi; [done|]. cbn [omap list_omap] in Ho.
  destruct (prog_error q) eqn:Eq; [done|]. destruct i; simplify_eq/=; [done|by eapply IH].
Qed.

Lemma omap_cons_lookup ps e es : omap prog_error ps = e :: es → ∃ i, ps !! i = Some (PFail e).
Proof.
  intros Ho. assert (e ∈ omap prog_error ps) as (p & Hp & He)%list_elem_of_omap by (rewrite Ho; left).
  destruct p; simplify_eq/=. by apply list_elem_of_lookup in Hp.
Qed.

Lemma op_sound vars order (K : keyset) p Q L s G s' p' :
  safe K p Q L → agree K L G → ghost s G → going s →
  op_step vars cl scan_fuel order s p = Some (s', p') → stepped K s G s' p' Q.
Proof.
  intros Hs Ha Hg Hgo Hop. destruct (bump_same s G Hg) as [Hgb Hsb].
  assert (same_main s s) as Hrefl by (by split_and!; [..|left]).
  inversion Hs as [? ? ? HQ|? ? ? ? He|? ? ? ? ? Hk|? ? ? ? ? Hk|? ? ? ? ? Hk|? ? ? ? ? Hm Hk
    |? ? ? ? ? ? ? Hk|? ? ? ? ? Hk|? ? ? ? ? Hk|? ? ? ? ? Ks Qs Ls HK Hd Hps Hk]; subst;
    cbn [op_step] in Hop; simplify_eq.
  - destruct (cl_GetLeafs cl (y_calls s) req) as [resp|] eqn:Er; eapply stepped_same; try done.
    + by eapply Hk, client_ok.
    + by constructor.
  - destruct (cl_GetCode cl (y_calls s) hashes) as [blobs|] eqn:Er; eapply stepped_same; try done.
    + by eapply Hk, client_code_ok.
    + by constructor.
  - eapply stepped_same; [by eapply ghost_same|apply Hk|done|by split_and!; [..|left]].
  - destruct (has_room vars s); [|done]. simplify_eq. exists (send S G b), (send S L b). split_and!.
    + by eapply ghost_send.
    + done.
    + intros k HK Hf. destruct (Ha k HK Hf) as [Hr Hiff]. split; cbn [send l_rows l_sent]; [|tauto].
      apply effects_congr; [|done]. intros ->. apply Hf. by left.
    + intros k HK Hf. destruct Hm as (_ & _ & Hkeys & _).
      assert (¬ sends S b k) as Hns by (intros Hk'; destruct (Hkeys k Hk'); done).
      split; cbn [send l_rows l_sent]; [|tauto]. symmetry. apply effects_other.
      * intros c Hc Hck. apply Hns. by exists c.
      * intros ->. apply Hf. by left.
    + split_and!; [done|done|right]. exists b. split; [apply Hm|done].
  - destruct (MaxBaseSlot_upto (y_db s') h start end_) as (o & Hup & Ho); [apply Hg|].
    destruct (MaxBaseSlot (y_db s') h start end_) as [o'|e] eqn:Em; eapply stepped_same; try done.
    + eapply Hk; [by eapply seen_rows|]. by destruct Hup as [[= ->]|[_ [c ?]]].
    + constructor. by destruct Hup as [?|[_ [c [= ->]]]].
  - destruct (StorageQueueAfter_upto (scan_fuel (db_env (y_db s'))) (y_db s') after scanBatch)
      as (o & Hup & Ho); [apply Hg|apply scan_enough|].
    destruct (StorageQueueAfter _ _ _ _) as [o'|e] eqn:Em; eapply stepped_same; try done.
    + eapply Hk; [by eapply seen_rows|]. by destruct Hup as [[= ->]|[_ [c ?]]].
    + by constructor.
  - case_bool_decide; simplify_eq. eapply stepped_same; [done|by apply Hk|done..].
  - destruct (omap prog_error ps) as [|e es] eqn:Eo.
    + destruct (forallb prog_done ps) eqn:Ef; simplify_eq.
      eapply stepped_same; [done| |exact Ha|done]. apply Hk; [|by intros].
      intros i Hi. apply lookup_lt_is_Some_2 in Hi as [q Hq]. destruct (Hps i q Hq) as [Hsafe Hag].
      rewrite forallb_forall in Ef. assert (prog_done q = true) as Hqd.
      { apply Ef. apply list_elem_of_In. by eapply list_elem_of_lookup_2. }
      destruct q; try done. inversion Hsafe; subst. by eauto.
    + simplify_eq. destruct (omap_cons_lookup _ _ _ Eo) as [i Hi].
      destruct (Hps i _ Hi) as [Hsafe _]. inversion Hsafe; subst.
      eapply stepped_same; [done|by constructor|done..].
Qed.

Lemma cancel_sound (K : keyset) p Q L s G p' :
  safe K p Q L → agree K L G → ghost s G → op_cancel p = Some p' → stepped K s G s p' Q.
Proof.
  intros Hs Ha Hg Hc. eapply stepped_same; [done| |done|by split_and!; [..|left]].
  destruct p; simplify_eq/=; by constructor.
Qed.

(** A step anywhere in the tree of forks. *)
Lemma path_sound f path (K : keyset) p Q L s G s' p' :
  (∀ (K : keyset) p Q L s G s' p', safe K p Q L → agree K L G → ghost s G → going s →
     f s p = Some (s', p') → stepped K s G s' p' Q) →
  safe K p Q L → agree K L G → ghost s G → going s →
  at_path f path s p = Some (s', p') → stepped K s G s' p' Q.
Proof.
  intros Hf. revert K p Q L G s' p'. induction path as [|i path IH]; intros K p Q L G s' p' Hs Ha Hg Hgo Hat;
    [by eapply Hf|]. cbn [at_path] in Hat.
  destruct p as [| | | | | | | | |ps k]; try done.
  destruct (ps !! i) as [q|] eqn:Hq; [|done].
  destruct (at_path f path s q) as [[s1 q1]|] eqn:Hat1; simplify_eq.
  inversion Hs as [| | | | | | | | |? ? ? ? ? Ks Qs Ls HK Hd Hps Hk]; subst.
  destruct (Hps i q Hq) as [Hsafe Hag].
  destruct (IH (Ks i) q (Qs i) (Ls i) G s' q1) as (G' & L' & Hg' & Hs' & Ha' & Hf' & Hm'); try done.
  { eapply agree_trans; [exact Hag|]. by eapply agree_sub; [|exact Ha]; eauto. }
  exists G', G'. split_and!; [done| |apply agree_refl|by eapply frame_sub; [|exact Hf']; eauto|done].
  assert (∀ j, j ≠ i → agree (Ks j) (Ls j) L → agree (Ks j) (Ls j) G') as Hothers.
  { intros j Hj Haj. eapply (agree_frame _ (Ks i)); [|eapply agree_trans; [exact Haj|]|exact Hf'].
    - intros x H1 H2. by eapply (Hd j i x).
    - eapply agree_sub; [|exact Ha]. eauto. }
  apply (safe_par _ _ _ _ K _ k Q G' Ks Qs (λ j, if decide (j = i) then L' else Ls j)); [done|done| |].
  - intros j r Hj. destruct (decide (j = i)) as [->|Hne].
    + rewrite list_lookup_insert_eq in Hj by (by eapply lookup_lt_Some). by simplify_eq.
    + rewrite list_lookup_insert_ne in Hj by done. destruct (Hps j r Hj). by eauto.
  - intros L1 HQ Hsame. rewrite length_insert in HQ, Hsame. apply Hk; [done|].
    intros x Hx HKx Hfx. destruct (Hsame x Hx HKx Hfx) as [H1 H2].
    assert (¬ Ks i x) as Hnx by (apply Hx; by eapply lookup_lt_Some).
    destruct (Ha x HKx Hfx) as [H3 H4], (Hf' x Hnx Hfx) as [H5 H6].
    split; [congruence|tauto].
Qed.

(** ** Phases *)

Lemma Flush_clean d bl d' bl' :
  Flush d bl = (Ok (), d', bl') → bl_ops bl' = [] ∧ view d' bl' = rows d'.
Proof.
  unfold Flush. destruct (_ && _) eqn:E.
  - intros [= <- <-]. apply andb_true_iff in E as [E1 E2].
    apply Nat.eqb_eq, nil_length_inv in E1. apply bool_decide_eq_true in E2.
    unfold view. by rewrite E1, E2.
  - destruct (Update _ _) as [[[]|e] e']; [|done]. by intros [= <- <-].
Qed.

(** A fence that succeeds has committed everything sent before it. *)
Lemma fence_commits s G s' :
  ghost s G → fence_ok s → y_chan s = [barrier_bundle] → y_werr s = None →
  writer_step s = Some s' →
  y_werr s' = None ∧ y_chan s' = [] ∧
  ∃ r, y_reply s' = Some r ∧ r ≠ Err (ErrMsg "fuel") ∧
    (r = Ok () → ghost s' (MkLst (l_rows G) (λ _, False))).
Proof.
  intros Hg Hfe Hc Hn Hst.
  destruct (writer_sound s G s' Hg Hfe Hst) as ([Hl Hu Hw Hwe] & _ & _ & Hch).
  rewrite Hc in Hch. cbn [tail] in Hch.
  unfold writer_step in Hst. rewrite Hc, Hn in Hst. cbn [barrier_bundle b_apply b_final b_barrier loader_run] in Hst.
  destruct (Flush (y_db s) (y_bl s)) as [[r d1] bl1] eqn:Ef. injection Hst as Hst.
  assert (y_db s' = d1 ∧ y_bl s' = bl1 ∧ y_werr s' = None ∧ y_reply s' = Some r) as (Hd & Hb & Hn' & Hr)
    by (by rewrite <-Hst).
  split_and!; [done|done|]. exists r. split_and!; [done| |intros ->].
  { pose proof (Flush_cases (y_db s) (y_bl s) (lo_buf _ _ _ (gh_loader _ _ Hg))) as Hf.
    rewrite Ef in Hf. destruct r; [done|]. by destruct Hf as (_ & _ & _ & c & ->). }
  destruct (Flush_clean _ _ _ _ Ef) as [Hops Hv]. rewrite <-Hd, <-Hb in Hv. rewrite <-Hb in Hops.
  assert (writer_ok s' G) as (_ & Hci & Hend & _) by (apply Hw; [done|by rewrite Hr]).
  rewrite Hch, Hv in Hci, Hend. cbn [chan_end foldl fst] in Hend.
  split; [done|by intros k Hk _; apply Hend| |done]. intros _ _. unfold writer_ok.
  rewrite Hch, Hv, Hops. split_and!; [constructor|done|by intros k Hk; apply Hend|].
  intros op Hop. by apply elem_of_nil in Hop.
Qed.

Context (Q1 Q2 : lst → Prop) (rlp_content : bytes → option bytes) (vars : Vars) (fuel : nat).
(** Phase 2 is safe from the end of phase 1 on, behind the fence. *)
Context (drain_safe : ∀ L L', Q1 L → (∀ k, ¬ free_key k → l_rows L' !! k = l_rows L !! k) →
  (∀ k, ¬ l_sent L' k) → safe (λ _, True) (drain_prog rlp_content vars fuel) Q2 L').

Abbreviation sys_next := (sys_next rlp_content vars cl fuel scan_fuel).
Abbreviation sys_run := (sys_run rlp_content vars cl fuel scan_fuel).

Definition no_barrier (chan : list bundle) : Prop := Forall (λ b, b_barrier b = false) chan.
Definition reaches (Q : lst → Prop) (G : lst) : Prop := ∃ L, Q L ∧ agree (λ _, True) L G.
Definition runs_to (p : prog) (Q : lst → Prop) (G : lst) : Prop :=
  ∃ L, safe (λ _, True) p Q L ∧ agree (λ _, True) L G.

Definition phase_inv s (G : lst) : Prop :=
  match y_phase s with
  | PhSegments p => y_reply s = None ∧ no_barrier (y_chan s) ∧ runs_to p Q1 G
  | PhFence =>
      reaches Q1 G ∧
      (y_reply s = None ∧
         (y_werr s = None → ∃ pre, y_chan s = pre ++ [barrier_bundle] ∧ no_barrier pre) ∨
       y_chan s = [] ∧ ∃ r, y_reply s = Some r ∧ r ≠ Err (ErrMsg "fuel") ∧
         (r = Ok () → ghost s (MkLst (l_rows G) (λ _, False))))
  | PhDrain p => y_reply s = Some (Ok ()) ∧ no_barrier (y_chan s) ∧ runs_to p Q2 G
  | PhClosed (Ok _) => y_reply s = Some (Ok ()) ∧ no_barrier (y_chan s) ∧ reaches Q2 G
  | PhClosed (Err e) => e ≠ ErrMsg "fuel"
  | PhPanic => True
  end.

Definition sys_inv s : Prop := ∃ G, ghost s G ∧ fence_ok s ∧ phase_inv s G.

Lemma no_barrier_fence s : no_barrier (y_chan s) → going s → fence_ok s.
Proof.
  intros Hn Hg. split.
  - intros i b Hi Hb. unfold no_barrier in Hn. rewrite Forall_lookup in Hn. specialize (Hn i b Hi). congruence.
  - intros e He. by destruct (Hg e).
Qed.

Lemma no_barrier_step s s' : same_main s s' → no_barrier (y_chan s) → no_barrier (y_chan s').
Proof.
  intros (_ & _ & [->|(b & Hb & ->)]); [done|]. intros. apply Forall_app. by split; [|constructor].
Qed.

Lemma ghost_phase s G ph : ghost s G → ghost (set_phase s ph) G.
Proof. intros Hg. by eapply ghost_same. Qed.

Lemma phase_step_sound f path s s' :
  (∀ (K : keyset) p Q L s G s' p', safe K p Q L → agree K L G → ghost s G → going s →
     f s p = Some (s', p') → stepped K s G s' p' Q) →
  sys_inv s → phase_step f path s = Some s' → sys_inv s'.
Proof.
  intros Hf (G & Hg & Hfe & Hph) Hst. unfold phase_step, phase_inv in *.
  destruct (y_phase s) as [p| |p|r|] eqn:Ep; [|done| |done|done].
  all: destruct Hph as (Hr & Hnb & L & Hs & Ha);
    assert (going s) as Hgo by (intros e He; congruence);
    destruct (at_path f path s p) as [[s1 p1]|] eqn:Hat; [|done]; injection Hst as <-;
    destruct (path_sound f path _ p _ L s G s1 p1 Hf Hs Ha Hg Hgo Hat)
      as (G' & L' & Hg' & Hs' & Ha' & _ & Hm);
    pose proof (no_barrier_step _ _ Hm Hnb) as Hnb'; destruct Hm as (Hr' & _ & _);
    exists G'; split_and!; [by apply ghost_phase|apply no_barrier_fence; [done|]|].
  1, 3: intros e He; cbn [set_phase y_reply] in He; congruence.
  all: unfold phase_inv; cbn [set_phase y_phase y_reply y_chan]; split_and!; [congruence|done|by exists L'].
Qed.

Lemma writer_step_inv s s' : sys_inv s → writer_step s = Some s' → sys_inv s'.
Proof.
  intros (G & Hg & Hfe & Hph) Hst.
  destruct (writer_sound s G s' Hg Hfe Hst) as (Hg' & Hfe' & (_ & _ & Hp) & Hch).
  destruct (writer_step_shape s s' Hst) as (_ & _ & Hrep).
  assert (no_barrier (y_chan s) → no_barrier (y_chan s') ∧ y_reply s' = y_reply s) as Hnb.
  { intros Hnb. split; [rewrite Hch; by apply Forall_tail|].
    destruct Hrep as [?|(_ & b & chan & Hc & Hb)]; [done|]. rewrite Hc in Hnb.
    inversion Hnb; subst. congruence. }
  exists G. split_and!; [done..|]. unfold phase_inv in *. rewrite Hp.
  destruct (y_phase s) as [p| |p|[[]|e]|].
  - destruct Hph as (? & Hn & ?). destruct (Hnb Hn) as [? ->]. done.
  - destruct Hph as [HQ Hcase]. split; [done|].
    destruct Hcase as [[Hr Hpre]|[Hc _]]; cycle 1.
    { unfold writer_step in Hst. by rewrite Hc in Hst. }
    destruct (y_werr s) as [e|] eqn:Ew.
    + left. destruct Hrep as [Hrep|[? _]]; [|done]. split; [congruence|]. intros Hw.
      unfold writer_step in Hst. rewrite Ew in Hst. destruct (y_chan s); [done|]. injection Hst as Hst. by rewrite <-Hst in Hw.
    + destruct (Hpre eq_refl) as (pre & Hc & Hn). destruct pre as [|b pre].
      * right. destruct (fence_commits s G s' Hg Hfe Hc Ew Hst) as (_ & ? & r & ? & ? & ?). by eauto.
      * left. rewrite Hc in Hch. cbn [app tail] in Hch. inversion Hn; subst.
        destruct Hrep as [Hrep|(_ & b' & chan & Hc' & Hb)]; cycle 1.
        { rewrite Hc in Hc'. simplify_eq/=. congruence. }
        split; [congruence|]. intros _. by exists pre.
  - destruct Hph as (? & Hn & ?). destruct (Hnb Hn) as [? ->]. done.
  - destruct Hph as (? & Hn & ?). destruct (Hnb Hn) as [? ->]. done.
  - done.
  - done.
Qed.

Lemma main_step_inv s s' : sys_inv s → main_step rlp_content vars fuel s = Some s' → sys_inv s'.
Proof.
  intros (G & Hg & Hfe & Hph) Hst. unfold main_step, phase_inv in *.
  destruct (y_phase s) as [p| |p|r|] eqn:Ep.
  - destruct Hph as (Hr & Hnb & L & Hs & Ha).
    destruct p; try done; [destruct (has_room vars s); [|done]|]; injection Hst as <-; exists G.
    + inversion Hs; subst. split_and!.
      * apply ghost_phase. destruct Hg as [Hl Hu Hw Hwe]. split; [done|done| |done]. intros Hn Hgo.
        destruct (Hw Hn Hgo) as (Hf & Hc & Hend & Hops). unfold writer_ok. cbn [push y_db y_bl y_chan y_bitmap].
        set (P := (view (y_db s) (y_bl s), y_bitmap s)) in *. split_and!; [|..|done].
        -- apply Forall_app. split; [done|]. constructor; [|done]. split; [constructor|].
           intros k (c & Hc' & _). by apply elem_of_nil in Hc'.
        -- apply chan_inv_snoc; [done|]. split; [by apply chan_inv_end|done].
        -- intros k Hk. rewrite chan_end_snoc. by apply Hend.
      * split; [|by cbn; rewrite Hr]. intros i b Hi Hb. cbn [set_phase push y_chan] in *.
        apply lookup_app_Some in Hi as [Hi|[Hi Hb']].
        { unfold no_barrier in Hnb. rewrite Forall_lookup in Hnb. specialize (Hnb i b Hi). congruence. }
        apply lookup_ge_None_2. rewrite length_app. cbn. lia.
      * split; [by exists L|left]. split; [done|]. intros _. by exists (y_chan s).
    + inversion Hs; subst. split_and!; [by apply ghost_phase|done|done].
  - destruct Hph as [(L & HQ & Ha) Hcase].
    destruct (y_reply s) as [[[]|e]|] eqn:Er; [| |done]; injection Hst as <-.
    + destruct Hcase as [[? _]|(Hc & r & [= <-] & _ & Hg2)]; [done|]. specialize (Hg2 eq_refl).
      exists (MkLst (l_rows G) (λ _, False)). split_and!; [by apply ghost_phase|done|].
      unfold phase_inv. cbn [set_phase y_phase y_reply y_chan]. rewrite Hc. split_and!; [done|constructor|].
      eexists. split; [|apply agree_refl]. eapply drain_safe; [exact HQ| |by intros k []].
      intros k Hk. symmetry. by apply Ha.
    + exists G. split_and!; [by apply ghost_phase|done|]. unfold phase_inv. cbn [set_phase y_phase].
      destruct Hcase as [[? _]|(_ & r & [= <-] & Hne & _)]; [done|]. congruence.
  - destruct Hph as (Hr & Hnb & L & Hs & Ha).
    destruct p; try done; injection Hst as <-; exists G;
      (split_and!; [by apply ghost_phase|done|]); inversion Hs; subst; [|done].
    split_and!; [done|done|by exists L].
  - done.
  - done.
Qed.

Lemma sys_next_inv c s s' : sys_inv s → sys_next c s = Some s' → sys_inv s'.
Proof.
  intros Hs Hn. destruct c; cbn [Sync.sys_next] in Hn.
  - by eapply writer_step_inv.
  - eapply phase_step_sound; [|done..]. intros. by eapply op_sound.
  - eapply phase_step_sound; [|done..]. intros K p Q L s1 G s2 p' H1 H2 H3 H4 Hc.
    cbn beta in Hc. destruct (op_cancel p) eqn:E; simplify_eq. by eapply cancel_sound.
  - by eapply main_step_inv.
  - destruct Hs as (G & Hg & Hfe & Hph). exists G.
    destruct (y_phase s) as [[]| | | |] eqn:E; simplify_eq; by split_and!; [apply ghost_phase|..].
  - destruct Hs as (G & Hg & Hfe & Hph). exists G. destruct (y_phase s) as [| | |[[]|e]|] eqn:E; simplify_eq.
    case_decide; simplify_eq. by split_and!; [apply ghost_phase|..].
Qed.

Lemma sys_inv_committed s : sys_inv s → wf_db (rows (y_db s)) ∧ ∃ bm, Inv (rows (y_db s)) bm.
Proof. intros (G & Hg & _). split; apply Hg. Qed.
End sound.
