(* ===== verification/SyncInv.v ===== *)
(** * SyncInv: the invariant of a partial load

    What the rows of a partially loaded baseline satisfy at every moment, and its
    preservation by each call the sync makes on the loader.  Accounts are a prefix
    of each segment, a done bit means a complete segment, an account row with
    storage means a queue row or complete storage, and (when responses are cut
    only at the limit) each range of a giant trie is filled from its start. *)

From Stdlib Require Import Sorted.
From S2P Require Import Prelude Schema Lmdb Capture World Store StoreRead StoreSpec StoreProof.
From S2P Require Import StoreReads StoreWrites Loader Scans SyncKeys Sync SyncTrie.

(** A key as the hash it is. *)
Lemma BytesToHash_32 key : length key = 32 → abytes (BytesToHash key) = key.
Proof.
  intros Hl. unfold BytesToHash. rewrite abytes_arr_of by (rewrite Hl; len_solve).
  rewrite Hl. done.
Qed.

Lemma BytesToHash_abytes (h : Hash) : BytesToHash (abytes h) = h.
Proof. apply arr_eq, BytesToHash_32, length_abytes. Qed.

(** [rk]: look past a row of another key. *)
Ltac rk := first
  [ rewrite lookup_insert_ne by (intros ?%key_bytes_inj; congruence)
  | rewrite lookup_delete_ne by (intros ?%key_bytes_inj; congruence) ].

Section inv.
Context (keccak : bytes → Hash).
Context (rlp_account : bytes → option LeafAccount) (rlp_content : bytes → option bytes).
Context (Root : Hash) (vars : Vars).
(** The leaves of each trie, by root; whether responses are cut only at the limit. *)
Context (Trie : Hash → list leaf) (full : Prop).
Implicit Types (m : gmap bytes bytes) (h s root : Hash) (acc : LeafAccount).

Definition leaf_key (root h : Hash) : Prop := abytes h ∈ (Trie root).*1.

Definition account_row (acc : LeafAccount) : Account :=
  MkAccount (default u_zero (la_Balance acc)) (la_Nonce acc) (BytesToHash (la_CodeHash acc)).
Definition has_storage (acc : LeafAccount) : Prop :=
  la_Root acc ≠ arr_zero ∧ la_Root acc ≠ EmptyRootHash keccak.
Definition slot_value (content : bytes) : Hash :=
  arr_of (replicate (32 - length content) (byte_lit 0) ++ content).

(** The trie's account of a hash, and the trie's slot. *)
Definition is_account (h : Hash) (acc : LeafAccount) : Prop :=
  ∃ val, (abytes h, val) ∈ Trie Root ∧ rlp_account val = Some acc.
Definition is_slot (root s v : Hash) : Prop :=
  ∃ val content, (abytes s, val) ∈ Trie root ∧ rlp_content val = Some content ∧ v = slot_value content.

Definition segment_done (m : gmap bytes bytes) (seg : byte) : Prop :=
  ∀ h, leaf_key Root h → head (abytes h) = Some seg → has_base_account m h.
Definition slots_done (m : gmap bytes bytes) (h root : Hash) : Prop :=
  ∀ s, leaf_key root s → has_base_slot m h s.

(** Where the warm-up of a giant trie ends when responses are full. *)
Definition warm_next (root : Hash) : option bytes :=
  match (Trie root).*1 !! (Z.to_nat (splitAfter vars) * leafLimit - 1) with
  | Some key => incKey key
  | None => None
  end.

(** The rows of a range are the first leaves of it. *)
Definition range_prefix (m : gmap bytes bytes) (h root : Hash) (r : krange) : Prop :=
  ∀ s s', has_base_slot m h s → leaf_key root s' → in_range r (abytes s) → in_range r (abytes s') →
    (abytes s' ≤ abytes s)%bytes → has_base_slot m h s'.

Definition split_prefixes (m : gmap bytes bytes) (h root : Hash) : Prop :=
  ∀ next rs r, warm_next root = Some next → splitRange next (splitWays vars) = Ok rs → r ∈ rs →
    range_prefix m h root r.

Record Inv (m : gmap bytes bytes) (bm : bytes) : Prop := {
  iv_len : length bm = 32;
  iv_account h x : m !! key_bytes (KBaseAccount h) = Some x →
    ∃ acc, is_account h acc ∧ x = EncodeAccount [] (account_row acc);
  iv_segment h h' : has_base_account m h → leaf_key Root h' →
    head (abytes h') = head (abytes h) → (abytes h' ≤ abytes h)%bytes → has_base_account m h';
  iv_bits seg : (0 ≤ seg < 256)%Z → bit_set bm seg = true → segment_done m (wrap seg);
  iv_progress p : m !! key_bytes KMetaBaselineProgress = Some p →
    length p = 32 ∧ ∀ seg, (0 ≤ seg < 256)%Z → bit_set p seg = true → segment_done m (wrap seg);
  iv_queue h x : m !! key_bytes (KStorageQueue h) = Some x →
    ∃ acc, is_account h acc ∧ has_storage acc ∧ x = abytes (la_Root acc);
  iv_storage h acc : has_base_account m h → is_account h acc → has_storage acc →
    queued m h ∨ slots_done m h (la_Root acc);
  iv_slot h s x : m !! key_bytes (KBaseSlot h s) = Some x →
    ∃ acc v, is_account h acc ∧ has_storage acc ∧ is_slot (la_Root acc) s v ∧ x = abytes v;
  iv_resume : full → ∀ h acc, is_account h acc → split_prefixes m h (la_Root acc);
  iv_code ch c : m !! key_bytes (KCode ch) = Some c → keccak c = ch
}.

Context (tries : ∀ root, trie_ok (Trie root)).

Lemma trie_lookup_fun T k v v' : trie_ok T → (k, v) ∈ T → (k, v') ∈ T → v = v'.
Proof.
  intros [Hs _] (i & Hi)%list_elem_of_lookup (j & Hj)%list_elem_of_lookup.
  assert (∀ i v, T !! i = Some (k, v) → T.*1 !! i = Some k) as Hk
    by (intros i' v0 Hi'; by rewrite list_lookup_fmap, Hi').
  destruct (Nat.lt_trichotomy i j) as [Hlt|[->|Hlt]]; [|congruence|];
    apply (sorted_lt_lookup _ _ _ k k Hs) in Hlt; eauto; by apply bytes_lt_irrefl in Hlt.
Qed.

Lemma is_account_fun h acc acc' : is_account h acc → is_account h acc' → acc = acc'.
Proof.
  intros (v & Hv & Hd) (v' & Hv' & Hd'). rewrite (trie_lookup_fun _ _ _ _ (tries Root) Hv Hv') in Hd.
  congruence.
Qed.

(** The rows of the four kinds and the cursor, apart from which the invariant
    does not look. *)
Definition inv_key (dk : dbkey) : Prop :=
  match dk with
  | KBaseAccount _ | KStorageQueue _ | KBaseSlot _ _ | KCode _ | KMetaBaselineProgress => True
  | _ => False
  end.

Section parts.
(** Two maps that agree on the rows of one kind. *)
Context (m m' : gmap bytes bytes).
Definition same_accounts : Prop :=
  ∀ h, m' !! key_bytes (KBaseAccount h) = m !! key_bytes (KBaseAccount h).
Definition same_queue : Prop :=
  ∀ h, m' !! key_bytes (KStorageQueue h) = m !! key_bytes (KStorageQueue h).
Definition same_slots : Prop :=
  ∀ h s, m' !! key_bytes (KBaseSlot h s) = m !! key_bytes (KBaseSlot h s).
Definition same_code : Prop :=
  ∀ ch, m' !! key_bytes (KCode ch) = m !! key_bytes (KCode ch).
Definition same_cursor : Prop :=
  m' !! key_bytes KMetaBaselineProgress = m !! key_bytes KMetaBaselineProgress.

Lemma has_account_same h : same_accounts → has_base_account m' h ↔ has_base_account m h.
Proof. intros Ha. unfold has_base_account. by rewrite Ha. Qed.
Lemma has_slot_same h s : same_slots → has_base_slot m' h s ↔ has_base_slot m h s.
Proof. intros Hs. unfold has_base_slot. by rewrite Hs. Qed.
Lemma segment_done_same seg : same_accounts → segment_done m seg → segment_done m' seg.
Proof. intros Ha Hd h Hl Hh. apply has_account_same; [done|]. by apply Hd. Qed.
Lemma slots_done_same h root : same_slots → slots_done m h root → slots_done m' h root.
Proof. intros Hs Hd s Hl. apply has_slot_same; [done|]. by apply Hd. Qed.
Lemma split_prefixes_same h root : same_slots → split_prefixes m h root → split_prefixes m' h root.
Proof.
  intros Hs Hp next rs r Hn Hr Hin s s' H1 H2 H3 H4 H5. apply has_slot_same; [done|].
  apply has_slot_same in H1; [|done]. by eapply Hp.
Qed.

(** The parts of the invariant. *)
Lemma accounts_part bm :
  same_accounts → same_cursor → Inv m bm →
  (∀ h x, m' !! key_bytes (KBaseAccount h) = Some x →
     ∃ acc, is_account h acc ∧ x = EncodeAccount [] (account_row acc)) ∧
  (∀ h h', has_base_account m' h → leaf_key Root h' →
     head (abytes h') = head (abytes h) → (abytes h' ≤ abytes h)%bytes → has_base_account m' h') ∧
  (∀ seg, (0 ≤ seg < 256)%Z → bit_set bm seg = true → segment_done m' (wrap seg)) ∧
  (∀ p, m' !! key_bytes KMetaBaselineProgress = Some p →
     length p = 32 ∧ ∀ seg, (0 ≤ seg < 256)%Z → bit_set p seg = true → segment_done m' (wrap seg)).
Proof.
  intros Ha Hp Hi. split_and!.
  - intros h x. rewrite Ha. apply (iv_account _ _ Hi).
  - intros h h'. rewrite !has_account_same by done. apply (iv_segment _ _ Hi).
  - intros seg Hs Hb. by apply segment_done_same, (iv_bits _ _ Hi).
  - intros p. rewrite Hp. intros Hq. destruct (iv_progress _ _ Hi p Hq) as [? Hd]. split; [done|].
    intros. by apply segment_done_same, Hd.
Qed.

Lemma slots_part bm :
  same_slots → Inv m bm →
  (∀ h s x, m' !! key_bytes (KBaseSlot h s) = Some x →
     ∃ acc v, is_account h acc ∧ has_storage acc ∧ is_slot (la_Root acc) s v ∧ x = abytes v) ∧
  (full → ∀ h acc, is_account h acc → split_prefixes m' h (la_Root acc)).
Proof.
  intros Hs Hi. split.
  - intros h s x. rewrite Hs. apply (iv_slot _ _ Hi).
  - intros Hf h acc Ha. apply split_prefixes_same; [done|]. by apply (iv_resume _ _ Hi).
Qed.

Lemma code_part bm : same_code → Inv m bm → ∀ ch c, m' !! key_bytes (KCode ch) = Some c → keccak c = ch.
Proof. intros Hc Hi ch c. rewrite Hc. apply (iv_code _ _ Hi). Qed.

(** The same rows under another cursor. *)
Lemma inv_cursor bm bm' :
  (∀ dk, inv_key dk → dk ≠ KMetaBaselineProgress → m' !! key_bytes dk = m !! key_bytes dk) →
  (∀ p, m' !! key_bytes KMetaBaselineProgress = Some p ∨ p = bm' →
     length p = 32 ∧ ∀ seg, (0 ≤ seg < 256)%Z → bit_set p seg = true → segment_done m' (wrap seg)) →
  Inv m bm → Inv m' bm'.
Proof.
  intros Hc Hp Hi.
  assert (same_accounts) as Ha by (by intros h; apply Hc).
  assert (same_queue) as Hq by (by intros h; apply Hc).
  assert (same_slots) as Hs by (by intros h s; apply Hc).
  pose proof (code_part bm ltac:(by intros ch; apply Hc) Hi).
  destruct (slots_part bm Hs Hi) as [? ?]. destruct (Hp bm' (or_intror eq_refl)).
  split; try done; [..|by intros p ?; apply Hp; left| |].
  - intros h x. rewrite Ha. apply (iv_account _ _ Hi).
  - intros h h'. rewrite !has_account_same by done. apply (iv_segment _ _ Hi).
  - intros h x. rewrite Hq. apply (iv_queue _ _ Hi).
  - intros h acc. rewrite has_account_same by done. intros Hx1 Hx2 Hx3.
    destruct (iv_storage _ _ Hi h acc Hx1 Hx2 Hx3) as [Hx|Hd]; [left; unfold queued; by rewrite Hq|right].
    by apply slots_done_same.
Qed.

Lemma inv_congr bm : (∀ dk, inv_key dk → m' !! key_bytes dk = m !! key_bytes dk) → Inv m bm → Inv m' bm.
Proof.
  intros Hc Hi. apply (inv_cursor bm bm); [by intros; apply Hc| |done].
  assert (same_accounts) as Ha by (by intros h; apply Hc).
  intros p [Hq| ->]; [rewrite Hc in Hq by done; destruct (iv_progress _ _ Hi p Hq) as [? Hd]|];
    split; [done| |apply Hi|]; intros; apply segment_done_same; auto. by apply (iv_bits _ _ Hi).
Qed.
End parts.

(** ** Preservation *)

Lemma inv_put_code m bm ch c :
  keccak c = ch → Inv m bm → Inv (<[key_bytes (KCode ch):=c]> m) bm.
Proof.
  intros Hch Hi. set (m' := <[_:=_]> m).
  assert (same_accounts m m') as Ha by (intros h0; unfold m'; by rk).
  assert (same_queue m m') as Hq by (intros h0; unfold m'; by rk).
  assert (same_slots m m') as Hs by (intros h0 s; unfold m'; by rk).
  destruct (accounts_part m m' bm Ha ltac:(unfold same_cursor, m'; by rk) Hi) as (? & ? & ? & ?),
    (slots_part m m' bm Hs Hi) as [? ?].
  split; try done; [apply Hi|..].
  - intros h x. rewrite Hq. apply (iv_queue _ _ Hi).
  - intros h acc. rewrite (has_account_same m m') by done. intros Hx1 Hx2 Hx3.
    destruct (iv_storage _ _ Hi h acc Hx1 Hx2 Hx3) as [Hx|Hd];
      [left; unfold queued; by rewrite Hq|right; by eapply slots_done_same].
  - intros ch0 c0 [[Heq <-]|[_ Hx]]%lookup_insert_Some; [|by eapply iv_code].
    apply key_bytes_inj in Heq. by simplify_eq.
Qed.

Lemma inv_put_queue m bm h acc :
  is_account h acc → has_storage acc → Inv m bm →
  Inv (<[key_bytes (KStorageQueue h):=abytes (la_Root acc)]> m) bm.
Proof.
  intros Hacc Hst Hi. set (m' := <[_:=_]> m).
  pose proof (code_part m m' bm ltac:(intros ch; unfold m'; by rk) Hi).
  assert (same_accounts m m') as Ha by (intros h0; unfold m'; by rk).
  assert (same_slots m m') as Hs by (intros h0 s; unfold m'; by rk).
  destruct (accounts_part m m' bm Ha ltac:(unfold same_cursor, m'; by rk) Hi) as (? & ? & ? & ?),
    (slots_part m m' bm Hs Hi) as [? ?].
  split; try done; [apply Hi| |].
  - intros h0 x [[Heq <-]|[_ Hx]]%lookup_insert_Some; [|by eapply iv_queue].
    apply key_bytes_inj in Heq. simplify_eq. by exists acc.
  - intros h0 acc0. rewrite (has_account_same m m') by done. intros Hx1 Hx2 Hx3.
    destruct (iv_storage _ _ Hi h0 acc0 Hx1 Hx2 Hx3) as [Hx|Hd]; [left|right; by eapply slots_done_same].
    unfold queued, m'. destruct (decide (h0 = h)) as [->|]; [by rewrite lookup_insert_eq|]. by rk.
Qed.

Lemma inv_put_account m bm h acc :
  is_account h acc →
  (∀ h', leaf_key Root h' → head (abytes h') = head (abytes h) → (abytes h' < abytes h)%bytes →
     has_base_account m h') →
  (has_storage acc → queued m h) → Inv m bm →
  Inv (<[key_bytes (KBaseAccount h):=EncodeAccount [] (account_row acc)]> m) bm.
Proof.
  intros Hacc Hpre Hst Hi. set (m' := <[_:=_]> m).
  pose proof (code_part m m' bm ltac:(intros ch; unfold m'; by rk) Hi).
  assert (∀ h0, has_base_account m' h0 ↔ h0 = h ∨ has_base_account m h0) as Ha.
  { intros h0. unfold has_base_account, m'. destruct (decide (h0 = h)) as [->|].
    - rewrite lookup_insert_eq. naive_solver.
    - rk. naive_solver. }
  assert (∀ seg, segment_done m seg → segment_done m' seg) as Hseg.
  { intros seg Hd h0 Hl Hh. apply Ha. right. by apply Hd. }
  assert (same_slots m m') as Hs by (intros h0 s; unfold m'; by rk).
  destruct (slots_part m m' bm Hs Hi) as [? ?].
  split; try done; [apply Hi|..].
  - intros h0 x [[Heq <-]|[_ Hx]]%lookup_insert_Some; [|by eapply iv_account].
    apply key_bytes_inj in Heq. simplify_eq. by exists acc.
  - intros h0 h'. rewrite !Ha. intros [->|Hx0] Hl Hh Hle.
    + apply bytes_le_lteq in Hle as [Hlt|?%abytes_inj]; [right|by left]. by apply Hpre.
    + right. by eapply iv_segment.
  - intros seg ? ?. by apply Hseg, (iv_bits _ _ Hi).
  - intros p. unfold m'. rk. intros Hp. destruct (iv_progress _ _ Hi p Hp) as [? Hd]. split; [done|].
    intros. by apply Hseg, Hd.
  - intros h0 x. unfold m'. rk. apply (iv_queue _ _ Hi).
  - intros h0 acc0. rewrite Ha. intros Hx1 Hx2 Hx3.
    assert (queued m h0 ∨ slots_done m h0 (la_Root acc0)) as [Hx|Hd].
    { destruct Hx1 as [->|Hx1]; [left|by eapply iv_storage]. apply Hst.
      by rewrite (is_account_fun h acc acc0). }
    + left. unfold queued, m'. by rk.
    + right. by eapply slots_done_same.
Qed.
Lemma inv_put_slot m bm h s v acc :
  is_account h acc → has_storage acc → is_slot (la_Root acc) s v →
  (full → split_prefixes m h (la_Root acc) →
     split_prefixes (<[key_bytes (KBaseSlot h s):=abytes v]> m) h (la_Root acc)) →
  Inv m bm → Inv (<[key_bytes (KBaseSlot h s):=abytes v]> m) bm.
Proof.
  intros Hacc Hst Hslot Hpre Hi. set (m' := <[_:=_]> m) in *.
  pose proof (code_part m m' bm ltac:(intros ch; unfold m'; by rk) Hi).
  assert (same_accounts m m') as Ha by (intros h0; unfold m'; by rk).
  assert (same_queue m m') as Hq by (intros h0; unfold m'; by rk).
  assert (∀ h0 s0, has_base_slot m h0 s0 → has_base_slot m' h0 s0) as Hs.
  { intros h0 s0 [x Hx]. unfold has_base_slot, m'. destruct (decide (KBaseSlot h0 s0 = KBaseSlot h s)) as [->|].
    - by rewrite lookup_insert_eq.
    - rk. by exists x. }
  destruct (accounts_part m m' bm Ha ltac:(unfold same_cursor, m'; by rk) Hi) as (? & ? & ? & ?).
  split; try done; [apply Hi|..].
  - intros h0 x. rewrite Hq. apply (iv_queue _ _ Hi).
  - intros h0 acc0. rewrite (has_account_same m m') by done. intros Hx1 Hx2 Hx3.
    destruct (iv_storage _ _ Hi h0 acc0 Hx1 Hx2 Hx3) as [Hx|Hd]; [left; unfold queued; by rewrite Hq|right].
    intros s0 Hl. by apply Hs, Hd.
  - intros h0 s0 x [[Heq <-]|[_ Hx]]%lookup_insert_Some; [|by eapply iv_slot].
    apply key_bytes_inj in Heq. simplify_eq. by exists acc, v.
  - intros Hf h0 acc0 Hacc0. destruct (decide (h0 = h)) as [->|Hne].
    + rewrite (is_account_fun h acc0 acc) by done. apply Hpre; [done|]. by apply (iv_resume _ _ Hi).
    + assert (∀ s0, has_base_slot m' h0 s0 ↔ has_base_slot m h0 s0) as Hiff
        by (intros s0; unfold has_base_slot, m'; by rk).
      intros next rs r Hn Hr Hin s1 s2. rewrite !Hiff. intros. by eapply (iv_resume _ _ Hi Hf h0 acc0 Hacc0).
Qed.

Lemma inv_dequeue m bm h acc :
  is_account h acc → slots_done m h (la_Root acc) → Inv m bm →
  Inv (delete (key_bytes (KStorageQueue h)) m) bm.
Proof.
  intros Hacc Hdone Hi. set (m' := delete _ m).
  pose proof (code_part m m' bm ltac:(intros ch; unfold m'; by rk) Hi).
  assert (same_accounts m m') as Ha by (intros h0; unfold m'; by rk).
  assert (same_slots m m') as Hs by (intros h0 s; unfold m'; by rk).
  destruct (accounts_part m m' bm Ha ltac:(unfold same_cursor, m'; by rk) Hi) as (? & ? & ? & ?),
    (slots_part m m' bm Hs Hi) as [? ?].
  split; try done; [apply Hi| |].
  - intros h0 x [_ Hx]%lookup_delete_Some. by eapply iv_queue.
  - intros h0 acc0. rewrite (has_account_same m m') by done. intros Hx1 Hx2 Hx3.
    destruct (decide (h0 = h)) as [->|Hne].
    + right. rewrite (is_account_fun h acc0 acc) by done. by eapply slots_done_same.
    + destruct (iv_storage _ _ Hi h0 acc0 Hx1 Hx2 Hx3) as [Hx|Hd]; [left|right; by eapply slots_done_same].
      unfold queued, m'. by rk.
Qed.

(** The final bundle of a segment. *)
Lemma inv_set_bit m bm (seg : byte) :
  segment_done m seg → Inv m bm →
  Inv (<[key_bytes KMetaBaselineProgress:=set_bit bm seg]> m) (set_bit bm seg).
Proof.
  intros Hdone Hi. apply (inv_cursor m _ bm); [|intros p Hp|done].
  { intros dk _ Hne. by rk. }
  assert (p = set_bit bm seg) as -> by (rewrite lookup_insert_eq in Hp; by destruct Hp as [[=]|]).
  split; [rewrite length_set_bit; apply Hi|]. intros seg' Hr Hb.
  apply (segment_done_same m); [intros h; by rk|].
  apply bit_set_set_bit in Hb as [->|Hb];
    [by rewrite wrap_uval|by apply (iv_bits _ _ Hi)|apply Hi|exact (uint_range seg)|done].
Qed.
End inv.
