(* ===== verification/SyncProof.v ===== *)
(** * SyncProof: the goroutines of the state sync are safe

    Each goroutine of [Sync] in the logic of [SyncLogic]: a segment walk ends with
    its segment complete, a storage task ends with its queue row gone and its
    storage complete, whatever the responses (within what the client promises),
    and none of them runs out of its bound on requests. *)

From Stdlib Require Import Sorted.
From S2P Require Import Prelude Schema Lmdb Capture World Store StoreRead StoreSpec StoreProof.
From S2P Require Import StoreReads StoreWrites Loader Scans SyncKeys Sync SyncTrie SyncLogic.
From S2P Require Import SyncInv.

Section proof.
Context (S : u64) (keccak : bytes → Hash).
Context (rlp_account : bytes → option LeafAccount) (rlp_content : bytes → option bytes).
Context (Root : Hash) (vars : Vars) (Trie : Hash → list leaf) (full : Prop).
Context (tries : ∀ root, trie_ok (Trie root)).

Abbreviation Inv := (Inv keccak rlp_account rlp_content Root vars Trie full).
Abbreviation safe := (safe S Inv (leafs_ok Trie full) (code_ok keccak)).
Abbreviation leaf_key := (leaf_key Trie).
Abbreviation is_account := (is_account rlp_account Root Trie).
Abbreviation has_storage := (has_storage keccak).
Abbreviation segment_done := (segment_done Root Trie).
Abbreviation may_send := (may_send S Inv).
Implicit Types (L : lst) (Q : lst → Prop) (K : keyset).

Lemma leaf_key_of root l : l ∈ Trie root → leaf_key root (BytesToHash l.1) ∧ abytes (BytesToHash l.1) = l.1.
Proof.
  intros Hl. pose proof (trie_width _ (tries root) l Hl) as Hw.
  assert (abytes (BytesToHash l.1) = l.1) as He by (by apply BytesToHash_32).
  split; [|done]. unfold SyncInv.leaf_key. rewrite He. by apply list_elem_of_fmap_2.
Qed.

Lemma leaf_key_leaf root h : leaf_key root h → ∃ v, (abytes h, v) ∈ Trie root.
Proof. intros ([k v] & Hk & Hin)%list_elem_of_fmap. cbn in Hk. subst k. by exists v. Qed.

(** ** Account rows *)

Definition code_calls (h : Hash) (code : option bytes) : list lcall :=
  match code with Some c => [CCode h c] | None => [] end.

(** The calls of [handleAccount]'s closure. *)
Definition account_calls (key val : bytes) (cs : list lcall) : Prop :=
  length key = 32 ∧
  ∃ acc code, rlp_account val = Some acc ∧
    (∀ c, code = Some c → keccak c = BytesToHash (la_CodeHash acc)) ∧
    cs = code_calls (BytesToHash (la_CodeHash acc)) code ++
      (if bool_decide (la_Root acc ≠ arr_zero ∧ la_Root acc ≠ EmptyRootHash keccak)
       then [CQueueStorage (BytesToHash key) (la_Root acc)] else []) ++
      [CBaseAccount (BytesToHash key) (account_row acc)].

Lemma handleAccount_safe K Q L key val k :
  (∀ cs, account_calls key val cs → safe K (k cs) Q L) →
  safe K (handleAccount keccak rlp_account key val k) Q L.
Proof.
  intros Hk. unfold handleAccount.
  destruct (Nat.eqb_spec (length key) 32) as [Hl|]; cbn [negb]; [|by constructor].
  destruct (rlp_account val) as [acc|] eqn:Hv; [|by constructor].
  assert (∀ code, (∀ c, code = Some c → keccak c = BytesToHash (la_CodeHash acc)) → account_calls key val
    (code_calls (BytesToHash (la_CodeHash acc)) code ++
      (if bool_decide (la_Root acc ≠ arr_zero ∧ la_Root acc ≠ EmptyRootHash keccak)
       then [CQueueStorage (BytesToHash key) (la_Root acc)] else []) ++
      [CBaseAccount (BytesToHash key) (account_row acc)])) as Hcs.
  { intros code Hcode. split; [done|]. by exists acc, code. }
  destruct (bool_decide (BytesToHash _ ≠ arr_zero ∧ _)); [|exact (Hk _ (Hcs None ltac:(done)))].
  constructor. intros [].
  - exact (Hk _ (Hcs None ltac:(done))).
  - constructor. intros [|blob blobs] Hok; [by constructor|]. inversion Hok; subst.
    refine (Hk _ (Hcs (if decide (blob = []) then None else Some blob) _)). intros c. destruct (decide (blob = [])); [done|]. by intros [= <-].
Qed.

Lemma handle_all_safe K Q L order keys vals rows k :
  (∀ rows', (∀ i, i ∈ order → ∃ key val cs, keys !! i = Some key ∧ vals !! i = Some val ∧
       rows' !! i = Some cs ∧ account_calls key val cs) →
     (∀ i, i ∉ order → rows' !! i = rows !! i) → safe K (k rows') Q L) →
  NoDup order → safe K (handle_all keccak rlp_account order keys vals rows k) Q L.
Proof.
  revert rows. induction order as [|i order IH]; intros rows Hk Hnd; cbn [handle_all].
  { apply Hk; [by intros i ?%elem_of_nil|done]. }
  inversion_clear Hnd as [|? ? Hi Hnd'].
  destruct (keys !! i) as [key|] eqn:Ek; [|by constructor].
  destruct (vals !! i) as [val|] eqn:Ev; [|by constructor].
  apply handleAccount_safe. intros cs Hcs. apply IH; [|done]. intros rows' H1 H2. apply Hk.
  - intros j [->|Hj]%elem_of_cons; [|by apply H1]. exists key, val, cs.
    rewrite H2, lookup_insert_eq by done. done.
  - intros j [Hne Hj]%not_elem_of_cons. rewrite H2, lookup_insert_ne by done. done.
Qed.

(** ** Segments *)

Definition segment_keys (seg : byte) : keyset := λ k,
  ∃ h : Hash, head (abytes h) = Some seg ∧
    (k = key_bytes (KBaseAccount h) ∨ k = key_bytes (KStorageQueue h)).

Definition below (seg : byte) (start : bytes) (m : gmap bytes bytes) : Prop :=
  ∀ h, leaf_key Root h → head (abytes h) = Some seg → (abytes h < start)%bytes → has_base_account m h.

Lemma account_calls_rows m key val cs h :
  account_calls key val cs →
  has_base_account (foldl (call_effect S) m cs) h ↔ h = BytesToHash key ∨ has_base_account m h.
Proof.
  intros (Hl & acc & code & Hv & Hcode & ->). rewrite !foldl_app. cbn [foldl]. unfold has_base_account.
  destruct (decide (h = BytesToHash key)) as [->|Hne].
  { split; [by left|]. intros _. cbn. by rewrite lookup_insert_eq. }
  cbn [call_effect call_op]. unfold apply_blop at 1. cbn [bo_del bo_k bo_v].
  change (AppendBaseAccountKey [] (BytesToHash key)) with (key_bytes (KBaseAccount (BytesToHash key))).
  rk. set (m1 := foldl _ m (code_calls _ _)).
  assert (m1 !! key_bytes (KBaseAccount h) = m !! key_bytes (KBaseAccount h)) as Hm1.
  { unfold m1. destruct code as [c|]; [|done].
    change (foldl _ m (code_calls ?x _)) with (<[key_bytes (KCode x):=c]> m). by rk. }
  rewrite <-Hm1. case_bool_decide; [|naive_solver].
  change (foldl _ m1 [CQueueStorage ?x ?r]) with (<[key_bytes (KStorageQueue x):=abytes r]> m1).
  rk. naive_solver.
Qed.

Lemma account_calls_send L seg (segZ : Z) key val cs :
  account_calls key val cs → (key, val) ∈ Trie Root → head key = Some seg →
  below seg key (l_rows L) → may_send (segment_keys seg) L (MkBundle segZ false cs false).
Proof.
  intros (Hl & acc & code & Hv & Hcode & ->) Hin Hseg Hbelow. set (h := BytesToHash key).
  assert (abytes h = key) as Hh by (by apply BytesToHash_32).
  assert (is_account h acc) as Hacc by (exists val; by rewrite Hh).
  split_and!; cbn [b_barrier b_apply]; [done|..].
  - assert (∀ c, is_Some (call_op S c) → Forall (row_call S) [c]) as H1 by (by repeat constructor).
    apply Forall_app. split; [destruct code; [by apply H1|constructor]|].
    apply Forall_app. split; [case_bool_decide; [by apply H1|constructor]|by apply H1].
  - intros k (c & Hc & Hk). cbn [b_apply] in Hc. apply elem_of_app in Hc as [Hc|[Hc|Hc]%elem_of_app].
    + destruct code as [c'|]; [|by apply elem_of_nil in Hc]. apply list_elem_of_singleton in Hc as ->.
      right. right. injection Hk as <-. by exists (BytesToHash (la_CodeHash acc)).
    + case_bool_decide; [|by apply elem_of_nil in Hc]. apply list_elem_of_singleton in Hc as ->.
      injection Hk as <-. left. exists h. rewrite Hh. split; [done|by right].
    + apply list_elem_of_singleton in Hc as ->. injection Hk as <-. left. exists h. rewrite Hh. split; [done|by left].
  - intros P HP Hi. unfold bundle_calls. cbn [b_apply b_final]. rewrite app_nil_r.
    assert (∀ m, (∀ h0, head (abytes h0) = Some seg → m !! key_bytes (KBaseAccount h0) = P.1 !! key_bytes (KBaseAccount h0)) →
      (has_storage acc → queued m h) → Inv m P.2 →
      calls_inv S Inv (m, P.2) [CBaseAccount h (account_row acc)]) as Hlast.
    { intros m Hm Hq Him. split; [done|]. split; [|done]. cbn [pstep fst snd].
      change (call_effect S m (CBaseAccount h (account_row acc)))
        with (<[key_bytes (KBaseAccount h):=EncodeAccount [] (account_row acc)]> m).
      apply inv_put_account; try done. rewrite Hh. intros h' Hl' Hhd Hlt.
      unfold has_base_account. rewrite Hm by congruence.
      rewrite HP; [by apply Hbelow; [|congruence|]|exists h'; split; [congruence|by left]|].
      by intros [?|[? ?]]%free_key_kind. }
    assert (∀ m, (∀ h0, head (abytes h0) = Some seg → m !! key_bytes (KBaseAccount h0) = P.1 !! key_bytes (KBaseAccount h0)) →
      Inv m P.2 → calls_inv S Inv (m, P.2)
      ((if bool_decide (la_Root acc ≠ arr_zero ∧ la_Root acc ≠ EmptyRootHash keccak)
        then [CQueueStorage h (la_Root acc)] else []) ++ [CBaseAccount h (account_row acc)])) as Hrest.
    { intros m Hm Him. case_bool_decide as Hst; cbn [app]; [|apply Hlast; [done|done|done]].
      split; [done|]. change (pstep S (m, P.2) (CQueueStorage h (la_Root acc)))
        with (<[key_bytes (KStorageQueue h):=abytes (la_Root acc)]> m, P.2).
      apply Hlast; [intros h0 Hh0; rk; by apply Hm|intros _; unfold queued; by rewrite lookup_insert_eq|].
      by apply inv_put_queue. }
    destruct P as [m bm]. cbn [fst snd] in *. destruct code as [c|]; cbn [code_calls app]; [|by apply Hrest].
    split; [done|]. change (pstep S (m, bm) (CCode ?x c)) with (<[key_bytes (KCode x):=c]> m, bm).
    apply Hrest; [intros h0 _; by rk|apply inv_put_code; [by apply Hcode|done]].
Qed.

(** What is not loaded yet of a segment is among the pending leaves. *)
Definition loaded_but (seg : byte) (m : gmap bytes bytes) (pending : list leaf) : Prop :=
  ∀ h, leaf_key Root h → head (abytes h) = Some seg → has_base_account m h ∨ abytes h ∈ pending.*1.

Lemma loaded_below seg m l pending :
  loaded_but seg m (l :: pending) → StronglySorted bytes_lt (l :: pending).*1 → below seg l.1 m.
Proof.
  intros Hl Hs h Hk Hh Hlt. destruct (Hl h Hk Hh) as [?|Hin]; [done|]. exfalso.
  cbn in Hs. inversion_clear Hs as [|? ? _ Hall]. cbn in Hin. apply elem_of_cons in Hin as [Heq|Hin].
  - rewrite Heq in Hlt. by apply bytes_lt_irrefl in Hlt.
  - rewrite Forall_forall in Hall. specialize (Hall _ Hin). apply bytes_lt_not_le in Hlt.
    apply Hlt. apply bytes_le_lteq. by left.
Qed.

Definition account_bundle (seg : byte) (l : leaf) (b : bundle) : Prop :=
  ∃ cs, b = MkBundle seg false cs false ∧ account_calls l.1 l.2 cs.

Lemma enqueue_accounts_safe seg page bs rest k Q L :
  Forall2 (account_bundle seg) page bs →
  (∀ l, l ∈ page → l ∈ Trie Root ∧ head l.1 = Some seg) →
  StronglySorted bytes_lt (page ++ rest).*1 → loaded_but seg (l_rows L) (page ++ rest) →
  (∀ L', loaded_but seg (l_rows L') rest → safe (segment_keys seg) k Q L') →
  safe (segment_keys seg) (enqueue_all bs k) Q L.
Proof.
  intros Hbs. revert L. induction Hbs as [|l b page bs (cs & -> & Hcs) _ IH]; intros L Hin Hs Hl Hk;
    cbn [enqueue_all]; [by apply Hk|].
  destruct (Hin l ltac:(left)) as [HlT Hseg]. pose proof (loaded_below _ _ _ _ Hl Hs) as Hbelow.
  constructor.
  - apply (account_calls_send L seg seg l.1 l.2 cs); try done. by destruct l.
  - apply IH; [intros; apply Hin; by right|by inversion Hs| |done].
    intros h Hk' Hh. cbn [send l_rows b_apply]. rewrite (account_calls_rows _ l.1 l.2) by done.
    destruct (Hl h Hk' Hh) as [?|Hp]; [left; by right|]. cbn in Hp.
    apply elem_of_cons in Hp as [Heq|?]; [left; left|by right].
    rewrite <-Heq. symmetry. apply BytesToHash_abytes.
Qed.

Lemma cons_le x (a b : bytes) : (x :: a ≤ x :: b)%bytes ↔ (a ≤ b)%bytes.
Proof. unfold bytes_le. cbn. by rewrite Z.compare_refl. Qed.

Lemma segment_head seg k :
  length k = 32 →
  (segment_start seg ≤ k)%bytes ∧ (k ≤ segment_end seg)%bytes ↔ head k = Some seg.
Proof.
  intros Hl. destruct k as [|x k]; [done|]. cbn in Hl. cbn [head]. unfold segment_start, segment_end. split.
  - intros [H1 H2]. f_equal. apply uint_eq. unfold bytes_le in H1, H2. cbn [bytes_cmp] in H1, H2.
    destruct (Z.compare_spec seg x), (Z.compare_spec x seg); done || lia.
  - intros [= ->]. rewrite !cons_le. split; [|apply bytes_le_ff; lia].
    rewrite bytes_le_val, be_val_zeros by (rewrite length_replicate; lia). apply be_val_range.
Qed.

Lemma account_bundles seg keys vals (rows : gmap nat (list lcall)) :
  (∀ i, i ∈ seq 0 (length keys) → ∃ key val cs, keys !! i = Some key ∧ vals !! i = Some val ∧
     rows !! i = Some cs ∧ account_calls key val cs) →
  ∀ page : list leaf, keys = page.*1 → vals = page.*2 →
  Forall2 (account_bundle seg) page
    ((λ i, MkBundle seg false (default [] (rows !! i)) false) <$> seq 0 (length keys)).
Proof.
  intros Hrows page -> ->. rewrite length_fmap in *. apply Forall2_same_length_lookup.
  split; [by rewrite length_fmap, length_seq|].
  intros i l b Hl Hb. pose proof (lookup_lt_Some _ _ _ Hl) as Hlt.
  rewrite list_lookup_fmap, lookup_seq_lt in Hb by done. cbn in Hb. injection Hb as <-.
  destruct (Hrows i) as (key & val & cs & Hk & Hv & Hr & Hcs); [apply elem_of_seq; lia|].
  rewrite list_lookup_fmap, Hl in Hk, Hv. cbn in Hk, Hv. simplify_eq. rewrite Hr. by exists cs.
Qed.

Lemma segment_loop_safe fuel seg start k Q L :
  length (from start (Trie Root)) < fuel →
  loaded_but seg (l_rows L) (from start (Trie Root)) → (segment_start seg ≤ start)%bytes →
  (∀ L', segment_done (l_rows L') seg → safe (segment_keys seg) k Q L') →
  safe (segment_keys seg)
    (segment_loop keccak rlp_account Root fuel seg start (segment_end seg) k) Q L.
Proof.
  revert start L. induction fuel as [|fuel IH]; intros start L Hfuel Hl Hst Hk; [lia|].
  cbn [segment_loop]. constructor. intros resp Hresp.
  destruct (response_page Trie full Root arr_zero (Some start) (Some (segment_end seg)) resp) as (page & rest & Hp);
    [done|done|done|]. cbv zeta in Hp. set (r := truncateAt resp (Some (segment_end seg))) in *.
  cbn [from_option id] in Hp. pose proof (pg_from _ _ _ _ _ _ _ _ Hp) as Hfrom.
  assert (∀ l, l ∈ page ++ rest → l ∈ Trie Root ∧ (start ≤ l.1)%bytes) as Hin.
  { intros l. rewrite <-Hfrom. apply elem_of_from. }
  assert (∀ l, l ∈ page → l ∈ Trie Root ∧ head l.1 = Some seg) as Hpage.
  { intros l Hlp. destruct (Hin l) as [HT Hle]; [apply elem_of_app; by left|]. split; [done|].
    apply segment_head; [by apply (trie_width _ (tries Root))|].
    split; [by eapply bytes_le_trans|]. by apply (pg_upto _ _ _ _ _ _ _ _ Hp). }
  pose proof (from_sorted (Trie Root) start (trie_sorted _ (tries Root))) as Hs. rewrite Hfrom in Hs, Hl.
  assert (∀ L', (∀ l, l ∈ rest → ¬ (l.1 ≤ segment_end seg)%bytes) → loaded_but seg (l_rows L') rest →
    segment_done (l_rows L') seg) as Hdone.
  { intros L' Hr Hl' h Hk' Hh. destruct (Hl' h Hk' Hh) as [?|([k0 v] & Hk0 & Hr0)%list_elem_of_fmap]; [done|].
    exfalso. apply (Hr _ Hr0). rewrite <-Hk0.
    apply segment_head; [apply length_abytes|done]. }
  constructor. intros order Horder. apply handle_all_safe; [|by rewrite Horder; apply NoDup_seq].
  intros rows Hrows _. eapply enqueue_accounts_safe; [|exact Hpage|exact Hs|exact Hl|].
  { apply (account_bundles seg (Keys r.1) (Vals r.1)); [|apply Hp|apply Hp].
    intros i Hi. apply Hrows. by rewrite Horder. }
  intros L' Hl'. destruct (r.2 || negb (More r.1)) eqn:Estop.
  { apply Hk, Hdone; [|done]. by apply (pg_stop _ _ _ _ _ _ _ _ Hp). }
  destruct (last (Keys r.1)) as [key|] eqn:Elast; [|by constructor].
  rewrite (pg_keys _ _ _ _ _ _ _ _ Hp) in Elast.
  pose proof (from_page _ _ _ _ _ (tries Root) Hfrom Elast) as Hnext.
  destruct (incKey key) as [next|].
  - destruct Hnext as [Hn Hle]. apply IH; [|by rewrite Hn|by eapply bytes_le_trans|done].
    rewrite Hn. rewrite Hfrom, length_app in Hfuel. destruct page; [done|]. cbn in Hfuel. lia.
  - subst rest. apply Hk, Hdone; [by intros l ?%elem_of_nil|done].
Qed.

(** [runSegment]: the whole segment, then its bit. *)
Lemma runSegment_safe fuel seg start L :
  length (Trie Root) < fuel →
  (∀ st, start = Some st → below seg st (l_rows L) ∧ (segment_start seg ≤ st)%bytes) →
  safe (segment_keys seg) (runSegment keccak rlp_account Root fuel seg start)
    (λ L', segment_done (l_rows L') seg) L.
Proof.
  intros Hfuel Hst. unfold runSegment.
  assert (∀ st, length (from st (Trie Root)) < fuel) as Hlen.
  { intros st. eapply Nat.le_lt_trans; [apply length_filter|done]. }
  assert (below seg (default (segment_start seg) start) (l_rows L) ∧
    (segment_start seg ≤ default (segment_start seg) start)%bytes) as [Hb Hle].
  { destruct start as [st|]; [by apply Hst|]. cbn [from_option id]. split; [|apply bytes_le_refl].
    intros h _ Hh Hlt. exfalso. apply bytes_lt_not_le in Hlt. apply Hlt.
    by apply segment_head; [apply length_abytes|]. }
  apply segment_loop_safe; [done| |done|].
  - intros h Hk Hh. destruct (decide (abytes h < default (segment_start seg) start)%bytes) as [?|Hge];
      [left; by apply Hb|right].
    destruct (leaf_key_leaf Root h Hk) as [v Hv]. apply list_elem_of_fmap. exists (abytes h, v).
    split; [done|]. apply elem_of_from. split; [done|]. cbn.
    destruct (bytes_le_total (default (segment_start seg) start) (abytes h)) as [?|Hle']; [done|].
    apply bytes_le_lteq in Hle' as [?|<-]; [done|apply bytes_le_refl].
  - intros L' Hdone. constructor; [|by constructor].
    split_and!; cbn [final_bundle b_barrier b_apply]; [done|constructor|by intros k (c & ?%elem_of_nil & _)|].
    intros [m bm] HP Hi. unfold bundle_calls. cbn [final_bundle b_apply b_final b_seg app fst snd] in *.
    split; [done|]. split; [|done]. cbn [pstep fst snd].
    change (call_effect S m (CSetProgress ?p)) with (<[key_bytes KMetaBaselineProgress:=p]> m).
    apply inv_set_bit; [|done]. intros h Hk Hh. unfold has_base_account. rewrite HP.
    + by apply Hdone.
    + exists h. split; [done|by left].
    + by intros [?|[? ?]]%free_key_kind.
Qed.
End proof.
