(* ===== verification/SyncWalk.v ===== *)
(** * SyncWalk: walks over a storage trie

    [walkStorage] in the logic of [SyncLogic]: the warm-up from the beginning,
    which hands back the key to go on from, and the walk of one sub-range, which
    resumes behind the greatest row committed in it. *)

From Stdlib Require Import Sorted.
From S2P Require Import Prelude Schema Lmdb Capture World Store StoreRead StoreSpec StoreProof.
From S2P Require Import StoreReads StoreWrites Loader Scans SyncKeys Sync SyncTrie SyncLogic.
From S2P Require Import SyncInv SyncProof.

Section walk.
Context (S : u64) (keccak : bytes → Hash).
Context (rlp_account : bytes → option LeafAccount) (rlp_content : bytes → option bytes).
Context (Root : Hash) (vars : Vars) (Trie : Hash → list leaf) (full : Prop).
Context (tries : ∀ root, trie_ok (Trie root)).

Abbreviation Inv := (Inv keccak rlp_account rlp_content Root vars Trie full).
Abbreviation safe := (safe S Inv (leafs_ok Trie full) (code_ok keccak)).
Abbreviation leaf_key := (leaf_key Trie).
Abbreviation is_account := (is_account rlp_account Root Trie).
Abbreviation has_storage := (has_storage keccak).
Abbreviation is_slot := (is_slot rlp_content Trie).
Abbreviation split_prefixes := (split_prefixes vars Trie).
Abbreviation may_send := (may_send S Inv).
Implicit Types (L : lst) (Q : lst → Prop) (K : keyset).

(** ** The rows of a response *)

Definition slot_leaf (root : Hash) (l : leaf) (kv : Hash * Hash) : Prop :=
  abytes kv.1 = l.1 ∧ is_slot root kv.1 kv.2.

Lemma slot_rows_spec root page slots :
  (∀ l, l ∈ page → l ∈ Trie root) → slot_rows rlp_content page.*1 page.*2 = Ok slots →
  Forall2 (slot_leaf root) page slots.
Proof.
  revert slots. induction page as [|[k v] page IH]; intros slots Hin Hs;
    cbn [fmap list_fmap slot_rows fst snd] in Hs.
  { injection Hs as <-. constructor. }
  destruct (Nat.eqb_spec (length k) 32) as [Hl|]; cbn [negb] in Hs; [|done].
  destruct (rlp_content v) as [content|] eqn:Hc; [|done].
  destruct (32 <? length content); [done|].
  destruct (slot_rows rlp_content page.*1 page.*2) as [rest|] eqn:Er; cbn [rbind] in Hs; [|done].
  injection Hs as <-. constructor; [|apply IH; [|done]; intros; apply Hin; by right].
  split; [by apply BytesToHash_32|]. exists v, content. cbn [fst snd].
  rewrite BytesToHash_32 by done. split_and!; [apply Hin; left|done|done].
Qed.

Lemma slot_rows_fails (page : list leaf) e :
  slot_rows rlp_content page.*1 page.*2 = Err e → e ≠ ErrMsg "fuel".
Proof.
  revert e. induction page as [|[k v] page IH]; intros e Hs;
    cbn [fmap list_fmap slot_rows fst snd] in Hs; [done|].
  destruct (Nat.eqb _ _); cbn [negb] in Hs; [|by simplify_eq].
  destruct (rlp_content v); [|by simplify_eq]. destruct (32 <? _); [by simplify_eq|].
  destruct (slot_rows _ _ _); cbn [rbind] in Hs; simplify_eq. by apply IH.
Qed.

(** ** Filling the slots of one account *)

Context (h : Hash) (acc : LeafAccount).
Context (Hacc : is_account h acc) (Hst : has_storage acc).
Abbreviation root := (la_Root acc).

Definition slot_keys (R : bytes → Prop) : keyset := λ k,
  ∃ s : Hash, R (abytes s) ∧ k = key_bytes (KBaseSlot h s).

Definition slots_but (R : bytes → Prop) (m : gmap bytes bytes) (pending : list leaf) : Prop :=
  ∀ s, leaf_key root s → R (abytes s) → has_base_slot m h s ∨ abytes s ∈ pending.*1.

(** Writing the slot keeps the ranges of a giant trie filled from their start,
    provided the keys before it are there. *)
Definition fills (R : bytes → Prop) (key : bytes) : Prop :=
  ∀ m s v, abytes s = key →
    (∀ s', leaf_key root s' → R (abytes s') → (abytes s' < key)%bytes → has_base_slot m h s') →
    full → split_prefixes m h root →
    split_prefixes (<[key_bytes (KBaseSlot h s):=v]> m) h root.

Definition slot_call (kv : Hash * Hash) : lcall := CBaseSlot h kv.1 kv.2.

Lemma slot_effect m kv : call_effect S m (slot_call kv) = <[key_bytes (KBaseSlot h kv.1):=abytes kv.2]> m.
Proof. done. Qed.

Lemma has_slot_insert m s v s' :
  has_base_slot (<[key_bytes (KBaseSlot h s):=v]> m) h s' ↔ s' = s ∨ has_base_slot m h s'.
Proof.
  unfold has_base_slot. destruct (decide (s' = s)) as [->|Hne].
  - rewrite lookup_insert_eq. naive_solver.
  - rk. naive_solver.
Qed.

Lemma slots_below R m l pending s' :
  slots_but R m (l :: pending) → StronglySorted bytes_lt (l :: pending).*1 →
  leaf_key root s' → R (abytes s') → (abytes s' < l.1)%bytes → has_base_slot m h s'.
Proof.
  intros Hb Hs Hk HR Hlt. destruct (Hb s' Hk HR) as [?|Hin]; [done|]. exfalso.
  cbn in Hs. inversion_clear Hs as [|? ? _ Hall]. cbn in Hin. apply elem_of_cons in Hin as [Heq|Hin].
  - rewrite Heq in Hlt. by apply bytes_lt_irrefl in Hlt.
  - rewrite Forall_forall in Hall. specialize (Hall _ Hin). apply bytes_lt_not_le in Hlt.
    apply Hlt. apply bytes_le_lteq. by left.
Qed.

Lemma slots_but_step R m l kv pending :
  abytes kv.1 = l.1 → slots_but R m (l :: pending) →
  slots_but R (call_effect S m (slot_call kv)) pending.
Proof.
  intros Hk Hb s Hl HR. rewrite slot_effect, has_slot_insert.
  destruct (Hb s Hl HR) as [?|Hin]; [left; by right|]. cbn in Hin.
  apply elem_of_cons in Hin as [Heq|?]; [left; left|by right]. apply abytes_inj. congruence.
Qed.

Lemma slots_but_page R m page slots rest :
  Forall2 (slot_leaf root) page slots → slots_but R m (page ++ rest) →
  slots_but R (foldl (call_effect S) m (slot_call <$> slots)) rest.
Proof.
  intros Hps. revert m. induction Hps as [|l kv page slots [Hk _] _ IH]; intros m Hb; [done|].
  cbn [fmap list_fmap foldl]. apply IH. by eapply slots_but_step.
Qed.

Lemma slots_calls_inv R P page slots rest :
  Forall2 (slot_leaf root) page slots → (∀ l, l ∈ page → fills R l.1) →
  StronglySorted bytes_lt (page ++ rest).*1 → slots_but R P.1 (page ++ rest) → Inv P.1 P.2 →
  calls_inv S Inv P (slot_call <$> slots).
Proof.
  intros Hps. revert P. induction Hps as [|l kv page slots [Hk Hsl] _ IH]; intros P Hf Hs Hb Hi;
    [by split|]. cbn [fmap list_fmap calls_inv]. split; [done|]. destruct P as [m bm]. cbn [fst snd] in *.
  apply IH; cbn [pstep fst snd slot_call].
  - intros. apply Hf. by right.
  - by inversion Hs.
  - by eapply (slots_but_step R m l kv).
  - change (call_effect S m (CBaseSlot h kv.1 kv.2)) with (<[key_bytes (KBaseSlot h kv.1):=abytes kv.2]> m).
    eapply inv_put_slot; [done..| |done]. intros Hfull. apply (Hf l ltac:(left)); [done| |done].
    intros s'. by apply (slots_below R m l (page ++ rest)).
Qed.

Lemma slots_send R K L page slots rest :
  (∀ k, slot_keys R k → K k) →
  Forall2 (slot_leaf root) page slots → (∀ l, l ∈ page → fills R l.1 ∧ R l.1) →
  StronglySorted bytes_lt (page ++ rest).*1 → slots_but R (l_rows L) (page ++ rest) →
  may_send K L (apply_bundle (slot_call <$> slots)).
Proof.
  intros HK Hps Hf Hs Hb.
  assert (∀ kv, kv ∈ slots → R (abytes kv.1)) as HR.
  { intros kv (i & Hi)%list_elem_of_lookup.
    destruct (Forall2_lookup_r _ _ _ _ _ Hps Hi) as (l & Hl & Hk & _). rewrite Hk. apply Hf.
    by eapply list_elem_of_lookup_2. }
  split_and!; cbn [apply_bundle b_barrier b_apply]; [done|..].
  - apply Forall_fmap, Forall_true. intros kv. by eexists.
  - intros k (c & (kv & -> & Hkv)%list_elem_of_fmap & Hk). injection Hk as <-. left. apply HK.
    exists kv.1. split; [by apply HR|done].
  - intros P HP Hi. unfold bundle_calls. cbn [apply_bundle b_apply b_final]. rewrite app_nil_r.
    eapply (slots_calls_inv R); [done|intros; by apply Hf|done| |done].
    intros s Hl HRs. destruct (Hb s Hl HRs) as [Hhas|?]; [left|by right].
    unfold has_base_slot. rewrite HP; [done|apply HK; by exists s|].
    by intros [?|[? ?]]%free_key_kind.
Qed.

(** Sending the page touches only its keys. *)
Lemma slots_send_other L page slots k :
  Forall2 (slot_leaf root) page slots →
  (∀ s, abytes s ∈ page.*1 → k ≠ key_bytes (KBaseSlot h s)) → k ≠ MetaBaselineProgress →
  same_at L (send S L (apply_bundle (slot_call <$> slots))) k.
Proof.
  intros Hps Hk Hp.
  assert (∀ c, c ∈ slot_call <$> slots → call_key S c ≠ Some k) as Hc.
  { intros c (kv & -> & (i & Hi)%list_elem_of_lookup)%list_elem_of_fmap [= Heq].
    destruct (Forall2_lookup_r _ _ _ _ _ Hps Hi) as (l & Hl & Hkv & _).
    apply (Hk kv.1); [|by rewrite <-Heq]. rewrite Hkv. apply list_elem_of_fmap_2.
    by eapply list_elem_of_lookup_2. }
  split; cbn [send l_rows l_sent apply_bundle b_apply].
  - symmetry. by apply effects_other.
  - split; [by left|]. intros [?|(c & Hin & Hck)]; [done|]. by destruct (Hc c Hin).
Qed.

(** ** The request loop *)

Section loop.
Context (K : keyset) (Q : lst → Prop) (k : option bytes → prog) (L0 : lst).
Context (maxReqs : Z) (lo : bytes) (end_ : option bytes).
Abbreviation R := (in_range (lo, end_)).
Abbreviation T := (Trie root).

(** Written so far: rows of the range, below the next start key. *)
Definition walked (L : lst) (start : bytes) : Prop :=
  (∀ x, ¬ slot_keys R x → x ≠ MetaBaselineProgress → same_at L0 L x) ∧
  (∀ s : Hash, (start ≤ abytes s)%bytes → same_at L0 L (key_bytes (KBaseSlot h s))).

(** When responses are full, [n] of them are [n * leafLimit] leaves. *)
Definition counted (n : Z) (start : option bytes) : Prop :=
  (0 < maxReqs)%Z → full →
  from (default [] start) T = drop (Z.to_nat n * leafLimit) T ∧
  ((0 < n)%Z → ∃ key, T.*1 !! (Z.to_nat n * leafLimit - 1) = Some key ∧ incKey key = start).

Context (HK : ∀ x, slot_keys R x → K x) (Hend : end_ ≠ Some []).
Context (Hfill : ∀ i l, T !! i = Some l → R l.1 →
  (maxReqs = 0%Z ∨ i < Z.to_nat maxReqs * leafLimit) → fills R l.1).
Context (Hmax : (0 ≤ maxReqs)%Z).
Context (Hnone : ∀ L,
  (∀ x, ¬ slot_keys R x → x ≠ MetaBaselineProgress → same_at L0 L x) →
  (∀ s, leaf_key root s → R (abytes s) → has_base_slot (l_rows L) h s) → safe K (k None) Q L).
Context (Hmore : ∀ L start,
  (0 < maxReqs)%Z → length start = 32 → walked L start → slots_but R (l_rows L) (from start T) →
  (full → ∃ key, T.*1 !! (Z.to_nat maxReqs * leafLimit - 1) = Some key ∧ incKey key = Some start) →
  safe K (k (Some start)) Q L).

(** Keys no page leaf writes stay as they were. *)
Lemma sent_same L page slots x :
  Forall2 (slot_leaf root) page slots → same_at L0 L x →
  (∀ s : Hash, abytes s ∈ page.*1 → x ≠ key_bytes (KBaseSlot h s)) → x ≠ MetaBaselineProgress →
  same_at L0 (send S L (apply_bundle (slot_call <$> slots))) x.
Proof.
  intros Hps [H1 H2] Hx Hp. destruct (slots_send_other L page slots x Hps Hx Hp) as [H3 H4].
  split; [congruence|tauto].
Qed.

Lemma sent_outside L start page slots x :
  walked L start → (∀ l, l ∈ page → R l.1) → Forall2 (slot_leaf root) page slots →
  ¬ slot_keys R x → x ≠ MetaBaselineProgress →
  same_at L0 (send S L (apply_bundle (slot_call <$> slots))) x.
Proof.
  intros [Hw _] HR Hps Hx Hp. eapply sent_same; [done|by apply Hw| |done].
  intros s (l & Hl & Hin)%list_elem_of_fmap ->. apply Hx. exists s. rewrite Hl. split; [by apply HR|done].
Qed.

Lemma walked_send L start page slots next :
  walked L start → (∀ l, l ∈ page → R l.1) → Forall2 (slot_leaf root) page slots →
  (∀ l, l ∈ page → (l.1 < next)%bytes) → (start ≤ next)%bytes →
  walked (send S L (apply_bundle (slot_call <$> slots))) next.
Proof.
  intros Hw HR Hps Hnext Hle. split; [intros; by eapply sent_outside|].
  intros s Hs. eapply sent_same; [done|apply Hw; by eapply bytes_le_trans| |].
  - intros s' (l & Hl & Hin)%list_elem_of_fmap [= ->]%key_bytes_inj. apply Hnext in Hin.
    rewrite <-Hl in Hin. by apply bytes_lt_not_le in Hin.
  - intros Heq. by apply (key_bytes_inj (KBaseSlot h s) KMetaBaselineProgress) in Heq.
Qed.

(** The leaves before a successor key that is behind the page. *)
Lemma page_before_next start page rest key next :
  from start T = page ++ rest → last page.*1 = Some key → incKey key = Some next →
  (∀ l, l ∈ page → (l.1 < next)%bytes) ∧ length next = 32.
Proof.
  intros Hfrom Hlast Hinc.
  assert (∀ l, l ∈ page → l ∈ T) as HinT.
  { intros l Hl. assert (l ∈ from start T) as Hf by (rewrite Hfrom; apply elem_of_app; by left).
    by apply elem_of_from in Hf as [? _]. }
  rewrite fmap_last in Hlast. destruct (last page) as [lk|] eqn:El; [|done]. injection Hlast as <-.
  pose proof (last_Some_elem_of _ _ El) as Hlk. pose proof (trie_width _ (tries root)) as Hwid.
  assert (length next = 32) as Hlen by (rewrite (incKey_length _ _ Hinc); by apply Hwid, HinT).
  split; [|done].
  intros l Hl. apply bytes_lt_not_le. intros Hle.
  apply (incKey_next _ _ _ Hinc) in Hle; [|by rewrite !Hwid by auto].
  pose proof (from_sorted T start (trie_sorted _ (tries root))) as Hs. rewrite Hfrom in Hs.
  apply last_Some in El as [pre ->]. rewrite !fmap_app in Hs.
  apply StronglySorted_app_inv in Hs as (Hs & _). apply StronglySorted_app_inv in Hs as (_ & _ & Hp).
  apply elem_of_app in Hl as [Hl|Hl].
  - assert (l.1 < lk.1)%bytes as Hc.
    { apply Hp; [by apply list_elem_of_fmap_2|cbn; left]. }
    by apply (bytes_lt_irrefl l.1), (bytes_lt_trans _ lk.1).
  - apply list_elem_of_singleton in Hl as ->. by apply bytes_lt_irrefl in Hle.
Qed.

Lemma counted_next n start page rest key :
  (0 ≤ n)%Z → counted n start → from (default [] start) T = page ++ rest →
  last page.*1 = Some key → (full → length page = leafLimit) → ∀ next, incKey key = Some next →
  from next T = rest → counted (n + 1) (Some next).
Proof.
  intros Hn Hc Hfrom Hlast Hlen next Hinc Hrest Hm Hfull. destruct (Hc Hm Hfull) as [Hd _].
  specialize (Hlen Hfull). rewrite Z2Nat.inj_add, Nat.mul_add_distr_r by lia.
  change (Z.to_nat 1 * leafLimit) with leafLimit. rewrite Hd in Hfrom. cbn [from_option id].
  assert (0 < leafLimit) by (unfold leafLimit; lia).
  split.
  - rewrite Hrest, <-drop_drop, Hfrom. by rewrite drop_app_exact.
  - intros _. exists key. split; [|done]. rewrite fmap_last, last_lookup, Hlen in Hlast.
    rewrite list_lookup_fmap.
    assert (T !! (Z.to_nat n * leafLimit + Nat.pred leafLimit) = page !! Nat.pred leafLimit) as Hi.
    { rewrite <-lookup_drop, Hfrom. apply lookup_app_l. lia. }
    replace (Z.to_nat n * leafLimit + leafLimit - 1) with (Z.to_nat n * leafLimit + Nat.pred leafLimit) by lia.
    by rewrite Hi.
Qed.

(** The leaves of a page may be written. *)
Lemma page_fills n start page rest l :
  (0 ≤ n)%Z → ((0 < maxReqs)%Z → (n < maxReqs)%Z) → counted n start →
  from (default [] start) T = page ++ rest → length page ≤ leafLimit → l ∈ page → R l.1 →
  fills R l.1.
Proof.
  intros Hn Hlt Hc Hfrom Hlen Hl HR m s v Hs Hpre Hfull.
  apply list_elem_of_lookup in Hl as [j Hj]. pose proof (lookup_lt_Some _ _ _ Hj) as Hjl.
  assert ((page ++ rest) !! j = Some l) as Hj' by (by rewrite lookup_app_l).
  destruct (decide (maxReqs = 0%Z)) as [Hz|Hz].
  - assert (l ∈ T) as (i & Hi)%list_elem_of_lookup.
    { assert (l ∈ from (default [] start) T) as [? _]%elem_of_from; [|done].
      rewrite Hfrom. by eapply list_elem_of_lookup_2. }
    by eapply (Hfill i l Hi HR (or_introl Hz)).
  - destruct (Hc ltac:(lia) Hfull) as [Hd _]. rewrite <-Hfrom, Hd, lookup_drop in Hj'.
    eapply (Hfill _ l Hj' HR); [right|done..]. specialize (Hlt ltac:(lia)). nia.
Qed.

Lemma walk_loop_safe fuel start n L :
  length (from (default [] start) T) < fuel → (lo ≤ default [] start)%bytes →
  walked L (default [] start) → slots_but R (l_rows L) (from (default [] start) T) →
  (0 ≤ n)%Z → ((0 < maxReqs)%Z → (n ≤ maxReqs)%Z) →
  ((0 < n)%Z → ∃ st, start = Some st ∧ length st = 32) → counted n start →
  safe K (walk_loop rlp_content fuel h root start end_ maxReqs n k) Q L.
Proof.
  revert start n L. induction fuel as [|fuel IH]; intros start n L Hfuel Hlo Hw Hb Hn Hnm Hst' Hcnt; [lia|].
  cbn [walk_loop]. destruct ((0 <? maxReqs)%Z && (maxReqs <=? n)%Z) eqn:Emax.
  { apply andb_true_iff in Emax as [E1%Z.ltb_lt E2%Z.leb_le]. specialize (Hnm E1).
    assert (n = maxReqs) as -> by lia. destruct (Hst' E1) as (st & -> & Hlen).
    apply Hmore; try done. intros Hfull. destruct (Hcnt E1 Hfull) as [_ Hkey]. by apply Hkey. }
  constructor. intros resp Hresp.
  destruct (response_page Trie full root h start end_ resp) as (page & rest & Hp); [done..|].
  cbv zeta in Hp |- *. set (r := truncateAt resp end_) in *.
  pose proof (pg_from _ _ _ _ _ _ _ _ Hp) as Hfrom.
  rewrite (pg_keys _ _ _ _ _ _ _ _ Hp), (pg_vals _ _ _ _ _ _ _ _ Hp).
  destruct (slot_rows _ _ _) as [slots|e] eqn:Es; [|constructor; by eapply slot_rows_fails].
  assert (∀ l, l ∈ page → l ∈ T ∧ R l.1) as Hpage.
  { intros l Hl. assert (l ∈ from (default [] start) T) as [HT Hle]%elem_of_from
      by (rewrite Hfrom; apply elem_of_app; by left).
    split; [done|]. split; [by eapply bytes_le_trans|]. by apply (pg_upto _ _ _ _ _ _ _ _ Hp). }
  apply slot_rows_spec with (root := root) in Es; [|intros; by apply Hpage].
  pose proof (from_sorted T (default [] start) (trie_sorted _ (tries root))) as Hs.
  rewrite Hfrom in Hs, Hb. change (λ kv, CBaseSlot h kv.1 kv.2) with slot_call.
  constructor.
  { eapply (slots_send R); [done|done| |done|done]. intros l Hl. split; [|by apply Hpage].
    eapply (page_fills n start); try done; [|apply (pg_limit _ _ _ _ _ _ _ _ Hp)|by apply Hpage].
    intros Hm. apply andb_false_iff in Emax as [?%Z.ltb_nlt|?%Z.leb_nle]; lia. }
  pose proof (slots_but_page R _ _ _ _ Es Hb) as Hb'.
  assert ((∀ l, l ∈ rest → ¬ upto end_ l.1) →
    safe K (k None) Q (send S L (apply_bundle (slot_call <$> slots)))) as Hstop.
  { intros Hrest. apply Hnone; [intros; eapply sent_outside; [done| |done..]; intros; by apply Hpage|].
    intros s Hl HR. destruct (Hb' s Hl HR) as [?|([k0 v] & Hk0 & Hr0)%list_elem_of_fmap]; [done|].
    exfalso. apply (Hrest _ Hr0). rewrite <-Hk0. apply HR. }
  destruct (r.2 || negb (More r.1)) eqn:Estop; [by apply Hstop, (pg_stop _ _ _ _ _ _ _ _ Hp)|].
  destruct (last page.*1) as [key|] eqn:Elast; [|by constructor].
  pose proof (from_page _ _ _ _ _ (tries root) Hfrom Elast) as Hnext.
  destruct (incKey key) as [next|] eqn:Einc; [|apply Hstop; subst rest; by intros l ?%elem_of_nil].
  destruct Hnext as [Hrest Hle]. destruct (page_before_next _ _ _ _ _ Hfrom Elast Einc) as [Hbef Hlen].
  apply IH; cbn [from_option id].
  - rewrite Hrest. rewrite Hfrom, length_app in Hfuel. destruct page; [done|]. cbn in Hfuel. lia.
  - by eapply bytes_le_trans.
  - eapply walked_send; [done| |done|done|done]. intros; by apply Hpage.
  - by rewrite Hrest.
  - lia.
  - intros Hm. apply andb_false_iff in Emax as [?%Z.ltb_nlt|?%Z.leb_nle]; [lia|]. lia.
  - intros _. by exists next.
  - eapply counted_next; [done|done|exact Hfrom|done|by apply (pg_full _ _ _ _ _ _ _ _ Hp)|done|done].
Qed.
End loop.

(** ** Which writes keep the ranges filled *)

(** Keys before the ranges. *)
Lemma fills_warm R key :
  length key = 32 → (∀ next, warm_next vars Trie root = Some next → (key < next)%bytes ∧ length next = 32) →
  fills R key.
Proof.
  intros Hlen Hbef m s v Hs _ _ Hp next rs r Hn Hr Hin s1 s2 H1 H2 H3 H4 H5.
  apply has_slot_insert. apply has_slot_insert in H1 as [->|H1]; [|right; by eapply Hp].
  exfalso. destruct (Hbef next Hn) as [Hlt Hnl].
  destruct (contiguous_lengths _ _ _ (splitRange_Ok _ _ _ Hr) Hin) as (_ & Hle & _).
  destruct H3 as [H3 _]. rewrite Hs in H3. apply bytes_lt_not_le in Hlt. apply Hlt.
  by eapply bytes_le_trans.
Qed.

(** The next key of one range. *)
Lemma fills_range next rs i r key :
  length next = 32 → (full → warm_next vars Trie root = Some next) →
  splitRange next (splitWays vars) = Ok rs → rs !! i = Some r → in_range r key → length key = 32 →
  fills (in_range r) key.
Proof.
  intros Hnl Hwarm Hsp Hi Hr Hlen m s v Hs Hpre Hfull Hp next' rs' r' Hn' Hr' Hin' s1 s2 H1 H2 H3 H4 H5.
  rewrite (Hwarm Hfull) in Hn'. injection Hn' as <-. rewrite Hsp in Hr'. injection Hr' as <-.
  apply has_slot_insert. apply has_slot_insert in H1 as [->|H1]; cycle 1.
  { right. eapply (Hp next rs r'); [by apply Hwarm|done..]. }
  apply list_elem_of_lookup in Hin' as [j Hj].
  assert (i = j) as <-.
  { pose proof (splitRange_Ok _ _ _ Hsp) as Hct. rewrite Hs in H3.
    destruct (Nat.lt_trichotomy i j) as [Hlt|[?|Hlt]]; [exfalso|done|exfalso].
    - eapply (contiguous_disjoint next rs i j r r' key); try done. congruence.
    - eapply (contiguous_disjoint next rs j i r' r key); try done. congruence. }
  simplify_eq. apply bytes_le_lteq in H5 as [Hlt|Heq%abytes_inj]; [right|by left].
  by apply Hpre.
Qed.

(** ** The walk of one sub-range *)

Lemma sub_walk_safe fuel next rs i r L :
  length (Trie root) < fuel → length next = 32 → (full → warm_next vars Trie root = Some next) →
  splitRange next (splitWays vars) = Ok rs → rs !! i = Some r →
  (noStorageResume vars = false → range_prefix Trie (l_rows L) h root r) →
  (∀ x, slot_keys (in_range r) x → ¬ l_sent L x) →
  safe (slot_keys (in_range r))
    (walkStorage rlp_content vars fuel h root (Some r.1) r.2 0 (λ _, PDone))
    (λ L', ∀ s, leaf_key root s → in_range r (abytes s) → has_base_slot (l_rows L') h s) L.
Proof.
  intros Hfuel Hnl Hwarm Hsp Hi Hpre Huns. destruct r as [lo end_].
  destruct (contiguous_lengths next rs (lo, end_)) as (Hlol & _ & Hel);
    [by eapply splitRange_Ok|by eapply list_elem_of_lookup_2|]. cbn [fst snd] in *. rewrite Hnl in Hlol, Hel.
  assert (∀ st, length (from st (Trie root)) < fuel) as Hlen.
  { intros st. eapply Nat.le_lt_trans; [apply length_filter|done]. }
  set (Q := λ L' : lst, ∀ s, leaf_key root s → in_range (lo, end_) (abytes s) → has_base_slot (l_rows L') h s).
  assert (∀ st, (lo ≤ st)%bytes → slots_but (in_range (lo, end_)) (l_rows L) (from st (Trie root)) →
    safe (slot_keys (in_range (lo, end_)))
      (walk_loop rlp_content fuel h root (Some st) end_ 0 0 (λ _, PDone)) Q L) as Hloop.
  { intros st Hlo Hb. apply (walk_loop_safe _ Q _ L 0 lo end_); cbn [from_option id]; try done.
    - intros ->. done.
    - intros j l Hl HR _. refine (fills_range next rs i _ _ Hnl Hwarm Hsp Hi HR _). apply (trie_width _ (tries root)).
      by eapply list_elem_of_lookup_2.
    - intros L' _ Hall. by constructor. }
  assert (∀ st, (∀ s, leaf_key root s → in_range (lo, end_) (abytes s) → (abytes s < st)%bytes →
      has_base_slot (l_rows L) h s) → slots_but (in_range (lo, end_)) (l_rows L) (from st (Trie root))) as Hbut.
  { intros st Hall s Hl HR. destruct (decide (abytes s < st)%bytes) as [?|Hge]; [left; by apply Hall|right].
    destruct (leaf_key_leaf Trie root s Hl) as [v Hv]. apply list_elem_of_fmap. exists (abytes s, v).
    split; [done|]. apply elem_of_from. split; [done|]. cbn.
    destruct (bytes_le_total st (abytes s)) as [?|Hle]; [done|].
    apply bytes_le_lteq in Hle as [?|<-]; [done|apply bytes_le_refl]. }
  assert (slots_but (in_range (lo, end_)) (l_rows L) (from lo (Trie root))) as Hfrom0.
  { apply Hbut. intros s _ [Hle _] Hlt. cbn in Hle. by apply bytes_lt_not_le in Hlt. }
  unfold walkStorage. destruct (noStorageResume vars) eqn:Enr; cbn [Z.eqb negb andb].
  { apply Hloop; [apply bytes_le_refl|done]. }
  specialize (Hpre eq_refl). constructor. intros m o (Hwf & _ & Hag) Ho.
  assert (∀ s : Hash, in_range (lo, end_) (abytes s) → has_base_slot m h s ↔ has_base_slot (l_rows L) h s) as Hm.
  { intros s Hs. unfold has_base_slot. rewrite Hag; [done|by exists s|by intros [?|[? ?]]%free_key_kind|].
    apply Huns. by exists s. }
  destruct o as [wm|]; [|apply Hloop; [apply bytes_le_refl|done]].
  destruct Ho as (Hwm & Hwe & Hws & _). cbn [below_start] in Hws.
  assert (in_range (lo, end_) (abytes wm)) as Hwr.
  { split; cbn [fst snd].
    - destruct (bytes_le_total lo (abytes wm)) as [?|Hle]; [done|].
      apply bytes_le_lteq in Hle as [?|<-]; [done|apply bytes_le_refl].
    - destruct end_ as [e|]; [|done]. cbn [range_end] in Hwe. by rewrite pad_to_id in Hwe. }
  apply Hm in Hwm; [|done].
  assert (∀ s, leaf_key root s → in_range (lo, end_) (abytes s) → (abytes s ≤ abytes wm)%bytes →
    has_base_slot (l_rows L) h s) as Hdone by (intros; by eapply Hpre).
  destruct (incKey (abytes wm)) as [nx|] eqn:Einc; cycle 1.
  { constructor. intros s Hl HR. apply Hdone; [done..|]. apply incKey_last; [done|]. by rewrite !length_abytes. }
  assert (∀ s : Hash, (abytes wm < abytes s)%bytes ↔ (nx ≤ abytes s)%bytes) as Hnx
    by (intros s; apply incKey_next; [done|by rewrite !length_abytes]).
  destruct (_ && _) eqn:Eend.
  { constructor. intros s Hl HR. apply andb_true_iff in Eend as [E1 E2%bool_decide_eq_true].
    apply Hdone; [done..|]. destruct (bytes_le_total (abytes s) (abytes wm)) as [?|Hle]; [done|].
    apply bytes_le_lteq in Hle as [Hlt|<-]; [|apply bytes_le_refl]. exfalso. apply Hnx in Hlt.
    destruct end_ as [e|]; [|done]. cbn [from_option id] in E2. destruct HR as [_ He]. cbn in He.
    apply bytes_lt_not_le in E2. apply E2. by eapply bytes_le_trans. }
  clear Eend. case_bool_decide as Est; [|apply Hloop; [apply bytes_le_refl|done]]. cbn [from_option id] in Est.
  apply Hloop; [apply bytes_le_lteq; by left|]. apply Hbut. intros s Hl HR Hlt. apply Hdone; [done..|].
  destruct (bytes_le_total (abytes s) (abytes wm)) as [?|Hle]; [done|].
  apply bytes_le_lteq in Hle as [Hlt'|<-]; [|apply bytes_le_refl]. apply Hnx in Hlt'.
  by apply bytes_lt_not_le in Hlt.
Qed.
End walk.
