(* ===== verification/SyncDrain.v ===== *)
(** * SyncDrain: phase 2 of the state sync

    A storage task (warm-up, fan-out over the ranges of the rest of the key space,
    removal of the queue row) and the scan of the storage queue that starts them,
    in the logic of [SyncLogic]. *)

From Stdlib Require Import Sorted.
From S2P Require Import Prelude Schema Lmdb Capture World Store StoreRead StoreSpec StoreProof.
From S2P Require Import StoreReads StoreWrites Loader Scans SyncKeys Sync SyncTrie SyncLogic.
From S2P Require Import SyncInv SyncProof SyncWalk.

Section drain.
Context (S : u64) (keccak : bytes → Hash).
Context (rlp_account : bytes → option LeafAccount) (rlp_content : bytes → option bytes).
Context (Root : Hash) (vars : Vars) (Trie : Hash → list leaf) (full : Prop).
Context (tries : ∀ root, trie_ok (Trie root)).
Context (split_positive : (0 < splitAfter vars)%Z).

Abbreviation Inv := (Inv keccak rlp_account rlp_content Root vars Trie full).
Abbreviation safe := (safe S Inv (leafs_ok Trie full) (code_ok keccak)).
Abbreviation leaf_key := (leaf_key Trie).
Abbreviation is_account := (is_account rlp_account Root Trie).
Abbreviation has_storage := (has_storage keccak).
Abbreviation split_prefixes := (split_prefixes vars Trie).
Abbreviation slots_done := (slots_done Trie).
Implicit Types (L : lst) (Q : lst → Prop) (K : keyset).

(** ** One storage trie *)

Definition task_keys (h : Hash) : keyset := λ k,
  k = key_bytes (KStorageQueue h) ∨ ∃ s : Hash, k = key_bytes (KBaseSlot h s).

(** What the resumption of the sub-ranges relies on. *)
Definition resume_ok (m : gmap bytes bytes) (h root : Hash) : Prop :=
  noStorageResume vars = true ∨ (full ∧ split_prefixes m h root) ∨ ∀ s, ¬ has_base_slot m h s.

Lemma dequeue_safe h acc L :
  is_account h acc → slots_done (l_rows L) h (la_Root acc) →
  safe (task_keys h) (PEnqueue (apply_bundle [CDequeueStorage h]) PDone)
    (λ L', l_rows L' !! key_bytes (KStorageQueue h) = None) L.
Proof.
  intros Hacc Hdone. constructor; cycle 1.
  { constructor. cbn [send l_rows apply_bundle b_apply foldl].
    change (call_effect S ?m (CDequeueStorage h)) with (delete (key_bytes (KStorageQueue h)) m).
    apply lookup_delete_eq. }
  split_and!; cbn [apply_bundle b_barrier b_apply]; [done|constructor; [by eexists|constructor]|..].
  - intros k (c & ->%list_elem_of_singleton & [= <-]). left. by left.
  - intros [m bm] HP Hi. unfold bundle_calls. cbn [apply_bundle b_apply b_final app fst snd] in *.
    split; [done|]. split; [|done]. cbn [pstep fst snd].
    change (call_effect S m (CDequeueStorage h)) with (delete (key_bytes (KStorageQueue h)) m).
    eapply inv_dequeue; [done|done| |done]. intros s Hl. unfold has_base_slot. rewrite HP.
    + by apply Hdone.
    + right. by exists s.
    + by intros [?|[? ?]]%free_key_kind.
Qed.

Lemma not_free_slot (h s : Hash) : ¬ free_key (key_bytes (KBaseSlot h s)).
Proof. by intros [?|[? ?]]%free_key_kind. Qed.

Lemma slot_not_progress (h s : Hash) : key_bytes (KBaseSlot h s) ≠ MetaBaselineProgress.
Proof. intros Heq. apply (not_free_slot h s). by left. Qed.

(** The warm-up stays before the ranges. *)
Lemma warm_fills h acc i l R :
  Trie (la_Root acc) !! i = Some l → i < Z.to_nat (splitAfter vars) * leafLimit →
  fills vars Trie full h acc R l.1.
Proof.
  intros Hl Hi. pose proof (tries (la_Root acc)) as [Hs Hw].
  assert (length l.1 = 32) as Hlen by (by eapply Hw, list_elem_of_lookup_2).
  apply (fills_warm rlp_content); [done|]. intros next. unfold warm_next.
  set (j := Z.to_nat (splitAfter vars) * leafLimit - 1).
  destruct ((Trie (la_Root acc)).*1 !! j) as [key|] eqn:Ej; [|done]. intros Hinc.
  assert (length key = 32) as Hkl.
  { rewrite list_lookup_fmap in Ej. destruct (Trie (la_Root acc) !! j) as [lj|] eqn:E; [|done].
    injection Ej as <-. by eapply Hw, list_elem_of_lookup_2. }
  assert ((Trie (la_Root acc)).*1 !! i = Some l.1) as Hli by (by rewrite list_lookup_fmap, Hl).
  assert (l.1 ≤ key)%bytes as Hle.
  { destruct (decide (i = j)) as [->|]; [rewrite Ej in Hli; simplify_eq; apply bytes_le_refl|].
    apply bytes_le_lteq. left. eapply (sorted_lt_lookup _ i j); [done..|lia]. }
  split; [|by rewrite (incKey_length _ _ Hinc)].
  eapply bytes_le_lt_trans; [exact Hle|]. apply (incKey_next _ _ next Hinc); [|apply bytes_le_refl].
  apply (incKey_length _ _ Hinc).
Qed.

Lemma in_all (x : bytes) : in_range ([], None) x.
Proof. split; [|done]. unfold bytes_le. by destruct x. Qed.

Lemma storage_task_safe fuel h acc L :
  is_account h acc → has_storage acc → length (Trie (la_Root acc)) < fuel →
  (∀ s : Hash, ¬ l_sent L (key_bytes (KBaseSlot h s))) → resume_ok (l_rows L) h (la_Root acc) →
  safe (task_keys h) (storage_task rlp_content vars fuel h (la_Root acc))
    (λ L', l_rows L' !! key_bytes (KStorageQueue h) = None) L.
Proof.
  intros Hacc Hst Hfuel Huns Hres. unfold storage_task, walkStorage.
  destruct (Z.eqb_spec (splitAfter vars) 0) as [?|_]; [lia|]. cbn [andb].
  apply (walk_loop_safe S keccak rlp_account rlp_content Root vars Trie full tries h acc Hacc Hst
    _ _ _ L (splitAfter vars) [] None); cbn [from_option id]; try done; try lia.
  - intros x (s & _ & ->). right. by exists s.
  - intros i l Hl _ [?|Hi]; [lia|]. by eapply warm_fills.
  - intros L' _ Hall. eapply dequeue_safe; [done|]. intros s Hl. apply Hall; [done|apply in_all].
  - intros L' next _ Hnl [_ Habove] Hbut Hwarm.
    destruct (splitRange next (splitWays vars)) as [rs|e] eqn:Hsp; cycle 1.
    { constructor. apply splitRange_panic in Hsp. by subst e. }
    pose proof (splitRange_Ok _ _ _ Hsp) as Hct.
    assert (full → warm_next vars Trie (la_Root acc) = Some next) as Hwarm'.
    { intros Hf. unfold warm_next. by destruct (Hwarm Hf) as (key & -> & ->). }
    assert (∀ i r (s : Hash), rs !! i = Some r → in_range r (abytes s) → (next ≤ abytes s)%bytes) as Hge.
    { intros i r s Hi [Hlo _]. destruct (contiguous_lengths _ _ r Hct) as (_ & Hle & _);
        [by eapply list_elem_of_lookup_2|]. by eapply bytes_le_trans. }
    apply (safe_fork _ _ _ _ _ _ _ _ _
      (λ i, match rs !! i with Some r => slot_keys h (in_range r) | None => λ _, False end)
      (λ i L1, ∀ s, match rs !! i with Some r => leaf_key (la_Root acc) s → in_range r (abytes s) →
         has_base_slot (l_rows L1) h s | None => True end)).
    + intros i x. destruct (rs !! i); [|done]. intros (s & _ & ->). right. by exists s.
    + intros i j x Hij. destruct (rs !! i) as [r|] eqn:Ei, (rs !! j) as [r'|] eqn:Ej; [|done..].
      intros (s & Hs & ->) (s' & Hs' & [= <-]%key_bytes_inj).
      destruct (Nat.lt_trichotomy i j) as [Hlt|[?|Hlt]]; [|done|].
      * eapply (contiguous_disjoint next rs i j r r' (abytes s)); try done. by rewrite length_abytes.
      * eapply (contiguous_disjoint next rs j i r' r (abytes s)); try done. by rewrite length_abytes.
    + intros i p Hp. rewrite list_lookup_fmap in Hp. destruct (rs !! i) as [r|] eqn:Ei; [|done].
      injection Hp as <-.
      eapply (sub_walk_safe S keccak rlp_account rlp_content Root vars Trie full tries h acc Hacc Hst
        fuel next rs i r L'); try done.
      * intros Hnr s s' [x Hx] Hl Hin Hin' Hle.
        destruct (Habove s (Hge i r s Ei Hin)) as [Hsr _], (Habove s' (Hge i r s' Ei Hin')) as [Hsr' _].
        unfold has_base_slot. rewrite <-Hsr'. rewrite <-Hsr in Hx.
        destruct Hres as [?|[[Hf Hpre]|Hno]]; [congruence| |].
        -- eapply (Hpre next rs r (Hwarm' Hf) Hsp); [by eapply list_elem_of_lookup_2|by exists x|done..].
        -- destruct (Hno s). by exists x.
      * intros x (s & Hs & ->). destruct (Habove s (Hge i r s Ei Hs)) as [_ Hiff].
        rewrite <-Hiff. apply Huns.
    + intros L1 Hposts Hsame. eapply dequeue_safe; [done|]. intros s Hl.
      destruct (decide (next ≤ abytes s)%bytes) as [Hle|Hlt].
      * apply (contiguous_cover next rs) in Hle as (r & Hr & Hin); [|done|by rewrite length_abytes].
        apply list_elem_of_lookup in Hr as [i Hi].
        destruct (Hposts i) as (Li & HQ & Hag); [rewrite length_fmap; by eapply lookup_lt_Some|].
        specialize (HQ s). rewrite Hi in HQ, Hag. unfold has_base_slot.
        destruct (Hag (key_bytes (KBaseSlot h s))) as [<- _]; [by exists s|apply not_free_slot|].
        by apply HQ.
      * destruct (Hsame (key_bytes (KBaseSlot h s))) as [Hr _].
        -- intros i Hi. destruct (rs !! i) as [r|] eqn:Ei; [|by intros []].
           intros (s' & Hin & [= <-]%key_bytes_inj). apply Hlt. by eapply Hge.
        -- right. by exists s.
        -- apply not_free_slot.
        -- unfold has_base_slot. rewrite <-Hr.
           destruct (Hbut s Hl (in_all _)) as [?|([k0 v] & Hk0 & [_ Hle]%elem_of_from)%list_elem_of_fmap]; [done|].
           cbn in Hk0, Hle. by rewrite <-Hk0 in Hle.
  - by rewrite from_nil.
  - intros s Hl _. right. by rewrite from_nil.
  - intros _ _. cbn [from_option id]. rewrite from_nil. split; [done|lia].
Qed.

(** ** The scan of the queue *)

Definition drain_keys (after : option Hash) : keyset := λ k, ∃ h, queue_after after h ∧ task_keys h k.

(** The account leaves the scan may still meet. *)
Definition is_after (after : option Hash) (l : leaf) : Prop :=
  match after with Some a => (abytes a < l.1)%bytes | None => True end.

#[local] Instance is_after_dec (after : option Hash) (l : leaf) : Decision (is_after after l).
Proof. destruct after; apply _. Defined.

Definition leaves_after (after : option Hash) : list leaf := filter (is_after after) (Trie Root).

Lemma length_filter_lt {A} (P P' : A → Prop) `{∀ x, Decision (P x), ∀ x, Decision (P' x)} (l : list A) x :
  (∀ y, P' y → P y) → x ∈ l → P x → ¬ P' x → length (filter P' l) < length (filter P l).
Proof.
  intros Hsub Hin HP HP'. induction l as [|y l IH]; [by apply elem_of_nil in Hin|].
  assert (length (filter P' l) ≤ length (filter P l)) as Hle.
  { clear -Hsub. induction l as [|z l IH]; [done|]. rewrite !filter_cons.
    repeat case_decide; cbn; try lia. naive_solver. }
  rewrite !filter_cons. apply elem_of_cons in Hin as [->|Hin].
  - rewrite decide_False, decide_True by done. cbn. lia.
  - specialize (IH Hin). repeat case_decide; cbn; try lia. naive_solver.
Qed.

Lemma StronglySorted_lookup {A} (R : A → A → Prop) l i j x y :
  StronglySorted R l → l !! i = Some x → l !! j = Some y → i < j → R x y.
Proof.
  intros Hs. revert i j. induction Hs as [|a l _ IH Hall]; intros i j Hi Hj Hlt; [done|].
  destruct i as [|i], j as [|j]; [lia| |lia|]; simplify_eq/=.
  - rewrite Forall_forall in Hall. apply Hall. by eapply list_elem_of_lookup_2.
  - eapply IH; [done..|lia].
Qed.

Lemma task_keys_inj h h' k : task_keys h k → task_keys h' k → h = h'.
Proof.
  intros [->|[s ->]] [Hk|[s' Hk]]; apply key_bytes_inj in Hk; congruence.
Qed.

Lemma task_not_free h k : task_keys h k → ¬ free_key k.
Proof. intros [->|[s ->]] [?|[? ?]]%free_key_kind; done. Qed.

Definition resume_mode (m : gmap bytes bytes) (after : option Hash) : Prop :=
  noStorageResume vars = true ∨ full ∨ ∀ h s, queue_after after h → ¬ has_base_slot m h s.

Lemma queue_after_trans after a h : queue_after after a → (abytes a < abytes h)%bytes → queue_after after h.
Proof. destruct after; cbn; [|done]. apply bytes_lt_trans. Qed.

(** The rows of a page belong to accounts of the trie with that storage root. *)
Lemma page_accounts m bm after page h r :
  Inv m bm → page_ok m after scanBatch page → (h, r) ∈ page →
  queue_after after h ∧ ∃ acc, is_account h acc ∧ has_storage acc ∧ r = la_Root acc.
Proof.
  intros Hi Hp Hin. destruct (page_rows _ _ _ _ Hp h r Hin) as [Hq Ha]. split; [done|].
  destruct (iv_queue _ _ _ _ _ _ _ _ _ Hi h _ Hq) as (acc & ? & ? & He). exists acc.
  split_and!; [done|done|]. by apply abytes_inj.
Qed.

(** A task of a page can resume. *)
Lemma page_resume m bm L after h acc :
  Inv m bm → (∀ s, has_base_slot m h s ↔ has_base_slot (l_rows L) h s) → is_account h acc →
  queue_after after h → resume_mode (l_rows L) after → resume_ok (l_rows L) h (la_Root acc).
Proof.
  intros Hi Hm Hacc Ha [?|[Hf|Hno]]; [by left| |right; right; intros s; by apply Hno].
  right. left. split; [done|]. intros next rs r Hn Hr Hin s s'. rewrite <-!Hm.
  by apply (iv_resume _ _ _ _ _ _ _ _ _ Hi Hf h acc Hacc next rs).
Qed.

(** The goroutines of one page and the scan behind it. *)
Definition page_owner (page : list (Hash * Hash)) (lst : Hash) (i : nat) : keyset :=
  match page !! i with Some x => task_keys x.1 | None => λ k, i = length page ∧ drain_keys (Some lst) k end.

Lemma page_owner_sub (after : option Hash) (page : list (Hash * Hash)) (lst : Hash * Hash) i k :
  (∀ x, x ∈ page → queue_after after x.1) → lst ∈ page →
  page_owner page lst.1 i k → drain_keys after k.
Proof.
  intros Hall Hl. unfold page_owner. destruct (page !! i) as [x|] eqn:Ei.
  - intros Hk. exists x.1. split; [|done]. apply Hall. by eapply list_elem_of_lookup_2.
  - intros (_ & h & Ha & Hk). exists h. split; [|done]. eapply queue_after_trans; [by apply Hall|done].
Qed.

Lemma page_owner_disjoint (page : list (Hash * Hash)) (lst : Hash * Hash) i j k :
  StronglySorted hash_lt page → last page = Some lst → i ≠ j →
  page_owner page lst.1 i k → page_owner page lst.1 j k → False.
Proof.
  intros Hs Hl Hij.
  assert (∀ i' x h, page !! i' = Some x → queue_after (Some lst.1) h → x.1 ≠ h) as Hlast.
  { intros i' x h Hx Ha <-. cbn in Ha. rewrite last_lookup in Hl.
    destruct (decide (i' = Nat.pred (length page))) as [->|]; [simplify_eq; by apply bytes_lt_irrefl in Ha|].
    pose proof (lookup_lt_Some _ _ _ Hx).
    assert (hash_lt x lst) as Hlt by (eapply (StronglySorted_lookup _ _ i'); [done..|lia]).
    by apply (bytes_lt_irrefl (abytes lst.1)), (bytes_lt_trans _ (abytes x.1)). }
  unfold page_owner. destruct (page !! i) as [x|] eqn:Ei, (page !! j) as [y|] eqn:Ej.
  - intros H1 H2. pose proof (task_keys_inj _ _ _ H1 H2) as Heq.
    destruct (Nat.lt_trichotomy i j) as [Hlt|[?|Hlt]]; [|done|].
    + assert (hash_lt x y) as Hc by (by eapply (StronglySorted_lookup _ _ i j)).
      unfold hash_lt in Hc. rewrite Heq in Hc. by apply bytes_lt_irrefl in Hc.
    + assert (hash_lt y x) as Hc by (by eapply (StronglySorted_lookup _ _ j i)).
      unfold hash_lt in Hc. rewrite Heq in Hc. by apply bytes_lt_irrefl in Hc.
  - intros H1 (_ & h & Ha & H2). apply (Hlast i x h Ei Ha). by eapply task_keys_inj.
  - intros (_ & h & Ha & H1) H2. apply (Hlast j y h Ej Ha). by eapply task_keys_inj.
  - intros [-> _] [-> _]. done.
Qed.

Definition drained (after : option Hash) (L : lst) : Prop :=
  ∀ h, queue_after after h → l_rows L !! key_bytes (KStorageQueue h) = None.

Lemma page_shrinks after (h : Hash) :
  queue_after after h → leaf_key Root h → length (leaves_after (Some h)) < length (leaves_after after).
Proof.
  intros Ha Hl. destruct (leaf_key_leaf Trie Root h Hl) as [v Hv].
  eapply (length_filter_lt _ _ _ (abytes h, v)); [|done|by destruct after|cbn; apply bytes_lt_irrefl].
  intros [k x]. cbn. destruct after as [a|]; [|done]. cbn in *. by apply bytes_lt_trans.
Qed.

Lemma drain_loop_safe fuel wfuel after K Q L :
  (∀ h acc, is_account h acc → length (Trie (la_Root acc)) < wfuel) →
  length (leaves_after after) < fuel →
  (∀ k, drain_keys after k → K k) → (∀ k, drain_keys after k → ¬ l_sent L k) →
  resume_mode (l_rows L) after →
  (∀ L', drained after L' → (∀ k, ¬ drain_keys after k → K k → ¬ free_key k → same_at L L' k) → Q L') →
  safe K (drain_loop rlp_content vars fuel wfuel after) Q L.
Proof.
  intros Hwf. revert after K Q L. induction fuel as [|fuel IH]; intros after K Q L Hfuel HK Huns Hmode HQ; [lia|].
  cbn [drain_loop]. constructor. intros m page (_ & (bm & Hi) & Hag) Hp.
  assert (∀ k, drain_keys after k → m !! k = l_rows L !! k) as Hm.
  { intros k Hk. apply Hag; [by apply HK| |by apply Huns]. destruct Hk as (h & _ & Hk).
    by eapply task_not_free. }
  assert (∀ h, queue_after after h → queued m h ↔ is_Some (l_rows L !! key_bytes (KStorageQueue h))) as Hq.
  { intros h Ha. unfold queued. rewrite Hm; [done|]. exists h. split; [done|by left]. }
  destruct (last page) as [lst|] eqn:Elast; cycle 1.
  { apply last_None in Elast. subst page. constructor. apply HQ; [|done].
    intros h Ha. destruct (l_rows L !! key_bytes (KStorageQueue h)) as [x|] eqn:Ex; [|done]. exfalso.
    destruct (page_complete _ _ _ _ Hp h) as [(r & Hr)|[Hmax _]]; [apply Hq; [done|by exists x]|done| |].
    - by apply elem_of_nil in Hr.
    - unfold scanBatch in Hmax. cbn in Hmax. lia. }
  pose proof (last_Some_elem_of _ _ Elast) as Hlin.
  assert (∀ x, x ∈ page → queue_after after x.1) as Hafter.
  { intros [h r] Hx. by eapply page_accounts. }
  apply (safe_fork _ _ _ _ K _ _ _ L (page_owner page lst.1)
    (λ i L1, match page !! i with
             | Some x => l_rows L1 !! key_bytes (KStorageQueue x.1) = None
             | None => drained (Some lst.1) L1 end)).
  - intros i k Hk. by eapply HK, page_owner_sub.
  - intros i j k. by eapply page_owner_disjoint; [apply Hp|].
  - intros i p Hpi. unfold page_owner. destruct (page !! i) as [[h r]|] eqn:Ei.
    + rewrite lookup_app_l in Hpi by (rewrite length_fmap; by eapply lookup_lt_Some).
      rewrite list_lookup_fmap, Ei in Hpi. injection Hpi as <-. cbn [fst snd].
      pose proof (list_elem_of_lookup_2 _ _ _ Ei) as Hin.
      destruct (page_accounts m bm after page h r Hi Hp Hin) as (Ha & acc & Hacc & Hst & ->).
      assert (∀ s : Hash, drain_keys after (key_bytes (KBaseSlot h s))) as Hsl.
      { intros s. exists h. split; [done|]. right. by exists s. }
      apply storage_task_safe; [done|done|by eapply Hwf|intros s; by apply Huns|].
      eapply (page_resume m bm L after); try done. intros s. unfold has_base_slot. by rewrite Hm.
    + assert (i = length page) as ->.
      { apply lookup_ge_None in Ei. apply lookup_lt_Some in Hpi. rewrite length_app, length_fmap in Hpi.
        cbn in Hpi. lia. }
      rewrite lookup_app_r, length_fmap, Nat.sub_diag in Hpi by (by rewrite length_fmap).
      injection Hpi as <-.
      assert (∀ k, drain_keys (Some lst.1) k → drain_keys after k) as Hsub.
      { intros k (h & Ha & Hk). exists h. split; [|done]. eapply queue_after_trans; [by apply Hafter|done]. }
      apply IH; [| |intros; by apply Huns, Hsub| |by intros L' ?].
      * destruct lst as [h r]. destruct (page_accounts m bm after page h r Hi Hp Hlin) as (Ha & acc & (v & Hv & _) & _).
        eapply Nat.lt_le_trans; [apply (page_shrinks after h Ha)|lia].
        by apply (list_elem_of_fmap_2 fst) in Hv.
      * by intros k Hk; split.
      * destruct Hmode as [?|[?|Hno]]; [by left|right; by left|right; right].
        intros h s Ha. apply Hno. eapply queue_after_trans; [by apply Hafter|done].
  - intros L' Hposts Hsame. rewrite length_app, length_fmap in Hposts, Hsame. cbn [length] in *.
    constructor. apply HQ.
    + intros h Ha. assert (task_keys h (key_bytes (KStorageQueue h))) as Htk by (by left).
      destruct (decide (h ∈ page.*1)) as [([? r] & -> & (i & Hx)%list_elem_of_lookup)%list_elem_of_fmap|Hnp].
      { destruct (Hposts i) as (Li & HQi & Hagi); [apply lookup_lt_Some in Hx; lia|].
        unfold page_owner in Hagi. rewrite Hx in HQi, Hagi.
        by destruct (Hagi _ Htk (task_not_free _ _ Htk)) as [<- _]. }
      destruct (decide (abytes lst.1 < abytes h)%bytes) as [Hgt|Hle].
      { destruct (Hposts (length page)) as (Li & HQi & Hagi); [lia|].
        unfold page_owner in Hagi. rewrite lookup_ge_None_2 in HQi, Hagi by done.
        destruct (Hagi (key_bytes (KStorageQueue h))) as [<- _]; [|by apply (task_not_free h)|by apply HQi].
        split; [done|]. by exists h. }
      destruct (Hsame (key_bytes (KStorageQueue h))) as [<- _]; [|apply HK; by exists h|by apply (task_not_free h)|].
      * intros i _. unfold page_owner. destruct (page !! i) as [x|] eqn:Ei.
        -- intros Hk. apply Hnp. rewrite (task_keys_inj _ _ _ Htk Hk).
           by eapply list_elem_of_fmap_2, list_elem_of_lookup_2.
        -- intros (_ & h' & Ha' & Hk). apply Hle. by rewrite (task_keys_inj _ _ _ Htk Hk).
      * destruct (l_rows L !! key_bytes (KStorageQueue h)) as [x|] eqn:Ex; [|done]. exfalso.
        destruct (page_complete _ _ _ _ Hp h) as [(r & Hr)|[_ Hmax]]; [apply Hq; [done|by exists x]|done| |].
        -- apply Hnp. by apply (list_elem_of_fmap_2 fst) in Hr.
        -- by apply Hle, Hmax.
    + intros k Hk. apply Hsame. intros i _ Ho. apply Hk. by eapply page_owner_sub.
Qed.
End drain.
