(* ===== verification/SyncRun.v ===== *)
(** * SyncRun: the state sync as a whole

    [Run] from its start (bitmap, resume keys), through the phases under any
    schedule, to its end (last flush, code sweep, completion mark).  The rows are
    resumable at every moment, and a run that returns without error leaves exactly
    the rows of the trie. *)

From Stdlib Require Import Sorted.
From S2P Require Import Prelude Schema Lmdb Capture World Store StoreRead StoreSpec StoreProof.
From S2P Require Import StoreReads StoreWrites Loader Concurrent StoreInv Scans ScanCode SyncKeys Sync.
From S2P Require Import SyncTrie SyncLogic SyncSound SyncInv SyncProof SyncWalk SyncDrain.

Section run.
Context {env : Type} `{LmdbLaws env}.
Context (keccak : bytes → Hash).
Context (rlp_account : bytes → option LeafAccount) (rlp_content : bytes → option bytes).
Context (Height : u64) (Root : Hash) (vars : Vars) (cl : Client).
Context (maxCodeHashes : nat) (fuel : nat) (scan_fuel : env → nat).
Context (Trie : Hash → list leaf) (full : Prop).

(** The tries are tries, and the bounds on the loops suffice. *)
Record bounds_ok : Prop := {
  bo_tries root : trie_ok (Trie root);
  bo_split : (0 < splitAfter vars)%Z;
  bo_accounts : length (Trie Root) < fuel;
  bo_slots h acc : is_account rlp_account Root Trie h acc → length (Trie (la_Root acc)) < fuel;
  bo_scan e : size (contents e) < scan_fuel e;
  bo_codes : 0 < maxCodeHashes
}.

(** The promises of the client. *)
Record client_ok : Prop := {
  co_leafs n req resp : cl_GetLeafs cl n req = Ok resp → leafs_ok Trie full req resp;
  co_code n hashes blobs : cl_GetCode cl n hashes = Ok blobs → code_ok keccak hashes blobs
}.

Context (Hbo : bounds_ok) (Hco : client_ok).

Abbreviation Inv := (Inv keccak rlp_account rlp_content Root vars Trie full).
Abbreviation safe := (safe Height Inv (leafs_ok Trie full) (code_ok keccak)).
Abbreviation is_account := (is_account rlp_account Root Trie).
Abbreviation leaf_key := (leaf_key Trie).
Implicit Types (d : DB env) (L : lst) (m : gmap bytes bytes).

Definition accounts_done (m : gmap bytes bytes) : Prop := ∀ h, leaf_key Root h → has_base_account m h.

(** Storage rows may be resumed from: resumption is off, responses are full, or
    there are none yet. *)
Definition may_resume (m : gmap bytes bytes) : Prop :=
  noStorageResume vars = true ∨ full ∨ ∀ h s, ¬ has_base_slot m h s.

(** The rows a load has no business with. *)
Definition other_rows (base m : gmap bytes bytes) : Prop :=
  ∀ dk, ¬ inv_key dk → m !! key_bytes dk = base !! key_bytes dk.

(** What phase 1 and phase 2 reach; [base] are the rows of the start. *)
Definition Q1 (base : gmap bytes bytes) (L : lst) : Prop :=
  accounts_done (l_rows L) ∧ may_resume (l_rows L) ∧ other_rows base (l_rows L).
Definition Q2 (base : gmap bytes bytes) (L : lst) : Prop :=
  accounts_done (l_rows L) ∧ drained None L ∧ other_rows base (l_rows L).

Lemma other_not_free dk : ¬ inv_key dk → ¬ free_key (key_bytes dk).
Proof. intros Hk [->|[? ->]]%free_key_kind; by apply Hk. Qed.

Lemma may_resume_same m m' :
  (∀ h s, has_base_slot m' h s ↔ has_base_slot m h s) → may_resume m → may_resume m'.
Proof.
  intros Hs [?|[?|Hno]]; [by left|right; by left|right; right]. intros h s. rewrite Hs. apply Hno.
Qed.

Lemma drain_phase_safe base L L' :
  Q1 base L → (∀ k, ¬ free_key k → l_rows L' !! k = l_rows L !! k) → (∀ k, ¬ l_sent L' k) →
  safe (λ _, True) (drain_prog rlp_content vars fuel) (Q2 base) L'.
Proof.
  intros (Ha & Hm & Hoth) Hrows Huns. destruct Hbo. unfold drain_prog.
  assert (∀ h s, has_base_slot (l_rows L') h s ↔ has_base_slot (l_rows L) h s) as Hs.
  { intros h s. unfold has_base_slot. rewrite Hrows; [done|apply not_free_slot]. }
  apply (drain_loop_safe Height keccak rlp_account rlp_content Root vars Trie full); try done.
  - eapply Nat.le_lt_trans; [apply length_filter|done].
  - destruct (may_resume_same (l_rows L) (l_rows L') Hs Hm) as [?|[?|Hno]];
      [by left|right; by left|right; right; intros h s _; apply Hno].
  - intros L1 Hd Hsame.
    assert (∀ dk, (∃ h, dk = KBaseAccount h) ∨ ¬ inv_key dk →
      l_rows L1 !! key_bytes dk = l_rows L !! key_bytes dk) as Hkeep.
    { intros dk Hdk. assert (¬ free_key (key_bytes dk)) as Hf.
      { destruct Hdk as [[h ->]|?]; [by intros [?|[? ?]]%free_key_kind|by apply other_not_free]. }
      destruct (Hsame (key_bytes dk)) as [<- _]; [|done|done|by rewrite Hrows].
      intros (h' & _ & [Hk|[s Hk]]); apply key_bytes_inj in Hk as ->;
        by destruct Hdk as [[? ?]|Hn]; [|apply Hn]. }
    split_and!; [|done|intros dk Hdk; rewrite Hkeep by auto; by apply Hoth].
    intros h Hl. unfold has_base_account. rewrite Hkeep by eauto. by apply Ha.
Qed.

(** ** The start *)

Lemma inv_bitmap m bm bm' :
  Inv m bm → length bm' = 32 →
  (∀ seg, (0 ≤ seg < 256)%Z → bit_set bm' seg = true → segment_done Root Trie m (wrap seg)) → Inv m bm'.
Proof. intros Hi Hl Hb. destruct Hi. by split. Qed.

Lemma bit_set_zero seg : (0 ≤ seg < 256)%Z → bit_set (replicate 32 u_zero) seg = false.
Proof.
  intros Hs. unfold bit_set. rewrite lookup_total_replicate_2; [done|].
  apply Nat2Z.inj_lt. rewrite Z2Nat.id by (apply Z.div_pos; lia). apply Z.div_lt_upper_bound; lia.
Qed.

Lemma run_bitmap_ok d bm bm0 :
  Inv (rows d) bm0 → run_bitmap d = Ok bm → Inv (rows d) bm.
Proof.
  intros Hi. unfold run_bitmap, BaselineProgress.
  pose proof (View_upto (db_env d) (λ txn, lres_lookup (mdb_get txn MetaBaselineProgress)) _
    (get_upto (db_env d) MetaBaselineProgress)) as Hv. fold (rows d) in Hv.
  destruct (View _ _) as [o|e]; cbn [rbind]; [|done].
  assert (o = rows d !! MetaBaselineProgress) as -> by (by destruct Hv as [[= ->]|[_ [c ?]]]).
  destruct (rows d !! MetaBaselineProgress) as [p|] eqn:Ep.
  - destruct (Nat.eqb_spec (length p) 32); [|done]. intros [= <-].
    destruct (iv_progress _ _ _ _ _ _ _ _ _ Hi p Ep) as [? Hd]. by eapply inv_bitmap.
  - intros [= <-]. eapply inv_bitmap; [done|done|]. intros seg Hs. by rewrite bit_set_zero.
Qed.

(** The resume key of a segment is behind its committed accounts. *)
Definition task_ok (m : gmap bytes bytes) (t : byte * option bytes) : Prop :=
  ∀ st, t.2 = Some st → below Root Trie t.1 st m ∧ (segment_start t.1 ≤ st)%bytes.

Lemma resume_key m bm seg (h : Hash) st :
  Inv m bm → has_base_account m h → head (abytes h) = Some seg → incKey (abytes h) = Some st →
  below Root Trie seg st m ∧ (segment_start seg ≤ st)%bytes.
Proof.
  intros Hi Hh Hseg Hinc.
  assert (∀ h' : Hash, (abytes h < abytes h')%bytes ↔ (st ≤ abytes h')%bytes) as Hn
    by (intros h'; apply incKey_next; [done|by rewrite !length_abytes]).
  split.
  - intros h' Hl Hs Hlt. eapply (iv_segment _ _ _ _ _ _ _ _ _ Hi h); [done|done|congruence|].
    destruct (bytes_le_total (abytes h') (abytes h)) as [?|Hle]; [done|].
    apply bytes_le_lteq in Hle as [Hc%Hn|<-]; [by apply bytes_lt_not_le in Hlt|apply bytes_le_refl].
  - eapply bytes_le_trans; [by apply (segment_head seg (abytes h)); [apply length_abytes|]|].
    apply bytes_le_lteq. left. apply (incKey_next _ _ st Hinc); [|apply bytes_le_refl].
    by apply incKey_length in Hinc.
Qed.

Lemma segment_tasks_ok d bm bm0 segs tasks :
  wf_db (rows d) → Inv (rows d) bm0 → (∀ seg, seg ∈ segs → seg < 256) → NoDup segs →
  segment_tasks d bm segs = Ok tasks →
  Forall (task_ok (rows d)) tasks ∧ NoDup tasks.*1 ∧
  (∀ b, b ∈ tasks.*1 → ∃ seg, seg ∈ segs ∧ b = wrap (Z.of_nat seg)) ∧
  (∀ seg, seg ∈ segs → bit_set bm (Z.of_nat seg) = true ∨ wrap (Z.of_nat seg) ∈ tasks.*1).
Proof.
  intros Hwf Hi. revert tasks. induction segs as [|seg segs IH]; intros tasks Hr Hnd; cbn [segment_tasks].
  { intros [= <-]. split_and!; [constructor|constructor|by intros b ?%elem_of_nil|by intros seg ?%elem_of_nil]. }
  inversion_clear Hnd as [|? ? Hns Hnd']. pose proof (Hr seg ltac:(left)) as Hs256.
  assert (∀ seg', seg' ∈ segs → seg' < 256) as Hr' by (intros; apply Hr; by right).
  destruct (bit_set bm (Z.of_nat seg)) eqn:Ebit.
  { intros Ht. destruct (IH tasks Hr' Hnd' Ht) as (H1 & H2 & H3 & H4). split_and!; [done|done|..].
    - intros b Hb. destruct (H3 b Hb) as (s & Hs & ->). exists s. split; [by right|done].
    - intros s [->|Hs]%elem_of_cons; [by left|by apply H4]. }
  destruct (MaxBaseAccountWithPrefix_upto d (wrap (Z.of_nat seg)) Hwf) as (o & Hup & Ho).
  destruct (MaxBaseAccountWithPrefix d _) as [o'|e]; cbn [rbind]; [|done].
  assert (o' = o) as -> by (by destruct Hup as [[= ->]|[_ [c ?]]]).
  destruct (segment_tasks d bm segs) as [rest|]; cbn [rbind]; [|done]. intros [= <-].
  destruct (IH rest Hr' Hnd' eq_refl) as (H1 & H2 & H3 & H4). cbn [fmap list_fmap fst].
  split_and!.
  - constructor; [|done]. intros st. cbn [fst snd]. destruct o as [h|]; [|done]. intros Hinc.
    destruct Ho as (Hh & Hhd & _). by eapply resume_key.
  - constructor; [|done]. intros Hin. destruct (H3 _ Hin) as (s & Hs & Heq).
    apply (f_equal uval) in Heq. pose proof (Hr' s Hs).
    rewrite !wrap_small in Heq by (change (2 ^ 8)%Z with 256%Z; lia). by replace s with seg in Hs by lia.
  - intros b [->|Hb]%elem_of_cons; [exists seg; split; [left|done]|].
    destruct (H3 b Hb) as (s & Hs & ->). exists s. split; [by right|done].
  - intros s [->|Hs]%elem_of_cons; [right; left|]. destruct (H4 s Hs); [by left|right; by right].
Qed.

Lemma segment_phase_safe d bm tasks :
  Inv (rows d) bm → may_resume (rows d) → Forall (task_ok (rows d)) tasks → NoDup tasks.*1 →
  (∀ seg, seg < 256 → bit_set bm (Z.of_nat seg) = true ∨ wrap (Z.of_nat seg) ∈ tasks.*1) →
  safe (λ _, True)
    (PPar ((λ t, runSegment keccak rlp_account Root fuel t.1 t.2) <$> tasks) PDone) (Q1 (rows d))
    (MkLst (rows d) (λ _, False)).
Proof.
  intros Hi Hm Ht Hnd Hcov. destruct Hbo.
  apply (safe_fork _ _ _ _ _ _ _ _ _
    (λ i, match tasks !! i with Some t => segment_keys t.1 | None => λ _, False end)
    (λ i L1, match tasks !! i with Some t => segment_done Root Trie (l_rows L1) t.1 | None => True end)).
  - done.
  - intros i j x Hij. destruct (tasks !! i) as [t|] eqn:Ei, (tasks !! j) as [t'|] eqn:Ej; [|done..].
    intros (h & Hh & Hx) (h' & Hh' & Hx'). apply Hij.
    assert (h = h') as <- by (destruct Hx as [->| ->], Hx' as [Hk|Hk]; apply key_bytes_inj in Hk; congruence).
    eapply (NoDup_lookup tasks.*1 i j t.1); [done|by rewrite list_lookup_fmap, Ei|].
    rewrite list_lookup_fmap, Ej. cbn. congruence.
  - intros i p Hp. rewrite list_lookup_fmap in Hp. destruct (tasks !! i) as [t|] eqn:Ei; [|done].
    injection Hp as <-. rewrite Forall_lookup in Ht. apply runSegment_safe; [done|done|]. by apply (Ht i t).
  - intros L' Hposts Hsame. rewrite length_fmap in Hposts, Hsame. constructor. split_and!.
    + intros h Hl. pose proof (length_abytes h) as Hlen. destruct (abytes h) as [|b bs] eqn:Eb; [done|].
      assert (head (abytes h) = Some b) as Hhd by (by rewrite Eb).
      assert (¬ free_key (key_bytes (KBaseAccount h))) as Hnf by (by intros [?|[? ?]]%free_key_kind).
      pose proof (uint_range b) as Hr. change (2 ^ 8)%Z with 256%Z in Hr. unfold has_base_account.
      destruct (decide (b ∈ tasks.*1)) as [(t & -> & (i & Ei)%list_elem_of_lookup)%list_elem_of_fmap|Hnin].
      * destruct (Hposts i) as (Li & HQ & Hag); [by eapply lookup_lt_Some|]. rewrite Ei in HQ, Hag.
        destruct (Hag (key_bytes (KBaseAccount h))) as [<- _]; [exists h; split; [done|by left]|done|].
        by apply HQ.
      * destruct (Hcov (Z.to_nat b)) as [Hb|Hb]; [lia| |rewrite Z2Nat.id, wrap_uval in Hb by lia; done].
        rewrite Z2Nat.id in Hb by lia.
        destruct (Hsame (key_bytes (KBaseAccount h))) as [<- _]; [|done|done|].
        -- intros i _. destruct (tasks !! i) as [t|] eqn:Ei; [|by intros []].
           intros (h' & Hh' & [Hk|Hk]); apply key_bytes_inj in Hk; [|done]. injection Hk as <-.
           apply Hnin. rewrite Hhd in Hh'. injection Hh' as ->.
           by eapply list_elem_of_fmap_2, list_elem_of_lookup_2.
        -- pose proof (iv_bits _ _ _ _ _ _ _ _ _ Hi b Hr Hb) as Hd. rewrite wrap_uval in Hd.
           by apply Hd.
    + apply (may_resume_same (rows d)); [|done]. intros h s. unfold has_base_slot.
      destruct (Hsame (key_bytes (KBaseSlot h s))) as [<- _]; [|done|apply not_free_slot|done].
      intros i _. destruct (tasks !! i); [|by intros []].
      intros (h' & _ & [Hk|Hk]); by apply key_bytes_inj in Hk.
    + intros dk Hdk. destruct (Hsame (key_bytes dk)) as [<- _]; [|done|by apply other_not_free|done].
      intros i _. destruct (tasks !! i); [|by intros []].
      intros (h' & _ & [Hk|Hk]); apply key_bytes_inj in Hk as ->; by apply Hdk.
Qed.

Abbreviation sys_inv base := (sys_inv Height Inv (leafs_ok Trie full) (code_ok keccak) (Q1 base) (Q2 base)).
Abbreviation loader_ok := (loader_ok Height Inv).
Abbreviation Run_start := (Run_start keccak rlp_account Height Root fuel).
Abbreviation sys_run := (sys_run rlp_content vars cl fuel scan_fuel).

(** Rows a later run can go on from. *)
Definition resumable (m : gmap bytes bytes) : Prop := ∃ bm, Inv m bm.

Lemma resumable_genesis m v : resumable m → resumable (<[key_bytes KMetaGenesis:=v]> m).
Proof.
  intros [bm Hi]. exists bm. eapply inv_congr; [|exact Hi]. intros dk Hdk.
  rewrite lookup_insert_ne; [done|]. by intros <-%key_bytes_inj.
Qed.

Lemma NewBaseline_ok d r d1 :
  wf_db (rows d) → cache_ok d → resumable (rows d) → may_resume (rows d) →
  NewBaseline d Height = (r, d1) →
  wf_db (rows d1) ∧ cache_ok d1 ∧ resumable (rows d1) ∧ may_resume (rows d1) ∧
  match r with
  | Ok bl => bl = MkBaseline Height [] None ∧ rows d1 = <[key_bytes KMetaGenesis:=beBytes Height]> (rows d)
  | Err e => e ≠ ErrMsg "fuel"
  end.
Proof.
  intros Hwf Hc Hres Hm Hn. pose proof (NewBaseline_cases d Height Hwf Hc) as Hcase. rewrite Hn in Hcase.
  assert (rows d1 = rows d ∨ rows d1 = <[key_bytes KMetaGenesis:=beBytes Height]> (rows d)) as Hrows
    by (destruct r; naive_solver).
  assert (cache_ok d1) as Hc1 by (destruct r; naive_solver).
  split_and!; [|done|..].
  - destruct Hrows as [->| ->]; [done|]. apply wf_db_insert; [done|apply length_be_bytes].
  - destruct Hrows as [->| ->]; [done|by apply resumable_genesis].
  - destruct Hrows as [->| ->]; [done|]. apply (may_resume_same (rows d)); [|done].
    intros h s. unfold has_base_slot. by rk.
  - destruct r as [bl|e]; [|by destruct Hcase as (_ & _ & [(g & _ & _ & ->)|(_ & c & ->)])].
    destruct Hcase as (-> & _ & [[Hgen ->]|[_ ->]]); [|done]. split; [done|].
    symmetry. apply insert_id. unfold genesis_row in Hgen. change MetaGenesis with (key_bytes KMetaGenesis) in Hgen.
    destruct (rows d !! key_bytes KMetaGenesis) as [x|] eqn:Ex; [|done]. injection Hgen as <-.
    rewrite beBytes_beU64; [done|]. exact (wf_db_row (rows d) KMetaGenesis x Hwf Ex).
Qed.

Lemma initial_ghost d bm tasks :
  wf_db (rows d) → cache_ok d → Inv (rows d) bm →
  let s := MkSys d (MkBaseline Height [] None) bm None [] ∅ 0 None (PhSegments tasks) in
  ghost Height Inv s (MkLst (rows d) (λ _, False)).
Proof.
  intros Hwf Hc Hi s. split.
  - split; [done|done|by constructor|done|by exists bm|done].
  - by intros k _ _.
  - intros _ _. split_and!; [constructor|done|done|]. intros op Hop. by apply elem_of_nil in Hop.
  - done.
Qed.

Lemma run_bitmap_err d e : run_bitmap d = Err e → e ≠ ErrMsg "fuel".
Proof.
  unfold run_bitmap, BaselineProgress.
  pose proof (View_upto (db_env d) (λ txn, lres_lookup (mdb_get txn MetaBaselineProgress)) _
    (get_upto (db_env d) MetaBaselineProgress)) as Hv.
  destruct (View _ _) as [[p|]|e']; cbn [rbind]; [|done|].
  - destruct (Nat.eqb _ _); intros; by simplify_eq.
  - intros [= <-]. destruct Hv as [?|[_ [c [= ->]]]]; done.
Qed.

Lemma segment_tasks_err d bm segs e :
  wf_db (rows d) → segment_tasks d bm segs = Err e → e ≠ ErrMsg "fuel".
Proof.
  intros Hwf. revert e. induction segs as [|seg segs IH]; intros e Et; cbn [segment_tasks] in Et; [done|].
  destruct (bit_set bm _); [by apply IH|].
  destruct (MaxBaseAccountWithPrefix_upto d (wrap (Z.of_nat seg)) Hwf) as (o & Hup & _).
  destruct (MaxBaseAccountWithPrefix d _) as [o'|e']; cbn [rbind] in Et.
  - destruct (segment_tasks d bm segs); cbn [rbind] in Et; [done|]. injection Et as <-. by apply IH.
  - injection Et as <-. by destruct Hup as [?|[_ [c [= ->]]]].
Qed.

(** The rows of the start: the height is recorded. *)
Definition start_rows d : gmap bytes bytes := <[key_bytes KMetaGenesis:=beBytes Height]> (rows d).

Lemma Run_start_ok d r d1 :
  wf_db (rows d) → cache_ok d → resumable (rows d) → may_resume (rows d) →
  Run_start d = (r, d1) →
  wf_db (rows d1) ∧ resumable (rows d1) ∧
  match r with Ok s => sys_inv (start_rows d) s | Err e => e ≠ ErrMsg "fuel" end.
Proof.
  intros Hwf Hc Hres Hm. unfold Sync.Run_start. remember (seq 0 256) as segs eqn:Hsegs.
  destruct (NewBaseline d Height) as [r0 d0] eqn:En.
  destruct (NewBaseline_ok d r0 d0 Hwf Hc Hres Hm En) as (Hwf0 & Hc0 & [bm0 Hi0] & Hm0 & Hr0).
  destruct r0 as [bl|e]; [destruct Hr0 as [-> Hb0]|by intros [= <- <-]; split_and!; [|exists bm0|]].
  destruct (run_bitmap d0) as [bm|e] eqn:Eb; cbn [rbind]; intros [= <- <-];
    (split; [done|split; [by exists bm0|]]); [|by eapply run_bitmap_err].
  pose proof (run_bitmap_ok d0 bm bm0 Hi0 Eb) as Hi.
  destruct (segment_tasks d0 bm segs) as [tasks|e] eqn:Et; cbn [rbind]; [|by eapply segment_tasks_err].
  destruct (segment_tasks_ok d0 bm bm0 segs tasks) as (H1 & H2 & _ & H4); try done.
  { intros seg. rewrite Hsegs, elem_of_seq. lia. }
  { rewrite Hsegs. apply NoDup_seq. }
  unfold start_rows. rewrite <-Hb0. exists (MkLst (rows d0) (λ _, False)). split; [|split].
  - by apply initial_ghost.
  - apply no_barrier_fence; [constructor|]. by intros e.
  - split_and!; [done|constructor|]. eexists. split; [|apply agree_refl].
    eapply segment_phase_safe; try done. intros seg Hs. apply H4. rewrite Hsegs. apply elem_of_seq. lia.
Qed.

(** Along every schedule. *)
Lemma sync_next_inv base c s s' :
  sys_inv base s → sys_next rlp_content vars cl fuel scan_fuel c s = Some s' → sys_inv base s'.
Proof.
  destruct Hco. apply (sys_next_inv Height Inv (leafs_ok Trie full) (code_ok keccak) cl scan_fuel
    co_leafs0 co_code0 (bo_scan Hbo) (Q1 base) (Q2 base) rlp_content vars fuel (drain_phase_safe base)).
Qed.

Lemma sync_run_inv base sched s s' : sys_inv base s → sys_run sched s = Some s' → sys_inv base s'.
Proof.
  revert s. induction sched as [|c sched IH]; intros s Hs Hr; cbn [Sync.sys_run] in Hr; [by simplify_eq|].
  destruct (sys_next _ _ _ _ _ c s) as [s1|] eqn:E; [|done]. eapply IH; [|done]. by eapply sync_next_inv.
Qed.

(** ** The end *)

(** What the code sweep does to the rows. *)
Record swept (m m' : gmap bytes bytes) (l : list Hash) : Prop := {
  sw_other dk : (∀ ch, dk ≠ KCode ch) → m' !! key_bytes dk = m !! key_bytes dk;
  sw_code ch : is_Some (m !! key_bytes (KCode ch)) ∨ ch ∈ l → is_Some (m' !! key_bytes (KCode ch))
}.

Lemma swept_refl m : swept m m [].
Proof. split; [done|]. intros ch [?|?%elem_of_nil]; done. Qed.

Lemma swept_app m m1 m2 l1 l2 : swept m m1 l1 → swept m1 m2 l2 → swept m m2 (l1 ++ l2).
Proof.
  intros [H1 H2] [H3 H4]. split.
  - intros dk Hd. by rewrite H3, H1.
  - intros ch [?|[?|?]%elem_of_app]; apply H4; [left; apply H2; by left|left; apply H2; by right|by right].
Qed.

Lemma swept_put m ch c : swept m (<[key_bytes (KCode ch):=c]> m) [ch].
Proof.
  split.
  - intros dk Hd. rewrite lookup_insert_ne; [done|]. intros <-%key_bytes_inj. by destruct (Hd ch).
  - intros ch' [Hs| ->%list_elem_of_singleton]; [|by rewrite lookup_insert_eq].
    destruct (decide (ch' = ch)) as [->|]; [by rewrite lookup_insert_eq|]. by rk.
Qed.

Definition all_keys : keyset := λ _, True.

Lemma bl_Code_ok d bl bm ch c r d' bl' :
  loader_ok d bl all_keys → Inv (view d bl) bm → keccak c = ch → bl_Code d bl ch c = (r, d', bl') →
  loader_ok d' bl' all_keys ∧
  match r with
  | Ok _ => Inv (view d' bl') bm ∧ swept (view d bl) (view d' bl') [ch]
  | Err e => e ≠ ErrMsg "fuel"
  end.
Proof.
  intros Hlo Hi Hch Hb.
  assert (call_effect Height (view d bl) (CCode ch c) = <[key_bytes (KCode ch):=c]> (view d bl)) as He by done.
  assert (Inv (<[key_bytes (KCode ch):=c]> (view d bl)) bm) as Hi' by (by apply inv_put_code).
  destruct (loader_step_keys Height Inv d bl all_keys bm (CCode ch c) r d' bl') as (Hlo' & _ & Hv);
    [done|by eexists|by rewrite He|done|done|]. split; [done|].
  destruct r as [[]|e].
  - rewrite Hv, He by done. split; [done|apply swept_put].
  - unfold bl_Code, bl_add in Hb. destruct (_ <=? _)%Z; [|done].
    pose proof (Flush_cases d (bl_append bl (MkBlOp (AppendCodeKey [] ch) c false))) as Hf.
    rewrite Hb in Hf. destruct Hf as (_ & _ & _ & c' & ->); [|done].
    apply Forall_app. split; [apply Hlo|]. constructor; [|done]. by exists (KCode ch).
Qed.

Lemma sweep_store_ok d bl bm batch blobs r d' bl' :
  loader_ok d bl all_keys → Inv (view d bl) bm → code_ok keccak batch blobs →
  sweep_store d bl batch blobs = (r, d', bl') →
  loader_ok d' bl' all_keys ∧
  match r with
  | Ok _ => Inv (view d' bl') bm ∧ swept (view d bl) (view d' bl') batch
  | Err e => e ≠ ErrMsg "fuel"
  end.
Proof.
  intros Hlo Hi Hok. revert d bl Hlo Hi. induction Hok as [|ch c batch blobs Hch _ IH]; intros d bl Hlo Hi Hs;
    cbn [sweep_store] in Hs.
  { injection Hs as <- <- <-. split; [done|]. split; [done|apply swept_refl]. }
  destruct (bl_Code d bl ch c) as [[r1 d1] bl1] eqn:Eb.
  destruct (bl_Code_ok d bl bm ch c r1 d1 bl1 Hlo Hi Hch Eb) as [Hlo1 Hr1].
  destruct r1 as [[]|e]; [|by injection Hs as <- <- <-]. destruct Hr1 as [Hi1 Hsw1].
  destruct (IH d1 bl1 Hlo1 Hi1 Hs) as [Hlo' Hr']. split; [done|]. destruct r as [[]|e]; [|done].
  destruct Hr' as [? Hsw']. split; [done|]. exact (swept_app _ _ _ [ch] batch Hsw1 Hsw').
Qed.

Lemma sweep_loop_ok n calls d bl bm missing r d' bl' :
  loader_ok d bl all_keys → Inv (view d bl) bm → length missing ≤ n →
  sweep_loop cl maxCodeHashes n calls d bl missing = (r, d', bl') →
  loader_ok d' bl' all_keys ∧
  match r with
  | Ok _ => Inv (view d' bl') bm ∧ swept (view d bl) (view d' bl') missing
  | Err e => e ≠ ErrMsg "fuel"
  end.
Proof.
  revert calls d bl missing. induction n as [|n IH]; intros calls d bl [|ch missing] Hlo Hi Hn Hs;
    cbn [sweep_loop] in Hs; cbn [length] in Hn; [|lia|..].
  1, 2: injection Hs as <- <- <-; split; [done|]; split; [done|apply swept_refl].
  destruct (cl_GetCode cl calls _) as [blobs|e] eqn:Eg; [|by injection Hs as <- <- <-].
  apply (co_code Hco) in Eg.
  destruct (sweep_store d bl (take maxCodeHashes (ch :: missing)) blobs) as [[r1 d1] bl1] eqn:Est.
  destruct (sweep_store_ok d bl bm _ blobs r1 d1 bl1 Hlo Hi Eg Est) as [Hlo1 Hr1].
  destruct r1 as [[]|e]; [|by injection Hs as <- <- <-]. destruct Hr1 as [Hi1 Hsw1].
  destruct (IH (S calls) d1 bl1 (drop maxCodeHashes (ch :: missing)) Hlo1 Hi1) as [Hlo' Hr']; [|exact Hs|].
  { pose proof (bo_codes Hbo). rewrite length_drop. cbn [length]. lia. }
  split; [done|]. destruct r as [[]|e]; [|done]. destruct Hr' as [? Hsw']. split; [done|].
  rewrite <-(take_drop maxCodeHashes (ch :: missing)). by eapply swept_app.
Qed.

(** [codeSweep] over flushed rows: every code hash an account refers to ends
    with its row. *)
Lemma codeSweep_ok calls d bl bm r d' bl' :
  loader_ok d bl all_keys → Inv (view d bl) bm → view d bl = rows d →
  codeSweep keccak cl maxCodeHashes scan_fuel calls d bl = (r, d', bl') →
  loader_ok d' bl' all_keys ∧
  match r with
  | Ok _ => Inv (view d' bl') bm ∧ (∃ l, swept (rows d) (view d' bl') l) ∧
      ∀ ch, code_wanted keccak (rows d) ch → is_Some (view d' bl' !! key_bytes (KCode ch))
  | Err e => e ≠ ErrMsg "fuel"
  end.
Proof.
  intros Hlo Hi Hv. unfold codeSweep.
  destruct (MissingCodeHashes_upto keccak (scan_fuel (db_env d)) d) as (l & Hup & _ & Hl);
    [apply Hlo|apply (bo_scan Hbo)|].
  destruct (MissingCodeHashes _ _ _) as [missing|e]; cycle 1.
  { intros [= <- <- <-]. split; [done|]. by destruct Hup as [?|[_ [c [= ->]]]]. }
  assert (missing = l) as -> by (by destruct Hup as [[= ->]|[_ [c ?]]]).
  intros Hs. destruct (sweep_loop_ok _ _ _ _ _ _ _ _ _ Hlo Hi (le_n _) Hs) as [Hlo' Hr']. split; [done|].
  destruct r as [[]|e]; [|done]. destruct Hr' as [Hi' Hsw]. rewrite Hv in Hsw.
  split_and!; [done|by exists l|]. intros ch Hw. apply (sw_code _ _ _ Hsw).
  destruct (rows d !! key_bytes (KCode ch)) eqn:Ec; [by left|right]. apply Hl. by split.
Qed.

(** The rows a complete load leaves: those of the trie, and nothing more. *)
Record synced (base m : gmap bytes bytes) : Prop := {
  sy_account h acc : is_account h acc →
    m !! key_bytes (KBaseAccount h) = Some (EncodeAccount [] (account_row acc));
  sy_no_account h x : m !! key_bytes (KBaseAccount h) = Some x → ∃ acc, is_account h acc;
  sy_slot h acc s v : is_account h acc → has_storage keccak acc →
    is_slot rlp_content Trie (la_Root acc) s v → m !! key_bytes (KBaseSlot h s) = Some (abytes v);
  sy_no_slot h s x : m !! key_bytes (KBaseSlot h s) = Some x →
    ∃ acc v, is_account h acc ∧ has_storage keccak acc ∧
      is_slot rlp_content Trie (la_Root acc) s v ∧ x = abytes v;
  sy_code h acc : is_account h acc →
    BytesToHash (la_CodeHash acc) ≠ arr_zero → BytesToHash (la_CodeHash acc) ≠ keccak [] →
    ∃ c, m !! key_bytes (KCode (BytesToHash (la_CodeHash acc))) = Some c ∧
      keccak c = BytesToHash (la_CodeHash acc);
  sy_queue : queue_empty m;
  sy_complete : m !! key_bytes KMetaBaselineComplete = Some [byte_lit 1];
  sy_other dk : ¬ inv_key dk → dk ≠ KMetaBaselineComplete → m !! key_bytes dk = base !! key_bytes dk
}.

Lemma is_slot_fun root s v v' : is_slot rlp_content Trie root s v → is_slot rlp_content Trie root s v' → v = v'.
Proof.
  intros (x & c & Hx & Hc & ->) (x' & c' & Hx' & Hc' & ->).
  rewrite (trie_lookup_fun _ _ _ _ (bo_tries Hbo root) Hx Hx') in Hc. congruence.
Qed.

Lemma synced_rows base m bm :
  Inv m bm → accounts_done m → other_rows base m → queue_empty m →
  (∀ ch, code_wanted keccak m ch → is_Some (m !! key_bytes (KCode ch))) →
  synced base (<[MetaBaselineComplete:=[byte_lit 1]]> (delete MetaBaselineProgress m)).
Proof.
  intros Hi Hacc Hoth Hq Hcode. set (m' := <[_:=_]> _).
  assert (∀ dk, key_tag dk ≠ PrefMeta → m' !! key_bytes dk = m !! key_bytes dk) as Hm'.
  { intros dk Hd. unfold m'.
    change MetaBaselineComplete with (key_bytes KMetaBaselineComplete).
    change MetaBaselineProgress with (key_bytes KMetaBaselineProgress).
    rewrite lookup_insert_ne, lookup_delete_ne; [done|..]; intros <-%key_bytes_inj; by apply Hd. }
  assert (∀ h acc, is_account h acc → m !! key_bytes (KBaseAccount h) = Some (EncodeAccount [] (account_row acc)))
    as Hrow.
  { intros h acc Ha. destruct (Hacc h) as [x Hx].
    { destruct Ha as (v & Hv & _). by apply (list_elem_of_fmap_2 fst) in Hv. }
    destruct (iv_account _ _ _ _ _ _ _ _ _ Hi h x Hx) as (acc' & Ha' & ->).
    by rewrite (is_account_fun _ _ _ (bo_tries Hbo) h acc acc' Ha Ha'). }
  split.
  - intros h acc Ha. rewrite Hm' by done. by apply Hrow.
  - intros h x. rewrite Hm' by done. intros Hx.
    destruct (iv_account _ _ _ _ _ _ _ _ _ Hi h x Hx) as (acc & Ha & _). by exists acc.
  - intros h acc s v Ha Hst Hsl. rewrite Hm' by done.
    assert (has_base_slot m h s) as [x Hx].
    { destruct (iv_storage _ _ _ _ _ _ _ _ _ Hi h acc) as [[x Hx]|Hd];
        [|done|done|..].
      - unfold has_base_account. rewrite (Hrow h acc Ha). by eexists.
      - by rewrite Hq in Hx.
      - apply Hd. destruct Hsl as (x & c & Hx & _). by apply (list_elem_of_fmap_2 fst) in Hx. }
    destruct (iv_slot _ _ _ _ _ _ _ _ _ Hi h s x Hx) as (acc' & v' & Ha' & _ & Hsl' & ->).
    rewrite (is_account_fun _ _ _ (bo_tries Hbo) h acc' acc Ha' Ha) in Hsl'.
    by rewrite Hx, (is_slot_fun _ _ _ _ Hsl Hsl').
  - intros h s x. rewrite Hm' by done. apply (iv_slot _ _ _ _ _ _ _ _ _ Hi).
  - intros h acc Ha Hz He. destruct (Hcode (BytesToHash (la_CodeHash acc))) as [c Hc].
    { split_and!; [done|done|]. exists h, (EncodeAccount [] (account_row acc)), (account_row acc).
      split_and!; [by apply Hrow|apply DecodeAccount_Encode|done]. }
    exists c. rewrite Hm' by done. split; [done|]. by eapply (iv_code _ _ _ _ _ _ _ _ _ Hi).
  - intros h. rewrite Hm' by done. apply Hq.
  - unfold m'. change MetaBaselineComplete with (key_bytes KMetaBaselineComplete). apply lookup_insert_eq.
  - intros dk Hdk Hne. unfold m'. change MetaBaselineComplete with (key_bytes KMetaBaselineComplete).
    change MetaBaselineProgress with (key_bytes KMetaBaselineProgress). rk.
    rewrite lookup_delete_ne; [by apply Hoth|]. intros <-%key_bytes_inj. by apply Hdk.
Qed.

Lemma closed_rows base s G :
  ghost Height Inv s G → y_chan s = [] → y_werr s = None → y_reply s = Some (Ok ()) →
  reaches (Q2 base) G →
  Inv (view (y_db s) (y_bl s)) (y_bitmap s) ∧ accounts_done (view (y_db s) (y_bl s)) ∧
  other_rows base (view (y_db s) (y_bl s)) ∧ ∀ h, view (y_db s) (y_bl s) !! key_bytes (KStorageQueue h) = None.
Proof.
  intros Hg Hc Hn Hr (L & (Ha & Hd & Hoth) & Hag). destruct (gh_writer _ _ _ _ Hg Hn) as (_ & Hci & Hend & _); [by rewrite Hr|].
  rewrite Hc in Hci, Hend. cbn [chan_end foldl fst] in Hend.
  assert (∀ dk, (∃ h, dk = KBaseAccount h ∨ dk = KStorageQueue h) ∨ ¬ inv_key dk →
    view (y_db s) (y_bl s) !! key_bytes dk = l_rows L !! key_bytes dk) as Hv.
  { intros dk Hdk. assert (¬ free_key (key_bytes dk)) as Hf.
    { destruct Hdk as [Hdk|?]; [|by apply other_not_free]. intros [?|[? ?]]%free_key_kind; naive_solver. }
    rewrite Hend by done. symmetry. by apply Hag. }
  split_and!; [exact Hci|..].
  - intros h Hl. unfold has_base_account. rewrite Hv by eauto. by apply Ha.
  - intros dk Hdk. rewrite Hv by eauto. by apply Hoth.
  - intros h. rewrite Hv by eauto. by apply Hd.
Qed.

Abbreviation Run_end := (Run_end keccak cl maxCodeHashes scan_fuel).
Abbreviation Run := (Run keccak rlp_account rlp_content Height Root vars cl maxCodeHashes fuel scan_fuel).

(** With all accounts loaded the cursor no longer matters. *)
Lemma inv_finished m m' bm :
  Inv m bm → accounts_done m →
  (∀ dk, inv_key dk → dk ≠ KMetaBaselineProgress → m' !! key_bytes dk = m !! key_bytes dk) →
  (∀ p, m' !! key_bytes KMetaBaselineProgress = Some p → length p = 32) → Inv m' bm.
Proof.
  intros Hi Ha Hm' Hp. apply (inv_cursor _ _ _ _ _ _ _ m m' bm); [done| |done].
  intros p Hpp. split; [destruct Hpp as [?| ->]; [by apply Hp|apply Hi]|].
  intros seg _ _ h Hl _. unfold has_base_account. rewrite Hm' by done. by apply Ha.
Qed.

(** Sweep and finish. *)
Lemma finish_ok base d bl bm calls res d' :
  loader_ok d bl all_keys → Inv (view d bl) bm → view d bl = rows d → bl_ops bl = [] →
  accounts_done (rows d) → other_rows base (rows d) → (∀ h, rows d !! key_bytes (KStorageQueue h) = None) →
  match codeSweep keccak cl maxCodeHashes scan_fuel calls d bl with
  | (Err e, d, _) => (Err e, d)
  | (Ok _, d, bl) => match Finish d bl with (r, d, _) => (r, d) end
  end = (res, d') →
  resumable (rows d') ∧ match res with Ok _ => synced base (rows d') | Err e => e ≠ ErrMsg "fuel" end.
Proof.
  intros Hlo Hi Hv Hops Ha Ho Hq.
  destruct (codeSweep _ _ _ _ calls d bl) as [[r1 d1] bl1] eqn:Es.
  destruct (codeSweep_ok calls d bl bm r1 d1 bl1 Hlo Hi Hv Es) as [Hlo1 Hr1].
  destruct r1 as [[]|e]; [|intros [= <- <-]; split; [apply Hlo1|done]].
  destruct Hr1 as (Hi1 & (l & Hsw) & Hcode).
  pose proof (Finish_cases d1 bl1 (lo_wf _ _ _ _ _ Hlo1) (lo_buf _ _ _ _ _ Hlo1)) as Hf. cbv zeta in Hf.
  set (v := apply_blops (rows d1) (bl_ops bl1)) in *.
  assert (∀ dk, dk ≠ KMetaBaselineProgress → view d1 bl1 !! key_bytes dk = v !! key_bytes dk) as Hvv.
  { intros dk Hne. unfold view. fold v. destruct (bl_progress bl1); [|done]. cbn [put_progress].
    change MetaBaselineProgress with (key_bytes KMetaBaselineProgress). by rk. }
  assert (delete MetaBaselineProgress v = delete MetaBaselineProgress (view d1 bl1)) as Hdel.
  { unfold view. fold v. destruct (bl_progress bl1); [|done]. cbn [put_progress].
    by rewrite delete_insert_eq. }
  assert (accounts_done (view d1 bl1)) as Ha1.
  { intros h Hl. unfold has_base_account. rewrite (sw_other _ _ _ Hsw) by done. by apply Ha. }
  assert (other_rows base (view d1 bl1)) as Ho1.
  { intros dk Hdk. rewrite (sw_other _ _ _ Hsw); [by apply Ho|]. intros ch ->. by apply Hdk. }
  assert (queue_empty (view d1 bl1)) as Hq1.
  { intros h. rewrite (sw_other _ _ _ Hsw) by done. apply Hq. }
  destruct (Finish d1 bl1) as [[r2 d2] bl2]. intros [= <- <-]. destruct r2 as [[]|e].
  - destruct Hf as (_ & _ & Hrows). rewrite Hdel in Hrows.
    assert (synced base (rows d2)) as Hsy.
    { rewrite Hrows. eapply synced_rows; [exact Hi1|done|done|done|]. intros ch (Hz & He & h & x & a & Hx & Hrest).
      apply Hcode. split_and!; [done|done|]. exists h, x, a. rewrite <-(sw_other _ _ _ Hsw) by done. done. }
    split; [|done]. exists bm. rewrite Hrows.
    change MetaBaselineProgress with (key_bytes KMetaBaselineProgress).
    change MetaBaselineComplete with (key_bytes KMetaBaselineComplete).
    apply (inv_finished (view d1 bl1)); [done|done| |].
    + intros dk Hdk Hne. destruct dk; try done; by do 2 rk.
    + intros p. rk. by rewrite lookup_delete_eq.
  - destruct Hf as (Hrows & _ & Herr). split; [|by destruct Herr as [[-> _]|[_ [c ->]]]].
    destruct Hrows as [->| ->]; [apply Hlo1|]. exists bm. apply (inv_finished (view d1 bl1)); [done|done| |].
    + intros. by rewrite Hvv.
    + intros p. unfold v. rewrite apply_blops_other; [|intros op Hop Hk].
      * destruct (lo_inv _ _ _ _ _ Hlo1) as [bm1 Hi1']. intros Hp.
        by apply (iv_progress _ _ _ _ _ _ _ _ _ Hi1' p Hp).
      * pose proof (lo_buf _ _ _ _ _ Hlo1) as Hb. unfold buffer_ok in Hb. rewrite Forall_forall in Hb.
        destruct (Hb op Hop) as (dk & Hdk & Ht & _). rewrite Hdk in Hk. by apply key_bytes_inj in Hk as ->.
Qed.
(** The outcome of a run, whatever it is. *)
Definition outcome_ok (base : gmap bytes bytes) (res : result unit) d : Prop :=
  wf_db (rows d) ∧ resumable (rows d) ∧
  match res with Ok _ => synced base (rows d) | Err e => e ≠ ErrMsg "fuel" end.

Lemma Run_end_ok base s r :
  sys_inv base s → y_phase s = PhClosed r → y_chan s = [] →
  outcome_ok base (Run_end r s).1 (Run_end r s).2.
Proof.
  intros (G & Hg & _ & Hph) Hp Hc. unfold Sync.Run_end, phase_inv in *. rewrite Hp in Hph.
  pose proof (gh_loader _ _ _ _ Hg) as Hlo.
  destruct r as [[]|e]; [|by split_and!; try apply Hlo].
  destruct (y_werr s) as [e|] eqn:Ew.
  { cbn [fst snd]. split_and!; try apply Hlo. by destruct (gh_werr _ _ _ _ Hg e Ew) as (_ & x & ->). }
  destruct Hph as (Hr & _ & Hq2). destruct (closed_rows base s G Hg Hc Ew Hr Hq2) as (Hi & Ha & Ho & Hq).
  destruct (Flush (y_db s) (y_bl s)) as [[r1 d1] bl1] eqn:Ef.
  destruct (Flush_ok _ _ _ _ _ (y_bitmap s) _ _ _ Hlo Hi Ef) as (Hlo1 & _ & Hops1 & Hr1).
  destruct r1 as [[]|e]; cycle 1.
  { cbn [fst snd]. split_and!; try apply Hlo1.
    pose proof (Flush_cases (y_db s) (y_bl s) (lo_buf _ _ _ _ _ Hlo)) as Hf. rewrite Ef in Hf.
    by destruct Hf as (_ & _ & _ & c & ->). }
  destruct Hr1 as [Hrows Hv].
  assert (view d1 bl1 = rows d1) as Hv1 by congruence.
  rewrite <-Hrows in Ha, Ho, Hq. rewrite <-Hv in Hi.
  pose proof (finish_ok base d1 bl1 (y_bitmap s) (y_calls s)) as Hfin.
  destruct (codeSweep _ _ _ _ _ d1 bl1) as [[r2 d2] bl2] eqn:Es.
  destruct (codeSweep_ok _ _ _ _ _ _ _ Hlo1 Hi Hv1 Es) as [Hlo2 _].
  destruct r2 as [[]|e].
  - destruct (Finish d2 bl2) as [[r3 d3] bl3] eqn:Efin. cbn [fst snd].
    split; [by eapply (Finish_inv d2 bl2); try apply Hlo2|by eapply Hfin].
  - cbn [fst snd]. split; [apply Hlo2|]. by apply (Hfin (Err e) d2).
Qed.

(** Whatever the schedule, a run that ends leaves resumable rows; it leaves the
    rows of the trie when it returns without error, and it never ends for lack of
    fuel. *)
Lemma Run_outcome sched d res d' :
  wf_db (rows d) → cache_ok d → resumable (rows d) → may_resume (rows d) →
  Run sched d = Some (res, d') →
  outcome_ok (start_rows d) res d'.
Proof.
  intros Hwf Hc Hres Hm. unfold Sync.Run. pose proof (Run_start_ok d) as Hst.
  destruct (Sync.Run_start _ _ _ _ _ d) as [[s|e] d1]; destruct (Hst _ _ Hwf Hc Hres Hm eq_refl) as (Hwf1 & Hr1 & Hs).
  - destruct (Sync.sys_run _ _ _ _ _ sched s) as [s'|] eqn:Er; [|done].
    pose proof (sync_run_inv _ _ _ _ Hs Er) as Hs'.
    destruct (y_phase s') as [| | |r|] eqn:Ep; [done..| |done]. destruct (y_chan s') eqn:Ec; [|done].
    pose proof (Run_end_ok _ s' r Hs' Ep Ec) as Hout. intros [= He]. rewrite He in Hout. exact Hout.
  - intros [= <- <-]. by split_and!.
Qed.

(** Rows without a baseline are those of a run that has not started. *)
Lemma resumable_fresh m :
  (∀ dk, inv_key dk → m !! key_bytes dk = None) → resumable m.
Proof.
  intros Hm. exists (replicate 32 u_zero).
  assert (∀ h, ¬ has_base_account m h) as Hna by (intros h [x Hx]; by rewrite Hm in Hx).
  assert (∀ h s, ¬ has_base_slot m h s) as Hns by (intros h s [x Hx]; by rewrite Hm in Hx).
  split.
  - done.
  - intros h x. by rewrite Hm.
  - by intros h h' ?%Hna.
  - intros seg Hs. by rewrite bit_set_zero.
  - intros p. by rewrite Hm.
  - intros h x. by rewrite Hm.
  - by intros h acc ?%Hna.
  - intros h s x. by rewrite Hm.
  - intros _ h acc _ next rs r _ _ _ s s' Hs. by destruct (Hns h s).
  - intros ch c. by rewrite Hm.
Qed.
End run.
