(* ===== verification/SyncLive.v ===== *)
(** * SyncLive: the state sync stops

    Every step of the system leads down a well-founded order (the phase, the
    programs of the goroutines, the bundles in the channel), so no schedule runs
    forever; and as long as the run is not over, nor has crashed, it can go on without
    a cancellation and with one goroutine at a time ([serial]), whatever room the
    channel has and whatever the limit of the groups, but for one state: the writer
    failed before it reached the fence of phase 2, and [Run] waits for a reply nobody
    will send ([hung]). *)

From S2P Require Import Prelude Schema Lmdb Capture World Store StoreRead StoreSpec StoreProof.
From S2P Require Import StoreReads StoreWrites Loader Concurrent StoreInv Scans SyncKeys Sync.
From S2P Require Import SyncTrie SyncLogic SyncSound SyncInv SyncRun.

(** ** Programs *)

(** Induction over programs, with the branches of a fork. *)
Section prog_ind.
Context (P : prog → Prop).
Context (Hdone : P PDone) (Hfail : ∀ e, P (PFail e)).
Context (Hleafs : ∀ req k, (∀ x, P (k x)) → P (PLeafs req k)).
Context (Hcode : ∀ hs k, (∀ x, P (k x)) → P (PCode hs k)).
Context (Hclaim : ∀ h k, (∀ x, P (k x)) → P (PClaim h k)).
Context (Henq : ∀ b k, P k → P (PEnqueue b k)).
Context (Hmax : ∀ a st en k, (∀ x, P (k x)) → P (PMaxSlot a st en k)).
Context (Hqueue : ∀ after k, (∀ x, P (k x)) → P (PQueue after k)).
Context (Horder : ∀ n k, (∀ x, P (k x)) → P (PAnyOrder n k)).
Context (Hpar : ∀ ps k, Forall P ps → P k → P (PPar ps k)).

Fixpoint prog_tree_ind (p : prog) : P p :=
  match p with
  | PDone => Hdone
  | PFail e => Hfail e
  | PLeafs req k => Hleafs req k (λ x, prog_tree_ind (k x))
  | PCode hs k => Hcode hs k (λ x, prog_tree_ind (k x))
  | PClaim h k => Hclaim h k (λ x, prog_tree_ind (k x))
  | PEnqueue b k => Henq b k (prog_tree_ind k)
  | PMaxSlot a st en k => Hmax a st en k (λ x, prog_tree_ind (k x))
  | PQueue after k => Hqueue after k (λ x, prog_tree_ind (k x))
  | PAnyOrder n k => Horder n k (λ x, prog_tree_ind (k x))
  | PPar ps k =>
      Hpar ps k
        ((fix go (qs : list prog) : Forall P qs :=
            match qs with
            | [] => Forall_nil_2 P
            | q :: qs' => Forall_cons_2 P q qs' (prog_tree_ind q) (go qs')
            end) ps)
        (prog_tree_ind k)
  end.
End prog_ind.

(** One element of a list steps. *)
Definition list_step {A} (R : A → A → Prop) (l' l : list A) : Prop :=
  ∃ i x x', l !! i = Some x ∧ R x' x ∧ l' = <[i:=x']> l.

Lemma list_step_acc {A} (R : A → A → Prop) l : Forall (Acc R) l → Acc (list_step R) l.
Proof.
  induction 1 as [|x l Hx _ IH].
  { constructor. intros l' (i & x & x' & Hi & _). by rewrite lookup_nil in Hi. }
  revert l IH. induction Hx as [x _ IHx]. intros l Hl. pose proof Hl as Hl0. revert Hl0.
  induction Hl as [l _ IHl]. intros Hl. constructor.
  intros l' ([|i] & y & y' & Hi & Hy & ->); cbn in Hi |- *.
  - injection Hi as ->. by apply IHx.
  - assert (list_step R (<[i:=y']> l) l) as Hs by (by exists i, y, y').
    apply IHl; [done|]. by destruct Hl as [Hl]; apply Hl.
Qed.

#[global] Instance choice_eq_dec : EqDecision choice.
Proof. solve_decision. Defined.

Section live.
Context {env : Type} `{LmdbLaws env}.
Context (rlp_content : bytes → option bytes) (vars : Vars) (cl : Client).
Context (fuel : nat) (scan_fuel : env → nat).
Implicit Types (s : sys env) (p : prog).

Abbreviation op_step := (op_step vars cl scan_fuel).
Abbreviation sys_next := (sys_next rlp_content vars cl fuel scan_fuel).
Abbreviation sys_run := (sys_run rlp_content vars cl fuel scan_fuel).

(** One operation, or the cancellation of one. *)
Definition any_op (f : sys env → prog → option (sys env * prog)) : Prop :=
  (∃ order, f = op_step order) ∨
  f = (λ s p, match op_cancel p with Some p' => Some (s, p') | None => None end).

Definition prog_succ (p' p : prog) : Prop :=
  ∃ f path s s', any_op f ∧ at_path f path s p = Some (s', p').

Lemma path_fork f path s ps k s' p' :
  any_op f → at_path f path s (PPar ps k) = Some (s', p') →
  (∃ e, p' = PFail e) ∨ p' = k ∨ ∃ qs, p' = PPar qs k ∧ list_step prog_succ qs ps.
Proof.
  intros Hf. destruct path as [|i path]; cbn [at_path].
  - destruct Hf as [[order ->]| ->]; [|done]. cbn [Sync.op_step].
    destruct (omap prog_error ps) as [|e ?]; [|intros; simplify_eq; eauto].
    destruct (forallb prog_done ps); intros; simplify_eq; eauto.
  - destruct (ps !! i) as [q|] eqn:Ei; [|done].
    destruct (at_path f path s q) as [[s1 q1]|] eqn:Eq; [|done]. intros [= <- <-].
    right; right. eexists. split; [done|]. exists i, q, q1. split_and!; [done| |done].
    by exists f, path, s, s1.
Qed.

Lemma fail_acc e : Acc prog_succ (PFail e).
Proof. constructor. by intros p' (f & [|i path] & s & s' & [[order ->]| ->] & Hp). Qed.

(** What an operation that is not a fork goes on with. *)
Definition child (p' p : prog) : Prop :=
  match p with
  | PDone | PFail _ | PPar _ _ => False
  | PLeafs _ k => ∃ x, p' = k x
  | PCode _ k => ∃ x, p' = k x
  | PClaim _ k => ∃ x, p' = k x
  | PEnqueue _ k => p' = k
  | PMaxSlot _ _ _ k => ∃ x, p' = k x
  | PQueue _ k => ∃ x, p' = k x
  | PAnyOrder _ k => ∃ x, p' = k x
  end.

Lemma op_child order s p s' p' :
  op_step order s p = Some (s', p') → (∀ ps k, p ≠ PPar ps k) → child p' p ∨ ∃ e, p' = PFail e.
Proof.
  intros Hp Hn. destruct p; cbn [Sync.op_step child] in *; try discriminate Hp; [..|by destruct (Hn ps p)].
  all: try (case_bool_decide; [|discriminate Hp]); try (destruct (has_room vars s); [|discriminate Hp]); injection Hp as _ <-.
  all: try (match goal with |- context [match ?x with Ok _ => _ | Err _ => _ end] => destruct x end); eauto.
Qed.

Lemma succ_child p p' :
  prog_succ p' p → (∀ ps k, p ≠ PPar ps k) → child p' p ∨ ∃ e, p' = PFail e.
Proof.
  intros (f & path & s & s' & Hf & Hp) Hn. destruct path as [|i path]; cbn [at_path] in Hp.
  - destruct Hf as [[order ->]| ->]; [by eapply op_child|].
    destruct p; cbn [op_cancel] in Hp; try discriminate Hp; injection Hp as _ <-; eauto.
  - by destruct p; try discriminate Hp; destruct (Hn ps p).
Qed.

Lemma prog_acc p : Acc prog_succ p.
Proof.
  induction p as [|e|req k IH|hs k IH|h k IH|b k IH|a st en k IH|after k IH|n k IH|ps k IHps IHk]
    using prog_tree_ind.
  10: { apply list_step_acc in IHps. induction IHps as [ps _ IH]. constructor.
    intros p' (f & path & s & s' & Hf & Hp).
    destruct (path_fork _ _ _ _ _ _ _ Hf Hp) as [[e ->]|[->|(qs & -> & Hqs)]];
      [apply fail_acc|done|by apply IH]. }
  all: constructor; intros p' [Hc|[er ->]]%succ_child; [|apply fail_acc|discriminate]; cbn [child] in Hc.
  all: try destruct Hc as [x ->]; try subst; auto; contradiction.
Qed.

(** The goroutine that was started first and has not ended, or the join of its
    fork. *)
Fixpoint lead (p : prog) : list nat :=
  match p with
  | PPar ps _ =>
      match omap prog_error ps with
      | _ :: _ => []
      | [] =>
          (fix go (i : nat) (qs : list prog) : list nat :=
             match qs with
             | [] => []
             | q :: qs' => if prog_done q then go (S i) qs' else i :: lead q
             end) 0 ps
      end
  | _ => []
  end.

Lemma lead_fork ps k :
  omap prog_error ps = [] →
  forallb prog_done ps = true ∧ lead (PPar ps k) = [] ∨
  ∃ i q, ps !! i = Some q ∧ prog_done q = false ∧ lead (PPar ps k) = i :: lead q.
Proof.
  cbn [lead]. intros ->. 
  match goal with |- context [?f 0 ps] => set (go := f) end.
  assert (∀ n qs, (forallb prog_done qs = true ∧ go n qs = []) ∨
    ∃ i q, qs !! i = Some q ∧ prog_done q = false ∧ go n qs = (n + i) :: lead q) as Hgo; cycle 1.
  { destruct (Hgo 0 ps) as [?|(i & q & ? & ? & ?)]; [by left|right; by exists i, q]. }
  intros n qs. revert n. induction qs as [|q qs IH]; intros n; cbn [forallb go]; [by left|].
  destruct (prog_done q) eqn:Eq; cbn [andb].
  - destruct (IH (S n)) as [?|(i & q' & ? & ? & ->)]; [by left|]. right. exists (S i), q'.
    split_and!; [done|done|]. f_equal. lia.
  - right. exists 0, q. split_and!; [done|done|]. f_equal. lia.
Qed.

(** A goroutine that is not at its end can step while the channel has room. *)
Lemma prog_progress s p :
  has_room vars s →
  p = PDone ∨ (∃ e, p = PFail e) ∨ ∃ order r, at_path (op_step order) (lead p) s p = Some r.
Proof.
  intros Hroom. induction p as [|e|req k IH|hs k IH|h k IH|b k IH|a st en k IH|after k IH|n k IH|ps k IHps IHk]
    using prog_tree_ind; [by left|right; left; by eexists|..].
  all: right; right.
  1-6: exists []; cbn [lead at_path Sync.op_step].
  1-3, 5-6: by eexists.
  - destruct (has_room vars s); [by eexists|done].
  - exists (seq 0 n). cbn. rewrite bool_decide_true by done. by eexists.
  - destruct (omap prog_error ps) as [|e es] eqn:Ee; cycle 1.
    { exists []. cbn [lead]. rewrite Ee. cbn [at_path Sync.op_step]. rewrite Ee. by eexists. }
    destruct (lead_fork ps k Ee) as [[Hd ->]|(i & q & Hi & Hq & ->)].
    { exists []. cbn [at_path Sync.op_step]. rewrite Ee, Hd. by eexists. }
    rewrite Forall_lookup in IHps. destruct (IHps i q Hi) as [->|[[e ->]|(order & [s' q'] & Hr)]]; [done| |].
    { assert (e ∈ omap prog_error ps) as Hin; [|by rewrite Ee in Hin; apply elem_of_nil in Hin].
      apply list_elem_of_omap. exists (PFail e). split; [by eapply list_elem_of_lookup_2|done]. }
    exists order. cbn [at_path]. rewrite Hi, Hr. by eexists.
Qed.

(** ** The system *)

Definition sys_succ s' s : Prop := ∃ c, sys_next c s = Some s'.

Lemma writer_tail s s' : writer_step s = Some s' → y_chan s' = tail (y_chan s) ∧ y_phase s' = y_phase s.
Proof. intros Hw. by destruct (writer_step_shape s s' Hw) as ((_ & _ & ?) & ? & _). Qed.

(** The writer alone empties the channel. *)
Lemma phase_acc ph :
  (∀ c s s', y_phase s = ph → c ≠ ChWriter → sys_next c s = Some s' → Acc sys_succ s') →
  ∀ s, y_phase s = ph → Acc sys_succ s.
Proof.
  intros Hstep s. remember (length (y_chan s)) as n eqn:Hn. revert s Hn.
  induction n as [n IH] using lt_wf_ind. intros s -> Hph. constructor. intros s' [c Hc].
  destruct (decide (c = ChWriter)) as [->|Hne]; [|by eapply Hstep].
  cbn [Sync.sys_next] in Hc. pose proof (writer_tail s s' Hc) as [Hch Hp].
  eapply IH; [|done|congruence]. unfold writer_step in Hc. rewrite Hch.
  destruct (y_chan s); [done|]. cbn. lia.
Qed.

Lemma phase_step_succ f path s s' :
  any_op f → phase_step f path s = Some s' →
  (∃ p p', y_phase s = PhSegments p ∧ y_phase s' = PhSegments p' ∧ prog_succ p' p) ∨
  (∃ p p', y_phase s = PhDrain p ∧ y_phase s' = PhDrain p' ∧ prog_succ p' p).
Proof.
  intros Hf. unfold phase_step. destruct (y_phase s) as [p| |p|r|]; [|done| |done|done];
    destruct (at_path f path s p) as [[s1 p1]|] eqn:Ep; try done; intros [= <-];
    [left|right]; exists p, p1; (split_and!; [done|done|by exists f, path, s, s1]).
Qed.

(** A step other than the writer's steps a goroutine of the phase, or goes to a
    later phase. *)
Lemma other_step c s s' :
  c ≠ ChWriter → sys_next c s = Some s' →
  (∃ p p', y_phase s = PhSegments p ∧ y_phase s' = PhSegments p' ∧ prog_succ p' p) ∨
  (∃ p p', y_phase s = PhDrain p ∧ y_phase s' = PhDrain p' ∧ prog_succ p' p) ∨
  match y_phase s with
  | PhSegments _ => y_phase s' = PhFence ∨ ∃ r, y_phase s' = PhClosed r
  | PhFence => (∃ p, y_phase s' = PhDrain p) ∨ ∃ r, y_phase s' = PhClosed r
  | PhDrain _ => ∃ r, y_phase s' = PhClosed r
  | PhClosed _ => y_phase s' = PhPanic
  | PhPanic => False
  end.
Proof.
  intros Hne Hs. destruct c as [|path order|path| | |]; cbn [Sync.sys_next] in Hs; [done|..].
  - apply phase_step_succ in Hs; [|left; by eexists]. naive_solver.
  - apply phase_step_succ in Hs; [|by right]. naive_solver.
  - unfold main_step in Hs. destruct (y_phase s) as [p| |p|r|]; [| | |done|done].
    + destruct p; try done; [destruct (has_room vars s); [|done]|]; injection Hs as <-; cbn; eauto 6.
    + destruct (y_reply s) as [[]|]; try done; injection Hs as <-; cbn; eauto 6.
    + destruct p; try done; injection Hs as <-; cbn; eauto 6.
  - destruct (y_phase s) as [[]| | | |]; try done; injection Hs as <-; cbn; eauto 6.
  - destruct (y_phase s) as [| | |[[]|e]|]; try done. case_decide; [|done]. injection Hs as <-. cbn. eauto 6.
Qed.

(** No schedule runs forever. *)
Lemma sys_acc s : Acc sys_succ s.
Proof.
  assert (∀ s, y_phase s = PhPanic → Acc sys_succ s) as Hpanic.
  { apply phase_acc. intros c s1 s2 Hp Hne Hs.
    destruct (other_step c s1 s2 Hne Hs) as [(?&?&?&_)|[(?&?&?&_)|Hm]]; [congruence..|]. by rewrite Hp in Hm. }
  assert (∀ r s, y_phase s = PhClosed r → Acc sys_succ s) as Hclosed.
  { intros r. apply phase_acc. intros c s1 s2 Hp Hne Hs.
    destruct (other_step c s1 s2 Hne Hs) as [(?&?&?&_)|[(?&?&?&_)|Hm]]; [congruence..|]. rewrite Hp in Hm. by apply Hpanic. }
  assert (∀ p s, y_phase s = PhDrain p → Acc sys_succ s) as Hdrain.
  { intros p. induction (prog_acc p) as [p _ IH]. apply phase_acc. intros c s1 s2 Hp Hne Hs.
    destruct (other_step c s1 s2 Hne Hs) as [(?&?&?&_)|[(q&q'&Hq&Hq'&Hsucc)|Hm]]; [congruence|..].
    - eapply IH; [|done]. congruence.
    - rewrite Hp in Hm. destruct Hm as [r Hr]. by eapply Hclosed. }
  assert (∀ s, y_phase s = PhFence → Acc sys_succ s) as Hfence.
  { apply phase_acc. intros c s1 s2 Hp Hne Hs.
    destruct (other_step c s1 s2 Hne Hs) as [(?&?&?&_)|[(?&?&?&_)|Hm]]; [congruence..|].
    rewrite Hp in Hm. destruct Hm as [[p Hd]|[r Hr]]; [by eapply Hdrain|by eapply Hclosed]. }
  assert (∀ p s, y_phase s = PhSegments p → Acc sys_succ s) as Hseg.
  { intros p. induction (prog_acc p) as [p _ IH]. apply phase_acc. intros c s1 s2 Hp Hne Hs.
    destruct (other_step c s1 s2 Hne Hs) as [(q&q'&Hq&Hq'&Hsucc)|[(?&?&?&_)|Hm]]; [|congruence|].
    - eapply IH; [|done]. congruence.
    - rewrite Hp in Hm. destruct Hm as [Hf|[r Hr]]; [by apply Hfence|by eapply Hclosed]. }
  destruct (y_phase s) as [p| |p|r|] eqn:E; eauto.
Qed.

(** [Run] waits at the fence for a writer that is gone. *)
Definition hung s : Prop :=
  y_phase s = PhFence ∧ y_reply s = None ∧ y_werr s ≠ None ∧ y_chan s = [].
Definition ended s : Prop := (∃ r, y_phase s = PhClosed r) ∧ y_chan s = [].

Definition is_cancel (c : choice) : bool := match c with ChCancel _ | ChCancelMain => true | _ => false end.

(** A schedule without cancellations in which the goroutines run one after the
    other, in the order they are started: it needs no more than one worker. *)
Definition serial_step (c : choice) s : Prop :=
  match c with
  | ChWriter | ChMain => True
  | ChStep path _ => ∃ p, (y_phase s = PhSegments p ∨ y_phase s = PhDrain p) ∧ path = lead p
  | ChCancel _ | ChCancelMain | ChPanic => False
  end.
Fixpoint serial (sched : list choice) s : Prop :=
  match sched with
  | [] => True
  | c :: sched' => serial_step c s ∧ match sys_next c s with Some s' => serial sched' s' | None => False end
  end.

Lemma hung_stuck s c s' : hung s → sys_next c s = Some s' → is_cancel c = true.
Proof.
  intros (Hp & Hr & _ & Hc) Hs. destruct c; cbn [Sync.sys_next] in Hs; try done.
  - unfold writer_step in Hs. by rewrite Hc in Hs.
  - unfold phase_step in Hs. by rewrite Hp in Hs.
  - unfold main_step in Hs. by rewrite Hp, Hr in Hs.
  - by rewrite Hp in Hs.
Qed.

(** The writer failed, and the fence is not answered yet: nothing but a
    cancellation leads out of it. *)
Definition waiting s : Prop :=
  y_werr s ≠ None ∧ y_reply s = None ∧ (y_phase s = PhSegments PDone ∨ y_phase s = PhFence).

Lemma waiting_step c s s' : waiting s → is_cancel c = false → sys_next c s = Some s' → waiting s'.
Proof.
  intros (Hw & Hr & Hp) Hc Hs. destruct c as [|path order|path| | |]; cbn [Sync.sys_next] in Hs; try done.
  - unfold writer_step in Hs. destruct (y_chan s); [done|]. destruct (y_werr s); [|done]. by injection Hs as <-.
  - unfold phase_step in Hs. destruct Hp as [Hp|Hp]; rewrite Hp in Hs; [|done].
    by destruct path; cbn in Hs.
  - unfold main_step in Hs. destruct Hp as [Hp|Hp]; rewrite Hp in Hs.
    + destruct (has_room vars s); [|done]. injection Hs as <-. split_and!; [done|done|by right].
    + by rewrite Hr in Hs.
  - by destruct Hp as [Hp|Hp]; rewrite Hp in Hs.
Qed.

Lemma waiting_forever sched s s' :
  waiting s → forallb (λ c, negb (is_cancel c)) sched → sys_run sched s = Some s' → waiting s'.
Proof.
  revert s. induction sched as [|c sched IH]; intros s Hw Hc Hr; cbn [Sync.sys_run forallb] in *;
    [by injection Hr as <-|].
  apply andb_prop_elim in Hc as [Hc1 Hc2]. destruct (sys_next c s) as [s1|] eqn:E; [|done].
  eapply (IH s1); [|done..]. eapply waiting_step; [done| |done]. by destruct (is_cancel c).
Qed.

Lemma writer_progress s : y_chan s ≠ [] → ∃ s', writer_step s = Some s'.
Proof.
  intros Hc. unfold writer_step. destruct (y_chan s); [done|]. destruct (y_werr s); [by eexists|].
  destruct (loader_run _ _ _) as [[[] ?] ?]; [|by eexists].
  destruct (b_barrier b); [destruct (Flush _ _) as [[]]|]; by eexists.
Qed.

Lemma sys_run_app sched sched' s s' s'' :
  sys_run sched s = Some s' → sys_run sched' s' = Some s'' → sys_run (sched ++ sched') s = Some s''.
Proof.
  revert s. induction sched as [|c sched IH]; intros s; cbn [Sync.sys_run app]; [by intros [= ->]|].
  destruct (sys_next c s); [apply IH|done].
Qed.

Context (Hgt : u64) (Inv : gmap bytes bytes → bytes → Prop).
Context (leafs_ok : LeafsRequest → LeafsResponse → Prop) (code_ok : list Hash → list bytes → Prop).
Context (Q1 Q2 : lst → Prop).

Lemma hung_faults s : sys_inv Hgt Inv leafs_ok code_ok Q1 Q2 s → hung s → faults.
Proof.
  intros (G & Hg & _) (_ & _ & Hw & _). destruct (y_werr s) as [e|] eqn:Ew; [|done].
  apply (gh_werr _ _ _ _ Hg e Ew).
Qed.

(** An empty channel has room. *)
Lemma empty_room s : y_chan s = [] → has_room vars s.
Proof.
  unfold has_room, chan_cap, Workers. intros ->. apply Is_true_true, Nat.ltb_lt.
  destruct (Z.leb_spec (cf_Workers vars) 0); cbn; lia.
Qed.

Lemma sys_progress s :
  sys_inv Hgt Inv leafs_ok code_ok Q1 Q2 s →
  ended s ∨ hung s ∨ y_phase s = PhPanic ∨ ∃ c s', serial_step c s ∧ sys_next c s = Some s'.
Proof.
  intros (G & _ & _ & Hph).
  destruct (decide (y_chan s = [])) as [Hc|Hc]; cycle 1.
  { do 3 right. destruct (writer_progress s Hc) as [s' Hs]. by exists ChWriter, s'. }
  pose proof (empty_room s Hc) as Hroom.
  assert (∀ p, y_phase s = PhSegments p ∨ y_phase s = PhDrain p →
    ∃ c s', serial_step c s ∧ sys_next c s = Some s') as Hgo.
  { intros p Hp. destruct (prog_progress s p Hroom) as [->|[[e ->]|(order & [s' p'] & Hr)]].
    1, 2: exists ChMain; cbn [Sync.sys_next]; unfold main_step; destruct (has_room vars s); [|done];
      destruct Hp as [->| ->]; by eexists.
    exists (ChStep (lead p) order). cbn [Sync.sys_next serial_step]. unfold phase_step.
    destruct Hp as [Hp|Hp]; rewrite Hp, Hr; eexists; (split; [|done]); eauto. }
  unfold phase_inv in Hph.
  destruct (y_phase s) as [p| |p|r|] eqn:Ep; [do 3 right; by eauto| |do 3 right; by eauto|left; by split; [eexists|]|by do 2 right; left].
  destruct Hph as [_ [[Hr Hw]|(_ & r & Hr & _)]].
  - destruct (y_werr s) as [e|] eqn:Ew; [right; left; unfold hung; by rewrite Ew|].
    destruct (Hw eq_refl) as (pre & Hpre & _). rewrite Hc in Hpre. by destruct pre.
  - do 3 right. exists ChMain. cbn [Sync.sys_next]. unfold main_step. rewrite Ep, Hr. destruct r; by eexists.
Qed.

Context (step_inv : ∀ c s s', sys_inv Hgt Inv leafs_ok code_ok Q1 Q2 s → sys_next c s = Some s' →
  sys_inv Hgt Inv leafs_ok code_ok Q1 Q2 s').

(** A serial step does not crash. *)
Lemma serial_alive c s s' : serial_step c s → sys_next c s = Some s' → y_phase s ≠ PhPanic → y_phase s' ≠ PhPanic.
Proof.
  intros Hser Hs Hp. destruct (decide (c = ChWriter)) as [->|Hne].
  { cbn in Hs. by destruct (writer_tail _ _ Hs) as [_ ->]. }
  destruct (other_step c s s' Hne Hs) as [(?&?&_&->&_)|[(?&?&_&->&_)|Hm]]; [done|done|].
  destruct (y_phase s) as [p| |p|r|] eqn:Ep;
    [by destruct Hm as [->|[? ->]]|by destruct Hm as [[? ->]|[? ->]]|by destruct Hm as [? ->]| |done].
  destruct c; cbn in Hser, Hs; try done.
  - destruct Hser as (? & [?|?] & _); congruence.
  - unfold main_step in Hs. by rewrite Ep in Hs.
Qed.

(** Every run that has not crashed goes on to its end, or to the fence nobody
    will answer. *)
Lemma sys_completes s :
  sys_inv Hgt Inv leafs_ok code_ok Q1 Q2 s → y_phase s ≠ PhPanic →
  ∃ sched s', sys_run sched s = Some s' ∧ serial sched s ∧
    sys_inv Hgt Inv leafs_ok code_ok Q1 Q2 s' ∧ (ended s' ∨ hung s').
Proof.
  induction (sys_acc s) as [s _ IH]. intros Hi Hnp.
  destruct (sys_progress s Hi) as [He|[Hh|[?|(c & s1 & Hc & Hs)]]]; [exists [], s; split_and!; by auto..|done|].
  destruct (IH s1) as (sched & s' & Hr & Hn & Hi' & Hend); [by exists c|by eapply step_inv|by eapply serial_alive|].
  exists (c :: sched), s'. cbn [Sync.sys_run serial]. by rewrite Hs.
Qed.
End live.
