(* ===== verification/SyncServe.v ===== *)
(** * SyncServe: what a synced database serves

    A load that returned without error over a database without history leaves a
    database that serves, from the height on, the world of the state trie
    ([trie_world]); it is the start of the archive theorem. *)

From Stdlib Require Import Sorted.
From S2P Require Import Prelude Schema Lmdb Capture World Store StoreRead StoreSpec StoreProof.
From S2P Require Import StoreReads StoreWrites Loader Concurrent StoreInv Scans SyncKeys Sync.
From S2P Require Import SyncTrie SyncInv SyncRun.

Section serve.
Context (keccak : bytes → Hash).
Context (rlp_account : bytes → option LeafAccount) (rlp_content : bytes → option bytes).
Context (Root : Hash) (Trie : Hash → list leaf).
Implicit Types (m : gmap bytes bytes) (T : list leaf).

Abbreviation is_account := (is_account rlp_account Root Trie).
Abbreviation is_slot := (is_slot rlp_content Trie).
Abbreviation synced := (synced keccak rlp_account rlp_content Root Trie).

(** The value of a key in a trie. *)
Fixpoint trie_get (T : list leaf) (key : bytes) : option bytes :=
  match T with
  | [] => None
  | (k, v) :: T' => if bool_decide (k = key) then Some v else trie_get T' key
  end.

(** The account and the slot of the state trie, by hashes. *)
Definition trie_account (h : Hash) : option LeafAccount :=
  trie_get (Trie Root) (abytes h) ≫= rlp_account.
Definition trie_slot (h s : Hash) : option Hash :=
  acc ← trie_account h;
  if bool_decide (la_Root acc ≠ arr_zero ∧ la_Root acc ≠ EmptyRootHash keccak) then
    val ← trie_get (Trie (la_Root acc)) (abytes s); slot_value <$> rlp_content val
  else None.

(** The state whose trie has root [Root]. *)
Definition trie_world : world :=
  MkWorld (λ a, account_row <$> trie_account (keccak (abytes a)))
    (λ a s, default zero_hash (trie_slot (keccak (abytes a)) (keccak (abytes s)))).

(** A database without blocks. *)
Definition no_history (m : gmap bytes bytes) : Prop :=
  (∀ a b, m !! key_bytes (KAccount a b) = None) ∧
  (∀ a s b, m !! key_bytes (KSlot a s b) = None) ∧
  (∀ a b, m !! key_bytes (KDestruct a b) = None) ∧
  (∀ b, m !! key_bytes (KDiff b) = None).

Context (tries : ∀ root, trie_ok (Trie root)).

Lemma trie_get_elem T key v : trie_get T key = Some v → (key, v) ∈ T.
Proof.
  induction T as [|[k x] T IH]; [done|]. cbn [trie_get]. case_bool_decide as Hk.
  - intros [= ->]. subst. by left.
  - intros. right. by apply IH.
Qed.

Lemma elem_trie_get T key v : trie_ok T → (key, v) ∈ T → trie_get T key = Some v.
Proof.
  intros Hok Hin. destruct (trie_get T key) as [v'|] eqn:E.
  - apply trie_get_elem in E. by rewrite (trie_lookup_fun T key v v' Hok Hin E).
  - clear Hok. induction T as [|[k x] T IH]; [by apply elem_of_nil in Hin|].
    cbn [trie_get] in E. case_bool_decide; [done|]. apply elem_of_cons in Hin as [[= <- <-]|Hin]; [done|].
    by apply IH.
Qed.

Lemma trie_account_iff h acc : trie_account h = Some acc ↔ is_account h acc.
Proof.
  unfold trie_account. split.
  - intros (v & Hv & Ha)%bind_Some. exists v. by split; [apply trie_get_elem|].
  - intros (v & Hv & Ha). by rewrite (elem_trie_get _ _ _ (tries Root) Hv).
Qed.

Lemma trie_slot_iff h s v :
  trie_slot h s = Some v ↔
  ∃ acc, is_account h acc ∧ has_storage keccak acc ∧ is_slot (la_Root acc) s v.
Proof.
  unfold trie_slot. rewrite bind_Some. split.
  - intros (acc & Ha%trie_account_iff & Hv). case_bool_decide as Hst; [|done].
    apply bind_Some in Hv as (val & Hval%trie_get_elem & (c & Hc & ->)%fmap_Some).
    exists acc. split_and!; [done|exact Hst|by exists val, c].
  - intros (acc & Ha & Hst & val & c & Hval & Hc & ->). exists acc. split; [by apply trie_account_iff|].
    rewrite bool_decide_true by exact Hst. rewrite (elem_trie_get _ _ _ (tries _) Hval). cbn. by rewrite Hc.
Qed.

Context (base m : gmap bytes bytes) (Hwf : wf_db m) (Hsy : synced base m) (Hno : no_history base).

Lemma synced_no_history : no_history m.
Proof.
  destruct Hno as (H1 & H2 & H3 & H4).
  split_and!; intros; (rewrite (sy_other _ _ _ _ _ _ _ Hsy); [auto|by intros []|done]).
Qed.

Lemma synced_hist p B : hprefix p → hist m p B = None.
Proof.
  intros Hp. apply hist_None; [done|done|]. intros b _. destruct synced_no_history as (H1 & H2 & H3 & _).
  destruct Hp as [a|a s|a]; [apply (H1 a b)|apply (H2 a s b)|apply (H3 a b)].
Qed.

(** The baseline of a synced database is the state trie. *)
Lemma synced_world B : db_world keccak m B ≡ trie_world.
Proof.
  split.
  - intros a. cbn [db_world w_acct trie_world]. unfold read_account. rewrite !synced_hist by constructor.
    change (AppendBaseAccountKey [] (keccak (abytes a))) with (key_bytes (KBaseAccount (keccak (abytes a)))).
    destruct (trie_account (keccak (abytes a))) as [acc|] eqn:Ea.
    + apply trie_account_iff in Ea. rewrite (sy_account _ _ _ _ _ _ _ Hsy _ _ Ea).
      cbn [fmap option_fmap option_map default]. unfold decode_row. by rewrite DecodeAccount_Encode.
    + destruct (m !! _) as [x|] eqn:Ex; [|done].
      destruct (sy_no_account _ _ _ _ _ _ _ Hsy _ _ Ex) as [acc Ha%trie_account_iff]. congruence.
  - intros a s. cbn [db_world w_slot trie_world]. unfold read_slot. rewrite !synced_hist by constructor.
    change (AppendBaseSlotKey [] (keccak (abytes a)) (keccak (abytes s)))
      with (key_bytes (KBaseSlot (keccak (abytes a)) (keccak (abytes s)))).
    destruct (trie_slot (keccak (abytes a)) (keccak (abytes s))) as [v|] eqn:Es.
    + apply trie_slot_iff in Es as (acc & Ha & Hst & Hv).
      rewrite (sy_slot _ _ _ _ _ _ _ Hsy _ _ _ _ Ha Hst Hv).
      cbn [fmap option_fmap option_map default]. by rewrite arr_of_abytes.
    + destruct (m !! _) as [x|] eqn:Ex; [|done].
      destruct (sy_no_slot _ _ _ _ _ _ _ Hsy _ _ _ Ex) as (acc & v & Ha & Hst & Hv & _).
      assert (trie_slot (keccak (abytes a)) (keccak (abytes s)) = Some v) by (apply trie_slot_iff; eauto).
      congruence.
Qed.

(** It is ready for the blocks above its height. *)
Lemma synced_served (S : u64) :
  base !! key_bytes KMetaGenesis = Some (beBytes S) → served m S ∧ fresh_above m S.
Proof.
  intros Hg. destruct synced_no_history as (H1 & H2 & H3 & H4). split; [split_and!; [done|..]|].
  - intros a s b [v Hv]. by rewrite H2 in Hv.
  - unfold genesis_row. change MetaGenesis with (key_bytes KMetaGenesis).
    rewrite (sy_other _ _ _ _ _ _ _ Hsy); [|by intros []|done]. rewrite Hg.
    cbn [fmap option_fmap option_map]. by rewrite beU64_beBytes.
  - unfold baseline_complete. change MetaBaselineComplete with (key_bytes KMetaBaselineComplete).
    by rewrite (sy_complete _ _ _ _ _ _ _ Hsy).
  - intros dk b Hb Hlt. destruct dk; try done; auto.
Qed.
End serve.
