(* ===== verification/ConsensusState.v ===== *)
(** * ConsensusState: the data of the consensus engine

    The types of [follower/consensus/consensus.go]: containers, the interfaces the
    engine is written against (network, executor, sink), the consensus object and
    the poll set of avalanchego as interfaces, and the state of [Engine] with an
    assignment for each field.

    The network's answers, the clock and the order in which Go ranges over a map
    come out of the state of the network ([Net]), so they may be anything at every
    call.  [snowman.Topological] calls the engine back to accept and reject blocks:
    the object returns the calls it makes, in order, with its next state. *)

From S2P Require Import Prelude Schema Capture Exec Node.

Abbreviation NodeID := (arr 20).

(** What the engine uses of [*ethtypes.Block]: its header, the parent hash, and a
    body only the executor looks into. *)
Record EthBlock (Body : Type) := MkEthBlock {
  eb_Header : Header;
  eb_ParentHash : Hash;
  eb_Body : Body
}.
Arguments MkEthBlock {Body} _ _ _.
Arguments eb_Header {Body} _.
Arguments eb_ParentHash {Body} _.
Arguments eb_Body {Body} _.

Definition eb_Number {Body} (b : EthBlock Body) : u64 := hd_Number (eb_Header b).
Definition eb_Hash {Body} (b : EthBlock Body) : Hash := hd_Hash (eb_Header b).
Definition eb_Time {Body} (b : EthBlock Body) : u64 := hd_Time (eb_Header b).

(** [net.Container] *)
Record Container (Body : Type) := MkContainer {
  c_ID : Hash;
  c_ParentID : Hash;
  c_Eth : EthBlock Body;
  c_Bytes : bytes
}.
Arguments MkContainer {Body} _ _ _ _.
Arguments c_ID {Body} _.
Arguments c_ParentID {Body} _.
Arguments c_Eth {Body} _.
Arguments c_Bytes {Body} _.

Section parse.
Context {Body : Type}.
(** [proposerblock.ParseWithoutVerification] (its ID, parent ID and inner bytes)
    and [rlp.DecodeBytes] into a block *)
Context (proposer : bytes → option (Hash * Hash * bytes)) (rlp_block : bytes → option (EthBlock Body)).

Definition ParseContainer (raw : bytes) : result (Container Body) :=
  if Nat.eqb (length raw) 0 then Err (ErrMsg "net")
  else
    match proposer raw with
    | Some (id, parentID, inner) =>
        match rlp_block inner with
        | None => Err (ErrMsg "net")
        | Some blk => Ok (MkContainer id parentID blk raw)
        end
    | None =>
        match rlp_block raw with
        | None => Err (ErrMsg "net")
        | Some blk => Ok (MkContainer (eb_Hash blk) (eb_ParentHash blk) blk raw)
        end
    end.
End parse.

(** [snowball.Parameters], as far as the engine looks *)
Record Parameters := MkParameters {
  pa_K : Z;
  pa_AlphaPreference : Z;
  pa_AlphaConfidence : Z;
  pa_ConcurrentRepolls : Z
}.

#[export] Instance Parameters_eq_dec : EqDecision Parameters.
Proof. solve_decision. Defined.

Definition millisecond : Z := 1000000.
Definition second : Z := 1000 * millisecond.
(** [net.RequestTimeout] *)
Definition RequestTimeout : Z := 10 * second.

(** [Config]; durations are in nanoseconds.  [cf_Seed] is whether [SeedHeaders]
    is set. *)
Record Config := MkConfig {
  cf_Resume : option Anchor;
  cf_Seed : bool;
  cf_HeaderBackfill : u64;
  cf_Params : Parameters;
  cf_PollInterval : Z;
  cf_IdlePollInterval : Z;
  cf_PollTimeout : Z
}.

(** ** Interfaces *)

(** A callback of the consensus object. *)
Inductive decision (Body : Type) :=
| DAccept (c : Container Body)
| DReject (c : Container Body).
Arguments DAccept {Body} _.
Arguments DReject {Body} _.

(** [snowman.Topological]: [Add] and [RecordPoll] with the callbacks they make;
    [cs_stopped] is what is left of the object when a callback failed. *)
Class Consensus (T Body : Type) := {
  cs_Initialize : Parameters → Hash → u64 → u64 → result T;
  cs_Add : T → Container Body → list (decision Body) * T * option error;
  cs_RecordPoll : T → list Hash → list (decision Body) * T * option error;
  cs_stopped : T → list (decision Body) → T;
  cs_Processing : T → Hash → bool;
  cs_NumProcessing : T → Z;
  cs_Preference : T → Hash
}.

(** [poll.Set] over the early-termination factory, which looks into the consensus
    object; a vote or a drop returns the bags of the polls it finished. *)
Class PollSet (P T : Type) := {
  pl_New : Parameters → T → result P;
  pl_Add : P → u32 → list NodeID → option P;
  pl_Vote : T → P → u32 → NodeID → Hash → list (list Hash) * P;
  pl_Drop : T → P → u32 → NodeID → list (list Hash) * P;
  pl_Len : P → Z
}.

(** [consensus.Executor], with the [SeedHeaders] of its configuration *)
Class Executor (K Body : Type) := {
  ex_Execute : K → Hash → EthBlock Body → result Batch * K;
  ex_SeedHeaders : K → list Header → K
}.

(** [consensus.Sink], with the [MakeSink] of the configuration *)
Class EngineSink (K : Type) := {
  es_Make : K → u64 → Hash → result unit * K;
  es_Verified : K → Batch → K;
  es_Head : K → Hash → result unit * K;
  es_Accepted : K → u64 → Hash → result unit * K
}.

(** [consensus.Net], the clock and the order of a range over [n] entries *)
Class Net (N : Type) := {
  nt_NextRequestID : N → u32 * N;
  nt_SampleValidators : N → Z → result (list NodeID) * N;
  nt_IsConnected : N → NodeID → bool * N;
  nt_SelectPeer : N → option NodeID * N;
  nt_SendGet : N → NodeID → u32 → Hash → result unit * N;
  nt_SendGetAncestors : N → NodeID → u32 → Hash → result unit * N;
  nt_SendPullQuery : N → gset NodeID → u32 → Hash → u64 → result unit * N;
  nt_Now : N → Z * N;
  nt_Range : N → nat → list nat * N
}.

(** ** The engine *)

Inductive ephase := phasePollAnchor | phaseBackfill | phaseLive.

#[export] Instance ephase_eq_dec : EqDecision ephase.
Proof. solve_decision. Defined.

Record rec (Body : Type) := MkRec { r_c : Container Body; r_ethHash : Hash; r_issued : bool }.
Arguments MkRec {Body} _ _ _.
Arguments r_c {Body} _.
Arguments r_ethHash {Body} _.
Arguments r_issued {Body} _.

Record pollState := MkPollState { ps_remaining : gset NodeID; ps_deadline : Z }.
Record getReq := MkGetReq { g_deadline : Z; g_tries : Z }.
Record parkedVote := MkParkedVote {
  pv_requestID : u32;
  pv_nodeID : NodeID;
  pv_options : list Hash;
  pv_deadline : Z
}.

Section state.
Context {T P K N Body : Type}.

(** [Engine]; a [time.Time] is [None] when zero.  [e_node] is what stands behind
    the sink and the executor: the two may share objects (the follower's sink tells
    its executor what is final), so they are two interfaces of one state.  The sink
    is nil until the bootstrap ends, as are [e_cons] and [e_polls]. *)
Record Engine := MkEngine {
  e_phase : ephase;
  e_fatal : option error;
  e_bsReqID : u32;
  e_bsVotes : gmap Hash Z;
  e_bsVoters : gset NodeID;
  e_bsHeight : gmap Hash u64;
  e_lastBSAt : option Z;
  e_anchorID : Hash;
  e_bfChain : gmap u64 (Container Body);
  e_bfAnchor : option (Container Body);
  e_bfLow : option (Container Body);
  e_bfReqID : u32;
  e_bfDue : option Z;
  e_cons : T;
  e_polls : P;
  e_pollVdrs : gmap u32 pollState;
  e_recs : gmap Hash (rec Body);
  e_pendingByPa : gmap Hash (list Hash);
  e_gets : gmap Hash getReq;
  e_parked : gmap Hash (list parkedVote);
  e_frontiers : gmap NodeID Hash;
  e_lastPollAt : option Z;
  e_lastPref : Hash;
  e_pollsOK : u64;
  e_pollsFailed : u64;
  e_sampledOff : u64;
  e_sampledAll : u64;
  e_lastAcceptedID : Hash;
  e_lastAcceptedHeight : u64;
  e_lastAcceptedEthHash : Hash;
  e_lastAcceptAt : option Z;
  e_node : K;
  e_net : N
}.

(** Assignments to the fields. *)
Definition eset_phase (v : ephase) (e : Engine) : Engine :=
  MkEngine v (e_fatal e) (e_bsReqID e) (e_bsVotes e) (e_bsVoters e) (e_bsHeight e) (e_lastBSAt e)
    (e_anchorID e) (e_bfChain e) (e_bfAnchor e) (e_bfLow e) (e_bfReqID e) (e_bfDue e) (e_cons e) (e_polls e)
    (e_pollVdrs e) (e_recs e) (e_pendingByPa e) (e_gets e) (e_parked e) (e_frontiers e) (e_lastPollAt e)
    (e_lastPref e) (e_pollsOK e) (e_pollsFailed e) (e_sampledOff e) (e_sampledAll e) (e_lastAcceptedID e)
    (e_lastAcceptedHeight e) (e_lastAcceptedEthHash e) (e_lastAcceptAt e) (e_node e) (e_net e).
Definition eset_fatal (v : option error) (e : Engine) : Engine :=
  MkEngine (e_phase e) v (e_bsReqID e) (e_bsVotes e) (e_bsVoters e) (e_bsHeight e) (e_lastBSAt e)
    (e_anchorID e) (e_bfChain e) (e_bfAnchor e) (e_bfLow e) (e_bfReqID e) (e_bfDue e) (e_cons e) (e_polls e)
    (e_pollVdrs e) (e_recs e) (e_pendingByPa e) (e_gets e) (e_parked e) (e_frontiers e) (e_lastPollAt e)
    (e_lastPref e) (e_pollsOK e) (e_pollsFailed e) (e_sampledOff e) (e_sampledAll e) (e_lastAcceptedID e)
    (e_lastAcceptedHeight e) (e_lastAcceptedEthHash e) (e_lastAcceptAt e) (e_node e) (e_net e).
Definition eset_bsReqID (v : u32) (e : Engine) : Engine :=
  MkEngine (e_phase e) (e_fatal e) v (e_bsVotes e) (e_bsVoters e) (e_bsHeight e) (e_lastBSAt e)
    (e_anchorID e) (e_bfChain e) (e_bfAnchor e) (e_bfLow e) (e_bfReqID e) (e_bfDue e) (e_cons e) (e_polls e)
    (e_pollVdrs e) (e_recs e) (e_pendingByPa e) (e_gets e) (e_parked e) (e_frontiers e) (e_lastPollAt e)
    (e_lastPref e) (e_pollsOK e) (e_pollsFailed e) (e_sampledOff e) (e_sampledAll e) (e_lastAcceptedID e)
    (e_lastAcceptedHeight e) (e_lastAcceptedEthHash e) (e_lastAcceptAt e) (e_node e) (e_net e).
Definition eset_bsVotes (v : gmap Hash Z) (e : Engine) : Engine :=
  MkEngine (e_phase e) (e_fatal e) (e_bsReqID e) v (e_bsVoters e) (e_bsHeight e) (e_lastBSAt e)
    (e_anchorID e) (e_bfChain e) (e_bfAnchor e) (e_bfLow e) (e_bfReqID e) (e_bfDue e) (e_cons e) (e_polls e)
    (e_pollVdrs e) (e_recs e) (e_pendingByPa e) (e_gets e) (e_parked e) (e_frontiers e) (e_lastPollAt e)
    (e_lastPref e) (e_pollsOK e) (e_pollsFailed e) (e_sampledOff e) (e_sampledAll e) (e_lastAcceptedID e)
    (e_lastAcceptedHeight e) (e_lastAcceptedEthHash e) (e_lastAcceptAt e) (e_node e) (e_net e).
Definition eset_bsVoters (v : gset NodeID) (e : Engine) : Engine :=
  MkEngine (e_phase e) (e_fatal e) (e_bsReqID e) (e_bsVotes e) v (e_bsHeight e) (e_lastBSAt e)
    (e_anchorID e) (e_bfChain e) (e_bfAnchor e) (e_bfLow e) (e_bfReqID e) (e_bfDue e) (e_cons e) (e_polls e)
    (e_pollVdrs e) (e_recs e) (e_pendingByPa e) (e_gets e) (e_parked e) (e_frontiers e) (e_lastPollAt e)
    (e_lastPref e) (e_pollsOK e) (e_pollsFailed e) (e_sampledOff e) (e_sampledAll e) (e_lastAcceptedID e)
    (e_lastAcceptedHeight e) (e_lastAcceptedEthHash e) (e_lastAcceptAt e) (e_node e) (e_net e).
Definition eset_bsHeight (v : gmap Hash u64) (e : Engine) : Engine :=
  MkEngine (e_phase e) (e_fatal e) (e_bsReqID e) (e_bsVotes e) (e_bsVoters e) v (e_lastBSAt e)
    (e_anchorID e) (e_bfChain e) (e_bfAnchor e) (e_bfLow e) (e_bfReqID e) (e_bfDue e) (e_cons e) (e_polls e)
    (e_pollVdrs e) (e_recs e) (e_pendingByPa e) (e_gets e) (e_parked e) (e_frontiers e) (e_lastPollAt e)
    (e_lastPref e) (e_pollsOK e) (e_pollsFailed e) (e_sampledOff e) (e_sampledAll e) (e_lastAcceptedID e)
    (e_lastAcceptedHeight e) (e_lastAcceptedEthHash e) (e_lastAcceptAt e) (e_node e) (e_net e).
Definition eset_lastBSAt (v : option Z) (e : Engine) : Engine :=
  MkEngine (e_phase e) (e_fatal e) (e_bsReqID e) (e_bsVotes e) (e_bsVoters e) (e_bsHeight e) v
    (e_anchorID e) (e_bfChain e) (e_bfAnchor e) (e_bfLow e) (e_bfReqID e) (e_bfDue e) (e_cons e) (e_polls e)
    (e_pollVdrs e) (e_recs e) (e_pendingByPa e) (e_gets e) (e_parked e) (e_frontiers e) (e_lastPollAt e)
    (e_lastPref e) (e_pollsOK e) (e_pollsFailed e) (e_sampledOff e) (e_sampledAll e) (e_lastAcceptedID e)
    (e_lastAcceptedHeight e) (e_lastAcceptedEthHash e) (e_lastAcceptAt e) (e_node e) (e_net e).
Definition eset_anchorID (v : Hash) (e : Engine) : Engine :=
  MkEngine (e_phase e) (e_fatal e) (e_bsReqID e) (e_bsVotes e) (e_bsVoters e) (e_bsHeight e) (e_lastBSAt e)
    v (e_bfChain e) (e_bfAnchor e) (e_bfLow e) (e_bfReqID e) (e_bfDue e) (e_cons e) (e_polls e)
    (e_pollVdrs e) (e_recs e) (e_pendingByPa e) (e_gets e) (e_parked e) (e_frontiers e) (e_lastPollAt e)
    (e_lastPref e) (e_pollsOK e) (e_pollsFailed e) (e_sampledOff e) (e_sampledAll e) (e_lastAcceptedID e)
    (e_lastAcceptedHeight e) (e_lastAcceptedEthHash e) (e_lastAcceptAt e) (e_node e) (e_net e).
Definition eset_bfChain (v : gmap u64 (Container Body)) (e : Engine) : Engine :=
  MkEngine (e_phase e) (e_fatal e) (e_bsReqID e) (e_bsVotes e) (e_bsVoters e) (e_bsHeight e) (e_lastBSAt e)
    (e_anchorID e) v (e_bfAnchor e) (e_bfLow e) (e_bfReqID e) (e_bfDue e) (e_cons e) (e_polls e)
    (e_pollVdrs e) (e_recs e) (e_pendingByPa e) (e_gets e) (e_parked e) (e_frontiers e) (e_lastPollAt e)
    (e_lastPref e) (e_pollsOK e) (e_pollsFailed e) (e_sampledOff e) (e_sampledAll e) (e_lastAcceptedID e)
    (e_lastAcceptedHeight e) (e_lastAcceptedEthHash e) (e_lastAcceptAt e) (e_node e) (e_net e).
Definition eset_bfAnchor (v : option (Container Body)) (e : Engine) : Engine :=
  MkEngine (e_phase e) (e_fatal e) (e_bsReqID e) (e_bsVotes e) (e_bsVoters e) (e_bsHeight e) (e_lastBSAt e)
    (e_anchorID e) (e_bfChain e) v (e_bfLow e) (e_bfReqID e) (e_bfDue e) (e_cons e) (e_polls e)
    (e_pollVdrs e) (e_recs e) (e_pendingByPa e) (e_gets e) (e_parked e) (e_frontiers e) (e_lastPollAt e)
    (e_lastPref e) (e_pollsOK e) (e_pollsFailed e) (e_sampledOff e) (e_sampledAll e) (e_lastAcceptedID e)
    (e_lastAcceptedHeight e) (e_lastAcceptedEthHash e) (e_lastAcceptAt e) (e_node e) (e_net e).
Definition eset_bfLow (v : option (Container Body)) (e : Engine) : Engine :=
  MkEngine (e_phase e) (e_fatal e) (e_bsReqID e) (e_bsVotes e) (e_bsVoters e) (e_bsHeight e) (e_lastBSAt e)
    (e_anchorID e) (e_bfChain e) (e_bfAnchor e) v (e_bfReqID e) (e_bfDue e) (e_cons e) (e_polls e)
    (e_pollVdrs e) (e_recs e) (e_pendingByPa e) (e_gets e) (e_parked e) (e_frontiers e) (e_lastPollAt e)
    (e_lastPref e) (e_pollsOK e) (e_pollsFailed e) (e_sampledOff e) (e_sampledAll e) (e_lastAcceptedID e)
    (e_lastAcceptedHeight e) (e_lastAcceptedEthHash e) (e_lastAcceptAt e) (e_node e) (e_net e).
Definition eset_bfReqID (v : u32) (e : Engine) : Engine :=
  MkEngine (e_phase e) (e_fatal e) (e_bsReqID e) (e_bsVotes e) (e_bsVoters e) (e_bsHeight e) (e_lastBSAt e)
    (e_anchorID e) (e_bfChain e) (e_bfAnchor e) (e_bfLow e) v (e_bfDue e) (e_cons e) (e_polls e)
    (e_pollVdrs e) (e_recs e) (e_pendingByPa e) (e_gets e) (e_parked e) (e_frontiers e) (e_lastPollAt e)
    (e_lastPref e) (e_pollsOK e) (e_pollsFailed e) (e_sampledOff e) (e_sampledAll e) (e_lastAcceptedID e)
    (e_lastAcceptedHeight e) (e_lastAcceptedEthHash e) (e_lastAcceptAt e) (e_node e) (e_net e).
Definition eset_bfDue (v : option Z) (e : Engine) : Engine :=
  MkEngine (e_phase e) (e_fatal e) (e_bsReqID e) (e_bsVotes e) (e_bsVoters e) (e_bsHeight e) (e_lastBSAt e)
    (e_anchorID e) (e_bfChain e) (e_bfAnchor e) (e_bfLow e) (e_bfReqID e) v (e_cons e) (e_polls e)
    (e_pollVdrs e) (e_recs e) (e_pendingByPa e) (e_gets e) (e_parked e) (e_frontiers e) (e_lastPollAt e)
    (e_lastPref e) (e_pollsOK e) (e_pollsFailed e) (e_sampledOff e) (e_sampledAll e) (e_lastAcceptedID e)
    (e_lastAcceptedHeight e) (e_lastAcceptedEthHash e) (e_lastAcceptAt e) (e_node e) (e_net e).
Definition eset_cons (v : T) (e : Engine) : Engine :=
  MkEngine (e_phase e) (e_fatal e) (e_bsReqID e) (e_bsVotes e) (e_bsVoters e) (e_bsHeight e) (e_lastBSAt e)
    (e_anchorID e) (e_bfChain e) (e_bfAnchor e) (e_bfLow e) (e_bfReqID e) (e_bfDue e) v (e_polls e)
    (e_pollVdrs e) (e_recs e) (e_pendingByPa e) (e_gets e) (e_parked e) (e_frontiers e) (e_lastPollAt e)
    (e_lastPref e) (e_pollsOK e) (e_pollsFailed e) (e_sampledOff e) (e_sampledAll e) (e_lastAcceptedID e)
    (e_lastAcceptedHeight e) (e_lastAcceptedEthHash e) (e_lastAcceptAt e) (e_node e) (e_net e).
Definition eset_polls (v : P) (e : Engine) : Engine :=
  MkEngine (e_phase e) (e_fatal e) (e_bsReqID e) (e_bsVotes e) (e_bsVoters e) (e_bsHeight e) (e_lastBSAt e)
    (e_anchorID e) (e_bfChain e) (e_bfAnchor e) (e_bfLow e) (e_bfReqID e) (e_bfDue e) (e_cons e) v
    (e_pollVdrs e) (e_recs e) (e_pendingByPa e) (e_gets e) (e_parked e) (e_frontiers e) (e_lastPollAt e)
    (e_lastPref e) (e_pollsOK e) (e_pollsFailed e) (e_sampledOff e) (e_sampledAll e) (e_lastAcceptedID e)
    (e_lastAcceptedHeight e) (e_lastAcceptedEthHash e) (e_lastAcceptAt e) (e_node e) (e_net e).
Definition eset_pollVdrs (v : gmap u32 pollState) (e : Engine) : Engine :=
  MkEngine (e_phase e) (e_fatal e) (e_bsReqID e) (e_bsVotes e) (e_bsVoters e) (e_bsHeight e) (e_lastBSAt e)
    (e_anchorID e) (e_bfChain e) (e_bfAnchor e) (e_bfLow e) (e_bfReqID e) (e_bfDue e) (e_cons e) (e_polls e)
    v (e_recs e) (e_pendingByPa e) (e_gets e) (e_parked e) (e_frontiers e) (e_lastPollAt e) (e_lastPref e)
    (e_pollsOK e) (e_pollsFailed e) (e_sampledOff e) (e_sampledAll e) (e_lastAcceptedID e)
    (e_lastAcceptedHeight e) (e_lastAcceptedEthHash e) (e_lastAcceptAt e) (e_node e) (e_net e).
Definition eset_recs (v : gmap Hash (rec Body)) (e : Engine) : Engine :=
  MkEngine (e_phase e) (e_fatal e) (e_bsReqID e) (e_bsVotes e) (e_bsVoters e) (e_bsHeight e) (e_lastBSAt e)
    (e_anchorID e) (e_bfChain e) (e_bfAnchor e) (e_bfLow e) (e_bfReqID e) (e_bfDue e) (e_cons e) (e_polls e)
    (e_pollVdrs e) v (e_pendingByPa e) (e_gets e) (e_parked e) (e_frontiers e) (e_lastPollAt e)
    (e_lastPref e) (e_pollsOK e) (e_pollsFailed e) (e_sampledOff e) (e_sampledAll e) (e_lastAcceptedID e)
    (e_lastAcceptedHeight e) (e_lastAcceptedEthHash e) (e_lastAcceptAt e) (e_node e) (e_net e).
Definition eset_pendingByPa (v : gmap Hash (list Hash)) (e : Engine) : Engine :=
  MkEngine (e_phase e) (e_fatal e) (e_bsReqID e) (e_bsVotes e) (e_bsVoters e) (e_bsHeight e) (e_lastBSAt e)
    (e_anchorID e) (e_bfChain e) (e_bfAnchor e) (e_bfLow e) (e_bfReqID e) (e_bfDue e) (e_cons e) (e_polls e)
    (e_pollVdrs e) (e_recs e) v (e_gets e) (e_parked e) (e_frontiers e) (e_lastPollAt e) (e_lastPref e)
    (e_pollsOK e) (e_pollsFailed e) (e_sampledOff e) (e_sampledAll e) (e_lastAcceptedID e)
    (e_lastAcceptedHeight e) (e_lastAcceptedEthHash e) (e_lastAcceptAt e) (e_node e) (e_net e).
Definition eset_gets (v : gmap Hash getReq) (e : Engine) : Engine :=
  MkEngine (e_phase e) (e_fatal e) (e_bsReqID e) (e_bsVotes e) (e_bsVoters e) (e_bsHeight e) (e_lastBSAt e)
    (e_anchorID e) (e_bfChain e) (e_bfAnchor e) (e_bfLow e) (e_bfReqID e) (e_bfDue e) (e_cons e) (e_polls e)
    (e_pollVdrs e) (e_recs e) (e_pendingByPa e) v (e_parked e) (e_frontiers e) (e_lastPollAt e)
    (e_lastPref e) (e_pollsOK e) (e_pollsFailed e) (e_sampledOff e) (e_sampledAll e) (e_lastAcceptedID e)
    (e_lastAcceptedHeight e) (e_lastAcceptedEthHash e) (e_lastAcceptAt e) (e_node e) (e_net e).
Definition eset_parked (v : gmap Hash (list parkedVote)) (e : Engine) : Engine :=
  MkEngine (e_phase e) (e_fatal e) (e_bsReqID e) (e_bsVotes e) (e_bsVoters e) (e_bsHeight e) (e_lastBSAt e)
    (e_anchorID e) (e_bfChain e) (e_bfAnchor e) (e_bfLow e) (e_bfReqID e) (e_bfDue e) (e_cons e) (e_polls e)
    (e_pollVdrs e) (e_recs e) (e_pendingByPa e) (e_gets e) v (e_frontiers e) (e_lastPollAt e) (e_lastPref e)
    (e_pollsOK e) (e_pollsFailed e) (e_sampledOff e) (e_sampledAll e) (e_lastAcceptedID e)
    (e_lastAcceptedHeight e) (e_lastAcceptedEthHash e) (e_lastAcceptAt e) (e_node e) (e_net e).
Definition eset_frontiers (v : gmap NodeID Hash) (e : Engine) : Engine :=
  MkEngine (e_phase e) (e_fatal e) (e_bsReqID e) (e_bsVotes e) (e_bsVoters e) (e_bsHeight e) (e_lastBSAt e)
    (e_anchorID e) (e_bfChain e) (e_bfAnchor e) (e_bfLow e) (e_bfReqID e) (e_bfDue e) (e_cons e) (e_polls e)
    (e_pollVdrs e) (e_recs e) (e_pendingByPa e) (e_gets e) (e_parked e) v (e_lastPollAt e) (e_lastPref e)
    (e_pollsOK e) (e_pollsFailed e) (e_sampledOff e) (e_sampledAll e) (e_lastAcceptedID e)
    (e_lastAcceptedHeight e) (e_lastAcceptedEthHash e) (e_lastAcceptAt e) (e_node e) (e_net e).
Definition eset_lastPollAt (v : option Z) (e : Engine) : Engine :=
  MkEngine (e_phase e) (e_fatal e) (e_bsReqID e) (e_bsVotes e) (e_bsVoters e) (e_bsHeight e) (e_lastBSAt e)
    (e_anchorID e) (e_bfChain e) (e_bfAnchor e) (e_bfLow e) (e_bfReqID e) (e_bfDue e) (e_cons e) (e_polls e)
    (e_pollVdrs e) (e_recs e) (e_pendingByPa e) (e_gets e) (e_parked e) (e_frontiers e) v (e_lastPref e)
    (e_pollsOK e) (e_pollsFailed e) (e_sampledOff e) (e_sampledAll e) (e_lastAcceptedID e)
    (e_lastAcceptedHeight e) (e_lastAcceptedEthHash e) (e_lastAcceptAt e) (e_node e) (e_net e).
Definition eset_lastPref (v : Hash) (e : Engine) : Engine :=
  MkEngine (e_phase e) (e_fatal e) (e_bsReqID e) (e_bsVotes e) (e_bsVoters e) (e_bsHeight e) (e_lastBSAt e)
    (e_anchorID e) (e_bfChain e) (e_bfAnchor e) (e_bfLow e) (e_bfReqID e) (e_bfDue e) (e_cons e) (e_polls e)
    (e_pollVdrs e) (e_recs e) (e_pendingByPa e) (e_gets e) (e_parked e) (e_frontiers e) (e_lastPollAt e) v
    (e_pollsOK e) (e_pollsFailed e) (e_sampledOff e) (e_sampledAll e) (e_lastAcceptedID e)
    (e_lastAcceptedHeight e) (e_lastAcceptedEthHash e) (e_lastAcceptAt e) (e_node e) (e_net e).
Definition eset_pollsOK (v : u64) (e : Engine) : Engine :=
  MkEngine (e_phase e) (e_fatal e) (e_bsReqID e) (e_bsVotes e) (e_bsVoters e) (e_bsHeight e) (e_lastBSAt e)
    (e_anchorID e) (e_bfChain e) (e_bfAnchor e) (e_bfLow e) (e_bfReqID e) (e_bfDue e) (e_cons e) (e_polls e)
    (e_pollVdrs e) (e_recs e) (e_pendingByPa e) (e_gets e) (e_parked e) (e_frontiers e) (e_lastPollAt e)
    (e_lastPref e) v (e_pollsFailed e) (e_sampledOff e) (e_sampledAll e) (e_lastAcceptedID e)
    (e_lastAcceptedHeight e) (e_lastAcceptedEthHash e) (e_lastAcceptAt e) (e_node e) (e_net e).
Definition eset_pollsFailed (v : u64) (e : Engine) : Engine :=
  MkEngine (e_phase e) (e_fatal e) (e_bsReqID e) (e_bsVotes e) (e_bsVoters e) (e_bsHeight e) (e_lastBSAt e)
    (e_anchorID e) (e_bfChain e) (e_bfAnchor e) (e_bfLow e) (e_bfReqID e) (e_bfDue e) (e_cons e) (e_polls e)
    (e_pollVdrs e) (e_recs e) (e_pendingByPa e) (e_gets e) (e_parked e) (e_frontiers e) (e_lastPollAt e)
    (e_lastPref e) (e_pollsOK e) v (e_sampledOff e) (e_sampledAll e) (e_lastAcceptedID e)
    (e_lastAcceptedHeight e) (e_lastAcceptedEthHash e) (e_lastAcceptAt e) (e_node e) (e_net e).
Definition eset_sampledOff (v : u64) (e : Engine) : Engine :=
  MkEngine (e_phase e) (e_fatal e) (e_bsReqID e) (e_bsVotes e) (e_bsVoters e) (e_bsHeight e) (e_lastBSAt e)
    (e_anchorID e) (e_bfChain e) (e_bfAnchor e) (e_bfLow e) (e_bfReqID e) (e_bfDue e) (e_cons e) (e_polls e)
    (e_pollVdrs e) (e_recs e) (e_pendingByPa e) (e_gets e) (e_parked e) (e_frontiers e) (e_lastPollAt e)
    (e_lastPref e) (e_pollsOK e) (e_pollsFailed e) v (e_sampledAll e) (e_lastAcceptedID e)
    (e_lastAcceptedHeight e) (e_lastAcceptedEthHash e) (e_lastAcceptAt e) (e_node e) (e_net e).
Definition eset_sampledAll (v : u64) (e : Engine) : Engine :=
  MkEngine (e_phase e) (e_fatal e) (e_bsReqID e) (e_bsVotes e) (e_bsVoters e) (e_bsHeight e) (e_lastBSAt e)
    (e_anchorID e) (e_bfChain e) (e_bfAnchor e) (e_bfLow e) (e_bfReqID e) (e_bfDue e) (e_cons e) (e_polls e)
    (e_pollVdrs e) (e_recs e) (e_pendingByPa e) (e_gets e) (e_parked e) (e_frontiers e) (e_lastPollAt e)
    (e_lastPref e) (e_pollsOK e) (e_pollsFailed e) (e_sampledOff e) v (e_lastAcceptedID e)
    (e_lastAcceptedHeight e) (e_lastAcceptedEthHash e) (e_lastAcceptAt e) (e_node e) (e_net e).
Definition eset_lastAcceptedID (v : Hash) (e : Engine) : Engine :=
  MkEngine (e_phase e) (e_fatal e) (e_bsReqID e) (e_bsVotes e) (e_bsVoters e) (e_bsHeight e) (e_lastBSAt e)
    (e_anchorID e) (e_bfChain e) (e_bfAnchor e) (e_bfLow e) (e_bfReqID e) (e_bfDue e) (e_cons e) (e_polls e)
    (e_pollVdrs e) (e_recs e) (e_pendingByPa e) (e_gets e) (e_parked e) (e_frontiers e) (e_lastPollAt e)
    (e_lastPref e) (e_pollsOK e) (e_pollsFailed e) (e_sampledOff e) (e_sampledAll e) v
    (e_lastAcceptedHeight e) (e_lastAcceptedEthHash e) (e_lastAcceptAt e) (e_node e) (e_net e).
Definition eset_lastAcceptedHeight (v : u64) (e : Engine) : Engine :=
  MkEngine (e_phase e) (e_fatal e) (e_bsReqID e) (e_bsVotes e) (e_bsVoters e) (e_bsHeight e) (e_lastBSAt e)
    (e_anchorID e) (e_bfChain e) (e_bfAnchor e) (e_bfLow e) (e_bfReqID e) (e_bfDue e) (e_cons e) (e_polls e)
    (e_pollVdrs e) (e_recs e) (e_pendingByPa e) (e_gets e) (e_parked e) (e_frontiers e) (e_lastPollAt e)
    (e_lastPref e) (e_pollsOK e) (e_pollsFailed e) (e_sampledOff e) (e_sampledAll e) (e_lastAcceptedID e) v
    (e_lastAcceptedEthHash e) (e_lastAcceptAt e) (e_node e) (e_net e).
Definition eset_lastAcceptedEthHash (v : Hash) (e : Engine) : Engine :=
  MkEngine (e_phase e) (e_fatal e) (e_bsReqID e) (e_bsVotes e) (e_bsVoters e) (e_bsHeight e) (e_lastBSAt e)
    (e_anchorID e) (e_bfChain e) (e_bfAnchor e) (e_bfLow e) (e_bfReqID e) (e_bfDue e) (e_cons e) (e_polls e)
    (e_pollVdrs e) (e_recs e) (e_pendingByPa e) (e_gets e) (e_parked e) (e_frontiers e) (e_lastPollAt e)
    (e_lastPref e) (e_pollsOK e) (e_pollsFailed e) (e_sampledOff e) (e_sampledAll e) (e_lastAcceptedID e)
    (e_lastAcceptedHeight e) v (e_lastAcceptAt e) (e_node e) (e_net e).
Definition eset_lastAcceptAt (v : option Z) (e : Engine) : Engine :=
  MkEngine (e_phase e) (e_fatal e) (e_bsReqID e) (e_bsVotes e) (e_bsVoters e) (e_bsHeight e) (e_lastBSAt e)
    (e_anchorID e) (e_bfChain e) (e_bfAnchor e) (e_bfLow e) (e_bfReqID e) (e_bfDue e) (e_cons e) (e_polls e)
    (e_pollVdrs e) (e_recs e) (e_pendingByPa e) (e_gets e) (e_parked e) (e_frontiers e) (e_lastPollAt e)
    (e_lastPref e) (e_pollsOK e) (e_pollsFailed e) (e_sampledOff e) (e_sampledAll e) (e_lastAcceptedID e)
    (e_lastAcceptedHeight e) (e_lastAcceptedEthHash e) v (e_node e) (e_net e).
Definition eset_node (v : K) (e : Engine) : Engine :=
  MkEngine (e_phase e) (e_fatal e) (e_bsReqID e) (e_bsVotes e) (e_bsVoters e) (e_bsHeight e) (e_lastBSAt e)
    (e_anchorID e) (e_bfChain e) (e_bfAnchor e) (e_bfLow e) (e_bfReqID e) (e_bfDue e) (e_cons e) (e_polls e)
    (e_pollVdrs e) (e_recs e) (e_pendingByPa e) (e_gets e) (e_parked e) (e_frontiers e) (e_lastPollAt e)
    (e_lastPref e) (e_pollsOK e) (e_pollsFailed e) (e_sampledOff e) (e_sampledAll e) (e_lastAcceptedID e)
    (e_lastAcceptedHeight e) (e_lastAcceptedEthHash e) (e_lastAcceptAt e) v (e_net e).
Definition eset_net (v : N) (e : Engine) : Engine :=
  MkEngine (e_phase e) (e_fatal e) (e_bsReqID e) (e_bsVotes e) (e_bsVoters e) (e_bsHeight e) (e_lastBSAt e)
    (e_anchorID e) (e_bfChain e) (e_bfAnchor e) (e_bfLow e) (e_bfReqID e) (e_bfDue e) (e_cons e) (e_polls e)
    (e_pollVdrs e) (e_recs e) (e_pendingByPa e) (e_gets e) (e_parked e) (e_frontiers e) (e_lastPollAt e)
    (e_lastPref e) (e_pollsOK e) (e_pollsFailed e) (e_sampledOff e) (e_sampledAll e) (e_lastAcceptedID e)
    (e_lastAcceptedHeight e) (e_lastAcceptedEthHash e) (e_lastAcceptAt e) (e_node e) v.
End state.
Arguments Engine : clear implicits.
