(* ===== verification/Consensus.v ===== *)
(** * Consensus: the handlers of the consensus engine

    Models the functions of [follower/consensus/consensus.go] over the state and
    the interfaces of [ConsensusState]: the bootstrap (an anchor from a poll of the
    validators, the backfill of the gap below it and its execution) and live
    operation (containers, votes, polls and the decisions of the consensus
    object), and the header-only executor of [headeronly.go].  Logging is left
    out. *)

From S2P Require Import Prelude Schema Capture Exec Node ConsensusState.

(** [ids.Empty] *)
Definition ids_Empty : Hash := arr_zero.

(** [now.Sub(t) >= d]; a zero time lies further back than any duration. *)
Definition since (now : Z) (t : option Z) (d : Z) : bool :=
  match t with None => true | Some t => (d <=? now - t)%Z end.

(** [m[k]++] on a counter map *)
Definition bump_count (m : gmap Hash Z) (k : Hash) : gmap Hash Z := <[k:=(default 0 (m !! k) + 1)%Z]> m.

(** [votes.Mode()]: the multiplicity of the most frequent element *)
Definition bag_count (votes : list Hash) (x : Hash) : Z := Z.of_nat (length (filter (λ y, y = x) votes)).
Definition mode_count (votes : list Hash) : Z := foldr (λ x n, Z.max (bag_count votes x) n) 0%Z votes.

(** [HeaderOnly]: empty batches *)
Definition HeaderOnly_Execute {Body} (parent : Hash) (blk : EthBlock Body) : result Batch :=
  Ok (MkBatch (eb_Number blk) (eb_Hash blk) parent (wrap (eb_Time blk * 1000)) []).

(** What reaches the engine. *)
Inductive event :=
| EvContainer (nodeID : NodeID) (raw : bytes)
| EvChits (nodeID : NodeID) (requestID : u32) (preferred preferredAtHeight accepted : Hash) (height : u64)
| EvAncestors (nodeID : NodeID) (requestID : u32) (containers : list bytes)
| EvTick (fuel : nat).

Section engine.
Context {T P K N Body : Type}.
Context `{Consensus T Body, PollSet P T, EngineSink K, Executor K Body, Net N}.
Context (cfg : Config).
Context (proposer : bytes → option (Hash * Hash * bytes)) (rlp_block : bytes → option (EthBlock Body)).

Abbreviation Engine := (Engine T P K N Body).
Implicit Types (e : Engine) (c : Container Body).

Definition AlphaPreference : Z := pa_AlphaPreference (cf_Params cfg).

(** The first error is kept. *)
Definition fail e (err : error) : Engine :=
  match e_fatal e with None => eset_fatal (Some err) e | Some _ => e end.

(** Calls on the network and the clock. *)
Definition time_now e : Z * Engine := let '(t, n) := nt_Now (e_net e) in (t, eset_net n e).
Definition NextRequestID e : u32 * Engine := let '(r, n) := nt_NextRequestID (e_net e) in (r, eset_net n e).
Definition SampleValidators e : result (list NodeID) * Engine :=
  let '(r, n) := nt_SampleValidators (e_net e) (pa_K (cf_Params cfg)) in (r, eset_net n e).
Definition SelectPeer e : option NodeID * Engine := let '(r, n) := nt_SelectPeer (e_net e) in (r, eset_net n e).
Definition SendGet e (peer : NodeID) (req : u32) (id : Hash) : Engine :=
  eset_net (nt_SendGet (e_net e) peer req id).2 e.
Definition SendGetAncestors e (peer : NodeID) (req : u32) (id : Hash) : Engine :=
  eset_net (nt_SendGetAncestors (e_net e) peer req id).2 e.
Definition SendPullQuery e (targets : gset NodeID) (req : u32) (id : Hash) (height : u64) : Engine :=
  eset_net (nt_SendPullQuery (e_net e) targets req id height).2 e.

(** [range] over the keys of a map. *)
Definition range_over {A} (l : list A) e : list A * Engine :=
  let '(order, n) := nt_Range (e_net e) (length l) in (omap (l !!.) order, eset_net n e).

(** The sampled validators that are connected, and the others. *)
Fixpoint split_connected (vdrs : list NodeID) e : gset NodeID * list NodeID * Engine :=
  match vdrs with
  | [] => (∅, [], e)
  | v :: vdrs' =>
      let '(b, n) := nt_IsConnected (e_net e) v in
      let '(targets, off, e) := split_connected vdrs' (eset_net n e) in
      if (b : bool) then ({[v]} ∪ targets, off, e) else (targets, v :: off, e)
  end.

(** ** Fetching *)

Definition fetchIfUnknown e (id : Hash) : Engine :=
  if bool_decide (id = ids_Empty) || bool_decide (id = e_lastAcceptedID e) then e
  else if bool_decide (is_Some (e_recs e !! id)) then e
  else
    let '(fresh, e) :=
      match e_gets e !! id with
      | Some g => let '(now, e) := time_now e in ((now <? g_deadline g)%Z, e)
      | None => (false, e)
      end in
    if (fresh : bool) then e
    else
      let '(peer, e) := SelectPeer e in
      match peer with
      | None => e
      | Some peer =>
          let tries := match e_gets e !! id with Some g => g_tries g | None => 0%Z end in
          let '(now, e) := time_now e in
          let e := eset_gets (<[id:=MkGetReq (now + 2500 * millisecond) (tries + 1)]> (e_gets e)) e in
          let '(req, e) := NextRequestID e in
          SendGet e peer req id
      end.

(** ** Decisions *)

Definition onAccept e c : result unit * Engine :=
  let h := eb_Number (c_Eth c) in
  let hash := eb_Hash (c_Eth c) in
  let e := eset_lastAcceptedID (c_ID c) e in
  let e := eset_lastAcceptedHeight h e in
  let e := eset_lastAcceptedEthHash hash e in
  let '(now, e) := time_now e in
  let e := eset_lastAcceptAt (Some now) e in
  let e := eset_recs (delete (c_ID c) (e_recs e)) e in
  let e := eset_recs
    (filter (λ kv, ¬ (r_issued kv.2 = false ∧ (eb_Number (c_Eth (r_c kv.2)) ≤ h)%Z)) (e_recs e)) e in
  let '(r, k) := es_Accepted (e_node e) h hash in
  (r, eset_node k e).

Definition onReject e c : Engine :=
  let e := eset_recs (delete (c_ID c) (e_recs e)) e in
  eset_pendingByPa (delete (c_ID c) (e_pendingByPa e)) e.

(** The callbacks of one call, until one fails. *)
Fixpoint run_decisions e (ds : list (decision Body)) : option error * Engine :=
  match ds with
  | [] => (None, e)
  | DAccept c :: ds' =>
      match onAccept e c with
      | (Ok _, e) => run_decisions e ds'
      | (Err er, e) => (Some er, e)
      end
  | DReject c :: ds' => run_decisions (onReject e c) ds'
  end.

(** A call on the consensus object with its callbacks. *)
Definition call_cons e (r : list (decision Body) * T * option error) : option error * Engine :=
  let '(ds, t, err) := r in
  match run_decisions e ds with
  | (Some er, e) => (Some er, eset_cons (cs_stopped (e_cons e) ds) e)
  | (None, e) => (err, eset_cons t e)
  end.

Definition emitHead e : Engine :=
  let pref := cs_Preference (e_cons e) in
  let h :=
    if bool_decide (pref = e_lastAcceptedID e) then Some (e_lastAcceptedEthHash e)
    else match e_recs e !! pref with Some r => Some (r_ethHash r) | None => None end in
  match h with
  | None => e
  | Some h =>
      if bool_decide (h = e_lastPref e) then e
      else
        let e := eset_lastPref h e in
        let '(r, k) := es_Head (e_node e) h in
        let e := eset_node k e in
        match r with Ok _ => e | Err er => fail e er end
  end.

(** The loop of [recordPolls]: whether it ran to its end. *)
Fixpoint record_loop e (results : list (list Hash)) : bool * Engine :=
  match results with
  | [] => (true, e)
  | votes :: results' =>
      let e :=
        if (AlphaPreference <=? mode_count votes)%Z
        then eset_pollsOK (u_add (e_pollsOK e) (u64_lit 1)) e
        else eset_pollsFailed (u_add (e_pollsFailed e) (u64_lit 1)) e in
      match call_cons e (cs_RecordPoll (e_cons e) votes) with
      | (Some er, e) => (false, fail e er)
      | (None, e) => record_loop e results'
      end
  end.

Definition recordPolls e (results : list (list Hash)) : Engine :=
  let '(ok, e) := record_loop e results in
  if (ok : bool) && (0 <? length results) then emitHead e else e.

(** ** Votes *)

(** [bubble]: the vote, or the blocker ([None] for a stale fork). *)
Inductive bubbled :=
| Bubbled (vote : Hash)
| Blocked (blocker : Hash).

Fixpoint bubble (fuel : nat) e (id : Hash) : option bubbled :=
  match fuel with
  | O => None
  | S fuel' =>
      if bool_decide (id = e_lastAcceptedID e) || cs_Processing (e_cons e) id then Some (Bubbled id)
      else
        match e_recs e !! id with
        | None => Some (Blocked id)
        | Some r =>
            if (eb_Number (c_Eth (r_c r)) <=? e_lastAcceptedHeight e)%Z then Some (Blocked ids_Empty)
            else bubble fuel' e (c_ParentID (r_c r))
        end
  end.

(** The walk passes each known container at most once; [None] is a walk that
    goes round in circles, which the code would never leave. *)
Definition bubble_vote e (id : Hash) : option bubbled := bubble (S (size (e_recs e))) e id.

Definition Vote e (req : u32) (node : NodeID) (vote : Hash) : Engine :=
  let '(results, p) := pl_Vote (e_cons e) (e_polls e) req node vote in
  recordPolls (eset_polls p e) results.
Definition Drop e (req : u32) (node : NodeID) : Engine :=
  let '(results, p) := pl_Drop (e_cons e) (e_polls e) req node in
  recordPolls (eset_polls p e) results.

(** Behind the loop over the options: the peer's frontier votes for it, else
    the vote is dropped. *)
Definition fallback_vote e (v : parkedVote) : Engine :=
  match e_frontiers e !! pv_nodeID v with
  | Some fid =>
      match bubble_vote e fid with
      | Some (Bubbled vote) => Vote e (pv_requestID v) (pv_nodeID v) vote
      | Some (Blocked _) => Drop e (pv_requestID v) (pv_nodeID v)
      | None => fail e (ErrMsg "fuel")
      end
  | None => Drop e (pv_requestID v) (pv_nodeID v)
  end.

(** The loop over the options; [first] is [i == 0]. *)
Fixpoint vote_loop e (v : parkedVote) (allowPark first : bool) (options : list Hash) : Engine :=
  match options with
  | [] => fallback_vote e v
  | opt :: options' =>
      match bubble_vote e opt with
      | None => fail e (ErrMsg "fuel")
      | Some (Bubbled vote) => Vote e (pv_requestID v) (pv_nodeID v) vote
      | Some (Blocked blocker) =>
          if allowPark && first && bool_decide (blocker ≠ ids_Empty) then
            let e := fetchIfUnknown e blocker in
            eset_parked (<[blocker:=default [] (e_parked e !! blocker) ++ [v]]> (e_parked e)) e
          else vote_loop e v allowPark false options'
      end
  end.

Definition applyVote e (v : parkedVote) (allowPark : bool) : Engine :=
  vote_loop e v allowPark true (pv_options v).

(** [applyVote] of each in turn *)
Definition applyVotes e (vs : list parkedVote) : Engine := foldl (λ e v, applyVote e v false) e vs.

(** ** Containers *)

(** [tryIssue] from the execution to the mark; whether it got there. *)
Definition issue e (r : rec Body) (parentEthHash : Hash) : bool * Engine :=
  let c := r_c r in
  let '(res, x) := ex_Execute (e_node e) parentEthHash (c_Eth c) in
  let e := eset_node x e in
  match res with
  | Err er => (false, fail e er)
  | Ok batch =>
      let e := eset_node (es_Verified (e_node e) batch) e in
      match call_cons e (cs_Add (e_cons e) c) with
      | (Some er, e) => (false, fail e er)
      | (None, e) => (true, eset_recs (alter (λ r, MkRec (r_c r) (r_ethHash r) true) (c_ID c) (e_recs e)) e)
      end
  end.

(** The parent's hash and height, once it is accepted or issued. *)
Definition issued_parent e (parentID : Hash) : option (Hash * u64) :=
  if bool_decide (parentID = e_lastAcceptedID e)
  then Some (e_lastAcceptedEthHash e, e_lastAcceptedHeight e)
  else match e_recs e !! parentID with
       | Some pr => if r_issued pr then Some (r_ethHash pr, eb_Number (c_Eth (r_c pr))) else None
       | None => None
       end.

(** [tryIssue]; [fuel] bounds the depth of the chain of waiting children. *)
Fixpoint tryIssue (fuel : nat) e (r : rec Body) : Engine :=
  match fuel with
  | O => fail e (ErrMsg "fuel")
  | S fuel' =>
      if r_issued r then e
      else
        let c := r_c r in
        let parentID := c_ParentID c in
        match issued_parent e parentID with
        | None =>
            let e := if bool_decide (e_recs e !! parentID = None) then fetchIfUnknown e parentID else e in
            eset_pendingByPa
              (<[parentID:=default [] (e_pendingByPa e !! parentID) ++ [c_ID c]]> (e_pendingByPa e)) e
        | Some (parentEthHash, parentHeight) =>
            if bool_decide (eb_ParentHash (c_Eth c) ≠ parentEthHash) ||
               bool_decide (eb_Number (c_Eth c) ≠ u_add parentHeight (u64_lit 1))
            then eset_recs (delete (c_ID c) (e_recs e)) e
            else
              match issue e r parentEthHash with
              | (false, e) => e
              | (true, e) =>
                  let e := emitHead e in
                  let children := default [] (e_pendingByPa e !! c_ID c) in
                  let e := eset_pendingByPa (delete (c_ID c) (e_pendingByPa e)) e in
                  foldl (λ e childID,
                    match e_recs e !! childID with Some cr => tryIssue fuel' e cr | None => e end)
                    e children
              end
        end
  end.

Definition addContainer e c : Engine :=
  if bool_decide (is_Some (e_recs e !! c_ID c)) then e
  else if bool_decide (c_ID c = e_lastAcceptedID e) || (eb_Number (c_Eth c) <=? e_lastAcceptedHeight e)%Z then e
  else
    let r := MkRec c (eb_Hash (c_Eth c)) false in
    let e := eset_recs (<[c_ID c:=r]> (e_recs e)) e in
    let e := tryIssue (S (size (e_recs e))) e r in
    match e_parked e !! c_ID c with
    | Some votes => applyVotes (eset_parked (delete (c_ID c) (e_parked e)) e) votes
    | None => e
    end.

(** ** Polls *)

Definition no_options (req : u32) (v : NodeID) : parkedVote := MkParkedVote req v [] 0.

(** The unique elements of the sample, in the order of a map. *)
Definition bag_list (vdrs : list NodeID) e : list NodeID * Engine := range_over (remove_dups vdrs) e.

Definition sendPoll e : bool * Engine :=
  let '(vdrs, e) := SampleValidators e in
  match vdrs with
  | Err _ | Ok [] => (false, e)
  | Ok vdrs =>
      let '(reqID, e) := NextRequestID e in
      match pl_Add (e_polls e) reqID vdrs with
      | None => (false, e)
      | Some p =>
          let e := eset_polls p e in
          let '(now, e) := time_now e in
          let e := eset_lastPollAt (Some now) e in
          let '(vs, e) := bag_list vdrs e in
          let '(targets, disconnected, e) := split_connected vs e in
          let e := eset_sampledAll (u_add (e_sampledAll e) (wrap (Z.of_nat (length vdrs)))) e in
          let e := eset_sampledOff (u_add (e_sampledOff e) (wrap (Z.of_nat (length disconnected)))) e in
          let '(now, e) := time_now e in
          let ps := MkPollState targets (now + cf_PollTimeout cfg) in
          let e :=
            if (0 <? size targets) then
              SendPullQuery (eset_pollVdrs (<[reqID:=ps]> (e_pollVdrs e)) e) targets reqID
                (cs_Preference (e_cons e)) (u_add (e_lastAcceptedHeight e) (u64_lit 1))
            else e in
          (true, applyVotes e (no_options reqID <$> disconnected))
      end
  end.

(** The votes parked on one container. *)
Definition expire_one (now : Z) e (id : Hash) (votes : list parkedVote) : Engine :=
  let expired := filter (λ v, (pv_deadline v < now)%Z) votes in
  let kept := filter (λ v, ¬ (pv_deadline v < now)%Z) votes in
  let e := applyVotes e ((λ v, MkParkedVote (pv_requestID v) (pv_nodeID v) [] (pv_deadline v)) <$> expired) in
  eset_parked (if decide (kept = []) then delete id (e_parked e) else <[id:=kept]> (e_parked e)) e.

Definition expireParked e (now : Z) : Engine :=
  let '(entries, e) := range_over (map_to_list (e_parked e)) e in
  foldl (λ e kv, expire_one now e kv.1 kv.2) e entries.

Definition expire_poll (now : Z) e (reqID : u32) (ps : pollState) : Engine :=
  if (now <? ps_deadline ps)%Z then e
  else
    let e := eset_pollVdrs (delete reqID (e_pollVdrs e)) e in
    let '(vs, e) := range_over (elements (ps_remaining ps)) e in
    applyVotes e (no_options reqID <$> vs).

Definition expirePolls e (now : Z) : Engine :=
  let '(entries, e) := range_over (map_to_list (e_pollVdrs e)) e in
  foldl (λ e kv, expire_poll now e kv.1 kv.2) e entries.

Definition retry_get (now : Z) e (id : Hash) (g : getReq) : Engine :=
  if (now <? g_deadline g)%Z then e
  else if (10 <=? g_tries g)%Z then eset_gets (delete id (e_gets e)) e
  else fetchIfUnknown e id.

Definition retryGets e (now : Z) : Engine :=
  let '(entries, e) := range_over (map_to_list (e_gets e)) e in
  foldl (λ e kv, retry_get now e kv.1 kv.2) e entries.

(** ** Bootstrap *)

Definition sendBackfillRequest e : Engine :=
  let '(peer, e) := SelectPeer e in
  match peer with
  | None => e
  | Some peer =>
      let '(req, e) := NextRequestID e in
      let e := eset_bfReqID req e in
      let '(now, e) := time_now e in
      let e := eset_bfDue (Some (now + RequestTimeout)%Z) e in
      match e_bfLow e with
      | None => SendGet e peer req (e_anchorID e)
      | Some low => SendGetAncestors e peer req (c_ParentID low)
      end
  end.

Definition sendBootstrapPoll e : Engine :=
  let '(vdrs, e) := SampleValidators e in
  match vdrs with
  | Err _ | Ok [] => e
  | Ok vdrs =>
      let '(req, e) := NextRequestID e in
      let e := eset_bsReqID req e in
      let e := eset_bsVotes ∅ e in
      let e := eset_bsHeight ∅ e in
      let e := eset_bsVoters ∅ e in
      let '(targets, _, e) := split_connected vdrs e in
      if Nat.eqb (size targets) 0 then e
      else
        let '(now, e) := time_now e in
        SendPullQuery (eset_lastBSAt (Some now) e) targets req ids_Empty (u64_lit 0)
  end.

Definition bootstrapChit e (nodeID : NodeID) (requestID : u32) (accepted : Hash) (acceptedHeight : u64) :
    Engine :=
  if bool_decide (requestID ≠ e_bsReqID e) || bool_decide (nodeID ∈ e_bsVoters e) then e
  else
    let e := eset_bsVoters ({[nodeID]} ∪ e_bsVoters e) e in
    let e := eset_bsVotes (bump_count (e_bsVotes e) accepted) e in
    let e := eset_bsHeight (<[accepted:=acceptedHeight]> (e_bsHeight e)) e in
    if (default 0%Z (e_bsVotes e !! accepted) <? AlphaPreference)%Z then e
    else
      let e := eset_anchorID accepted e in
      let e := eset_phase phaseBackfill e in
      sendBackfillRequest (eset_bfChain ∅ e).

Definition backfillTarget e : u64 :=
  match cf_Resume cfg with
  | None => match e_bfAnchor e with Some c => eb_Number (c_Eth c) | None => u_zero end
  | Some r =>
      if negb (cf_Seed cfg) || (an_Height r <? cf_HeaderBackfill cfg)%Z then an_Height r
      else u_sub (an_Height r) (cf_HeaderBackfill cfg)
  end.

(** Execute the gap forward; [fuel] bounds the containers of the chain. *)
Fixpoint gap_loop (fuel : nat) e (h : u64) (parentHash : Hash) : bool * Engine :=
  match fuel with
  | O => (false, fail e (ErrMsg "fuel"))
  | S fuel' =>
      match e_bfChain e !! h with
      | None => (true, e)
      | Some c =>
          let '(res, x) := ex_Execute (e_node e) parentHash (c_Eth c) in
          let e := eset_node x e in
          match res with
          | Err er => (false, fail e er)
          | Ok batch =>
              let '(r, k) := es_Accepted (es_Verified (e_node e) batch) h (BHash batch) in
              let e := eset_node k e in
              match r with
              | Err er => (false, fail e er)
              | Ok _ => gap_loop fuel' e (u_add h (u64_lit 1)) (BHash batch)
              end
          end
      end
  end.

(** Where the sink starts: the lowest container, or the resume point after its
    hash was checked. *)
Definition start_point e (start : Container Body) : result (u64 * Hash) :=
  match cf_Resume cfg with
  | None => Ok (eb_Number (c_Eth start), eb_Hash (c_Eth start))
  | Some r =>
      match e_bfChain e !! an_Height r with
      | None => Err (ErrMsg "consensus")
      | Some rc =>
          let startHash := eb_Hash (c_Eth rc) in
          match an_EthHash r with
          | Some want => if bool_decide (startHash ≠ want) then Err (ErrMsg "consensus")
                         else Ok (an_Height r, startHash)
          | None => Ok (an_Height r, startHash)
          end
      end
  end.

(** The headers of the chain from [lo] up to [hi]. *)
Definition chain_headers (chain : gmap u64 (Container Body)) (lo hi : u64) : list Header :=
  (λ c, eb_Header (c_Eth c)) <$> omap (λ h, chain !! (wrap h : u64)) (seqZ lo (hi - lo + 1)).

(** [finishBootstrap] behind the execution of the gap. *)
Definition go_live e (anchor : Container Body) : Engine :=
  let anchorHeight := eb_Number (c_Eth anchor) in
  let e := eset_lastAcceptedID (c_ID anchor) e in
  let e := eset_lastAcceptedHeight anchorHeight e in
  let e := eset_lastAcceptedEthHash (eb_Hash (c_Eth anchor)) e in
  let e := eset_lastPref (e_lastAcceptedEthHash e) e in
  let '(now, e) := time_now e in
  let e := eset_lastAcceptAt (Some now) e in
  match cs_Initialize (cf_Params cfg) (c_ID anchor) anchorHeight (eb_Time (c_Eth anchor)) with
  | Err er => fail e er
  | Ok t =>
      match pl_New (cf_Params cfg) t with
      | Err er => fail e er
      | Ok p =>
          let e := eset_cons t e in
          let e := eset_polls p e in
          let e := eset_bfChain ∅ e in
          let e := eset_bfAnchor None e in
          let e := eset_bfLow None e in
          let e := eset_phase phaseLive e in
          (sendPoll e).2
      end
  end.

Definition finishBootstrap e (anchor start : Container Body) : Engine :=
  match start_point e start with
  | Err er => fail e er
  | Ok (startHeight, startHash) =>
      let e :=
        if cf_Seed cfg
        then eset_node (ex_SeedHeaders (e_node e)
               (chain_headers (e_bfChain e) (eb_Number (c_Eth start)) startHeight)) e
        else e in
      let '(r, k) := es_Make (e_node e) startHeight startHash in
      let e := eset_node k e in
      match r with
      | Err er => fail e er
      | Ok _ =>
          match gap_loop (S (size (e_bfChain e))) e (u_add startHeight (u64_lit 1)) startHash with
          | (false, e) => e
          | (true, e) => go_live e anchor
          end
      end
  end.

Definition backfillContainer e c : Engine :=
  let h := eb_Number (c_Eth c) in
  let next :=
    match e_bfLow e with
    | None => bool_decide (c_ID c = e_anchorID e)
    | Some low =>
        bool_decide (h = u_sub (eb_Number (c_Eth low)) (u64_lit 1)) &&
        bool_decide (eb_Hash (c_Eth c) = eb_ParentHash (c_Eth low)) &&
        bool_decide (c_ID c = c_ParentID low)
    end in
  if negb next then e
  else
    let e := eset_bfChain (<[h:=c]> (e_bfChain e)) e in
    let anchor := default c (e_bfAnchor e) in
    let e := eset_bfAnchor (Some anchor) e in
    let e := eset_bfLow (Some c) e in
    if bool_decide (h = backfillTarget e) || bool_decide (uval h = 0%Z) then finishBootstrap e anchor c
    else e.

(** ** Entry points *)

Definition OnContainer e (nodeID : NodeID) (raw : bytes) : Engine :=
  match ParseContainer proposer rlp_block raw with
  | Err _ => e
  | Ok c =>
      let e := eset_gets (delete (c_ID c) (e_gets e)) e in
      match e_phase e with
      | phaseBackfill =>
          let e := backfillContainer e c in
          if bool_decide (e_phase e = phaseBackfill) then sendBackfillRequest e else e
      | phaseLive => addContainer e c
      | phasePollAnchor => e
      end
  end.

Definition OnChits e (nodeID : NodeID) (requestID : u32) (preferred preferredAtHeight accepted : Hash)
    (acceptedHeight : u64) : Engine :=
  match e_phase e with
  | phasePollAnchor => bootstrapChit e nodeID requestID accepted acceptedHeight
  | phaseBackfill => e
  | phaseLive =>
      let e := eset_frontiers (<[nodeID:=accepted]> (e_frontiers e)) e in
      match e_pollVdrs e !! requestID with
      | None => e
      | Some ps =>
          if negb (bool_decide (nodeID ∈ ps_remaining ps)) then e
          else
            let remaining := ps_remaining ps ∖ {[nodeID]} in
            let e := eset_pollVdrs
              (if Nat.eqb (size remaining) 0 then delete requestID (e_pollVdrs e)
               else <[requestID:=MkPollState remaining (ps_deadline ps)]> (e_pollVdrs e)) e in
            let e := fetchIfUnknown e preferred in
            let e := if bool_decide (preferredAtHeight ≠ preferred) then fetchIfUnknown e preferredAtHeight
                     else e in
            let '(now, e) := time_now e in
            applyVote e (MkParkedVote requestID nodeID [preferred; preferredAtHeight] (now + RequestTimeout))
              true
      end
  end.

(** The loop of [OnAncestors]; whether it ran to its end. *)
Fixpoint ancestors_loop e (containers : list bytes) : bool * Engine :=
  match containers with
  | [] => (true, e)
  | raw :: containers' =>
      match ParseContainer proposer rlp_block raw with
      | Err _ => (false, e)
      | Ok c =>
          let e := backfillContainer e c in
          if bool_decide (e_phase e ≠ phaseBackfill) then (false, e) else ancestors_loop e containers'
      end
  end.

Definition OnAncestors e (nodeID : NodeID) (requestID : u32) (containers : list bytes) : Engine :=
  if bool_decide (e_phase e ≠ phaseBackfill) || bool_decide (requestID ≠ e_bfReqID e) then e
  else
    let e := eset_bfReqID (u32_lit 0) e in
    let '(ok, e) := ancestors_loop e containers in
    if (ok : bool) then sendBackfillRequest e else e.

(** The poll loop of [Tick]; [fuel] bounds the polls of one tick. *)
Fixpoint poll_loop (fuel : nat) e (now : Z) : Engine :=
  match fuel with
  | O => fail e (ErrMsg "fuel")
  | S fuel' =>
      if (pl_Len (e_polls e) <? pa_ConcurrentRepolls (cf_Params cfg))%Z &&
         since now (e_lastPollAt e) (cf_PollInterval cfg)
      then
        let '(sent, e) := sendPoll e in
        if (sent : bool) then poll_loop fuel' e now else e
      else e
  end.

Definition Tick (fuel : nat) e : Engine :=
  let '(now, e) := time_now e in
  match e_phase e with
  | phasePollAnchor => if since now (e_lastBSAt e) (2 * second) then sendBootstrapPoll e else e
  | phaseBackfill =>
      if bool_decide (uval (e_bfReqID e) = 0%Z) || match e_bfDue e with None => true | Some due => (due <? now)%Z end
      then sendBackfillRequest e else e
  | phaseLive =>
      let e := expirePolls e now in
      let e := expireParked e now in
      let e := retryGets e now in
      let e :=
        if (0 <? cs_NumProcessing (e_cons e))%Z then poll_loop fuel e now
        else if since now (e_lastPollAt e) (cf_IdlePollInterval cfg) then (sendPoll e).2 else e in
      match e_lastAcceptAt e with
      | Some t => if (30 * second <? now - t)%Z then eset_lastAcceptAt (Some now) e else e
      | None => e
      end
  end.

(** [LastAccepted] *)
Definition LastAccepted e : u64 * Hash := (e_lastAcceptedHeight e, e_lastAcceptedEthHash e).

(** One event, and a sequence of them: every entry point holds the lock. *)
Definition handle e (ev : event) : Engine :=
  match ev with
  | EvContainer node raw => OnContainer e node raw
  | EvChits node req pref prefAt acc h => OnChits e node req pref prefAt acc h
  | EvAncestors node req containers => OnAncestors e node req containers
  | EvTick fuel => Tick fuel e
  end.

Definition run e (evs : list event) : Engine := foldl handle e evs.
End engine.

(** ** [New] *)

(** The configuration as given (zero parameters and durations are absent), and
    the defaults [New] fills in. *)
Record UserConfig := MkUserConfig {
  uc_Resume : option Anchor;
  uc_Seed : bool;
  uc_HeaderBackfill : u64;
  uc_Params : option Parameters;
  uc_PollInterval : Z;
  uc_IdlePollInterval : Z;
  uc_PollTimeout : Z
}.

Section new.
Context {T P K N Body : Type}.
(** [snowball.DefaultParameters] and [Parameters.Verify]; nil for the objects *)
Context (DefaultParameters : Parameters) (verify : Parameters → option error).
Context (cs_nil : T) (pl_nil : P).

Definition fill_config (u : UserConfig) : Config :=
  MkConfig (uc_Resume u) (uc_Seed u)
    (if uc_Seed u && bool_decide (uval (uc_HeaderBackfill u) = 0%Z) then u64_lit 256 else uc_HeaderBackfill u)
    (match uc_Params u with
     | Some p => p
     | None => MkParameters (pa_K DefaultParameters) (pa_AlphaPreference DefaultParameters)
                 (pa_AlphaConfidence DefaultParameters) 16
     end)
    (if (uc_PollInterval u <=? 0)%Z then (100 * millisecond)%Z else uc_PollInterval u)
    (if (uc_IdlePollInterval u <=? 0)%Z then second else uc_IdlePollInterval u)
    (if (uc_PollTimeout u <=? 0)%Z then RequestTimeout else uc_PollTimeout u).

Definition New (u : UserConfig) (k : K) (n : N) : result (Config * Engine T P K N Body) :=
  let cfg := fill_config u in
  match verify (cf_Params cfg) with
  | Some er => Err er
  | None =>
      Ok (cfg, MkEngine phasePollAnchor None u_zero ∅ ∅ ∅ None arr_zero ∅ None None u_zero None
        cs_nil pl_nil ∅ ∅ ∅ ∅ ∅ ∅ None arr_zero u_zero u_zero u_zero u_zero arr_zero u_zero arr_zero None k n)
  end.
End new.
