(* ===== verification/ConsensusInv.v ===== *)
(** * ConsensusInv: what the engine keeps while it is live

    The promises of the consensus object and the executor the engine builds on
    ([ConsensusLaws], [ExecutorLaws]); the containers it has received ([parsed]); the
    log of the calls on the sink ([Logged]) and what a good one is ([follows]); the invariant
    of the live engine ([LInv]) and its preservation by every handler, up to a
    fatal error ([goes]). *)

From S2P Require Import Prelude Schema Capture Exec Node ConsensusState Consensus.

(** ** Interfaces *)

(** Decisions over the processing blocks and the last accepted one: a block is
    accepted on top of the last accepted one, and decided once. *)
Fixpoint decides {Body} (bl : gmap Hash (Container Body)) (last : Hash) (ds : list (decision Body))
    (bl' : gmap Hash (Container Body)) (last' : Hash) : Prop :=
  match ds with
  | [] => bl' = bl ∧ last' = last
  | DAccept c :: ds' =>
      bl !! c_ID c = Some c ∧ c_ParentID c = last ∧ decides (delete (c_ID c) bl) (c_ID c) ds' bl' last'
  | DReject c :: ds' => bl !! c_ID c = Some c ∧ decides (delete (c_ID c) bl) last ds' bl' last'
  end.

(** What the engine relies on of [snowman.Topological], as long as it is used
    as intended ([cs_wf]): the processing blocks are a tree over the last accepted
    one, the preference is in it, and decisions follow it. *)
Class ConsensusLaws (T Body : Type) `{Consensus T Body} := {
  cs_blocks : T → gmap Hash (Container Body);
  cs_last : T → Hash;
  cs_wf : T → Prop;
  cs_Initialize_law p id h tm t :
    cs_Initialize p id h tm = Ok t → cs_wf t ∧ cs_blocks t = ∅ ∧ cs_last t = id;
  cs_tree_law t id c :
    cs_wf t → cs_blocks t !! id = Some c → c_ParentID c = cs_last t ∨ is_Some (cs_blocks t !! c_ParentID c);
  cs_Processing_law t id : cs_Processing t id = bool_decide (is_Some (cs_blocks t !! id));
  cs_Preference_law t :
    cs_wf t → cs_Preference t = cs_last t ∨ is_Some (cs_blocks t !! cs_Preference t);
  cs_Add_law t c ds t' err :
    cs_wf t → cs_Add t c = (ds, t', err) →
    (ds = [] ∨ ds = [DReject c]) ∧
    (err = None → cs_wf t' ∧ cs_last t' = cs_last t ∧
      (ds = [] ∧ cs_blocks t' = <[c_ID c:=c]> (cs_blocks t) ∨
       ds = [DReject c] ∧ cs_blocks t' = cs_blocks t ∧ cs_blocks t !! c_ID c = None));
  cs_RecordPoll_law t votes ds t' err :
    cs_wf t → cs_RecordPoll t votes = (ds, t', err) →
    ∃ bl' last', decides (cs_blocks t) (cs_last t) ds bl' last' ∧
      (err = None → cs_wf t' ∧ cs_blocks t' = bl' ∧ cs_last t' = last')
}.

(** A batch is of the block it was executed from. *)
Class ExecutorLaws (K Body : Type) `{Executor K Body} := {
  ex_Execute_law k parent (blk : EthBlock Body) b k' :
    ex_Execute k parent blk = (Ok b, k') →
    Block b = eb_Number blk ∧ BHash b = eb_Hash blk ∧ Parent b = parent
}.

(** ** Received containers *)

(** The raw containers that reach the engine in a run. *)
Definition received (evs : list event) : list bytes :=
  evs ≫= λ ev, match ev with EvContainer _ raw => [raw] | EvAncestors _ _ raws => raws | _ => [] end.

(** A height that follows another one and is not the first. *)
Lemma u64_succ (x y : u64) : y = u_add x (u64_lit 1) → uval y ≠ 0%Z → uval y = (x + 1)%Z.
Proof.
  intros ->. pose proof (uint_range x) as Hx. unfold u_add. change (uval (u64_lit 1)) with 1%Z.
  destruct (decide (uval x = 2 ^ 64 - 1)%Z) as [->|]; [by intros []|]. intros _. apply wrap_small. lia.
Qed.

(** ** The log of the sink *)

Inductive sink_event :=
| SMake (height : u64) (hash : Hash)
| SVerified (b : Batch)
| SHead (hash : Hash)
| SAccepted (block : u64) (hash : Hash).

(** A sink beside the list of the calls made on it. *)
#[export] Instance Logged {K} `{EngineSink K} : EngineSink (K * list sink_event) := {|
  es_Make kl h hash := let '(r, k) := es_Make kl.1 h hash in (r, (k, kl.2 ++ [SMake h hash]));
  es_Verified kl b := (es_Verified kl.1 b, kl.2 ++ [SVerified b]);
  es_Head kl hash := let '(r, k) := es_Head kl.1 hash in (r, (k, kl.2 ++ [SHead hash]));
  es_Accepted kl h hash := let '(r, k) := es_Accepted kl.1 h hash in (r, (k, kl.2 ++ [SAccepted h hash]))
|}.

#[export] Instance Logged_exec {K Body} `{Executor K Body} : Executor (K * list sink_event) Body := {|
  ex_Execute kl parent blk := let '(r, k) := ex_Execute kl.1 parent blk in (r, (k, kl.2));
  ex_SeedHeaders kl hs := (ex_SeedHeaders kl.1 hs, kl.2)
|}.

(** Batches that extend a block, each the next one, up to the block [x] of
    height [n]. *)
Fixpoint extends (h : u64) (hash : Hash) (bs : list Batch) (n : u64) (x : Hash) : Prop :=
  match bs with
  | [] => n = h ∧ x = hash
  | b :: bs' => Block b = u_add h (u64_lit 1) ∧ Parent b = hash ∧ extends (Block b) (BHash b) bs' n x
  end.

Lemma extends_snoc h hash bs n x b :
  extends h hash bs n x → Block b = u_add n (u64_lit 1) → Parent b = x →
  extends h hash (bs ++ [b]) (Block b) (BHash b).
Proof.
  revert h hash. induction bs as [|b0 bs IH]; intros h hash; cbn [extends app].
  - by intros [-> ->].
  - intros (? & ? & He) Hn Hp. by split_and!; [..|apply IH].
Qed.

(** The calls of an engine that follows one chain: it starts once, the head
    extends the accepted block by verified ones, and an accepted block was verified
    before and extends the block accepted before it.  [V] is what is known of the
    verified batches. *)
Inductive follows (V : Batch → Prop) (h0 : u64) (hash0 : Hash) : list sink_event → u64 → Hash → Prop :=
| fo_start : follows V h0 hash0 [SMake h0 hash0] h0 hash0
| fo_verified l h hash b : follows V h0 hash0 l h hash → V b → follows V h0 hash0 (l ++ [SVerified b]) h hash
| fo_head l h hash bs n x :
    follows V h0 hash0 l h hash → extends h hash bs n x → (∀ b, b ∈ bs → SVerified b ∈ l) →
    follows V h0 hash0 (l ++ [SHead x]) h hash
| fo_accepted l h hash b :
    follows V h0 hash0 l h hash → SVerified b ∈ l → Block b = u_add h (u64_lit 1) → Parent b = hash →
    follows V h0 hash0 (l ++ [SAccepted (Block b) (BHash b)]) (Block b) (BHash b).

(** ** The live invariant *)

Section live.
Context {T P K N Body : Type}.
Context `{HC : Consensus T Body, !ConsensusLaws T Body, HP : PollSet P T, HK : EngineSink K}.
Context `{HX : Executor K Body, !ExecutorLaws K Body, HN : Net N}.
Context (cfg : Config).
Context (proposer : bytes → option (Hash * Hash * bytes)) (rlp_block : bytes → option (EthBlock Body)).
Context (rcv : list bytes).

Abbreviation Engine := (Engine T P (K * list sink_event) N Body).
Implicit Types (e : Engine) (c p : Container Body).

(** The received containers that parse. *)
Definition parsed c : Prop := ∃ raw, raw ∈ rcv ∧ ParseContainer proposer rlp_block raw = Ok c.

(** The eth block of a container extends that of its parent. *)
Definition linked_to c p : Prop :=
  eb_Number (c_Eth c) = u_add (eb_Number (c_Eth p)) (u64_lit 1) ∧ eb_ParentHash (c_Eth c) = eb_Hash (c_Eth p).

(** A block on top of the last accepted one. *)
Definition on_accepted e c : Prop :=
  eb_Number (c_Eth c) = u_add (e_lastAcceptedHeight e) (u64_lit 1) ∧ eb_ParentHash (c_Eth c) = e_lastAcceptedEthHash e.

(** The batch of a block, and that it is in the log. *)
Definition batch_of (b : Batch) c : Prop :=
  Block b = eb_Number (c_Eth c) ∧ BHash b = eb_Hash (c_Eth c) ∧ Parent b = eb_ParentHash (c_Eth c).
Definition verified_in (l : list sink_event) c : Prop := ∃ b, SVerified b ∈ l ∧ batch_of b c.
Definition of_parsed (b : Batch) : Prop := uval (Block b) ≠ 0%Z ∧ ∃ c, parsed c ∧ batch_of b c.

(** The configured resume point, when there is one. *)
Definition start_ok (h : u64) (hash : Hash) : Prop :=
  match cf_Resume cfg with
  | None => True
  | Some r => h = an_Height r ∧ match an_EthHash r with Some want => hash = want | None => True end
  end.

Definition log e : list sink_event := (e_node e).2.

(** A log that follows one chain from the configured start. *)
Definition good_log (l : list sink_event) (h : u64) (hash : Hash) : Prop :=
  ∃ h0 hash0, start_ok h0 hash0 ∧ follows of_parsed h0 hash0 l h hash.

(** [K0] is what is known of the node before the sink is made and [SI] what its
    state has to do with the calls made on it since; [F] are the errors that may end
    the engine after the calls of the log: those of the parts it is made of, and
    those the node answers a good call with. *)
Context (F : list sink_event → error → Prop) (K0 : K → Prop) (SI : K → list sink_event → u64 → Hash → Prop).

Context (F_mono : ∀ l l' er, l `prefix_of` l' → F l er → F l' er).

(** What the node promises on the calls of an engine that follows one chain.  A
    block is executed on the accepted one or on a verified one above it, and its
    batch is handed to the sink at once. *)
Record sink_ok : Prop := {
  so_seed k hs : K0 k → (∀ hd, hd ∈ hs → ∃ c, parsed c ∧ hd = eb_Header (c_Eth c)) → K0 (ex_SeedHeaders k hs);
  so_make k (h : u64) hash r k' : K0 k → start_ok h hash →
    (∃ c, parsed c ∧ eb_Number (c_Eth c) = h ∧ eb_Hash (c_Eth c) = hash) → es_Make k h hash = (r, k') →
    match r with Ok _ => SI k' [SMake h hash] h hash | Err er => F [SMake h hash] er end;
  so_exec k l h hash bs n c r k' : SI k l h hash → good_log l h hash → parsed c →
    extends h hash bs n (eb_ParentHash (c_Eth c)) → (∀ b, b ∈ bs → SVerified b ∈ l) →
    eb_Number (c_Eth c) = u_add n (u64_lit 1) → uval (eb_Number (c_Eth c)) ≠ 0%Z → ex_Execute k (eb_ParentHash (c_Eth c)) (c_Eth c) = (r, k') →
    match r with Ok b => SI (es_Verified k' b) (l ++ [SVerified b]) h hash | Err er => F l er end;
  so_head k l h hash bs n x r k' : SI k l h hash → good_log l h hash →
    extends h hash bs n x → (∀ b, b ∈ bs → SVerified b ∈ l) → es_Head k x = (r, k') →
    match r with Ok _ => SI k' (l ++ [SHead x]) h hash | Err er => F (l ++ [SHead x]) er end;
  so_accepted k l h hash b r k' : SI k l h hash → good_log l h hash →
    SVerified b ∈ l → Block b = u_add h (u64_lit 1) → Parent b = hash →
    es_Accepted k (Block b) (BHash b) = (r, k') →
    match r with
    | Ok _ => SI k' (l ++ [SAccepted (Block b) (BHash b)]) (Block b) (BHash b)
    | Err er => F (l ++ [SAccepted (Block b) (BHash b)]) er
    end
}.

Record errors_ok : Prop := {
  eo_add l t c ds t' er : cs_Add t c = (ds, t', Some er) → F l er;
  eo_poll l t votes ds t' er : cs_RecordPoll t votes = (ds, t', Some er) → F l er;
  eo_init l pa id h tm er : cs_Initialize pa id h tm = Err er → F l er;
  eo_polls l pa t er : pl_New pa t = Err er → F l er;
  eo_start l : F l (ErrMsg "consensus");
  eo_fuel l : F l (ErrMsg "fuel")
}.
Context (Hsink : sink_ok) (Herr : errors_ok).

(** [bl] are the processing blocks and [last] the last accepted one, as the
    consensus object has them. *)
Record LInv (bl : gmap Hash (Container Body)) (last : Hash) e : Prop := {
  li_phase : e_phase e = phaseLive;
  li_rec id r : e_recs e !! id = Some r →
    c_ID (r_c r) = id ∧ r_ethHash r = eb_Hash (c_Eth (r_c r)) ∧ parsed (r_c r) ∧ uval (eb_Number (c_Eth (r_c r))) ≠ 0%Z;
  li_issued id c : bl !! id = Some c ↔ ∃ r, e_recs e !! id = Some r ∧ r_issued r = true ∧ r_c r = c;
  li_link id c p : bl !! id = Some c → bl !! c_ParentID c = Some p → linked_to c p;
  li_base id c : bl !! id = Some c → c_ParentID c = last → on_accepted e c;
  li_verified id c : bl !! id = Some c → verified_in (log e) c;
  li_last : last = e_lastAcceptedID e ∧ ∃ p, parsed p ∧ c_ID p = last ∧
    eb_Number (c_Eth p) = e_lastAcceptedHeight e ∧ eb_Hash (c_Eth p) = e_lastAcceptedEthHash e;
  li_decided : e_recs e !! last = None;
  li_log : good_log (log e) (e_lastAcceptedHeight e) (e_lastAcceptedEthHash e);
  li_sink : SI (e_node e).1 (log e) (e_lastAcceptedHeight e) (e_lastAcceptedEthHash e)
}.

Definition live e : Prop :=
  e_fatal e = None ∧ cs_wf (e_cons e) ∧ LInv (cs_blocks (e_cons e)) (cs_last (e_cons e)) e.

(** A handler keeps a fatal error and what is in the log, and the invariant
    unless it ends in a fatal error. *)
Definition fatal e : Prop := ∃ er, e_fatal e = Some er ∧ F (log e) er.
Definition keeps e e' : Prop :=
  (∀ er, e_fatal e = Some er → e_fatal e' = Some er) ∧ log e `prefix_of` log e'.
Definition goes e e' : Prop := keeps e e' ∧ (live e → fatal e' ∨ live e').

#[global] Instance keeps_preorder : PreOrder keeps.
Proof.
  split; [by intros e|]. intros e1 e2 e3 [H1 H2] [H3 H4]. split; [by auto|by etransitivity].
Qed.

Lemma keeps_fatal e e' : keeps e e' → fatal e → fatal e'.
Proof. intros [Hk Hl] (er & He & Hf). exists er. split; [by apply Hk|by eapply F_mono]. Qed.

#[global] Instance goes_preorder : PreOrder goes.
Proof.
  split; [by intros e; split; [|right]|]. intros e1 e2 e3 [H1 H2] [H3 H4]. split; [by etransitivity|].
  intros Hl. destruct (H2 Hl) as [?|?]; [left; by eapply keeps_fatal|by apply H4].
Qed.

Lemma log_fail e er : log (fail e er) = log e.
Proof. unfold fail. by destruct (e_fatal e). Qed.

Lemma fail_fatal e er : F (log e) er → e_fatal e = None → fatal (fail e er).
Proof. intros Hf He. unfold fatal. rewrite log_fail. unfold fail. rewrite He. by exists er. Qed.

Lemma keeps_fail e er : keeps e (fail e er).
Proof. split; [|by rewrite log_fail]. intros er0 He. unfold fail. by rewrite He. Qed.

(** A step that keeps the error. *)
Lemma keeps_same e e' : e_fatal e' = e_fatal e → log e `prefix_of` log e' → keeps e e'.
Proof. intros Hf Hl. split; [by intros er; rewrite Hf|done]. Qed.

(** A handler that ends in an error on the way. *)
Lemma goes_fail e e' er :
  e_fatal e' = e_fatal e → log e `prefix_of` log e' → (live e → F (log e') er) → goes e (fail e' er).
Proof.
  intros He Hl Hf. split; [etransitivity; [by apply keeps_same|apply keeps_fail]|].
  intros Hlive. left. apply fail_fatal; [by apply Hf|]. rewrite He. apply Hlive.
Qed.

Lemma goes_foldl {A} (f : Engine → A → Engine) (l : list A) e :
  (∀ e x, goes e (f e x)) → goes e (foldl f e l).
Proof.
  intros Hf. revert e. induction l as [|x l IH]; intros e; [reflexivity|]. cbn [foldl].
  transitivity (f e x); [apply Hf|apply IH].
Qed.

(** The part of the state the invariants look at. *)
Definition core e :=
  (e_phase e, e_fatal e, e_cons e, e_recs e,
   (e_lastAcceptedID e, e_lastAcceptedHeight e, e_lastAcceptedEthHash e), e_node e,
   (e_anchorID e, e_bfChain e, e_bfAnchor e, e_bfLow e)).

Lemma LInv_core bl last e e' : core e' = core e → LInv bl last e → LInv bl last e'.
Proof.
  unfold core. intros Hc [].
  assert (e_phase e' = e_phase e ∧ e_recs e' = e_recs e ∧ e_node e' = e_node e ∧
    e_lastAcceptedID e' = e_lastAcceptedID e ∧ e_lastAcceptedHeight e' = e_lastAcceptedHeight e ∧
    e_lastAcceptedEthHash e' = e_lastAcceptedEthHash e) as (H1 & H2 & H3 & H4 & H5 & H6)
    by (by simplify_eq).
  split; unfold log, on_accepted in *; rewrite ?H1, ?H2, ?H3, ?H4, ?H5, ?H6; done.
Qed.

Lemma goes_core e e' : core e' = core e → goes e e'.
Proof.
  intros Hc.
  assert (e_fatal e' = e_fatal e ∧ e_cons e' = e_cons e) as [Hf Hcs] by (unfold core in Hc; by simplify_eq).
  assert (log e' = log e) as Hlg by (unfold log; unfold core in Hc; simplify_eq; congruence).
  split; [apply keeps_same; by rewrite ?Hlg|]. intros (Hn & Hw & Hl). right. unfold live. rewrite Hcs, Hf.
  split_and!; [done|done|]. exact (LInv_core _ _ e e' Hc Hl).
Qed.

(** ** Calls that leave the core alone *)

Lemma core_time_now e : core (time_now e).2 = core e.
Proof. unfold time_now. by destruct (nt_Now _). Qed.
Lemma core_NextRequestID e : core (NextRequestID e).2 = core e.
Proof. unfold NextRequestID. by destruct (nt_NextRequestID _). Qed.
Lemma core_SampleValidators e : core (SampleValidators cfg e).2 = core e.
Proof. unfold SampleValidators. by destruct (nt_SampleValidators _ _). Qed.
Lemma core_SelectPeer e : core (SelectPeer e).2 = core e.
Proof. unfold SelectPeer. by destruct (nt_SelectPeer _). Qed.
Lemma core_range_over {A} (l : list A) e : core (range_over l e).2 = core e.
Proof. unfold range_over. by destruct (nt_Range _ _). Qed.
Lemma core_split_connected vdrs e : core (split_connected vdrs e).2 = core e.
Proof.
  revert e. induction vdrs as [|v vdrs IH]; intros e; cbn [split_connected]; [done|].
  destruct (nt_IsConnected (e_net e) v) as [b n]. specialize (IH (eset_net n e)).
  destruct (split_connected vdrs _) as [[targets off] e']. cbn [snd] in IH.
  by destruct b; cbn [snd]; rewrite IH.
Qed.

Lemma core_fetchIfUnknown e id : core (fetchIfUnknown e id) = core e.
Proof.
  unfold fetchIfUnknown. destruct (_ || _); [done|]. case_bool_decide; [done|].
  destruct (match e_gets e !! id with Some _ => _ | None => _ end) as [fresh e1] eqn:E1.
  assert (core e1 = core e) as Hc1.
  { destruct (e_gets e !! id) as [g|]; [|by simplify_eq]. pose proof (core_time_now e) as Ht.
    destruct (time_now e) as [now e2]. cbn [snd] in Ht. injection E1 as _ <-. exact Ht. }
  destruct fresh; [done|]. pose proof (core_SelectPeer e1) as Hp.
  destruct (SelectPeer e1) as [[peer|] e2]; cbn [snd] in Hp; [|congruence].
  pose proof (core_time_now e2) as Ht. destruct (time_now e2) as [now e3]. cbn [snd] in Ht.
  match goal with |- context [NextRequestID ?x] => pose proof (core_NextRequestID x) as Hr;
    destruct (NextRequestID x) as [req e4] end. cbn [snd] in Hr.
  unfold SendGet. transitivity (core e4); [done|]. rewrite Hr. transitivity (core e3); [done|]. congruence.
Qed.

(** ** Decisions *)

Lemma log_grow l ev c : verified_in l c → verified_in (l ++ [ev]) c.
Proof. intros (b & Hb & ?). exists b. split; [apply elem_of_app; by left|done]. Qed.

(** The invariant after a step that removes records: what is removed beside the
    decided block was not issued. *)
Lemma LInv_decided bl last e e' c (last' : Hash) :
  LInv bl last e → bl !! c_ID c = Some c ∨ bl !! c_ID c = None → e_phase e' = phaseLive →
  (∀ id, e_recs e' !! id = e_recs e !! id ∨ e_recs e' !! id = None) →
  (∀ id r, id ≠ c_ID c → e_recs e !! id = Some r → r_issued r = true → e_recs e' !! id = Some r) →
  e_recs e' !! c_ID c = None →
  (∀ c, verified_in (log e) c → verified_in (log e') c) →
  (last' = e_lastAcceptedID e' ∧ ∃ p, parsed p ∧ c_ID p = last' ∧
    eb_Number (c_Eth p) = e_lastAcceptedHeight e' ∧ eb_Hash (c_Eth p) = e_lastAcceptedEthHash e') →
  (last' = last ∨ last' = c_ID c) →
  (∀ id c0, bl !! id = Some c0 → c_ParentID c0 = last' → on_accepted e' c0) →
  good_log (log e') (e_lastAcceptedHeight e') (e_lastAcceptedEthHash e') →
  SI (e_node e').1 (log e') (e_lastAcceptedHeight e') (e_lastAcceptedEthHash e') →
  LInv (delete (c_ID c) bl) last' e'.
Proof.
  intros Hl Hbl Hph Hsub Hkeep Hgone Hver Hlast Hcase Hbase Hlog Hsi. split; try done.
  - intros id r Hr. apply (li_rec _ _ _ Hl). destruct (Hsub id) as [He|He]; rewrite He in Hr; [done|discriminate].
  - intros id c0. destruct (decide (id = c_ID c)) as [->|Hne].
    { rewrite lookup_delete_eq. split; [done|]. intros (r & Hr & _). congruence. }
    rewrite lookup_delete_ne, (li_issued _ _ _ Hl) by done. split.
    + intros (r & Hr & Hi & Hc). exists r. split_and!; [by apply Hkeep|done|done].
    + intros (r & Hr & Hi & Hc). exists r. destruct (Hsub id) as [He|He]; rewrite He in Hr; done.
  - intros id c0 p [_ Hid]%lookup_delete_Some [_ Hp]%lookup_delete_Some. by apply (li_link _ _ _ Hl id).
  - intros id c0 [_ Hid]%lookup_delete_Some. by apply (Hbase id).
  - intros id c0 [_ Hid]%lookup_delete_Some. by apply Hver, (li_verified _ _ _ Hl id).
  - destruct Hcase as [->| ->]; [|done]. destruct (Hsub last) as [->|?]; [apply (li_decided _ _ _ Hl)|done].
Qed.

Lemma onAccept_LInv bl last e c r e' :
  LInv bl last e → bl !! c_ID c = Some c → c_ParentID c = last → onAccept e c = (r, e') →
  e_fatal e' = e_fatal e ∧
  match r with Ok _ => LInv (delete (c_ID c) bl) (c_ID c) e' | Err er => F (log e') er end.
Proof.
  intros Hl Hbl Hp. unfold onAccept. set (e1 := eset_lastAcceptedEthHash _ _).
  pose proof (core_time_now e1) as Ht. destruct (time_now e1) as [now e2]. cbn [snd] in Ht.
  unfold core in Ht. cbn in Ht. injection Ht as Hph Hfa Hcs Hre H1 H2 H3 Hsk _ _ _ _.
  cbn [es_Accepted Logged e_node eset_node eset_recs eset_lastAcceptAt].
  destruct (proj1 (li_issued _ _ _ Hl _ _) Hbl) as (rc & Hrc & Hri & Hrcc).
  destruct (li_base _ _ _ Hl _ _ Hbl Hp) as [Hnum Hpar].
  destruct (li_verified _ _ _ Hl _ _ Hbl) as (b & Hb & Hb1 & Hb2 & Hb3).
  destruct (es_Accepted _ _ _) as [r' k] eqn:Ea. intros [= <- <-]. split; [cbn; congruence|].
  rewrite Hsk, <-Hb1, <-Hb2 in Ea.
  pose proof (so_accepted Hsink _ _ _ _ b _ _ (li_sink _ _ _ Hl) (li_log _ _ _ Hl) Hb
    ltac:(congruence) ltac:(congruence) Ea) as Hsi.
  destruct r' as [[]|er]; [|unfold log; cbn; by rewrite Hsk, <-Hb1, <-Hb2].
  apply (LInv_decided bl last e); cbn; rewrite ?Hph, ?H1, ?H2, ?H3, ?Hre; try done; [by left|..].
  - apply Hl.
  - intros id. destruct (filter _ _ !! id) as [r|] eqn:Ef; [|by right].
    apply map_lookup_filter_Some in Ef as [[_ Hr]%lookup_delete_Some _]. left. done.
  - intros id r Hne Hr Hi. apply map_lookup_filter_Some. split; [by rewrite lookup_delete_ne|].
    cbn. by intros [? _]; congruence.
  - apply map_lookup_filter_None. left. apply lookup_delete_eq.
  - intros c0 Hv. unfold log. cbn. rewrite Hsk. by apply log_grow.
  - split; [done|]. exists c. destruct (li_rec _ _ _ Hl _ _ Hrc) as (_ & _ & Hpc & _). rewrite Hrcc in Hpc. done.
  - by right.
  - intros id c0 Hid Hc0. unfold on_accepted. cbn. rewrite H2, H3. apply (li_link _ _ _ Hl id c0 c Hid). by rewrite Hc0.
  - destruct (li_log _ _ _ Hl) as (h0 & hash0 & Hst & Hfo).
    exists h0, hash0. split; [done|]. unfold log in *. cbn. rewrite Hsk, <-Hb1, <-Hb2.
    eapply fo_accepted; [exact Hfo|done|congruence|congruence].
  - unfold log. cbn. rewrite Hsk, <-Hb1, <-Hb2. exact Hsi.
Qed.

Lemma onReject_LInv bl last e c :
  LInv bl last e → bl !! c_ID c = Some c ∨ bl !! c_ID c = None ∧ c_ID c ≠ last →
  LInv (delete (c_ID c) bl) last (onReject e c).
Proof.
  intros Hl Hbl. apply (LInv_decided bl last e); cbn; try done; try apply Hl; [naive_solver|..].
  - intros id. destruct (decide (id = c_ID c)) as [->|]; [right; apply lookup_delete_eq|left; by apply lookup_delete_ne].
  - intros id r Hne Hr _. by rewrite lookup_delete_ne.
  - apply lookup_delete_eq.
  - by left.
Qed.

(** The callbacks of a decided poll. *)
Lemma run_decisions_LInv bl last e ds bl' last' o e' :
  LInv bl last e → decides bl last ds bl' last' → run_decisions e ds = (o, e') →
  match o with None => LInv bl' last' e' | Some er => F (log e') er end.
Proof.
  revert bl last e. induction ds as [|[c|c] ds IH]; intros bl last e Hl Hd Hr; cbn [decides run_decisions] in *.
  - destruct Hd as [-> ->]. by injection Hr as <- <-.
  - destruct Hd as (Hbl & Hp & Hd). destruct (onAccept e c) as [r e1] eqn:E1.
    destruct (onAccept_LInv _ _ _ _ _ _ Hl Hbl Hp E1) as (_ & Hl1).
    destruct r as [[]|er]; [by apply (IH _ _ _ Hl1 Hd Hr)|by injection Hr as <- <-].
  - destruct Hd as (Hbl & Hd). exact (IH _ _ _ (onReject_LInv _ _ _ _ Hl (or_introl Hbl)) Hd Hr).
Qed.

Lemma run_decisions_keeps e ds :
  e_fatal (run_decisions e ds).2 = e_fatal e ∧ log e `prefix_of` log (run_decisions e ds).2.
Proof.
  revert e. induction ds as [|[c|c] ds IH]; intros e; cbn [run_decisions]; [done| |exact (IH (onReject e c))].
  assert (e_fatal (onAccept e c).2 = e_fatal e ∧ log e `prefix_of` log (onAccept e c).2) as [Ha Hla].
  { unfold onAccept. set (e1 := eset_lastAcceptedEthHash _ _). pose proof (core_time_now e1) as Ht.
    destruct (time_now e1) as [now e2]. cbn [snd] in Ht. unfold core in Ht. injection Ht as _ Hf _ _ _ _ _ Hk _ _ _ _.
    cbn [es_Accepted Logged e_node eset_node eset_recs eset_lastAcceptAt]. destruct (es_Accepted _ _ _) as [r k].
    split; [exact Hf|]. unfold log. cbn. rewrite Hk. by apply prefix_app_r. }
  destruct (onAccept e c) as [[[]|er] e1]; cbn [snd] in *; [|done].
  destruct (IH e1) as [-> ?]. split; [done|by etransitivity].
Qed.

Lemma eset_cons_live t bl last e :
  LInv bl last e → e_fatal e = None → cs_wf t → cs_blocks t = bl → cs_last t = last → live (eset_cons t e).
Proof. intros Hl Hn Hw <- <-. split_and!; [done|done|]. by destruct Hl; split. Qed.

(** A processing block extends the last accepted one by verified blocks. *)
Lemma processing_chain e id c :
  live e → cs_blocks (e_cons e) !! id = Some c →
  ∃ bs, extends (e_lastAcceptedHeight e) (e_lastAcceptedEthHash e) bs (eb_Number (c_Eth c)) (eb_Hash (c_Eth c)) ∧
    ∀ b, b ∈ bs → SVerified b ∈ log e.
Proof.
  intros (_ & Hw & Hl). remember (Z.to_nat (eb_Number (c_Eth c))) as n eqn:Hn. revert id c Hn.
  induction n as [n IH] using lt_wf_ind. intros id c -> Hc.
  destruct (li_verified _ _ _ Hl _ _ Hc) as (b & Hb & Hb1 & Hb2 & Hb3).
  destruct (cs_tree_law _ _ _ Hw Hc) as [Hp|[p Hp]].
  - destruct (li_base _ _ _ Hl _ _ Hc Hp) as [Hnum Hpar].
    exists [b]. cbn [extends]. split; [split_and!; congruence|]. by intros ? ->%list_elem_of_singleton.
  - destruct (li_link _ _ _ Hl _ _ p Hc Hp) as [Hnum Hpar].
    assert (uval (eb_Number (c_Eth c)) = eb_Number (c_Eth p) + 1)%Z as Hz.
    { apply u64_succ; [done|]. apply (li_issued _ _ _ Hl) in Hc as (rc & Hrc & _ & <-). by apply (li_rec _ _ _ Hl _ _ Hrc). }
    pose proof (uint_range (eb_Number (c_Eth p))).
    destruct (IH (Z.to_nat (eb_Number (c_Eth p))) ltac:(lia) _ p eq_refl Hp) as (bs & Hbs & Hver).
    exists (bs ++ [b]). split; [|intros b' [?| ->%list_elem_of_singleton]%elem_of_app; [by apply Hver|done]].
    rewrite <-Hb1, <-Hb2. eapply extends_snoc; [exact Hbs|congruence|congruence].
Qed.

(** [emitHead]: the preferred block is the last accepted one or a processing
    one, which is verified. *)
Lemma goes_emitHead e : goes e (emitHead e).
Proof.
  unfold emitHead. set (ho := if bool_decide _ then _ else _).
  destruct ho as [h|] eqn:Eh; [|reflexivity]. case_bool_decide; [reflexivity|].
  assert (live e → ∃ bs n, extends (e_lastAcceptedHeight e) (e_lastAcceptedEthHash e) bs n h ∧
    ∀ b, b ∈ bs → SVerified b ∈ log e) as Hext.
  { intros Hlive. pose proof Hlive as (_ & Hw & Hl). unfold ho in Eh. case_bool_decide as Hp.
    { injection Eh as <-. exists [], (e_lastAcceptedHeight e). split; [done|]. by intros b ?%elem_of_nil. }
    destruct (e_recs e !! _) as [r|] eqn:Er; [|done]. injection Eh as <-.
    destruct (cs_Preference_law (e_cons e) Hw) as [Hlast|[c Hc]].
    { destruct Hp. rewrite Hlast. apply (li_last _ _ _ Hl). }
    destruct (processing_chain e _ c Hlive Hc) as (bs & Hbs & Hver). exists bs, (eb_Number (c_Eth c)).
    apply (li_issued _ _ _ Hl) in Hc as (r' & Hr' & _ & Hrc). rewrite Er in Hr'. injection Hr' as <-.
    destruct (li_rec _ _ _ Hl _ _ Er) as (_ & -> & _). by rewrite Hrc. }
  cbn [es_Head Logged e_node eset_lastPref].
  destruct (es_Head (e_node e).1 h) as [r k] eqn:Ek.
  assert (live e → match r with
    | Ok _ => SI k (log e ++ [SHead h]) (e_lastAcceptedHeight e) (e_lastAcceptedEthHash e)
    | Err er => F (log e ++ [SHead h]) er end) as Hsi.
  { intros Hlive. destruct (Hext Hlive) as (bs & n & Hbs & Hver). destruct Hlive as (_ & _ & Hl).
    eapply (so_head Hsink); [apply (li_sink _ _ _ Hl)|apply (li_log _ _ _ Hl)|done|done|exact Ek]. }
  assert (log e `prefix_of` log e ++ [SHead h]) as Hpre by (by apply prefix_app_r).
  destruct r as [[]|er]; [|by apply goes_fail].
  split; [by apply keeps_same|]. intros Hlive. right. pose proof Hlive as (Hn & Hw & Hl). split_and!; [done|done|].
  split; cbn; try apply Hl.
  - intros id c Hc. apply log_grow. by apply (li_verified _ _ _ Hl id).
  - destruct (li_log _ _ _ Hl) as (h0 & hash0 & Hst & Hfo). destruct (Hext Hlive) as (bs & n & Hbs & Hver).
    exists h0, hash0. split; [done|]. by eapply fo_head.
  - by apply Hsi.
Qed.

Lemma call_cons_keeps e r :
  e_fatal (call_cons e r).2 = e_fatal e ∧ log e `prefix_of` log (call_cons e r).2.
Proof.
  destruct r as [[ds t] err]. unfold call_cons. pose proof (run_decisions_keeps e ds) as Hf.
  by destruct (run_decisions e ds) as [[er|] e1].
Qed.

Lemma record_loop_goes results e :
  goes e (record_loop cfg e results).2.
Proof.
  revert e. induction results as [|votes results IH]; intros e; cbn [record_loop]; [reflexivity|].
  set (e1 := if (_ <=? _)%Z then _ else _).
  assert (core e1 = core e) as Hc1 by (unfold e1; by destruct (_ <=? _)%Z).
  transitivity e1; [by apply goes_core|]. clearbody e1. clear e Hc1.
  pose proof (call_cons_keeps e1 (cs_RecordPoll (e_cons e1) votes)) as [Hfat Hpre].
  assert (live e1 → match call_cons e1 (cs_RecordPoll (e_cons e1) votes) with
    | (None, e2) => live e2 | (Some er, e2) => F (log e2) er end) as Hstep.
  { intros (Hn & Hw & Hl). unfold call_cons. pose proof (run_decisions_keeps e1) as Hfr.
    destruct (cs_RecordPoll (e_cons e1) votes) as [[ds t] err] eqn:Er.
    pose proof Er as Hpoll. apply cs_RecordPoll_law in Er as (bl' & last' & Er & Hend); [|done].
    specialize (Hfr ds). destruct (run_decisions e1 ds) as [o e2] eqn:Ed. cbn [snd] in Hfr. destruct Hfr as [Hfr _].
    pose proof (run_decisions_LInv _ _ _ _ _ _ _ _ Hl Er Ed) as Hl2. destruct o as [er|]; [done|].
    destruct err as [er|]; [by eapply (eo_poll Herr)|]. destruct (Hend eq_refl) as (Hw' & Hb & Hla).
    eapply eset_cons_live; [exact Hl2|congruence|done..]. }
  destruct (call_cons e1 (cs_RecordPoll (e_cons e1) votes)) as [[er|] e2]; cbn [fst snd] in *;
    [by apply goes_fail|].
  transitivity e2; [|apply IH]. split; [by apply keeps_same|]. intros Hl. right. by apply Hstep.
Qed.

Lemma goes_recordPolls e results : goes e (recordPolls cfg e results).
Proof.
  unfold recordPolls. pose proof (record_loop_goes results e) as Hr.
  destruct (record_loop cfg e results) as [ok e1]. cbn [snd] in Hr.
  destruct (_ && _); [|done]. transitivity e1; [done|apply goes_emitHead].
Qed.

(** ** Votes *)

Lemma goes_Vote e req node vote : goes e (Vote cfg e req node vote).
Proof.
  unfold Vote. destruct (pl_Vote _ _ _ _ _) as [results p].
  transitivity (eset_polls p e); [by apply goes_core|apply goes_recordPolls].
Qed.

Lemma goes_Drop e req node : goes e (Drop cfg e req node).
Proof.
  unfold Drop. destruct (pl_Drop _ _ _ _) as [results p].
  transitivity (eset_polls p e); [by apply goes_core|apply goes_recordPolls].
Qed.

Lemma goes_lost e : goes e (fail e (ErrMsg "fuel")).
Proof. apply goes_fail; [done|done|intros _; apply (eo_fuel Herr)]. Qed.

Lemma goes_applyVote e v allowPark : goes e (applyVote cfg e v allowPark).
Proof.
  unfold applyVote. generalize true as first. generalize (pv_options v) as options. intros options.
  induction options as [|opt options IH]; intros first; cbn [vote_loop].
  - unfold fallback_vote. destruct (e_frontiers e !! _) as [fid|]; [|apply goes_Drop].
    destruct (bubble_vote e fid) as [[vote|blocker]|]; [apply goes_Vote|apply goes_Drop|by apply goes_lost].
  - destruct (bubble_vote e opt) as [[vote|blocker]|]; [apply goes_Vote| |by apply goes_lost].
    destruct (_ && _); [|apply IH]. apply goes_core. transitivity (core (fetchIfUnknown e blocker)); [done|].
    apply core_fetchIfUnknown.
Qed.

Lemma goes_applyVotes e vs : goes e (applyVotes cfg e vs).
Proof. apply goes_foldl. intros. apply goes_applyVote. Qed.

(** ** Containers *)

(** A record that is not issued is not processing, and not the accepted one. *)
Lemma unissued_free bl last e r :
  LInv bl last e → e_recs e !! c_ID (r_c r) = Some r → r_issued r = false →
  bl !! c_ID (r_c r) = None ∧ c_ID (r_c r) ≠ last.
Proof.
  intros Hl Hr Hi. split.
  - destruct (bl !! c_ID (r_c r)) as [c|] eqn:Eb; [|done].
    apply (li_issued _ _ _ Hl) in Eb as (r' & Hr' & Hi' & _). congruence.
  - intros He. pose proof (li_decided _ _ _ Hl) as Hn. rewrite <-He in Hn. congruence.
Qed.

Lemma LInv_drop bl last e r :
  LInv bl last e → e_recs e !! c_ID (r_c r) = Some r → r_issued r = false →
  LInv bl last (eset_recs (delete (c_ID (r_c r)) (e_recs e)) e).
Proof.
  intros Hl Hr Hi. destruct (unissued_free _ _ _ _ Hl Hr Hi) as [Hbl Hne].
  rewrite <-(delete_id bl (c_ID (r_c r))) by done.
  apply (onReject_LInv bl last e (r_c r)) in Hl as Hl'; [|by right]. by eapply LInv_core; [|exact Hl'].
Qed.

(** What [tryIssue] has checked of a block it issues: it is on top of the last
    accepted block or of a processing one. *)
Definition issue_ok (bl : gmap Hash (Container Body)) (last : Hash) e c : Prop :=
  c_ParentID c ≠ c_ID c ∧ (∀ p, bl !! c_ParentID c = Some p → linked_to c p) ∧ (c_ParentID c = last → on_accepted e c).

Lemma last_free bl last e : LInv bl last e → bl !! last = None.
Proof.
  intros Hl. destruct (bl !! last) as [c|] eqn:Eb; [|done].
  apply (li_issued _ _ _ Hl) in Eb as (r & Hr & _). by rewrite (li_decided _ _ _ Hl) in Hr.
Qed.

Lemma issue_link bl last e r ph hgt :
  LInv bl last e → e_recs e !! c_ID (r_c r) = Some r → r_issued r = false →
  issued_parent e (c_ParentID (r_c r)) = Some (ph, hgt) →
  eb_ParentHash (c_Eth (r_c r)) = ph → eb_Number (c_Eth (r_c r)) = u_add hgt (u64_lit 1) →
  issue_ok bl last e (r_c r).
Proof.
  intros Hl Hr Hi Hpar Hph Hnum. destruct (unissued_free _ _ _ _ Hl Hr Hi) as [Hbl Hne].
  destruct (li_last _ _ _ Hl) as (Hlast & _). unfold issued_parent in Hpar. case_bool_decide as Hc.
  - injection Hpar as <- <-. split_and!; [congruence| |done].
    intros p. rewrite Hc, <-Hlast, (last_free _ _ _ Hl). done.
  - destruct (e_recs e !! c_ParentID (r_c r)) as [pr|] eqn:Er; [|done].
    destruct (r_issued pr) eqn:Ei; [|done]. injection Hpar as <- <-.
    destruct (li_rec _ _ _ Hl _ _ Er) as (Hpid & Hhash & _). split_and!.
    + intros He. rewrite He, Hr in Er. congruence.
    + assert (bl !! c_ParentID (r_c r) = Some (r_c pr)) as -> by (apply (li_issued _ _ _ Hl); by exists pr).
      intros p [= <-]. split; congruence.
    + congruence.
Qed.

Lemma good_verified l h hash b : good_log l h hash → of_parsed b → good_log (l ++ [SVerified b]) h hash.
Proof. intros (h0 & hash0 & Hst & Hfo) Hb. exists h0, hash0. split; [done|by apply fo_verified]. Qed.

(** The parent [tryIssue] found is the accepted block or a verified one above
    it. *)
Lemma issue_extends e (r : rec Body) ph hgt :
  live e → issued_parent e (c_ParentID (r_c r)) = Some (ph, hgt) →
  ∃ bs, extends (e_lastAcceptedHeight e) (e_lastAcceptedEthHash e) bs hgt ph ∧ ∀ b, b ∈ bs → SVerified b ∈ log e.
Proof.
  intros Hlive. pose proof Hlive as (_ & _ & Hl). unfold issued_parent. case_bool_decide.
  { intros [= <- <-]. exists []. split; [done|]. by intros b ?%elem_of_nil. }
  destruct (e_recs e !! _) as [pr|] eqn:Er; [|done]. destruct (r_issued pr) eqn:Ei; [|done]. intros [= <- <-].
  destruct (li_rec _ _ _ Hl _ _ Er) as (_ & -> & _).
  apply (processing_chain e (c_ParentID (r_c r)) (r_c pr) Hlive), (li_issued _ _ _ Hl). by exists pr.
Qed.

(** A batch handed to the sink. *)
Lemma LInv_verified bl last e b k :
  LInv bl last e → of_parsed b → SI k (log e ++ [SVerified b]) (e_lastAcceptedHeight e) (e_lastAcceptedEthHash e) →
  LInv bl last (eset_node (k, log e ++ [SVerified b]) e).
Proof.
  intros [] Hof Hsi. split; try done; cbn.
  - intros id c Hc. unfold log. cbn. apply log_grow. by eapply li_verified0.
  - by apply good_verified.
Qed.

(** A verified block handed to the consensus object. *)
Lemma LInv_issue bl last e r t :
  LInv bl last e → e_recs e !! c_ID (r_c r) = Some r → r_issued r = false →
  (∀ id c, bl !! id = Some c → c_ParentID c = last ∨ is_Some (bl !! c_ParentID c)) →
  issue_ok bl last e (r_c r) → verified_in (log e) (r_c r) →
  LInv (<[c_ID (r_c r):=r_c r]> bl) last
    (eset_recs (alter (λ r, MkRec (r_c r) (r_ethHash r) true) (c_ID (r_c r)) (e_recs e)) (eset_cons t e)).
Proof.
  intros Hl Hr Hi Htree (Hself & Hlink & Hbase) Hver. destruct (unissued_free _ _ _ _ Hl Hr Hi) as [Hbl Hne].
  set (c := r_c r) in *. split; cbn; try apply Hl.
  - intros id r0. destruct (decide (id = c_ID c)) as [->|Hid]; [|rewrite lookup_alter_ne by done; apply (li_rec _ _ _ Hl)].
    rewrite lookup_alter_eq, Hr. intros [= <-]. cbn. by apply (li_rec _ _ _ Hl).
  - intros id c0. destruct (decide (id = c_ID c)) as [->|Hid].
    + rewrite lookup_insert_eq, lookup_alter_eq, Hr. cbn. split.
      * intros [= <-]. by eexists.
      * by intros (r0 & [= <-] & _ & <-).
    + rewrite lookup_insert_ne, lookup_alter_ne by done. apply (li_issued _ _ _ Hl).
  - intros id c0 p [[<- <-]|[_ Hid]]%lookup_insert_Some [[Hp _]|[_ Hp]]%lookup_insert_Some;
      [by destruct Hself|by apply Hlink| |by apply (li_link _ _ _ Hl id)].
    destruct (Htree _ _ Hid) as [Ht|[q Hq]]; [by destruct Hne; rewrite Hp|]. rewrite <-Hp in Hq. congruence.
  - intros id c0 [[<- <-]|[_ Hid]]%lookup_insert_Some; [exact Hbase|apply (li_base _ _ _ Hl id c0 Hid)].
  - intros id c0 [[_ <-]|[_ Hid]]%lookup_insert_Some; [done|by apply (li_verified _ _ _ Hl id)].
  - rewrite lookup_alter_ne by done. apply Hl.
Qed.

(** [cons.Add] of a verified block, and its mark. *)
Lemma add_live e r er e' :
  live e → e_recs e !! c_ID (r_c r) = Some r → r_issued r = false →
  issue_ok (cs_blocks (e_cons e)) (cs_last (e_cons e)) e (r_c r) → verified_in (log e) (r_c r) →
  call_cons e (cs_Add (e_cons e) (r_c r)) = (er, e') →
  match er with
  | None => live (eset_recs (alter (λ r, MkRec (r_c r) (r_ethHash r) true) (c_ID (r_c r)) (e_recs e')) e')
  | Some er => F (log e') er
  end.
Proof.
  intros (Hn & Hw & Hl) Hr Hi Hlink Hver. unfold call_cons.
  destruct (cs_Add (e_cons e) (r_c r)) as [[ds t] err] eqn:Ea.
  pose proof Ea as Hadd. apply cs_Add_law in Ea as (Hds & Hend); [|done].
  destruct (run_decisions e ds) as [o e3] eqn:Ed.
  assert (o = None) as -> by (by destruct Hds as [-> | ->]; cbn [run_decisions] in Ed; injection Ed as <- _).
  intros [= <- <-]. destruct err as [er|]; [by eapply (eo_add Herr)|]. clear Hadd Hds.
  destruct (Hend eq_refl) as (Hw' & Hla & [(-> & Hbl)|(-> & Hbl & Hno)]); cbn [run_decisions] in Ed; injection Ed as <-.
  - unfold live. cbn [e_cons eset_recs eset_cons]. rewrite Hla, Hbl. split_and!; [done|exact Hw'|]. apply (LInv_issue _ _ e r t Hl Hr Hi); [intros id c; by apply cs_tree_law|done|done].
  - destruct (unissued_free _ _ _ _ Hl Hr Hi) as [Hnb Hne].
    apply (onReject_LInv _ _ _ (r_c r)) in Hl; [|by right]. rewrite delete_id in Hl by done.
    apply (eset_cons_live t) in Hl; [|done..].
    assert (alter (λ r, MkRec (r_c r) (r_ethHash r) true) (c_ID (r_c r)) (delete (c_ID (r_c r)) (e_recs e))
      = delete (c_ID (r_c r)) (e_recs e)) as Hal.
    { apply map_eq. intros id. destruct (decide (id = c_ID (r_c r))) as [->|?];
        [by rewrite lookup_alter_eq, lookup_delete_eq|by rewrite lookup_alter_ne]. }
    split_and!; [done|exact Hw'|]. destruct Hl as (_ & _ & Hl). cbn [e_cons eset_recs eset_cons] in *.
    eapply LInv_core; [|exact Hl]. unfold core. cbn. by rewrite Hal.
Qed.

Lemma issue_goes e r ph hgt :
  (live e → e_recs e !! c_ID (r_c r) = Some r) → r_issued r = false →
  issued_parent e (c_ParentID (r_c r)) = Some (ph, hgt) →
  eb_ParentHash (c_Eth (r_c r)) = ph → eb_Number (c_Eth (r_c r)) = u_add hgt (u64_lit 1) →
  goes e (issue e r ph).2.
Proof.
  intros Hrec Hi Hpar <- Hnum. unfold issue. cbn [ex_Execute Logged_exec].
  destruct (ex_Execute (e_node e).1 (eb_ParentHash (c_Eth (r_c r))) (c_Eth (r_c r))) as [res k] eqn:Ex.
  assert (live e → match res with
    | Ok b => SI (es_Verified k b) (log e ++ [SVerified b]) (e_lastAcceptedHeight e) (e_lastAcceptedEthHash e)
    | Err er => F (log e) er end) as Hsi.
  { intros Hlive. destruct (issue_extends e r _ _ Hlive Hpar) as (bs & Hbs & Hver).
    specialize (Hrec Hlive). destruct Hlive as (_ & _ & Hl).
    eapply (so_exec Hsink); [apply Hl|apply Hl|by apply (li_rec _ _ _ Hl _ _ Hrec)|exact Hbs|exact Hver|exact Hnum|by apply (li_rec _ _ _ Hl _ _ Hrec)|exact Ex]. }
  destruct res as [batch|er]; [|by apply goes_fail]. apply ex_Execute_law in Ex as Hb.
  cbn [e_node eset_node es_Verified Logged fst snd]. set (e2 := eset_node _ (eset_node _ e)).
  pose proof (call_cons_keeps e2 (cs_Add (e_cons e2) (r_c r))) as [Hfat Hpre].
  assert (log e `prefix_of` log e2) as Hpre0 by (by apply prefix_app_r).
  assert (live e → match call_cons e2 (cs_Add (e_cons e2) (r_c r)) with
    | (None, e3) => live (eset_recs (alter (λ r, MkRec (r_c r) (r_ethHash r) true) (c_ID (r_c r)) (e_recs e3)) e3)
    | (Some er, e3) => F (log e3) er end) as Hstep.
  { intros Hlive. specialize (Hrec Hlive). specialize (Hsi Hlive). destruct Hlive as (Hn & Hw & Hl).
    destruct (call_cons e2 _) as [er e3] eqn:Ec. apply (add_live e2 r er e3); [|done|done| | |exact Ec].
    - split_and!; [done|done|]. apply (LInv_verified _ _ e); [done| |done].
      destruct (li_rec _ _ _ Hl _ _ Hrec) as (_ & _ & Hpc & Hnz). split; [by rewrite (proj1 Hb)|by exists (r_c r)].
    - by apply (issue_link _ _ e r _ _ Hl Hrec Hi Hpar eq_refl Hnum).
    - exists batch. split; [apply elem_of_app; right; left|done]. }
  destruct (call_cons e2 (cs_Add (e_cons e2) (r_c r))) as [[er|] e3]; cbn [fst snd] in *;
    [apply goes_fail; [done|by etransitivity|done]|].
  split; [apply keeps_same; [done|]; by transitivity (log e2)|]. intros Hl. right. by apply Hstep.
Qed.

Lemma goes_tryIssue fuel e r :
  (live e → e_recs e !! c_ID (r_c r) = Some r) → goes e (tryIssue fuel e r).
Proof.
  revert e r. induction fuel as [|fuel IH]; intros e r Hr; cbn [tryIssue];
    [apply goes_fail; [done|done|intros _; apply (eo_fuel Herr)]|].
  destruct (r_issued r) eqn:Ei; [reflexivity|].
  destruct (issued_parent e (c_ParentID (r_c r))) as [[ph hgt]|] eqn:Ep; cycle 1.
  { apply goes_core. case_bool_decide; [|done]. transitivity (core (fetchIfUnknown e (c_ParentID (r_c r)))); [done|].
    apply core_fetchIfUnknown. }
  destruct (_ || _) eqn:Eg.
  { split; [done|]. intros Hlive. right. split_and!; [apply Hlive|apply Hlive|]. by apply LInv_drop; [apply Hlive|apply Hr|]. }
  apply orb_false_iff in Eg as [Hph%bool_decide_eq_false Hnum%bool_decide_eq_false].
  apply dec_stable in Hph. apply dec_stable in Hnum.
  assert (goes e (issue e r ph).2) as Hissue.
  { by eapply issue_goes. }
  destruct (issue e r ph) as [[] e1]; cbn [snd] in Hissue; [|done].
  transitivity e1; [done|]. transitivity (emitHead e1); [apply goes_emitHead|].
  set (e2 := eset_pendingByPa _ _). transitivity e2; [by apply goes_core|].
  apply goes_foldl. intros e3 childID. destruct (e_recs e3 !! childID) as [cr|] eqn:Ec; [|reflexivity].
  apply IH. intros (_ & _ & Hl). destruct (li_rec _ _ _ Hl _ _ Ec) as (-> & _). done.
Qed.

Lemma goes_addContainer e c : parsed c → goes e (addContainer cfg e c).
Proof.
  intros Hp. unfold addContainer. case_bool_decide as Hin; [reflexivity|].
  destruct (_ || _) eqn:Eg; [reflexivity|]. apply orb_false_iff in Eg as [Hne%bool_decide_eq_false Hnz%Z.leb_gt].
  set (r := MkRec c (eb_Hash (c_Eth c)) false). set (e1 := eset_recs _ e).
  assert (e_recs e !! c_ID c = None) as Hnone by (destruct (e_recs e !! c_ID c); [by destruct Hin|done]).
  assert (goes e e1) as H1.
  { split; [done|]. intros (Hn & Hw & Hl). right. split_and!; [done|done|]. unfold e1. cbn [e_cons eset_recs]. destruct Hl. split; cbn; try done.
    - intros id r0 [[<- <-]|[_ Hid]]%lookup_insert_Some; [|by apply li_rec0].
      split_and!; [done..|]. cbn [r r_c]. pose proof (uint_range (e_lastAcceptedHeight e)). lia.
    - intros id c0. rewrite li_issued0. destruct (decide (id = c_ID c)) as [->|Hid].
      + rewrite lookup_insert_eq, Hnone. split; [by intros (? & ? & _)|by intros (? & [= <-] & ? & _)].
      + by rewrite lookup_insert_ne.
    - rewrite lookup_insert_ne; [done|]. intros He. apply Hne. rewrite He. apply li_last0. }
  transitivity e1; [done|]. set (e2 := tryIssue _ e1 r).
  assert (goes e1 e2) as H2 by (apply goes_tryIssue; intros _; apply lookup_insert_eq).
  transitivity e2; [done|]. destruct (e_parked e2 !! c_ID c) as [votes|]; [|reflexivity].
  transitivity (eset_parked (delete (c_ID c) (e_parked e2)) e2); [by apply goes_core|apply goes_applyVotes].
Qed.

(** ** Polls *)

Lemma goes_sendPoll e : goes e (sendPoll cfg e).2.
Proof.
  unfold sendPoll. pose proof (core_SampleValidators e) as H1. destruct (SampleValidators cfg e) as [vdrs e1].
  cbn [snd] in H1. destruct vdrs as [[|v vdrs]|]; [by apply goes_core| |by apply goes_core].
  pose proof (core_NextRequestID e1) as H2. destruct (NextRequestID e1) as [req e2]. cbn [snd] in H2.
  destruct (pl_Add _ _ _) as [p|]; [|apply goes_core; cbn; congruence].
  match goal with |- context [time_now ?x] => pose proof (core_time_now x) as H3; destruct (time_now x) as [now e3] end.
  cbn [snd] in H3. unfold bag_list.
  match goal with |- context [range_over ?l ?x] => pose proof (core_range_over l x) as H4; destruct (range_over l x) as [vs e4] end.
  cbn [snd] in H4. pose proof (core_split_connected vs e4) as H5.
  destruct (split_connected vs e4) as [[targets off] e5]. cbn [snd] in H5.
  match goal with |- context [time_now ?x] => pose proof (core_time_now x) as H6; destruct (time_now x) as [now' e6] end.
  cbn [snd] in H6. set (e7 := if (0 <? size targets) then _ else _). cbn [snd].
  assert (core e7 = core e) as H7.
  { transitivity (core e6); [unfold e7; by destruct (0 <? size targets)|]. rewrite H6. transitivity (core e5); [done|].
    rewrite H5, H4. transitivity (core e3); [done|]. rewrite H3. transitivity (core e2); [done|]. congruence. }
  transitivity e7; [by apply goes_core|apply goes_applyVotes].
Qed.

Lemma goes_range {A} (l : list A) (f : Engine → A → Engine) e :
  (∀ e x, goes e (f e x)) → goes e (let '(entries, e) := range_over l e in foldl f e entries).
Proof.
  intros Hf. pose proof (core_range_over l e) as Hr. destruct (range_over l e) as [entries e1]. cbn [snd] in Hr.
  transitivity e1; [by apply goes_core|by apply goes_foldl].
Qed.

Lemma goes_expireParked e now : goes e (expireParked cfg e now).
Proof.
  apply goes_range. intros e1 [id votes]. unfold expire_one. cbn [fst snd].
  etransitivity; [apply goes_applyVotes|]. by apply goes_core.
Qed.

Lemma goes_expirePolls e now : goes e (expirePolls cfg e now).
Proof.
  apply goes_range. intros e1 [req ps]. unfold expire_poll. cbn [fst snd]. destruct (_ <? _)%Z; [reflexivity|].
  set (e2 := eset_pollVdrs _ e1). pose proof (core_range_over (elements (ps_remaining ps)) e2) as Hr.
  destruct (range_over _ e2) as [vs e3]. cbn [snd] in Hr.
  transitivity e3; [by apply goes_core; rewrite Hr|apply goes_applyVotes].
Qed.

Lemma goes_retryGets e now : goes e (retryGets e now).
Proof.
  apply goes_range. intros e1 [id g]. unfold retry_get. cbn [fst snd].
  destruct (_ <? _)%Z; [reflexivity|]. destruct (_ <=? _)%Z; [by apply goes_core|].
  apply goes_core, core_fetchIfUnknown.
Qed.

Lemma goes_poll_loop fuel e now : goes e (poll_loop cfg fuel e now).
Proof.
  revert e. induction fuel as [|fuel IH]; intros e; cbn [poll_loop];
    [apply goes_fail; [done|done|intros _; apply (eo_fuel Herr)]|].
  destruct (_ && _); [|reflexivity]. pose proof (goes_sendPoll e) as Hs.
  destruct (sendPoll cfg e) as [[] e1]; cbn [snd] in Hs; [|done]. by transitivity e1.
Qed.
End live.
