(* ===== verification/ConsensusBoot.v ===== *)
(** * ConsensusBoot: the bootstrap of the engine

    The chain fetched below the anchor ([chain_ok]), the execution of the gap
    ([gap_loop]), the way to the live invariant, and the invariant of the whole
    engine under every event ([engine_ok]). *)

From S2P Require Import Prelude Schema Capture Exec Node ConsensusState Consensus ConsensusInv.

(** ** Heights *)

Lemma u64_next (x : u64) : (x < 2 ^ 64 - 1)%Z → uval (u_add x (u64_lit 1)) = (x + 1)%Z.
Proof.
  intros Hx. pose proof (uint_range x). unfold u_add. change (uval (u64_lit 1)) with 1%Z.
  apply wrap_small. lia.
Qed.

(** A list with an element for every height is as long as there are heights. *)
Lemma all_heights {A} (f : A → option u64) (l : list A) :
  (∀ h : u64, ∃ x, x ∈ l ∧ f x = Some h) → (2 ^ 64 ≤ Z.of_nat (length l))%Z.
Proof.
  intros Hl0. assert (length (omap f l) ≤ length l) as Hle.
  { clear. induction l as [|x l IH]; cbn; [done|]. destruct (f x); cbn; lia. }
  assert (∀ h, h ∈ omap f l) as Hl by (intros h; apply list_elem_of_omap; apply Hl0).
  clear Hl0. set (hs := (λ z, wrap z : u64) <$> seqZ 0 (2 ^ 64)).
  assert (Z.of_nat (length hs) = 2 ^ 64)%Z as Hlen by (unfold hs; rewrite length_fmap, length_seqZ; lia).
  assert (hs ⊆+ omap f l) as Hsub.
  { apply NoDup_submseteq; [|intros h _; apply Hl]. apply NoDup_fmap_2_strong; [|apply NoDup_seqZ].
    intros x y Hx%elem_of_seqZ Hy%elem_of_seqZ.
    intros E%(f_equal uval). revert E. rewrite !wrap_small; lia. }
  apply submseteq_length in Hsub. lia.
Qed.

Lemma u64_prev (x : u64) : uval x ≠ 0%Z → uval (u_sub x (u64_lit 1)) = (x - 1)%Z.
Proof.
  intros Hx. pose proof (uint_range x). unfold u_sub. change (uval (u64_lit 1)) with 1%Z.
  apply wrap_small. lia.
Qed.

Section boot.
Context {T P K N Body : Type}.
Context `{HC : Consensus T Body, !ConsensusLaws T Body, HP : PollSet P T, HK : EngineSink K}.
Context `{HX : Executor K Body, !ExecutorLaws K Body, HN : Net N}.
Context (cfg : Config).
Context (proposer : bytes → option (Hash * Hash * bytes)) (rlp_block : bytes → option (EthBlock Body)).
Context (rcv : list bytes).

Abbreviation Engine := (Engine T P (K * list sink_event) N Body).
Abbreviation parsed := (parsed proposer rlp_block rcv).
Context (F : list sink_event → error → Prop) (K0 : K → Prop) (SI : K → list sink_event → u64 → Hash → Prop).
Abbreviation live := (live cfg proposer rlp_block rcv SI).
Abbreviation goes := (goes cfg proposer rlp_block rcv F SI).
Abbreviation LInv := (LInv cfg proposer rlp_block rcv SI).
Abbreviation fatal := (fatal F).
Abbreviation good_log := (good_log cfg proposer rlp_block rcv).
Implicit Types (e : Engine) (c p anchor low : Container Body) (chain : gmap u64 (Container Body)).

(** There are fewer containers than heights. *)
Context (Hcount : (Z.of_nat (length rcv) < 2 ^ 64)%Z).
Context (F_mono : ∀ l l' er, l `prefix_of` l' → F l er → F l' er).
Context (Hsink : sink_ok cfg proposer rlp_block rcv F K0 SI) (Herr : errors_ok (T:=T) (P:=P) F).

#[local] Instance boot_goes_preorder : PreOrder (ConsensusInv.goes (T:=T) (P:=P) (N:=N) cfg proposer rlp_block rcv F SI).
Proof. by apply goes_preorder. Qed.

Abbreviation num c := (eb_Number (c_Eth c)).

(** ** The fetched chain *)

(** The containers from the anchor down to [low], each the parent of the next. *)
Record chain_ok (anchorID : Hash) chain anchor low : Prop := {
  ch_anchor : c_ID anchor = anchorID;
  ch_top : chain !! num anchor = Some anchor;
  ch_low : chain !! num low = Some low;
  ch_entry h c : chain !! h = Some c → num c = h ∧ (num low ≤ h ≤ num anchor)%Z ∧ parsed c;
  ch_full (h : u64) : (num low ≤ h ≤ num anchor)%Z → is_Some (chain !! h);
  ch_link (h : u64) c (h' : u64) p : chain !! h = Some c → chain !! h' = Some p → (uval h = h' + 1)%Z →
    eb_ParentHash (c_Eth c) = eb_Hash (c_Eth p) ∧ c_ParentID c = c_ID p
}.

Lemma chain_start c : parsed c → chain_ok (c_ID c) (<[num c:=c]> ∅) c c.
Proof.
  intros Hp. split; [done|apply lookup_insert_eq|apply lookup_insert_eq|..].
  - intros h c0 [[<- <-]|[_ Hl]]%lookup_insert_Some; [split_and!; [done|lia|lia|done]|by rewrite lookup_empty in Hl].
  - intros h [H1 H2]. replace h with (num c); [rewrite lookup_insert_eq; by eexists|]. apply uint_eq. lia.
  - intros h c0 h' p [[<- <-]|[_ Hl]]%lookup_insert_Some; [|by rewrite lookup_empty in Hl].
    intros [[<- <-]|[_ Hl]]%lookup_insert_Some; [lia|by rewrite lookup_empty in Hl].
Qed.

Lemma chain_extend anchorID chain anchor low c :
  chain_ok anchorID chain anchor low → parsed c → uval (num low) ≠ 0%Z →
  num c = u_sub (num low) (u64_lit 1) → eb_Hash (c_Eth c) = eb_ParentHash (c_Eth low) →
  c_ID c = c_ParentID low → chain_ok anchorID (<[num c:=c]> chain) anchor c.
Proof.
  intros [Ha Ht Hl He Hf Hk] Hp Hz Hn Hhash Hid.
  assert (uval (num c) = num low - 1)%Z as Hnc by (rewrite Hn; by apply u64_prev).
  destruct (He _ _ Ht) as (_ & Hra & _).
  assert (∀ h c0, chain !! h = Some c0 → h ≠ num c) as Hne.
  { intros h c0 Hc0 ->. destruct (He _ _ Hc0) as (_ & Hr & _). lia. }
  split; [done| |apply lookup_insert_eq|..].
  - rewrite lookup_insert_ne; [done|]. intros E. by apply (Hne _ _ Ht).
  - intros h c0 [[<- <-]|[_ Hc0]]%lookup_insert_Some; [split_and!; [done|lia|lia|done]|].
    destruct (He _ _ Hc0) as (? & ? & ?). split_and!; [done|lia|lia|done].
  - intros h Hr. destruct (decide (h = num c)) as [->|Hnh]; [rewrite lookup_insert_eq; by eexists|].
    rewrite lookup_insert_ne by done. apply Hf. split; [|lia].
    destruct (decide (uval h = uval (num c))) as [E%uint_eq|]; [done|]. lia.
  - intros h c0 h' p [[<- <-]|[_ Hc0]]%lookup_insert_Some [[<- <-]|[_ Hp0]]%lookup_insert_Some Hh.
    + lia.
    + destruct (He _ _ Hp0) as (_ & Hr & _). lia.
    + replace h with (num low) in Hc0 by (apply uint_eq; lia). rewrite Hl in Hc0. by injection Hc0 as <-.
    + by eapply Hk.
Qed.

(** ** The gap *)

(** The containers above [h], as [gap_loop] visits them. *)
Definition gap_next c : u64 := u_add (num c) (u64_lit 1).
Definition gap_depth c : Z := (- num c)%Z.

(** The chain never closes at the largest height: that would take a container
    for every height. *)
Lemma gap_step anchorID chain anchor low (h : u64) c c' :
  chain_ok anchorID chain anchor low → chain !! h = Some c → chain !! gap_next c = Some c' →
  uval (gap_next c) = (num c + 1)%Z.
Proof.
  intros Hc Hk Hk'. pose proof (uint_range (num c)) as Hr.
  destruct (decide (uval (num c) < 2 ^ 64 - 1)%Z) as [?|Hmax]; [by apply u64_next|]. exfalso.
  assert (uval (gap_next c) = 0%Z) as Hz.
  { unfold gap_next, u_add. change (uval (u64_lit 1)) with 1%Z. by replace (uval (num c)) with (2 ^ 64 - 1)%Z by lia. }
  destruct (ch_entry _ _ _ _ Hc _ _ Hk) as (<- & [_ Hhi] & _).
  destruct (ch_entry _ _ _ _ Hc _ _ Hk') as (_ & [Hlo _] & _).
  set (height := λ raw, match ParseContainer proposer rlp_block raw with Ok c => Some (num c) | Err _ => None end).
  pose proof (all_heights height rcv) as Hall. cut (2 ^ 64 ≤ Z.of_nat (length rcv))%Z; [lia|]. apply Hall. intros h.
  pose proof (uint_range h). pose proof (uint_range (num low)).
  destruct (ch_full _ _ _ _ Hc h ltac:(lia)) as [x Hx].
  destruct (ch_entry _ _ _ _ Hc _ _ Hx) as (<- & _ & raw & Hraw & Hp).
  exists raw. split; [done|]. unfold height. by rewrite Hp.
Qed.

Lemma gap_down anchorID chain anchor low :
  chain_ok anchorID chain anchor low → walk_down gap_next gap_depth chain.
Proof.
  intros Hc k c c' Hk Hk'. destruct (ch_entry _ _ _ _ Hc _ _ Hk) as (_ & _ & Hp).
  destruct (ch_entry _ _ _ _ Hc _ _ Hk') as (Hn & _). unfold gap_depth.
  rewrite Hn, (gap_step _ _ _ _ _ _ _ Hc Hk Hk'). lia.
Qed.

(** The log and the node after a block of the gap. *)
Lemma gap_block k l (h : u64) hash c res k' :
  good_log l h hash → SI k l h hash → parsed c → num c = u_add h (u64_lit 1) → uval (num c) ≠ 0%Z →
  eb_ParentHash (c_Eth c) = hash → ex_Execute k hash (c_Eth c) = (res, k') →
  match res with
  | Err er => F l er
  | Ok batch => ∀ r k2, es_Accepted (es_Verified k' batch) (num c) (BHash batch) = (r, k2) →
      match r with
      | Ok _ => let l' := (l ++ [SVerified batch]) ++ [SAccepted (num c) (BHash batch)] in
          good_log l' (num c) (BHash batch) ∧ SI k2 l' (num c) (BHash batch)
      | Err er => F ((l ++ [SVerified batch]) ++ [SAccepted (num c) (BHash batch)]) er
      end
  end.
Proof.
  intros Hlog Hsi Hp Hn Hnz <- Ex.
  pose proof (so_exec _ _ _ _ _ _ _ Hsink k l h (eb_ParentHash (c_Eth c)) [] h c res k' Hsi Hlog Hp (conj eq_refl eq_refl)
    ltac:(by intros b ?%elem_of_nil) Hn Hnz Ex) as Hv.
  destruct res as [batch|er]; [|done]. apply ex_Execute_law in Ex as (Hb1 & Hb2 & Hb3). rewrite <-Hb1.
  intros r k2 Ha. assert (of_parsed proposer rlp_block rcv batch) as Hof by (split; [by rewrite Hb1|by exists c]).
  assert (good_log (l ++ [SVerified batch]) h (eb_ParentHash (c_Eth c))) as Hlog1 by (by apply good_verified).
  assert (SVerified batch ∈ l ++ [SVerified batch]) as Hin by (apply elem_of_app; right; left).
  pose proof (so_accepted _ _ _ _ _ _ _ Hsink _ _ _ _ batch _ _ Hv Hlog1 Hin ltac:(congruence) Hb3 Ha) as Hsi'.
  destruct r; [|done]. split; [|done]. destruct Hlog1 as (h0 & hash0 & Hst & Hfo). exists h0, hash0.
  split; [done|]. eapply fo_accepted; [exact Hfo|done|congruence|done].
Qed.

Lemma gap_loop_follows anchorID anchor low fuel e (h : u64) c :
  chain_ok anchorID (e_bfChain e) anchor low → e_bfChain e !! h = Some c → e_fatal e = None →
  good_log (log e) h (eb_Hash (c_Eth c)) → SI (e_node e).1 (log e) h (eb_Hash (c_Eth c)) →
  walk_left gap_depth (e_bfChain e) (gap_next c) < fuel →
  match gap_loop fuel e (gap_next c) (eb_Hash (c_Eth c)) with
  | (true, e') => good_log (log e') (num anchor) (eb_Hash (c_Eth anchor)) ∧
      SI (e_node e').1 (log e') (num anchor) (eb_Hash (c_Eth anchor)) ∧
      (e_phase e', e_fatal e', e_recs e', e_bfChain e', e_net e') =
      (e_phase e, e_fatal e, e_recs e, e_bfChain e, e_net e)
  | (false, e') => fatal e'
  end.
Proof.
  revert e h c. induction fuel as [|fuel IH]; intros e h c Hc Hh Hn Hlog Hsi Hfuel; [lia|]. cbn [gap_loop].
  destruct (ch_entry _ _ _ _ Hc _ _ Hh) as (Hnc & Hr & Hp).
  destruct (e_bfChain e !! gap_next c) as [c'|] eqn:Ec'; cycle 1.
  { (* the chain ends at the anchor *)
    assert (h = num anchor) as ->.
    { apply uint_eq. destruct (decide (uval h = uval (num anchor))); [done|]. exfalso.
      destruct (ch_full _ _ _ _ Hc (gap_next c)) as [x Hx]; [|congruence].
      pose proof (uint_range (num anchor)). unfold gap_next. rewrite u64_next by (rewrite Hnc; lia). rewrite Hnc. lia. }
    rewrite (ch_top _ _ _ _ Hc) in Hh. by injection Hh as <-. }
  destruct (ch_entry _ _ _ _ Hc _ _ Ec') as (Hnc' & _ & Hp').
  pose proof (gap_step _ _ _ _ _ _ _ Hc Hh Ec') as Hnext.
  assert (eb_ParentHash (c_Eth c') = eb_Hash (c_Eth c)) as Hlink.
  { eapply (ch_link _ _ _ _ Hc); [exact Ec'|exact Hh|]. by rewrite Hnext, Hnc. }
  cbn [ex_Execute Logged_exec]. destruct (ex_Execute (e_node e).1 _ _) as [res x] eqn:Ex.
  pose proof (gap_block _ _ _ _ _ _ _ Hlog Hsi Hp' ltac:(by rewrite Hnc', <-Hnc)
    ltac:(rewrite Hnc', Hnext; pose proof (uint_range (num c)); lia) Hlink Ex) as Hg.
  destruct res as [batch|er]; [|by apply fail_fatal].
  apply ex_Execute_law in Ex as (_ & Hb2 & _). rewrite Hnc' in Hg.
  cbn [es_Accepted es_Verified Logged e_node eset_node fst snd].
  destruct (es_Accepted _ _ _) as [r k] eqn:Ea. specialize (Hg _ _ eq_refl).
  destruct r as [[]|er]; [|by apply fail_fatal]. destruct Hg as [Hlog1 Hsi1].
  rewrite Hb2 in *. set (e1 := eset_node _ _).
  replace (u_add (gap_next c) (u64_lit 1)) with (gap_next c') by (unfold gap_next at 1; by rewrite Hnc').
  apply (IH e1 (gap_next c) c'); [done|done|done|exact Hlog1|exact Hsi1|].
  pose proof (walk_left_next gap_next gap_depth _ _ _ (gap_down _ _ _ _ Hc) Ec'). cbn. lia.
Qed.

(** ** The invariant of the whole engine *)

Definition polling e : Prop :=
  e_fatal e = None ∧ e_phase e = phasePollAnchor ∧ e_recs e = ∅ ∧ log e = [] ∧ K0 (e_node e).1 ∧
  e_bfAnchor e = None ∧ e_bfLow e = None.

(** The chain so far: nothing, or a linked chain below the anchor that has not
    reached the first block. *)
Definition backfilling e : Prop :=
  e_fatal e = None ∧ e_phase e = phaseBackfill ∧ e_recs e = ∅ ∧ log e = [] ∧ K0 (e_node e).1 ∧
  match e_bfLow e with
  | None => e_bfAnchor e = None ∧ e_bfChain e = ∅
  | Some low => uval (num low) ≠ 0%Z ∧
      ∃ anchor, e_bfAnchor e = Some anchor ∧ chain_ok (e_anchorID e) (e_bfChain e) anchor low
  end.

Definition engine_ok e : Prop := fatal e ∨ polling e ∨ backfilling e ∨ live e.

(** The core of the state is what the phases look at. *)
Lemma engine_ok_core e e' : core e' = core e → engine_ok e → engine_ok e'.
Proof.
  intros Hc. pose proof Hc as Hc'. unfold core in Hc'. injection Hc' as H1 H2 H3 H4 H5 H6 H7 H8 H9 H10 H11 H12.
  intros [Hf|[Hp|[Hb|Hl]]].
  - left. unfold ConsensusInv.fatal, log in *. by rewrite H2, H8.
  - right; left. unfold polling, log in *. by rewrite H1, H2, H4, H8, H11, H12.
  - right; right; left. unfold backfilling, log in *. by rewrite H1, H2, H4, H8, H9, H10, H11, H12.
  - destruct (goes_core cfg proposer rlp_block rcv F SI e e' Hc) as [_ Hg]. destruct (Hg Hl); [by left|by do 3 right].
Qed.

Lemma core_sendBackfillRequest e : core (sendBackfillRequest e) = core e.
Proof.
  unfold sendBackfillRequest. pose proof (core_SelectPeer e) as Hp.
  destruct (SelectPeer e) as [[peer|] e1]; cbn [snd] in Hp; [|done].
  pose proof (core_NextRequestID e1) as Hr. destruct (NextRequestID e1) as [req e2]. cbn [snd] in Hr.
  match goal with |- context [time_now ?x] => pose proof (core_time_now x) as Ht; destruct (time_now x) as [now e3] end.
  cbn [snd] in Ht. assert (core e3 = core e) as He3 by (rewrite Ht; transitivity (core e2); [done|congruence]).
  by destruct (e_bfLow _).
Qed.

(** Going live establishes the live invariant. *)
Lemma go_live_ok e anchor :
  e_recs e = ∅ → parsed anchor → e_fatal e = None → good_log (log e) (num anchor) (eb_Hash (c_Eth anchor)) →
  SI (e_node e).1 (log e) (num anchor) (eb_Hash (c_Eth anchor)) →
  fatal (go_live cfg e anchor) ∨ live (go_live cfg e anchor).
Proof.
  intros Hre Hp Hn Hlog Hsi. unfold go_live.
  match goal with |- context [time_now ?x] => pose proof (core_time_now x) as Ht; destruct (time_now x) as [now e1] end.
  cbn [snd] in Ht. unfold core in Ht. cbn in Ht. injection Ht as H1 H2 H3 H4 H5 H6 H7 H8 _ _ _ _.
  destruct (cs_Initialize _ _ _ _) as [t|er] eqn:Ei;
    [|left; by apply fail_fatal; [eapply (eo_init _ Herr)|cbn; congruence]].
  destruct (pl_New _ t) as [p|er] eqn:Epl; [|left; by apply fail_fatal; [eapply (eo_polls _ Herr)|cbn; congruence]].
  apply cs_Initialize_law in Ei as (Hw & Hbl & Hla).
  set (e2 := eset_phase phaseLive _).
  destruct (goes_sendPoll cfg proposer rlp_block rcv F K0 SI F_mono Hsink Herr e2) as [_ Hg]. apply Hg.
  split_and!; [cbn; congruence|exact Hw|]. cbn [e_cons e2 eset_phase eset_bfLow eset_bfAnchor eset_bfChain eset_polls eset_cons].
  rewrite Hbl, Hla. unfold e2. split; cbn; rewrite ?H4, ?H5, ?H6, ?H7, ?Hre; try done.
  - split; [by intros ?%lookup_empty_Some|]. intros (r & Hr & _). by rewrite lookup_empty in Hr.
  - split; [done|]. by exists anchor.
  - unfold log in *. cbn. by rewrite H8.
  - unfold log in *. cbn. by rewrite H8.
Qed.

Lemma start_point_ok anchorID anchor e start (h : u64) hash :
  chain_ok anchorID (e_bfChain e) anchor start → start_point cfg e start = Ok (h, hash) →
  start_ok cfg h hash ∧ ∃ c, e_bfChain e !! h = Some c ∧ eb_Hash (c_Eth c) = hash.
Proof.
  intros Hc. unfold start_point, start_ok. destruct (cf_Resume cfg) as [r|].
  - destruct (e_bfChain e !! an_Height r) as [rc|] eqn:Er; [|done].
    destruct (an_EthHash r) as [want|]; [case_bool_decide as Hw; [done|]|];
      intros [= <- <-]; (split; [done|by exists rc]).
  - intros [= <- <-]. split; [done|]. exists start. split; [apply (ch_low _ _ _ _ Hc)|done].
Qed.

Lemma chain_headers_parsed anchorID chain anchor low lo hi hd :
  chain_ok anchorID chain anchor low → hd ∈ chain_headers chain lo hi → ∃ c, parsed c ∧ hd = eb_Header (c_Eth c).
Proof.
  intros Hc (c & -> & (z & _ & Hz)%list_elem_of_omap)%list_elem_of_fmap. exists c.
  by destruct (ch_entry _ _ _ _ Hc _ _ Hz) as (_ & _ & ?).
Qed.

Lemma start_point_err e start er : start_point cfg e start = Err er → er = ErrMsg "consensus".
Proof.
  unfold start_point. destruct (cf_Resume cfg) as [r|]; [|done].
  destruct (e_bfChain e !! an_Height r); [|by intros [= <-]].
  destruct (an_EthHash r); [case_bool_decide; [by intros [= <-]|done]|done].
Qed.

Lemma finishBootstrap_ok anchorID anchor start e :
  chain_ok anchorID (e_bfChain e) anchor start → e_recs e = ∅ → log e = [] → K0 (e_node e).1 → e_fatal e = None →
  fatal (finishBootstrap cfg e anchor start) ∨ live (finishBootstrap cfg e anchor start).
Proof.
  intros Hc Hre Hlog HK0 Hno. unfold finishBootstrap.
  destruct (start_point cfg e start) as [[h hash]|er] eqn:Es; cycle 1.
  { left. apply fail_fatal; [|done]. apply start_point_err in Es as ->. apply (eo_start _ Herr). }
  destruct (start_point_ok _ _ _ _ _ _ Hc Es) as (Hst & c & Hh & Hhash).
  set (e1 := if cf_Seed cfg then _ else _).
  assert (K0 (e_node e1).1 ∧ log e1 = [] ∧ e_fatal e1 = None ∧ e_recs e1 = ∅ ∧ e_bfChain e1 = e_bfChain e)
    as (HK1 & H8 & H2 & H4 & H10).
  { unfold e1. destruct (cf_Seed cfg); [|done]. split_and!; [|done..].
    eapply (so_seed _ _ _ _ _ _ _ Hsink); [done|]. intros hd Hhd; by eapply chain_headers_parsed. }
  clearbody e1.
  destruct (ch_entry _ _ _ _ Hc _ _ Hh) as (Hn & _ & Hpc).
  cbn [es_Make Logged]. destruct (es_Make _ h hash) as [r k] eqn:Em.
  apply (so_make _ _ _ _ _ _ _ Hsink) in Em; [|done|done|by exists c].
  destruct r as [[]|er]; [|left; apply fail_fatal; [unfold log in *; cbn; by rewrite H8|cbn; congruence]].
  set (e2 := eset_node _ e1). assert (log e2 = [SMake h hash]) as Hl2 by (unfold log, e2 in *; cbn; by rewrite H8).
  assert (good_log (log e2) h hash) as Hgl by (rewrite Hl2; exists h, hash; split; [done|apply fo_start]).
  pose proof (gap_loop_follows anchorID anchor start (S (size (e_bfChain e2))) e2 h c) as Hg.
  unfold gap_next in Hg at 2. rewrite Hn, Hhash, Hl2 in Hg. rewrite Hl2 in Hgl.
  cbn [e_bfChain e_fatal e_node fst e2 eset_node] in Hg |- *. rewrite H10 in *.
  specialize (Hg Hc Hh ltac:(congruence) Hgl Em
    ltac:(pose proof (walk_left_size gap_depth (e_bfChain e) (gap_next c)); lia)).
  destruct (gap_loop _ e2 _ hash) as [[] e3]; [|by left].
  destruct Hg as (Hlog3 & Hsi3 & Hsame). injection Hsame as _ Hf3 Hre3 _ _.
  apply go_live_ok; [cbn in Hre3; congruence| |cbn in Hf3; congruence|done|done].
  by destruct (ch_entry _ _ _ _ Hc _ _ (ch_top _ _ _ _ Hc)) as (_ & _ & ?).
Qed.

Lemma backfillContainer_ok e c :
  parsed c → backfilling e →
  fatal (backfillContainer cfg e c) ∨ backfilling (backfillContainer cfg e c) ∨ live (backfillContainer cfg e c).
Proof.
  intros Hp (Hno & Hph & Hre & Hlog & HK0 & Hbf). unfold backfillContainer. set (next := match e_bfLow e with None => _ | Some _ => _ end).
  destruct next eqn:En; cbn [negb]; [|right; left; by unfold backfilling].
  set (anchor := default c (e_bfAnchor e)).
  assert (chain_ok (e_anchorID e) (<[num c:=c]> (e_bfChain e)) anchor c) as Hc.
  { unfold next, anchor in *. destruct (e_bfLow e) as [low|].
    - apply andb_true_iff in En as [[H1%bool_decide_eq_true H2%bool_decide_eq_true]%andb_true_iff H3%bool_decide_eq_true].
      destruct Hbf as (Hz & anc & -> & Hc). by eapply chain_extend.
    - apply bool_decide_eq_true in En. destruct Hbf as [-> ->]. cbn [default]. rewrite <-En. by apply chain_start. }
  set (e1 := eset_bfLow (Some c) _). destruct (_ || _) eqn:Ed.
  - destruct (finishBootstrap_ok (e_anchorID e) anchor c e1) as [?|?]; [exact Hc|done|done|done|done|by left|by do 2 right].
  - apply orb_false_iff in Ed as [_ Hz%bool_decide_eq_false]. right; left.
    unfold backfilling. split_and!; [done|done|done|done|done|]. cbn. split; [done|]. by exists anchor.
Qed.

(** ** A fatal error stays *)

Lemma keeps_core e e' : core e' = core e → keeps e e'.
Proof. by intros []%(goes_core cfg proposer rlp_block rcv F SI). Qed.

Lemma gap_loop_keeps fuel e h ph : keeps e (gap_loop fuel e h ph).2.
Proof.
  revert e h ph. induction fuel as [|fuel IH]; intros e h ph; cbn [gap_loop]; [apply keeps_fail|].
  destruct (e_bfChain e !! h) as [c|]; [|done]. cbn [ex_Execute Logged_exec].
  destruct (ex_Execute _ _ _) as [[batch|er] x]; [|etransitivity; [|apply keeps_fail]; by apply keeps_same].
  cbn [es_Accepted es_Verified Logged e_node eset_node fst snd].
  destruct (es_Accepted _ _ _) as [r k]. set (e1 := eset_node _ _).
  assert (keeps e e1) as Hk.
  { apply keeps_same; [done|]. unfold log. cbn. rewrite <-app_assoc. by apply prefix_app_r. }
  destruct r as [[]|er]; [transitivity e1; [done|apply IH]|]. transitivity e1; [done|apply keeps_fail].
Qed.

Lemma go_live_keeps e anchor : keeps e (go_live cfg e anchor).
Proof.
  unfold go_live.
  match goal with |- context [time_now ?x] => pose proof (keeps_core x _ (core_time_now x)) as Ht;
    destruct (time_now x) as [now e1] end. cbn [snd] in Ht.
  destruct (cs_Initialize _ _ _ _) as [t|er]; [|etransitivity; [exact Ht|]; etransitivity; [|apply keeps_fail]; by apply keeps_same].
  destruct (pl_New _ t) as [p|er]; [|etransitivity; [exact Ht|]; etransitivity; [|apply keeps_fail]; by apply keeps_same].
  etransitivity; [exact Ht|].
  match goal with |- keeps _ (sendPoll _ ?x).2 => transitivity x; [done|] end.
  by eapply goes_sendPoll.
Qed.

Lemma backfillContainer_keeps e c : keeps e (backfillContainer cfg e c).
Proof.
  unfold backfillContainer. destruct (negb _); [done|]. destruct (_ || _); [|done].
  unfold finishBootstrap. destruct (start_point _ _ _) as [[h hash]|er]; [|etransitivity; [|apply keeps_fail]; by apply keeps_same].
  set (e1 := if cf_Seed cfg then _ else _). assert (keeps e e1) as H1 by (unfold e1; by destruct (cf_Seed cfg)).
  cbn [es_Make Logged]. destruct (es_Make _ _ _) as [r k]. set (e2 := eset_node _ e1).
  assert (keeps e1 e2) as H2 by (apply keeps_same; [done|]; by apply prefix_app_r).
  transitivity e1; [done|]. transitivity e2; [done|]. destruct r as [[]|er]; [|apply keeps_fail].
  match goal with |- context [gap_loop ?f ?x ?h ?p] => pose proof (gap_loop_keeps f x h p) as Hg;
    destruct (gap_loop f x h p) as [[] e3] end; cbn [snd] in Hg; [|done].
  transitivity e3; [done|apply go_live_keeps].
Qed.

(** ** Events *)

Abbreviation handle := (handle cfg proposer rlp_block).
Abbreviation run := (run cfg proposer rlp_block).

Lemma engine_ok_goes e e' : goes e e' → engine_ok e → e_phase e = phaseLive → engine_ok e'.
Proof.
  intros [Hf Hg] [?|[(_ & Hp & _)|[(_ & Hp & _)|Hl]]] Hph; [left; by eapply keeps_fatal|congruence..|].
  destruct (Hg Hl); [by left|by do 3 right].
Qed.

Lemma backfill_step e c : parsed c → engine_ok e → e_phase e = phaseBackfill → engine_ok (backfillContainer cfg e c).
Proof.
  intros Hc [Hf|[(_ & Hp & _)|[Hb|Hl]]] Hph.
  - left. by eapply keeps_fatal; [|apply backfillContainer_keeps|].
  - congruence.
  - destruct (backfillContainer_ok e c Hc Hb) as [?|[?|?]]; [by left|by right; right; left|by do 3 right].
  - destruct Hl as (_ & _ & Hl). pose proof (li_phase _ _ _ _ _ _ _ _ Hl). congruence.
Qed.

Lemma OnContainer_ok e node raw : raw ∈ rcv → engine_ok e → engine_ok (OnContainer cfg proposer rlp_block e node raw).
Proof.
  intros Hin He. unfold OnContainer. destruct (ParseContainer _ _ raw) as [c|] eqn:Ep; [|done].
  assert (parsed c) as Hc by (by exists raw). set (e1 := eset_gets _ e).
  assert (engine_ok e1) as He1 by (by apply (engine_ok_core e)).
  destruct (e_phase e1) eqn:Eph; [done| |].
  - pose proof (backfill_step e1 c Hc He1 Eph) as Hb. case_bool_decide; [|done].
    eapply engine_ok_core; [apply core_sendBackfillRequest|done].
  - eapply engine_ok_goes; [|exact He1|done]. by eapply goes_addContainer.
Qed.

Lemma ancestors_loop_ok e containers :
  (∀ raw, raw ∈ containers → raw ∈ rcv) → engine_ok e → e_phase e = phaseBackfill →
  engine_ok (ancestors_loop cfg proposer rlp_block e containers).2.
Proof.
  intros Hin. revert e. induction containers as [|raw containers IH]; intros e He Hp; cbn [ancestors_loop]; [done|].
  destruct (ParseContainer _ _ raw) as [c|] eqn:Ep; [|done].
  pose proof (backfill_step e c ltac:(exists raw; split; [apply Hin; left|done]) He Hp) as Hb.
  case_bool_decide as Hph; [done|]. apply IH; [|done|done]. intros r Hr. apply Hin. by right.
Qed.

Lemma OnAncestors_ok e node req containers :
  (∀ raw, raw ∈ containers → raw ∈ rcv) → engine_ok e → engine_ok (OnAncestors cfg proposer rlp_block e node req containers).
Proof.
  intros Hin He. unfold OnAncestors. destruct (_ || _) eqn:Eg; [done|].
  apply orb_false_iff in Eg as [Hp%bool_decide_eq_false _]. apply dec_stable in Hp.
  pose proof (ancestors_loop_ok (eset_bfReqID (u32_lit 0) e) containers Hin) as Hl.
  destruct (ancestors_loop _ _ _ _ containers) as [[] e1]; cbn [snd] in Hl;
    [eapply engine_ok_core; [apply core_sendBackfillRequest|]|]; by apply Hl; [apply (engine_ok_core e)|].
Qed.

Lemma bootstrapChit_ok e node req acc h :
  engine_ok e → e_phase e = phasePollAnchor → engine_ok (bootstrapChit cfg e node req acc h).
Proof.
  intros He Hp. unfold bootstrapChit. destruct (_ || _); [done|].
  destruct (_ <? _)%Z; [by apply (engine_ok_core e)|].
  eapply engine_ok_core; [apply core_sendBackfillRequest|].
  destruct He as [?|[(Hno & _ & Hre & Hlog & HK0 & Ha & Hl)|[(_ & Hp' & _)|Hl]]]; [by left| |congruence|].
  - right; right; left. unfold backfilling. split_and!; [done|done|done|done|done|]. cbn. by rewrite Hl.
  - destruct Hl as (_ & _ & Hl). pose proof (li_phase _ _ _ _ _ _ _ _ Hl). congruence.
Qed.

Lemma OnChits_ok e node req pref prefAt acc h : engine_ok e → engine_ok (OnChits cfg e node req pref prefAt acc h).
Proof.
  intros He. unfold OnChits. destruct (e_phase e) eqn:Eph; [by apply bootstrapChit_ok|done|].
  eapply engine_ok_goes; [|exact He|done]. set (e1 := eset_frontiers _ e).
  transitivity e1; [by apply goes_core|]. destruct (e_pollVdrs e1 !! req) as [ps|]; [|reflexivity].
  destruct (negb _); [reflexivity|]. set (e2 := eset_pollVdrs _ e1). set (e3 := fetchIfUnknown e2 pref).
  set (e4 := if bool_decide _ then _ else _).
  pose proof (core_time_now e4) as Ht. destruct (time_now e4) as [now e5]. cbn [snd] in Ht.
  assert (core e4 = core e1) as H4.
  { transitivity (core e3); [unfold e4; case_bool_decide; [apply core_fetchIfUnknown|done]|].
    unfold e3. by rewrite core_fetchIfUnknown. }
  transitivity e5; [apply goes_core; congruence|by eapply goes_applyVote].
Qed.

Lemma core_sendBootstrapPoll e : core (sendBootstrapPoll cfg e) = core e.
Proof.
  unfold sendBootstrapPoll. pose proof (core_SampleValidators cfg e) as H1.
  destruct (SampleValidators cfg e) as [vdrs e1]. cbn [snd] in H1. destruct vdrs as [[|v vdrs]|]; [done| |done].
  pose proof (core_NextRequestID e1) as H2. destruct (NextRequestID e1) as [req e2]. cbn [snd] in H2.
  match goal with |- context [split_connected ?l ?x] => pose proof (core_split_connected l x) as H3;
    destruct (split_connected l x) as [[targets off] e3] end. cbn [snd] in H3.
  assert (core e3 = core e) as H4 by (rewrite H3; transitivity (core e2); [done|congruence]).
  destruct (Nat.eqb _ _); [done|]. pose proof (core_time_now e3) as H5. destruct (time_now e3) as [now e4].
  cbn [snd] in H5. transitivity (core e4); [done|congruence].
Qed.

Lemma Tick_ok fuel e : engine_ok e → engine_ok (Tick cfg fuel e).
Proof.
  intros He. unfold Tick. pose proof (core_time_now e) as Ht. destruct (time_now e) as [now e1]. cbn [snd] in Ht.
  assert (engine_ok e1) as He1 by (by eapply engine_ok_core). clear He Ht e.
  destruct (e_phase e1) eqn:Eph.
  - destruct (since _ _ _); [|done]. eapply engine_ok_core; [apply core_sendBootstrapPoll|done].
  - destruct (_ || _); [|done]. eapply engine_ok_core; [apply core_sendBackfillRequest|done].
  - eapply engine_ok_goes; [|exact He1|done]. set (e2 := expirePolls cfg e1 now).
    set (e3 := expireParked cfg e2 now). set (e4 := retryGets e3 now).
    set (e5 := if (0 <? _)%Z then _ else _).
    assert (goes e1 e5) as H5.
    { transitivity e2; [by eapply goes_expirePolls|]. transitivity e3; [by eapply goes_expireParked|].
      transitivity e4; [by apply goes_retryGets|]. unfold e5. destruct (_ <? _)%Z; [by apply (goes_poll_loop cfg proposer rlp_block rcv F K0 SI F_mono Hsink Herr)|].
      destruct (since _ _ _); [by eapply goes_sendPoll|reflexivity]. }
    transitivity e5; [done|]. clearbody e5. destruct (e_lastAcceptAt e5); [|reflexivity].
    destruct (_ <? _)%Z; [apply goes_core; reflexivity|reflexivity].
Qed.

(** The invariant holds after every event. *)
Lemma run_ok e evs : (∀ raw, raw ∈ received evs → raw ∈ rcv) → engine_ok e → engine_ok (run e evs).
Proof.
  revert e. induction evs as [|ev evs IH]; intros e Hin He; [done|].
  assert (∀ raw, raw ∈ received [ev] → raw ∈ rcv) as Hev.
  { intros raw Hr. apply Hin. change (ev :: evs) with ([ev] ++ evs). unfold received. rewrite bind_app.
    apply elem_of_app. by left. }
  apply IH; [intros raw Hr; apply Hin; unfold received; cbn; apply elem_of_app; by right|].
  unfold received in Hev. cbn in Hev. rewrite app_nil_r in Hev.
  destruct ev; [apply OnContainer_ok; [apply Hev; left|done]|by apply OnChits_ok|by apply OnAncestors_ok|by apply Tick_ok].
Qed.

(** What holds of the sink and its log in each phase; a fatal error is one of
    [F]. *)
Lemma engine_ok_log e :
  engine_ok e →
  match e_fatal e with
  | Some er => F (log e) er
  | None =>
      match e_phase e with
      | phaseLive => good_log (log e) (e_lastAcceptedHeight e) (e_lastAcceptedEthHash e) ∧
          SI (e_node e).1 (log e) (e_lastAcceptedHeight e) (e_lastAcceptedEthHash e)
      | _ => log e = [] ∧ K0 (e_node e).1
      end
  end.
Proof.
  intros [(er & -> & ?)|[(-> & -> & _ & ? & ? & _)|[(-> & -> & _ & ? & ? & _)|(-> & _ & Hl)]]]; [done|done|done|].
  rewrite (li_phase _ _ _ _ _ _ _ _ Hl). split; apply Hl.
Qed.
End boot.
