(* ===== verification/ConsensusLoops.v ===== *)
(** * ConsensusLoops: the loops of the engine end

    The walk of a vote reaches the nearest block consensus knows, or tells what it
    lacks ([walk]); the recursion over waiting children and the poll loop of a tick
    do not depend on their bounds. *)

From S2P Require Import Prelude Schema Capture Exec Node ConsensusState Consensus.

Section loops.
Context {T P K N Body : Type}.
Context `{HC : Consensus T Body, HP : PollSet P T, HK : EngineSink K, HX : Executor K Body, HN : Net N}.
Context (cfg : Config).

Abbreviation Engine := (Engine T P K N Body).
Implicit Types (e : Engine) (c : Container Body) (r : rec Body).

(** ** The walk of a vote *)

(** A block a vote can be for. *)
Definition votable e (id : Hash) : Prop := id = e_lastAcceptedID e ∨ cs_Processing (e_cons e) id = true.

(** Where a vote ends up: at the first votable block on the way down, at the
    first unknown one, or nowhere when the way goes below the accepted height. *)
Inductive walk e : Hash → bubbled → Prop :=
| walk_here id : votable e id → walk e id (Bubbled id)
| walk_unknown id : ¬ votable e id → e_recs e !! id = None → walk e id (Blocked id)
| walk_stale id r :
    ¬ votable e id → e_recs e !! id = Some r → (eb_Number (c_Eth (r_c r)) ≤ e_lastAcceptedHeight e)%Z →
    walk e id (Blocked ids_Empty)
| walk_parent id r b :
    ¬ votable e id → e_recs e !! id = Some r → (e_lastAcceptedHeight e < eb_Number (c_Eth (r_c r)))%Z →
    walk e (c_ParentID (r_c r)) b → walk e id b.

(** Parent links do not run in circles: IDs are hashes. *)
Definition acyclic e : Prop :=
  ∃ rank : Hash → nat, walk_down (λ r, c_ParentID (r_c r)) (λ r, Z.of_nat (rank (c_ID (r_c r)))) (e_recs e).

Lemma votable_bool e id :
  bool_decide (id = e_lastAcceptedID e) || cs_Processing (e_cons e) id = true ↔ votable e id.
Proof. unfold votable. rewrite orb_true_iff, bool_decide_eq_true. done. Qed.

Lemma bubble_walk fuel e id b : bubble fuel e id = Some b → walk e id b.
Proof.
  revert id. induction fuel as [|fuel IH]; intros id; cbn [bubble]; [done|].
  destruct (_ || _) eqn:Ev; [apply votable_bool in Ev; intros [= <-]; by apply walk_here|].
  assert (¬ votable e id) as Hn by (rewrite <-votable_bool; congruence).
  destruct (e_recs e !! id) as [r|] eqn:Er; [|intros [= <-]; by apply walk_unknown].
  destruct (Z.leb_spec (eb_Number (c_Eth (r_c r))) (e_lastAcceptedHeight e)).
  - intros [= <-]. by eapply walk_stale.
  - intros. eapply walk_parent; [done|done|lia|by apply IH].
Qed.

Lemma bubble_total fuel e id rank :
  walk_down (λ r, c_ParentID (r_c r)) (λ r, Z.of_nat (rank (c_ID (r_c r)))) (e_recs e) →
  walk_left (λ r, Z.of_nat (rank (c_ID (r_c r)))) (e_recs e) id < fuel → is_Some (bubble fuel e id).
Proof.
  intros Hd. revert id. induction fuel as [|fuel IH]; intros id Hf; [lia|]. cbn [bubble].
  destruct (_ || _); [by eexists|]. destruct (e_recs e !! id) as [r|] eqn:Er; [|by eexists].
  destruct (_ <=? _)%Z; [by eexists|]. apply IH.
  pose proof (walk_left_next _ _ _ _ _ Hd Er). cbn beta in *. lia.
Qed.

Lemma walk_fun e id b b' : walk e id b → walk e id b' → b = b'.
Proof.
  intros Hw. revert b'. induction Hw; intros b' Hw'; inversion Hw'; subst; try done; try congruence; try lia.
  - assert (r0 = r) by congruence. subst. lia.
  - assert (r0 = r) by congruence. subst. lia.
  - assert (r0 = r) by congruence. subst. by apply IHHw.
Qed.

(** [bubble] computes the walk, and without circles its bound is never
    reached. *)
Lemma bubble_vote_walk e id : acyclic e → ∃ b, bubble_vote e id = Some b ∧ ∀ b', walk e id b' ↔ b' = b.
Proof.
  intros [rank Hd].
  destruct (bubble_total (S (size (e_recs e))) e id rank Hd) as [b0 Hb0].
  { pose proof (walk_left_size (λ r : rec Body, Z.of_nat (rank (c_ID (r_c r)))) (e_recs e) id). lia. }
  pose proof (bubble_walk _ _ _ _ Hb0) as Hw. exists b0. split; [exact Hb0|].
  intros b'. split; [|by intros ->]. intros Hw'. by eapply walk_fun.
Qed.

(** ** Waiting children *)

(** Records under their own ID. *)
Definition keyed_recs (m : gmap Hash (rec Body)) : Prop := ∀ id r, m !! id = Some r → c_ID (r_c r) = id.

(** The records still to be issued. *)
Definition unissued (m : gmap Hash (rec Body)) : nat := size (filter (λ kv, r_issued kv.2 = false) m).

(** What the handlers do to the records: drop some, mark some. *)
Definition shrinks (m m' : gmap Hash (rec Body)) : Prop :=
  ∀ id r', m' !! id = Some r' → ∃ r, m !! id = Some r ∧ r_c r' = r_c r ∧ (r_issued r = true → r_issued r' = true).

#[global] Instance shrinks_preorder : PreOrder shrinks.
Proof.
  split; [intros m id r Hr; by exists r|]. intros m1 m2 m3 H12 H23 id r3 H3.
  destruct (H23 _ _ H3) as (r2 & H2 & Hc & Hi). destruct (H12 _ _ H2) as (r1 & H1 & Hc1 & Hi1).
  exists r1. split_and!; [done|congruence|auto].
Qed.

Lemma shrinks_keyed m m' : shrinks m m' → keyed_recs m → keyed_recs m'.
Proof. intros Hs Hk id r' Hr'. destruct (Hs _ _ Hr') as (r & Hr & -> & _). by apply Hk. Qed.

Lemma filter_subset m m' :
  shrinks m m' → dom (filter (λ kv, r_issued kv.2 = false) m') ⊆ dom (filter (λ kv, r_issued kv.2 = false) m).
Proof.
  intros Hs id [r' [Hr' Hi']%map_lookup_filter_Some]%elem_of_dom. cbn in Hi'.
  destruct (Hs _ _ Hr') as (r & Hr & _ & Hi). apply elem_of_dom. exists r. apply map_lookup_filter_Some.
  split; [done|]. cbn. destruct (r_issued r); [|done]. by rewrite Hi in Hi'.
Qed.

Lemma shrinks_unissued m m' : shrinks m m' → unissued m' ≤ unissued m.
Proof. intros Hs. unfold unissued. rewrite <-!size_dom. by apply subseteq_size, filter_subset. Qed.

(** A record that is gone or marked is one less. *)
Lemma shrinks_less m m' id r :
  shrinks m m' → m !! id = Some r → r_issued r = false →
  (∀ r', m' !! id = Some r' → r_issued r' = true) → unissued m' < unissued m.
Proof.
  intros Hs Hr Hi Hd. unfold unissued. rewrite <-!size_dom. apply subset_size.
  split; [by apply filter_subset|]. intros Hsub.
  assert (id ∈ dom (filter (λ kv, r_issued kv.2 = false) m')) as [r' [Hr' Hi']%map_lookup_filter_Some]%elem_of_dom.
  { apply Hsub, elem_of_dom. exists r. by apply map_lookup_filter_Some. }
  cbn in Hi'. by rewrite (Hd r' Hr') in Hi'.
Qed.

Lemma shrinks_delete m id : shrinks m (delete id m).
Proof. intros id' r' [_ Hr]%lookup_delete_Some. by exists r'. Qed.
Lemma shrinks_filter m (Q : Hash * rec Body → Prop) `{∀ x, Decision (Q x)} : shrinks m (filter Q m).
Proof. intros id r' [Hr _]%map_lookup_filter_Some. by exists r'. Qed.
Lemma shrinks_mark m id : shrinks m (alter (λ r, MkRec (r_c r) (r_ethHash r) true) id m).
Proof.
  intros id' r' Hr'. destruct (decide (id = id')) as [->|Hne].
  - rewrite lookup_alter_eq in Hr'. destruct (m !! id') as [r|]; [|done]. injection Hr' as <-. by exists r.
  - rewrite lookup_alter_ne in Hr' by done. by exists r'.
Qed.

Lemma recs_fail e er : e_recs (fail e er) = e_recs e.
Proof. unfold fail. by destruct (e_fatal e). Qed.

Lemma shrinks_onAccept e c : shrinks (e_recs e) (e_recs (onAccept e c).2).
Proof.
  unfold onAccept, time_now. destruct (nt_Now _) as [now n]. destruct (es_Accepted _ _ _) as [r k].
  cbn [snd e_recs eset_node eset_recs]. etransitivity; [|apply shrinks_filter]. apply shrinks_delete.
Qed.

Lemma shrinks_run e ds : shrinks (e_recs e) (e_recs (run_decisions e ds).2).
Proof.
  revert e. induction ds as [|[c|c] ds IH]; intros e; cbn [run_decisions]; [done| |].
  - pose proof (shrinks_onAccept e c) as Ha. destruct (onAccept e c) as [[[]|er] e1]; cbn [snd] in *; [|done].
    transitivity (e_recs e1); [done|apply IH].
  - transitivity (e_recs (onReject e c)); [apply shrinks_delete|apply IH].
Qed.

Lemma shrinks_call_cons e x : shrinks (e_recs e) (e_recs (call_cons e x).2).
Proof.
  destruct x as [[ds t] err]. unfold call_cons. pose proof (shrinks_run e ds) as Hr.
  by destruct (run_decisions e ds) as [[er|] e1].
Qed.

Lemma issue_shrinks e r ph :
  shrinks (e_recs e) (e_recs (issue e r ph).2) ∧
  ((issue e r ph).1 = true → ∀ r', e_recs (issue e r ph).2 !! c_ID (r_c r) = Some r' → r_issued r' = true).
Proof.
  unfold issue. destruct (ex_Execute _ _ _) as [[batch|er] x]; [|split; cbn [fst snd]; [by rewrite recs_fail|done]].
  match goal with |- context [call_cons ?a ?b] => pose proof (shrinks_call_cons a b) as Hc;
    destruct (call_cons a b) as [[er|] e1] end; cbn [fst snd] in *;
    [split; [by rewrite recs_fail|done]|].
  cbn [e_recs eset_recs]. split.
  - etransitivity; [exact Hc|apply shrinks_mark].
  - intros _ r'. rewrite lookup_alter_eq. destruct (e_recs e1 !! _); [|done]. by intros [= <-].
Qed.

Lemma recs_emitHead e : e_recs (emitHead e) = e_recs e.
Proof.
  unfold emitHead. destruct (if bool_decide _ then _ else _) as [h|]; [|done]. case_bool_decide; [done|].
  destruct (es_Head _ _) as [[[]|er] k]; [done|]. by rewrite recs_fail.
Qed.

Lemma recs_fetchIfUnknown e id : e_recs (fetchIfUnknown e id) = e_recs e.
Proof.
  unfold fetchIfUnknown, time_now, SelectPeer, NextRequestID. destruct (_ || _); [done|]. case_bool_decide; [done|].
  destruct (e_gets e !! id) as [g|] eqn:Eg; [destruct (nt_Now _) as [now n]; destruct (_ <? _)%Z; [done|]|];
    destruct (nt_SelectPeer _) as [[peer|] n1]; try done; destruct (nt_Now _) as [now' n2];
    by destruct (nt_NextRequestID _).
Qed.

Lemma shrinks_foldl {A} (f : Engine → A → Engine) (l : list A) e :
  (∀ e x, shrinks (e_recs e) (e_recs (f e x))) → shrinks (e_recs e) (e_recs (foldl f e l)).
Proof.
  intros Hf. revert e. induction l as [|x l IH]; intros e; [done|]. cbn [foldl].
  transitivity (e_recs (f e x)); [apply Hf|apply IH].
Qed.

Lemma shrinks_tryIssue fuel e r : shrinks (e_recs e) (e_recs (tryIssue fuel e r)).
Proof.
  revert e r. induction fuel as [|fuel IH]; intros e r; cbn [tryIssue]; [by rewrite recs_fail|].
  destruct (r_issued r); [done|]. destruct (issued_parent e _) as [[ph hgt]|]; cycle 1.
  { cbn [e_recs eset_pendingByPa]. case_bool_decide; [by rewrite recs_fetchIfUnknown|done]. }
  destruct (_ || _); [apply shrinks_delete|].
  destruct (issue_shrinks e r ph) as [Hs _]. destruct (issue e r ph) as [[] e1]; cbn [snd] in Hs; [|done].
  transitivity (e_recs e1); [done|].
  rewrite <-(recs_emitHead e1). apply (shrinks_foldl _ _ (eset_pendingByPa _ (emitHead e1))).
  intros e2 childID. destruct (e_recs e2 !! childID); [apply IH|done].
Qed.

(** What issuing a record does, without a bound on its depth: it was issued, it
    waits for its parent, it does not fit its parent, its execution or addition
    failed, or it is issued and then the children that wait for it are. *)
Inductive issues : Engine → rec Body → Engine → Prop :=
| is_issued e r : r_issued r = true → issues e r e
| is_waits e r :
    r_issued r = false → issued_parent e (c_ParentID (r_c r)) = None →
    issues e r (let e := if bool_decide (e_recs e !! c_ParentID (r_c r) = None)
                         then fetchIfUnknown e (c_ParentID (r_c r)) else e in
                eset_pendingByPa (<[c_ParentID (r_c r) :=
                  default [] (e_pendingByPa e !! c_ParentID (r_c r)) ++ [c_ID (r_c r)]]> (e_pendingByPa e)) e)
| is_unfit e r ph hgt :
    r_issued r = false → issued_parent e (c_ParentID (r_c r)) = Some (ph, hgt) →
    eb_ParentHash (c_Eth (r_c r)) ≠ ph ∨ eb_Number (c_Eth (r_c r)) ≠ u_add hgt (u64_lit 1) →
    issues e r (eset_recs (delete (c_ID (r_c r)) (e_recs e)) e)
| is_failed e r ph hgt e' :
    r_issued r = false → issued_parent e (c_ParentID (r_c r)) = Some (ph, hgt) →
    eb_ParentHash (c_Eth (r_c r)) = ph → eb_Number (c_Eth (r_c r)) = u_add hgt (u64_lit 1) →
    issue e r ph = (false, e') → issues e r e'
| is_children e r ph hgt e1 e' :
    r_issued r = false → issued_parent e (c_ParentID (r_c r)) = Some (ph, hgt) →
    eb_ParentHash (c_Eth (r_c r)) = ph → eb_Number (c_Eth (r_c r)) = u_add hgt (u64_lit 1) →
    issue e r ph = (true, e1) →
    issues_all (default [] (e_pendingByPa (emitHead e1) !! c_ID (r_c r)))
      (eset_pendingByPa (delete (c_ID (r_c r)) (e_pendingByPa (emitHead e1))) (emitHead e1)) e' →
    issues e r e'
with issues_all : list Hash → Engine → Engine → Prop :=
| ia_nil e : issues_all [] e e
| ia_known id ids e r e1 e' :
    e_recs e !! id = Some r → issues e r e1 → issues_all ids e1 e' → issues_all (id :: ids) e e'
| ia_gone id ids e e' : e_recs e !! id = None → issues_all ids e e' → issues_all (id :: ids) e e'.

(** A bound beyond the number of waiting records is enough for [tryIssue]. *)
Lemma tryIssue_issues fuel e r :
  keyed_recs (e_recs e) → e_recs e !! c_ID (r_c r) = Some r → unissued (e_recs e) < fuel →
  issues e r (tryIssue fuel e r).
Proof.
  revert e r. induction fuel as [|fuel IH]; intros e r Hk Hr Hf; [lia|]. cbn [tryIssue].
  destruct (r_issued r) eqn:Ei; [by constructor|].
  destruct (issued_parent e _) as [[ph hgt]|] eqn:Ep; [|by constructor].
  destruct (_ || _) eqn:Eg.
  { apply orb_true_iff in Eg. rewrite !bool_decide_eq_true in Eg. by eapply is_unfit. }
  apply orb_false_iff in Eg as [Hph%bool_decide_eq_false Hnum%bool_decide_eq_false].
  apply dec_stable in Hph. apply dec_stable in Hnum. destruct (issue_shrinks e r ph) as [Hs Hm].
  destruct (issue e r ph) as [[] e1] eqn:Eis; cbn [fst snd] in *; [|by eapply is_failed].
  pose proof (shrinks_less _ _ _ _ Hs Hr Ei (Hm eq_refl)) as Hless. eapply is_children; [done..|].
  set (e2 := eset_pendingByPa _ (emitHead e1)).
  assert (e_recs e2 = e_recs e1) as He2 by (unfold e2; cbn; apply recs_emitHead).
  assert (keyed_recs (e_recs e2)) as Hk2 by (rewrite He2; by eapply shrinks_keyed).
  assert (unissued (e_recs e2) < fuel) as H2 by (rewrite He2; lia).
  clearbody e2. generalize (default [] (e_pendingByPa (emitHead e1) !! c_ID (r_c r))) as children. intros children.
  clear -IH Hk2 H2. revert e2 Hk2 H2. induction children as [|childID children IHc]; intros e2 Hk2 H2; [constructor|].
  cbn [foldl]. destruct (e_recs e2 !! childID) as [cr|] eqn:Ec; [|by apply ia_gone; [|apply IHc]].
  assert (e_recs e2 !! c_ID (r_c cr) = Some cr) as Hcr by (by rewrite (Hk2 _ _ Ec)).
  pose proof (shrinks_tryIssue fuel e2 cr) as Hs2. pose proof (shrinks_unissued _ _ Hs2).
  eapply ia_known; [exact Ec|by apply IH|]. apply IHc; [by eapply shrinks_keyed|lia].
Qed.

(** ** The poll loop *)

(** What votes leave alone. *)
Definition rest e := (e_phase e, e_anchorID e, e_pollVdrs e, e_lastPollAt e).

Lemma rest_fail e er : rest (fail e er) = rest e.
Proof. unfold fail. by destruct (e_fatal e). Qed.

Lemma rest_run e ds : rest (run_decisions e ds).2 = rest e.
Proof.
  revert e. induction ds as [|[c|c] ds IH]; intros e; cbn [run_decisions]; [done| |by rewrite IH].
  assert (rest (onAccept e c).2 = rest e) as Ha.
  { unfold onAccept, time_now. destruct (nt_Now _) as [now n]. by destruct (es_Accepted _ _ _). }
  destruct (onAccept e c) as [[[]|er] e1]; cbn [snd] in *; [by rewrite IH|done].
Qed.

Lemma rest_emitHead e : rest (emitHead e) = rest e.
Proof.
  unfold emitHead. destruct (if bool_decide _ then _ else _) as [h|]; [|done]. case_bool_decide; [done|].
  destruct (es_Head _ _) as [[[]|er] k]; [done|]. by rewrite rest_fail.
Qed.

Lemma rest_recordPolls e results : rest (recordPolls cfg e results) = rest e.
Proof.
  assert (rest (record_loop cfg e results).2 = rest e) as Hr.
  { revert e. induction results as [|votes results IH]; intros e; cbn [record_loop]; [done|].
    set (e1 := if (_ <=? _)%Z then _ else _).
    assert (rest e1 = rest e) as <- by (unfold e1; by destruct (_ <=? _)%Z).
    assert (∀ x, rest (call_cons e1 x).2 = rest e1) as Hc.
    { intros [[ds t] err]. unfold call_cons. pose proof (rest_run e1 ds) as Hr.
      by destruct (run_decisions e1 ds) as [[er|] e2]. }
    match goal with |- context [call_cons e1 ?x] => specialize (Hc x); destruct (call_cons e1 x) as [[er|] e2] end;
      cbn [snd] in *; [by rewrite rest_fail|by rewrite IH]. }
  unfold recordPolls. destruct (record_loop cfg e results) as [ok e1]. cbn [snd] in Hr.
  destruct (_ && _); [by rewrite rest_emitHead|done].
Qed.

Lemma rest_Vote e req node vote : rest (Vote cfg e req node vote) = rest e.
Proof. unfold Vote. destruct (pl_Vote _ _ _ _ _). by rewrite rest_recordPolls. Qed.
Lemma rest_Drop e req node : rest (Drop cfg e req node) = rest e.
Proof. unfold Drop. destruct (pl_Drop _ _ _ _). by rewrite rest_recordPolls. Qed.

Lemma rest_fetchIfUnknown e id : rest (fetchIfUnknown e id) = rest e.
Proof.
  unfold fetchIfUnknown, time_now, SelectPeer, NextRequestID. destruct (_ || _); [done|]. case_bool_decide; [done|].
  destruct (e_gets e !! id) as [g|] eqn:Eg; [destruct (nt_Now _) as [now n]; destruct (_ <? _)%Z; [done|]|];
    destruct (nt_SelectPeer _) as [[peer|] n1]; try done; destruct (nt_Now _) as [now' n2];
    by destruct (nt_NextRequestID _).
Qed.

Lemma rest_applyVote e v allowPark : rest (applyVote cfg e v allowPark) = rest e.
Proof.
  unfold applyVote. generalize true as first. generalize (pv_options v) as options. intros options.
  induction options as [|opt options IH]; intros first; cbn [vote_loop].
  - unfold fallback_vote. destruct (e_frontiers e !! _) as [fid|]; [|apply rest_Drop].
    destruct (bubble_vote e fid) as [[vote|blocker]|]; [apply rest_Vote|apply rest_Drop|apply rest_fail].
  - destruct (bubble_vote e opt) as [[vote|blocker]|]; [apply rest_Vote| |apply rest_fail].
    destruct (_ && _); [exact (rest_fetchIfUnknown e blocker)|apply IH].
Qed.

Lemma rest_applyVotes e vs : rest (applyVotes cfg e vs) = rest e.
Proof.
  unfold applyVotes. revert e. induction vs as [|v vs IH]; intros e; [done|]. cbn [foldl].
  by rewrite IH, rest_applyVote.
Qed.

Lemma split_connected_net vdrs e : ∃ n, (split_connected vdrs e).2 = eset_net n e.
Proof.
  revert e. induction vdrs as [|v vdrs IH]; intros e; cbn [split_connected]; [exists (e_net e); by destruct e|].
  destruct (nt_IsConnected (e_net e) v) as [b n]. destruct (IH (eset_net n e)) as [n' IH'].
  destruct (split_connected vdrs _) as [[targets off] e']. cbn [snd] in IH'. exists n'. by destruct b.
Qed.

Lemma split_connected_poll vdrs e : e_lastPollAt (split_connected vdrs e).2 = e_lastPollAt e.
Proof. by destruct (split_connected_net vdrs e) as [n ->]. Qed.

(** A poll that was sent is stamped with the time it was sent. *)
Lemma sendPoll_stamp e :
  (sendPoll cfg e).1 = true → ∃ n, e_lastPollAt (sendPoll cfg e).2 = Some (nt_Now n).1.
Proof.
  unfold sendPoll, SampleValidators, NextRequestID, bag_list, range_over, time_now.
  destruct (nt_SampleValidators _ _) as [[[|v vdrs]|] n]; [done| |done].
  destruct (nt_NextRequestID _) as [req n1]. destruct (pl_Add _ _ _) as [p|]; [|done].
  match goal with |- context [nt_Now ?x] => set (m := x); destruct (nt_Now m) as [now n2] eqn:En end.
  destruct (nt_Range _ _) as [order n3].
  match goal with |- context [split_connected ?l ?x] => pose proof (split_connected_poll l x) as Hs;
    destruct (split_connected l x) as [[targets off] e1] end. cbn [snd] in Hs. cbn in Hs.
  destruct (nt_Now (e_net (eset_sampledOff _ _))) as [now' n4]. cbn [fst snd]. intros _. exists m. rewrite En.
  match goal with |- e_lastPollAt (applyVotes _ ?x ?vs) = _ => pose proof (rest_applyVotes x vs) as Hr end.
  apply (f_equal snd) in Hr. unfold rest in Hr. cbn [snd] in Hr. rewrite Hr. cbn [fst].
  by destruct (0 <? size targets).
Qed.

(** No clock reading of a tick lies before its own: one poll per tick is sent at
    most, whatever the bound of the loop. *)
Lemma poll_loop_once fuel e now :
  (0 < cf_PollInterval cfg)%Z → (∀ n, now ≤ (nt_Now n).1)%Z →
  poll_loop cfg (S (S fuel)) e now =
  if (pl_Len (e_polls e) <? pa_ConcurrentRepolls (cf_Params cfg))%Z && since now (e_lastPollAt e) (cf_PollInterval cfg)
  then (sendPoll cfg e).2 else e.
Proof.
  intros Hi Hnow. cbn [poll_loop]. destruct (_ && _); [|done].
  pose proof (sendPoll_stamp e) as Hs. destruct (sendPoll cfg e) as [[] e1]; cbn [fst snd] in *; [|done].
  destruct (Hs eq_refl) as [n Hn]. specialize (Hnow n). rewrite Hn. cbn [since].
  replace (_ <=? _)%Z with false by (symmetry; apply Z.leb_gt; lia). by rewrite andb_false_r.
Qed.
End loops.
