(* ===== verification/ConsensusVotes.v ===== *)
(** * ConsensusVotes: the votes behind the anchor

    The tally of the bootstrap poll counts distinct nodes that answered the
    current request ([tally_ok]), and no event behind the first phase changes the
    anchor they chose ([settled]). *)

From S2P Require Import Prelude Schema Capture Exec Node ConsensusState Consensus ConsensusLoops.

Section votes.
Context {T P K N Body : Type}.
Context `{HC : Consensus T Body, HP : PollSet P T, HK : EngineSink K, HX : Executor K Body, HN : Net N}.
Context (cfg : Config).
Context (proposer : bytes → option (Hash * Hash * bytes)) (rlp_block : bytes → option (EthBlock Body)).

Abbreviation Engine := (Engine T P K N Body).
Implicit Types (e : Engine) (c : Container Body).

(** ** The anchor *)

(** The answers to the current poll: one per voter, counted per block. *)
Record tally_ok e (votes : gmap NodeID Hash) : Prop := {
  ta_voters : e_bsVoters e = dom votes;
  ta_count (id : Hash) : default 0%Z (e_bsVotes e !! id) = Z.of_nat (size (filter (λ kv, kv.2 = id) votes))
}.

Lemma size_filter_insert (votes : gmap NodeID Hash) node acc id :
  votes !! node = None →
  size (filter (λ kv, kv.2 = id) (<[node:=acc]> votes)) =
  size (filter (λ kv, kv.2 = id) votes) + if decide (acc = id) then 1 else 0.
Proof.
  intros Hn. destruct (decide (acc = id)) as [He|He].
  - rewrite map_filter_insert_True by done. rewrite map_size_insert_None; [lia|].
    apply map_lookup_filter_None. by left.
  - rewrite map_filter_insert_False by done. rewrite delete_id by done. lia.
Qed.

Lemma tally_vote e e' votes node acc :
  tally_ok e votes → node ∉ e_bsVoters e →
  e_bsVoters e' = {[node]} ∪ e_bsVoters e → e_bsVotes e' = bump_count (e_bsVotes e) acc →
  tally_ok e' (<[node:=acc]> votes).
Proof.
  intros [Hv Hc] Hn Hv' Hc'. split; [by rewrite Hv', Hv, dom_insert_L|]. intros id.
  rewrite size_filter_insert by (apply not_elem_of_dom; by rewrite <-Hv).
  rewrite Hc'. unfold bump_count. destruct (decide (acc = id)) as [->|He].
  - rewrite lookup_insert_eq. cbn. rewrite Hc. lia.
  - rewrite lookup_insert_ne by done. rewrite Hc. lia.
Qed.

(** The nodes that answered request [req] with [id] among the events. *)
Definition answered (evs : list event) (req : u32) (node : NodeID) (id : Hash) : Prop :=
  ∃ pref prefAt h, EvChits node req pref prefAt id h ∈ evs.

Definition poll_state e (evs : list event) : Prop :=
  e_phase e = phasePollAnchor ∧
  ∃ votes, tally_ok e votes ∧ ∀ node id, votes !! node = Some id → answered evs (e_bsReqID e) node id.

Lemma answered_app evs evs' req node id : answered evs req node id → answered (evs ++ evs') req node id.
Proof. intros (p & q & h & Hin). exists p, q, h. apply elem_of_app. by left. Qed.

(** The bootstrap fields a handler of the first phase leaves alone. *)
Definition boot_fields e := (e_phase e, e_bsReqID e, e_bsVotes e, e_bsVoters e).

Lemma poll_state_same e e' evs ev :
  boot_fields e' = boot_fields e → poll_state e evs → poll_state e' (evs ++ [ev]).
Proof.
  unfold boot_fields. intros Hb. injection Hb as H1 H2 H3 H4.
  intros (Hp & votes & [Hv Hc] & Ha). split; [congruence|]. exists votes. split.
  - split; [congruence|]. intros id. by rewrite H3.
  - intros node id Hn. rewrite H2. by apply answered_app, Ha.
Qed.

Lemma boot_split_connected vdrs e : boot_fields (split_connected vdrs e).2 = boot_fields e.
Proof. by destruct (split_connected_net vdrs e) as [n ->]. Qed.

Lemma sendBootstrapPoll_state e evs ev :
  poll_state e evs → poll_state (sendBootstrapPoll cfg e) (evs ++ [ev]).
Proof.
  intros Hp. unfold sendBootstrapPoll, SampleValidators, NextRequestID, time_now.
  destruct (nt_SampleValidators _ _) as [[[|v vdrs]|] n]; [by apply (poll_state_same e)| |by apply (poll_state_same e)].
  destruct (nt_NextRequestID _) as [req n1].
  match goal with |- context [split_connected ?l ?x] => pose proof (boot_split_connected l x) as Hs;
    destruct (split_connected l x) as [[targets off] e1] end. cbn [snd] in Hs.
  assert (poll_state e1 (evs ++ [ev])) as H1.
  { unfold boot_fields in Hs. injection Hs as Ha Hb Hc Hd. cbn in Ha, Hb, Hc, Hd.
    destruct Hp as [Hp _]. split; [congruence|]. exists ∅. split; [|by intros node id ?%lookup_empty_Some].
    split; [by rewrite Hd, dom_empty_L|]. intros id. by rewrite Hc, map_filter_empty, map_size_empty. }
  destruct (Nat.eqb _ _); [done|]. destruct (nt_Now _) as [now n2].
  destruct H1 as (? & votes & [] & ?). split; [done|]. exists votes. by split.
Qed.

(** A chit counts once per node and request; the anchor is chosen by a quorum. *)
Lemma bootstrapChit_state e evs node req pref prefAt acc h :
  poll_state e evs →
  let e' := bootstrapChit cfg e node req acc h in
  let evs' := evs ++ [EvChits node req pref prefAt acc h] in
  poll_state e' evs' ∨
  e_phase e' = phaseBackfill ∧ e_anchorID e' = acc ∧
  ∃ nodes : gset NodeID, (AlphaPreference cfg ≤ Z.of_nat (size nodes))%Z ∧
    ∀ n, n ∈ nodes → answered evs' req n acc.
Proof.
  intros Hps e' evs'. unfold e', bootstrapChit. destruct (_ || _) eqn:Eg.
  { left. by apply (poll_state_same e). }
  apply orb_false_iff in Eg as [Hreq%bool_decide_eq_false Hnode%bool_decide_eq_false].
  apply dec_stable in Hreq. subst req. destruct Hps as (Hp & votes & Hta & Ha).
  set (e1 := eset_bsHeight _ _).
  assert (tally_ok e1 (<[node:=acc]> votes)) as Hta1 by (by eapply tally_vote).
  assert (∀ n id, <[node:=acc]> votes !! n = Some id → answered evs' (e_bsReqID e) n id) as Ha1.
  { intros n id [[<- <-]|[_ Hn]]%lookup_insert_Some; [|by apply answered_app, Ha].
    exists pref, prefAt, h. apply elem_of_app. right. left. }
  destruct (Z.ltb_spec (default 0 (e_bsVotes e1 !! acc)) (AlphaPreference cfg))%Z as [Hlt|Hge].
  { left. split; [done|]. by exists (<[node:=acc]> votes). }
  right.
  assert (∀ x : Engine, e_phase (sendBackfillRequest x) = e_phase x ∧ e_anchorID (sendBackfillRequest x) = e_anchorID x)
    as Hsend.
  { intros x. unfold sendBackfillRequest, SelectPeer, NextRequestID, time_now.
    destruct (nt_SelectPeer _) as [[peer|] n]; [|done]. destruct (nt_NextRequestID _) as [r n1].
    destruct (nt_Now _) as [now n2]. by destruct (e_bfLow _). }
  match goal with |- context [sendBackfillRequest ?x] => destruct (Hsend x) as [-> ->] end.
  split_and!; [done|done|].
  exists (dom (filter (λ kv, kv.2 = acc) (<[node:=acc]> votes))).
  rewrite size_dom, <-(ta_count _ _ Hta1). split; [done|].
  intros n [id [Hn Hid]%map_lookup_filter_Some]%elem_of_dom. cbn in Hid. subst id. by apply Ha1.
Qed.

(** One event of the first phase. *)
Lemma handle_state e evs ev :
  poll_state e evs →
  let e' := handle cfg proposer rlp_block e ev in
  poll_state e' (evs ++ [ev]) ∨
  e_phase e' = phaseBackfill ∧
  ∃ req, ∃ nodes : gset NodeID, (AlphaPreference cfg ≤ Z.of_nat (size nodes))%Z ∧
    ∀ n, n ∈ nodes → answered (evs ++ [ev]) req n (e_anchorID e').
Proof.
  intros Hps e'. pose proof (proj1 Hps) as Hp. unfold e'. destruct ev; cbn [handle].
  - left. unfold OnContainer. destruct (ParseContainer _ _ raw) as [c|]; [|by apply (poll_state_same e)].
    cbn [e_phase eset_gets]. rewrite Hp. by apply (poll_state_same e).
  - unfold OnChits. rewrite Hp.
    destruct (bootstrapChit_state e evs nodeID requestID preferred preferredAtHeight accepted height Hps)
      as [?|(? & Hid & nodes & Hn & Hq)]; [by left|right]. split; [done|]. exists requestID, nodes. by rewrite Hid.
  - left. unfold OnAncestors. rewrite Hp. by apply (poll_state_same e).
  - left. unfold Tick, time_now. destruct (nt_Now _) as [now n]. cbn [e_phase eset_net]. rewrite Hp.
    destruct (since _ _ _); [apply sendBootstrapPoll_state|by apply (poll_state_same e)].
    destruct Hps as (? & votes & [] & ?). split; [done|]. exists votes. by split.
Qed.
(** ** The anchor stays *)

Definition placed e := (e_phase e, e_anchorID e).

Lemma placed_rest e e' : rest e' = rest e → placed e' = placed e.
Proof. unfold rest, placed. by intros [= -> -> _ _]. Qed.

Lemma placed_foldl {A} (f : Engine → A → Engine) (l : list A) e :
  (∀ e x, placed (f e x) = placed e) → placed (foldl f e l) = placed e.
Proof. intros Hf. revert e. induction l as [|x l IH]; intros e; [done|]. cbn [foldl]. by rewrite IH, Hf. Qed.

Lemma placed_range {A} (l : list A) (f : Engine → A → Engine) e :
  (∀ e x, placed (f e x) = placed e) →
  placed (let '(entries, e) := range_over l e in foldl f e entries) = placed e.
Proof. intros Hf. unfold range_over. destruct (nt_Range _ _) as [order n]. by rewrite placed_foldl. Qed.

Lemma placed_issue e r ph : placed (issue e r ph).2 = placed e.
Proof.
  unfold issue. destruct (ex_Execute _ _ _) as [[batch|er] x]; [|by apply (placed_rest (eset_node x e)), rest_fail].
  destruct (cs_Add _ _) as [[ds t] err]. unfold call_cons.
  match goal with |- context [run_decisions ?y ds] => pose proof (placed_rest _ _ (rest_run y ds)) as Hr;
    destruct (run_decisions y ds) as [[er|] e2] end; cbn [snd] in Hr.
  - cbn [snd]. etransitivity; [apply placed_rest, rest_fail|exact Hr].
  - destruct err as [er|]; [|exact Hr]. cbn [snd]. etransitivity; [apply placed_rest, rest_fail|exact Hr].
Qed.

Lemma placed_tryIssue fuel e r : placed (tryIssue fuel e r) = placed e.
Proof.
  revert e r. induction fuel as [|fuel IH]; intros e r; cbn [tryIssue]; [apply placed_rest, rest_fail|].
  destruct (r_issued r); [done|]. destruct (issued_parent _ _) as [[ph hgt]|]; cycle 1.
  { case_bool_decide; [exact (placed_rest _ _ (rest_fetchIfUnknown e _))|done]. }
  destruct (_ || _); [done|]. pose proof (placed_issue e r ph) as Hi. destruct (issue e r ph) as [[] e1]; [|done].
  rewrite placed_foldl; [by rewrite <-Hi; apply placed_rest, (rest_emitHead e1)|].
  intros e2 id. by destruct (e_recs e2 !! id).
Qed.

Lemma placed_applyVotes e vs : placed (applyVotes cfg e vs) = placed e.
Proof. apply placed_rest, rest_applyVotes. Qed.

Lemma placed_addContainer e c : placed (addContainer cfg e c) = placed e.
Proof.
  unfold addContainer. case_bool_decide; [done|]. destruct (_ || _); [done|].
  set (e1 := eset_recs _ e). set (e2 := tryIssue _ e1 _).
  assert (placed e2 = placed e) as H2 by (unfold e2; by rewrite placed_tryIssue).
  destruct (e_parked e2 !! c_ID c); [by rewrite placed_applyVotes|done].
Qed.

Lemma placed_split_connected vdrs e : placed (split_connected vdrs e).2 = placed e.
Proof. by destruct (split_connected_net vdrs e) as [n ->]. Qed.

Lemma placed_sendPoll e : placed (sendPoll cfg e).2 = placed e.
Proof.
  unfold sendPoll, SampleValidators, NextRequestID, bag_list, range_over, time_now.
  destruct (nt_SampleValidators _ _) as [[[|v vdrs]|] n]; [done| |done].
  destruct (nt_NextRequestID _) as [req n1]. destruct (pl_Add _ _ _) as [p|]; [|done].
  destruct (nt_Now _) as [now n2]. destruct (nt_Range _ _) as [order n3].
  match goal with |- context [split_connected ?l ?x] => pose proof (placed_split_connected l x) as Hs;
    destruct (split_connected l x) as [[targets off] e1] end. cbn [snd] in Hs.
  destruct (nt_Now _) as [now' n4]. cbn [snd]. rewrite placed_applyVotes. transitivity (placed e1); [|exact Hs].
  by destruct (0 <? size targets).
Qed.

Lemma placed_poll_loop fuel e now : placed (poll_loop cfg fuel e now) = placed e.
Proof.
  revert e. induction fuel as [|fuel IH]; intros e; cbn [poll_loop]; [apply placed_rest, rest_fail|].
  destruct (_ && _); [|done]. pose proof (placed_sendPoll e) as Hs.
  destruct (sendPoll cfg e) as [[] e1]; cbn [snd] in Hs; [by rewrite IH|done].
Qed.

(** No handler leaves for the first phase or changes the anchor. *)
Definition settled e e' : Prop :=
  e_phase e ≠ phasePollAnchor → e_phase e' ≠ phasePollAnchor ∧ e_anchorID e' = e_anchorID e.

#[local] Instance settled_preorder : PreOrder settled.
Proof.
  split; [by intros e Hp|]. intros e1 e2 e3 H12 H23 Hp. destruct (H12 Hp) as [Hp2 <-]. by apply H23.
Qed.

Lemma settled_placed e e' : placed e' = placed e → settled e e'.
Proof. unfold placed, settled. by intros [= -> ->]. Qed.

Lemma placed_sendBackfillRequest e : placed (sendBackfillRequest e) = placed e.
Proof.
  unfold sendBackfillRequest, SelectPeer, NextRequestID, time_now.
  destruct (nt_SelectPeer _) as [[peer|] n]; [|done]. destruct (nt_NextRequestID _) as [r n1].
  destruct (nt_Now _) as [now n2]. by destruct (e_bfLow _).
Qed.

Lemma placed_gap_loop fuel e h ph : placed (gap_loop fuel e h ph).2 = placed e.
Proof.
  revert e h ph. induction fuel as [|fuel IH]; intros e h ph; cbn [gap_loop]; [apply placed_rest, rest_fail|].
  destruct (e_bfChain e !! h); [|done].
  destruct (ex_Execute _ _ _) as [[batch|er] x]; [|by apply (placed_rest (eset_node x e)), rest_fail].
  destruct (es_Accepted _ _ _) as [[[]|er] k]; [by rewrite IH|]. cbn [snd].
  match goal with |- placed (fail ?y _) = _ => by apply (placed_rest y), rest_fail end.
Qed.

Lemma settled_go_live e anchor : settled e (go_live cfg e anchor).
Proof.
  unfold go_live, time_now. destruct (nt_Now _) as [now n].
  destruct (cs_Initialize _ _ _ _) as [t|er]; [destruct (pl_New _ t) as [p|er]|].
  - match goal with |- settled _ (sendPoll _ ?y).2 => transitivity y; [by intros _|apply settled_placed, placed_sendPoll] end.
  - match goal with |- settled _ (fail ?y _) => by apply settled_placed, (placed_rest y), rest_fail end.
  - match goal with |- settled _ (fail ?y _) => by apply settled_placed, (placed_rest y), rest_fail end.
Qed.

Lemma settled_backfillContainer e c : settled e (backfillContainer cfg e c).
Proof.
  unfold backfillContainer. destruct (negb _); [done|]. set (e1 := eset_bfLow (Some c) _).
  destruct (_ || _); [|done]. unfold finishBootstrap. destruct (start_point _ _ _) as [[h hash]|er]; cycle 1.
  { by apply settled_placed, (placed_rest e1), rest_fail. }
  set (e2 := if cf_Seed cfg then _ else _). assert (placed e2 = placed e) as H2 by (unfold e2; by destruct (cf_Seed cfg)).
  destruct (es_Make _ _ _) as [[[]|er] k]; cycle 1.
  { by apply settled_placed; rewrite <-H2; apply (placed_rest (eset_node k e2)), rest_fail. }
  match goal with |- context [gap_loop ?f ?x ?h ?p] => pose proof (placed_gap_loop f x h p) as Hg;
    destruct (gap_loop f x h p) as [[] e3] end; cbn [snd] in Hg.
  - transitivity e3; [by apply settled_placed; rewrite Hg|apply settled_go_live].
  - by apply settled_placed; rewrite Hg.
Qed.

Lemma settled_ancestors e containers : settled e (ancestors_loop cfg proposer rlp_block e containers).2.
Proof.
  revert e. induction containers as [|raw containers IH]; intros e; cbn [ancestors_loop]; [reflexivity|].
  destruct (ParseContainer _ _ raw) as [c|]; [|reflexivity].
  case_bool_decide; [apply settled_backfillContainer|].
  transitivity (backfillContainer cfg e c); [apply settled_backfillContainer|apply IH].
Qed.

Lemma placed_expire e now : placed (expireParked cfg (expirePolls cfg e now) now) = placed e.
Proof.
  transitivity (placed (expirePolls cfg e now)); apply placed_range; intros e1 [id x]; cbn [fst snd].
  - unfold expire_one. exact (placed_applyVotes _ _).
  - unfold expire_poll. destruct (_ <? _)%Z; [done|]. unfold range_over. destruct (nt_Range _ _) as [order n].
    by rewrite placed_applyVotes.
Qed.

Lemma placed_retryGets e now : placed (retryGets e now) = placed e.
Proof.
  apply placed_range. intros e1 [id g]. unfold retry_get. cbn [fst snd]. destruct (_ <? _)%Z; [done|].
  destruct (_ <=? _)%Z; [done|]. apply placed_rest, rest_fetchIfUnknown.
Qed.

Lemma settled_OnChits e node req pref prefAt acc h : settled e (OnChits cfg e node req pref prefAt acc h).
Proof.
  intros Hp. apply settled_placed; [|done]. unfold OnChits. destruct (e_phase e); [done|done|].
  set (e1 := eset_frontiers _ e). destruct (e_pollVdrs e1 !! req) as [ps|]; [|done]. destruct (negb _); [done|].
  set (e2 := eset_pollVdrs _ e1). set (e3 := fetchIfUnknown e2 pref). set (e4 := if bool_decide _ then _ else _).
  assert (placed e3 = placed e) as H3 by exact (placed_rest _ _ (rest_fetchIfUnknown e2 pref)).
  assert (placed e4 = placed e) as H4.
  { unfold e4. case_bool_decide; [|done]. by rewrite (placed_rest _ _ (rest_fetchIfUnknown e3 _)). }
  unfold time_now. destruct (nt_Now _) as [now n]. by rewrite (placed_rest _ _ (rest_applyVote _ _ _ _)).
Qed.

Lemma settled_Tick fuel e : settled e (Tick cfg fuel e).
Proof.
  intros Hp. apply settled_placed; [|done]. unfold Tick, time_now. destruct (nt_Now _) as [now n].
  set (e1 := eset_net n e). assert (placed e1 = placed e) as H1 by done. cbn [e_phase e1 eset_net].
  destruct (e_phase e) eqn:Eph; [done| |].
  { by destruct (_ || _); [rewrite placed_sendBackfillRequest|]. }
  set (e4 := retryGets _ now). set (e5 := if (0 <? _)%Z then _ else _).
  assert (placed e4 = placed e) as H4 by (unfold e4; rewrite placed_retryGets, placed_expire; done).
  assert (placed e5 = placed e) as H5.
  { unfold e5. destruct (_ <? _)%Z; [by rewrite placed_poll_loop|].
    destruct (since _ _ _); [by rewrite placed_sendPoll|done]. }
  clearbody e5. destruct (e_lastAcceptAt e5); [|done]. destruct (_ <? _)%Z; exact H5.
Qed.

Lemma settled_handle e ev : settled e (handle cfg proposer rlp_block e ev).
Proof.
  destruct ev; cbn [handle]; [..|apply settled_Tick].
  - unfold OnContainer. destruct (ParseContainer _ _ raw) as [c|]; [|reflexivity]. set (e1 := eset_gets _ e).
    transitivity e1; [done|]. destruct (e_phase e1); [reflexivity| |apply settled_placed, placed_addContainer].
    case_bool_decide; [|apply settled_backfillContainer].
    transitivity (backfillContainer cfg e1 c);
      [apply settled_backfillContainer|apply settled_placed, placed_sendBackfillRequest].
  - apply settled_OnChits.
  - unfold OnAncestors. destruct (_ || _); [reflexivity|].
    pose proof (settled_ancestors (eset_bfReqID (u32_lit 0) e) containers) as Hl.
    destruct (ancestors_loop _ _ _ _ containers) as [[] e1]; cbn [snd] in Hl; [|exact Hl].
    transitivity e1; [exact Hl|apply settled_placed, placed_sendBackfillRequest].
Qed.

(** The quorum behind an anchor. *)
Definition quorum (evs : list event) (id : Hash) : Prop :=
  ∃ req, ∃ nodes : gset NodeID, (AlphaPreference cfg ≤ Z.of_nat (size nodes))%Z ∧
    ∀ n, n ∈ nodes → answered evs req n id.

Lemma quorum_app evs evs' id : quorum evs id → quorum (evs ++ evs') id.
Proof. intros (req & nodes & Hn & Ha). exists req, nodes. split; [done|]. intros n Hin. by apply answered_app, Ha. Qed.

Lemma run_quorum e evs :
  poll_state e [] →
  let e' := run cfg proposer rlp_block e evs in
  poll_state e' evs ∨ e_phase e' ≠ phasePollAnchor ∧ quorum evs (e_anchorID e').
Proof.
  intros Hps. induction evs as [|ev evs IH] using rev_ind; [by left|]. cbv zeta. unfold run.
  rewrite foldl_app. cbn [foldl]. set (e1 := foldl _ e evs) in *. fold (run cfg proposer rlp_block e evs) in IH.
  destruct IH as [Hp|[Hp Hq]].
  - destruct (handle_state e1 evs ev Hp) as [?|[Hb Hq]]; [by left|right]. split; [by rewrite Hb|exact Hq].
  - right. destruct (settled_handle e1 ev Hp) as [Hp' ->]. split; [done|by apply quorum_app].
Qed.
(** ** One answer, and enough of them *)

Lemma chit_step e node pref prefAt id h :
  e_phase e = phasePollAnchor → node ∉ e_bsVoters e →
  let e' := OnChits cfg e node (e_bsReqID e) pref prefAt id h in
  let v := (default 0 (e_bsVotes e !! id) + 1)%Z in
  if (v <? AlphaPreference cfg)%Z
  then e_phase e' = phasePollAnchor ∧ e_bsReqID e' = e_bsReqID e ∧ e_bsVoters e' = {[node]} ∪ e_bsVoters e ∧
    default 0%Z (e_bsVotes e' !! id) = v
  else e_phase e' = phaseBackfill ∧ e_anchorID e' = id.
Proof.
  intros Hp Hn. cbv zeta. unfold OnChits, bootstrapChit. rewrite Hp, !bool_decide_false by (done || by intros Hx).
  cbn [orb]. set (e1 := eset_bsHeight _ _).
  assert (default 0%Z (e_bsVotes e1 !! id) = default 0 (e_bsVotes e !! id) + 1)%Z as ->
    by (cbn; unfold bump_count; by rewrite lookup_insert_eq).
  destruct (_ <? _)%Z.
  - split_and!; [done..|]. cbn. unfold bump_count. by rewrite lookup_insert_eq.
  - match goal with |- context [sendBackfillRequest ?y] => pose proof (placed_sendBackfillRequest y) as Hs end.
    unfold placed in Hs. injection Hs as -> ->. done.
Qed.

Lemma run_chits e nodes req pref prefAt id h :
  e_phase e = phasePollAnchor → e_bsReqID e = req → (∀ n, n ∈ nodes → n ∉ e_bsVoters e) →
  (default 0 (e_bsVotes e !! id) + Z.of_nat (length nodes) = AlphaPreference cfg)%Z →
  NoDup nodes → nodes ≠ [] →
  let e' := run cfg proposer rlp_block e ((λ n, EvChits n req pref prefAt id h) <$> nodes) in
  e_phase e' = phaseBackfill ∧ e_anchorID e' = id.
Proof.
  revert e. induction nodes as [|n nodes IH]; intros e Hp Hr Hv Hl Hd Hne; [done|].
  apply NoDup_cons in Hd as [Hn Hd]. cbn [length] in Hl. cbn [fmap list_fmap run foldl handle].
  pose proof (chit_step e n pref prefAt id h Hp (Hv n ltac:(left))) as Hs. cbv zeta in Hs. rewrite Hr in Hs.
  destruct (Z.ltb_spec (default 0 (e_bsVotes e !! id) + 1) (AlphaPreference cfg))%Z as [Hlt|Hge].
  - destruct Hs as (H1 & H2 & H3 & H4). apply IH; [done|done| |lia|done|intros ->; cbn in Hl; lia].
    intros m Hm. rewrite H3. intros [->%elem_of_singleton|Hx]%elem_of_union; [done|]. by apply (Hv m); [right|].
  - destruct nodes as [|m nodes]; [|cbn in Hl; lia]. done.
Qed.
End votes.
