(* ===== verification/ConsensusRun.v ===== *)
(** * ConsensusRun: a run of a new engine

    A new engine is polling, with no answers counted; so whatever a node promises
    on good calls ([sink_ok]) holds after any events ([run_engine_ok]). *)

From S2P Require Import Prelude Schema Capture Exec Node ConsensusState Consensus ConsensusInv.
From S2P Require Import ConsensusBoot ConsensusLoops ConsensusVotes.

Section run.
Context {T P K N Body : Type}.
Context `{HC : Consensus T Body, !ConsensusLaws T Body, HP : PollSet P T, HK : EngineSink K}.
Context `{HX : Executor K Body, !ExecutorLaws K Body, HN : Net N}.
Context (proposer : bytes → option (Hash * Hash * bytes)) (rlp_block : bytes → option (EthBlock Body)).
Context (rcv : list bytes).
Context (DefaultParameters : Parameters) (verify : Parameters → option error) (cs_nil : T) (pl_nil : P).

(** A new engine is polling. *)
Lemma New_polling u (k : K) (n : N) (K0 : K → Prop) cfg (e : Engine T P (K * list sink_event) N Body) :
  K0 k → New DefaultParameters verify cs_nil pl_nil u (k, []) n = Ok (cfg, e) → polling K0 e.
Proof. intros Hk. unfold New. destruct (verify _); [done|]. by intros [= <- <-]. Qed.

Lemma New_poll_state u (k : K) (n : N) cfg (e : Engine T P K N Body) :
  New DefaultParameters verify cs_nil pl_nil u k n = Ok (cfg, e) → poll_state e [].
Proof.
  unfold New. destruct (verify _); [done|]. intros [= <- <-]. split; [done|]. exists ∅.
  split; [|by intros node id ?%lookup_empty_Some]. split; cbn; [by rewrite dom_empty_L|].
  intros id. by rewrite lookup_empty, map_filter_empty, map_size_empty.
Qed.

(** Nothing is asked of the node, and any error may end the engine. *)
Lemma any_sink cfg : sink_ok (K:=K) cfg proposer rlp_block rcv (λ _ _, True) (λ _, True) (λ _ _ _ _, True).
Proof. split; try done; intros; by case_match. Qed.

Lemma any_errors : errors_ok (T:=T) (P:=P) (λ _ _, True).
Proof. by split. Qed.

Lemma run_engine_ok cfg F K0 SI u (k : K) n (e0 : Engine T P (K * list sink_event) N Body) evs :
  (∀ raw, raw ∈ received evs → raw ∈ rcv) → (Z.of_nat (length rcv) < 2 ^ 64)%Z →
  (∀ l l' er, l `prefix_of` l' → F l er → F l' er) →
  sink_ok cfg proposer rlp_block rcv F K0 SI → errors_ok (T:=T) (P:=P) F → K0 k →
  New DefaultParameters verify cs_nil pl_nil u (k, []) n = Ok (cfg, e0) →
  engine_ok cfg proposer rlp_block rcv F K0 SI (run cfg proposer rlp_block e0 evs).
Proof. intros Hi Hh HF Hs He Hk Hn. eapply run_ok; [done..|]. right; left. by eapply New_polling. Qed.

(** Parent links of the received containers go down: an ID is a hash over the
    parent's ID, so that links in a circle would be a circle of hashes. *)
Definition hash_links : Prop :=
  ∃ rank : Hash → nat, ∀ c, parsed proposer rlp_block rcv c → rank (c_ParentID c) < rank (c_ID c).

(** The records of an engine are received containers. *)
Lemma links_acyclic cfg F K0 SI (e : Engine T P (K * list sink_event) N Body) :
  hash_links → engine_ok cfg proposer rlp_block rcv F K0 SI e → e_fatal e = None → acyclic e.
Proof.
  intros [rank Hrank] He Hf. exists rank. intros id r r' Hr Hr'.
  destruct He as [(er & ? & _)|[(_ & _ & He & _)|[(_ & _ & He & _)|(_ & _ & Hl)]]]; [congruence|..].
  - by rewrite He, lookup_empty in Hr.
  - by rewrite He, lookup_empty in Hr.
  - destruct (li_rec _ _ _ _ _ _ _ _ Hl _ _ Hr) as (_ & _ & Hp & _).
    destruct (li_rec _ _ _ _ _ _ _ _ Hl _ _ Hr') as (-> & _). specialize (Hrank _ Hp). lia.
Qed.
End run.
