(* ===== verification/ConsensusTracker.v ===== *)
(** * ConsensusTracker: the engine over the tracker

    [node.Tracker] is the engine's sink, and the executor of [follower/exec] and
    the header-only one are its executors: the instances of the engine's
    interfaces.  Replaying the calls of an engine that follows one chain, the
    tracker never refuses one: a head connects to its finalized block, and an
    accepted block is known on top of it. *)

From S2P Require Import Prelude Schema Capture Exec Node TrackerProof ConsensusState Consensus ConsensusInv.

(** ** Instances *)

(** The configured [MakeSink] makes a tracker over a fresh sink ([make]); the
    tracker is beside the executor, which is told of a finalized block ([fin]). *)
Definition tracker_sink {sink X} `{SinkOps sink} (make : u64 → Hash → result sink) (fin : X → u64 → X) :
    EngineSink (Tracker sink * X) := {|
  es_Make k h hash := match make h hash with Ok s => (Ok (), (NewTracker s h hash, k.2)) | Err er => (Err er, k) end;
  es_Verified k b := (Verified k.1 b, k.2);
  es_Head k hash := let '(r, t) := Head (S (size (t_table k.1))) k.1 hash in (r, (t, k.2));
  es_Accepted k block hash :=
    let '(r, t) := Accepted k.1 block hash in (r, (t, match r with Ok _ => fin k.2 block | Err _ => k.2 end))
|}.

Definition tracker_executor {sink X Body} `{Executor X Body} : Executor (Tracker sink * X) Body := {|
  ex_Execute k parent blk := let '(r, x) := ex_Execute k.2 parent blk in (r, (k.1, x));
  ex_SeedHeaders k hs := (k.1, ex_SeedHeaders k.2 hs)
|}.

Lemma tracker_executor_laws {sink X Body} `{Executor X Body, !ExecutorLaws X Body} :
  ExecutorLaws (H:=tracker_executor) (Tracker sink * X) Body.
Proof.
  split. intros k parent blk b k'. cbn. destruct (ex_Execute k.2 parent blk) as [r x] eqn:Ex. intros [= -> <-].
  by eapply ex_Execute_law.
Qed.

(** The header-only executor has no state. *)
#[export] Instance HeaderOnly_executor {Body} : Executor unit Body := {|
  ex_Execute x parent blk := (HeaderOnly_Execute parent blk, x);
  ex_SeedHeaders x _ := x
|}.

#[export] Instance HeaderOnly_laws {Body} : ExecutorLaws unit Body.
Proof. split. intros x parent blk b x' [= <- <-]. done. Qed.

(** The executor of [follower/exec]. *)
Section exec_instance.
Context {db : Type} `{Reader.Reader db} {Body Receipts : Type}.
Context (EmptyCodeHash : Hash) (evm : Header → Header → Body → evm_prog Receipts).
Context (DeriveSha : Receipts → Hash) (CreateBloom : Receipts → bytes) (fuel : nat).

Definition exec_executor : Executor (Exec db) Body := {|
  ex_Execute x parent blk :=
    exec_Execute EmptyCodeHash evm DeriveSha CreateBloom fuel x parent (eb_Header blk) (eb_Body blk);
  ex_SeedHeaders := SeedHeaders
|}.

#[local] Existing Instance exec_executor.

Lemma exec_executor_laws : ExecutorLaws (Exec db) Body.
Proof.
  split. intros x parent blk b x'. cbn [ex_Execute exec_executor]. unfold exec_Execute.
  destruct (exec_run _ _ _ _ _ _ _) as [[[[ops gas] receipts]|er] x1]; [|done].
  repeat (case_bool_decide; [done|]). intros [= <- <-]. done.
Qed.
End exec_instance.

(** ** Heights along a chain *)

Section chain.
Context (V : Batch → Prop).
Context (V_first : ∀ b, V b → uval (Block b) ≠ 0%Z).
Context (V_hash : ∀ b b', V b → V b' → BHash b = BHash b' → Block b = Block b' ∧ Parent b = Parent b').

Lemma next_height (h : u64) b : V b → Block b = u_add h (u64_lit 1) → uval (Block b) = (h + 1)%Z.
Proof. intros Hb Hn. by apply u64_succ; [|apply V_first]. Qed.

Lemma extends_above (h : u64) hash bs n x b :
  (∀ b, b ∈ bs → V b) → extends h hash bs n x → b ∈ bs → (h < Block b)%Z.
Proof.
  revert h hash. induction bs as [|b0 bs IH]; intros h hash HV He Hb; [by apply elem_of_nil in Hb|].
  cbn [extends] in He. destruct He as (Hb0 & _ & He). pose proof (next_height h b0 (HV b0 ltac:(left)) Hb0) as Hn.
  apply elem_of_cons in Hb as [->|Hb]; [lia|].
  assert (Block b0 < Block b)%Z; [|lia].
  eapply (IH (Block b0) (BHash b0)); [intros; apply HV; by right|done|done].
Qed.

Lemma extends_le (h : u64) hash bs (n : u64) x :
  (∀ b, b ∈ bs → V b) → extends h hash bs n x → (h ≤ n)%Z.
Proof.
  revert h hash. induction bs as [|b bs IH]; intros h hash HV He; cbn [extends] in He; [by destruct He as [-> _]|].
  destruct He as (Hb & _ & He). pose proof (next_height h b (HV b ltac:(left)) Hb) as Hn.
  assert (Block b ≤ n)%Z; [|lia]. eapply IH; [intros; apply HV; by right|exact He].
Qed.

Lemma extends_below (h : u64) hash bs (n : u64) x b :
  (∀ b, b ∈ bs → V b) → extends h hash bs n x → b ∈ bs → (Block b ≤ n)%Z.
Proof.
  revert h hash. induction bs as [|b0 bs IH]; intros h hash HV He Hb; [by apply elem_of_nil in Hb|].
  cbn [extends] in He. destruct He as (_ & _ & He).
  assert (∀ b, b ∈ bs → V b) as HV' by (intros; apply HV; by right).
  apply elem_of_cons in Hb as [->|Hb]; [by eapply extends_le|by eapply IH].
Qed.

(** The blocks of a chain have distinct hashes. *)
Lemma extends_nodup (h : u64) hash bs n x :
  (∀ b, b ∈ bs → V b) → extends h hash bs n x → NoDup (BHash <$> bs).
Proof.
  revert h hash. induction bs as [|b0 bs IH]; intros h hash HV He; [constructor|].
  cbn [extends fmap list_fmap] in *. destruct He as (Hb0 & _ & He).
  assert (V b0) as HV0 by (apply HV; left). assert (∀ b, b ∈ bs → V b) as HVs by (intros; apply HV; by right).
  constructor; [|by eapply IH].
  intros (b & Hb & Hin)%list_elem_of_fmap.
  pose proof (extends_above (Block b0) (BHash b0) bs n x b HVs He Hin).
  destruct (V_hash b0 b HV0 (HVs _ Hin) Hb) as [Hbl _]. rewrite Hbl in *. lia.
Qed.

Lemma extends_snoc_inv h hash bs b n x :
  extends h hash (bs ++ [b]) n x →
  ∃ n', extends h hash bs n' (Parent b) ∧ x = BHash b.
Proof.
  revert h hash. induction bs as [|b0 bs IH]; intros h hash; cbn [extends app].
  - intros (_ & Hp & _ & ->). by exists h.
  - intros (H1 & H2 & He). destruct (IH _ _ He) as (n' & He' & ->). by exists n'.
Qed.

Lemma follows_verified h0 hash0 l h hash b : follows V h0 hash0 l h hash → SVerified b ∈ l → V b.
Proof.
  induction 1 as [|l h hash b0 _ IH Hb0|l h hash bs n x _ IH _ _|l h hash b0 _ IH _ _ _].
  - by intros [=]%list_elem_of_singleton.
  - intros [?|[= ->]%list_elem_of_singleton]%elem_of_app; [by apply IH|done].
  - intros [?|[=]%list_elem_of_singleton]%elem_of_app. by apply IH.
  - intros [?|[=]%list_elem_of_singleton]%elem_of_app. by apply IH.
Qed.

(** ** The tracker beside the log *)

Context {sink : Type} `{SinkLaws sink}.
Implicit Types t : Tracker sink.

(** The tracker keeps its invariant, its finalized block is the last accepted
    one, and the batches above it are in its table. *)
Record tracks t (l : list sink_event) (h : u64) (hash : Hash) : Prop := {
  tk_inv : tracker_inv t;
  tk_height : t_finalizedHeight t = h;
  tk_hash : t_finalizedHash t = hash;
  tk_table b : SVerified b ∈ l → (h < Block b)%Z →
    ∃ b', t_table t !! BHash b = Some b' ∧ SVerified b' ∈ l ∧ BHash b' = BHash b
}.

Lemma Head_table fuel t hash t' :
  Head fuel t hash = (Ok (), t') →
  t_table t' = t_table t ∧ t_finalizedHeight t' = t_finalizedHeight t ∧ t_finalizedHash t' = t_finalizedHash t.
Proof.
  unfold Head. destruct (chainTo fuel t hash) as [chain|]; [|done].
  destruct (sameChain _ _); [by intros [= <-]|]. destruct (_ && _).
  - destruct (last chain); [|done]. destruct (sink_Block _ _) as [r s]. by intros [= _ <-].
  - destruct (sink_PreferenceReset _ _) as [r s]. by intros [= _ <-].
Qed.

Lemma Accepted_table t (block : u64) hash t' :
  Accepted t block hash = (Ok (), t') →
  t_finalizedHeight t' = block ∧ t_finalizedHash t' = hash ∧
  t_table t' = filter (λ kv, ¬ (Block kv.2 ≤ block)%Z) (t_table t).
Proof.
  unfold Accepted, reset_to. destruct (match t_stack t with [] => _ | _ => _ end).
  - destruct (t_table t !! hash); [|done]. case_bool_decide; [done|].
    destruct (sink_PreferenceReset _ _) as [[[]|] s]; [|done]. destruct (sink_Finalize _ _ _) as [[[]|] s']; [|done].
    by intros [= <-].
  - destruct (sink_Finalize _ _ _) as [[[]|] s']; [|done]. by intros [= <-].
Qed.

Lemma tracks_make s (h : u64) hash : sink_layers s = [] → tracks (NewTracker s h hash) [SMake h hash] h hash.
Proof. intros Hs. split; [by apply NewTracker_inv|done|done|]. by intros b [=]%list_elem_of_singleton. Qed.

(** What stays in the table under a longer log. *)
Lemma tracks_log t l ev h hash :
  tracks t l h hash → (∀ b, ev ≠ SVerified b) → tracks t (l ++ [ev]) h hash.
Proof.
  intros [Hi H1 H2 H3] Hev. split; [done..|].
  intros b [Hb|He%list_elem_of_singleton]%elem_of_app Hab; [|by destruct (Hev b)].
  destruct (H3 b Hb Hab) as (b' & ? & ? & ?). exists b'. split_and!; [done|apply elem_of_app; by left|done].
Qed.

Lemma tracks_verified t l h hash b : tracks t l h hash → tracks (Verified t b) (l ++ [SVerified b]) h hash.
Proof.
  intros [Hi H1 H2 H3]. pose proof (Verified_inv t b Hi) as Hi'. revert Hi'. unfold Verified.
  destruct (Z.leb_spec (Block b) (t_finalizedHeight t)) as [Hle|Hlt]; intros Hi'; (split; [done..|]).
  - intros b0 [Hb0|[= ->]%list_elem_of_singleton]%elem_of_app Hab; [|rewrite <-H1 in Hab; lia].
    destruct (H3 b0 Hb0 Hab) as (b' & ? & ? & ?). exists b'. split_and!; [done|apply elem_of_app; by left|done].
  - cbn [t_table]. intros b0 Hb0 Hab. destruct (decide (BHash b0 = BHash b)) as [->|Hne].
    { rewrite lookup_insert_eq. exists b. split_and!; [done|apply elem_of_app; right; left|done]. }
    rewrite lookup_insert_ne by done.
    apply elem_of_app in Hb0 as [Hb0|[= ->]%list_elem_of_singleton]; [|done].
    destruct (H3 b0 Hb0 Hab) as (b' & ? & ? & ?). exists b'. split_and!; [done|apply elem_of_app; by left|done].
Qed.

Lemma tracks_moved fuel t l h hash x t' :
  tracks t l h hash → Head fuel t x = (Ok (), t') → tracks t' l h hash.
Proof.
  intros [Hi H1 H2 H3] Hh.
  destruct (Head_table _ _ _ _ Hh) as (Htab & ? & ?). destruct (Head_inv _ _ _ _ Hi Hh) as [Hi' _].
  split; [done|congruence|congruence|]. by rewrite Htab.
Qed.

Lemma tracks_head fuel t l h hash x t' :
  tracks t l h hash → Head fuel t x = (Ok (), t') → tracks t' (l ++ [SHead x]) h hash.
Proof. intros Ht Hh. apply tracks_log; [by eapply tracks_moved|done]. Qed.

Lemma tracks_reset t l h hash x t' :
  tracks t l h hash → reset_to t x = (Ok (), t') → tracks t' l h hash.
Proof.
  intros [Hi H1 H2 H3] Hr. destruct (reset_to_inv _ _ _ Hi Hr) as (Hi' & Hf & Htab & _).
  assert (t_finalizedHeight t' = t_finalizedHeight t) as Hh.
  { revert Hr. unfold reset_to. destruct (match t_stack t with [] => _ | _ => _ end); [|by intros [= <-]].
    destruct (t_table t !! x); [|done]. case_bool_decide; [done|].
    destruct (sink_PreferenceReset _ _) as [r s]. by intros [= _ <-]. }
  split; [done|congruence|congruence|]. by rewrite Htab.
Qed.

Lemma tracks_accepted t l (h : u64) hash b t' :
  tracks t l h hash → (∀ b, SVerified b ∈ l → V b) → V b → Block b = u_add h (u64_lit 1) →
  Accepted t (Block b) (BHash b) = (Ok (), t') →
  tracks t' (l ++ [SAccepted (Block b) (BHash b)]) (Block b) (BHash b).
Proof.
  intros [Hi H1 H2 H3] HV Hvb Hblk Ha. apply tracks_log; [|done].
  destruct (Accepted_table _ _ _ _ Ha) as (? & ? & Htab). destruct (Accepted_inv _ _ _ _ Hi Ha) as [Hi' _].
  split; [done..|]. pose proof (next_height h b Hvb Hblk) as Hn. intros b0 Hb0 Hab. rewrite Htab.
  destruct (H3 b0 Hb0 ltac:(lia)) as (b' & Hb' & Hin' & Hh'). exists b'. split_and!; [|done|done].
  apply map_lookup_filter_Some. split; [done|]. cbn. destruct (V_hash b' b0 (HV _ Hin') (HV _ Hb0) Hh') as [-> _]. lia.
Qed.

(** The walk of [chainTo] down a chain of verified batches. *)
Lemma chain_walk_extends l (h : u64) hash t bs n x fuel rv :
  (∀ b, SVerified b ∈ l → V b) → tracks t l h hash →
  extends h hash bs n x → (∀ b, b ∈ bs → SVerified b ∈ l) → length bs < fuel →
  ∃ r, chain_walk fuel t x rv = Ok r.
Proof.
  intros HV Ht. revert n x fuel rv. induction bs as [|b bs IH] using rev_ind; intros n x fuel rv He Hin Hf;
    (destruct fuel as [|fuel]; [cbn in Hf; lia|]); cbn [chain_walk].
  - cbn in He. destruct He as [_ ->]. rewrite (tk_hash _ _ _ _ Ht), bool_decide_true by done. by eexists.
  - case_bool_decide; [by eexists|].
    assert (SVerified b ∈ l) as Hb by (apply Hin, elem_of_app; right; left).
    assert (h < Block b)%Z as Hab.
    { eapply (extends_above h hash (bs ++ [b]) n x); [by intros; apply HV, Hin|done|apply elem_of_app; right; left]. }
    apply extends_snoc_inv in He as (n' & He & ->).
    destruct (tk_table _ _ _ _ Ht b Hb Hab) as (b' & -> & Hb' & Hh').
    destruct (V_hash b' b (HV _ Hb') (HV _ Hb) Hh') as [_ ->].
    rewrite length_app in Hf. cbn in Hf.
    eapply IH; [exact He| |lia]. intros b0 Hb0. apply Hin, elem_of_app. by left.
Qed.

(** The tracker finds the chain of a head the engine emits. *)
Lemma head_found (h0 : u64) hash0 l (h : u64) hash t bs n x :
  follows V h0 hash0 l h hash → tracks t l h hash →
  extends h hash bs n x → (∀ b, b ∈ bs → SVerified b ∈ l) →
  ∃ chain, chainTo (S (size (t_table t))) t x = Ok chain.
Proof.
  intros Hf Ht He Hin.
  assert (∀ b, SVerified b ∈ l → V b) as HV by (intros b Hb; by eapply follows_verified).
  assert (length bs ≤ size (t_table t)) as Hlen.
  { rewrite <-(length_fmap BHash bs), <-size_dom.
    rewrite <-(size_list_to_set (C:=gset Hash) (BHash <$> bs)) by (eapply extends_nodup; [by intros; apply HV, Hin|exact He]).
    apply subseteq_size. intros y. rewrite elem_of_list_to_set. intros (b & -> & Hb)%list_elem_of_fmap.
    destruct (tk_table _ _ _ _ Ht b (Hin b Hb)) as (b' & Hb' & _);
      [by eapply extends_above; [intros; by apply HV, Hin|exact He|]|].
    apply elem_of_dom. by exists b'. }
  destruct (chain_walk_extends l h hash t bs n x (S (size (t_table t))) [] HV Ht He Hin) as [r Hr]; [lia|].
  unfold chainTo. rewrite Hr. by eexists.
Qed.
End chain.

(** ** The tracker as the engine's sink *)

Section tracker_sink.
Context {sink X : Type} `{SinkLaws sink} (make : u64 → Hash → result sink) (fin : X → u64 → X).
Context (make_empty : ∀ h hash s, make h hash = Ok s → sink_layers s = []).

(** The errors of the calls the tracker makes. *)
Inductive sink_fault : error → Prop :=
| sf_make h hash er : make h hash = Err er → sink_fault er
| sf_block s b s' er : sink_Block s b = (Err er, s') → sink_fault er
| sf_reset s bs s' er : sink_PreferenceReset s bs = (Err er, s') → sink_fault er
| sf_finalize s block hash s' er : sink_Finalize s block hash = (Err er, s') → sink_fault er.
#[local] Hint Constructors sink_fault : core.

(** A head that is found fails only with the sink, and so does a known child of
    the finalized block. *)
Lemma Head_fault fuel t x chain er t' :
  chainTo fuel t x = Ok chain → Head fuel t x = (Err er, t') → sink_fault er.
Proof.
  unfold Head. intros ->. destruct (sameChain _ _); [done|]. destruct (_ && _) eqn:El.
  - destruct (last chain) as [b|] eqn:Elast.
    + destruct (sink_Block _ b) as [r s] eqn:Eb. intros [= -> _]. by eauto.
    + apply last_None in Elast as ->. apply andb_true_iff in El as [El%Nat.eqb_eq _]. cbn in El. lia.
  - destruct (sink_PreferenceReset _ chain) as [r s] eqn:Eb. intros [= -> _]. by eauto.
Qed.

Lemma Accepted_fault t block hash b er t' :
  t_table t !! hash = Some b → Parent b = t_finalizedHash t → Accepted t block hash = (Err er, t') → sink_fault er.
Proof.
  intros Hb Hp. unfold Accepted, reset_to. rewrite Hb, bool_decide_false by (by intros Hn).
  destruct (match t_stack t with [] => _ | _ => _ end).
  - destruct (sink_PreferenceReset _ _) as [[[]|er'] s] eqn:Er; [|intros [= -> _]; by eauto].
    destruct (sink_Finalize _ _ _) as [[[]|er'] s'] eqn:Ef; [done|]. intros [= -> _]. by eauto.
  - destruct (sink_Finalize _ _ _) as [[[]|er'] s'] eqn:Ef; [done|]. intros [= -> _]. by eauto.
Qed.

Context {Body : Type} `{Executor X Body, !ExecutorLaws X Body} (cfg : Config).
Context (proposer : bytes → option (Hash * Hash * bytes)) (rlp_block : bytes → option (EthBlock Body)).
Context (rcv : list bytes).

(** No two received blocks with different numbers or parents have the same
    hash. *)
Definition eth_hashes_ok : Prop := ∀ c c', parsed proposer rlp_block rcv c → parsed proposer rlp_block rcv c' →
  eb_Hash (c_Eth c) = eb_Hash (c_Eth c') →
  eb_Number (c_Eth c) = eb_Number (c_Eth c') ∧ eb_ParentHash (c_Eth c) = eb_ParentHash (c_Eth c').
Context (Heth : eth_hashes_ok).
#[local] Existing Instance tracker_executor.

Lemma tracker_sink_ok (F : error → Prop) :
  (∀ er, sink_fault er → F er) → (∀ (x : X) parent (blk : EthBlock Body) er x', ex_Execute x parent blk = (Err er, x') → F er) →
  sink_ok (HK:=tracker_sink make fin) cfg proposer rlp_block rcv (λ _, F) (λ _, True) (λ k l h hash, tracks k.1 l h hash).
Proof.
  intros HF HX. set (V := of_parsed proposer rlp_block rcv).
  assert (∀ b, V b → uval (Block b) ≠ 0%Z) as Vh by (by intros b [Hb _]).
  assert (∀ b b', V b → V b' → BHash b = BHash b' → Block b = Block b' ∧ Parent b = Parent b') as Vx.
  { intros b b' (_ & c & Hc & -> & -> & ->) (_ & c' & Hc' & -> & -> & ->). by apply Heth. }
  split; cbn [es_Make es_Verified es_Head es_Accepted tracker_sink ex_Execute ex_SeedHeaders tracker_executor].
  - done.
  - intros [t x] h hash r k' _ _ _. cbn [fst snd]. destruct (make h hash) as [s|er] eqn:Em; intros [= <- <-].
    + by apply tracks_make, (make_empty h hash).
    + by apply HF; eauto.
  - intros [t x] l h hash bs n c r k' Ht Hgl Hc _ _ _ _. cbn [fst snd] in *.
    destruct (ex_Execute x _ _) as [r' x'] eqn:Ex. intros [= <- <-]. destruct r' as [b|er]; [|by eapply HX].
    by apply tracks_verified.
  - intros [t x] l h hash bs n x0 r k' Ht (h0 & hash0 & _ & Hfo) He Hin. cbn [fst snd] in *.
    destruct (Head _ t x0) as [r' t'] eqn:Eh. intros [= <- <-].
    destruct (head_found V Vh Vx h0 hash0 l h hash t bs n x0 Hfo Ht He Hin) as [chain Hch].
    destruct r' as [[]|er]; [by eapply tracks_head|]. by eapply HF, Head_fault.
  - intros [t x] l h hash b r k' Ht (h0 & hash0 & _ & Hfo) Hb Hblk Hpar. cbn [fst snd] in *.
    destruct (Accepted t _ _) as [r' t'] eqn:Ea. intros [= <- <-].
    assert (∀ b, SVerified b ∈ l → V b) as HV by (intros b0 Hb0; by eapply follows_verified).
    destruct r' as [[]|er]; [by eapply (tracks_accepted V); [..|apply HV, Hb| |]|]. apply HF.
    destruct (tk_table _ _ _ _ Ht b Hb) as (b' & Hb' & Hin' & Hh').
    { rewrite (next_height V Vh h b (HV _ Hb) Hblk). lia. }
    eapply Accepted_fault; [exact Hb'| |exact Ea].
    destruct (Vx b' b (HV _ Hin') (HV _ Hb) Hh') as [_ ->]. rewrite Hpar. symmetry. apply Ht.
Qed.
End tracker_sink.
