(* ===== verification/Net.v ===== *)
(** * Net: the peer-to-peer network of the follower

    Models [follower/net/handler.go] and the own logic of [follower/net/net.go]:
    the dispatch of inbound messages to callbacks, the set of connected peers, dialing,
    the refresh of the validator set and of the peers to track, and the requests sent.
    avalanchego's peer tracker and message creator are interfaces, its validator
    manager one with its documented laws, and what the nodes answer over RPC are
    arguments.  The network is the engine's [ConsensusState.Net] ([network_net]). *)

From Stdlib Require Import Ascii.
From stdpp Require Import strings.
From S2P Require Import Prelude Schema ConsensusState.

(** ** Inbound messages *)

(** The [p2p] messages the handler looks into, with the fields it reads. *)
Inductive p2p_message :=
| p2p_Put (Container : bytes)
| p2p_PushQuery (Container : bytes)
| p2p_Chits (RequestId : u32) (PreferredId PreferredIdAtHeight AcceptedId : bytes) (AcceptedHeight : u64)
| p2p_Ancestors (RequestId : u32) (Containers : list bytes)
| p2p_AppResponse (RequestId : u32) (AppBytes : bytes)
| p2p_AppError (RequestId : u32)
| p2p_other.

Inductive message_Op := PutOp | PushQueryOp | ChitsOp | AncestorsOp | AppResponseOp | AppErrorOp | OtherOp.

Record InboundMessage := MkInbound { im_NodeID : NodeID; im_Op : message_Op; im_Message : p2p_message }.

(** [ids.ToID] fails on anything but 32 bytes. *)
Definition ToID (b : bytes) : option Hash := if Nat.eqb (length b) 32 then Some (arr_of b) else None.

(** The callbacks act on a state [X]; [None] is a nil callback. *)
Record Callbacks (X : Type) := MkCallbacks {
  cb_Container : option (NodeID → bytes → X → X);
  cb_Chits : option (NodeID → u32 → Hash → Hash → Hash → u64 → X → X);
  cb_Ancestors : option (NodeID → u32 → list bytes → X → X);
  cb_AppResponse : option (NodeID → u32 → bytes → bool → X → X)
}.
Arguments MkCallbacks {X} _ _ _ _.
Arguments cb_Container {X} _.
Arguments cb_Chits {X} _.
Arguments cb_Ancestors {X} _.
Arguments cb_AppResponse {X} _.

Section inbound.
Context {X : Type} (cb : Callbacks X).

Definition handle_chits (node : NodeID) (RequestId : u32) (pref prefAt acc : bytes) (height : u64) (x : X) : X :=
  match cb_Chits cb with
  | None => x
  | Some f =>
      match ToID pref with
      | None => x
      | Some preferred =>
          let preferredAtHeight := match ToID prefAt with Some id => id | None => preferred end in
          match ToID acc with
          | None => x
          | Some accepted => f node RequestId preferred preferredAtHeight accepted height x
          end
      end
  end.

(** The switch on the operation, with the type assertion of each case. *)
Definition HandleInbound (x : X) (msg : InboundMessage) : X :=
  let node := im_NodeID msg in
  match im_Op msg, im_Message msg with
  | PutOp, p2p_Put c | PushQueryOp, p2p_PushQuery c =>
      match cb_Container cb with Some f => f node c x | None => x end
  | ChitsOp, p2p_Chits req pref prefAt acc h => handle_chits node req pref prefAt acc h x
  | AncestorsOp, p2p_Ancestors req cs => match cb_Ancestors cb with Some f => f node req cs x | None => x end
  | AppResponseOp, p2p_AppResponse req b => match cb_AppResponse cb with Some f => f node req b false x | None => x end
  | AppErrorOp, p2p_AppError req => match cb_AppResponse cb with Some f => f node req [] true x | None => x end
  | _, _ => x
  end.
End inbound.

(** ** Connected peers *)

Record handler := MkHandler {
  h_connected : gset NodeID;
  h_connectedCh : list NodeID (* a channel of 64 *)
}.

Definition newHandler : handler := MkHandler ∅ [].
Definition Connected (h : handler) (id : NodeID) : handler :=
  MkHandler ({[id]} ∪ h_connected h)
    (if Nat.ltb (length (h_connectedCh h)) 64 then h_connectedCh h ++ [id] else h_connectedCh h).
Definition Disconnected (h : handler) (id : NodeID) : handler := MkHandler (h_connected h ∖ {[id]}) (h_connectedCh h).
Definition isConnected (h : handler) (id : NodeID) : bool := bool_decide (id ∈ h_connected h).
Definition numConnected (h : handler) : nat := size (h_connected h).

(** The calls the network makes on the handler: a peer and whether it came or left. *)
Definition conn_step (h : handler) (ev : NodeID * bool) : handler :=
  if ev.2 then Connected h ev.1 else Disconnected h ev.1.

(** ** The validator set *)

Definition fetchWeights (list : result (list (NodeID * u64))) : result (gmap NodeID u64) :=
  let! vs := list in
  Ok (foldl (λ ws '(id, w), <[id:=u_add (default u_zero (ws !! id)) w]> ws) ∅ vs).

(** [validators.Manager] on the primary network *)
Class ValidatorManager (M : Type) := {
  vm_GetValidatorIDs : M → list NodeID;
  vm_GetWeight : M → NodeID → u64;
  vm_AddWeight : M → NodeID → u64 → result unit * M;
  vm_RemoveWeight : M → NodeID → u64 → result unit * M;
  vm_AddStaker : M → NodeID → u64 → result unit * M
}.

(** What the manager documents: the weight of a node that is no validator is zero,
    each operation changes the weight of one node, and an operation that fails
    changes nothing. *)
Definition weight_moves {M} `{ValidatorManager M} (m : M) (id : NodeID) (r : result unit * M) (w : Z) : Prop :=
  match r with
  | (Ok _, m') => uval (vm_GetWeight m' id) = w ∧ ∀ id', id' ≠ id → vm_GetWeight m' id' = vm_GetWeight m id'
  | (Err _, m') => m' = m
  end.

Class ManagerLaws (M : Type) `{ValidatorManager M} := {
  ml_ids (m : M) : NoDup (vm_GetValidatorIDs m);
  ml_zero (m : M) id : id ∉ vm_GetValidatorIDs m → vm_GetWeight m id = u_zero;
  ml_add (m : M) id w : weight_moves m id (vm_AddWeight m id w) (vm_GetWeight m id + w);
  ml_remove (m : M) id w : weight_moves m id (vm_RemoveWeight m id w) (vm_GetWeight m id - w);
  ml_staker (m : M) id w : weight_moves m id (vm_AddStaker m id w) w
}.

Section reconcile.
Context {M : Type} `{ValidatorManager M}.
(** The order in which Go ranges over the fetched weights *)
Context (order : gmap NodeID u64 → list (NodeID * u64)).

(** The first loop; the map is the caller's, and entries are deleted from it. *)
Fixpoint reconcile_known (ids : list NodeID) (m : M) (weights : gmap NodeID u64) : result unit * M * gmap NodeID u64 :=
  match ids with
  | [] => (Ok (), m, weights)
  | id :: ids' =>
      let cur := vm_GetWeight m id in
      let want := default u_zero (weights !! id) in
      let weights := delete id weights in
      if (want =? cur)%Z then reconcile_known ids' m weights
      else
        let '(r, m) := if (cur <? want)%Z then vm_AddWeight m id (u_sub want cur) else vm_RemoveWeight m id (u_sub cur want) in
        match r with
        | Err er => (Err er, m, weights)
        | Ok _ => reconcile_known ids' m weights
        end
  end.

Fixpoint add_stakers (news : list (NodeID * u64)) (m : M) : result unit * M :=
  match news with
  | [] => (Ok (), m)
  | (id, w) :: news' =>
      if (w =? 0)%Z then add_stakers news' m
      else
        let '(r, m) := vm_AddStaker m id w in
        match r with
        | Err er => (Err er, m)
        | Ok _ => add_stakers news' m
        end
  end.

(** The manager and what is left of the caller's map. *)
Definition reconcileValidators (m : M) (weights : gmap NodeID u64) : result unit * M * gmap NodeID u64 :=
  let '(r, m, weights) := reconcile_known (vm_GetValidatorIDs m) m weights in
  match r with
  | Err er => (Err er, m, weights)
  | Ok _ => let '(r, m) := add_stakers (order weights) m in (r, m, weights)
  end.

(** ** Tracking peers *)

(** An address is [None] when it is not valid. *)
Record PeerInfo (A : Type) := MkPeerInfo { pe_ID : NodeID; pe_PublicIP : option A; pe_IP : option A }.

Definition peer_addr {A} (p : PeerInfo A) : option A := match pe_PublicIP A p with Some a => Some a | None => pe_IP A p end.

(** The count returned, and the peers given to [ManuallyTrack]. *)
Definition trackPeers {A} (peers : result (list (PeerInfo A))) : result nat * list (NodeID * A) :=
  match peers with
  | Err er => (Err er, [])
  | Ok ps => (Ok (length ps), omap (λ p, (λ a, (pe_ID A p, a)) <$> peer_addr p) ps)
  end.

(** One turn of [refreshLoop]: the manager, the peers tracked, and the number of
    validators it logs. *)
Definition refresh {A} (m : M) (fetched : result (list (NodeID * u64))) (peers : result (list (PeerInfo A))) :
    M * list (NodeID * A) * option nat :=
  match fetchWeights fetched with
  | Err _ => (m, [], None)
  | Ok weights =>
      let '(r, m, weights) := reconcileValidators m weights in
      match r with
      | Err _ => (m, [], None)
      | Ok _ => (m, (trackPeers peers).2, Some (size weights))
      end
  end.
End reconcile.
Arguments MkPeerInfo {A} _ _ _.

(** ** Bootstrap peers *)

Section bootstrap.
Context {A : Type} (NodeIDFromString : string → result NodeID) (ParseAddrPort : string → result A).

(** [strings.Cut s "@"] *)
Fixpoint cut_at (s : string) : option (string * string) :=
  match s with
  | EmptyString => None
  | String c s' =>
      if Ascii.eqb c "@"%char then Some (EmptyString, s')
      else (λ '(a, b), (String c a, b)) <$> cut_at s'
  end.

Definition parseBootstrapPeer (s : string) : result (NodeID * A) :=
  match cut_at s with
  | None => Err (ErrMsg "net: bootstrap peer")
  | Some (id, rest) =>
      let! nodeID := NodeIDFromString id in
      let! addr := ParseAddrPort rest in
      Ok (nodeID, addr)
  end.

(** The peers [Dial] tracks: what the node knows, and the configured ones; none is
    an error. *)
Fixpoint track_bootstrap (ss : list string) (tracked : list (NodeID * A)) (n : nat) : result nat * list (NodeID * A) :=
  match ss with
  | [] => (Ok n, tracked)
  | s :: ss' =>
      match parseBootstrapPeer s with
      | Err er => (Err er, tracked)
      | Ok p => track_bootstrap ss' (tracked ++ [p]) (S n)
      end
  end.

Definition dial_track (peers : result (list (PeerInfo A))) (BootstrapPeers : list string) : result nat * list (NodeID * A) :=
  let '(r, tracked) := trackPeers peers in
  match r with
  | Err er => (Err er, tracked)
  | Ok n =>
      let '(r, tracked) := track_bootstrap BootstrapPeers tracked n in
      match r with
      | Err er => (Err er, tracked)
      | Ok 0 => (Err (ErrMsg "net: no peers to track"), tracked)
      | Ok n => (Ok n, tracked)
      end
  end.
End bootstrap.

(** ** Dialing

    [Dial] and the life of a [Network].  What the bootstrap node answers and what
    avalanchego's constructors return are arguments; the calls that start or stop
    something are logged. *)

(** What [Dial] does to the network it makes. *)
Inductive net_event (A : Type) :=
| ev_NewNetwork (MyNodeID : NodeID)
| ev_Dispatch
| ev_ManuallyTrack (id : NodeID) (addr : A)
| ev_StartClose
| ev_RefreshLoop (interval : Z).
Arguments ev_NewNetwork {A} _.
Arguments ev_Dispatch {A}.
Arguments ev_ManuallyTrack {A} _ _.
Arguments ev_StartClose {A}.
Arguments ev_RefreshLoop {A} _.

Definition DefaultNodeURI : string := "https://api.avax.network".
Definition DefaultRefreshInterval : Z := 5 * 60 * 10 ^ 9.

Record NetConfig := MkNetConfig { cfg_NodeURI : string; cfg_RefreshInterval : Z; cfg_BootstrapPeers : list string }.

Definition with_defaults (cfg : NetConfig) : NetConfig :=
  MkNetConfig (if decide (cfg_NodeURI cfg = EmptyString) then DefaultNodeURI else cfg_NodeURI cfg)
    (if (cfg_RefreshInterval cfg <=? 0)%Z then DefaultRefreshInterval else cfg_RefreshInterval cfg)
    (cfg_BootstrapPeers cfg).

(** [permissiveValidators.Contains] *)
Definition permissive_Contains (subnet : Hash) (node : NodeID) : bool := true.

(** What the node at a URI answers. *)
Record BootstrapNode (A : Type) := MkBootstrapNode {
  bn_NetworkID : result u32;
  bn_BlockchainID : result Hash;
  bn_Validators : result (list (NodeID * u64));
  bn_Peers : result (list (PeerInfo A))
}.
Arguments MkBootstrapNode {A} _ _ _ _.
Arguments bn_NetworkID {A} _.
Arguments bn_BlockchainID {A} _.
Arguments bn_Validators {A} _.
Arguments bn_Peers {A} _.

(** [message.Creator]: the messages of the chain, with a request ID and a deadline. *)
Record Creator (Msg : Type) := MkCreator {
  cr_Get : Hash → u32 → Z → Hash → result Msg;
  cr_GetAncestors : Hash → u32 → Z → Hash → result Msg;
  cr_AppRequest : Hash → u32 → Z → bytes → result Msg;
  cr_PullQuery : Hash → u32 → Z → Hash → u64 → result Msg
}.
Arguments MkCreator {Msg} _ _ _ _.
Arguments cr_Get {Msg} _ _ _ _.
Arguments cr_GetAncestors {Msg} _ _ _ _.
Arguments cr_AppRequest {Msg} _ _ _ _.
Arguments cr_PullQuery {Msg} _ _ _ _ _.

(** [avap2p.PeerTracker]; [F] are bandwidths. *)
Class PeerTracker (T F : Type) := {
  pt_Connected : T → NodeID → T;
  pt_Disconnected : T → NodeID → T;
  pt_SelectPeer : T → option NodeID * T;
  pt_RegisterRequest : T → NodeID → T;
  pt_RegisterFailure : T → NodeID → T;
  pt_RegisterResponse : T → NodeID → F → T;
  pt_one : F
}.

(** The network: the constant parts, the validators, the connected peers, the peer
    tracker, the request counter, whether [done] is closed, and the messages sent. *)
Record Network (M Msg T : Type) := MkNetwork {
  n_chainID : Hash;
  n_creator : Creator Msg;
  n_vdrs : M;
  n_handler : handler;
  n_tracker : T;
  n_reqID : u32;
  n_done : bool;
  n_sent : list (Msg * gset NodeID)
}.
Arguments MkNetwork {M Msg T} _ _ _ _ _ _ _ _.
Arguments n_chainID {M Msg T} _.
Arguments n_creator {M Msg T} _.
Arguments n_vdrs {M Msg T} _.
Arguments n_handler {M Msg T} _.
Arguments n_reqID {M Msg T} _.
Arguments n_done {M Msg T} _.
Arguments n_sent {M Msg T} _.
Arguments n_tracker {M Msg T} _.

(** The channel the select of [waitForPeer] received from. *)
Inductive wake := w_ctx (er : error) | w_dispatch (er : error) | w_timeout | w_connected.

(** [h] is the handler when [waitForPeer] is entered, [h'] when it wakes up. *)
Definition waitForPeer (h h' : handler) (w : wake) : result unit * handler :=
  if Nat.ltb 0 (numConnected h) then (Ok (), h')
  else
    match w with
    | w_ctx er => (Err er, h')
    | w_dispatch er => (Err er, h')
    | w_timeout => (Err (ErrMsg "net: no peer connected"), h')
    | w_connected => (Ok (), MkHandler (h_connected h') (tail (h_connectedCh h')))
    end.

Notation "'try!' x := r 'else' evs 'in' k" :=
  (match r with Err er => (Err er, evs) | Ok x => k end)
  (at level 200, x pattern, r at level 100, evs at level 100, k at level 200).

Section dial.
Context {M A Msg T F Cert : Type} `{ValidatorManager M, PeerTracker T F}.
Context (order : gmap NodeID u64 → list (NodeID * u64)).
Context (NodeIDFromString : string → result NodeID) (ParseAddrPort : string → result A).
(** the constructors of avalanchego, and the nodes by their URI *)
Context (NewManager : M) (node_at : string → BootstrapNode A).
Context (NewPeerTracker : result T) (NewTestNetworkConfig : u32 → result bytes).
Context (ParseCertificate : bytes → result Cert) (NodeIDFromCert : Cert → NodeID).
Context (NewTestNetwork : result unit) (NewCreator : result (Creator Msg)).

(** The calls of the network on the handler, which passes them on to the tracker. *)
Definition conn_tracker (t : T) (ev : NodeID * bool) : T := if ev.2 then pt_Connected t ev.1 else pt_Disconnected t ev.1.

(** The peers that came and left until [waitForPeer] was entered ([conns]), until it
    woke up by [w] ([conns']), and during the warmup ([conns'']). *)
Definition Dial (cfg : NetConfig) (conns conns' conns'' : list (NodeID * bool)) (w : wake) :
    result (Network M Msg T) * list (net_event A) :=
  let cfg := with_defaults cfg in
  let node := node_at (cfg_NodeURI cfg) in
  try! networkID := bn_NetworkID node else [] in
  try! chainID := bn_BlockchainID node else [] in
  try! weights := fetchWeights (bn_Validators node) else [] in
  let '(r, vdrs, _) := reconcileValidators order NewManager weights in
  try! _ := r else [] in
  try! tracker := NewPeerTracker else [] in
  try! raw := NewTestNetworkConfig networkID else [] in
  try! stakingCert := ParseCertificate raw else [] in
  let MyNodeID := NodeIDFromCert stakingCert in
  try! _ := NewTestNetwork else [] in
  let evs := [ev_NewNetwork MyNodeID] in
  try! creator := NewCreator else evs ++ [ev_StartClose] in
  let '(r, tracked) := dial_track NodeIDFromString ParseAddrPort (bn_Peers node) (cfg_BootstrapPeers cfg) in
  let evs := evs ++ [ev_Dispatch] ++ ((λ p, ev_ManuallyTrack p.1 p.2) <$> tracked) in
  try! _ := r else evs ++ [ev_StartClose] in
  let h := foldl conn_step newHandler conns in
  let '(r, h) := waitForPeer h (foldl conn_step h conns') w in
  try! _ := r else evs ++ [ev_StartClose] in
  (Ok (MkNetwork chainID creator vdrs (foldl conn_step h conns'')
         (foldl conn_tracker tracker (conns ++ conns' ++ conns'')) u_zero false []),
   evs ++ [ev_RefreshLoop (cfg_RefreshInterval cfg)]).
End dial.

(** ** The network in use *)

Section network.
Context {M A Msg T F : Type} `{ValidatorManager M, PeerTracker T F}.
Context (order : gmap NodeID u64 → list (NodeID * u64)).
Implicit Types n : Network M Msg T.

(** [Close]; closing twice panics. *)
Definition Close n : result unit * Network M Msg T * list (net_event A) :=
  if n_done n then (Err (ErrMsg "close of closed channel"), n, [])
  else (Ok (), MkNetwork (n_chainID n) (n_creator n) (n_vdrs n) (n_handler n) (n_tracker n) (n_reqID n) true (n_sent n),
        [ev_StartClose]).

Definition NextRequestID n : u32 * Network M Msg T :=
  let id := u_add (n_reqID n) (wrap 1) in
  (id, MkNetwork (n_chainID n) (n_creator n) (n_vdrs n) (n_handler n) (n_tracker n) id (n_done n) (n_sent n)).

Definition IsConnected n (node : NodeID) : bool := isConnected (n_handler n) node.
Definition NumConnected n : nat := numConnected (n_handler n).
Definition ConnectedPeers n : gset NodeID := h_connected (n_handler n).

Definition set_tracker n (t : T) : Network M Msg T :=
  MkNetwork (n_chainID n) (n_creator n) (n_vdrs n) (n_handler n) t (n_reqID n) (n_done n) (n_sent n).
Definition SelectPeer n : option NodeID * Network M Msg T :=
  let '(id, t) := pt_SelectPeer (n_tracker n) in (id, set_tracker n t).
Definition RegisterRequest n (id : NodeID) := set_tracker n (pt_RegisterRequest (n_tracker n) id).
Definition RegisterFailure n (id : NodeID) := set_tracker n (pt_RegisterFailure (n_tracker n) id).
Definition RegisterResponseBW n (id : NodeID) (bandwidth : F) :=
  set_tracker n (pt_RegisterResponse (n_tracker n) id bandwidth).
Definition RegisterResponse n (id : NodeID) := RegisterResponseBW n id pt_one.

(** [send] *)
Definition net_send n (msg : Msg) (nodeIDs : gset NodeID) : Network M Msg T :=
  MkNetwork (n_chainID n) (n_creator n) (n_vdrs n) (n_handler n) (n_tracker n) (n_reqID n) (n_done n)
    (n_sent n ++ [(msg, nodeIDs)]).

Definition send_created n (msg : result Msg) (nodeIDs : gset NodeID) : result unit * Network M Msg T :=
  match msg with
  | Err er => (Err er, n)
  | Ok msg => (Ok (), net_send n msg nodeIDs)
  end.
Definition SendGet n (nodeID : NodeID) (requestID : u32) (containerID : Hash) :=
  send_created n (cr_Get (n_creator n) (n_chainID n) requestID RequestTimeout containerID) {[nodeID]}.
Definition SendGetAncestors n (nodeID : NodeID) (requestID : u32) (containerID : Hash) :=
  send_created n (cr_GetAncestors (n_creator n) (n_chainID n) requestID RequestTimeout containerID) {[nodeID]}.
Definition SendAppRequest n (nodeID : NodeID) (requestID : u32) (appBytes : bytes) :=
  send_created n (cr_AppRequest (n_creator n) (n_chainID n) requestID RequestTimeout appBytes) {[nodeID]}.
Definition SendPullQuery n (nodeIDs : gset NodeID) (requestID : u32) (containerID : Hash) (requestedHeight : u64) :=
  send_created n (cr_PullQuery (n_creator n) (n_chainID n) requestID RequestTimeout containerID requestedHeight) nodeIDs.

(** The turns of [refreshLoop]: what the node answers at each tick, until [done] is
    received. *)
Fixpoint refreshLoop n (ticks : list (option (result (list (NodeID * u64)) * result (list (PeerInfo A))))) :
    Network M Msg T * list (net_event A) * bool :=
  match ticks with
  | [] => (n, [], false)
  | None :: _ => (n, [], true)
  | Some (fetched, peers) :: ticks' =>
      let '(vdrs, tracked, _) := refresh order (n_vdrs n) fetched peers in
      let '(n, evs, stopped) :=
        refreshLoop (MkNetwork (n_chainID n) (n_creator n) vdrs (n_handler n) (n_tracker n) (n_reqID n) (n_done n) (n_sent n))
          ticks' in
      (n, ((λ p, ev_ManuallyTrack p.1 p.2) <$> tracked) ++ evs, stopped)
  end.
End network.

(** ** The network as the engine's [Net]

    The sampler, the clock and the order of ranges are outside. *)

Class Outside (W : Type) (M : Type) := {
  ou_Sample : W → M → Z → result (list NodeID) * W;
  ou_Now : W → Z * W;
  ou_Range : W → nat → list nat * W
}.

(** Validators sampled by stake weight. *)
Definition SampleValidators {M Msg T W : Type} `{Outside W M} (n : Network M Msg T) (w : W) (k : Z) : result (list NodeID) * W :=
  ou_Sample w (n_vdrs n) k.

#[export] Instance network_net {M Msg T F W : Type} `{ValidatorManager M, PeerTracker T F, Outside W M} :
    ConsensusState.Net (Network M Msg T * W) := {|
  nt_NextRequestID n := let '(id, x) := NextRequestID n.1 in (id, (x, n.2));
  nt_SampleValidators n k := let '(r, w) := SampleValidators n.1 n.2 k in (r, (n.1, w));
  nt_IsConnected n id := (IsConnected n.1 id, n);
  nt_SelectPeer n := let '(id, x) := SelectPeer n.1 in (id, (x, n.2));
  nt_SendGet n node req id := let '(r, x) := SendGet n.1 node req id in (r, (x, n.2));
  nt_SendGetAncestors n node req id := let '(r, x) := SendGetAncestors n.1 node req id in (r, (x, n.2));
  nt_SendPullQuery n nodes req id h := let '(r, x) := SendPullQuery n.1 nodes req id h in (r, (x, n.2));
  nt_Now n := let '(t, w) := ou_Now n.2 in (t, (n.1, w));
  nt_Range n k := let '(l, w) := ou_Range n.2 k in (l, (n.1, w))
|}.

(** * The validator set after a refresh

    [reconcileValidators] makes the manager's weights those fetched, and leaves a
    manager between the two when an operation fails. *)

(** The weight a node shall have. *)
Definition wanted (weights : gmap NodeID u64) (id : NodeID) : u64 := default u_zero (weights !! id).

Section reconcile.
Context {M : Type} `{ManagerLaws M}.
Implicit Types (m : M) (weights : gmap NodeID u64).

(** Adding or removing the difference. *)
Lemma adjust_weight m id (want : u64) r m' :
  (if (vm_GetWeight m id <? want)%Z then vm_AddWeight m id (u_sub want (vm_GetWeight m id))
   else vm_RemoveWeight m id (u_sub (vm_GetWeight m id) want)) = (r, m') →
  match r with
  | Ok _ => vm_GetWeight m' id = want ∧ ∀ id', id' ≠ id → vm_GetWeight m' id' = vm_GetWeight m id'
  | Err _ => m' = m
  end.
Proof.
  pose proof (uint_range (vm_GetWeight m id)) as R1. pose proof (uint_range want) as R2.
  destruct (Z.ltb_spec (vm_GetWeight m id) want) as [Hlt|Hge]; intros Hop.
  - pose proof (ml_add m id (u_sub want (vm_GetWeight m id))) as Hl. rewrite Hop in Hl. destruct r; [|done].
    destruct Hl as [Hw Ho]. split; [|done]. apply uint_eq. rewrite Hw. unfold u_sub. rewrite wrap_small; lia.
  - pose proof (ml_remove m id (u_sub (vm_GetWeight m id) want)) as Hl. rewrite Hop in Hl. destruct r; [|done].
    destruct Hl as [Hw Ho]. split; [|done]. apply uint_eq. rewrite Hw. unfold u_sub. rewrite wrap_small; lia.
Qed.

(** The first loop: the known validators have their weight and are deleted from the
    map; the others are as they were. *)
Definition known_ok (ids : list NodeID) m weights (res : result unit * M * gmap NodeID u64) : Prop :=
  match res with
  | (Ok _, m', rest) =>
      ∀ id, (id ∈ ids → vm_GetWeight m' id = wanted weights id ∧ rest !! id = None) ∧
            (id ∉ ids → vm_GetWeight m' id = vm_GetWeight m id ∧ rest !! id = weights !! id)
  | (Err _, m', _) =>
      ∀ id, vm_GetWeight m' id = vm_GetWeight m id ∨ id ∈ ids ∧ vm_GetWeight m' id = wanted weights id
  end.

Lemma known_cons x ids m m1 weights res :
  x ∉ ids → vm_GetWeight m1 x = wanted weights x → (∀ id, id ≠ x → vm_GetWeight m1 id = vm_GetWeight m id) →
  known_ok ids m1 (delete x weights) res → known_ok (x :: ids) m weights res.
Proof.
  intros Hx Hm1 Hother. destruct res as [[[[]|er] m'] rest]; intros Hk id; specialize (Hk id); cbn in *.
  - destruct Hk as [Hin Hout]. split.
    + intros [->|Hid]%elem_of_cons.
      { destruct (Hout Hx) as [-> ->]. by rewrite Hm1, lookup_delete_eq. }
      destruct (Hin Hid) as [-> ->]. unfold wanted. by rewrite lookup_delete_ne by (intros ?; subst; done).
    + intros [Hne Hid]%not_elem_of_cons. destruct (Hout Hid) as [-> ->]. by rewrite Hother, lookup_delete_ne.
  - destruct (decide (id = x)) as [->|Hne].
    { destruct Hk as [->|[? _]]; [right; split; [by left|done]|done]. }
    rewrite <-Hother by done. destruct Hk as [?|[? ->]]; [by left|right; split; [by right|]].
    unfold wanted. by rewrite lookup_delete_ne.
Qed.

Lemma reconcile_known_ok ids m weights : NoDup ids → known_ok ids m weights (reconcile_known ids m weights).
Proof.
  revert m weights. induction ids as [|x ids IH]; intros m weights Hnd; cbn [reconcile_known].
  { intros id. split; [by intros ?%elem_of_nil|done]. }
  apply NoDup_cons in Hnd as [Hx Hnd]. fold (wanted weights x).
  destruct (Z.eqb_spec (wanted weights x) (vm_GetWeight m x)) as [He|Hne].
  { apply uint_eq in He. by apply (known_cons x ids m m); [| | |apply IH]. }
  destruct (if (_ <? _)%Z then _ else _) as [r m1] eqn:Hop. apply adjust_weight in Hop. destruct r as [[]|er].
  - destruct Hop. by apply (known_cons x ids m m1); [| | |apply IH].
  - subst m1. intros id. by left.
Qed.

(** The second loop, over nodes without weight. *)
Lemma add_stakers_ok news m :
  NoDup news.*1 → (∀ id, id ∈ news.*1 → vm_GetWeight m id = u_zero) →
  match add_stakers news m with
  | (Ok _, m') =>
      (∀ id w, (id, w) ∈ news → vm_GetWeight m' id = w) ∧ (∀ id, id ∉ news.*1 → vm_GetWeight m' id = vm_GetWeight m id)
  | (Err _, m') => ∀ id, vm_GetWeight m' id = vm_GetWeight m id ∨ (id, vm_GetWeight m' id) ∈ news
  end.
Proof.
  revert m. induction news as [|[x w] news IH]; intros m Hnd Hz; cbn [add_stakers].
  { split; [by intros ? ? ?%elem_of_nil|done]. }
  cbn in Hnd. apply NoDup_cons in Hnd as [Hx Hnd].
  assert (∀ m1, vm_GetWeight m1 x = w → (∀ id, id ≠ x → vm_GetWeight m1 id = vm_GetWeight m id) →
    match add_stakers news m1 with
    | (Ok _, m') =>
        (∀ id w', (id, w') ∈ (x, w) :: news → vm_GetWeight m' id = w') ∧
        (∀ id, id ∉ ((x, w) :: news).*1 → vm_GetWeight m' id = vm_GetWeight m id)
    | (Err _, m') => ∀ id, vm_GetWeight m' id = vm_GetWeight m id ∨ (id, vm_GetWeight m' id) ∈ (x, w) :: news
    end) as Hrest.
  { intros m1 Hm1 Hother. specialize (IH m1 Hnd).
    destruct (add_stakers news m1) as [[[]|er] m'].
    - destruct IH as [Hin Hout].
      { intros id Hid. rewrite Hother by (by intros ->). apply Hz. by right. }
      split; [intros id w' [[= -> ->]|?]%elem_of_cons; [by rewrite Hout|by apply Hin]|].
      intros id [Hne Hid]%not_elem_of_cons. rewrite Hout by done. by apply Hother.
    - intros id. destruct IH with (id := id) as [->|?]; [| |by right; right].
      { intros id' Hid. rewrite Hother by (by intros ->). apply Hz. by right. }
      destruct (decide (id = x)) as [->|]; [right; rewrite Hm1; by left|left; by apply Hother]. }
  destruct (Z.eqb_spec w 0) as [He|Hne].
  { apply Hrest; [|done]. rewrite Hz by by left. by apply uint_eq. }
  pose proof (ml_staker m x w) as Hs. destruct (vm_AddStaker m x w) as [[[]|er] m1]; cbn in Hs.
  - destruct Hs as [Hw Ho]. apply Hrest; [by apply uint_eq|done].
  - subst m1. intros id. by left.
Qed.

Lemma reconcileValidators_ok order m weights :
  (∀ ws, order ws ≡ₚ map_to_list ws) →
  match reconcileValidators order m weights with
  | (Ok _, m', _) => ∀ id, vm_GetWeight m' id = wanted weights id
  | (Err _, m', _) => ∀ id, vm_GetWeight m' id = vm_GetWeight m id ∨ vm_GetWeight m' id = wanted weights id
  end.
Proof.
  intros Hord. unfold reconcileValidators. pose proof (reconcile_known_ok (vm_GetValidatorIDs m) m weights (ml_ids m)) as Hk.
  destruct (reconcile_known _ m weights) as [[[[]|er] m1] rest]; cbn in Hk; cycle 1.
  { intros id. destruct (Hk id) as [?|[_ ?]]; auto. }
  assert (∀ id w, (id, w) ∈ order rest ↔ rest !! id = Some w) as Hin by (intros id w; by rewrite Hord, elem_of_map_to_list).
  assert (∀ id, id ∈ (order rest).*1 → id ∉ vm_GetValidatorIDs m ∧ is_Some (rest !! id)) as Hnew.
  { intros id ([id' w] & -> & Hr%Hin)%list_elem_of_fmap. split; [|by eexists]. intros Hid.
    destruct (Hk id') as [[_ Hnone] _]; [done|]. cbn in *. congruence. }
  pose proof (add_stakers_ok (order rest) m1) as Ha. destruct (add_stakers (order rest) m1) as [[[]|er] m'].
  - destruct Ha as [Hset Hkeep].
    { rewrite Hord. apply NoDup_fst_map_to_list. }
    { intros id [Hid _]%Hnew. destruct (Hk id) as [_ [-> _]]; [done|]. by apply ml_zero. }
    intros id. destruct (rest !! id) as [w|] eqn:Hr.
    { rewrite (Hset id w) by by apply Hin. destruct (Hk id) as [Hi Ho].
      destruct (decide (id ∈ vm_GetValidatorIDs m)) as [Hid|Hid]; [destruct (Hi Hid); congruence|].
      destruct (Ho Hid) as [_ He]. unfold wanted. rewrite <-He. by rewrite Hr. }
    rewrite Hkeep by (by intros [_ [??]]%Hnew; congruence). destruct (Hk id) as [Hi Ho].
    destruct (decide (id ∈ vm_GetValidatorIDs m)) as [Hid|Hid]; [by destruct (Hi Hid)|].
    destruct (Ho Hid) as [-> He]. unfold wanted. rewrite <-He, Hr. by apply ml_zero.
  - intros id. destruct (Ha ltac:(rewrite Hord; apply NoDup_fst_map_to_list)) with (id := id) as [->|Hr%Hin].
    { intros id' [Hid _]%Hnew. destruct (Hk id') as [_ [-> _]]; [done|]. by apply ml_zero. }
    + destruct (Hk id) as [Hi Ho]. destruct (decide (id ∈ vm_GetValidatorIDs m)) as [Hid|Hid]; [right; by apply Hi|left; by apply Ho].
    + right. destruct (Hk id) as [Hi Ho]. destruct (decide (id ∈ vm_GetValidatorIDs m)) as [Hid|Hid]; [destruct (Hi Hid); congruence|].
      destruct (Ho Hid) as [_ He]. unfold wanted. by rewrite <-He, Hr.
Qed.
End reconcile.

(** What is fetched for a node: the sum of its entries, wrapped. *)
Definition total_weight (vs : list (NodeID * u64)) (id : NodeID) : Z :=
  foldr (λ '(id', w) z, (if decide (id' = id) then uval w else 0) + z)%Z 0%Z vs.

Lemma fetchWeights_total vs :
  ∃ ws, fetchWeights (Ok vs) = Ok ws ∧ ∀ id, wanted ws id = wrap (total_weight vs id).
Proof.
  eexists. split; [reflexivity|]. intros id.
  set (f := λ (ws : gmap NodeID u64) '(id, w), <[id:=u_add (default u_zero (ws !! id)) w]> ws).
  assert (∀ ws, wanted (foldl f ws vs) id = wrap (wanted ws id + total_weight vs id)) as Hf.
  2: { etrans; [apply (Hf ∅)|]. by f_equal. }
  induction vs as [|[x w] vs IH]; intros ws; cbn.
  { by rewrite Z.add_0_r, wrap_uval. }
  fold (total_weight vs id). rewrite IH. apply uint_eq. rewrite !uval_wrap. unfold wanted, f.
  destruct (decide (x = id)) as [->|Hne].
  - rewrite lookup_insert_eq. cbn. unfold u_add. rewrite uval_wrap, Zplus_mod_idemp_l. f_equal. lia.
  - by rewrite lookup_insert_ne.
Qed.

(** ** Connected peers *)

(** A peer is connected when the last thing heard of it is that it came; the channel
    of new peers stays within its capacity. *)
Lemma handler_connected (evs : list (NodeID * bool)) id :
  let h := foldl conn_step newHandler evs in
  isConnected h id = default false (snd <$> last (filter (λ ev, ev.1 = id) evs)) ∧ length (h_connectedCh h) ≤ 64.
Proof.
  induction evs as [|[x up] evs [IH Hl]] using rev_ind; [by split; [|cbn; lia]|]. cbn zeta in *.
  rewrite foldl_app, filter_app. cbn [foldl]. set (h := foldl conn_step newHandler evs) in *. unfold conn_step. cbn [fst snd].
  split; cycle 1.
  { destruct up; [|done]. unfold Connected. cbn [h_connectedCh]. destruct (Nat.ltb_spec (length (h_connectedCh h)) 64); [rewrite length_app; cbn|]; lia. }
  rewrite filter_cons, filter_nil. cbn [fst]. unfold isConnected in *. destruct (decide (x = id)) as [->|Hne].
  - rewrite last_snoc. cbn. destruct up; cbn; [apply bool_decide_true; set_solver|apply bool_decide_false; set_solver].
  - rewrite app_nil_r, <-IH. destruct up; cbn; apply bool_decide_ext; set_solver.
Qed.

(** ** What [Dial] leaves *)

Lemma connected_fold h h' evs :
  h_connected h = h_connected h' → h_connected (foldl conn_step h evs) = h_connected (foldl conn_step h' evs).
Proof.
  revert h h'. induction evs as [|[x []] evs IH]; intros h h' He; cbn [foldl]; [done|apply IH..]; cbn; by rewrite He.
Qed.

(** A peer that is connected, or waits in the channel, has come. *)
Lemma came_before evs :
  let h := foldl conn_step newHandler evs in
  (0 < numConnected h ∨ h_connectedCh h ≠ []) → ∃ id, (id, true) ∈ evs.
Proof.
  cbn zeta. induction evs as [|[x up] evs IH] using rev_ind; cbn; [by unfold numConnected; cbn; rewrite size_empty; intros [?|?]; [lia|]|].
  rewrite foldl_app. cbn [foldl]. unfold conn_step at 1 3. cbn [fst snd]. intros Hh. destruct up.
  { exists x. apply elem_of_app. right. by left. }
  destruct IH as [id Hid]; [|exists id; apply elem_of_app; by left].
  destruct Hh as [Hh|Hh]; [left|by right]. unfold numConnected in *. cbn in Hh.
  enough (size (h_connected (foldl conn_step newHandler evs) ∖ {[x]}) ≤ size (h_connected (foldl conn_step newHandler evs))) by lia.
  apply subseteq_size. set_solver.
Qed.

Lemma waitForPeer_ok conns conns' w :
  (w = w_connected → h_connectedCh (foldl conn_step newHandler (conns ++ conns')) ≠ []) →
  match waitForPeer (foldl conn_step newHandler conns) (foldl conn_step (foldl conn_step newHandler conns) conns') w with
  | (Ok _, h) =>
      (∃ id, (id, true) ∈ conns ++ conns') ∧ h_connected h = h_connected (foldl conn_step newHandler (conns ++ conns'))
  | _ => True
  end.
Proof.
  intros Hw. rewrite <-foldl_app. unfold waitForPeer. destruct (Nat.ltb_spec 0 (numConnected (foldl conn_step newHandler conns))).
  { split; [|done]. destruct (came_before conns) as [id Hid]; [by left|]. exists id. apply elem_of_app. by left. }
  destruct w; try done. split; [|done]. apply came_before. right. by apply Hw.
Qed.

(** Events that only use the network. *)
Definition uses_network {A} (ev : net_event A) : Prop :=
  match ev with ev_Dispatch | ev_ManuallyTrack _ _ => True | _ => False end.

Section dial_proof.
Context {M A Msg T F Cert : Type} `{ManagerLaws M, PeerTracker T F}.
Context (order : gmap NodeID u64 → list (NodeID * u64)).
Context (Hord : ∀ ws, order ws ≡ₚ map_to_list ws).

(** The weight a validator has is that of one of the lists. *)
Definition weights_from (lists : list (list (NodeID * u64))) (m : M) : Prop :=
  ∀ id, ∃ vs, vs ∈ lists ∧ vm_GetWeight m id = wrap (total_weight vs id).

Lemma refresh_from lists m fetched (peers : result (list (PeerInfo A))) :
  weights_from lists m →
  weights_from (lists ++ match fetched with Ok vs => [vs] | Err _ => [] end) (refresh order m fetched peers).1.1.
Proof.
  intros Hw id. destruct (Hw id) as (vs0 & Hin0 & Hv0). unfold refresh. destruct fetched as [vs|er]; [|by exists vs0; rewrite app_nil_r].
  destruct (fetchWeights_total vs) as (ws & -> & Hws).
  pose proof (reconcileValidators_ok order m ws Hord) as Hr. destruct (reconcileValidators order m ws) as [[[[]|er] m'] rest]; cbn.
  - exists vs. split; [set_solver|]. by rewrite Hr, Hws.
  - destruct (Hr id) as [-> | ->]; [exists vs0; set_solver|]. exists vs. split; [set_solver|]. by rewrite Hws.
Qed.

(** What the ticks of a loop fetched. *)
Definition fetched_lists (ticks : list (option (result (list (NodeID * u64)) * result (list (PeerInfo A))))) : list (list (NodeID * u64)) :=
  omap (λ t, match t with Some (Ok vs, _) => Some vs | _ => None end) ticks.

Lemma refreshLoop_from lists (n : Network M Msg T) ticks :
  weights_from lists (n_vdrs n) →
  let '(n', evs, _) := refreshLoop order n ticks in
  weights_from (lists ++ fetched_lists ticks) (n_vdrs n') ∧ Forall uses_network evs ∧
  n_sent n' = n_sent n ∧ n_reqID n' = n_reqID n ∧ n_handler n' = n_handler n.
Proof.
  revert lists n. induction ticks as [|[[fetched peers]|] ticks IH]; intros lists n Hw; cbn [refreshLoop].
  { cbn. by rewrite app_nil_r. }
  - pose proof (refresh_from lists _ fetched peers Hw) as Hr.
    destruct (refresh order (n_vdrs n) fetched peers) as [[vdrs tracked] k]. cbn in Hr.
    specialize (IH _ (MkNetwork (n_chainID n) (n_creator n) vdrs (n_handler n) (n_tracker n) (n_reqID n) (n_done n) (n_sent n)) Hr).
    destruct (refreshLoop order _ ticks) as [[n' evs] stopped]. destruct IH as (Hw' & Hev & ?). split_and!; [|apply Forall_app_2; [|done]|tauto..].
    + intros id. destruct (Hw' id) as (vs & Hin & ?). exists vs. split; [|done]. unfold fetched_lists. cbn.
      destruct fetched; cbn; set_solver.
    + apply Forall_fmap, Forall_true. done.
  - split_and!; [|by constructor|done..]. intros id. destruct (Hw id) as (vs & ? & ?). exists vs. set_solver.
Qed.
End dial_proof.

(** Request IDs are distinct until the counter has gone round. *)
Lemma request_ids {M Msg T : Type} (n : Network M Msg T) k :
  uval (n_reqID (Nat.iter k (λ n, (NextRequestID n).2) n)) = ((n_reqID n + Z.of_nat k) mod 2 ^ 32)%Z.
Proof.
  induction k as [|k IH].
  { cbn. rewrite Z.add_0_r. pose proof (uint_range (n_reqID n)). by rewrite Z.mod_small by lia. }
  rewrite Nat.iter_succ. set (x := Nat.iter k _ n) in *. cbn [NextRequestID snd n_reqID]. unfold u_add.
  rewrite !uval_wrap, IH, (Z.mod_small 1), Zplus_mod_idemp_l by lia. f_equal. lia.
Qed.
