(* ===== verification/NetClient.v ===== *)
(** * NetClient: synchronous requests over the network

    Models [follower/sync/netclient.go]: the client that spreads application
    requests over the connected peers.  Each operation that runs under a lock, or on
    an atomic, is a function on the shared state; the concurrent calls of
    [SendSyncedAppRequestAny] are threads that take these steps in any order
    ([nstep]), with the channel of a request held by its call.  The clock, the random
    offset and the list of connected peers are arguments; the message creator may
    fail.  The peer tracker's statistics are left out. *)

From S2P Require Import Prelude Schema ConsensusState.

(** ** The shared state *)

Record appReply := MkReply { ap_bytes : bytes; ap_failed : bool }.

(** [nc_pending] maps a request ID to the call whose channel waits for it. *)
Record NetClient := MkNetClient {
  nc_reqID : u32;
  nc_sem : nat; (* tokens in the channel *)
  nc_inflight : nat; (* its capacity *)
  nc_perPeer : Z;
  nc_timeouts : u64;
  nc_pending : gmap u32 nat;
  nc_outstanding : gmap NodeID Z;
  nc_badUntil : gmap NodeID Z
}.
Implicit Types c : NetClient.

(** Durations are in nanoseconds. *)
Definition badPeerCooldown : Z := (180 * second)%Z.

Definition NewNetClient (inflight perPeer : Z) : NetClient :=
  MkNetClient u_zero 0 (Z.to_nat (if (inflight <=? 0)%Z then 320 else inflight))
    (if (perPeer <=? 0)%Z then 6 else perPeer) u_zero ∅ ∅ ∅.

Definition set_outstanding c (o : gmap NodeID Z) : NetClient :=
  MkNetClient (nc_reqID c) (nc_sem c) (nc_inflight c) (nc_perPeer c) (nc_timeouts c) (nc_pending c) o (nc_badUntil c).
Definition set_pending c (p : gmap u32 nat) : NetClient :=
  MkNetClient (nc_reqID c) (nc_sem c) (nc_inflight c) (nc_perPeer c) (nc_timeouts c) p (nc_outstanding c) (nc_badUntil c).
Definition set_sem c (n : nat) : NetClient :=
  MkNetClient (nc_reqID c) n (nc_inflight c) (nc_perPeer c) (nc_timeouts c) (nc_pending c) (nc_outstanding c) (nc_badUntil c).

(** [c.outstanding[id]] *)
Definition outstanding_of c (id : NodeID) : Z := default 0%Z (nc_outstanding c !! id).

(** A Go map of times: the zero time is before any other. *)
Definition bad_at c (now : Z) (id : NodeID) : bool :=
  match nc_badUntil c !! id with Some t => (now <? t)%Z | None => false end.

(** The loop of [pickPeer] over the rotated peers. *)
Fixpoint pick_loop c (now : Z) (peers : list NodeID) (fallback : option NodeID) : option NodeID :=
  match peers with
  | [] => fallback
  | id :: rest =>
      if (nc_perPeer c <=? outstanding_of c id)%Z then pick_loop c now rest fallback
      else if bad_at c now id then
        pick_loop c now rest (match fallback with None => Some id | Some _ => fallback end)
      else Some id
  end.

(** [peers[(off+i)%len(peers)]] for every [i] *)
Definition rotate_peers (off : nat) (peers : list NodeID) : list NodeID :=
  omap (λ i, peers !! ((off + i) mod length peers)) (seq 0 (length peers)).

Definition pickPeer c (now : Z) (off : nat) (peers : list NodeID) : option NodeID * NetClient :=
  match pick_loop c now (rotate_peers off peers) None with
  | None => (None, c)
  | Some id => (Some id, set_outstanding c (<[id:=(outstanding_of c id + 1)%Z]> (nc_outstanding c)))
  end.

Definition releasePeer c (id : NodeID) : NetClient :=
  if (outstanding_of c id <=? 1)%Z then set_outstanding c (delete id (nc_outstanding c))
  else set_outstanding c (<[id:=(outstanding_of c id - 1)%Z]> (nc_outstanding c)).

(** [OnAppResponse]: the call to be woken, if one waits. *)
Definition OnAppResponse c (requestID : u32) : option nat * NetClient :=
  (nc_pending c !! requestID, set_pending c (delete requestID (nc_pending c))).

(** [c.reqID.Add(1) * 2] and the channel put in [pending]. *)
Definition new_request c (tid : nat) : u32 * NetClient :=
  let n := u_add (nc_reqID c) (u32_lit 1) in
  let id : u32 := wrap (n * 2) in
  (id, MkNetClient n (nc_sem c) (nc_inflight c) (nc_perPeer c) (nc_timeouts c) (<[id:=tid]> (nc_pending c))
         (nc_outstanding c) (nc_badUntil c)).

Definition drop_request c (id : u32) : NetClient := set_pending c (delete id (nc_pending c)).

Definition count_timeout c : NetClient :=
  MkNetClient (nc_reqID c) (nc_sem c) (nc_inflight c) (nc_perPeer c) (u_add (nc_timeouts c) (u64_lit 1)) (nc_pending c)
    (nc_outstanding c) (nc_badUntil c).

Definition errNoPeer : error := ErrMsg "sync: no responsive peer available".
Definition errTimeout : error := ErrMsg "sync: request timed out".
Definition errAppRequestFailed : error := ErrMsg "sync: peer answered with AppError".

(** The end of [SendSyncedAppRequestAny]: a timeout or an application error
    keeps the peer out of rotation. *)
Definition mark_peer c (now : Z) (node : NodeID) (r : result bytes) : NetClient :=
  match r with
  | Err er =>
      if bool_decide (er = errTimeout) || bool_decide (er = errAppRequestFailed) then
        MkNetClient (nc_reqID c) (nc_sem c) (nc_inflight c) (nc_perPeer c) (nc_timeouts c) (nc_pending c) (nc_outstanding c)
          (<[node:=(now + badPeerCooldown)%Z]> (nc_badUntil c))
      else c
  | Ok _ => c
  end.

(** What a call answers to a reply. *)
Definition reply_result (r : appReply) : result bytes :=
  if ap_failed r then Err errAppRequestFailed else Ok (ap_bytes r).

(** ** Calls as threads *)

(** Where a call of [SendSyncedAppRequestAny] is: it has its peer; it holds a
    slot of the semaphore; it waits on its channel, which may have the reply; and
    it unwinds with its result: the request is dropped, the slot freed, the peer
    marked and then released. *)
Inductive stage :=
| Picked
| Acquired
| Waiting (id : u32) (ch : option appReply)
| Unwind (id : u32) (ch : option appReply) (r : result bytes)
| Unslot (r : result bytes)
| Unmark (r : result bytes)
| Unpick (r : result bytes)
| Done (r : result bytes).

Record call := MkCall { cl_node : NodeID; cl_stage : stage }.

Abbreviation net_state := (NetClient * gmap nat call)%type.

(** A reply is put in the channel of the call that asked, whether it still waits or
    unwinds. *)
Definition deliver (reply : appReply) (cl : call) : call :=
  match cl_stage cl with
  | Waiting id _ => MkCall (cl_node cl) (Waiting id (Some reply))
  | Unwind id _ r => MkCall (cl_node cl) (Unwind id (Some reply) r)
  | _ => cl
  end.

Inductive nstep : net_state → nat → net_state → Prop :=
| ns_pick c c' ts tid now off peers node :
    ts !! tid = None → pickPeer c now off peers = (Some node, c') →
    nstep (c, ts) 0 (c', <[tid:=MkCall node Picked]> ts)
| ns_nopeer c c' ts tid now off peers :
    ts !! tid = None → pickPeer c now off peers = (None, c') →
    nstep (c, ts) 0 (c', <[tid:=MkCall arr_zero (Done (Err errNoPeer))]> ts)
| ns_acquire c ts tid node :
    ts !! tid = Some (MkCall node Picked) → nc_sem c < nc_inflight c →
    nstep (c, ts) 0 (set_sem c (S (nc_sem c)), <[tid:=MkCall node Acquired]> ts)
| ns_gaveup c ts tid node er :
    ts !! tid = Some (MkCall node Picked) → nstep (c, ts) 0 (c, <[tid:=MkCall node (Unmark (Err er))]> ts)
| ns_request c c' ts tid node id :
    ts !! tid = Some (MkCall node Acquired) → new_request c tid = (id, c') →
    nstep (c, ts) 1 (c', <[tid:=MkCall node (Waiting id None)]> ts)
| ns_response c c' ts requestID reply tid :
    OnAppResponse c requestID = (Some tid, c') → nstep (c, ts) 0 (c', alter (deliver reply) tid ts)
| ns_unasked c c' ts requestID :
    OnAppResponse c requestID = (None, c') → nstep (c, ts) 0 (c', ts)
| ns_receive c ts tid node id reply :
    ts !! tid = Some (MkCall node (Waiting id (Some reply))) →
    nstep (c, ts) 0 (c, <[tid:=MkCall node (Unwind id None (reply_result reply))]> ts)
| ns_timeout c ts tid node id ch :
    ts !! tid = Some (MkCall node (Waiting id ch)) →
    nstep (c, ts) 0 (count_timeout c, <[tid:=MkCall node (Unwind id ch (Err errTimeout))]> ts)
| ns_failed c ts tid node id ch er :
    ts !! tid = Some (MkCall node (Waiting id ch)) →
    nstep (c, ts) 0 (c, <[tid:=MkCall node (Unwind id ch (Err er))]> ts)
| ns_unwind c ts tid node id ch r :
    ts !! tid = Some (MkCall node (Unwind id ch r)) →
    nstep (c, ts) 0 (drop_request c id, <[tid:=MkCall node (Unslot r)]> ts)
| ns_unslot c ts tid node r :
    ts !! tid = Some (MkCall node (Unslot r)) →
    nstep (c, ts) 0 (set_sem c (pred (nc_sem c)), <[tid:=MkCall node (Unmark r)]> ts)
| ns_unmark c ts tid node r now :
    ts !! tid = Some (MkCall node (Unmark r)) →
    nstep (c, ts) 0 (mark_peer c now node r, <[tid:=MkCall node (Unpick r)]> ts)
| ns_unpick c ts tid node r :
    ts !! tid = Some (MkCall node (Unpick r)) →
    nstep (c, ts) 0 (releasePeer c node, <[tid:=MkCall node (Done r)]> ts).

(** Runs of a new client; [n] counts the requests made. *)
Inductive nreach (inflight perPeer : Z) : net_state → nat → Prop :=
| nr_new : nreach inflight perPeer (NewNetClient inflight perPeer, ∅) 0
| nr_step s n s' k : nreach inflight perPeer s k → nstep s n s' → nreach inflight perPeer s' (n + k).

(** * The request client under concurrency

    The invariant of the client and its calls ([net_inv]): the counters count what
    is in flight, within their bounds, and a response goes to the call that asked
    for it; and what [pickPeer] chooses. *)

(** ** Counting calls *)

Definition count (P : call → bool) (ts : gmap nat call) : nat := size (filter (λ kv, P kv.2 = true) ts).

Lemma count_empty P : count P ∅ = 0.
Proof. unfold count. by rewrite map_filter_empty, map_size_empty. Qed.

Lemma count_new P ts tid cl : ts !! tid = None → count P (<[tid:=cl]> ts) = count P ts + (if P cl then 1 else 0).
Proof.
  intros Hn. unfold count. destruct (P cl) eqn:Ep.
  - rewrite map_filter_insert_True by done. rewrite map_size_insert_None; [lia|].
    apply map_lookup_filter_None. by left.
  - rewrite map_filter_insert_False by (cbn; congruence). rewrite delete_id by done. lia.
Qed.

Lemma count_step P ts tid cl cl' :
  ts !! tid = Some cl → count P (<[tid:=cl']> ts) + (if P cl then 1 else 0) = count P ts + (if P cl' then 1 else 0).
Proof.
  intros Hs. rewrite <-(insert_delete_id ts tid cl Hs) at 2. rewrite <-(insert_delete_eq ts).
  rewrite !count_new by apply lookup_delete_eq. lia.
Qed.

Lemma count_same P ts tid cl cl' : ts !! tid = Some cl → P cl' = P cl → count P (<[tid:=cl']> ts) = count P ts.
Proof. intros Hs Hp. pose proof (count_step P ts tid cl cl' Hs). rewrite Hp in *. destruct (P cl); lia. Qed.

(** ** The invariant *)

(** A call that has a peer, and one that has a slot of the semaphore. *)
Definition at_peer (node : NodeID) (cl : call) : bool :=
  bool_decide (cl_node cl = node) && match cl_stage cl with Done _ => false | _ => true end.
Definition has_slot (cl : call) : bool :=
  match cl_stage cl with Acquired | Waiting _ _ | Unwind _ _ _ | Unslot _ => true | _ => false end.
Definition request_of (cl : call) : option u32 :=
  match cl_stage cl with Waiting id _ | Unwind id _ _ => Some id | _ => None end.
Definition channel (cl : call) : option appReply :=
  match cl_stage cl with Waiting _ ch | Unwind _ ch _ => ch | _ => None end.

(** The counters of the peers, the semaphore and the requests. *)
Record peers_inv c (ts : gmap nat call) : Prop := {
  pi_perPeer : (0 < nc_perPeer c)%Z;
  pi_count node : outstanding_of c node = Z.of_nat (count (at_peer node) ts);
  pi_max node : (outstanding_of c node ≤ nc_perPeer c)%Z
}.

Record sem_inv c (ts : gmap nat call) : Prop := {
  si_count : nc_sem c = count has_slot ts;
  si_max : nc_sem c ≤ nc_inflight c
}.

Record req_inv c (ts : gmap nat call) (k : nat) : Prop := {
  ri_counter : uval (nc_reqID c) = Z.of_nat k;
  ri_even tid cl id : ts !! tid = Some cl → request_of cl = Some id → ∃ m, (1 ≤ m ≤ k)%nat ∧ uval id = (2 * Z.of_nat m)%Z;
  ri_distinct tid tid' cl cl' id : ts !! tid = Some cl → ts !! tid' = Some cl' →
    request_of cl = Some id → request_of cl' = Some id → tid = tid';
  ri_pending id tid : nc_pending c !! id = Some tid → ∃ cl, ts !! tid = Some cl ∧ request_of cl = Some id ∧ channel cl = None;
  ri_waiting id tid node : ts !! tid = Some (MkCall node (Waiting id None)) → nc_pending c !! id = Some tid
}.

Definition net_inv (s : net_state) (k : nat) : Prop := peers_inv s.1 s.2 ∧ sem_inv s.1 s.2 ∧ req_inv s.1 s.2 k.

Lemma new_inv inflight perPeer : net_inv (NewNetClient inflight perPeer, ∅) 0.
Proof.
  split; [|split]; split; cbn [fst snd NewNetClient nc_perPeer nc_sem nc_inflight nc_reqID nc_pending];
    rewrite ?count_empty; try done; try lia.
  - destruct (Z.leb_spec perPeer 0); lia.
  - intros node. unfold outstanding_of, NewNetClient. cbn [nc_outstanding]. rewrite lookup_empty. cbn. destruct (Z.leb_spec perPeer 0); lia.
Qed.

(** ** Choosing a peer *)

Lemma pick_loop_spec c now peers fb :
  match pick_loop c now peers fb with
  | None => fb = None ∧ ∀ id, id ∈ peers → (nc_perPeer c ≤ outstanding_of c id)%Z
  | Some id =>
      (id ∈ peers ∧ (outstanding_of c id < nc_perPeer c)%Z ∨ fb = Some id) ∧
      ((bad_at c now id = true ∨ fb = Some id) ∧
         (∀ id', id' ∈ peers → (outstanding_of c id' < nc_perPeer c)%Z → bad_at c now id' = true) ∨
       id ∈ peers ∧ bad_at c now id = false)
  end.
Proof.
  revert fb. induction peers as [|id peers IH]; intros fb; cbn [pick_loop].
  { destruct fb; split; try done; [by right| |by intros id ?%elem_of_nil].
    left. split; [by right|]. by intros id ?%elem_of_nil. }
  destruct (Z.leb_spec (nc_perPeer c) (outstanding_of c id)) as [Hfull|Hfree].
  { specialize (IH fb). destruct (pick_loop c now peers fb) as [p|]; cycle 1.
    { destruct IH as [? Hall]. split; [done|]. by intros id' [->|?]%elem_of_cons; [|apply Hall]. }
    destruct IH as [Hin Hb]. split; [by destruct Hin as [[? ?]|?]; [left; split; [right|]|right]|].
    destruct Hb as [[Hf Hall]|[? ?]]; [left; split; [done|]|right; split; [by right|done]].
    intros id' [->|?]%elem_of_cons; [lia|by apply Hall]. }
  destruct (bad_at c now id) eqn:Ebad.
  - set (fb' := match fb with None => Some id | Some _ => fb end). specialize (IH fb').
    assert (∀ p, fb' = Some p → p = id ∧ fb = None ∨ fb = Some p) as Hfb by (intros p; unfold fb'; destruct fb; naive_solver).
    destruct (pick_loop c now peers fb') as [p|]; [|by unfold fb' in IH; destruct fb, IH].
    destruct IH as [Hin Hb]. split.
    + destruct Hin as [[? ?]|[[-> _]|?]%Hfb]; [left; split; [by right|done]|left; split; [by left|done]|by right].
    + destruct Hb as [[Hf Hall]|[? ?]]; [left|right; split; [by right|done]].
      split; [destruct Hf as [?|[[-> _]|?]%Hfb]; auto|]. intros id' [->|?]%elem_of_cons; [done|by apply Hall].
  - split; [left; split; [by left|done]|]. right. split; [by left|done].
Qed.

Lemma rotate_peers_perm off peers : rotate_peers off peers ≡ₚ peers.
Proof.
  unfold rotate_peers. destruct (decide (peers = [])) as [->|Hne]; [done|].
  assert (0 < length peers) as Hlen by (destruct peers; [done|cbn; lia]).
  set (n := length peers) in *.
  assert ((λ i, (off + i) mod n) <$> seq 0 n ≡ₚ seq 0 n) as Hp.
  { apply submseteq_length_Permutation; [|by rewrite length_fmap].
    apply NoDup_submseteq.
    - apply NoDup_fmap_2_strong; [|apply NoDup_seq]. intros i j [_ Hi]%elem_of_seq [_ Hj]%elem_of_seq He.
      pose proof (Nat.div_mod_eq (off + i) n). pose proof (Nat.div_mod_eq (off + j) n). cbn in He.
      pose proof (Nat.lt_trichotomy ((off + i) / n) ((off + j) / n)). nia.
    - intros x (i & -> & _)%list_elem_of_fmap. apply elem_of_seq. pose proof (Nat.mod_upper_bound (off + i) n ltac:(lia)). lia. }
  transitivity (omap (λ i, peers !! i) ((λ i, (off + i) mod n) <$> seq 0 n)).
  { clear Hp. induction (seq 0 n) as [|i l IH]; [done|]. cbn. destruct (peers !! _); [by f_equiv|done]. }
  rewrite Hp. unfold n. clear. apply Permutation_refl'. induction peers as [|p peers IH]; [done|].
  cbn [length seq omap list_omap]. rewrite <-seq_shift. cbn. f_equal. rewrite <-IH at 2. clear IH.
  induction (seq 0 (length peers)) as [|i l IH]; [done|]. cbn. destruct (peers !! i); [by f_equal|done].
Qed.

(** ** Preservation *)

Lemma peers_same c c' ts tid cl cl' :
  peers_inv c ts → nc_outstanding c' = nc_outstanding c → nc_perPeer c' = nc_perPeer c →
  ts !! tid = Some cl → (∀ node, at_peer node cl' = at_peer node cl) → peers_inv c' (<[tid:=cl']> ts).
Proof.
  intros [H1 H2 H3] Ho Hp Hs Ha. unfold outstanding_of in *.
  split; [by rewrite Hp| |]; intros node; unfold outstanding_of; rewrite Ho; [|by rewrite Hp].
  by rewrite (count_same _ ts tid cl cl').
Qed.

Lemma sem_same c c' ts tid cl cl' :
  sem_inv c ts → nc_sem c' = nc_sem c → nc_inflight c' = nc_inflight c →
  ts !! tid = Some cl → has_slot cl' = has_slot cl → sem_inv c' (<[tid:=cl']> ts).
Proof. intros [H1 H2] Ho Hp Hs Ha. split; rewrite Ho, ?Hp; [|done]. by rewrite (count_same _ ts tid cl cl'). Qed.

Lemma sem_move c c' ts tid cl cl' :
  sem_inv c ts → nc_inflight c' = nc_inflight c → nc_sem c' ≤ nc_inflight c → ts !! tid = Some cl →
  nc_sem c' + (if has_slot cl then 1 else 0) = nc_sem c + (if has_slot cl' then 1 else 0) → sem_inv c' (<[tid:=cl']> ts).
Proof. intros [H1 H2] Hi Hm Hs He. pose proof (count_step has_slot ts tid cl cl' Hs). split; [|by rewrite Hi]. lia. Qed.

(** A call that does not begin to wait, and asks for what it asked before. *)
Lemma req_move c c' ts k tid cl' :
  req_inv c ts k → nc_reqID c' = nc_reqID c → nc_pending c' = nc_pending c →
  request_of cl' = ts !! tid ≫= request_of → (∀ node id, cl' ≠ MkCall node (Waiting id None)) →
  (channel cl' = None ∨ ∃ cl, ts !! tid = Some cl ∧ channel cl' = channel cl) → req_inv c' (<[tid:=cl']> ts) k.
Proof.
  intros [H1 H2 H3 H4 H5] Hr Hp Hq Hw Hc.
  assert (∀ t cl id, <[tid:=cl']> ts !! t = Some cl → request_of cl = Some id →
            ∃ cl0, ts !! t = Some cl0 ∧ request_of cl0 = Some id) as Hold.
  { intros t cl id Hl Hid. destruct (decide (t = tid)) as [->|]; simplify_map_eq; [|by eauto].
    rewrite Hq in Hid. by apply bind_Some in Hid. }
  split; rewrite ?Hr, ?Hp; [done| | | |].
  - intros t cl id Hl Hid. destruct (Hold _ _ _ Hl Hid) as (cl0 & ? & ?). eauto.
  - intros t t' cl cl1 id Hl Hl' Hid Hid'. destruct (Hold _ _ _ Hl Hid) as (? & ? & ?), (Hold _ _ _ Hl' Hid') as (? & ? & ?). eauto.
  - intros id t Hl. destruct (H4 id t Hl) as (cl & Hs & Hid & Hch). destruct (decide (t = tid)) as [->|]; simplify_map_eq; [|by eauto].
    exists cl'. split_and!; [done|by rewrite Hq|]. destruct Hc as [?|(? & ? & ?)]; congruence.
  - intros id t node Hl. destruct (decide (t = tid)) as [->|]; simplify_map_eq; [|by eauto]. by destruct (Hw node id).
Qed.

Lemma req_unwind c ts k tid node id ch r :
  req_inv c ts k → ts !! tid = Some (MkCall node (Unwind id ch r)) →
  req_inv (drop_request c id) (<[tid:=MkCall node (Unslot r)]> ts) k.
Proof.
  intros [H1 H2 H3 H4 H5] Hs. split; cbn; [done| | | |].
  - intros t cl i Hl Hi. destruct (decide (t = tid)) as [->|]; simplify_map_eq; try done; eauto.
  - intros t t' cl cl' i Hl Hl' Hi Hi'. destruct (decide (t = tid)) as [->|], (decide (t' = tid)) as [->|]; simplify_map_eq; try done; eauto.
  - intros i t [Hne Hl]%lookup_delete_Some. destruct (H4 i t Hl) as (cl & Ht & Hi & Hch).
    destruct (decide (t = tid)) as [->|]; simplify_map_eq; [by injection Hi as ->|eauto].
  - intros i t n Hl. destruct (decide (t = tid)) as [->|]; simplify_map_eq.
    apply lookup_delete_Some. split; [|by eauto]. intros ->. by destruct (H3 t tid _ _ i Hl Hs).
Qed.

Lemma req_request c ts k tid node id c' :
  req_inv c ts k → (Z.of_nat (S k) < 2 ^ 31)%Z → ts !! tid = Some (MkCall node Acquired) → new_request c tid = (id, c') →
  req_inv c' (<[tid:=MkCall node (Waiting id None)]> ts) (S k).
Proof.
  intros [H1 H2 H3 H4 H5] Hk Hs [= <- <-].
  assert (uval (u_add (nc_reqID c) (u32_lit 1)) = Z.of_nat (S k)) as Hn.
  { unfold u_add. rewrite wrap_small; rewrite H1; change (uval (u32_lit 1)) with 1%Z; lia. }
  set (id := wrap (u_add (nc_reqID c) (u32_lit 1) * 2)) in *.
  assert (uval id = (2 * Z.of_nat (S k))%Z) as Hid by (unfold id; rewrite wrap_small; lia).
  assert (∀ t cl, ts !! t = Some cl → request_of cl ≠ Some id) as Hfresh.
  { intros t cl Hl Hq. destruct (H2 t cl id Hl Hq) as (m & ? & ?). lia. }
  split; cbn; [done| | | |].
  - intros t cl i Hl Hi. destruct (decide (t = tid)) as [->|]; simplify_map_eq.
    { exists (S k). split; [lia|]. injection Hi as <-. done. }
    destruct (H2 t cl i Hl Hi) as (m & ? & ?). exists m. split; [lia|done].
  - intros t t' cl cl' i Hl Hl' Hi Hi'. destruct (decide (t = tid)) as [->|], (decide (t' = tid)) as [->|]; simplify_map_eq; eauto.
    + injection Hi as <-. by destruct (Hfresh _ _ Hl').
    + injection Hi' as <-. by destruct (Hfresh _ _ Hl).
  - intros i t Hl. apply lookup_insert_Some in Hl as [[<- <-]|[Hne Hl]].
    { eexists. split_and!; [by rewrite lookup_insert_eq|done|done]. }
    destruct (H4 i t Hl) as (cl & Ht & Hi & Hch). destruct (decide (t = tid)) as [->|]; simplify_map_eq; eauto.
  - intros i t n Hl. destruct (decide (t = tid)) as [->|]; simplify_map_eq; [by rewrite ?lookup_insert_eq|].
    rewrite lookup_insert_ne; [by eauto|]. intros <-. by apply (Hfresh t _ Hl).
Qed.

Lemma req_response c ts k requestID reply tid :
  req_inv c ts k → nc_pending c !! requestID = Some tid →
  req_inv (set_pending c (delete requestID (nc_pending c))) (alter (deliver reply) tid ts) k.
Proof.
  intros [H1 H2 H3 H4 H5] Hp. destruct (H4 _ _ Hp) as (cl0 & Hs & Hq & _).
  assert (∀ t cl, alter (deliver reply) tid ts !! t = Some cl → ∃ cl', ts !! t = Some cl' ∧ request_of cl' = request_of cl) as Hold.
  { intros t cl Hl. destruct (decide (t = tid)) as [->|]; [|rewrite lookup_alter_ne in Hl by done; eauto].
    rewrite lookup_alter_eq, Hs in Hl. injection Hl as <-. exists cl0. split; [done|]. by destruct cl0 as [? []]. }
  split; cbn; [done| | | |].
  - intros t cl i (cl' & Hl & He)%Hold Hi. rewrite <-He in Hi. eauto.
  - intros t t' cl cl' i (? & Hl & He)%Hold (? & Hl' & He')%Hold Hi Hi'. rewrite <-He in Hi. rewrite <-He' in Hi'. eauto.
  - intros i t [Hne Hl]%lookup_delete_Some. destruct (H4 i t Hl) as (cl & Ht & Hi & Hch).
    assert (t ≠ tid) by (intros ->; congruence). exists cl. by rewrite lookup_alter_ne.
  - intros i t n Hl. destruct (decide (t = tid)) as [->|].
    { rewrite lookup_alter_eq, Hs in Hl. by destruct cl0 as [? []]. }
    rewrite lookup_alter_ne in Hl by done. apply lookup_delete_Some. split; [|by eauto].
    intros ->. by apply H5 in Hl; simplify_eq.
Qed.

Lemma count_deliver P reply tid ts :
  (∀ cl, P (deliver reply cl) = P cl) → count P (alter (deliver reply) tid ts) = count P ts.
Proof.
  intros HP. destruct (ts !! tid) as [cl|] eqn:E; [|by rewrite alter_id by naive_solver].
  rewrite <-(count_same P ts tid cl (deliver reply cl)) by done. f_equal. apply map_eq. intros t.
  destruct (decide (t = tid)) as [->|]; [by rewrite lookup_alter_eq, E, lookup_insert_eq|].
  by rewrite lookup_alter_ne, lookup_insert_ne.
Qed.

Lemma at_peer_deliver node reply cl : at_peer node (deliver reply cl) = at_peer node cl.
Proof. by destruct cl as [? []]. Qed.
Lemma has_slot_deliver reply cl : has_slot (deliver reply cl) = has_slot cl.
Proof. by destruct cl as [? []]. Qed.

Lemma outstanding_insert c id z node :
  outstanding_of (set_outstanding c (<[id:=z]> (nc_outstanding c))) node = (if decide (id = node) then z else outstanding_of c node).
Proof. unfold outstanding_of. cbn. destruct (decide (id = node)) as [->|]; [by rewrite lookup_insert_eq|by rewrite lookup_insert_ne]. Qed.

Lemma releasePeer_outstanding c id node :
  (0 < outstanding_of c id)%Z →
  outstanding_of (releasePeer c id) node = (outstanding_of c node - if decide (id = node) then 1 else 0)%Z.
Proof.
  intros Hpos. unfold releasePeer. destruct (Z.leb_spec (outstanding_of c id) 1) as [H1|H1].
  - unfold outstanding_of in *. cbn. destruct (decide (id = node)) as [->|]; [rewrite lookup_delete_eq; cbn; lia|].
    rewrite lookup_delete_ne by done. lia.
  - rewrite outstanding_insert. destruct (decide (id = node)) as [->|]; lia.
Qed.

(** What [pickPeer] promises: none only when every peer is saturated, else a peer
    with room, in cooldown only if every peer with room is. *)
Definition pick_spec c (now : Z) (peers : list NodeID) (r : option NodeID) : Prop :=
  match r with
  | None => ∀ id, id ∈ peers → (nc_perPeer c ≤ outstanding_of c id)%Z
  | Some id =>
      id ∈ peers ∧ (outstanding_of c id < nc_perPeer c)%Z ∧
      (bad_at c now id = true → ∀ id', id' ∈ peers → (outstanding_of c id' < nc_perPeer c)%Z → bad_at c now id' = true)
  end.

Lemma pickPeer_spec c now off peers : pick_spec c now peers (pickPeer c now off peers).1.
Proof.
  unfold pickPeer. pose proof (pick_loop_spec c now (rotate_peers off peers) None) as H.
  assert (∀ id, id ∈ rotate_peers off peers ↔ id ∈ peers) as Hin by (intros id; by rewrite (rotate_peers_perm off peers)).
  destruct (pick_loop _ _ _ _) as [id|]; cbn; setoid_rewrite Hin in H; [|by destruct H].
  destruct H as [[[? ?]|?] Hb]; [|done]. split_and!; [done|done|].
  intros Hbad. destruct Hb as [[_ ?]|[_ ?]]; [done|congruence].
Qed.

Lemma pickPeer_client c now off peers node c' :
  pickPeer c now off peers = (Some node, c') →
  c' = set_outstanding c (<[node:=(outstanding_of c node + 1)%Z]> (nc_outstanding c)).
Proof. unfold pickPeer. destruct (pick_loop _ _ _ _); [|done]. by intros [= <- <-]. Qed.

Lemma peers_pick c c' ts tid now off peers node :
  peers_inv c ts → ts !! tid = None → pickPeer c now off peers = (Some node, c') →
  peers_inv c' (<[tid:=MkCall node Picked]> ts).
Proof.
  intros [H1 H2 H3] Hn Hp. pose proof (pickPeer_spec c now off peers) as Hspec. rewrite Hp in Hspec.
  destruct Hspec as (_ & Hroom & _). apply pickPeer_client in Hp as ->.
  split; [done| |]; intros n; rewrite outstanding_insert; cbn [nc_perPeer set_outstanding].
  - rewrite count_new by done. unfold at_peer at 2. cbn. rewrite H2, (H2 n).
    destruct (decide (node = n)) as [->|]; [rewrite bool_decide_true by done|rewrite bool_decide_false by done]; cbn; lia.
  - destruct (decide (node = n)); [lia|done].
Qed.

Lemma peers_none c ts tid node r : peers_inv c ts → ts !! tid = None → peers_inv c (<[tid:=MkCall node (Done r)]> ts).
Proof.
  intros [H1 H2 H3] Hn. split; [done| |done]. intros n. rewrite H2, count_new by done.
  unfold at_peer at 3. rewrite andb_false_r. lia.
Qed.

Lemma peers_release c ts tid node r :
  peers_inv c ts → ts !! tid = Some (MkCall node (Unpick r)) → peers_inv (releasePeer c node) (<[tid:=MkCall node (Done r)]> ts).
Proof.
  intros [H1 H2 H3] Hs.
  assert (∀ n, count (at_peer n) (<[tid:=MkCall node (Done r)]> ts) + (if decide (node = n) then 1 else 0) = count (at_peer n) ts) as Hc.
  { intros n. pose proof (count_step (at_peer n) ts tid _ (MkCall node (Done r)) Hs) as Hc. unfold at_peer at 2 4 in Hc. cbn in Hc.
    rewrite andb_false_r, andb_true_r in Hc. destruct (decide (node = n));
      [rewrite bool_decide_true in Hc by done|rewrite bool_decide_false in Hc by done]; lia. }
  assert (0 < outstanding_of c node)%Z as Hpos.
  { rewrite H2. specialize (Hc node). destruct (decide (node = node)); [lia|done]. }
  assert (nc_perPeer (releasePeer c node) = nc_perPeer c) as Hpp by (unfold releasePeer; by case_match).
  split; [by rewrite Hpp| |]; intros n; rewrite releasePeer_outstanding by done; specialize (Hc n); rewrite ?Hpp, H2.
  - destruct (decide (node = n)); lia.
  - specialize (H3 n). rewrite H2 in H3. destruct (decide (node = n)); lia.
Qed.

Lemma sem_new c c' ts tid cl :
  sem_inv c ts → nc_sem c' = nc_sem c → nc_inflight c' = nc_inflight c → ts !! tid = None → has_slot cl = false →
  sem_inv c' (<[tid:=cl]> ts).
Proof. intros [H1 H2] Hs Hi Hn Hh. split; rewrite Hs, ?Hi; [|done]. rewrite count_new, Hh by done. lia. Qed.

(** A step of a call that keeps its peer, its slot and its request. *)
Lemma inv_move c c' ts k tid cl cl' :
  net_inv (c, ts) k → ts !! tid = Some cl → cl_node cl' = cl_node cl →
  (∀ node, at_peer node cl' = at_peer node cl) → has_slot cl' = has_slot cl → request_of cl' = request_of cl →
  (∀ node id, cl' ≠ MkCall node (Waiting id None)) →
  nc_outstanding c' = nc_outstanding c → nc_perPeer c' = nc_perPeer c → nc_sem c' = nc_sem c →
  nc_inflight c' = nc_inflight c → nc_reqID c' = nc_reqID c → nc_pending c' = nc_pending c →
  channel cl' = None ∨ channel cl' = channel cl → net_inv (c', <[tid:=cl']> ts) k.
Proof.
  intros (Hp & Hs & Hr) Ht Hn Ha Hh Hq Hw ?????? Hc. split_and!; cbn in *.
  - by eapply peers_same.
  - by eapply sem_same.
  - eapply req_move; [done|done|done|by rewrite Ht|done|]. destruct Hc as [?|?]; [by left|right; eauto].
Qed.

Lemma mark_peer_keeps c now node r :
  nc_outstanding (mark_peer c now node r) = nc_outstanding c ∧ nc_perPeer (mark_peer c now node r) = nc_perPeer c ∧
  nc_sem (mark_peer c now node r) = nc_sem c ∧ nc_inflight (mark_peer c now node r) = nc_inflight c ∧
  nc_reqID (mark_peer c now node r) = nc_reqID c ∧ nc_pending (mark_peer c now node r) = nc_pending c.
Proof. unfold mark_peer. repeat case_match; done. Qed.

Lemma releasePeer_keeps c node :
  nc_sem (releasePeer c node) = nc_sem c ∧ nc_inflight (releasePeer c node) = nc_inflight c ∧
  nc_reqID (releasePeer c node) = nc_reqID c ∧ nc_pending (releasePeer c node) = nc_pending c.
Proof. unfold releasePeer. case_match; done. Qed.

Lemma nstep_inv s n s' k : net_inv s k → (Z.of_nat (n + k) < 2 ^ 31)%Z → nstep s n s' → net_inv s' (n + k).
Proof.
  intros Hi Hk Hst. pose proof Hi as (Hp & Hs & Hr). destruct Hst; cbn [Nat.add fst snd] in *.
  - pose proof (pickPeer_client _ _ _ _ _ _ H0) as Hc. split_and!; cbn.
    + by eapply peers_pick.
    + subst c'. by eapply sem_new.
    + subst c'. eapply req_move; [done|done|done|by rewrite H|done|by left].
  - assert (c' = c) as -> by (unfold pickPeer in H0; by destruct (pick_loop _ _ _ _); simplify_eq). split_and!; cbn.
    + by apply peers_none.
    + by eapply sem_new.
    + eapply req_move; [done|done|done|by rewrite H|done|by left].
  - split_and!; cbn; [by eapply peers_same| |eapply req_move; [done|done|done|by rewrite H|done|by left]].
    eapply sem_move; [done|done|cbn; lia|done|cbn; lia].
  - eapply inv_move; [done..|by left].
  - split_and!; cbn.
    + injection H0 as <- <-. by eapply peers_same.
    + injection H0 as <- <-. by eapply sem_same.
    + by eapply req_request.
  - injection H as H <-. destruct Hp as [P1 P2 P3], Hs as [S1 S2]. split_and!; [split| split|]; cbn; try done.
    + intros node. rewrite count_deliver; [apply P2|apply at_peer_deliver].
    + by rewrite count_deliver; [|apply has_slot_deliver].
    + by apply req_response.
  - injection H as H <-. by rewrite delete_id by done; destruct c.
  - eapply inv_move; [done..|by left].
  - eapply inv_move; [done..|by right].
  - eapply inv_move; [done..|by right].
  - split_and!; cbn; [by eapply peers_same|by eapply sem_same|by eapply req_unwind].
  - split_and!; cbn; [by eapply peers_same| |eapply req_move; [done|done|done|by rewrite H|done|by left]].
    pose proof (count_step has_slot ts tid _ (MkCall node (Unmark r)) H). destruct Hs as [S1 S2].
    eapply sem_move; [done|done|cbn; lia|done|cbn in *; lia].
  - destruct (mark_peer_keeps c now node r) as (? & ? & ? & ? & ? & ?). eapply inv_move; [done..|by left].
  - destruct (releasePeer_keeps c node) as (? & ? & ? & ?). split_and!; cbn; [by eapply peers_release| |].
    + by eapply sem_same.
    + eapply req_move; [done|done|done|by rewrite H|done|by left].
Qed.

Lemma nreach_inv inflight perPeer s k :
  nreach inflight perPeer s k → (Z.of_nat k < 2 ^ 31)%Z → net_inv s k.
Proof.
  induction 1 as [|s n s' k Hr IH Hst]; intros Hk; [apply new_inv|].
  eapply nstep_inv; [apply IH; lia|done|done].
Qed.

(** ** What the invariant says of a client *)

Lemma nstep_config s n s' : nstep s n s' → nc_perPeer s'.1 = nc_perPeer s.1 ∧ nc_inflight s'.1 = nc_inflight s.1.
Proof.
  destruct 1; cbn; try done.
  - by apply pickPeer_client in H0 as ->.
  - unfold pickPeer in H0. by destruct (pick_loop _ _ _ _); simplify_eq.
  - unfold new_request in H0. by simplify_eq.
  - unfold OnAppResponse in H. by simplify_eq.
  - unfold OnAppResponse in H. by simplify_eq.
  - by destruct (mark_peer_keeps c now node r) as (_ & -> & _ & -> & _).
  - unfold releasePeer. by case_match.
Qed.

Lemma nreach_config inflight perPeer s k :
  nreach inflight perPeer s k →
  nc_perPeer s.1 = nc_perPeer (NewNetClient inflight perPeer) ∧ nc_inflight s.1 = nc_inflight (NewNetClient inflight perPeer).
Proof. induction 1 as [|s n s' k _ IH Hst]; [done|]. by destruct (nstep_config _ _ _ Hst) as [-> ->]. Qed.

Lemma count_none P ts : (∀ tid cl, ts !! tid = Some cl → P cl = false) → count P ts = 0.
Proof.
  intros Hn. unfold count. apply map_size_empty_iff, map_eq. intros tid. rewrite lookup_empty.
  apply map_lookup_filter_None. right. intros cl Hl. cbn. by rewrite (Hn tid cl Hl).
Qed.

(** When every call has returned, nothing is left. *)
Lemma idle_inv c ts k :
  net_inv (c, ts) k → (∀ tid cl, ts !! tid = Some cl → ∃ r, cl_stage cl = Done r) →
  (∀ node, outstanding_of c node = 0%Z) ∧ nc_sem c = 0 ∧ nc_pending c = ∅.
Proof.
  intros ([_ Hc _] & [Hs _] & [_ _ _ Hp _]) Hd. cbn in *. split_and!.
  - intros node. rewrite Hc, count_none; [done|]. intros tid cl Hl. destruct (Hd tid cl Hl) as [r Hr].
    unfold at_peer. by rewrite Hr, andb_false_r.
  - rewrite Hs. apply count_none. intros tid cl Hl. destruct (Hd tid cl Hl) as [r Hr]. unfold has_slot. by rewrite Hr.
  - apply map_eq. intros id. rewrite lookup_empty. destruct (nc_pending c !! id) as [tid|] eqn:E; [|done].
    destruct (Hp id tid E) as (cl & Hl & Hq & _). destruct (Hd tid cl Hl) as [r Hr]. unfold request_of in Hq. by rewrite Hr in Hq.
Qed.
