(* ===== verification/FollowerMain.v ===== *)
(** * FollowerMain: the main loop of the follower program

    Models the rest of [run] in [cmd/follower/main.go]: the callbacks wired to the
    engine, and the loop that ticks it until it fails, the network stops or the
    process is told to.  The list of inputs says which case of the [select] is taken
    at each turn, with the messages the network goroutines deliver in between. *)

From S2P Require Import Prelude Schema Capture ConsensusState Consensus Net.

(** What happens to the process. *)
Inductive main_input :=
| MiMessage (msg : InboundMessage)
| MiTick (fuel : nat)
| MiFatal (* the engine's fatal channel *)
| MiDispatch (er : error) (* the network's dispatch has stopped *)
| MiDone (* the context is done *)
| MiStatus.

(** ** The watchdog *)

(** The goroutine that watches the finalized height of the store: every tick it reads
    the height; a new one resets the clock, ten minutes without one end the process
    ([None]), and two minutes dump the stacks, once. *)
Record watchdog := MkWatchdog { wd_last : u64; wd_stall : Z; wd_dumped : bool }.

Definition minute : Z := (60 * second)%Z.

Definition watchdog_tick (w : watchdog) (now : Z) (finalized : result (option u64)) : option watchdog :=
  match finalized with
  | Ok (Some f) =>
      if negb (bool_decide (f = wd_last w)) then Some (MkWatchdog f now false)
      else if (10 * minute <? now - wd_stall w)%Z then None
      else if (2 * minute <? now - wd_stall w)%Z && negb (wd_dumped w) then Some (MkWatchdog (wd_last w) (wd_stall w) true)
      else Some w
  | _ => Some w
  end.

Fixpoint watchdog_run (w : watchdog) (ticks : list (Z * result (option u64))) : option watchdog :=
  match ticks with
  | [] => Some w
  | (now, fin) :: ticks' => match watchdog_tick w now fin with None => None | Some w => watchdog_run w ticks' end
  end.

(** The process is ended only by a tick that sees a height which every tick of the
    last ten minutes has seen, if it could read one: since the clock [t0] of the tick
    that saw it first, or of the start. *)
Lemma watchdog_abort w ticks :
  watchdog_run w ticks = None →
  ∃ pre mid now post f t0, ticks = pre ++ mid ++ (now, Ok (Some f)) :: post ∧ (10 * minute < now - t0)%Z ∧
    (t0 = wd_stall w ∧ f = wd_last w ∧ pre = [] ∨ last pre = Some (t0, Ok (Some f))) ∧
    ∀ t fin, (t, Ok (Some fin)) ∈ mid → fin = f.
Proof.
  revert w. induction ticks as [|[now fin] ticks IH]; intros w; [done|]. cbn [watchdog_run].
  destruct (watchdog_tick w now fin) as [w'|] eqn:Et; cycle 1.
  { intros _. unfold watchdog_tick in Et. destruct fin as [[f|]|]; try done.
    destruct (bool_decide_reflect (f = wd_last w)) as [Hf|]; cbn in Et; [|done].
    destruct (Z.ltb_spec (10 * minute) (now - wd_stall w)); [|by destruct (_ && _)].
    exists [], [], now, ticks, f, (wd_stall w). split_and!; [done|done|by left|]. by intros ? ? ?%elem_of_nil. }
  intros Hr. destruct (IH w' Hr) as (pre & mid & now' & post & f & t0 & -> & Ht & Hst & Hm).
  destruct Hst as [(Hs & Hf & ->)|Hl]; cycle 1.
  { exists ((now, fin) :: pre), mid, now', post, f, t0. split_and!; [done|done| |done]. right. by destruct pre. }
  cbn [app]. unfold watchdog_tick in Et.
  assert (wd_last w' = wd_last w ∧ wd_stall w' = wd_stall w ∧ (∀ f0, fin = Ok (Some f0) → f0 = wd_last w) ∨
          fin = Ok (Some (wd_last w')) ∧ wd_stall w' = now) as [(H1 & H2 & H3)|[-> H2]].
  { destruct fin as [[f0|]|]; [|injection Et as <-; left; by split_and!..].
    destruct (bool_decide_reflect (f0 = wd_last w)) as [->|]; cbn in Et; [|injection Et as <-; by right].
    left. repeat case_match; simplify_eq; split_and!; try done; by intros ? [= <-]. }
  - exists [], ((now, fin) :: mid), now', post, f, t0. split_and!; [done|done|left; split_and!; congruence|].
    intros t fi [[= <- Hfi]|Hin]%elem_of_cons; [|by eapply Hm]. rewrite Hf, H1. by apply H3.
  - exists [(now, Ok (Some (wd_last w')))], mid, now', post, f, t0. split_and!; [done|done| |done]. right. cbn. congruence.
Qed.

(** ** The main loop *)

Section main_loop.
Context {T P K N Body : Type}.
Context `{Consensus T Body, PollSet P T, EngineSink K, Executor K Body, Net N}.
Context (cfg : Config).
Context (proposer : bytes → option (Hash * Hash * bytes)) (rlp_block : bytes → option (EthBlock Body)).

Abbreviation Engine := (Engine T P K N Body).
Implicit Types e : Engine.

(** The callbacks: the engine's pointer may still be nil. *)
Definition callbacks : Callbacks (option Engine) :=
  MkCallbacks
    (Some (λ node c, fmap (λ e, OnContainer cfg proposer rlp_block e node c)))
    (Some (λ node req pref prefAt acc h, fmap (λ e, OnChits cfg e node req pref prefAt acc h)))
    (Some (λ node req cs, fmap (λ e, OnAncestors cfg proposer rlp_block e node req cs)))
    None.

(** One turn: the engine, and the result of [run] when it returns. *)
Definition main_step e (i : main_input) : Engine * option (result unit) :=
  match i with
  | MiMessage msg => (default e (HandleInbound callbacks (Some e) msg), None)
  | MiTick fuel => (Tick cfg fuel e, None)
  | MiFatal => (e, match e_fatal e with Some er => Some (Err er) | None => None end)
  | MiDispatch er => (e, Some (Err er))
  | MiDone => (e, Some (Ok ()))
  | MiStatus => (e, None)
  end.

Fixpoint main_loop e (ins : list main_input) : Engine * option (result unit) :=
  match ins with
  | [] => (e, None)
  | i :: ins' =>
      let '(e, out) := main_step e i in
      match out with
      | None => main_loop e ins'
      | Some r => (e, Some r)
      end
  end.

(** ** The events of the loop *)

(** What a message is to the engine: an application response, a message whose IDs
    are malformed or whose type is not that of its operation, is none. *)
Definition message_event (msg : InboundMessage) : option event :=
  let node := im_NodeID msg in
  match im_Op msg, im_Message msg with
  | PutOp, p2p_Put c | PushQueryOp, p2p_PushQuery c => Some (EvContainer node c)
  | ChitsOp, p2p_Chits req pref prefAt acc h =>
      match ToID pref, ToID acc with
      | Some p, Some a => Some (EvChits node req p (default p (ToID prefAt)) a h)
      | _, _ => None
      end
  | AncestorsOp, p2p_Ancestors req cs => Some (EvAncestors node req cs)
  | _, _ => None
  end.

Definition input_event (i : main_input) : option event :=
  match i with
  | MiMessage msg => message_event msg
  | MiTick fuel => Some (EvTick fuel)
  | _ => None
  end.

(** The engine after a turn is the one that has handled its event. *)
Lemma main_step_event e i :
  (main_step e i).1 = match input_event i with Some ev => handle cfg proposer rlp_block e ev | None => e end.
Proof.
  destruct i as [[node op msg]| | | | |]; try done. unfold main_step, HandleInbound, handle_chits, input_event, message_event. cbn.
  destruct op, msg; try done; cbn. destruct (ToID PreferredId) as [p|]; [|done].
  destruct (ToID AcceptedId) as [a|]; [|done]. by destruct (ToID PreferredIdAtHeight).
Qed.

(** The engine of the loop is the engine fed with the events of the turns taken. *)
Lemma main_loop_run e ins :
  ∃ k, (main_loop e ins).1 = run cfg proposer rlp_block e (omap input_event (take k ins)).
Proof.
  revert e. induction ins as [|i ins IH]; intros e; cbn [main_loop]; [by exists 0|].
  pose proof (main_step_event e i) as Hs. destruct (main_step e i) as [e' [r|]]; cbn [fst] in *; subst e'.
  - exists 1. cbn. by destruct (input_event i).
  - destruct (IH (match input_event i with Some ev => handle cfg proposer rlp_block e ev | None => e end)) as [k Hk].
    exists (S k). rewrite Hk. cbn. by destruct (input_event i).
Qed.

(** [run] returns an error only for the engine's or the network's, and with the
    first one the engine has met. *)
Lemma main_loop_exit e ins er :
  (main_loop e ins).2 = Some (Err er) → e_fatal (main_loop e ins).1 = Some er ∨ MiDispatch er ∈ ins.
Proof.
  revert e. induction ins as [|i ins IH]; intros e; [done|]. cbn [main_loop].
  destruct (main_step e i) as [e' [r|]] eqn:Es; cbn [fst snd].
  - intros [= ->]. destruct i; cbn in Es; simplify_eq; [|right; by left]. left.
    destruct (e_fatal e'); by simplify_eq.
  - intros [?|?]%IH; [by left|right; by right].
Qed.

(** Any sequence of events can reach the engine this way. *)
Definition event_input (ev : event) : main_input :=
  match ev with
  | EvContainer node c => MiMessage (MkInbound node PutOp (p2p_Put c))
  | EvChits node req pref prefAt acc h =>
      MiMessage (MkInbound node ChitsOp (p2p_Chits req (abytes pref) (abytes prefAt) (abytes acc) h))
  | EvAncestors node req cs => MiMessage (MkInbound node AncestorsOp (p2p_Ancestors req cs))
  | EvTick fuel => MiTick fuel
  end.

Lemma ToID_abytes (h : Hash) : ToID (abytes h) = Some h.
Proof. unfold ToID. by rewrite length_abytes, arr_of_abytes. Qed.

Lemma input_event_input ev : input_event (event_input ev) = Some ev.
Proof. destruct ev; cbn; rewrite ?ToID_abytes; done. Qed.

Lemma input_events (evs : list event) : omap input_event (event_input <$> evs) = evs.
Proof. induction evs as [|ev evs IH]; [done|]. rewrite fmap_cons. cbn. by rewrite input_event_input, IH. Qed.

Lemma main_loop_events e evs : main_loop e (event_input <$> evs) = (run cfg proposer rlp_block e evs, None).
Proof.
  revert e. induction evs as [|ev evs IH]; intros e; [done|]. rewrite fmap_cons. cbn [main_loop].
  assert (main_step e (event_input ev) = (handle cfg proposer rlp_block e ev, None)) as ->; [|apply IH].
  pose proof (main_step_event e (event_input ev)) as Hs.
  rewrite input_event_input in Hs. rewrite (surjective_pairing (main_step e (event_input ev))), Hs. by destruct ev.
Qed.
End main_loop.
