(* ===== verification/Follower.v ===== *)
(** * Follower: the nodes the follower program builds

    Models the two sinks of [cmd/follower/main.go] and what [makeSink] makes of
    them, together with the executor the engine is given beside them.

    A live node is the tracker over the composite sink and the executor over the
    same store; the handle is shared, so the executor reads what the sink has
    written, and what it caches is seen by the sink.  A dry run has no store to
    write: the accepted batches are folded into the executor, or forgotten when
    there is none. *)

From S2P Require Import Prelude Schema Lmdb Capture Store StoreRead Reader Mem Tipbus Exec Node.
From S2P Require Import ConsensusState Consensus ConsensusInv.

Section live_sink.
Context {env benv : Type} `{Lmdb env, Lmdb benv} (keccak : bytes → Hash).
Context {Body Receipts : Type} (EmptyCodeHash : Hash) (evm : Header → Header → Body → evm_prog Receipts).
Context (DeriveSha : Receipts → Hash) (CreateBloom : Receipts → bytes).

Record liveSink := MkLiveSink {
  ls_tracker : Tracker (Sink env benv);
  ls_ex : Exec (DB env)
}.
Implicit Types k : liveSink.

(** The store handle, and the sink after the handle's caches have changed. *)
Definition ls_db k : DB env := s_db (sk_st (t_sink (ls_tracker k))).
Definition put_db (t : Tracker (Sink env benv)) (d : DB env) : Tracker (Sink env benv) :=
  set_sink t (MkSink (set_db (sk_st (t_sink t)) d) (sk_bus (t_sink t)) (sk_pending (t_sink t))).

(** The configured [MakeSink]: a tracker over the one sink of the process. *)
Definition live_make k (h : u64) (hash : Hash) : result unit * liveSink :=
  (Ok (), MkLiveSink (NewTracker (t_sink (ls_tracker k)) h hash) (ls_ex k)).

Definition live_Verified k (b : Batch) : liveSink := MkLiveSink (Verified (ls_tracker k) b) (ls_ex k).

Definition live_Head k (hash : Hash) : result unit * liveSink :=
  let '(r, t) := Head (S (size (t_table (ls_tracker k)))) (ls_tracker k) hash in (r, MkLiveSink t (ls_ex k)).

Definition live_Accepted k (block : u64) (hash : Hash) : result unit * liveSink :=
  let '(r, t) := Accepted (ls_tracker k) block hash in
  match r with
  | Err er => (Err er, MkLiveSink t (ls_ex k))
  | Ok _ => (Ok (), MkLiveSink t (OnFinalized (ls_ex k) block))
  end.

Definition live_sink : EngineSink liveSink := {|
  es_Make := live_make;
  es_Verified := live_Verified;
  es_Head := live_Head;
  es_Accepted := live_Accepted
|}.

(** The executor reads through the shared handle. *)
Definition live_Execute k (parent : Hash) (blk : EthBlock Body) : result Batch * liveSink :=
  let x := set_xdb (ls_ex k) (ls_db k) in
  let '(r, x) := exec_Execute (H:=db_reader keccak) EmptyCodeHash evm DeriveSha CreateBloom
                   (S (size (x_pending x))) x parent (eb_Header blk) (eb_Body blk) in
  (r, MkLiveSink (put_db (ls_tracker k) (x_db x)) x).

Definition live_executor : Executor liveSink Body := {|
  ex_Execute := live_Execute;
  ex_SeedHeaders k hs := MkLiveSink (ls_tracker k) (SeedHeaders (ls_ex k) hs)
|}.

(** What [run] opens of a live node: the complete store, the executor, the
    resume point, the bus, the memory state and the sink over them. *)
Definition open_live (d : DB env) (be : benv) : result (Anchor * liveSink) :=
  let '(done, d) := BaselineComplete d in
  let! done := done in
  if negb done then Err (ErrMsg "follower")
  else
    let x := exec_New d in
    let '(resume, d) := resumeFromStore d in
    let! resume := resume in
    let! bus := (OpenWriter be).1 in
    let! st := mem_New (H:=db_reader keccak) d in
    Ok (resume, MkLiveSink (NewTracker (NewSink st bus) u_zero arr_zero) x).
End live_sink.
Arguments liveSink env benv : clear implicits.
Arguments MkLiveSink {env benv} _ _.
Arguments ls_tracker {env benv} _.
Arguments ls_ex {env benv} _.

(** ** The dry run *)

Section dry_sink.
Context {db : Type} `{Reader db}.
Context {Body Receipts : Type} (EmptyCodeHash : Hash) (evm : Header → Header → Body → evm_prog Receipts).
Context (DeriveSha : Receipts → Hash) (CreateBloom : Receipts → bytes).

(** [ds_ex] is nil when the run only follows. *)
Record drySink := MkDrySink {
  ds_ex : option (Exec db);
  ds_batches : gmap Hash Batch
}.
Implicit Types k : drySink.

Definition dry_make k (h : u64) (hash : Hash) : result unit * drySink := (Ok (), MkDrySink (ds_ex k) ∅).

Definition dry_Verified k (b : Batch) : drySink := MkDrySink (ds_ex k) (<[BHash b:=b]> (ds_batches k)).

Definition dry_Head k (hash : Hash) : result unit * drySink := (Ok (), k).

Definition dry_Accepted k (block : u64) (hash : Hash) : result unit * drySink :=
  match ds_batches k !! hash with
  | None => (Err (ErrMsg "follower"), k)
  | Some b =>
      (Ok (), MkDrySink ((λ x, FoldFinalized x b) <$> ds_ex k)
                (filter (λ kv, ¬ (Block kv.2 ≤ block)%Z) (ds_batches k)))
  end.

Definition dry_sink : EngineSink drySink := {|
  es_Make := dry_make;
  es_Verified := dry_Verified;
  es_Head := dry_Head;
  es_Accepted := dry_Accepted
|}.

(** The executor, or the header-only one. *)
Definition dry_Execute k (parent : Hash) (blk : EthBlock Body) : result Batch * drySink :=
  match ds_ex k with
  | None => (HeaderOnly_Execute parent blk, k)
  | Some x =>
      let '(r, x) := exec_Execute EmptyCodeHash evm DeriveSha CreateBloom (S (size (x_pending x))) x parent
                       (eb_Header blk) (eb_Body blk) in
      (r, MkDrySink (Some x) (ds_batches k))
  end.

Definition dry_executor : Executor drySink Body := {|
  ex_Execute := dry_Execute;
  ex_SeedHeaders k hs := MkDrySink ((λ x, SeedHeaders x hs) <$> ds_ex k) (ds_batches k)
|}.
End dry_sink.
Arguments drySink db : clear implicits.
Arguments MkDrySink {db} _ _.
Arguments ds_ex {db} _.
Arguments ds_batches {db} _.

(** What [run] opens of a dry run: without a store, or over one whose baseline is not
    complete, it follows without executing. *)
Definition open_dry {env} `{Lmdb env} (store : option (DB env)) : result (option Anchor * drySink (DB env)) :=
  match store with
  | None => Ok (None, MkDrySink None ∅)
  | Some d =>
      let '(done, d) := BaselineComplete d in
      let! done := done in
      if negb done then Ok (None, MkDrySink None ∅)
      else
        let x := exec_New d in
        let '(resume, d) := resumeFromStore d in
        let! resume := resume in
        Ok (Some resume, MkDrySink (Some (set_xdb x d)) ∅)
  end.
