(* ===== verification/FollowerLog.v ===== *)
(** * FollowerLog: executed chains in the log of an engine

    What a run of the engine over an executing node has done, read off the calls
    on its sink: the accepted batches ([accepts]), the block a batch was executed
    from and the world it was executed on ([executed]), and that every verified
    batch was executed on the world of its own chain ([executed_in]). *)

From S2P Require Import Prelude Schema Capture World Exec ExecProof Node ConsensusState Consensus ConsensusInv.
From S2P Require Import TrackerProof ConsensusTracker.

(** ** Chains *)

Lemma extends_app h hash bs n x bs' m y :
  extends h hash bs n x → extends n x bs' m y → extends h hash (bs ++ bs') m y.
Proof.
  revert h hash. induction bs as [|b bs IH]; intros h hash; cbn [extends app].
  - by intros [-> ->].
  - intros (? & ? & He) He'. split_and!; [done|done|by apply IH].
Qed.

Lemma extends_split h hash bs bs' m y :
  extends h hash (bs ++ bs') m y → ∃ n x, extends h hash bs n x ∧ extends n x bs' m y.
Proof.
  revert h hash. induction bs as [|b bs IH]; intros h hash; cbn [extends app].
  - intros He. by exists h, hash.
  - intros (? & ? & He). destruct (IH _ _ He) as (n & x & He1 & He2). by exists n, x.
Qed.

(** ** Accepted batches *)

Inductive accepts : list sink_event → list Batch → Prop :=
| ac_start h hash : accepts [SMake h hash] []
| ac_verified l acc b : accepts l acc → accepts (l ++ [SVerified b]) acc
| ac_head l acc x : accepts l acc → accepts (l ++ [SHead x]) acc
| ac_accepted l acc b :
    accepts l acc → SVerified b ∈ l → accepts (l ++ [SAccepted (Block b) (BHash b)]) (acc ++ [b]).

Lemma accepts_verified l acc b : accepts l acc → b ∈ acc → SVerified b ∈ l.
Proof.
  induction 1 as [|l acc b0 _ IH|l acc x _ IH|l acc b0 _ IH Hb0]; rewrite ?elem_of_app; [by intros ?%elem_of_nil|..].
  - left. by apply IH.
  - left. by apply IH.
  - intros [?| ->%list_elem_of_singleton]; left; [by apply IH|done].
Qed.

(** Blocks are executed alike: the same hash gave the same batch. *)
Definition same_batches (l : list sink_event) : Prop :=
  ∀ b b', SVerified b ∈ l → SVerified b' ∈ l → BHash b = BHash b' → b = b'.

Lemma same_batches_mono l l' : l `prefix_of` l' → same_batches l' → same_batches l.
Proof. intros [k ->] Hs b b' Hb Hb'. apply Hs; apply elem_of_app; by left. Qed.

Section executed.
Context {Body Receipts : Type} (proposer : bytes → option (Hash * Hash * bytes)).
Context (rlp_block : bytes → option (EthBlock Body)) (rcv : list bytes).
Context (EmptyCodeHash : Hash) (evm : Header → Header → Body → evm_prog Receipts).
Context (DeriveSha : Receipts → Hash) (CreateBloom : Receipts → bytes).
Abbreviation parsed := (parsed proposer rlp_block rcv).
Abbreviation of_parsed := (of_parsed proposer rlp_block rcv).

(** No two received blocks with different headers or parents have the same
    hash. *)
Definition eth_headers_ok : Prop := ∀ c c', parsed c → parsed c' → eb_Hash (c_Eth c) = eb_Hash (c_Eth c') →
  eb_Header (c_Eth c) = eb_Header (c_Eth c') ∧ eb_ParentHash (c_Eth c) = eb_ParentHash (c_Eth c').

Lemma eth_headers_hashes : eth_headers_ok → eth_hashes_ok proposer rlp_block rcv.
Proof. intros He c c' Hc Hc' Hh. destruct (He c c' Hc Hc' Hh) as [Hd ->]. unfold eb_Number. by rewrite Hd. Qed.

Context (Heth : eth_headers_ok).

(** A block of the network at a height. *)
Definition block_at (h : u64) (hash : Hash) : Prop :=
  ∃ c, parsed c ∧ eb_Number (c_Eth c) = h ∧ eb_Hash (c_Eth c) = hash.

Lemma block_at_height h h' hash : block_at h hash → block_at h' hash → h = h'.
Proof.
  intros (c & Hc & <- & He) (c' & Hc' & <- & He'). destruct (Heth c c' Hc Hc' ltac:(congruence)) as [Hd _].
  unfold eb_Number. by rewrite Hd.
Qed.

Lemma batch_at b : of_parsed b → block_at (Block b) (BHash b).
Proof. intros (_ & c & Hc & -> & -> & _). by exists c. Qed.

(** The batch is what the capture tries recorded of the transition of the block
    on the world [w], which used the gas and gave the receipts of the header; the
    headers it saw are those of the hashes it asked for. *)
Definition executed (w : world) (b : Batch) : Prop := ∃ c ph code headers p,
  parsed c ∧ batch_of b c ∧ hd_Hash ph = Parent b ∧
  (∀ h n hd, headers h n = Some hd → hd_Hash hd = h ∧ hd_Number hd = n) ∧
  eval_evm EmptyCodeHash w code headers (evm ph (eb_Header (c_Eth c)) (eb_Body (c_Eth c))) = Ok p ∧
  trie_writes EmptyCodeHash [] p.1.1 = Ok (Ops b) ∧
  p.1.2 = hd_GasUsed (eb_Header (c_Eth c)) ∧
  DeriveSha p.2 = hd_ReceiptHash (eb_Header (c_Eth c)) ∧ CreateBloom p.2 = hd_Bloom (eb_Header (c_Eth c)).

Lemma executed_world w w' b : w ≡ w' → executed w b → executed w' b.
Proof.
  intros Hw (c & ph & code & headers & p & H1 & H2 & H3 & H4 & H5 & H6). exists c, ph, code, headers, p.
  split; [done|]. split; [done|]. split; [done|]. split; [done|]. split; [|done]. by rewrite <-(eval_evm_world EmptyCodeHash w w' code code headers _ Hw (λ _, eq_refl)).
Qed.

(** Every verified batch was executed on the world of its chain from the start
    [h0], [hash0], whose world is [W]. *)
Definition executed_in (W : world) (h0 : u64) (hash0 : Hash) (l : list sink_event) : Prop :=
  ∀ b, SVerified b ∈ l → ∃ fs n, extends h0 hash0 fs n (Parent b) ∧ (∀ x, x ∈ fs → SVerified x ∈ l) ∧
    executed (apply_batches W fs) b.

Lemma executed_grow W h0 hash0 l ev :
  executed_in W h0 hash0 l → (∀ b, ev ≠ SVerified b) → executed_in W h0 hash0 (l ++ [ev]).
Proof.
  intros Hx Hev b [Hb|He%list_elem_of_singleton]%elem_of_app; [|by destruct (Hev b)].
  destruct (Hx b Hb) as (fs & n & He & Hin & Hex). exists fs, n. split_and!; [done| |done].
  intros x Hx'. apply elem_of_app. left. by apply Hin.
Qed.

Lemma executed_add W h0 hash0 l b fs n :
  executed_in W h0 hash0 l → extends h0 hash0 fs n (Parent b) → (∀ x, x ∈ fs → SVerified x ∈ l) →
  executed (apply_batches W fs) b → executed_in W h0 hash0 (l ++ [SVerified b]).
Proof.
  intros Hx He Hin Hex b' [Hb|[= ->]%list_elem_of_singleton]%elem_of_app; [|exists fs, n; split_and!; [done| |done]].
  - destruct (Hx b' Hb) as (fs' & n' & He' & Hin' & Hex'). exists fs', n'. split_and!; [done| |done].
    intros x ?. apply elem_of_app. left. by apply Hin'.
  - intros x ?. apply elem_of_app. left. by apply Hin.
Qed.

(** ** A hash has one chain *)

Section unique.
Context (l : list sink_event) (h0 : u64) (hash0 : Hash).
Context (Hstart : block_at h0 hash0).
Context (Hsame : same_batches l) (HV : ∀ b, SVerified b ∈ l → of_parsed b).

Lemma parsed_first b : of_parsed b → uval (Block b) ≠ 0%Z.
Proof. by intros [? _]. Qed.

Lemma not_start bs b n x :
  extends h0 hash0 bs n x → (∀ x, x ∈ bs → SVerified x ∈ l) → b ∈ bs → BHash b ≠ hash0.
Proof.
  intros He Hin Hb Heq.
  pose proof (extends_above of_parsed parsed_first h0 hash0 bs n x b ltac:(auto) He Hb) as Hlt.
  pose proof (batch_at b (HV _ (Hin _ Hb))) as Hat. rewrite Heq in Hat.
  rewrite (block_at_height _ _ _ Hstart Hat) in Hlt. lia.
Qed.

Lemma extends_unique bs bs' n n' x :
  extends h0 hash0 bs n x → extends h0 hash0 bs' n' x →
  (∀ x, x ∈ bs → SVerified x ∈ l) → (∀ x, x ∈ bs' → SVerified x ∈ l) → bs = bs'.
Proof.
  revert bs' n n' x. induction bs as [|b bs IH] using rev_ind; intros bs' n n' x He He' Hin Hin'.
  - destruct bs' as [|b' bs' _] using rev_ind; [done|]. destruct He as [_ ->].
    pose proof (not_start _ b' _ _ He' Hin' ltac:(apply elem_of_app; right; left)) as Hne.
    by apply extends_snoc_inv in He' as (_ & _ & ->).
  - pose proof (not_start _ b _ _ He Hin ltac:(apply elem_of_app; right; left)) as Hne.
    apply extends_snoc_inv in He as (m & He & ->).
    destruct bs' as [|b' bs' _] using rev_ind; [by destruct He' as [_ ?]|].
    apply extends_snoc_inv in He' as (m' & He' & Hh).
    assert (b = b') as <-.
    { apply Hsame; [apply Hin|apply Hin'|done]; apply elem_of_app; right; left. }
    f_equal. eapply IH; [exact He|exact He'|..]; intros y Hy; [apply Hin|apply Hin']; apply elem_of_app; by left.
Qed.

(** The accepted batches were executed one on the world of the other. *)
Lemma accepted_executed W acc h hash i b :
  executed_in W h0 hash0 l → extends h0 hash0 acc h hash → (∀ x, x ∈ acc → SVerified x ∈ l) →
  acc !! i = Some b → executed (apply_batches W (take i acc)) b.
Proof.
  intros Hx He Hin Hi. destruct (Hx b) as (fs & n & Hfs & Hfin & Hex); [by apply Hin; eapply list_elem_of_lookup_2|].
  replace (take i acc) with fs; [done|].
  rewrite <-(take_drop_middle acc i b Hi) in He. apply extends_split in He as (m & y & He1 & He2).
  cbn [extends] in He2. destruct He2 as (_ & Hp & _). rewrite Hp in Hfs.
  eapply extends_unique; [exact Hfs|exact He1|done|].
  intros x Hx'. apply Hin. by eapply elem_of_take in Hx' as (j & Hj & _); eapply list_elem_of_lookup_2.
Qed.
End unique.
End executed.
