(* ===== verification/FollowerExec.v ===== *)
(** * FollowerExec: the executor beside the log

    The executor of a node that follows one chain: it has the layer of every
    verified batch that is not finalized, the headers it has are of network blocks,
    and so a block executes on the world of its own chain ([exec_step]); finalizing
    the oldest block, into the store or into the dry-run base, keeps that
    ([finalized_step], [folded_step]). *)

From S2P Require Import Prelude Schema Capture World Store StoreRead Reader Exec ExecProof Node.
From S2P Require Import ConsensusState Consensus ConsensusInv TrackerProof ConsensusTracker FollowerLog.

(** The pending layers of a chain. *)
Lemma pending_of_chain p h hash bs n x :
  extends h hash bs n x → (∀ b, b ∈ bs → p !! BHash b = Some (x_newLayer b)) → p !! hash = None →
  pending_chain p x (reverse bs).
Proof.
  revert n x. induction bs as [|b bs IH] using rev_ind; intros n x He Hp Hn.
  - destruct He as [_ ->]. by constructor.
  - apply extends_snoc_inv in He as (n' & He & ->). rewrite reverse_app. cbn.
    constructor; [apply Hp, elem_of_app; right; left|]. eapply IH; [exact He| |done].
    intros b' ?. apply Hp, elem_of_app. by left.
Qed.

Section executor.
Context {db : Type} `{ReaderLaws db} {Body Receipts : Type}.
Context (proposer : bytes → option (Hash * Hash * bytes)) (rlp_block : bytes → option (EthBlock Body)).
Context (rcv : list bytes).
Context (EmptyCodeHash : Hash) (evm : Header → Header → Body → evm_prog Receipts).
Context (DeriveSha : Receipts → Hash) (CreateBloom : Receipts → bytes).
Abbreviation parsed := (parsed proposer rlp_block rcv).
Abbreviation block_at := (block_at proposer rlp_block rcv).
Abbreviation executed := (executed proposer rlp_block rcv EmptyCodeHash evm DeriveSha CreateBloom).
Abbreviation Execute := (exec_Execute EmptyCodeHash evm DeriveSha CreateBloom).
Context (Heth : eth_headers_ok proposer rlp_block rcv).
Implicit Types (x : Exec db) (table : gmap Hash Batch).

(** Every batch of the table has its layer, all layers are above the finalized
    height, and headers are of network blocks. *)
Record exec_ok x table (W : world) (D : list Batch) (h : u64) : Prop := {
  eo_inv : exec_inv x W D;
  eo_pend hh b : table !! hh = Some b → x_pending x !! hh = Some (x_newLayer b);
  eo_above hh ly : x_pending x !! hh = Some ly → (h < xl_block ly)%Z;
  eo_headers hh hd : x_headers x !! hh = Some hd → ∃ c, parsed c ∧ hd = eb_Header (c_Eth c) ∧ hd_Hash hd = hh
}.

(** The finalized block has no layer. *)
Lemma finalized_none x table W D h hash : exec_ok x table W D h → block_at h hash → x_pending x !! hash = None.
Proof.
  intros Hx Hat. destruct (x_pending x !! hash) as [ly|] eqn:El; [|done].
  destruct (xi_header _ _ _ (eo_inv _ _ _ _ _ Hx) _ _ El) as (hd & Hhd & Hn).
  destruct (eo_headers _ _ _ _ _ Hx _ _ Hhd) as (c & Hc & -> & Hh).
  pose proof (eo_above _ _ _ _ _ Hx _ _ El) as Hlt.
  rewrite (block_at_height _ _ _ Heth h (xl_block ly) hash Hat) in Hlt; [lia|]. by exists c.
Qed.

Lemma exec_step x table W D (h : u64) hash bs n c b x' :
  ¬ rd_faulty → exec_ok x table W D h → block_at h hash → parsed c →
  extends h hash bs n (eb_ParentHash (c_Eth c)) → (∀ b, b ∈ bs → table !! BHash b = Some b) →
  (h < eb_Number (c_Eth c))%Z →
  Execute (S (size (x_pending x))) x (eb_ParentHash (c_Eth c)) (eb_Header (c_Eth c)) (eb_Body (c_Eth c)) = (Ok b, x') →
  batch_of b c ∧ exec_ok x' (<[BHash b:=b]> table) W D h ∧ x_dryBase x' = x_dryBase x ∧
  executed (apply_batches (apply_batches W D) bs) b.
Proof.
  intros Hnf Hx Hat Hc He Hin Hab Hex. pose proof (uint_range h) as Hhr.
  assert (pending_chain (x_pending x) (eb_ParentHash (c_Eth c)) (reverse bs)) as Hpc.
  { eapply pending_of_chain; [exact He|intros b0 Hb0; by apply (eo_pend _ _ _ _ _ Hx), Hin|by eapply finalized_none]. }
  pose proof (exec_Execute_spec EmptyCodeHash evm DeriveSha CreateBloom (S (size (x_pending x))) x W D
    (eb_ParentHash (c_Eth c)) (eb_Header (c_Eth c)) (eb_Body (c_Eth c)) (reverse bs) Hnf (eo_inv _ _ _ _ _ Hx) Hpc
    ltac:(lia) ltac:(unfold eb_Number in Hab; lia)) as Hs. rewrite Hex in Hs.
  destruct Hs as (Hi & _ & HB & HH & HP & _ & ph & ls & receipts & Hph & _ & _ & Htr & Hr & Hbl).
  { intros hd Hhd. destruct (eo_headers _ _ _ _ _ Hx _ _ Hhd) as (c' & Hc' & -> & Hh).
    by apply (Heth c' c Hc' Hc). }
  assert (x_pending x' = <[BHash b:=x_newLayer b]> (x_pending x) ∧
    x_headers x' = <[hd_Hash (eb_Header (c_Eth c)):=eb_Header (c_Eth c)]> (x_headers x) ∧ x_dryBase x' = x_dryBase x)
    as (Hp' & Hh' & Hd').
  { revert Hex. unfold exec_Execute. destruct (exec_run _ _ _ _ _ _ _) as [r x1] eqn:Er.
    assert (∃ d, x1 = set_xdb x d) as [d ->].
    { revert Er. unfold exec_run. destruct (x_headers x !! _); [|intros [= _ <-]; exists (x_db x); by destruct x].
      case_bool_decide; [intros [= _ <-]; exists (x_db x); by destruct x|].
      destruct (viewAt _ _ _); [|intros [= _ <-]; exists (x_db x); by destruct x].
      destruct (run_evm _ _ _ _ _) as [r0 d]. intros [= _ <-]. by exists d. }
    destruct r as [[[ops gas] rc]|]; [|done]. repeat (case_bool_decide; [done|]). by intros [= <- <-]. }
  split_and!.
  - done.
  - split; [done|..]; rewrite ?Hp', ?Hh'.
    + intros hh b0 [[<- <-]|[Hne Hb0]]%lookup_insert_Some; [by rewrite lookup_insert_eq|].
      rewrite lookup_insert_ne by done. by apply (eo_pend _ _ _ _ _ Hx).
    + intros hh ly [[<- <-]|[_ Hl]]%lookup_insert_Some; [|by apply (eo_above _ _ _ _ _ Hx hh)].
      rewrite (proj1 (newLayer_fields b)), HB. exact Hab.
    + intros hh hd [[<- <-]|[_ Hl]]%lookup_insert_Some; [by exists c|by apply (eo_headers _ _ _ _ _ Hx)].
  - done.
  - unfold transition in Htr. unfold chain_world in Htr. rewrite reverse_involutive in Htr.
    destruct (eval_evm _ _ _ _ _) as [p|] eqn:Ev; [|done]. cbn [rbind] in Htr.
    destruct (trie_writes _ _ _) as [ops|] eqn:Et; [|done]. cbn [rbind] in Htr. injection Htr as -> Hg <-.
    exists c, ph, (xv_code (x_db x) ls), (GetHeader x), p. split_and!; try done.
    + rewrite HP. by destruct (eo_headers _ _ _ _ _ Hx _ _ Hph) as (? & _ & _ & ?).
    + intros h1 n1 hd. unfold GetHeader. destruct (x_headers x !! h1) as [hd'|] eqn:Eh; [|done].
      case_bool_decide as Hn; [done|]. intros [= ->].
      by destruct (eo_headers _ _ _ _ _ Hx _ _ Eh) as (? & _ & _ & ?).
Qed.

(** ** Finalizing the oldest block *)

Lemma oldest_chain x table W D h hash b :
  exec_ok x table W D h → block_at h hash → Parent b = hash → table !! BHash b = Some b →
  pending_chain (x_pending x) (BHash b) ([] ++ [b]).
Proof.
  intros Hx Hat Hp Hb. constructor; [by apply (eo_pend _ _ _ _ _ Hx)|]. constructor. rewrite Hp. by eapply finalized_none.
Qed.

(** The bookkeeping of pruning, over any store and base. *)
Lemma pruned_ok x table W D h (block : u64) d base W' D' :
  exec_ok x table W D h →
  let x' := exec_prune (MkExec d (x_pending x) base (x_finalized x) (x_headers x)) block in
  exec_inv x' W' D' → exec_ok x' (filter (λ kv, ¬ (Block kv.2 ≤ block)%Z) table) W' D' block.
Proof.
  intros Hx x' Hi. split; [done|..]; cbn.
  - intros hh b [Hb Hgt]%map_lookup_filter_Some. apply map_lookup_filter_Some.
    split; [by apply (eo_pend _ _ _ _ _ Hx)|]. cbn in *. by rewrite (proj1 (newLayer_fields b)).
  - intros hh ly [_ Hgt]%map_lookup_filter_Some. cbn in Hgt. lia.
  - intros hh hd Hhd. apply (eo_headers _ _ _ _ _ Hx). destruct (headerHistory <? block)%Z; [|done].
    by apply map_lookup_filter_Some in Hhd as [? _].
Qed.

Lemma finalized_step x table W h hash b d :
  exec_ok x table W [] h → x_dryBase x = None → block_at h hash → Parent b = hash → table !! BHash b = Some b →
  serves d Latest (apply_batch W b) →
  exec_ok (OnFinalized (set_xdb x d) (Block b)) (filter (λ kv, ¬ (Block kv.2 ≤ Block b)%Z) table) (apply_batch W b) []
    (Block b).
Proof.
  intros Hx Hdry Hat Hp Hb Hs.
  destruct (OnFinalized_spec x W (BHash b) [] b d (eo_inv _ _ _ _ _ Hx) Hdry (oldest_chain _ _ _ _ _ _ _ Hx Hat Hp Hb) Hs)
    as (Hi & _). by eapply pruned_ok.
Qed.

Lemma folded_step x table W D h hash b :
  exec_ok x table W D h → block_at h hash → Parent b = hash → table !! BHash b = Some b →
  exec_ok (FoldFinalized x b) (filter (λ kv, ¬ (Block kv.2 ≤ Block b)%Z) table) W (D ++ [b]) (Block b).
Proof.
  intros Hx Hat Hp Hb.
  destruct (FoldFinalized_spec x W D (BHash b) [] b (eo_inv _ _ _ _ _ Hx) (oldest_chain _ _ _ _ _ _ _ Hx Hat Hp Hb))
    as (Hi & _). by eapply pruned_ok.
Qed.

(** Seeded headers. *)
Lemma seeded_headers x (hs : list Header) :
  (∀ hh hd, x_headers x !! hh = Some hd → ∃ c, parsed c ∧ hd = eb_Header (c_Eth c) ∧ hd_Hash hd = hh) →
  (∀ hd, hd ∈ hs → ∃ c, parsed c ∧ hd = eb_Header (c_Eth c)) →
  ∀ hh hd, x_headers (SeedHeaders x hs) !! hh = Some hd → ∃ c, parsed c ∧ hd = eb_Header (c_Eth c) ∧ hd_Hash hd = hh.
Proof.
  cbn [SeedHeaders x_headers]. generalize (x_headers x). induction hs as [|hd0 hs IH]; intros m Hm Hs; [done|].
  cbn [foldl]. apply IH; [|intros; apply Hs; by right]. intros hh hd [[<- <-]|[_ Hl]]%lookup_insert_Some; [|by apply Hm].
  destruct (Hs hd0 ltac:(left)) as (c & Hc & ->). by exists c.
Qed.
End executor.
