(* ===== verification/FollowerProof.v ===== *)
(** * FollowerProof: the live node under the engine

    What [sink_ok] asks of a node, for the live one: while the engine follows one
    chain, its executor runs every block on the world of the block's own chain, the
    tracker never refuses a call, and the store, the memory state, the bus and the
    executor's layers stay on the accepted chain ([live_ok]).  Only what the
    executor answers can fail. *)

From S2P Require Import Prelude Schema Lmdb Capture World Store StoreRead StoreSpec StoreProof StoreReads StoreWrites.
From S2P Require Import Reader Mem MemProof Tipbus TipbusProof Exec ExecProof Node SinkProof TrackerProof.
From S2P Require Import ConsensusState Consensus ConsensusInv ConsensusTracker Follower FollowerLog FollowerExec.

(** ** Batches on the wire *)

Abbreviation live := MemProof.live.

(** What a batch has to satisfy to be published, stored and read back: the
    capture contract, a frame that fits, and no slots left behind by a removed
    account. *)
Definition batch_ok (b : Batch) : Prop :=
  contract b ∧ frame_ok b ∧ ∀ w, live w → live (apply_batch w b).

(** What is assumed of a run: fewer than 2^32 calls on the sink, batches that
    can be published, stored and read back, and blocks that execute alike. *)
Record good_run (l : list sink_event) : Prop := {
  gr_short : (Z.of_nat (length l) < 2 ^ 32)%Z;
  gr_batch b : SVerified b ∈ l → batch_ok b;
  gr_same : same_batches l
}.

Lemma good_run_mono l l' : l `prefix_of` l' → good_run l' → good_run l.
Proof.
  intros Hp [Hs Hb Hx]. split; [|intros b Hin; apply Hb|by eapply same_batches_mono].
  - apply prefix_length in Hp. lia.
  - destruct Hp as [k ->]. apply elem_of_app. by left.
Qed.

Lemma good_run_app l ev : good_run (l ++ [ev]) → good_run l.
Proof. apply good_run_mono. by apply prefix_app_r. Qed.

(** ** Chains of verified batches *)

Section chains.
Context (l : list sink_event) (Hrun : good_run l).

Lemma chain_short bs : NoDup (BHash <$> bs) → (∀ b, b ∈ bs → SVerified b ∈ l) → length bs ≤ length l.
Proof.
  intros Hnd Hin. rewrite <-(length_fmap SVerified bs). apply submseteq_length, NoDup_submseteq.
  - apply NoDup_fmap_2; [by intros b b' [= ->]|]. by eapply NoDup_fmap_1.
  - intros ev (b & -> & Hb)%list_elem_of_fmap. by apply Hin.
Qed.

Lemma chain_frames bs : NoDup (BHash <$> bs) → (∀ b, b ∈ bs → SVerified b ∈ l) → frames_ok bs.
Proof.
  intros Hnd Hin. split; [pose proof (chain_short bs Hnd Hin); pose proof (gr_short _ Hrun); lia|].
  apply Forall_forall. intros b Hb. by apply (gr_batch _ Hrun), Hin.
Qed.

Lemma chain_live W bs : live W → (∀ b, b ∈ bs → SVerified b ∈ l) → live_along W bs.
Proof.
  intros HW Hin i. unfold stage. assert (∀ b, b ∈ take i bs → SVerified b ∈ l) as Hin'.
  { intros b (j & Hj & _)%elem_of_take. apply Hin. by eapply list_elem_of_lookup_2. }
  clear Hin. revert HW Hin'. generalize (take i bs) as cs. clear bs. intros cs. revert W.
  induction cs as [|b cs IH]; intros W HW Hin; [done|]. apply IH.
  - apply (gr_batch _ Hrun b); [apply Hin; left|done].
  - intros b' Hb'. apply Hin. by right.
Qed.

Context {Body : Type} (proposer : bytes → option (Hash * Hash * bytes)) (rlp_block : bytes → option (EthBlock Body)).
Context (rcv : list bytes).
Abbreviation V := (of_parsed proposer rlp_block rcv).
Context (HV : ∀ b, SVerified b ∈ l → V b).

Lemma chain_layers (h : u64) hash bs n x :
  extends h hash bs n x → (∀ b, b ∈ bs → SVerified b ∈ l) → layers_chain h bs.
Proof.
  revert h hash. induction bs as [|b bs IH]; intros h hash He Hin; [done|]. cbn [extends layers_chain] in *.
  destruct He as (Hb & _ & He). assert (SVerified b ∈ l) as Hv by (apply Hin; left).
  destruct (gr_batch _ Hrun b Hv) as (Hc & [Henc _] & _).
  pose proof (next_height V (parsed_first _ _ _) h b (HV b Hv) Hb) as Hn.
  split_and!; [lia|done|done|]. eapply IH; [exact He|intros; apply Hin; by right].
Qed.
End chains.

(** The walk of the tracker finds a chain of its table. *)
Lemma chainTo_chain {sink} `{SinkOps sink} (t : Tracker sink) h bs n x :
  extends h (t_finalizedHash t) bs n x →
  (∀ b, b ∈ bs → t_table t !! BHash b = Some b ∧ BHash b ≠ t_finalizedHash t) →
  NoDup (BHash <$> bs) → chainTo (S (size (t_table t))) t x = Ok bs.
Proof.
  intros He Ht Hnd.
  assert (length bs ≤ size (t_table t)) as Hlen.
  { rewrite <-(length_fmap BHash bs), <-size_dom, <-(size_list_to_set (C:=gset Hash) (BHash <$> bs)) by done.
    apply subseteq_size. intros y. rewrite elem_of_list_to_set. intros (b & -> & Hb)%list_elem_of_fmap.
    apply elem_of_dom. exists b. by apply Ht. }
  assert (∀ fuel rv, length bs < fuel → chain_walk fuel t x rv = Ok (rv ++ reverse bs)) as Hw.
  { clear Hnd Hlen. revert n x He. induction bs as [|b bs IH] using rev_ind; intros n x He [|fuel] rv Hf;
      [lia| |lia|]; cbn [chain_walk].
    - destruct He as [_ ->]. rewrite bool_decide_true by done. by rewrite app_nil_r.
    - apply extends_snoc_inv in He as (n' & He & ->).
      destruct (Ht b) as [-> Hne]; [apply elem_of_app; right; left|]. rewrite bool_decide_false by done.
      rewrite (IH ltac:(intros; apply Ht, elem_of_app; by left) _ _ He) by (rewrite length_app in Hf; cbn in Hf; lia).
      rewrite reverse_app, <-app_assoc. done. }
  unfold chainTo. rewrite Hw by lia. cbn [rbind app]. by rewrite reverse_involutive.
Qed.

(** ** The live node *)

Section live_node.
Context {env benv : Type} `{LmdbLaws env, LmdbLaws benv} (keccak : bytes → Hash).
Context {Body Receipts : Type} (EmptyCodeHash : Hash) (evm : Header → Header → Body → evm_prog Receipts).
Context (DeriveSha : Receipts → Hash) (CreateBloom : Receipts → bytes).
Context (cfg : Config).
Context (proposer : bytes → option (Hash * Hash * bytes)) (rlp_block : bytes → option (EthBlock Body)).
Context (rcv : list bytes).
Context (Heth : eth_headers_ok proposer rlp_block rcv).
Context (Hnf : ¬ any_fault (env:=env) (benv:=benv)).
#[local] Instance live_reader : Reader (DB env) := db_reader keccak.
#[local] Instance live_reader_laws : ReaderLaws (DB env) := db_reader_laws keccak.

Abbreviation node := (liveSink env benv).
Abbreviation block_at := (block_at proposer rlp_block rcv).
Abbreviation exec_ok := (exec_ok proposer rlp_block rcv).
Abbreviation executed_in := (executed_in proposer rlp_block rcv EmptyCodeHash evm DeriveSha CreateBloom).
Implicit Types k : node.

(** The world of the store, its height, and the bus log, when the node starts. *)
Context (W0 : world) (h0 : u64) (evs0 : list Event).
Context (Hresume : ∃ want, cf_Resume cfg = Some (MkAnchor h0 want)).
Context (Hevs0 : (Z.of_nat (length evs0) < 2 ^ 63)%Z).

(** The executor as the shared handle makes it. *)
Definition node_exec k : Exec (DB env) := set_xdb (ls_ex k) (ls_db k).

(** Before the sink is made: nothing is unfinalized, and the store has the
    world [W0] from the resume height on. *)
Record live_start k : Prop := {
  ls_sink : sink_inv keccak (t_sink (ls_tracker k)) W0 h0 evs0;
  ls_empty : sk_layers (t_sink (ls_tracker k)) = [];
  ls_exec : exec_ok (node_exec k) ∅ W0 [] h0;
  ls_pending : x_pending (ls_ex k) = ∅;
  ls_dry : x_dryBase (ls_ex k) = None;
  ls_served (B : u64) : (h0 ≤ B)%Z → db_serves keccak (ls_db k) B W0
}.

(** While the engine follows a chain: [acc] are the accepted batches, [evs] the
    events published.  The store answers, at every height, the world after the
    accepted batches up to there. *)
Record live_ok k (l : list sink_event) (h : u64) (hash hash0 : Hash) (acc : list Batch) (evs : list Event) : Prop := {
  lo_tracks : tracks (ls_tracker k) l h hash;
  lo_start : block_at h0 hash0;
  lo_tip : block_at h hash;
  lo_accepts : accepts l acc;
  lo_chain : extends h0 hash0 acc h hash;
  lo_sink : sink_inv keccak (t_sink (ls_tracker k)) (apply_batches W0 acc) h evs;
  lo_layers b : b ∈ sk_layers (t_sink (ls_tracker k)) → SVerified b ∈ l;
  lo_stack b : b ∈ t_stack (ls_tracker k) → SVerified b ∈ l;
  lo_stackx : ∃ n x, extends h hash (t_stack (ls_tracker k)) n x;
  lo_table hh b : t_table (ls_tracker k) !! hh = Some b → SVerified b ∈ l;
  lo_exec : exec_ok (node_exec k) (t_table (ls_tracker k)) (apply_batches W0 acc) [] h;
  lo_dry : x_dryBase (ls_ex k) = None;
  lo_executed : executed_in W0 h0 hash0 l;
  lo_served (B : u64) : (h0 ≤ B)%Z → db_serves keccak (ls_db k) B (world_at W0 acc B);
  lo_archived b : b ∈ acc → db_archives (ls_db k) (Block b) (Some b);
  lo_mark b : last acc = Some b → rows (ls_db k) !! MetaFinalized = Some (beBytes (Block b))
}.

Definition live_inv k l h hash : Prop :=
  good_run l → ∃ hash0 acc evs, live_ok k l h hash hash0 acc evs ∧ length evs ≤ length evs0 + 2 * length l.

(** *** Executing *)

Lemma xv_account_env (d : DB env) ls a : db_env (xv_account d ls a).2 = db_env d.
Proof.
  induction ls as [|ly ls IH]; cbn [xv_account]; [apply GetAccount_env|]. destruct (xl_accounts ly !! a); [done|].
  by case_bool_decide.
Qed.

Lemma xv_slot_env (d : DB env) ls a s : db_env (xv_slot d ls a s).2 = db_env d.
Proof.
  induction ls as [|ly ls IH]; cbn [xv_slot]; [apply GetSlot_env|]. destruct (xl_slots ly !! _); [done|].
  by case_bool_decide.
Qed.

Lemma run_evm_env {A} (d : DB env) ls hs (p : lib_prog A) :
  db_env (run_evm EmptyCodeHash d ls hs p).2 = db_env d.
Proof.
  revert d. induction p as [r|a k IH|a key k IH|hh k IH|hh n k IH]; intros d; cbn [run_evm]; [done|..].
  - pose proof (xv_account_env d ls a) as He. destruct (xv_account d ls a) as [r d']. cbn [snd] in He.
    rewrite <-He. apply IH.
  - destruct (st_GetStorage_key key) as [slot|]; [|apply IH]. pose proof (xv_slot_env d ls a slot) as He.
    destruct (xv_slot d ls a slot) as [r d']. cbn [snd] in He. rewrite <-He. apply IH.
  - apply IH.
  - apply IH.
Qed.

Lemma exec_Execute_env fuel (x : Exec (DB env)) parent hd (body : Body) r x' :
  exec_Execute EmptyCodeHash evm DeriveSha CreateBloom fuel x parent hd body = (r, x') →
  db_env (x_db x') = db_env (x_db x).
Proof.
  unfold exec_Execute. destruct (exec_run _ _ _ _ _ _ _) as [r1 x1] eqn:Er.
  assert (db_env (x_db x1) = db_env (x_db x)) as He.
  { revert Er. unfold exec_run. destruct (x_headers x !! parent); [|by intros [= _ <-]].
    case_bool_decide; [by intros [= _ <-]|]. destruct (viewAt _ _ _) as [ls|]; [|by intros [= _ <-]].
    pose proof (run_evm_env (x_db x) ls (GetHeader x) (evm h hd body)) as Hd.
    destruct (run_evm _ _ _ _ _) as [r0 d]. intros [= _ <-]. exact Hd. }
  destruct r1 as [[[ops gas] rc]|]; [|by intros [= _ <-]].
  repeat (case_bool_decide; [by intros [= _ <-]|]). by intros [= _ <-].
Qed.

(** A handle with other caches. *)
Lemma put_db_tracks (t : Tracker (Sink env benv)) (d : DB env) l h hash : tracks t l h hash → tracks (put_db t d) l h hash.
Proof. intros [[] ? ? ?]. split; [by split|done..]. Qed.

Lemma put_db_sink (s : Sink env benv) d W h evs :
  sink_inv keccak s W h evs → db_env d = db_env (s_db (sk_st s)) → db_serves keccak d Latest W →
  sink_inv keccak (MkSink (set_db (sk_st s) d) (sk_bus s) (sk_pending s)) W h evs.
Proof.
  intros [Hm Hf Hb Hmi Hp Hc] He Hs. split; try done; cbn.
  - by apply coherent_db.
  - unfold rows in *. by rewrite He.
Qed.

Abbreviation Execute := (live_Execute keccak EmptyCodeHash evm DeriveSha CreateBloom).
Abbreviation good_log := (good_log cfg proposer rlp_block rcv).

Lemma live_Execute_law k parent (blk : EthBlock Body) b k' :
  Execute k parent blk = (Ok b, k') → Block b = eb_Number blk ∧ BHash b = eb_Hash blk ∧ Parent b = parent.
Proof.
  unfold live_Execute. destruct (exec_Execute _ _ _ _ _ _ _ _ _) as [r x] eqn:Ex. intros [= -> _].
  eapply (ex_Execute_law (H:=exec_executor EmptyCodeHash evm DeriveSha CreateBloom _)
    (ExecutorLaws:=exec_executor_laws EmptyCodeHash evm DeriveSha CreateBloom _)). exact Ex.
Qed.

Lemma good_parsed l h hash b : good_log l h hash → SVerified b ∈ l → of_parsed proposer rlp_block rcv b.
Proof. intros (h1 & hash1 & _ & Hfo). by eapply follows_verified. Qed.

(** A verified batch above the accepted height is in the table. *)
Lemma in_table k l h hash hash0 acc evs b :
  good_run l → live_ok k l h hash hash0 acc evs → SVerified b ∈ l → (h < Block b)%Z →
  t_table (ls_tracker k) !! BHash b = Some b.
Proof.
  intros Hr Hk Hb Hlt. destruct (tk_table _ _ _ _ (lo_tracks _ _ _ _ _ _ _ Hk) b Hb Hlt) as (b' & Hb' & Hin & Hh).
  by rewrite (gr_same _ Hr b' b Hin Hb Hh) in Hb'.
Qed.

(** A chain of verified batches: its batches are in the table, above the
    accepted block, and different. *)
Lemma verified_chain k l h hash hash0 acc evs bs n x :
  good_run l → live_ok k l h hash hash0 acc evs → good_log l h hash →
  extends h hash bs n x → (∀ b, b ∈ bs → SVerified b ∈ l) →
  NoDup (BHash <$> bs) ∧
  ∀ b, b ∈ bs → (h < Block b)%Z ∧ t_table (ls_tracker k) !! BHash b = Some b ∧ BHash b ≠ hash.
Proof.
  intros Hr Hk Hgl He Hin.
  assert (∀ b, b ∈ bs → of_parsed proposer rlp_block rcv b) as HV by (intros b Hb; eapply good_parsed; [exact Hgl|by apply Hin]).
  split.
  - eapply (extends_nodup (of_parsed proposer rlp_block rcv)); [by apply parsed_first| |exact HV|exact He].
    intros b b' (_ & c & Hc & -> & -> & ->) (_ & c' & Hc' & -> & -> & ->). by apply (eth_headers_hashes proposer rlp_block rcv Heth).
  - intros b Hb.
    assert (h < Block b)%Z as Hlt
      by (by eapply (extends_above (of_parsed proposer rlp_block rcv)); [apply parsed_first|exact HV|exact He|]).
    split_and!; [done|by eapply in_table; [|exact Hk|apply Hin|]|]. intros Heq.
    pose proof (batch_at proposer rlp_block rcv b (HV b Hb)) as Hat. rewrite Heq in Hat.
    rewrite (block_at_height _ _ _ Heth _ _ _ (lo_tip _ _ _ _ _ _ _ Hk) Hat) in Hlt. lia.
Qed.

Lemma next_above k l h hash hash0 acc evs bs n x b :
  live_ok k l h hash hash0 acc evs → good_log l h hash → extends h hash bs n x → (∀ b, b ∈ bs → SVerified b ∈ l) →
  of_parsed proposer rlp_block rcv b → Block b = u_add n (u64_lit 1) → Parent b = x → (h < Block b)%Z.
Proof.
  intros Hk Hgl He Hin Hb Hn Hp.
  eapply (extends_above (of_parsed proposer rlp_block rcv)); [by apply parsed_first
    | |exact (extends_snoc _ _ _ _ _ b He Hn Hp)|apply elem_of_app; right; left].
  intros b0 [Hb0| ->%list_elem_of_singleton]%elem_of_app; [|done]. eapply good_parsed; [exact Hgl|by apply Hin].
Qed.

Lemma no_store_fault : ¬ rd_faulty (db:=DB env).
Proof. intros Hf. apply Hnf. by left. Qed.

Lemma live_exec_step k l h hash bs n c b k' hash0 acc evs :
  good_run (l ++ [SVerified b]) → live_ok k l h hash hash0 acc evs → good_log l h hash → parsed proposer rlp_block rcv c →
  extends h hash bs n (eb_ParentHash (c_Eth c)) → (∀ b, b ∈ bs → SVerified b ∈ l) →
  eb_Number (c_Eth c) = u_add n (u64_lit 1) → uval (eb_Number (c_Eth c)) ≠ 0%Z → Execute k (eb_ParentHash (c_Eth c)) (c_Eth c) = (Ok b, k') →
  live_ok (live_Verified k' b) (l ++ [SVerified b]) h hash hash0 acc evs.
Proof.
  intros Hr' Hk Hgl Hc He Hin Hn Hnz Hex. pose proof (good_run_app _ _ Hr') as Hr.
  destruct (live_Execute_law _ _ _ _ _ Hex) as (HB & HH & HP).
  assert (of_parsed proposer rlp_block rcv b) as Hof by (split; [by rewrite HB|by exists c]).
  pose proof (next_above _ _ _ _ _ _ _ _ _ _ b Hk Hgl He Hin Hof ltac:(congruence) HP) as Hab.
  destruct (verified_chain _ _ _ _ _ _ _ _ _ _ Hr Hk Hgl He Hin) as (_ & Hch).
  revert Hex. unfold live_Execute. fold (node_exec k).
  destruct (exec_Execute _ _ _ _ _ (node_exec k) _ _ _) as [r x'] eqn:Ex. intros [= -> <-].
  pose proof (exec_Execute_env _ _ _ _ _ _ _ Ex) as Henv.
  destruct (exec_step _ _ _ EmptyCodeHash evm DeriveSha CreateBloom Heth (node_exec k) _ _ _ h hash bs n c b x' no_store_fault
    (lo_exec _ _ _ _ _ _ _ Hk) (lo_tip _ _ _ _ _ _ _ Hk) Hc He ltac:(intros; by apply Hch) ltac:(congruence) Ex)
    as (_ & Hx' & Hdry' & Hexd).
  pose proof (xi_store _ _ _ (eo_inv _ _ _ _ _ _ _ _ Hx')) as Hs'.
  destruct Hk as [Ht Hst Htip Hac Hec Hsi Hly Hsk Hsx Htb Hxo Hdry Hxd Hsv Har Hmk].
  assert (∀ b', SVerified b' ∈ l → SVerified b' ∈ l ++ [SVerified b]) as Hgrow by (intros; apply elem_of_app; by left).
  set (k2 := live_Verified _ b). assert (ls_db k2 = x_db x') as Hdb.
  { unfold k2, live_Verified, ls_db, Verified. cbn [ls_tracker]. by destruct (_ <=? _)%Z. }
  assert (cache_ok (x_db x')) as Hcache by (by destruct Hs' as (? & _ & ? & _)).
  split; rewrite ?Hdb; unfold k2; cbn [live_Verified ls_tracker ls_ex].
  - by apply tracks_verified, put_db_tracks.
  - done.
  - done.
  - by apply ac_verified.
  - done.
  - unfold Verified. destruct (_ <=? _)%Z; by apply put_db_sink.
  - intros b' Hb'. apply Hgrow, Hly. revert Hb'. unfold Verified. by destruct (_ <=? _)%Z.
  - intros b' Hb'. apply Hgrow, Hsk. revert Hb'. unfold Verified. by destruct (_ <=? _)%Z.
  - unfold Verified. by destruct (_ <=? _)%Z.
  - intros hh b'. unfold Verified. destruct (_ <=? _)%Z; cbn; [intros ?; by eapply Hgrow, Htb|].
    intros [[_ <-]|[_ ?]]%lookup_insert_Some; [apply elem_of_app; right; left|by eapply Hgrow, Htb].
  - unfold node_exec. fold k2. rewrite Hdb. unfold k2, Verified. cbn [live_Verified ls_ex ls_tracker t_finalizedHeight put_db set_sink].
    rewrite (tk_height _ _ _ _ Ht), (proj2 (Z.leb_gt _ _) Hab). by destruct x'.
  - by rewrite Hdry'.
  - apply (executed_add _ _ _ _ _ _ _ _ _ _ l b (acc ++ bs) n); [done| |intros y [Hy|Hy]%elem_of_app; [by eapply accepts_verified|by apply Hin]|].
    + rewrite HP. by eapply extends_app.
    + by rewrite apply_batches_app.
  - intros B HB'. by eapply db_serves_env, Hsv.
  - intros b' Hb'. specialize (Har b' Hb'). unfold db_archives, rows in *. by rewrite Henv.
  - intros b' Hb'. specialize (Hmk b' Hb'). unfold rows in *. by rewrite Henv.
Qed.

(** *** Publishing *)

Lemma same_by_hash l (bs bs' : list Batch) :
  same_batches l → (∀ b, b ∈ bs → SVerified b ∈ l) → (∀ b, b ∈ bs' → SVerified b ∈ l) →
  BHash <$> bs = BHash <$> bs' → bs = bs'.
Proof.
  intros Hs. revert bs'. induction bs as [|b bs IH]; intros [|b' bs'] Hb1 Hb2; cbn; try done.
  intros [= Hh He]. f_equal; [by apply Hs; [apply Hb1; left|apply Hb2; left|]|].
  apply IH; [intros; apply Hb1; by right|intros; apply Hb2; by right|done].
Qed.

Lemma stack_layers k l h hash hash0 acc evs :
  good_run l → live_ok k l h hash hash0 acc evs → sk_layers (t_sink (ls_tracker k)) = t_stack (ls_tracker k).
Proof.
  intros Hr Hk. eapply same_by_hash; [apply Hr|by apply Hk|by apply Hk|].
  apply (ti_sink _ (tk_inv _ _ _ _ (lo_tracks _ _ _ _ _ _ _ Hk))).
Qed.

(** A log grown by another call. *)
Lemma live_log k l ev h hash hash0 acc evs :
  live_ok k l h hash hash0 acc evs → (∀ b, ev ≠ SVerified b) → accepts (l ++ [ev]) acc →
  live_ok k (l ++ [ev]) h hash hash0 acc evs.
Proof.
  intros [] Hev Hac. assert (∀ b, SVerified b ∈ l → SVerified b ∈ l ++ [ev]) as Hgrow by (intros; apply elem_of_app; by left).
  split; try done; [by apply tracks_log|eauto..|by apply executed_grow].
Qed.

(** A tracker with another stack, published. *)
Lemma live_published k l h hash hash0 acc evs t bs evs' :
  live_ok k l h hash hash0 acc evs → tracks t l h hash → t_table t = t_table (ls_tracker k) →
  (∀ b, b ∈ bs → SVerified b ∈ l) → (∃ n x, extends h hash bs n x) → t_stack t = bs → sk_layers (t_sink t) = bs →
  sink_inv keccak (t_sink t) (apply_batches W0 acc) h evs' →
  s_db (sk_st (t_sink t)) = ls_db k → live_ok (MkLiveSink t (ls_ex k)) l h hash hash0 acc evs'.
Proof.
  intros [] Ht Htab Hin Hsx Hst Hly Hsi Hdb.
  assert (ls_db (MkLiveSink t (ls_ex k)) = ls_db k) as Hdb' by done.
  split; rewrite ?Hdb'; cbn [ls_tracker ls_ex]; rewrite ?Htab, ?Hst, ?Hly; try done.
  unfold node_exec in *. by rewrite Hdb'.
Qed.

Lemma Sink_Block_db (s : Sink env benv) b : s_db (sk_st (Sink_Block s b).2) = s_db (sk_st s).
Proof. unfold Sink_Block. by destruct (PublishBlock _ _). Qed.

Lemma Sink_Reset_db (s : Sink env benv) bs : s_db (sk_st (Sink_PreferenceReset s bs).2) = s_db (sk_st s).
Proof.
  unfold Sink_PreferenceReset. destruct (PublishReset _ _) as [r bus]. cbn [snd sk_st].
  destruct (push_layers (set_layers (lockAndDrain (sk_st s)) []) bs) as (_ & Hd & _). unfold PreferenceReset. by rewrite Hd.
Qed.

(** The base world has no slots of removed accounts. *)
Lemma base_live k l h hash hash0 acc evs : live_ok k l h hash hash0 acc evs → live (apply_batches W0 acc).
Proof. intros Hk. apply (coh_live _ _ _ (si_mem _ _ _ _ _ (lo_sink _ _ _ _ _ _ _ Hk)) 0). Qed.

Lemma run_events l (evs : list Event) :
  good_run l → length evs ≤ length evs0 + 2 * length l → (Z.of_nat (length evs) + 1 < 2 ^ 64)%Z.
Proof. intros Hr Hl. pose proof (gr_short _ Hr). lia. Qed.

(** The stack is replaced by a chain of verified batches. *)
Lemma live_reset k l h hash hash0 acc evs bs n x :
  good_run l → live_ok k l h hash hash0 acc evs → good_log l h hash → (Z.of_nat (length evs) + 1 < 2 ^ 64)%Z →
  extends h hash bs n x → (∀ b, b ∈ bs → SVerified b ∈ l) →
  ∃ s', Sink_PreferenceReset (t_sink (ls_tracker k)) bs = (Ok (), s') ∧ sk_layers s' = bs ∧
    sink_inv keccak s' (apply_batches W0 acc) h (evs ++ [EvReset bs]) ∧ s_db (sk_st s') = ls_db k.
Proof.
  intros Hr Hk Hgl Hev He Hin.
  destruct (verified_chain _ _ _ _ _ _ _ _ _ _ Hr Hk Hgl He Hin) as (Hnd & _).
  pose proof (Sink_Reset_step keccak _ _ _ _ bs (lo_sink _ _ _ _ _ _ _ Hk)
    (chain_layers l Hr _ _ _ (λ b, good_parsed _ _ _ b Hgl) h hash bs n x He Hin)
    (chain_live l Hr _ bs (base_live _ _ _ _ _ _ _ Hk) Hin) Hnd (chain_frames l Hr bs Hnd Hin) Hev) as Hs.
  pose proof (Sink_Reset_db (t_sink (ls_tracker k)) bs) as Hdb.
  destruct (Sink_PreferenceReset _ bs) as [[[]|er] s']; [|by destruct Hs]. destruct Hs as [Hsi Hly]. by exists s'.
Qed.

Lemma live_head_step k l h hash hash0 acc evs bs n x r k' :
  good_run l → live_ok k l h hash hash0 acc evs → good_log l h hash → (Z.of_nat (length evs) + 1 < 2 ^ 64)%Z →
  extends h hash bs n x → (∀ b, b ∈ bs → SVerified b ∈ l) → live_Head k x = (r, k') →
  ∃ evs', r = Ok () ∧ live_ok k' l h hash hash0 acc evs' ∧ length evs' ≤ length evs + 1.
Proof.
  intros Hr Hk Hgl Hev He Hin. destruct (verified_chain _ _ _ _ _ _ _ _ _ _ Hr Hk Hgl He Hin) as (Hnd & Hch).
  pose proof (lo_tracks _ _ _ _ _ _ _ Hk) as Ht. pose proof (stack_layers _ _ _ _ _ _ _ Hr Hk) as Hsl.
  assert (chainTo (S (size (t_table (ls_tracker k)))) (ls_tracker k) x = Ok bs) as Hc.
  { eapply (chainTo_chain _ h bs n); [by rewrite (tk_hash _ _ _ _ Ht)| |done].
    rewrite (tk_hash _ _ _ _ Ht). intros b Hb. by destruct (Hch b Hb) as (_ & ? & ?). }
  unfold live_Head. destruct (Head _ (ls_tracker k) x) as [r' t'] eqn:Eh. intros [= <- <-].
  pose proof Eh as Hh. unfold Head in Hh. rewrite Hc in Hh.
  destruct (sameChain bs (t_stack (ls_tracker k))) eqn:Esame.
  { injection Hh as <- <-. exists evs. split_and!; [done| |lia]. by destruct k. }
  destruct (_ && _) eqn:Eext; cbn [set_stack t_sink] in Hh.
  - apply andb_true_iff in Eext as [Hlen%Nat.eqb_eq Hpre%sameChain_spec].
    destruct (last bs) as [b|] eqn:Elast; [|by apply last_None in Elast as ->; cbn in Hlen; lia].
    apply last_Some in Elast as [pre Epre]. rewrite Epre in Hpre, Hlen. rewrite length_app in Hlen. cbn in Hlen.
    rewrite take_app_exact in Hpre by lia.
    assert (pre = sk_layers (t_sink (ls_tracker k))) as Hps.
    { rewrite Hsl. apply (same_by_hash l); [apply Hr| |by apply (lo_stack _ _ _ _ _ _ _ Hk)|done].
      intros b' ?. apply Hin. rewrite Epre. apply elem_of_app. by left. }
    pose proof (Sink_Block_step keccak _ _ _ _ b (lo_sink _ _ _ _ _ _ _ Hk)) as Hs. rewrite <-Hps, <-Epre in Hs.
    pose proof (Sink_Block_db (t_sink (ls_tracker k)) b) as Hdb. change sink_Block with (@Sink_Block env benv _) in Hh.
    destruct (Sink_Block _ b) as [rb s'].
    assert (match rb with Ok _ => sink_inv keccak s' (apply_batches W0 acc) h (evs ++ [EvBlock b]) ∧ sk_layers s' = bs
      | Err _ => any_fault (env:=env) (benv:=benv) ∧ coherent (sk_st s') (apply_batches W0 acc) 0 end) as Hs'.
    { apply Hs; [..|done].
      - by eapply (chain_layers l Hr _ _ _ (λ b, good_parsed _ _ _ b Hgl)); [exact He|].
      - pose proof (chain_live l Hr _ bs (base_live _ _ _ _ _ _ _ Hk) Hin (length bs)) as Hl. unfold stage in Hl.
        rewrite firstn_all, Epre, apply_batches_app, Hps in Hl. exact Hl.
      - intros b' Hb' Heq. rewrite Epre, fmap_app in Hnd. apply NoDup_app in Hnd as (_ & Hd & _).
        apply (Hd (BHash b')); [by apply list_elem_of_fmap_2|]. rewrite Heq. left.
      - by apply (chain_frames l Hr). }
    destruct rb as [[]|er]; [|by destruct Hs']. destruct Hs' as [Hsi Hly]. injection Hh as <- <-.
    exists (evs ++ [EvBlock b]). split_and!; [done| |rewrite length_app; cbn; lia].
    eapply live_published; [exact Hk|by eapply tracks_moved|done|exact Hin|by eauto|done|done|done|exact Hdb].
  - destruct (live_reset k l h hash hash0 acc evs bs n x Hr Hk Hgl Hev He Hin) as (s' & Hs & Hly & Hsi & Hdb).
    change sink_PreferenceReset with (@Sink_PreferenceReset env benv _) in Hh. rewrite Hs in Hh. injection Hh as <- <-.
    exists (evs ++ [EvReset bs]). split_and!; [done| |rewrite length_app; cbn; lia].
    eapply live_published; [exact Hk|by eapply tracks_moved|done|exact Hin|by eauto|done|done|done|exact Hdb].
Qed.

(** *** Accepting *)

(** The oldest published block is made the accepted one. *)
Lemma live_reset_to k l h hash hash0 acc evs b :
  good_run l → live_ok k l h hash hash0 acc evs → good_log l h hash → (Z.of_nat (length evs) + 1 < 2 ^ 64)%Z →
  SVerified b ∈ l → Block b = u_add h (u64_lit 1) → Parent b = hash →
  ∃ t bs evs', reset_to (ls_tracker k) (BHash b) = (Ok (), t) ∧ live_ok (MkLiveSink t (ls_ex k)) l h hash hash0 acc evs' ∧
    t_table t = t_table (ls_tracker k) ∧ sk_layers (t_sink t) = b :: bs ∧ length evs' ≤ length evs + 1.
Proof.
  intros Hr Hk Hgl Hev Hb Hn Hp.
  assert (extends h hash [b] (Block b) (BHash b)) as He by (by cbn).
  assert (∀ b', b' ∈ [b] → SVerified b' ∈ l) as Hin by (by intros b' ->%list_elem_of_singleton).
  destruct (verified_chain _ _ _ _ _ _ _ _ _ _ Hr Hk Hgl He Hin) as (_ & Hch).
  destruct (Hch b ltac:(left)) as (_ & Htab & _).
  pose proof (lo_tracks _ _ _ _ _ _ _ Hk) as Ht. pose proof (stack_layers _ _ _ _ _ _ _ Hr Hk) as Hsl.
  destruct (reset_to (ls_tracker k) (BHash b)) as [r t] eqn:Er. pose proof Er as Hre. unfold reset_to in Hre.
  destruct (match t_stack (ls_tracker k) with [] => true | b0 :: _ => _ end) eqn:Est; cycle 1.
  { injection Hre as <- <-. destruct (t_stack (ls_tracker k)) as [|b0 bs] eqn:Estk; [done|].
    apply bool_decide_eq_false, dec_stable in Est.
    assert (b0 = b) as ->.
    { apply (gr_same _ Hr); [|done|done]. apply (lo_stack _ _ _ _ _ _ _ Hk). rewrite Estk. left. }
    exists (ls_tracker k), bs, evs. split_and!; [done|by destruct k|done|congruence|lia]. }
  rewrite Htab, bool_decide_false in Hre by (rewrite (tk_hash _ _ _ _ Ht); by intros Hx).
  destruct (live_reset k l h hash hash0 acc evs [b] _ _ Hr Hk Hgl Hev He Hin) as (s' & Hs & Hly & Hsi & Hdb).
  cbn [set_stack t_sink] in Hre. change sink_PreferenceReset with (@Sink_PreferenceReset env benv _) in Hre.
  rewrite Hs in Hre. injection Hre as <- <-. eexists _, [], (evs ++ [EvReset [b]]).
  split_and!; [done| |done|exact Hly|rewrite length_app; cbn; lia].
  eapply live_published; [exact Hk|by eapply tracks_reset|done|exact Hin|by eauto|done|done|done|exact Hdb].
Qed.

Lemma live_accept_step k l h hash hash0 acc evs b r k' :
  good_run l → live_ok k l h hash hash0 acc evs → good_log l h hash → (Z.of_nat (length evs) + 2 < 2 ^ 64)%Z →
  SVerified b ∈ l → Block b = u_add h (u64_lit 1) → Parent b = hash → live_Accepted k (Block b) (BHash b) = (r, k') →
  ∃ evs', r = Ok () ∧ live_ok k' (l ++ [SAccepted (Block b) (BHash b)]) (Block b) (BHash b) hash0 (acc ++ [b]) evs' ∧
    length evs' ≤ length evs + 2.
Proof.
  intros Hr Hk Hgl Hev Hb Hn Hp.
  pose proof (next_height (of_parsed proposer rlp_block rcv) (parsed_first _ _ _) h b (good_parsed _ _ _ b Hgl Hb) Hn) as Hnext.
  assert (h < Block b)%Z as Hlt by lia.
  pose proof (in_table _ _ _ _ _ _ _ b Hr Hk Hb Hlt) as Htabb.
  destruct (live_reset_to k l h hash hash0 acc evs b Hr Hk Hgl ltac:(lia) Hb Hn Hp) as (t & bs & evs1 & Hre & Hk1 & Htab & Hly & Hlen).
  destruct (live_Accepted k (Block b) (BHash b)) as [r0 k0] eqn:Ea. intros [= <- <-].
  unfold live_Accepted in Ea. destruct (Accepted (ls_tracker k) _ _) as [ra ta] eqn:Eac.
  pose proof Eac as Hac. unfold Accepted in Hac. rewrite Hre in Hac.
  pose proof (Sink_Finalize_step keccak (t_sink t) _ h evs1 b bs (lo_sink _ _ _ _ _ _ _ Hk1) Hly ltac:(lia)) as Hf.
  change sink_Finalize with (@Sink_Finalize env benv _ _) in Hac.
  destruct (Sink_Finalize (t_sink t) (Block b) (BHash b)) as [rf s'] eqn:Ef.
  destruct rf as [[]|er]; [|by destruct Hf]. destruct Hf as (Hsi & Hly' & _ & Hmark & Harch).
  injection Hac as <- <-. injection Ea as <- <-. exists (evs1 ++ [EvFinalize (Block b) (BHash b)]).
  split_and!; [done| |rewrite length_app; cbn; lia].
  assert (sk_pending (t_sink t) !! BHash b = Some b) as Hpd.
  { apply (si_pending _ _ _ _ _ (lo_sink _ _ _ _ _ _ _ Hk1)). cbn [ls_tracker]. rewrite Hly. left. }
  destruct (Sink_Finalize_store _ _ _ _ b Ef Hpd) as (d1 & Hw & Hset).
  destruct (gr_batch _ Hr b Hb) as (Hcon & [Henc _] & _).
  destruct (final_reads keccak (s_db (sk_st (t_sink t))) h b d1 _
    (ex_intro _ _ (xi_store _ _ _ (eo_inv _ _ _ _ _ _ _ _ (lo_exec _ _ _ _ _ _ _ Hk1))))
    (si_fresh _ _ _ _ _ (lo_sink _ _ _ _ _ _ _ Hk1)) Hlt Henc Hcon Hw Hset) as [Hreads Hkeep].
  assert (apply_batches W0 (acc ++ [b]) = apply_batch (apply_batches W0 acc) b) as HW by (apply apply_batches_app).
  assert (∀ b', SVerified b' ∈ l → SVerified b' ∈ l ++ [SAccepted (Block b) (BHash b)]) as Hgrow by (intros; apply elem_of_app; by left).
  assert (∀ b', b' ∈ acc → (Block b' < Block b)%Z) as Hbelow.
  { intros b' Hb'. eapply Z.le_lt_trans; [|exact Hlt].
    eapply (extends_below (of_parsed proposer rlp_block rcv)); [by apply parsed_first
      | |exact (lo_chain _ _ _ _ _ _ _ Hk)|exact Hb'].
    intros y Hy. eapply good_parsed; [exact Hgl|]. by eapply accepts_verified; [apply Hk|]. }
  split; cbn [ls_tracker ls_ex t_sink t_table t_stack]; rewrite ?HW.
  - eapply (tracks_accepted (of_parsed proposer rlp_block rcv)); [| |exact (lo_tracks _ _ _ _ _ _ _ Hk)|by intros; eapply good_parsed|by eapply good_parsed|done|].
    + apply parsed_first.
    + intros b1 b2 (_ & c & Hc & -> & -> & ->) (_ & c' & Hc' & -> & -> & ->). by apply (eth_headers_hashes _ _ _ Heth).
    + exact Eac.
  - apply Hk.
  - apply batch_at. by eapply good_parsed.
  - apply ac_accepted; [apply Hk|done].
  - eapply extends_snoc; [apply Hk|done|done].
  - exact Hsi.
  - intros b' Hb'. cbn [set_sink t_sink] in Hb'. rewrite Hly' in Hb'. apply Hgrow, (lo_layers _ _ _ _ _ _ _ Hk1). cbn [ls_tracker]. rewrite Hly. by right.
  - intros b' Hb'. apply Hgrow, (lo_stack _ _ _ _ _ _ _ Hk1). cbn in *. by destruct (t_stack t); [|right].
  - destruct (lo_stackx _ _ _ _ _ _ _ Hk1) as (n & x & Hsx). pose proof (stack_layers _ _ _ _ _ _ _ Hr Hk1) as Hsl.
    cbn [ls_tracker] in Hsl, Hsx. rewrite <-Hsl, Hly in Hsx. cbn. rewrite <-Hsl, Hly. exists n, x. by apply Hsx.
  - intros hh b' [Hb' _]%map_lookup_filter_Some. eapply Hgrow, (lo_table _ _ _ _ _ _ _ Hk1). exact Hb'.
  - pose proof (finalized_step _ _ _ Heth (node_exec k) _ _ h hash b (s_db (sk_st s')) (lo_exec _ _ _ _ _ _ _ Hk)
      (lo_dry _ _ _ _ _ _ _ Hk) (lo_tip _ _ _ _ _ _ _ Hk) Hp Htabb (coh_store _ _ _ (si_mem _ _ _ _ _ Hsi))) as Hx.
    rewrite <-Htab in Hx. exact Hx.
  - apply Hk.
  - apply executed_grow; [apply Hk|done].
  - intros B HB. unfold ls_db. cbn. rewrite world_at_snoc. apply Hreads, (lo_served _ _ _ _ _ _ _ Hk1 B HB).
  - intros b' [Hb'| ->%list_elem_of_singleton]%elem_of_app; [|exact Harch].
    apply Hkeep; [|by apply (lo_archived _ _ _ _ _ _ _ Hk1)]. intros Heq. specialize (Hbelow b' Hb'). rewrite Heq in Hbelow. lia.
  - intros b'. rewrite last_snoc. intros [= <-]. exact Hmark.
Qed.

(** *** Starting *)

Lemma live_seed k hs :
  live_start k → (∀ hd, hd ∈ hs → ∃ c, parsed proposer rlp_block rcv c ∧ hd = eb_Header (c_Eth c)) →
  live_start (MkLiveSink (ls_tracker k) (SeedHeaders (ls_ex k) hs)).
Proof.
  intros [Hs He [[Hst Hd _ _ _] _ _ Hh] Hp Hdry Hsv] Hhs. cbn in Hst, Hd, Hh.
  assert (x_pending (SeedHeaders (ls_ex k) hs) = ∅) as Hp' by done.
  split; try done. split; [split; try done|by intros ??|..]; cbn [node_exec ls_ex set_xdb x_pending x_headers];
    try (intros hh ly; rewrite Hp'; by intros ?%lookup_empty_Some). by apply seeded_headers.
Qed.

Lemma live_made k (h : u64) hash :
  live_start k → start_ok cfg h hash → block_at h hash → live_inv (live_make k h hash).2 [SMake h hash] h hash.
Proof.
  intros [Hs He Hx Hp Hdry Hsv] Hst Hat _.
  assert (h = h0) as ->.
  { destruct Hresume as [want Hw]. unfold start_ok in Hst. rewrite Hw in Hst. by destruct Hst as [-> _]. }
  exists hash, [], evs0. split; [|cbn; lia].
  split; cbn [live_make snd ls_tracker ls_ex NewTracker t_sink t_table t_stack]; try done.
  - by apply tracks_make.
  - apply ac_start.
  - rewrite He. by intros b ?%elem_of_nil.
  - by intros b ?%elem_of_nil.
  - by exists h0, hash.
  - by intros b [=]%list_elem_of_singleton.
  - by intros b ?%elem_of_nil.
Qed.

(** ** The node under the engine *)

Lemma live_sink_ok (FF : error → Prop) :
  (∀ k parent (blk : EthBlock Body) er k', Execute k parent blk = (Err er, k') → FF er) →
  sink_ok (HK:=live_sink) (HX:=live_executor keccak EmptyCodeHash evm DeriveSha CreateBloom) cfg proposer rlp_block rcv
    (λ l er, good_run l → FF er) live_start live_inv.
Proof.
  intros HX. split; cbn [es_Make es_Verified es_Head es_Accepted live_sink ex_Execute ex_SeedHeaders live_executor].
  - intros k hs Hk Hhs. by apply live_seed.
  - intros k h hash r k' Hk Hst Hat [= <- <-]. by apply live_made.
  - intros k l h hash bs n c r k' Hk Hgl Hc He Hin Hn Hnz Hex. destruct r as [b|er]; [|intros _; by eapply HX].
    intros Hr'. pose proof (good_run_app _ _ Hr') as Hr. destruct (Hk Hr) as (hash0 & acc & evs & Hok & Hlen).
    exists hash0, acc, evs. split; [by eapply live_exec_step|]. rewrite length_app. cbn. lia.
  - intros k l h hash bs n x r k' Hk Hgl He Hin Hh.
    assert (good_run (l ++ [SHead x]) → ∃ hash0 acc evs, r = Ok () ∧ live_ok k' l h hash hash0 acc evs ∧
      length evs ≤ length evs0 + 2 * length l + 1) as Hs.
    { intros Hr'. pose proof (good_run_app _ _ Hr') as Hr. destruct (Hk Hr) as (hash0 & acc & evs & Hok & Hlen).
      pose proof (run_events _ _ Hr Hlen).
      destruct (live_head_step _ _ _ _ _ _ _ _ _ _ _ _ Hr Hok Hgl ltac:(done) He Hin Hh) as (evs' & -> & Hok' & Hlen').
      exists hash0, acc, evs'. split_and!; [done|done|lia]. }
    destruct r as [[]|er]; [|by intros (? & ? & ? & [=] & _)%Hs].
    intros Hr'. destruct (Hs Hr') as (hash0 & acc & evs & _ & Hok & Hlen). exists hash0, acc, evs.
    split; [apply live_log; [done|done|by apply ac_head, Hok]|]. rewrite length_app. cbn. lia.
  - intros k l h hash b r k' Hk Hgl Hb Hn Hp Ha.
    assert (good_run (l ++ [SAccepted (Block b) (BHash b)]) → ∃ hash0 acc evs, r = Ok () ∧
      live_ok k' (l ++ [SAccepted (Block b) (BHash b)]) (Block b) (BHash b) hash0 (acc ++ [b]) evs ∧
      length evs ≤ length evs0 + 2 * length l + 2) as Hs.
    { intros Hr'. pose proof (good_run_app _ _ Hr') as Hr. destruct (Hk Hr) as (hash0 & acc & evs & Hok & Hlen).
      pose proof (gr_short _ Hr) as Hsh.
      destruct (live_accept_step _ _ _ _ _ _ _ _ _ _ Hr Hok Hgl ltac:(lia) Hb Hn Hp Ha) as (evs' & -> & Hok' & Hlen').
      exists hash0, acc, evs'. split_and!; [done|done|lia]. }
    destruct r as [[]|er]; [|by intros (? & ? & ? & [=] & _)%Hs].
    intros Hr'. destruct (Hs Hr') as (hash0 & acc & evs & _ & Hok & Hlen). exists hash0, (acc ++ [b]), evs.
    split; [done|]. rewrite length_app. cbn. lia.
Qed.
End live_node.
