(* ===== verification/FollowerDry.v ===== *)
(** * FollowerDry: the dry run under the engine

    What [sink_ok] asks of a node, for the dry run, with an executor over a
    read-only store or without one: an accepted block is always one of the kept
    batches, and the executor's folded base is the accepted chain, so that blocks
    execute on the world of their own chain although the store stays behind. *)

From S2P Require Import Prelude Schema Capture World Store StoreRead Reader Exec ExecProof Node TrackerProof.
From S2P Require Import ConsensusState Consensus ConsensusInv ConsensusTracker Follower FollowerLog FollowerExec.

Section dry_node.
Context {db : Type} `{ReaderLaws db}.
Context {Body Receipts : Type} (EmptyCodeHash : Hash) (evm : Header → Header → Body → evm_prog Receipts).
Context (DeriveSha : Receipts → Hash) (CreateBloom : Receipts → bytes).
Context (cfg : Config).
Context (proposer : bytes → option (Hash * Hash * bytes)) (rlp_block : bytes → option (EthBlock Body)).
Context (rcv : list bytes).
Context (Heth : eth_headers_ok proposer rlp_block rcv).
Context (Hnf : ¬ rd_faulty (db:=db)) (W0 : world).

Abbreviation node := (drySink db).
Abbreviation block_at := (block_at proposer rlp_block rcv).
Abbreviation exec_ok := (exec_ok proposer rlp_block rcv).
Abbreviation executed_in := (executed_in proposer rlp_block rcv EmptyCodeHash evm DeriveSha CreateBloom).
Abbreviation Execute := (dry_Execute EmptyCodeHash evm DeriveSha CreateBloom).
Implicit Types k : node.

(** An executor that has not run, over a store whose world is [W0]. *)
Definition dry_start k : Prop :=
  match ds_ex k with
  | Some x => serves (x_db x) Latest W0 ∧ x_pending x = ∅ ∧ x_dryBase x = None ∧
      ∀ hh hd, x_headers x !! hh = Some hd → ∃ c, parsed proposer rlp_block rcv c ∧ hd = eb_Header (c_Eth c) ∧ hd_Hash hd = hh
  | None => True
  end.

Record dry_ok k (l : list sink_event) (h : u64) (hash : Hash) (h0 : u64) (hash0 : Hash) (acc : list Batch) : Prop := {
  do_resume : start_ok cfg h0 hash0;
  do_start : block_at h0 hash0;
  do_tip : block_at h hash;
  do_accepts : accepts l acc;
  do_chain : extends h0 hash0 acc h hash;
  do_table b : SVerified b ∈ l → (h < Block b)%Z → ds_batches k !! BHash b = Some b;
  do_exec x : ds_ex k = Some x → exec_ok x (ds_batches k) W0 acc h;
  do_executed : is_Some (ds_ex k) → executed_in W0 h0 hash0 l
}.

Definition dry_inv k l h hash : Prop := same_batches l → ∃ h0 hash0 acc, dry_ok k l h hash h0 hash0 acc.

Lemma same_app l ev : same_batches (l ++ [ev]) → same_batches l.
Proof. apply same_batches_mono. by apply prefix_app_r. Qed.

Lemma dry_Execute_law k parent (blk : EthBlock Body) b k' :
  Execute k parent blk = (Ok b, k') →
  Block b = eb_Number blk ∧ BHash b = eb_Hash blk ∧ Parent b = parent ∧ ds_batches k' = ds_batches k ∧
  (is_Some (ds_ex k') ↔ is_Some (ds_ex k)).
Proof.
  unfold dry_Execute. destruct (ds_ex k) as [x|] eqn:Ed.
  - destruct (exec_Execute _ _ _ _ _ _ _ _ _) as [r x'] eqn:Ex. intros [= -> <-]. cbn [ds_batches ds_ex].
    destruct (ex_Execute_law (H:=exec_executor EmptyCodeHash evm DeriveSha CreateBloom _)
      (ExecutorLaws:=exec_executor_laws EmptyCodeHash evm DeriveSha CreateBloom _) x parent blk b x' Ex) as (? & ? & ?).
    split_and!; [done..|]. split; eauto.
  - intros [= <- <-]. by rewrite Ed.
Qed.

Abbreviation good_log := (good_log cfg proposer rlp_block rcv).

Lemma dry_parsed l h hash b : good_log l h hash → SVerified b ∈ l → of_parsed proposer rlp_block rcv b.
Proof. intros (h1 & hash1 & _ & Hfo). by eapply follows_verified. Qed.

Lemma dry_exec_step k l h hash bs n c b k' h0 hash0 acc :
  same_batches (l ++ [SVerified b]) → dry_ok k l h hash h0 hash0 acc → good_log l h hash → parsed proposer rlp_block rcv c →
  extends h hash bs n (eb_ParentHash (c_Eth c)) → (∀ b, b ∈ bs → SVerified b ∈ l) →
  eb_Number (c_Eth c) = u_add n (u64_lit 1) → uval (eb_Number (c_Eth c)) ≠ 0%Z → Execute k (eb_ParentHash (c_Eth c)) (c_Eth c) = (Ok b, k') →
  dry_ok (dry_Verified k' b) (l ++ [SVerified b]) h hash h0 hash0 acc.
Proof.
  intros Hs' [Hsk Hst Htip Hac Hec Htb Hx Hxd] Hgl Hc He Hin Hn Hnz Hex.
  destruct (dry_Execute_law _ _ _ _ _ Hex) as (HB & HH & HP & Hbat & Hsome).
  assert (of_parsed proposer rlp_block rcv b) as Hof by (split; [by rewrite HB|by exists c]).
  assert (∀ b', b' ∈ bs → of_parsed proposer rlp_block rcv b') as HV by (intros; eapply dry_parsed; [exact Hgl|by apply Hin]).
  pose proof (λ b, extends_above (of_parsed proposer rlp_block rcv) (parsed_first _ _ _) h hash bs n _ b HV He) as Habove.
  assert (h < Block b)%Z as Hab.
  { pose proof (extends_le (of_parsed proposer rlp_block rcv) (parsed_first _ _ _) h hash bs n _ HV He) as Hle.
    pose proof (next_height _ (parsed_first proposer rlp_block rcv) n b Hof ltac:(congruence)). lia. }
  split; cbn [dry_Verified ds_batches ds_ex]; rewrite ?Hbat; try done.
  - by apply ac_verified.
  - intros b' Hb' Hlt. destruct (decide (BHash b' = BHash b)) as [Heq|Hne].
    + rewrite Heq, lookup_insert_eq. f_equal. symmetry. apply Hs'; [done|apply elem_of_app; right; left|done].
    + rewrite lookup_insert_ne by done. apply elem_of_app in Hb' as [Hb'|[= ->]%list_elem_of_singleton]; [by apply Htb|done].
  - intros x' Hx'. destruct (ds_ex k) as [x|] eqn:Ed; [|by destruct (proj1 Hsome ltac:(eauto))].
    unfold dry_Execute in Hex. rewrite Ed in Hex. destruct (exec_Execute _ _ _ _ _ _ _ _ _) as [r x1] eqn:Ex.
    injection Hex as -> <-. cbn in Hx'. injection Hx' as <-.
    by destruct (exec_step _ _ _ EmptyCodeHash evm DeriveSha CreateBloom Heth x _ _ _ h hash bs n c b x1 Hnf
      (Hx x eq_refl) Htip Hc He ltac:(auto) ltac:(congruence) Ex) as (_ & ? & _).
  - intros Hsm%Hsome. destruct (ds_ex k) as [x|] eqn:Ed; [|by destruct Hsm].
    unfold dry_Execute in Hex. rewrite Ed in Hex. destruct (exec_Execute _ _ _ _ _ _ _ _ _) as [r x1] eqn:Ex.
    injection Hex as -> <-.
    destruct (exec_step _ _ _ EmptyCodeHash evm DeriveSha CreateBloom Heth x _ _ _ h hash bs n c b x1 Hnf
      (Hx x eq_refl) Htip Hc He ltac:(auto) ltac:(congruence) Ex) as (_ & _ & _ & Hexd).
    apply (executed_add _ _ _ _ _ _ _ _ _ _ l b (acc ++ bs) n); [by apply Hxd| | |].
    + rewrite HP. by eapply extends_app.
    + intros y [Hy|Hy]%elem_of_app; [by eapply accepts_verified|by apply Hin].
    + by rewrite apply_batches_app.
Qed.

Lemma dry_accept_step k l h hash b r k' h0 hash0 acc :
  same_batches l → dry_ok k l h hash h0 hash0 acc → good_log l h hash → SVerified b ∈ l →
  Block b = u_add h (u64_lit 1) → Parent b = hash → dry_Accepted k (Block b) (BHash b) = (r, k') →
  r = Ok () ∧ dry_ok k' (l ++ [SAccepted (Block b) (BHash b)]) (Block b) (BHash b) h0 hash0 (acc ++ [b]).
Proof.
  intros Hsame [Hsk Hst Htip Hac Hec Htb Hx Hxd] Hgl Hb Hn Hp.
  assert (h < Block b)%Z as Hlt by (pose proof (next_height _ (parsed_first proposer rlp_block rcv) h b (dry_parsed _ _ _ b Hgl Hb) Hn); lia).
  pose proof (Htb b Hb Hlt) as Hbt. unfold dry_Accepted. rewrite Hbt. intros [= <- <-]. split; [done|].
  split; cbn [ds_batches ds_ex]; try done.
  - apply batch_at. by eapply dry_parsed.
  - by apply ac_accepted.
  - by eapply extends_snoc.
  - intros b' [Hb'|[=]%list_elem_of_singleton]%elem_of_app Hgt. apply map_lookup_filter_Some.
    split; [apply Htb; [done|lia]|cbn; lia].
  - intros x' Hx'. destruct (ds_ex k) as [x|]; [|done]. cbn in Hx'. injection Hx' as <-. eapply folded_step; [exact Heth|by apply Hx|exact Htip|done|done].
  - intros Hsm. apply executed_grow; [|done]. apply Hxd. destruct (ds_ex k); [by eauto|by destruct Hsm].
Qed.

Lemma dry_sink_ok (FF : error → Prop) :
  (∀ k parent (blk : EthBlock Body) er k', Execute k parent blk = (Err er, k') → FF er) →
  sink_ok (HK:=dry_sink) (HX:=dry_executor EmptyCodeHash evm DeriveSha CreateBloom) cfg proposer rlp_block rcv
    (λ l er, same_batches l → FF er) dry_start dry_inv.
Proof.
  intros HX. split; cbn [es_Make es_Verified es_Head es_Accepted dry_sink ex_Execute ex_SeedHeaders dry_executor].
  - intros k hs Hk Hhs. unfold dry_start in *. cbn [ds_ex]. destruct (ds_ex k) as [x|]; [|done]. cbn.
    destruct Hk as (? & ? & ? & Hh). split_and!; [done..|]. by apply seeded_headers.
  - intros k h hash r k' Hk Hst Hat [= <- <-] _. exists h, hash, []. split; cbn [ds_ex ds_batches]; try done.
    + apply ac_start.
    + by intros b [=]%list_elem_of_singleton.
    + intros x Hx. unfold dry_start in Hk. rewrite Hx in Hk. destruct Hk as (Hs & Hp & Hd & Hh).
      split; [split; [done|by rewrite Hd|..]|..|done]; try (intros hh ly; rewrite Hp; by intros ?%lookup_empty_Some).
    + intros _ b [=]%list_elem_of_singleton.
  - intros k l h hash bs n c r k' Hk Hgl Hc He Hin Hn Hnz Hex. destruct r as [b|er]; [|intros _; by eapply HX].
    intros Hr'. destruct (Hk (same_app _ _ Hr')) as (h0 & hash0 & acc & Hok). exists h0, hash0, acc. by eapply dry_exec_step.
  - intros k l h hash bs n x r k' Hk Hgl He Hin [= <- <-] Hr'.
    destruct (Hk (same_app _ _ Hr')) as (h0 & hash0 & acc & [Hsk Hst Htip Hac Hec Htb Hx Hxd]).
    exists h0, hash0, acc. split; try done; [by apply ac_head| |intros; apply executed_grow; [by apply Hxd|done]].
    intros b [Hb|[=]%list_elem_of_singleton]%elem_of_app. by apply Htb.
  - intros k l h hash b r k' Hk Hgl Hb Hn Hp Ha.
    assert (same_batches (l ++ [SAccepted (Block b) (BHash b)]) → r = Ok () ∧ ∃ h0 hash0 acc,
      dry_ok k' (l ++ [SAccepted (Block b) (BHash b)]) (Block b) (BHash b) h0 hash0 acc) as Hs.
    { intros Hr'. destruct (Hk (same_app _ _ Hr')) as (h0 & hash0 & acc & Hok).
      destruct (dry_accept_step _ _ _ _ _ _ _ _ _ _ (same_app _ _ Hr') Hok Hgl Hb Hn Hp Ha) as [-> Hok'].
      split; [done|]. by exists h0, hash0, (acc ++ [b]). }
    destruct r as [[]|er]; [|by intros [[=] _]%Hs]. intros Hr'. by apply Hs.
Qed.

(** Every accepted block was executed on the world its predecessors leave. *)
Lemma dry_executed k l h hash h0 hash0 acc i b :
  same_batches l → good_log l h hash → dry_ok k l h hash h0 hash0 acc → is_Some (ds_ex k) → acc !! i = Some b →
  executed proposer rlp_block rcv EmptyCodeHash evm DeriveSha CreateBloom (apply_batches W0 (take i acc)) b.
Proof.
  intros Hsame Hgl [] Hsm Hi.
  eapply (accepted_executed proposer rlp_block rcv EmptyCodeHash evm DeriveSha CreateBloom Heth l h0 hash0); [..|exact Hi].
  - done.
  - done.
  - intros b'. by eapply dry_parsed.
  - by apply do_executed0.
  - done.
  - intros y Hy. by eapply accepts_verified.
Qed.
End dry_node.
