(* ===== verification/FollowerOpen.v ===== *)
(** * FollowerOpen: opening a live node

    Over a complete store, [open_live] succeeds with the resume point the store
    has, and the node it makes is as [FollowerProof] wants it before the sink is
    made; so is the node opened after a run, which is what makes a restart safe. *)

From S2P Require Import Prelude Schema Lmdb Capture World Store StoreRead StoreSpec StoreProof StoreReads StoreWrites.
From S2P Require Import Reader Mem MemProof Tipbus TipbusProof Exec ExecProof Node SinkProof NodeProof TrackerProof.
From S2P Require Import ConsensusState Consensus ConsensusInv ConsensusTracker Follower FollowerLog FollowerExec FollowerProof FollowerDry.

Section open.
Context {env benv : Type} `{LmdbLaws env, LmdbLaws benv} (keccak : bytes → Hash).
Context {Body : Type} (proposer : bytes → option (Hash * Hash * bytes)) (rlp_block : bytes → option (EthBlock Body)).
Context (rcv : list bytes).
Context (Hnf : ¬ any_fault (env:=env) (benv:=benv)).
#[local] Instance open_reader : Reader (DB env) := db_reader keccak.
#[local] Instance open_reader_laws : ReaderLaws (DB env) := db_reader_laws keccak.
Implicit Types d : DB env.

(** The resume point the store has: the finalized block, or the baseline when
    nothing is finalized. *)
Definition resume_at d (a : Anchor) : Prop :=
  rows d !! MetaFinalized = Some (beBytes (an_Height a)) ∧
    (∃ b, db_archives d (an_Height a) (Some b) ∧ an_EthHash a = Some (BHash b)) ∨
  rows d !! MetaFinalized = None ∧ genesis_row (rows d) = Some (an_Height a) ∧ an_EthHash a = None.

Lemma upto_ok {A} (r : result A) x : upto_faults (env:=env) r (Ok x) → r = Ok x.
Proof. intros [->|[Hf _]]; [done|]. destruct Hnf. by left. Qed.

Lemma Finalized_none d : rows d !! MetaFinalized = None → Finalized d = Ok None.
Proof.
  intros Hf. apply upto_ok, View_upto. unfold getMetaU64. eapply upto_trans_bind; [apply get_upto|].
  fold (rows d). rewrite Hf. by left.
Qed.

Lemma resume_spec d a :
  wf_db (rows d) → cache_ok d → resume_at d a →
  ∃ d', resumeFromStore d = (Ok a, d') ∧ db_env d' = db_env d ∧ cache_ok d' ∧ ∃ o, Finalized d' = Ok o.
Proof.
  intros Hwf Hc [(Hf & b & Hb & Ha)|(Hf & Hg & Ha)]; unfold resumeFromStore.
  - rewrite (upto_ok _ _ (Finalized_upto d _ Hf)), (upto_ok _ _ (GetDiff_upto d _ _ Hb)), <-Ha.
    exists d. destruct a. split_and!; [done..|]. eexists. exact (upto_ok _ _ (Finalized_upto d _ Hf)).
  - rewrite (Finalized_none d Hf). destruct (Genesis_spec d Hwf Hc) as (Hr & He & Hc').
    rewrite Hg in Hr. apply upto_ok in Hr. destruct (Genesis d) as [r d']. cbn [fst snd] in *. subst r. rewrite <-Ha.
    exists d'. destruct a. split_and!; [done..|]. exists None. apply Finalized_none. unfold rows. by rewrite He.
Qed.

(** A store a follower may start from: the baseline is complete, the world is
    [W] from the resume height on, nothing is written above it. *)
Record complete_store d (W : world) (a : Anchor) : Prop := {
  cs_served (B : u64) : (an_Height a ≤ B)%Z → db_serves keccak d B W;
  cs_fresh : fresh_above (rows d) (an_Height a);
  cs_live : live W;
  cs_resume : resume_at d a
}.

Lemma open_live_ok d (be : benv) W a :
  complete_store d W a →
  ∃ k, open_live keccak d be = Ok (a, k) ∧ live_start keccak proposer rlp_block rcv W (an_Height a) [] k ∧
    db_env (ls_db k) = db_env d.
Proof.
  intros [Hs Hfr Hlive Ha].
  assert (an_Height a ≤ Latest)%Z as Hlt by apply uval_Latest.
  pose proof (Hs Latest Hlt) as (S & (Hwf & _ & _ & Hdone) & Hc & _ & _).
  unfold open_live. destruct (BaselineComplete_spec d Hc) as (Hr & He & Hc1). rewrite Hdone in Hr. apply upto_ok in Hr.
  destruct (BaselineComplete d) as [r d1]. cbn [fst snd] in *. subst r. cbn [rbind negb].
  destruct (resume_spec d1 a) as (d2 & -> & He2 & Hc2 & o & Ho); [unfold rows in *; by rewrite He|done| |].
  { unfold resume_at, db_archives, rows in *. by rewrite He. }
  cbn [rbind]. pose proof (OpenWriter_cases be) as Hbus. destruct (OpenWriter be) as [[bus|er] be']; cycle 1.
  { destruct Hnf. right. apply Hbus. }
  cbn [fst rbind]. destruct Hbus as (Hbus & Hmir & _). 
  assert (mem_New (H:=db_reader keccak) d2 = Ok (MkState d2 NewMap [] [] (default u_zero o) arr_zero u_zero u_zero u_zero)) as Hmem
    by (unfold mem_New; change (rd_Finalized d2) with (Finalized d2); by rewrite Ho).
  rewrite Hmem. cbn [rbind].
  eexists. split; [done|]. split; [|cbn; congruence].
  assert (∀ B : u64, (an_Height a ≤ B)%Z → db_serves keccak d2 B W) as Hs2.
  { intros B HB. eapply db_serves_env; [|exact Hc2|by apply Hs]. congruence. }
  split; cbn [ls_tracker ls_ex NewTracker t_sink NewSink sk_st]; try done.
  - split; cbn [sk_st sk_bus sk_pending s_db]; try done.
    + eapply mem_run_coherent, run_new; [exact Hmem|exact (Hs2 Latest Hlt)|done].
    + change (fresh_above (rows d2) (an_Height a)). unfold rows in *. by rewrite He2, He.
    + injection Hmir as _ Hl. exact Hl.
    + by intros b ?%elem_of_nil.
  - unfold node_exec. cbn. split; [split; [exact (Hs2 Latest Hlt)|done|..]|..]; cbn; by intros ?? ?%lookup_empty_Some.
Qed.

(** The world from the last accepted height on. *)
Lemma world_at_all (W : world) bs (h B : Z) : (∀ b, b ∈ bs → (Block b ≤ h)%Z) → (h ≤ B)%Z → world_at W bs B = apply_batches W bs.
Proof.
  intros Hbs HB. unfold world_at. f_equal.
  induction bs as [|b bs IH]; [done|]. rewrite filter_cons_True; [f_equal; apply IH; intros; apply Hbs; by right|].
  specialize (Hbs b ltac:(left)). lia.
Qed.

(** ** What a live node promises *)

Context {Receipts : Type} (EmptyCodeHash : Hash) (evm : Header → Header → Body → evm_prog Receipts).
Context (DeriveSha : Receipts → Hash) (CreateBloom : Receipts → bytes) (cfg : Config).
Context (Heth : eth_headers_ok proposer rlp_block rcv).
Context (W0 : world) (h0 : u64).
Abbreviation live_ok := (live_ok keccak EmptyCodeHash evm DeriveSha CreateBloom proposer rlp_block rcv W0 h0).
Abbreviation executed := (executed proposer rlp_block rcv EmptyCodeHash evm DeriveSha CreateBloom).

Context (k : liveSink env benv) (l : list sink_event) (h : u64) (hash hash0 : Hash) (acc : list Batch) (evs : list Event).
Context (Hgr : good_run l) (Hgl : good_log cfg proposer rlp_block rcv l h hash) (Hok : live_ok k l h hash hash0 acc evs).

Lemma accepted_parsed b : b ∈ acc → of_parsed proposer rlp_block rcv b.
Proof. intros Hb. destruct Hok. eapply good_parsed; [exact Hgl|by eapply accepts_verified]. Qed.

(** Every accepted and every published block was executed on the world below
    it. *)
Lemma live_executed i b :
  (acc ++ t_stack (ls_tracker k)) !! i = Some b →
  executed (apply_batches W0 (take i (acc ++ t_stack (ls_tracker k)))) b.
Proof.
  destruct Hok. destruct lo_stackx as (m & x & Hx).
  assert (∀ x, x ∈ acc ++ t_stack (ls_tracker k) → SVerified x ∈ l) as Hin.
  { intros y [Hy|Hy]%elem_of_app; [by eapply accepts_verified|by apply lo_stack]. }
  eapply (accepted_executed proposer rlp_block rcv EmptyCodeHash evm DeriveSha CreateBloom Heth l h0 hash0 lo_start
    (gr_same _ Hgr) (λ b, good_parsed cfg proposer rlp_block rcv l h hash b Hgl)); [done|by eapply extends_app|done].
Qed.

(** The archive answers the world at every height. *)
Lemma live_reads a slot (B : u64) :
  (h0 ≤ B)%Z →
  (GetAccount keccak (ls_db k) a B).1 = Ok (account_answer (w_acct (world_at W0 acc B) a)) ∧
  (GetSlot keccak (ls_db k) a slot B).1 = Ok (w_slot (world_at W0 acc B) a slot).
Proof.
  intros HB. assert (db_serves keccak (ls_db k) B (world_at W0 acc B)) as Hs by (destruct Hok; by apply lo_served).
  assert (¬ rd_faulty (db:=DB env)) as Hn by (intros Hf; apply Hnf; by left).
  split; (eapply answers_ok; [|exact Hn]).
  - exact (GetAccount_law (ls_db k) a B _ Hs).
  - exact (GetSlot_law (ls_db k) a slot B _ Hs).
Qed.

Lemma live_diffs b : b ∈ acc → GetDiff (ls_db k) (Block b) = Ok b.
Proof. intros Hb. destruct Hok. by apply upto_ok, GetDiff_upto, lo_archived. Qed.

Lemma last_accepted : acc ≠ [] → ∃ b, last acc = Some b ∧ b ∈ acc ∧ Block b = h ∧ BHash b = hash.
Proof.
  intros Hne. destruct Hok. clear Hok Hgr Hgl. destruct acc as [|b acc' _] using rev_ind; [done|]. exists b.
  apply extends_split in lo_chain as (m & y & _ & He). cbn in He. destruct He as (_ & _ & -> & ->).
  split_and!; [apply last_snoc|apply elem_of_app; right; left|done|done].
Qed.

(** The store is one to start from again. *)
Lemma live_restart :
  acc ≠ [] → Finalized (ls_db k) = Ok (Some h) ∧ complete_store (ls_db k) (apply_batches W0 acc) (MkAnchor h (Some hash)).
Proof.
  intros Hne. destruct (last_accepted Hne) as (b & Hlast & Hb & Hbh & Hbb).
  pose proof accepted_parsed as Hap. destruct Hok.
  pose proof (lo_mark _ Hlast) as Hm. rewrite Hbh in Hm.
  split; [by apply upto_ok, Finalized_upto|]. split; cbn [an_Height an_EthHash].
  - intros B HB.
    assert (∀ b', b' ∈ acc → (Block b' ≤ h)%Z) as Hle.
    { intros b' Hb'. by eapply (extends_below (of_parsed proposer rlp_block rcv)); [apply parsed_first|..]. }
    rewrite <-(world_at_all W0 acc h B Hle HB). apply lo_served.
    pose proof (extends_le (of_parsed proposer rlp_block rcv) (parsed_first _ _ _) h0 hash0 acc h hash Hap lo_chain). lia.
  - apply lo_sink.
  - exact (coh_live _ _ _ (si_mem _ _ _ _ _ lo_sink) 0).
  - left. split; [done|]. exists b. split; [rewrite <-Hbh; by apply lo_archived|by rewrite Hbb].
Qed.

Lemma live_published_chain :
  sk_layers (t_sink (ls_tracker k)) = t_stack (ls_tracker k) ∧
  b_layers (sk_bus (t_sink (ls_tracker k))) = t_stack (ls_tracker k) ∧
  coherent (sk_st (t_sink (ls_tracker k))) (apply_batches W0 acc) 0.
Proof.
  assert (sk_layers (t_sink (ls_tracker k)) = t_stack (ls_tracker k)) as Hsl by (by eapply stack_layers).
  split_and!; [done| |destruct Hok; apply lo_sink].
  rewrite <-Hsl. destruct Hok. apply lo_sink.
Qed.
End open.

(** ** Opening a dry run *)

Section open_dry.
Context {env Body : Type} `{LmdbLaws env} (keccak : bytes → Hash).
Context (proposer : bytes → option (Hash * Hash * bytes)) (rlp_block : bytes → option (EthBlock Body)).
Context (rcv : list bytes) (W0 : world).

Lemma resumeFromStore_frame (d : DB env) :
  wf_db (rows d) → cache_ok d → db_env (resumeFromStore d).2 = db_env d ∧ cache_ok (resumeFromStore d).2.
Proof.
  intros Hwf Hc. unfold resumeFromStore. destruct (Genesis_spec d Hwf Hc) as (_ & He & Hc').
  repeat case_match; simplify_eq; cbn in *; simplify_eq; by rewrite ?He.
Qed.

(** A dry run starts over the world of the store, when it executes at all. *)
Lemma open_dry_start (store : option (DB env)) resume k :
  (∀ d, store = Some d → (BaselineComplete d).1 = Ok true → db_serves keccak d Latest W0) →
  open_dry store = Ok (resume, k) → dry_start (H:=db_reader keccak) (H0:=db_reader_laws keccak) proposer rlp_block rcv W0 k.
Proof.
  intros Hs. unfold open_dry. destruct store as [d|]; [|by intros [= _ <-]]. specialize (Hs d eq_refl).
  destruct (BaselineComplete d) as [done d1] eqn:Eb. destruct done as [[]|]; [|by intros [= _ <-]|done]. cbn.
  pose proof (Hs eq_refl) as Hsv. destruct Hsv as (S & Hsd & Hc & HB & Hw) eqn:E. clear E.
  destruct (BaselineComplete_spec d Hc) as (_ & He & Hc1). rewrite Eb in He, Hc1. cbn in He, Hc1.
  destruct (resumeFromStore_frame d1) as [He2 Hc2]; [unfold rows; rewrite He; apply Hsd|done|].
  destruct (resumeFromStore d1) as [[a|er] d2]; [|done]. cbn in He2, Hc2 |- *. intros [= _ <-].
  split_and!; try done; cbn. eapply db_serves_env; [|exact Hc2|exact (Hs eq_refl)]. congruence.
Qed.
End open_dry.
