(* ===== verification/BaselineLoad.v ===== *)
(** * BaselineLoad: the baseline loader program

    Models [cmd/baseline-load/main.go]: the choice of the pivot height, the client
    that spreads the requests over several identities, and the run of the state sync
    over the store, and the minimal RPC client it uses.  The HTTP exchange, the JSON
    decoder and the clients of the identities are arguments.  A store it has loaded is
    one the follower may start from ([load_complete]). *)

From Stdlib Require Import Ascii.
From stdpp Require Import strings.
From S2P Require Import Prelude Schema Lmdb Capture World Store StoreRead StoreSpec StoreProof StoreReads StoreWrites.
From S2P Require Import Loader Reader Mem MemProof Node Sync SyncKeys SyncTrie SyncSound SyncRun SyncServe.
From S2P Require Import Exec ConsensusState NetClient Follower FollowerProof FollowerOpen.

(** ** The RPC client *)

(** [strings.TrimPrefix s "0x"] and [strings.TrimSuffix s "/"] *)
Definition trim_0x (s : string) : string :=
  match s with
  | String "0"%char (String "x"%char s') => s'
  | _ => s
  end.
Fixpoint trim_slash (s : string) : string :=
  match s with
  | EmptyString => EmptyString
  | String c EmptyString => if Ascii.eqb c "/"%char then EmptyString else s
  | String c s' => String c (trim_slash s')
  end.

(** [strconv.ParseUint s 16 64] *)
Definition hex_digit (c : ascii) : option Z :=
  let n := Z.of_nat (nat_of_ascii c) in
  if (48 <=? n)%Z && (n <=? 57)%Z then Some (n - 48)%Z
  else if (97 <=? n)%Z && (n <=? 102)%Z then Some (n - 87)%Z
  else if (65 <=? n)%Z && (n <=? 70)%Z then Some (n - 55)%Z
  else None.
Fixpoint parse_hex (n : Z) (s : string) : result Z :=
  match s with
  | EmptyString => Ok n
  | String c s' =>
      match hex_digit c with
      | None => Err (ErrMsg "invalid syntax")
      | Some d => if (2 ^ 60 <=? n)%Z then Err (ErrMsg "value out of range") else parse_hex (n * 16 + d)%Z s'
      end
  end.
Definition ParseUint16 (s : string) : result u64 :=
  match s with
  | EmptyString => Err (ErrMsg "invalid syntax")
  | _ => let! n := parse_hex 0 s in Ok (wrap n)
  end.

(** [fmt.Sprintf "0x%x" h] *)
Definition hex_char (d : Z) : ascii := ascii_of_nat (Z.to_nat (if (d <? 10)%Z then 48 + d else 87 + d)).
Fixpoint hex_go (fuel : nat) (z : Z) (acc : string) : string :=
  match fuel with
  | O => acc
  | S fuel' =>
      let acc := String (hex_char (z mod 16)) acc in
      if (z / 16 =? 0)%Z then acc else hex_go fuel' (z / 16) acc
  end.
Definition fmt_hex (h : u64) : string := String "0"%char (String "x"%char (hex_go 16 h EmptyString)).

Section rpc.
(** A POST to a URL with a method and its parameters: the [result] member, as it is,
    and the message of the [error] member if there is one; and what the decoder makes
    of a result as a string and as a block's [stateRoot] and [hash]. *)
Context {Raw : Type} (post : string → string → list string → result (Raw * option string)).
Context (json_string : Raw → result string) (json_block : Raw → result (string * string)) (HexToHash : string → Hash).

Definition rpcCall (nodeURI method : string) (params : list string) : result Raw :=
  let! out := post (trim_slash nodeURI +:+ "/ext/bc/C/rpc") method params in
  match out.2 with
  | Some message => Err (ErrMsg message)
  | None => Ok out.1
  end.

Definition rpcBlockNumber (nodeURI : string) : result u64 :=
  let! raw := rpcCall nodeURI "eth_blockNumber" [] in
  let! hexNum := json_string raw in
  ParseUint16 (trim_0x hexNum).

Definition rpcStateRoot (nodeURI : string) (height : u64) : result (Hash * Hash) :=
  let! raw := rpcCall nodeURI "eth_getBlockByNumber" [fmt_hex height; "false"] in
  let! blk := json_block raw in
  if decide (blk.1 = EmptyString) then Err (ErrMsg "block has no stateRoot (missing block?)")
  else Ok (HexToHash blk.1, HexToHash blk.2).
End rpc.

(** ** The pivot and the clients *)

Definition summaryInterval : u64 := u64_lit 16384.
Definition summaryMargin : u64 := u64_lit 256.

(** The pivot: a store that has a height dictates it; otherwise the flag, or the
    latest summary boundary below the head. *)
Definition select_pivot (height : u64) (genesis : result (option u64)) (rpcBlockNumber : result u64) : result u64 :=
  let! g := genesis in
  match g with
  | Some g =>
      if negb (bool_decide (height = u_zero)) && negb (bool_decide (height = g)) then
        Err (ErrMsg "store already has genesis")
      else Ok g
  | None =>
      if bool_decide (height = u_zero) then
        let! head := rpcBlockNumber in
        Ok (wrap (u_sub head summaryMargin / summaryInterval * summaryInterval))
      else Ok height
  end.

(** [muxClient]: the counter of [pick] is the number of the request; without a
    client the index is out of range. *)
Definition mux_pick (clients : list Client) (n : nat) : option Client :=
  clients !! (Z.to_nat (uval (wrap (Z.of_nat (S n)) : u64)) mod length clients).

Definition muxClient (clients : list Client) : Client := {|
  cl_GetLeafs n req :=
    match mux_pick clients n with Some c => cl_GetLeafs c n req | None => Err (ErrMsg "panic") end;
  cl_GetCode n hashes :=
    match mux_pick clients n with Some c => cl_GetCode c n hashes | None => Err (ErrMsg "panic") end
|}.

(** The loop that dials the identities: what each dial gives, in turn, until one
    fails. *)
Fixpoint dial_identities (dials : list (result Client)) : result (list Client) :=
  match dials with
  | [] => Ok []
  | r :: dials' => let! c := r in let! cs := dial_identities dials' in Ok (c :: cs)
  end.

(** The share of [-inflight] that each of the identities gets, and the requests the
    clients made with it may have outstanding together. *)
Definition identity_inflight (inflight identities : Z) : Z := Z.quot inflight identities.
Definition total_inflight (inflight perPeer : Z) (identities : nat) : nat :=
  foldr (λ _ n, nc_inflight (NewNetClient (identity_inflight inflight (Z.of_nat identities)) perPeer) + n) 0 (seq 0 identities).

(** [muxClient.Timeouts] *)
Definition mux_Timeouts (timeouts : list u64) : u64 := foldl u_add u_zero timeouts.

Section load.
Context {env : Type} `{Lmdb env} (keccak : bytes → Hash).
Context (rlp_account : bytes → option LeafAccount) (rlp_content : bytes → option bytes).
Context (vars : Vars) (maxCodeHashes fuel : nat) (scan_fuel : env → nat).
Context {Raw : Type} (post : string → string → list string → result (Raw * option string)).
Context (json_string : Raw → result string) (json_block : Raw → result (string * string)) (HexToHash : string → Hash).
Context (nodeURI : string) (dials : list (result Client)).

(** The program: [None] when the schedule does not bring the sync to its end. *)
Definition baseline_load (height : u64) (splitWays : Z) (noResume : bool) (sched : list choice) (e : env) :
    option (result unit * DB env) :=
  let '(g, d) := Genesis (MkDB e u_zero false) in
  match select_pivot height g (rpcBlockNumber post json_string nodeURI) with
  | Err er => Some (Err er, d)
  | Ok s =>
      match rpcStateRoot post json_block HexToHash nodeURI s with
      | Err er => Some (Err er, d)
      | Ok (root, hash) =>
          match dial_identities dials with
          | Err er => Some (Err er, d)
          | Ok clients =>
              Run keccak rlp_account rlp_content s root (SetSplitWays vars splitWays noResume) (muxClient clients)
                maxCodeHashes fuel scan_fuel sched d
          end
      end
  end.
End load.

(** ** The pivot *)

(** With a head past the margin, the boundary is the last at least that far below. *)
Lemma select_pivot_fresh head s :
  (256 ≤ uval head)%Z → select_pivot u_zero (Ok None) (Ok head) = Ok s →
  (s mod 16384 = 0)%Z ∧ (s ≤ head - 256 < s + 16384)%Z.
Proof.
  intros Hh. unfold select_pivot. cbn [rbind]. rewrite bool_decide_true by done. cbn [rbind]. intros [= <-].
  pose proof (uint_range head) as Hr. unfold u_sub.
  rewrite (wrap_small (uval head - uval summaryMargin)) by (change (uval summaryMargin) with 256%Z; lia).
  change (uval summaryMargin) with 256%Z. change (uval summaryInterval) with 16384%Z.
  pose proof (Z.div_mod (head - 256) 16384 ltac:(lia)). pose proof (Z.mod_pos_bound (head - 256) 16384 ltac:(lia)).
  rewrite wrap_small by lia. split; [|lia]. apply Z.mod_mul. lia.
Qed.

(** A store's height is kept, against the flag if need be. *)
Lemma select_pivot_resumed height g head s : select_pivot height (Ok (Some g)) head = Ok s → s = g ∧ (height = u_zero ∨ height = g).
Proof.
  unfold select_pivot. cbn [rbind]. destruct (bool_decide_reflect (height = u_zero)), (bool_decide_reflect (height = g)); cbn;
    intros He; simplify_eq; auto.
Qed.

(** ** The RPC client *)

Lemma hex_digit_char d : (0 ≤ d < 16)%Z → hex_digit (hex_char d) = Some d.
Proof.
  intros Hd. rewrite <-(Z2Nat.id d) by lia. assert (Z.to_nat d < 16) as Hn by lia. revert Hn. generalize (Z.to_nat d). clear d Hd.
  intros n Hn. do 16 (destruct n as [|n]; [reflexivity|]). lia.
Qed.

Lemma parse_hex_go fuel z acc :
  (0 ≤ z < 16 ^ Z.of_nat fuel)%Z → (z < 2 ^ 64)%Z → 0 < fuel → parse_hex 0 (hex_go fuel z acc) = parse_hex z acc.
Proof.
  revert z acc. induction fuel as [|fuel IH]; intros z acc Hz H64 Hf; [lia|]. cbn [hex_go].
  pose proof (Z.div_mod z 16 ltac:(lia)) as Hdm. pose proof (Z.mod_pos_bound z 16 ltac:(lia)) as Hm.
  destruct (Z.eqb_spec (z / 16) 0) as [H0|H0].
  - cbn [parse_hex]. rewrite hex_digit_char by lia. cbn. f_equal. lia.
  - rewrite Nat2Z.inj_succ, Z.pow_succ_r in Hz by lia. pose proof (Z.div_pos z 16 ltac:(lia) ltac:(lia)).
    destruct fuel as [|fuel]; [cbn in Hz; lia|].
    rewrite IH by lia. cbn [parse_hex]. rewrite hex_digit_char by lia. destruct (Z.leb_spec (2 ^ 60) (z / 16)); [lia|].
    f_equal. lia.
Qed.

(** The height asked for reads back as itself. *)
Lemma fmt_hex_parse h : ParseUint16 (trim_0x (fmt_hex h)) = Ok h.
Proof.
  pose proof (uint_range h) as Hr. unfold fmt_hex, trim_0x.
  pose proof (parse_hex_go 16 h EmptyString ltac:(cbn in *; lia) ltac:(lia) ltac:(lia)) as Hp. unfold ParseUint16.
  destruct (hex_go 16 h EmptyString) as [|c s] eqn:E.
  { cbn [hex_go] in E. repeat (case_match; try done). }
  rewrite Hp. cbn. by rewrite wrap_uval.
Qed.

(** The value of a string of hex digits. *)
Fixpoint hex_value (n : Z) (s : string) : option Z :=
  match s with
  | EmptyString => Some n
  | String c s' => d ← hex_digit c; hex_value (n * 16 + d)%Z s'
  end.

Lemma hex_digit_range c d : hex_digit c = Some d → (0 ≤ d < 16)%Z.
Proof.
  unfold hex_digit. generalize (Z.of_nat (nat_of_ascii c)). intros n.
  destruct (Z.leb_spec 48 n), (Z.leb_spec n 57), (Z.leb_spec 97 n), (Z.leb_spec n 102), (Z.leb_spec 65 n), (Z.leb_spec n 70);
    cbn [andb]; intros Hd; simplify_eq; lia.
Qed.

Lemma hex_value_grows s n v : (0 ≤ n)%Z → hex_value n s = Some v → (n ≤ v)%Z ∧ (s ≠ EmptyString → n * 16 ≤ v)%Z.
Proof.
  revert n. induction s as [|c s IH]; intros n Hn; cbn; [intros [= <-]; split; [lia|done]|].
  destruct (hex_digit c) as [d|] eqn:Hd; [|done]. cbn. apply hex_digit_range in Hd. intros Hv.
  destruct (IH (n * 16 + d)%Z ltac:(lia) Hv). split; [|intros _]; lia.
Qed.

Lemma parse_hex_value s n v :
  (0 ≤ n < 2 ^ 64)%Z → parse_hex n s = Ok v ↔ hex_value n s = Some v ∧ (v < 2 ^ 64)%Z.
Proof.
  revert n. induction s as [|c s IH]; intros n Hn; cbn [parse_hex hex_value].
  { split; [intros [= <-]; split; [done|lia]|]. by intros [[= <-] _]. }
  destruct (hex_digit c) as [d|] eqn:Hd; cbn; [|split; [done|by intros [? _]]]. apply hex_digit_range in Hd.
  assert (2 ^ 64 = 16 * 2 ^ 60)%Z by done. destruct (Z.leb_spec (2 ^ 60) n) as [Hge|Hlt].
  - split; [done|]. intros [Hv Hlt]. destruct (hex_value_grows s (n * 16 + d) v ltac:(lia) Hv). lia.
  - apply IH. lia.
Qed.

(** [ParseUint] accepts the strings of one or more hex digits whose value fits, and
    nothing else. *)
Lemma ParseUint16_spec s v :
  ParseUint16 s = Ok v ↔ s ≠ EmptyString ∧ hex_value 0 s = Some (uval v).
Proof.
  pose proof (uint_range v) as Hr. destruct s as [|c s]; [split; [done|by intros [? _]]|].
  change (ParseUint16 (String c s)) with (let! n := parse_hex 0 (String c s) in Ok (wrap n : u64)). split.
  - intros Hp. split; [done|]. destruct (parse_hex 0 (String c s)) as [n|er] eqn:E; [|done]. cbn in Hp. injection Hp as <-.
    apply parse_hex_value in E as [E Hlt]; [|lia]. pose proof (hex_value_grows _ _ _ ltac:(done) E) as [? _].
    by rewrite wrap_small by lia.
  - intros [_ Hv]. assert (parse_hex 0 (String c s) = Ok (uval v)) as -> by (apply parse_hex_value; [lia|]; split; [done|lia]).
    cbn. by rewrite wrap_uval.
Qed.

(** ** The clients *)

Lemma dial_identities_ok dials clients : dial_identities dials = Ok clients ↔ dials = Ok <$> clients.
Proof.
  revert clients. induction dials as [|[c|er] dials IH]; intros clients; cbn.
  - destruct clients; split; done.
  - destruct (dial_identities dials) as [cs|er]; cbn.
    + split; [intros [= <-]; cbn; f_equal; by apply IH|]. destruct clients as [|c' cs']; [done|]. cbn. intros [= -> Hd].
      apply IH in Hd. by simplify_eq.
    + split; [done|]. destruct clients as [|c' cs']; [done|]. cbn. intros [= -> Hd]. by apply IH in Hd.
  - split; [done|]. by destruct clients.
Qed.

Lemma mux_ok keccak clients Trie full :
  (∀ c, c ∈ clients → client_ok keccak c Trie full) → client_ok keccak (muxClient clients) Trie full.
Proof.
  intros Hc. split; cbn.
  - intros n req resp Hr. destruct (mux_pick clients n) as [c|] eqn:E; [|done]. apply list_elem_of_lookup_2 in E.
    by apply (co_leafs _ _ _ _ (Hc c E)) in Hr.
  - intros n hashes blobs Hr. destruct (mux_pick clients n) as [c|] eqn:E; [|done]. apply list_elem_of_lookup_2 in E.
    by apply (co_code _ _ _ _ (Hc c E)) in Hr.
Qed.

(** With at least one identity, every request goes to one of them, and requests one
    after the other go round. *)
Lemma mux_round_robin clients n :
  clients ≠ [] → (Z.of_nat (S (S n)) < 2 ^ 64)%Z →
  ∃ i, i < length clients ∧ mux_pick clients n = clients !! i ∧ mux_pick clients (S n) = clients !! (S i mod length clients).
Proof.
  intros Hne Hn. assert (0 < length clients) as Hl by (destruct clients; [done|cbn; lia]).
  exists (S n mod length clients). split; [apply Nat.mod_upper_bound; lia|]. unfold mux_pick.
  rewrite !wrap_small, !Nat2Z.id by lia. split; [done|]. f_equal.
  replace (S (S n)) with (1 + S n) by lia. replace (S (S n mod length clients)) with (1 + S n mod length clients) by lia.
  by rewrite Nat.Div0.add_mod_idemp_r.
Qed.

(** The cap on outstanding requests is shared out, when there are no more identities
    than requests; with more, each identity gets a share of zero, which a client takes
    for its default. *)
Lemma total_inflight_cap inflight perPeer identities :
  (0 < Z.of_nat identities ≤ inflight)%Z → (Z.of_nat (total_inflight inflight perPeer identities) ≤ inflight)%Z.
Proof.
  intros Hi. unfold total_inflight, identity_inflight. set (share := Z.quot inflight (Z.of_nat identities)).
  assert (0 < share)%Z as Hs by (apply Z.quot_str_pos; lia).
  assert (∀ l : list nat, foldr (λ _ n, nc_inflight (NewNetClient share perPeer) + n) 0 l = length l * Z.to_nat share) as Hf.
  { induction l as [|x l IH]; [done|]. cbn [foldr length]. rewrite IH. cbn. destruct (Z.leb_spec share 0); lia. }
  rewrite Hf, length_seq. pose proof (Z.mul_quot_le inflight (Z.of_nat identities) ltac:(lia) ltac:(lia)). fold share in H. nia.
Qed.

Example total_inflight_over : total_inflight 16 6 32 = 10240.
Proof. reflexivity. Qed.

(** ** What a load leaves *)

Section complete.
Context {env : Type} `{LmdbLaws env} (keccak : bytes → Hash).
Context (rlp_account : bytes → option LeafAccount) (rlp_content : bytes → option bytes) (Root : Hash) (Trie : Hash → list leaf).
Context (tries : ∀ root, trie_ok (Trie root)).

Abbreviation trie_world := (trie_world keccak rlp_account rlp_content Root Trie).

(** An account that is not in the state trie has no storage. *)
Lemma trie_world_live : live trie_world.
Proof.
  intros a Ha s. cbn in *. unfold trie_slot. by destruct (trie_account _ _ _ _).
Qed.

Lemma synced_complete (d : DB env) (base : gmap bytes bytes) (S : u64) :
  wf_db (rows d) → cache_ok d → synced keccak rlp_account rlp_content Root Trie base (rows d) → no_history base →
  base !! key_bytes KMetaGenesis = Some (beBytes S) → base !! MetaFinalized = None →
  complete_store keccak d trie_world (MkAnchor S None).
Proof.
  intros Hwf Hc Hsy Hno Hg Hf.
  destruct (synced_served keccak rlp_account rlp_content Root Trie base (rows d) Hwf Hsy Hno S Hg) as [Hs Hfr].
  split; cbn [an_Height an_EthHash].
  - intros B HB. exists S. split_and!; [done|done|done|]. by eapply synced_world.
  - done.
  - apply trie_world_live.
  - right. split_and!; [|apply Hs|done]. change MetaFinalized with (key_bytes KMetaFinalized) in *.
    rewrite (sy_other _ _ _ _ _ _ _ Hsy); [done|by intros []|done].
Qed.
End complete.
