(* ===== verification/Examples.v ===== *)
(** * Examples: a small concrete world

    A store over the reference LMDB instance with a complete empty baseline at
    height 100, three blocks above it (one destructs and recreates an account),
    and a stand-in for keccak; the instances of the main theorems use it.  At the
    end, an environment with a key that cannot be written. *)

From S2P Require Import Prelude Schema Lmdb Capture World Store StoreRead StoreSpec StoreProof.
From S2P Require Import StoreReads StoreWrites Reader Mem MemProof.

(** A call returned [a]: its two other results have names. *)
Lemma triple_eta {A B C : Type} (x : A * B * C) (a : A) : x.1.1 = a → x = (a, x.1.2, x.2).
Proof. by destruct x as [[??]?]; intros; simplify_eq/=. Qed.

(** Any function of the right type will do for keccak: nothing depends on it. *)
Definition ex_keccak (b : bytes) : Hash := arr_of (b ++ [byte_lit 7]).

Definition ex_addr (n : Z) : Address := arr_of [wrap n].
Definition ex_hash (n : Z) : Hash := arr_of [wrap n].

Definition ex_S : u64 := u64_lit 100.

Definition ex_rows : gmap bytes bytes :=
  <[key_bytes KMetaBaselineComplete:=[byte_lit 1]]>
    (<[key_bytes KMetaGenesis:=beBytes ex_S]> ∅).

Definition ex_db : DB map_env := MkDB ex_rows u_zero false.

Definition ex_acct (n : Z) : Account := MkAccount (wrap n) (wrap n) (ex_hash n).

Definition ex_b1 : Batch := MkBatch (u64_lit 101) (ex_hash 1) (ex_hash 0) (u64_lit 5000)
  [OpAccount (ex_addr 1) (ex_acct 10); OpSlot (ex_addr 1) (ex_hash 2) (ex_hash 77);
   OpCode (ex_hash 10) [byte_lit 96; byte_lit 0]].
Definition ex_b2 : Batch := MkBatch (u64_lit 102) (ex_hash 2) (ex_hash 1) (u64_lit 7000)
  [OpDestruct (ex_addr 1); OpAccount (ex_addr 1) (ex_acct 20); OpSlot (ex_addr 1) (ex_hash 4) (ex_hash 88)].
Definition ex_b3 : Batch := MkBatch (u64_lit 103) (ex_hash 3) (ex_hash 2) (u64_lit 9000)
  [OpSlot (ex_addr 1) (ex_hash 2) (ex_hash 99); OpDeleteSlot (ex_addr 1) (ex_hash 4);
   OpAccount (ex_addr 2) (ex_acct 30)].

Lemma ex_rows_lookup dk v :
  ex_rows !! key_bytes dk = Some v → dk = KMetaBaselineComplete ∨ dk = KMetaGenesis.
Proof.
  unfold ex_rows. intros [[->%key_bytes_inj _]|[_ [[->%key_bytes_inj _]|[_ Hl]]%lookup_insert_Some]]%lookup_insert_Some;
    [by left|by right|]. by rewrite lookup_empty in Hl.
Qed.

Lemma ex_wf : wf_db ex_rows.
Proof.
  apply wf_db_insert; [apply wf_db_insert; [apply wf_db_empty|]|done]. apply length_be_bytes.
Qed.

Lemma ex_fresh : fresh_above ex_rows ex_S.
Proof.
  intros dk b Hb _. destruct (ex_rows !! key_bytes dk) as [v|] eqn:E; [|done].
  by apply ex_rows_lookup in E as [->| ->].
Qed.

Lemma ex_recreated : recreated ex_rows.
Proof. intros a s b [v Hv]. by apply ex_rows_lookup in Hv as [?|?]. Qed.

Lemma ex_served : served ex_rows ex_S.
Proof.
  split_and!; [apply ex_wf|apply ex_recreated| |].
  - unfold genesis_row, ex_rows. change MetaGenesis with (key_bytes KMetaGenesis).
    rewrite lookup_insert_ne, lookup_insert_eq by done. cbn [fmap option_fmap option_map].
    by rewrite beU64_beBytes.
  - unfold baseline_complete, ex_rows. change MetaBaselineComplete with (key_bytes KMetaBaselineComplete).
    by rewrite lookup_insert_eq.
Qed.

Lemma ex_cache : cache_ok ex_db.
Proof. by split. Qed.

Lemma ex_encodable1 : encodable ex_b1.
Proof. eval_decide. Qed.
Lemma ex_encodable2 : encodable ex_b2.
Proof. eval_decide. Qed.
Lemma ex_encodable3 : encodable ex_b3.
Proof. eval_decide. Qed.
Lemma ex_contract1 : contract ex_b1.
Proof. eval_decide. Qed.
Lemma ex_contract2 : contract ex_b2.
Proof. eval_decide. Qed.
Lemma ex_contract3 : contract ex_b3.
Proof. eval_decide. Qed.

Lemma ex_chain : chain ex_S [ex_b1; ex_b2; ex_b3] (u64_lit 103).
Proof.
  apply (chain_snoc ex_S [ex_b1; ex_b2] (u64_lit 102) ex_b3);
    [|done|apply ex_encodable3|apply ex_contract3].
  apply (chain_snoc ex_S [ex_b1] (u64_lit 101) ex_b2);
    [|done|apply ex_encodable2|apply ex_contract2].
  apply (chain_snoc ex_S [] ex_S ex_b1); [constructor|done|apply ex_encodable1|apply ex_contract1].
Qed.

(** The baseline is empty: no account exists, every slot is zero. *)
Definition empty_world : world := MkWorld (λ _, None) (λ _ _, zero_hash).

Lemma ex_hist p B : hprefix p → hist ex_rows p B = None.
Proof.
  intros Hp. apply hist_None; [apply ex_wf|done|]. intros b _.
  destruct (ex_rows !! AppendInvBlock p b) as [v|] eqn:E; [|done].
  destruct Hp as [a|a s|a];
    [apply (ex_rows_lookup (KAccount a b)) in E|apply (ex_rows_lookup (KSlot a s b)) in E
    |apply (ex_rows_lookup (KDestruct a b)) in E]; by destruct E.
Qed.

Lemma ex_rows_miss dk :
  dk ≠ KMetaBaselineComplete → dk ≠ KMetaGenesis → ex_rows !! key_bytes dk = None.
Proof.
  intros H1 H2. destruct (ex_rows !! key_bytes dk) as [v|] eqn:E; [|done].
  by apply ex_rows_lookup in E as [?|?].
Qed.

Lemma ex_world B : db_world ex_keccak ex_rows B ≡ empty_world.
Proof.
  split.
  - intros a. cbn [db_world w_acct]. unfold read_account. rewrite !ex_hist by constructor.
    change (AppendBaseAccountKey [] (ex_keccak (abytes a)))
      with (key_bytes (KBaseAccount (ex_keccak (abytes a)))).
    by rewrite ex_rows_miss.
  - intros a s. cbn [db_world w_slot]. unfold read_slot. rewrite !ex_hist by constructor.
    change (AppendBaseSlotKey [] (ex_keccak (abytes a)) (ex_keccak (abytes s)))
      with (key_bytes (KBaseSlot (ex_keccak (abytes a)) (ex_keccak (abytes s)))).
    by rewrite ex_rows_miss.
Qed.

(** Every world of the example chain is live: account 1 exists from block 101
    on, account 2 has no storage. *)
Lemma ex_live : live_along empty_world [ex_b1; ex_b2; ex_b3].
Proof.
  intros i a Ha s. unfold stage in *.
  destruct i as [|[|[|i]]]; cbn [take apply_batches foldl] in *; [done|..];
    rewrite ?take_nil in *; cbn [foldl] in *; revert Ha;
    unfold apply_batch, apply_ops; cbn;
    repeat case_decide; naive_solver.
Qed.

(** ** An environment that fails

    The map again, except that one key can never be written: the error paths of
    the theorems are reachable. *)
Record flaky_env := MkFlaky { fl_rows : gmap bytes bytes }.

Definition flaky_key : bytes := key_bytes (KBaseAccount (ex_hash 13)).

#[local] Instance flaky_lmdb : Lmdb flaky_env := {|
  mdb_begin _ := LOk ();
  mdb_commit _ := LOk ();
  mdb_get e k := lres_of (fl_rows e !! k);
  mdb_put e k v :=
    if bool_decide (k = flaky_key) then LErr (-30792)%Z else LOk (MkFlaky (<[k:=v]> (fl_rows e)));
  mdb_del e k :=
    match fl_rows e !! k with
    | Some _ => LOk (MkFlaky (delete k (fl_rows e)))
    | None => LNotFound
    end;
  mdb_drop _ := LOk (MkFlaky ∅);
  mdb_set_range e k := lres_of (first_key (fl_rows e) (key_ge k));
  mdb_next e k := lres_of (first_key (fl_rows e) (key_gt k));
  mdb_prev e k := lres_of (last_key (fl_rows e) (key_lt k));
  mdb_last e := lres_of (last_key (fl_rows e) any_key)
|}.

#[local] Instance flaky_laws : LmdbLaws flaky_env.
Proof.
  refine {| contents := fl_rows; faults := True |}; try (intros; by left).
  - intros e k v _. simpl. case_bool_decide; [right; split; [done|by eexists]|left; by eexists].
  - intros e k. simpl. destruct (_ !! k) eqn:E; [left|right; left; done].
    eexists. by split_and!.
  - intros e. left. by eexists.
Defined.
