(* ===== verification/ExamplesSync.v ===== *)
(** * ExamplesSync: a small state trie and its sync

    Two accounts of one segment, one with code and one with two slots, a client
    that serves one leaf per request, and the rows of a run that was interrupted
    when every other segment was done; the instances of the sync theorems use
    them. *)

From Stdlib Require Import Sorted.
From S2P Require Import Prelude Schema Lmdb Capture World Store StoreRead StoreSpec StoreProof.
From S2P Require Import StoreReads StoreWrites Loader Concurrent StoreInv Scans SyncKeys Sync.
From S2P Require Import SyncTrie SyncInv SyncRun SyncServe Examples.

Definition sx_addr (n : Z) : Address := arr_of [byte_lit 1; wrap n].
Definition sx_key (n : Z) : Hash := ex_keccak (abytes (sx_addr n)).
Definition sx_root : Hash := ex_hash 1.
Definition sx_storage : Hash := ex_hash 5.
Definition sx_code : bytes := [byte_lit 96; byte_lit 0].

Definition sx_acc1 : LeafAccount :=
  MkLeafAccount (u64_lit 3) (Some (wrap 1000)) (EmptyRootHash ex_keccak) (abytes (ex_keccak sx_code)).
Definition sx_acc2 : LeafAccount :=
  MkLeafAccount (u64_lit 1) None sx_storage (abytes (EmptyCodeHash ex_keccak)).

Definition sx_rlp_account (val : bytes) : option LeafAccount :=
  if bool_decide (val = [byte_lit 1]) then Some sx_acc1
  else if bool_decide (val = [byte_lit 2]) then Some sx_acc2 else None.
Definition sx_rlp_content (val : bytes) : option bytes := Some val.

Definition sx_accounts : list leaf :=
  [(abytes (sx_key 1), [byte_lit 1]); (abytes (sx_key 2), [byte_lit 2])].
Definition sx_slots : list leaf :=
  [(abytes (ex_hash 4), [byte_lit 9]); (abytes (ex_hash 6), [byte_lit 8; byte_lit 7])].

Definition sx_trie (root : Hash) : list leaf :=
  if bool_decide (root = sx_root) then sx_accounts
  else if bool_decide (root = sx_storage) then sx_slots else [].

(** An honest server with [n] leaves per response. *)
Definition serve_leafs (Trie : Hash → list leaf) (n : nat) (req : LeafsRequest) : LeafsResponse :=
  let rest := from (default [] (lr_Start req)) (Trie (lr_Root req)) in
  MkLeafsResponse (take n rest).*1 (take n rest).*2 (bool_decide (n < length rest)).

Definition sx_client : Client :=
  MkClient (λ _ req, Ok (serve_leafs sx_trie 1 req))
    (λ _ hashes, if bool_decide (hashes = [ex_keccak sx_code]) then Ok [sx_code] else Err (ErrMsg "sync")).

(** All segments done but the one of the two accounts. *)
Definition sx_bitmap : bytes := byte_lit 253 :: replicate 31 (byte_lit 255).
Definition sx_rows : gmap bytes bytes := <[key_bytes KMetaBaselineProgress:=sx_bitmap]> ∅.
Definition sx_db : DB map_env := MkDB sx_rows u_zero false.

Definition sx_fuel : nat := 4.
Definition sx_scan_fuel (e : map_env) : nat := S (size e).

Abbreviation sx_Run sched d :=
  (Run ex_keccak sx_rlp_account sx_rlp_content ex_S sx_root default_vars sx_client 5 sx_fuel
     sx_scan_fuel sched d).

(** One interleaving: the writer lags behind the segment and the storage walk. *)
Definition sx_segment : list choice :=
  [ChStep [0] []; ChStep [0] [0]; ChStep [0] []; ChStep [0] []; ChStep [0] [];
   ChStep [0] []; ChStep [0] [0]; ChWriter; ChStep [0] []; ChStep [0] []; ChStep [] []; ChMain].
Definition sx_drain : list choice :=
  [ChWriter; ChWriter; ChWriter; ChMain; ChStep [] [];
   ChStep [0] []; ChStep [1] []; ChStep [0] []; ChStep [0] []; ChWriter; ChStep [0] [];
   ChStep [0] []; ChStep [] []; ChMain; ChWriter; ChWriter].
Definition sx_sched : list choice := sx_segment ++ sx_drain.

Example sx_run_ok : fst <$> sx_Run sx_sched sx_db = Some (Ok ()).
Proof. vm_compute. reflexivity. Qed.

(** In the middle of phase 2. *)
Example sx_prefix_ok :
  match Run_start ex_keccak sx_rlp_account ex_S sx_root sx_fuel sx_db with
  | (Ok s, _) =>
      match sys_run sx_rlp_content default_vars sx_client sx_fuel sx_scan_fuel
              (sx_segment ++ take 10 sx_drain) s with
      | Some s' => match y_phase s' with PhDrain _ => true | _ => false end
      | None => false
      end
  | _ => false
  end = true.
Proof. vm_compute. reflexivity. Qed.

(** ** The hypotheses hold *)

Lemma serve_leafs_ok Trie n req : n ≤ leafLimit → leafs_ok Trie False req (serve_leafs Trie n req).
Proof. intros Hn. exists n. by split_and!. Qed.

Lemma sx_trie_cases root : sx_trie root = sx_accounts ∨ sx_trie root = sx_slots ∨ sx_trie root = [].
Proof. unfold sx_trie. repeat case_bool_decide; auto. Qed.

Lemma two_leaves_ok (T : list leaf) k v k' v' :
  T = [(k, v); (k', v')] → (k < k')%bytes → length k = 32 → length k' = 32 → trie_ok T.
Proof.
  intros -> Hlt H1 H2. split.
  - repeat (constructor; [|repeat constructor; done]). constructor.
  - intros l [->|[->|Hl%elem_of_nil]%elem_of_cons]%elem_of_cons; done.
Qed.

Lemma sx_tries root : trie_ok (sx_trie root).
Proof.
  destruct (sx_trie_cases root) as [->|[->| ->]].
  - eapply two_leaves_ok; [done|by vm_compute|apply length_abytes..].
  - eapply two_leaves_ok; [done|by vm_compute|apply length_abytes..].
  - split; [constructor|]. by intros l Hl%elem_of_nil.
Qed.

Lemma sx_bounds :
  bounds_ok sx_rlp_account sx_root default_vars 5 sx_fuel sx_scan_fuel sx_trie.
Proof.
  assert (∀ root, length (sx_trie root) < sx_fuel) as Hl.
  { intros root. destruct (sx_trie_cases root) as [->|[->| ->]]; cbn; unfold sx_fuel; lia. }
  split; [apply sx_tries|done|apply Hl|intros; apply Hl|intros e; apply Nat.lt_succ_diag_r|lia].
Qed.

Lemma sx_client_ok : client_ok ex_keccak sx_client sx_trie False.
Proof.
  split.
  - intros n req resp [= <-]. apply serve_leafs_ok. unfold leafLimit. lia.
  - intros n hashes blobs. cbn. case_bool_decide as Hh; [|done]. intros [= <-]. subst. by repeat constructor.
Qed.

Lemma sx_wf : wf_db sx_rows.
Proof. apply wf_db_insert; [apply wf_db_empty|done]. Qed.

Lemma sx_cache : cache_ok sx_db.
Proof. by split. Qed.

Lemma sx_rows_miss dk : dk ≠ KMetaBaselineProgress → sx_rows !! key_bytes dk = None.
Proof. intros Hd. unfold sx_rows. rk. apply lookup_empty. Qed.

Lemma sx_no_slots h s : ¬ has_base_slot sx_rows h s.
Proof. intros [x Hx]. by rewrite sx_rows_miss in Hx. Qed.

Lemma sx_no_history : no_history sx_rows.
Proof. split_and!; intros; by apply sx_rows_miss. Qed.

(** Only the segment of the two accounts is open. *)
Lemma sx_open seg h :
  (0 ≤ seg < 256)%Z → bit_set sx_bitmap seg = true → leaf_key sx_trie sx_root h →
  head (abytes h) = Some (wrap seg) → False.
Proof.
  intros Hs Hb Hl Hh.
  assert (head (abytes h) = Some (byte_lit 1)) as Hh1.
  { unfold leaf_key in Hl. rewrite (eq_refl : sx_trie sx_root = sx_accounts) in Hl.
    apply elem_of_cons in Hl as [->|Hl]; [done|]. apply elem_of_cons in Hl as [->|Hl]; [done|].
    by apply elem_of_nil in Hl. }
  assert (byte_lit 1 = wrap seg) as Hq by congruence. clear Hh. apply (f_equal uval) in Hq as Hh.
  rewrite wrap_small in Hh by (change (2 ^ 8)%Z with 256%Z; lia). change (uval (byte_lit 1)) with 1%Z in Hh.
  subst seg. by vm_compute in Hb.
Qed.

Lemma sx_resumable :
  resumable ex_keccak sx_rlp_account sx_rlp_content sx_root default_vars sx_trie False sx_rows.
Proof.
  destruct (resumable_fresh ex_keccak sx_rlp_account sx_rlp_content sx_root default_vars sx_trie False ∅)
    as [bm Hi]; [by intros; apply lookup_empty|].
  exists sx_bitmap. apply (inv_cursor _ _ _ _ _ _ _ ∅ sx_rows bm); [|intros p Hp|done].
  { intros dk _ Hne. by rewrite sx_rows_miss. }
  assert (p = sx_bitmap) as ->.
  { destruct Hp as [Hp| ->]; [|done]. unfold sx_rows in Hp. by rewrite lookup_insert_eq in Hp; injection Hp. }
  split; [done|]. intros seg Hs Hb h Hl Hh. by destruct (sx_open seg h Hs Hb Hl Hh).
Qed.

(** ** An interrupted load of a giant trie

    One account with 35 slots: 32 small keys and three further up.  The rows are
    those of a load whose first response had two leaves, so that 33 leaves were
    loaded before it split the rest, and of whose ranges only the second one was
    committed. *)
Definition hx_small : list Hash := (λ i, arr_of (replicate 31 (byte_lit 0) ++ [wrap i])) <$> seqZ 1 32.
Definition hx_lost : Hash := arr_of [byte_lit 17].
Definition hx_keys : list Hash := hx_small ++ [arr_of [byte_lit 8]; hx_lost; arr_of [byte_lit 24]].
Definition hx_loaded : list Hash := hx_small ++ [arr_of [byte_lit 8]; arr_of [byte_lit 24]].

Definition hx_value : bytes := [byte_lit 1].
Definition hx_slots : list leaf := (λ s, (abytes s, hx_value)) <$> hx_keys.

Definition hx_trie (root : Hash) : list leaf :=
  if bool_decide (root = sx_root) then [(abytes (sx_key 2), [byte_lit 2])]
  else if bool_decide (root = sx_storage) then hx_slots else [].

Definition hx_client : Client :=
  MkClient (λ _ req, Ok (serve_leafs hx_trie 1 req)) (λ _ _, Err (ErrMsg "sync")).

Definition hx_account_rows : gmap bytes bytes :=
  <[key_bytes (KBaseAccount (sx_key 2)):=EncodeAccount [] (account_row sx_acc2)]>
    (<[key_bytes (KStorageQueue (sx_key 2)):=abytes sx_storage]> ∅).
Definition hx_rows : gmap bytes bytes :=
  foldr (λ s m, <[key_bytes (KBaseSlot (sx_key 2) s):=abytes (slot_value hx_value)]> m)
    hx_account_rows hx_loaded.
Definition hx_db : DB map_env := MkDB hx_rows u_zero false.

Definition hx_fuel : nat := 40.

Abbreviation hx_Run sched d :=
  (Run ex_keccak sx_rlp_account sx_rlp_content ex_S sx_root default_vars hx_client 5 hx_fuel
     sx_scan_fuel sched d).

(** The 256 segments, the fence, the scan, the 32 requests before the split, a
    request for each of the 16 ranges, and the writer behind everything. *)
Definition hx_sched : list choice :=
  (seq 0 256 ≫= λ i, [ChStep [i] []; ChStep [i] []; ChStep [i] []; ChWriter]) ++
  [ChStep [] []; ChMain; ChWriter; ChMain; ChStep [] []] ++
  replicate 64 (ChStep [0] []) ++
  (seq 0 16 ≫= λ i, [ChStep [0; i] []; ChStep [0; i] []; ChStep [0; i] []]) ++
  [ChStep [0] []; ChStep [0] []; ChStep [1] []; ChStep [] []; ChMain] ++ replicate 49 ChWriter.

(** Ascending keys, decided. *)
Fixpoint ascending (ks : list bytes) : bool :=
  match ks with
  | k :: (k' :: _) as ks' => bool_decide (k < k')%bytes && ascending ks'
  | _ => true
  end.

Lemma ascending_sorted ks : ascending ks = true → StronglySorted bytes_lt ks.
Proof.
  intros Ha. apply Sorted_StronglySorted; [intros x y z; apply bytes_lt_trans|].
  induction ks as [|k [|k' ks] IH]; [constructor|by repeat constructor|].
  apply andb_true_iff in Ha as [Hk%bool_decide_eq_true Ha]. constructor; [by apply IH|by constructor].
Qed.

Lemma hx_tries root : trie_ok (hx_trie root).
Proof.
  unfold hx_trie. repeat case_bool_decide.
  - split; [by repeat constructor|]. intros l [->|Hl%elem_of_nil]%elem_of_cons; [apply length_abytes|done].
  - split; [apply ascending_sorted; vm_compute; reflexivity|].
    intros l (s & -> & _)%list_elem_of_fmap. apply length_abytes.
  - split; [constructor|]. by intros l Hl%elem_of_nil.
Qed.

Lemma hx_bounds : bounds_ok sx_rlp_account sx_root default_vars 5 hx_fuel sx_scan_fuel hx_trie.
Proof.
  assert (∀ root, length (hx_trie root) < hx_fuel) as Hl.
  { intros root. unfold hx_trie. repeat case_bool_decide; apply Nat.ltb_lt; vm_compute; reflexivity. }
  split; [apply hx_tries|done|apply Hl|intros; apply Hl|intros e; apply Nat.lt_succ_diag_r|lia].
Qed.

Lemma hx_client_ok : client_ok ex_keccak hx_client hx_trie False.
Proof.
  split; [|done]. intros n req resp [= <-]. apply serve_leafs_ok. unfold leafLimit. lia.
Qed.

Lemma hx_is_account : is_account sx_rlp_account sx_root hx_trie (sx_key 2) sx_acc2.
Proof. exists [byte_lit 2]. split; [left|done]. Qed.

Lemma hx_has_storage : has_storage ex_keccak sx_acc2.
Proof. split; eval_decide. Qed.

Lemma hx_is_slot s : s ∈ hx_keys → is_slot sx_rlp_content hx_trie (la_Root sx_acc2) s (slot_value hx_value).
Proof.
  intros Hs. exists hx_value, hx_value. split; [|done].
  change (hx_trie (la_Root sx_acc2)) with hx_slots. by apply (list_elem_of_fmap_2 (λ s, (abytes s, hx_value))).
Qed.

Lemma hx_loaded_keys s : s ∈ hx_loaded → s ∈ hx_keys.
Proof.
  unfold hx_loaded, hx_keys. rewrite !elem_of_app, !elem_of_cons. tauto.
Qed.

Lemma hx_wf_rows : wf_db hx_rows.
Proof.
  unfold hx_rows. generalize hx_loaded. intros l. induction l as [|s l IH]; cbn [foldr].
  - apply wf_db_insert; [|apply length_EncodeAccount]. apply wf_db_insert; [apply wf_db_empty|apply length_abytes].
  - by apply wf_db_insert; [|apply length_abytes].
Qed.

(** The rows are those of an interrupted load. *)
Lemma hx_resumable :
  resumable ex_keccak sx_rlp_account sx_rlp_content sx_root default_vars hx_trie False hx_rows.
Proof.
  destruct (resumable_fresh ex_keccak sx_rlp_account sx_rlp_content sx_root default_vars hx_trie False ∅)
    as [bm Hi]; [by intros; apply lookup_empty|].
  exists bm. unfold hx_rows. pose proof hx_loaded_keys as Hk. revert Hk. generalize hx_loaded. intros l Hk.
  induction l as [|s l IH]; cbn [foldr].
  - apply (inv_put_account _ _ _ _ _ _ _ hx_tries); [apply hx_is_account| | |].
    + intros h' Hl _ Hlt. exfalso. unfold leaf_key in Hl. change (hx_trie sx_root) with [(abytes (sx_key 2), [byte_lit 2])] in Hl.
      apply elem_of_cons in Hl as [Hl|Hl%elem_of_nil]; [|done]. cbn [fst] in Hl. rewrite Hl in Hlt.
      by apply bytes_lt_irrefl in Hlt.
    + intros _. unfold queued. by rewrite lookup_insert_eq.
    + by apply (inv_put_queue _ _ _ _ _ _ _ ∅ bm (sx_key 2) sx_acc2); [apply hx_is_account|apply hx_has_storage|].
  - eapply (inv_put_slot _ _ _ _ _ _ _ hx_tries); [apply hx_is_account|apply hx_has_storage| |done|].
    + apply hx_is_slot, Hk. left.
    + apply IH. intros s' Hs'. apply Hk. by right.
Qed.

(** The resumed run returns without error and the slot is not there. *)
Example hx_run :
  match hx_Run hx_sched hx_db with
  | Some (Ok _, d') => bool_decide (rows d' !! key_bytes (KBaseSlot (sx_key 2) hx_lost) = None)
  | _ => false
  end = true.
Proof. vm_compute. reflexivity. Qed.
