(* ===== verification/ExamplesConsensus.v ===== *)
(** * ExamplesConsensus: a small network and its engine

    Containers of one byte, a consensus object that decides a child of the last
    accepted block at once when a poll is unanimous enough, a poll set that waits
    for all its validators, a quiet network of three validators, and a run of the
    engine from the first poll to the first accepted block. *)

From S2P Require Import Prelude Schema Capture Exec Node TrackerProof ConsensusState Consensus ConsensusInv.
From S2P Require Import ConsensusBoot ConsensusVotes ConsensusLoops ConsensusTracker Examples.

(** ** Containers *)

Definition cx_id (b : byte) : Hash := arr_of [b].
Definition cx_eth (b : byte) : Hash := arr_of [b; byte_lit 1].
Definition cx_prev (b : byte) : byte := u_sub b (byte_lit 1).

Definition cx_block (b : byte) : EthBlock unit :=
  MkEthBlock (MkHeader (cx_eth b) (wrap b) u_zero u_zero arr_zero [] (wrap (5000 + b))) (cx_eth (cx_prev b)) tt.

Definition cx_proposer (raw : bytes) : option (Hash * Hash * bytes) :=
  match raw with [b] => Some (cx_id b, cx_id (cx_prev b), raw) | _ => None end.
Definition cx_rlp (raw : bytes) : option (EthBlock unit) :=
  match raw with [b] => Some (cx_block b) | _ => None end.

Definition cx_container (b : byte) : Container unit := MkContainer (cx_id b) (cx_id (cx_prev b)) (cx_block b) [b].

Lemma cx_parsed rcv c : parsed cx_proposer cx_rlp rcv c → ∃ b, c = cx_container b ∧ [b] ∈ rcv.
Proof.
  intros (raw & Hin & Hr). destruct raw as [|b [|b' raw]]; cbn in Hr; [done| |done]. injection Hr as <-. by exists b.
Qed.

Lemma cx_eth_inj b b' : cx_eth b = cx_eth b' → b = b'.
Proof. intros He. apply (f_equal abytes) in He. unfold cx_eth in He. rewrite !abytes_arr_of_pad in He. by injection He. Qed.

(** ** A consensus object *)

Record tinycons := MkTiny { tx_blocks : gmap Hash (Container unit); tx_last : Hash; tx_pref : Hash }.

Definition tx_votes_for (votes : list Hash) (t : tinycons) : option (Container unit) :=
  match votes with
  | [] => None
  | v :: _ =>
      match tx_blocks t !! v with
      | Some c => if bool_decide (c_ParentID c = tx_last t) && (2 <=? bag_count votes v)%Z then Some c else None
      | None => None
      end
  end.

#[export] Instance tiny_consensus : Consensus tinycons unit := {|
  cs_Initialize _ id _ _ := Ok (MkTiny ∅ id id);
  cs_Add t c :=
    if bool_decide (is_Some (tx_blocks t !! c_ID c)) then ([], t, Some (ErrMsg "duplicate"))
    else if bool_decide (c_ParentID c = tx_last t) || bool_decide (is_Some (tx_blocks t !! c_ParentID c))
    then ([], MkTiny (<[c_ID c:=c]> (tx_blocks t)) (tx_last t) (c_ID c), None)
    else ([DReject c], t, None);
  cs_RecordPoll t votes :=
    match tx_votes_for votes t with
    | Some c =>
        (DAccept c :: (DReject <$> (map_to_list (delete (c_ID c) (tx_blocks t))).*2),
         MkTiny ∅ (c_ID c) (c_ID c), None)
    | None => ([], t, None)
    end;
  cs_stopped t _ := t;
  cs_Processing t id := bool_decide (is_Some (tx_blocks t !! id));
  cs_NumProcessing t := Z.of_nat (size (tx_blocks t));
  cs_Preference t := tx_pref t
|}.

(** All other blocks are rejected. *)
Lemma decides_rest (m : gmap Hash (Container unit)) last :
  (∀ id c, m !! id = Some c → c_ID c = id) →
  decides m last (DReject <$> (map_to_list m).*2) ∅ last.
Proof.
  induction m as [|id c m Hm Hf IH] using map_first_key_ind; intros Hk; [by rewrite map_to_list_empty|].
  rewrite map_to_list_insert_first_key by done. cbn [fmap list_fmap snd decides].
  assert (c_ID c = id) as <- by (apply Hk, lookup_insert_eq).
  rewrite lookup_insert_eq, delete_insert_id by done. split; [done|]. apply IH.
  intros id' c' Hc'. apply Hk. rewrite lookup_insert_ne; [done|]. intros <-. congruence.
Qed.

#[export] Instance tiny_laws : ConsensusLaws tinycons unit.
Proof.
  refine {| cs_blocks := tx_blocks; cs_last := tx_last;
    cs_wf t := (∀ id c, tx_blocks t !! id = Some c → c_ID c = id) ∧
      (∀ id c, tx_blocks t !! id = Some c → c_ParentID c = tx_last t ∨ is_Some (tx_blocks t !! c_ParentID c)) ∧
      (tx_pref t = tx_last t ∨ is_Some (tx_blocks t !! tx_pref t)) |}.
  - intros p id h tm t [= <-]. cbn. split_and!; try done; [..|by left]; by intros ? ? ?%lookup_empty_Some.
  - intros t id c (_ & Ht & _). apply Ht.
  - done.
  - intros t (_ & _ & Hp). exact Hp.
  - intros t c ds t' err (Hk & Ht & Hp). cbn. case_bool_decide as Hin; [intros [= <- <- <-]; split; [by left|done]|].
    assert (tx_blocks t !! c_ID c = None) as Hn by (destruct (tx_blocks t !! c_ID c); [by destruct Hin|done]).
    destruct (_ || _) eqn:Ep; intros [= <- <- <-]; cbn; (split; [auto|intros _]).
    + apply orb_true_iff in Ep. rewrite !bool_decide_eq_true in Ep. split_and!; [..|done|by left].
      * intros id c0 [[<- <-]|[_ ?]]%lookup_insert_Some; [done|by apply Hk].
      * intros id c0 Hc0.
        assert (∀ x, is_Some (tx_blocks t !! x) → is_Some (<[c_ID c:=c]> (tx_blocks t) !! x)) as Hup.
        { intros x [y Hy]. destruct (decide (x = c_ID c)) as [->|]; [by rewrite lookup_insert_eq|].
          rewrite lookup_insert_ne by done. by exists y. }
        apply lookup_insert_Some in Hc0 as [[<- <-]|[_ Hc0]]; [destruct Ep; auto|destruct (Ht _ _ Hc0); auto].
      * right. by rewrite lookup_insert_eq.
    + split_and!; [done|done|done|done|by right].
  - intros t votes ds t' err (Hk & Ht & Hp). cbn. destruct (tx_votes_for votes t) as [c|] eqn:Ev; intros [= <- <- <-].
    + unfold tx_votes_for in Ev. destruct votes as [|v votes]; [done|].
      destruct (tx_blocks t !! v) as [c0|] eqn:Ec; [|done]. destruct (_ && _) eqn:Eg; [|done]. injection Ev as ->.
      apply andb_true_iff in Eg as [Hpar%bool_decide_eq_true _]. pose proof (Hk _ _ Ec) as Hid.
      exists ∅, (c_ID c). cbn. split; [split_and!; [by rewrite Hid|done|]|].
      * apply decides_rest. intros id c' [_ Hc']%lookup_delete_Some. by apply Hk.
      * intros _. split_and!; [by intros ? ? ?%lookup_empty_Some..|by left|done|done].
    + exists (tx_blocks t), (tx_last t). by split_and!.
Defined.

(** ** Polls, a network and a sink *)

Abbreviation tinypolls := (gmap u32 (list NodeID * list Hash)).

Definition tp_answer (p : tinypolls) (req : u32) (node : NodeID) (votes : list Hash) : list (list Hash) * tinypolls :=
  match p !! req with
  | Some (waiting, bag) =>
      let waiting := filter (λ n, n ≠ node) waiting in
      let bag := bag ++ votes in
      match waiting with [] => ([bag], delete req p) | _ => ([], <[req:=(waiting, bag)]> p) end
  | None => ([], p)
  end.

#[export] Instance tiny_polls : PollSet tinypolls tinycons := {|
  pl_New _ _ := Ok ∅;
  pl_Add p req vdrs := if bool_decide (is_Some (p !! req)) then None else Some (<[req:=(vdrs, [])]> p);
  pl_Vote _ p req node id := tp_answer p req node [id];
  pl_Drop _ p req node := tp_answer p req node [];
  pl_Len p := Z.of_nat (size p)
|}.

Record quietnet := MkQuiet { qn_req : u32; qn_now : Z }.

Definition cx_node (n : Z) : NodeID := arr_of [wrap n].

#[export] Instance quiet_net : Net quietnet := {|
  nt_NextRequestID n :=
    let r := u_add (qn_req n) (u32_lit 1) in (r, MkQuiet r (qn_now n));
  nt_SampleValidators n _ := (Ok [cx_node 1; cx_node 2; cx_node 3], n);
  nt_IsConnected n _ := (true, n);
  nt_SelectPeer n := (Some (cx_node 1), n);
  nt_SendGet n _ _ _ := (Ok (), n);
  nt_SendGetAncestors n _ _ _ := (Ok (), n);
  nt_SendPullQuery n _ _ _ _ := (Ok (), n);
  nt_Now n := (qn_now n, MkQuiet (qn_req n) (qn_now n + 1));
  nt_Range n k := (seq 0 k, n)
|}.

(** A sink that keeps its layers. *)
#[export] Instance layers_sink : SinkOps (list Batch) := {|
  sink_Block l b := (Ok (), l ++ [b]);
  sink_Finalize l block hash :=
    match l with
    | b :: l' => if bool_decide (BHash b = hash ∧ Block b = block) then (Ok (), l') else (Err (ErrMsg "layers"), l)
    | [] => (Err (ErrMsg "layers"), l)
    end;
  sink_PreferenceReset _ bs := (Ok (), bs)
|}.

#[export] Instance layers_sink_laws : SinkLaws (list Batch).
Proof.
  refine {| sink_layers s := s |}.
  - by intros s b s' [= <-].
  - intros s block hash s'. cbn. destruct s as [|b s]; [done|]. case_bool_decide as Hb; intros [= <-]. by exists b; destruct Hb.
  - by intros s bs s' [= <-].
Defined.

Definition cx_make (h : u64) (hash : Hash) : result (list Batch) := Ok [].
(** The tracker beside the header-only executor. *)
Abbreviation cx_Node := (Tracker (list Batch) * unit)%type.
#[export] Instance cx_tracker_sink : EngineSink cx_Node := tracker_sink cx_make (λ x _, x).
#[export] Instance cx_executor : Executor cx_Node unit := tracker_executor.
#[export] Instance cx_executor_laws : ExecutorLaws cx_Node unit := tracker_executor_laws.
Definition cx_node0 : cx_Node := (NewTracker [] u_zero arr_zero, tt).

#[export] Instance bubbled_eq_dec : EqDecision bubbled.
Proof. solve_decision. Defined.

(** ** A run *)

Definition cx_params : Parameters := MkParameters 3 2 2 4.
Definition cx_user (resume : option Anchor) : UserConfig := MkUserConfig resume false u_zero (Some cx_params) 0 0 0.
Definition cx_cfg (resume : option Anchor) : Config := fill_config cx_params (cx_user resume).

Abbreviation cx_Engine := (Engine tinycons tinypolls (cx_Node * list sink_event) quietnet unit).

Definition cx_start : cx_Engine :=
  match New cx_params (λ _, None) (MkTiny ∅ arr_zero arr_zero) ∅ (cx_user None)
          (cx_node0, []) (MkQuiet u_zero 0) with
  | Ok (_, e) => e
  | Err _ => MkEngine phasePollAnchor None u_zero ∅ ∅ ∅ None arr_zero ∅ None None u_zero None
      (MkTiny ∅ arr_zero arr_zero) ∅ ∅ ∅ ∅ ∅ ∅ ∅ None arr_zero u_zero u_zero u_zero u_zero arr_zero u_zero arr_zero
      None (cx_node0, []) (MkQuiet u_zero 0)
  end.

Abbreviation cx_run resume evs := (run (cx_cfg resume) cx_proposer cx_rlp cx_start evs).

(** The first poll and two equal answers. *)
Definition cx_polled : list event :=
  [EvTick 2; EvChits (cx_node 1) (u32_lit 1) arr_zero arr_zero (cx_id (byte_lit 10)) (u64_lit 10);
   EvChits (cx_node 2) (u32_lit 1) arr_zero arr_zero (cx_id (byte_lit 10)) (u64_lit 10)].

(** The anchor's container; then its child, and a poll for it. *)
Definition cx_went_live : list event := cx_polled ++ [EvContainer (cx_node 1) [byte_lit 10]].
Definition cx_chit (n : Z) : event :=
  EvChits (cx_node n) (u32_lit 3) (cx_id (byte_lit 11)) (cx_id (byte_lit 11)) (cx_id (byte_lit 10)) (u64_lit 10).
Definition cx_accepted : list event :=
  cx_went_live ++ [EvContainer (cx_node 1) [byte_lit 11]; cx_chit 1; cx_chit 2; cx_chit 3].
