(* ===== verification/ExamplesFollower.v ===== *)
(** * ExamplesFollower: a follower over the example store

    The network of [ExamplesConsensus] and the store of [Examples], whose baseline
    is at height 100: the follower fetches the containers 100 and 99, goes live,
    executes block 101 and accepts it. *)

From S2P Require Import Prelude Schema Lmdb Capture World Store StoreRead StoreSpec StoreReads Reader Mem MemProof Tipbus.
From S2P Require Import TipbusProof Exec ExecProof Node TrackerProof SinkProof ConsensusState Consensus ConsensusInv.
From S2P Require Import ConsensusBoot ConsensusTracker Net FollowerMain Follower FollowerLog FollowerProof FollowerDry FollowerOpen.
From S2P Require Import Examples ExamplesConsensus.

(** Reads account 1 and gives it one more. *)
Definition fx_evm (_ _ : Header) (_ : unit) : evm_prog unit :=
  EAccount (ex_addr 1) (λ r,
    let nonce := match r with Ok (Some a) => u_add (sa_Nonce a) (u64_lit 1) | _ => u64_lit 1 end in
    EDone (Ok ([(None, UpdateAccount (ex_addr 1) (MkStateAccount nonce (Some (wrap 9)) []))], u_zero, ()))).

Definition fx_start : Anchor := MkAnchor ex_S None.
Definition fx_user : UserConfig := MkUserConfig (Some fx_start) true (u64_lit 1) (Some cx_params) 0 0 0.
Definition fx_cfg : Config := fill_config cx_params fx_user.

Abbreviation fx_sink := (liveSink map_env map_env).
Definition fx_node : fx_sink :=
  match open_live ex_keccak ex_db (∅ : map_env) with
  | Ok (_, k) => k
  | Err _ => MkLiveSink (NewTracker (NewSink (MkState ex_db NewMap [] [] u_zero arr_zero u_zero u_zero u_zero)
      (MkBus ∅ u_zero u_zero [])) u_zero arr_zero) (exec_New ex_db)
  end.

Abbreviation fx_Engine := (Engine tinycons tinypolls (fx_sink * list sink_event) quietnet unit).
Definition fx_engine : fx_Engine :=
  match New cx_params (λ _, None) (MkTiny ∅ arr_zero arr_zero) ∅ fx_user (fx_node, []) (MkQuiet u_zero 0) with
  | Ok (_, e) => e
  | Err _ => MkEngine phasePollAnchor None u_zero ∅ ∅ ∅ None arr_zero ∅ None None u_zero None
      (MkTiny ∅ arr_zero arr_zero) ∅ ∅ ∅ ∅ ∅ ∅ ∅ None arr_zero u_zero u_zero u_zero u_zero arr_zero u_zero arr_zero
      None (fx_node, []) (MkQuiet u_zero 0)
  end.

Definition fx_exec : Executor fx_sink unit := live_executor ex_keccak (ex_hash 99) fx_evm (λ _, arr_zero) (λ _, []).
Definition fx_run (evs : list event) : fx_Engine :=
  run (H1:=Logged (H:=live_sink)) (H2:=Logged_exec (H:=fx_exec)) fx_cfg cx_proposer cx_rlp fx_engine evs.

Definition fx_chit (n req acc : Z) (pref : byte) : event :=
  EvChits (cx_node n) (wrap req) (cx_id pref) (cx_id pref) (cx_id (wrap acc)) (wrap acc).

(** The anchor's poll, the two containers, the child, and a poll for it. *)
Definition fx_events : list event :=
  [EvTick 2; fx_chit 1 1 100 (byte_lit 100); fx_chit 2 1 100 (byte_lit 100);
   EvContainer (cx_node 1) [byte_lit 100]; EvContainer (cx_node 1) [byte_lit 99];
   EvContainer (cx_node 1) [byte_lit 101];
   fx_chit 1 4 100 (byte_lit 101); fx_chit 2 4 100 (byte_lit 101); fx_chit 3 4 100 (byte_lit 101)].

#[export] Instance sink_event_eq_dec : EqDecision sink_event.
Proof. solve_decision. Defined.

(** The batch of block 101 and the calls on the sink. *)
Definition fx_batch : Batch :=
  MkBatch (u64_lit 101) (cx_eth (byte_lit 101)) (cx_eth (byte_lit 100)) (wrap (5101 * 1000))
    [OpAccount (ex_addr 1) (MkAccount (wrap 9) (u64_lit 1) (ex_hash 99))].
Definition fx_log : list sink_event :=
  [SMake ex_S (cx_eth (byte_lit 100)); SVerified fx_batch; SHead (cx_eth (byte_lit 101));
   SAccepted (u64_lit 101) (cx_eth (byte_lit 101))].

Lemma fx_logged : log (fx_run fx_events) = fx_log.
Proof. eval_decide. Qed.

Lemma fx_batch_ok : batch_ok fx_batch.
Proof.
  split_and!; [eval_decide|eval_decide|]. intros w Hw a. unfold apply_batch, apply_ops. cbn. case_decide; [done|]. apply Hw.
Qed.

Lemma fx_verified b : SVerified b ∈ fx_log → b = fx_batch.
Proof.
  unfold fx_log. rewrite !elem_of_cons. by intros [[=]|[[= ->]|[[=]|[[=]|?%elem_of_nil]]]].
Qed.

Lemma fx_same : same_batches fx_log.
Proof. intros b b' ->%fx_verified ->%fx_verified. done. Qed.

Lemma fx_good : good_run fx_log.
Proof. split; [done|by intros b ->%fx_verified; apply fx_batch_ok|apply fx_same]. Qed.

Lemma cx_headers_ok rcv : eth_headers_ok cx_proposer cx_rlp rcv.
Proof. intros c c' (b & -> & _)%cx_parsed (b' & -> & _)%cx_parsed Hid. cbn in Hid. by apply cx_eth_inj in Hid as ->. Qed.

Lemma fx_complete : complete_store ex_keccak ex_db empty_world fx_start.
Proof.
  split; cbn [fx_start an_Height an_EthHash].
  - intros B HB. exists ex_S. split_and!; [apply ex_served|apply ex_cache|done|apply ex_world].
  - apply ex_fresh.
  - by intros ??.
  - right. split_and!; [by vm_compute|apply ex_served|done].
Qed.

Lemma fx_no_fault : ¬ any_fault (env:=map_env) (benv:=map_env).
Proof. by intros [?|?]. Qed.

Lemma fx_opened : open_live ex_keccak ex_db (∅ : map_env) = Ok (fx_start, fx_node).
Proof.
  assert (match open_live ex_keccak ex_db (∅ : map_env) with
    | Ok (a, _) => bool_decide (an_Height a = ex_S ∧ an_EthHash a = None) | Err _ => false end = true) as Hb
    by (vm_compute; reflexivity).
  unfold fx_node. destruct (open_live ex_keccak ex_db ∅) as [[[h o] k]|]; [|done].
  apply bool_decide_eq_true in Hb as [Hh Ho]. cbn in Hh, Ho. by subst.
Qed.

Lemma fx_new :
  New cx_params (λ _, None) (MkTiny ∅ arr_zero arr_zero) ∅ fx_user (fx_node, []) (MkQuiet u_zero 0) = Ok (fx_cfg, fx_engine).
Proof. reflexivity. Qed.

Lemma fx_run_eq :
  fx_run fx_events =
  run (H1:=Logged (H:=live_sink)) (H2:=Logged_exec (H:=live_executor ex_keccak (ex_hash 99) fx_evm (λ _, arr_zero) (λ _, [])))
    fx_cfg cx_proposer cx_rlp fx_engine fx_events.
Proof. reflexivity. Qed.

Lemma fx_few : (Z.of_nat (length (received (omap input_event (event_input <$> fx_events)))) < 2 ^ 64)%Z.
Proof. rewrite input_events. vm_compute. reflexivity. Qed.

Lemma fx_main_eq :
  (main_loop (H1:=Logged (H:=live_sink)) (H2:=Logged_exec (H:=live_executor ex_keccak (ex_hash 99) fx_evm (λ _, arr_zero) (λ _, [])))
     fx_cfg cx_proposer cx_rlp fx_engine (event_input <$> fx_events)).1 = fx_run fx_events.
Proof. rewrite fx_run_eq. by rewrite main_loop_events. Qed.

Lemma fx_ends :
  e_fatal (fx_run fx_events) = None ∧ e_phase (fx_run fx_events) = phaseLive ∧
  LastAccepted (fx_run fx_events) = (u64_lit 101, cx_eth (byte_lit 101)).
Proof. split_and!; [vm_compute; reflexivity..|eval_decide]. Qed.

(** ** The same run, dry *)


Definition fx_dry : drySink (DB map_env) :=
  match open_dry (Some ex_db) with Ok (_, k) => k | Err _ => MkDrySink None ∅ end.

Abbreviation fx_Dry := (Engine tinycons tinypolls (drySink (DB map_env) * list sink_event) quietnet unit).
Definition fx_dry_engine : fx_Dry :=
  match New cx_params (λ _, None) (MkTiny ∅ arr_zero arr_zero) ∅ fx_user (fx_dry, []) (MkQuiet u_zero 0) with
  | Ok (_, e) => e
  | Err _ => MkEngine phasePollAnchor None u_zero ∅ ∅ ∅ None arr_zero ∅ None None u_zero None
      (MkTiny ∅ arr_zero arr_zero) ∅ ∅ ∅ ∅ ∅ ∅ ∅ None arr_zero u_zero u_zero u_zero u_zero arr_zero u_zero arr_zero
      None (fx_dry, []) (MkQuiet u_zero 0)
  end.

Definition fx_dry_run (evs : list event) : fx_Dry :=
  run (H1:=Logged (H:=dry_sink)) (H2:=Logged_exec (H:=dry_executor (H:=db_reader ex_keccak) (ex_hash 99) fx_evm (λ _, arr_zero) (λ _, [])))
    fx_cfg cx_proposer cx_rlp fx_dry_engine evs.

Lemma fx_dry_logged : log (fx_dry_run fx_events) = fx_log.
Proof. eval_decide. Qed.

Lemma fx_dry_new :
  New cx_params (λ _, None) (MkTiny ∅ arr_zero arr_zero) ∅ fx_user (fx_dry, []) (MkQuiet u_zero 0) = Ok (fx_cfg, fx_dry_engine).
Proof. reflexivity. Qed.

Lemma fx_dry_run_eq :
  fx_dry_run fx_events =
  run (H1:=Logged (H:=dry_sink)) (H2:=Logged_exec (H:=dry_executor (H:=db_reader ex_keccak) (ex_hash 99) fx_evm (λ _, arr_zero) (λ _, [])))
    fx_cfg cx_proposer cx_rlp fx_dry_engine fx_events.
Proof. reflexivity. Qed.

Lemma fx_dry_main_eq :
  (main_loop (H1:=Logged (H:=dry_sink)) (H2:=Logged_exec (H:=dry_executor (H:=db_reader ex_keccak) (ex_hash 99) fx_evm (λ _, arr_zero) (λ _, [])))
     fx_cfg cx_proposer cx_rlp fx_dry_engine (event_input <$> fx_events)).1 = fx_dry_run fx_events.
Proof. rewrite fx_dry_run_eq. by rewrite main_loop_events. Qed.

Lemma fx_dry_ends :
  e_fatal (fx_dry_run fx_events) = None ∧ e_phase (fx_dry_run fx_events) = phaseLive ∧
  LastAccepted (fx_dry_run fx_events) = (u64_lit 101, cx_eth (byte_lit 101)).
Proof. split_and!; [vm_compute; reflexivity..|eval_decide]. Qed.

Lemma fx_no_faults : ¬ faults (env:=map_env).
Proof. by intros ?. Qed.

Lemma fx_dry_served d : Some ex_db = Some d → (BaselineComplete d).1 = Ok true → db_serves ex_keccak d Latest empty_world.
Proof. intros [= <-] _. exists ex_S. split_and!; [apply ex_served|apply ex_cache|done|apply ex_world]. Qed.

Lemma fx_dry_opened : open_dry (Some ex_db) = Ok (uc_Resume fx_user, fx_dry).
Proof. reflexivity. Qed.
