(* ===== verification/MainStore.v ===== *)
(** * MainStore: what the store promises

    The main theorems about the key schema, the batch codec, the store's reads
    and writes and the baseline loader, each with an instance on the example
    database. *)

From S2P Require Import Prelude Schema Lmdb Capture World Store StoreRead StoreSpec StoreProof.
From S2P Require Import StoreReads StoreWrites Loader Concurrent StoreInv Scans Examples.

(** A chain's batches are encodable, so storing them fails only on an LMDB
    fault. *)
Lemma chain_known S bs h : chain S bs h → Forall (λ b, known_ops (Ops b)) bs.
Proof.
  induction 1 as [|bs h b _ IH _ Henc _]; [constructor|]. apply Forall_app. split; [done|].
  constructor; [by apply encodable_known|constructor].
Qed.

Section chain.
Context {env : Type} `{LmdbLaws env} (keccak : bytes → Hash).

Lemma write_blocks_fails (d : DB env) bs e d' :
  Forall (λ b, known_ops (Ops b)) bs → write_blocks d bs = (Err e, d') →
  faults ∧ ∃ c, e = ErrLmdb c.
Proof.
  intros Hk. revert d. induction Hk as [|b bs Hb _ IH]; intros d Hw; cbn [write_blocks] in Hw; [done|].
  pose proof (WriteBlock_cases d b) as Hc. destruct (WriteBlock d b) as [[[]|er] d1]; [by eapply IH|].
  simplify_eq. by destruct Hc as (_ & [[_ Hn]|?]).
Qed.
End chain.

(** ** The archive *)

(** (C2) Archive correctness.  Take a database whose baseline is complete at
    height [S] and store the batches of a chain above [S] in order.  Either an
    LMDB call failed, or every block was stored and from then on [GetAccount]
    and [GetSlot] at any height [B] at or above [S] answer the world reached
    from the baseline by exactly the batches of height at most [B]: values,
    deletions, self-destructs and re-creations included, and never the answer of
    another height. *)
Theorem archive_reads {env : Type} `{LmdbLaws env} (keccak : bytes → Hash)
    (d : DB env) (S : u64) (bs : list Batch) (h B : u64) :
  served (rows d) S → cache_ok d → fresh_above (rows d) S → chain S bs h → (S ≤ B)%Z →
  let w := world_at (db_world keccak (rows d) S) bs B in
  match write_blocks d bs with
  | (Ok _, d') =>
      (∀ a, upto_faults (GetAccount keccak d' a B).1 (Ok (account_answer (w_acct w a)))) ∧
      (∀ a s, upto_faults (GetSlot keccak d' a s B).1 (Ok (w_slot w a s)))
  | (Err e, _) => faults ∧ ∃ c, e = ErrLmdb c
  end.
Proof.
  intros Hs Hc Hf Hch HB w. destruct (write_blocks d bs) as [[[]|e] d'] eqn:Hw.
  - by apply (archive_upto keccak d S bs h d').
  - by eapply write_blocks_fails, Hw; eapply chain_known.
Qed.

(** Storing the three example blocks and reading back at height 101. *)
Lemma archive_reads_witness :
  match write_blocks ex_db [ex_b1; ex_b2; ex_b3] with
  | (Ok _, d') =>
      (∀ a, upto_faults (GetAccount ex_keccak d' a (u64_lit 101)).1
         (Ok (account_answer (w_acct
            (world_at (db_world ex_keccak (rows ex_db) ex_S) [ex_b1; ex_b2; ex_b3] (u64_lit 101)) a)))) ∧
      (∀ a s, upto_faults (GetSlot ex_keccak d' a s (u64_lit 101)).1
         (Ok (w_slot
            (world_at (db_world ex_keccak (rows ex_db) ex_S) [ex_b1; ex_b2; ex_b3] (u64_lit 101)) a s)))
  | (Err e, _) => faults (env:=map_env) ∧ ∃ c, e = ErrLmdb c
  end.
Proof.
  apply (archive_reads ex_keccak ex_db ex_S [ex_b1; ex_b2; ex_b3] (u64_lit 103) (u64_lit 101));
    [exact ex_served|exact ex_cache|exact ex_fresh|exact ex_chain|done].
Defined.

(** The slot written at 101 reads back at 101, is gone after the destruct at
    102 and has its new value at 103. *)
Example archive_slot_story :
  let d := (write_blocks ex_db [ex_b1; ex_b2; ex_b3]).2 in
  let read B := (GetSlot ex_keccak d (ex_addr 1) (ex_hash 2) (wrap B)).1 in
  read 101%Z = Ok (ex_hash 77) ∧ read 102%Z = Ok zero_hash ∧ read 103%Z = Ok (ex_hash 99) ∧
  read 99%Z = Err ErrBelowGenesis.
Proof. split_and!; eval_decide. Qed.

(** (C6) Reads on every branch.  On any well-formed database with honest
    caches, [GetAccount] and [GetSlot] return what the rows say: the genesis and
    below-genesis errors, the newest row at or below the height unless a newer
    destruct wins, the hashed baseline row otherwise, [ErrDestructEdge] for a slot
    and a destruct of one block without the account, and for a miss the zero
    answer when the baseline is complete and [ErrBaselineIncomplete] when not;
    only an LMDB failure can replace that answer, no row changes and the caches
    stay honest. *)
Theorem store_reads {env : Type} `{LmdbLaws env} (keccak : bytes → Hash)
    (d : DB env) (a : Address) (s : Hash) (B : u64) :
  wf_db (rows d) → cache_ok d →
  (upto_faults (GetAccount keccak d a B).1 (spec_GetAccount keccak (rows d) a B) ∧
   db_env (GetAccount keccak d a B).2 = db_env d ∧ cache_ok (GetAccount keccak d a B).2) ∧
  (upto_faults (GetSlot keccak d a s B).1 (spec_GetSlot keccak (rows d) a s B) ∧
   db_env (GetSlot keccak d a s B).2 = db_env d ∧ cache_ok (GetSlot keccak d a s B).2).
Proof. split; [by apply GetAccount_upto|by apply GetSlot_upto]. Qed.

Lemma store_reads_witness :
  wf_db (rows ex_db) ∧
  upto_faults (GetSlot ex_keccak ex_db (ex_addr 1) (ex_hash 2) (u64_lit 99)).1 (Err ErrBelowGenesis).
Proof.
  split; [apply ex_wf|].
  destruct (store_reads ex_keccak ex_db (ex_addr 1) (ex_hash 2) (u64_lit 99))
    as [_ [Hr _]]; [exact ex_wf|exact ex_cache|].
  assert (spec_GetSlot ex_keccak (rows ex_db) (ex_addr 1) (ex_hash 2) (u64_lit 99) = Err ErrBelowGenesis)
    as <- by eval_decide. exact Hr.
Defined.

(** (C26) [WriteBlock] is one transaction with the rows of the block.  When it
    succeeds, the rows of the batch's height are what the last operation of the batch
    on them says: the account row decodes to that account, the slot row is that value
    (32 zero bytes for a deleted slot), a destruct row is there and empty, the code row
    is the code, the diff row decodes to the batch itself; where the batch says nothing
    of an account, slot or code the old row stays, and every other row of the
    store is untouched.  It fails with the store's own error only for an operation kind
    it does not know, or with an LMDB error, and then the handle is unchanged. *)
Theorem write_block_atomic {env : Type} `{LmdbLaws env} (d : DB env) (b : Batch) :
  match WriteBlock d b with
  | (Ok _, d') =>
      known_ops (Ops b) ∧ block_written b (rows d) (rows d') ∧ d' = set_env d (db_env d')
  | (Err er, d') =>
      d' = d ∧ (er = ErrMsg "store" ∧ ¬ known_ops (Ops b) ∨ faults ∧ ∃ c, er = ErrLmdb c)
  end.
Proof.
  pose proof (WriteBlock_cases d b) as Hw. destruct (WriteBlock d b) as [[[]|er] d']; [|done].
  destruct Hw as (Hk & -> & Hd). split_and!; [done|by apply block_rows_written|done].
Qed.

(** Both branches occur. *)
Example write_block_both :
  (WriteBlock ex_db ex_b1).1 = Ok () ∧
  (WriteBlock ex_db (MkBatch (u64_lit 101) (ex_hash 1) (ex_hash 0) (u64_lit 0) [OpOther (byte_lit 9)])).1
    = Err (ErrMsg "store").
Proof. split; eval_decide. Qed.

(** (C19) Type invariant of the store.  After any sequence of calls on a handle
    opened on a well-formed environment (block writes, finalized marks, baseline
    loading, direct baseline rows and reads, failed calls included) every row is a
    row of the schema with a value of its shape, a diff decodes to the block its
    key names, the cached genesis and completion flags are true, and every
    buffered loader row is a valid row. *)
Theorem store_invariant {env : Type} `{LmdbLaws env} (keccak : bytes → Hash)
    (d : DB env) (bl : Baseline) :
  store_run keccak d bl → wf_db (rows d) ∧ cache_ok d ∧ buffer_ok bl.
Proof. apply store_run_inv. Qed.

Lemma store_invariant_witness :
  let d := (WriteBlock ex_db ex_b1).2 in
  wf_db (rows d) ∧ cache_ok d ∧ buffer_ok (MkBaseline u_zero [] None).
Proof.
  cbv zeta. apply (store_invariant ex_keccak).
  apply (sr_block ex_keccak ex_db _ ex_b1 (WriteBlock ex_db ex_b1).1);
    [|apply ex_encodable1|by destruct (WriteBlock ex_db ex_b1)].
  apply (sr_open ex_keccak (ex_rows : map_env)), ex_wf.
Defined.

(** ** Loading the baseline *)

(** (C14) Captures and the snapshot load commute.  Run any interleaving of
    [WriteBlock] calls and snapshot-loader calls (hashed rows, storage queue,
    cursor, flushes) and then flush: the rows are those of the whole baseline
    loaded first with the captured blocks on top, whatever the interleaving. *)
Theorem capture_during_load {env : Type} `{LmdbLaws env}
    (d d1 d2 : DB env) (bl bl1 bl2 : Baseline) (acts : list act) :
  buffer_ok bl → snap_buffer bl → Forall (λ c, snap_call c = true) (act_loads acts) →
  act_run d bl acts = (Ok (), d1, bl1) → Flush d1 bl1 = (Ok (), d2, bl2) →
  rows d2 = write_all (foldl (call_effect (bl_s bl)) (view d bl) (act_loads acts)) (act_blocks acts).
Proof.
  intros Hb Hs Hcs Hrun Hf. destruct (act_run_view d bl acts d1 bl1 Hb Hs Hcs Hrun) as [Hb1 <-].
  pose proof (Flush_cases d1 bl1 Hb1) as Hc. rewrite Hf in Hc. apply Hc.
Qed.

Definition ex_acts : list act :=
  [ActLoad (CBaseAccount (ex_hash 1) (ex_acct 5)); ActBlock ex_b1;
   ActLoad (CQueueStorage (ex_hash 1) (ex_hash 8)); ActBlock ex_b2;
   ActLoad (CBaseSlot (ex_hash 1) (ex_hash 2) (ex_hash 3)); ActLoad (CDequeueStorage (ex_hash 1))].

Lemma capture_during_load_witness :
  let bl := MkBaseline ex_S [] None in
  let r := act_run ex_db bl ex_acts in
  let f := Flush r.1.2 r.2 in
  rows f.1.2 = write_all (foldl (call_effect ex_S) (view ex_db bl) (act_loads ex_acts)) [ex_b1; ex_b2].
Proof.
  cbv zeta.
  apply (capture_during_load ex_db (act_run ex_db (MkBaseline ex_S [] None) ex_acts).1.2 _
           (MkBaseline ex_S [] None) (act_run ex_db (MkBaseline ex_S [] None) ex_acts).2
           (Flush (act_run ex_db (MkBaseline ex_S [] None) ex_acts).1.2
              (act_run ex_db (MkBaseline ex_S [] None) ex_acts).2).2 ex_acts);
    [constructor|constructor|eval_decide|apply triple_eta; eval_decide|apply triple_eta; eval_decide].
Defined.

(** (C21) Crash consistency of the loader.  After any number of loader calls,
    successful or cut short by an error, the rows on disk are either untouched or
    exactly those of a prefix of the calls, progress cursor included: rows and
    cursor always move together.  When every call succeeded, disk and buffer
    together are the effect of all of them. *)
Theorem loader_crash_consistent {env : Type} `{LmdbLaws env}
    (d : DB env) (bl : Baseline) (cs : list lcall) :
  buffer_ok bl →
  match loader_run d bl cs with
  | (r, d', bl') =>
      (rows d' = rows d ∨ ∃ k, k ≤ length cs ∧
         rows d' = foldl (call_effect (bl_s bl)) (view d bl) (take k cs)) ∧
      (r = Ok () → view d' bl' = foldl (call_effect (bl_s bl)) (view d bl) cs)
  end.
Proof. apply loader_run_prefix. Qed.

Lemma loader_crash_consistent_witness :
  let cs := [CBaseAccount (ex_hash 1) (ex_acct 5); CSetProgress [byte_lit 1]; CFlush;
             CBaseAccount (ex_hash 2) (ex_acct 6)] in
  match loader_run ex_db (MkBaseline ex_S [] None) cs with
  | (r, d', bl') =>
      (rows d' = rows ex_db ∨ ∃ k, k ≤ length cs ∧
         rows d' = foldl (call_effect ex_S) (view ex_db (MkBaseline ex_S [] None)) (take k cs)) ∧
      (r = Ok () → view d' bl' = foldl (call_effect ex_S) (view ex_db (MkBaseline ex_S [] None)) cs)
  end.
Proof. cbv zeta. apply (loader_crash_consistent ex_db (MkBaseline ex_S [] None)). constructor. Defined.

(** [Finish] closes the baseline exactly once it is complete.  It succeeds
    only if no account is left in the storage queue after the pending rows are
    flushed, and then the completion mark is set, the cursor is gone and the
    in-memory flag agrees; with accounts still queued it returns the store's error
    and the database is not marked; an LMDB failure is the only other error. *)
Theorem finish_complete {env : Type} `{LmdbLaws env} (d : DB env) (bl : Baseline) :
  wf_db (rows d) → buffer_ok bl →
  let v := apply_blops (rows d) (bl_ops bl) in
  match Finish d bl with
  | (Ok _, d', _) =>
      queue_empty v ∧ baselineDone d' = true ∧
      rows d' = <[MetaBaselineComplete:=[byte_lit 1]]> (delete MetaBaselineProgress v)
  | (Err er, d', _) =>
      (rows d' = rows d ∨ rows d' = v) ∧ baselineDone d' = baselineDone d ∧
      (er = ErrMsg "store" ∧ ¬ queue_empty v ∨ faults ∧ ∃ c, er = ErrLmdb c)
  end.
Proof. apply Finish_cases. Qed.

Definition ex_loading : DB map_env := MkDB (<[key_bytes KMetaGenesis:=beBytes ex_S]> ∅) u_zero false.

Lemma finish_complete_witness :
  (Finish ex_loading (MkBaseline ex_S [] None)).1.1 = Ok () ∧
  baselineDone (Finish ex_loading (MkBaseline ex_S [] None)).1.2 = true.
Proof.
  assert (wf_db (rows ex_loading)) as Hwf.
  { apply (wf_db_insert _ KMetaGenesis); [apply wf_db_empty|apply length_be_bytes]. }
  pose proof (finish_complete ex_loading (MkBaseline ex_S [] None) Hwf (Forall_nil_2 _)) as Hf.
  assert ((Finish ex_loading (MkBaseline ex_S [] None)).1.1 = Ok ()) as Hok by eval_decide.
  split; [exact Hok|].
  destruct (Finish ex_loading (MkBaseline ex_S [] None)) as [[[r|e] d'] bl'];
    [exact (proj1 (proj2 Hf))|discriminate Hok].
Defined.

Example finish_queued :
  (Finish ex_loading (MkBaseline ex_S
     [MkBlOp (AppendStorageQueueKey [] (ex_hash 1)) (abytes (ex_hash 2)) false] None)).1.1
  = Err (ErrMsg "store").
Proof. eval_decide. Qed.

(** Replaying a block is harmless.  Storing a batch a second time, as a
    restarted follower does with the block it was finalizing, succeeds (LMDB
    faults apart) and leaves every row as it was. *)
Theorem write_block_replay {env : Type} `{LmdbLaws env} (d d1 : DB env) (b : Batch) :
  WriteBlock d b = (Ok (), d1) →
  match WriteBlock d1 b with
  | (Ok _, d2) => rows d2 = rows d1
  | (Err e, d2) => d2 = d1 ∧ faults ∧ ∃ c, e = ErrLmdb c
  end.
Proof.
  intros H1. pose proof (WriteBlock_cases d b) as Hc. rewrite H1 in Hc. destruct Hc as (Hk & Hr & _).
  pose proof (WriteBlock_cases d1 b) as Hc. destruct (WriteBlock d1 b) as [[[]|e] d2].
  - destruct Hc as (_ & -> & _). rewrite Hr. apply block_rows_idempotent.
  - destruct Hc as (-> & [[_ Hn]|Hf]); [done|]. by split.
Qed.

Lemma write_block_replay_witness :
  let d1 := (WriteBlock ex_db ex_b1).2 in
  match WriteBlock d1 ex_b1 with
  | (Ok _, d2) => rows d2 = rows d1
  | (Err e, d2) => d2 = d1 ∧ faults (env:=map_env) ∧ ∃ c, e = ErrLmdb c
  end.
Proof.
  cbv zeta. apply (write_block_replay ex_db (WriteBlock ex_db ex_b1).2 ex_b1).
  assert ((WriteBlock ex_db ex_b1).1 = Ok ()) as Ho by eval_decide.
  destruct (WriteBlock ex_db ex_b1) as [r d1]. cbn [fst snd] in *. by rewrite Ho.
Defined.

(** ** Resuming a load: the ordered scans *)

(** One page of the storage queue.  With enough fuel for the rows present,
    [StorageQueueAfter] terminates and returns, in ascending order, queue rows
    after the cursor with their roots; a queued account after the cursor is on the
    page, unless the page is full and the account sorts after all of it.  Paging
    from the last entry therefore visits every account. *)
Theorem queue_page {env : Type} `{LmdbLaws env} (fuel : nat) (d : DB env) (after : option Hash) (max : Z) :
  wf_db (rows d) → size (rows d) < fuel →
  ∃ l, upto_faults (StorageQueueAfter fuel d after max) (Ok l) ∧ page_ok (rows d) after max l.
Proof. apply StorageQueueAfter_upto. Qed.

Definition ex_queued : DB map_env :=
  MkDB (<[key_bytes (KStorageQueue (ex_hash 1)):=abytes (ex_hash 7)]>
          (<[key_bytes (KStorageQueue (ex_hash 2)):=abytes (ex_hash 8)]> ex_rows)) u_zero false.

Lemma ex_queued_wf : wf_db (rows ex_queued).
Proof.
  apply (wf_db_insert _ (KStorageQueue (ex_hash 1))); [|apply length_abytes].
  apply (wf_db_insert _ (KStorageQueue (ex_hash 2))); [apply ex_wf|apply length_abytes].
Qed.

Lemma queue_page_witness :
  ∃ l, upto_faults (env:=map_env) (StorageQueueAfter 10 ex_queued None 1) (Ok l) ∧
    page_ok (rows ex_queued) None 1 l.
Proof.
  apply (queue_page 10 ex_queued None 1); [exact ex_queued_wf|].
  apply (bool_decide_unpack _). vm_compute. exact I.
Defined.

Example queue_pages :
  StorageQueueAfter 10 ex_queued None 1 = Ok [(ex_hash 1, ex_hash 7)] ∧
  StorageQueueAfter 10 ex_queued (Some (ex_hash 1)) 5 = Ok [(ex_hash 2, ex_hash 8)].
Proof. split; eval_decide. Qed.

(** The resume point of the account walk.  [MaxBaseAccountWithPrefix]
    returns the greatest account hash with that first byte that has a baseline
    row, and nothing exactly when there is none. *)
Theorem max_base_account {env : Type} `{LmdbLaws env} (d : DB env) (p : byte) :
  wf_db (rows d) →
  ∃ o, upto_faults (MaxBaseAccountWithPrefix d p) (Ok o) ∧
    match o with
    | Some h =>
        has_base_account (rows d) h ∧ head (abytes h) = Some p ∧
        ∀ h', has_base_account (rows d) h' → head (abytes h') = Some p → (abytes h' ≤ abytes h)%bytes
    | None => ∀ h, has_base_account (rows d) h → head (abytes h) ≠ Some p
    end.
Proof. apply MaxBaseAccountWithPrefix_upto. Qed.

Lemma max_base_account_witness :
  ∃ o, upto_faults (env:=map_env) (MaxBaseAccountWithPrefix ex_db (byte_lit 0)) (Ok o) ∧
    match o with
    | Some h =>
        has_base_account (rows ex_db) h ∧ head (abytes h) = Some (byte_lit 0) ∧
        ∀ h', has_base_account (rows ex_db) h' → head (abytes h') = Some (byte_lit 0) →
          (abytes h' ≤ abytes h)%bytes
    | None => ∀ h, has_base_account (rows ex_db) h → head (abytes h) ≠ Some (byte_lit 0)
    end.
Proof. apply (max_base_account ex_db (byte_lit 0)). exact ex_wf. Defined.

(** The resume point of a storage walk.  [MaxBaseSlot] returns the
    greatest slot hash of the account that has a row and lies within the range's
    end (cut or zero-padded to 32 bytes; no end is the top of the key space), and nothing
    exactly when every such slot is below the range's start. *)
Theorem max_base_slot {env : Type} `{LmdbLaws env} (d : DB env) (h : Hash) (start end_ : option bytes) :
  wf_db (rows d) →
  ∃ o, upto_faults (MaxBaseSlot d h start end_) (Ok o) ∧
    match o with
    | Some s =>
        has_base_slot (rows d) h s ∧ (abytes s ≤ range_end end_)%bytes ∧ ¬ below_start s start ∧
        ∀ s', has_base_slot (rows d) h s' → (abytes s' ≤ range_end end_)%bytes →
          (abytes s' ≤ abytes s)%bytes
    | None =>
        ∀ s, has_base_slot (rows d) h s → (abytes s ≤ range_end end_)%bytes → below_start s start
    end.
Proof. apply MaxBaseSlot_upto. Qed.

Lemma max_base_slot_witness :
  ∃ o, upto_faults (env:=map_env) (MaxBaseSlot ex_db (ex_hash 1) None None) (Ok o) ∧
    match o with
    | Some s =>
        has_base_slot (rows ex_db) (ex_hash 1) s ∧ (abytes s ≤ range_end None)%bytes ∧
        ¬ below_start s None ∧
        ∀ s', has_base_slot (rows ex_db) (ex_hash 1) s' → (abytes s' ≤ range_end None)%bytes →
          (abytes s' ≤ abytes s)%bytes
    | None =>
        ∀ s, has_base_slot (rows ex_db) (ex_hash 1) s → (abytes s ≤ range_end None)%bytes →
          below_start s None
    end.
Proof. apply (max_base_slot ex_db (ex_hash 1) None None). exact ex_wf. Defined.

(** ** Codecs and keys *)

(** The account row codec is a bijection between accounts and the byte
    strings it accepts: [DecodeAccount] succeeds with [a] exactly on
    [EncodeAccount a], and every encoding has the fixed row size. *)
Theorem account_codec (b : bytes) (a : Account) :
  (DecodeAccount b = Ok a ↔ b = EncodeAccount [] a) ∧
  length (EncodeAccount [] a) = AccountSize.
Proof. split; [apply DecodeAccount_iff|apply length_EncodeAccount]. Qed.

(** (C37) The batch codec.  [Decode] accepts exactly the encodings of encodable
    batches (fewer than 2^32 operations of known kinds, code shorter than 2^32
    bytes) and returns that batch; every encodable batch has an encoding.  Trailing
    bytes, truncation and unknown kinds are all refused. *)
Theorem batch_codec (data : bytes) (b : Batch) :
  (Decode data = Ok b ↔ encodable b ∧ Encode b [] = Some data) ∧
  (encodable b → is_Some (Encode b [])).
Proof. split; [apply Decode_iff|apply Encode_total]. Qed.

Lemma batch_codec_witness :
  encodable ex_b2 ∧ is_Some (Encode ex_b2 []).
Proof. split; [exact ex_encodable2|]. apply (batch_codec [] ex_b2). exact ex_encodable2. Defined.

(** The key layout.  Distinct rows have distinct keys across the whole
    schema, every key starts with its table's tag, and within one history the byte
    order of keys is the reverse order of heights, so a forward seek from the key
    of height [B] meets the newest row at or below [B] first. *)
Theorem key_layout (k k' : dbkey) (p : bytes) (b B : u64) :
  (key_bytes k = key_bytes k' ↔ k = k') ∧ head (key_bytes k) = Some (key_tag k) ∧
  length (key_bytes k) = key_len k ∧
  ((AppendInvBlock p B ≤ AppendInvBlock p b)%bytes ↔ (b ≤ B)%Z).
Proof.
  split_and!; [split; [apply key_bytes_inj|by intros ->]|apply head_key_bytes|apply length_key_bytes|].
  apply AppendInvBlock_order.
Qed.

(** ** A failed flush *)

(** A flush that fails drops its rows but keeps its cursor.  If a flush
    with cursor [p] fails and the loader is flushed again, the second flush commits
    the cursor [p] on top of the rows from before the first one: the cursor is
    then ahead of the rows it stands for. *)
Theorem failed_flush_cursor {env : Type} `{LmdbLaws env}
    (d d1 d2 : DB env) (bl bl1 bl2 : Baseline) (er : error) (p : bytes) :
  buffer_ok bl → bl_progress bl = Some p →
  Flush d bl = (Err er, d1, bl1) → Flush d1 bl1 = (Ok (), d2, bl2) →
  rows d2 = <[MetaBaselineProgress:=p]> (rows d).
Proof. apply Flush_failed_then. Qed.

#[local] Existing Instances flaky_lmdb flaky_laws.

Definition ex_flaky_db : DB flaky_env := MkDB (MkFlaky ex_rows) u_zero false.
Definition ex_flaky_bl : Baseline :=
  MkBaseline ex_S [MkBlOp (AppendBaseAccountKey [] (ex_hash 13)) (EncodeAccount [] (ex_acct 1)) false]
    (Some [byte_lit 42]).

Lemma failed_flush_cursor_witness :
  let f1 := Flush ex_flaky_db ex_flaky_bl in
  let f2 := Flush f1.1.2 f1.2 in
  rows f2.1.2 = <[MetaBaselineProgress:=[byte_lit 42]]> (rows ex_flaky_db).
Proof.
  cbv zeta.
  apply (failed_flush_cursor ex_flaky_db (Flush ex_flaky_db ex_flaky_bl).1.2 _ ex_flaky_bl
           (Flush ex_flaky_db ex_flaky_bl).2
           (Flush (Flush ex_flaky_db ex_flaky_bl).1.2 (Flush ex_flaky_db ex_flaky_bl).2).2
           (ErrLmdb (-30792)%Z));
    [|done|apply triple_eta; eval_decide|apply triple_eta; eval_decide].
  constructor; [|constructor]. exists (KBaseAccount (ex_hash 13)).
  split_and!; [done|done|]. intros _. apply length_EncodeAccount.
Defined.
