(* ===== verification/MainTip.v ===== *)
(** * MainTip: what the tip state, the bus and the node promise

    The main theorems about the in-memory tip state, the tip bus, the tracker
    and the composite sink, baseline loading and resume, and replay sessions. *)

From Stdlib Require Import Sorted.
From S2P Require Import Prelude Schema Lmdb Capture World Store StoreRead StoreSpec StoreProof.
From S2P Require Import StoreReads StoreWrites Loader Reader Mem MemProof Tipbus TipbusProof TipReader.
From S2P Require Import Replay Sessions Node TrackerProof SinkProof NodeProof Examples.

(** ** The tip state *)

(** (C7) Tip reads.  In every state reachable by registrations, executor reads,
    blocks, preference resets, store commits and finalizations, an account or slot
    read through any registered side buffer answers the world at the tip: the
    committed world with every unfinalized layer applied.  It does so whatever
    was pinned before and whichever part of the layers the store already has, and
    the state stays coherent; only a failing store read can return an error. *)
Theorem mem_reads_tip {db : Type} `{ReaderLaws db} (s : State db) (W0 : world) (j i : nat)
    (a : Address) (k : Hash) :
  mem_run s W0 j → i < length (s_buffers s) →
  (∃ r s', with_buffer s i (λ s sb, st_Account s a sb) = Some (r, s') ∧
     answers rd_faulty r (account_answer (w_acct (tip_world s W0) a)) ∧ coherent s' W0 j) ∧
  (∃ r s', with_buffer s i (λ s sb, st_Slot s a k sb) = Some (r, s') ∧
     answers rd_faulty r (w_slot (tip_world s W0) a k) ∧ coherent s' W0 j).
Proof.
  intros Hr%mem_run_coherent Hi. split.
  - pose proof (with_buffer_account s W0 j i a Hr) as Hw.
    destruct (with_buffer s i _) as [[r s']|]; [by exists r, s'|lia].
  - pose proof (with_buffer_slot s W0 j i a k Hr) as Hw.
    destruct (with_buffer s i _) as [[r s']|]; [by exists r, s'|lia].
Qed.

#[local] Instance ex_reader : Reader (DB map_env) := db_reader ex_keccak.
#[local] Instance ex_reader_laws : ReaderLaws (DB map_env) := db_reader_laws ex_keccak.

(** A fresh tip state over the example store with one executor, and the same
    after blocks 101 and 102. *)
Definition ex_mem0 : State (DB map_env) :=
  MkState ex_db NewMap [] [] u_zero arr_zero u_zero u_zero u_zero.
Definition ex_mem1 : State (DB map_env) := Register ex_mem0 NewSideBuffer.
Definition ex_mem2 : State (DB map_env) := ApplyBlock ex_mem1 ex_b1.
Definition ex_mem3 : State (DB map_env) := ApplyBlock ex_mem2 ex_b2.

Lemma ex_serves : serves ex_db Latest empty_world.
Proof. exists ex_S. split_and!; [apply ex_served|apply ex_cache|done|apply ex_world]. Qed.

Lemma ex_run1 : mem_run ex_mem1 empty_world 0.
Proof.
  apply run_register. apply (run_new ex_db); [reflexivity|apply ex_serves|by intros ??].
Qed.

Lemma ex_run3 : mem_run ex_mem3 empty_world 0.
Proof.
  apply run_block; [apply run_block; [apply ex_run1|]|].
  - exact (ex_live 1).
  - exact (ex_live 2).
Qed.

Lemma mem_reads_tip_witness :
  ∃ r s', with_buffer ex_mem3 0 (λ s sb, st_Slot s (ex_addr 1) (ex_hash 2) sb) = Some (r, s') ∧
     answers rd_faulty r (w_slot (tip_world ex_mem3 empty_world) (ex_addr 1) (ex_hash 2)) ∧
     coherent s' empty_world 0.
Proof.
  apply (mem_reads_tip ex_mem3 empty_world 0 0 (ex_addr 1) (ex_hash 2)); [apply ex_run3|].
  apply (bool_decide_unpack _). vm_compute. exact I.
Defined.

(** The write operations move the tip world.  On a coherent state a block
    extends the tip world by its batch, a preference reset makes it the committed
    world with the new preferred chain applied, and finalizing the oldest layer
    succeeds and changes no answer at all: the batch moves from the layers into the
    committed world.  A finalize that fails leaves the layers and the answers
    alone. *)
Theorem mem_writes_move_tip {db : Type} `{ReaderLaws db} (s : State db) (W0 : world) (j : nat) :
  mem_run s W0 j →
  (∀ b, live (apply_batch (tip_world s W0) b) →
     coherent (ApplyBlock s b) W0 j ∧
     tip_world (ApplyBlock s b) W0 = apply_batch (tip_world s W0) b) ∧
  (∀ bs, take j bs = take j (batches s) → j ≤ length bs → live_along W0 bs →
     coherent (PreferenceReset s bs) W0 j ∧
     tip_world (PreferenceReset s bs) W0 = apply_batches W0 bs) ∧
  (∀ b bs j', batches s = b :: bs → j = S j' →
     ∃ s', st_Finalize s (Block b) (BHash b) = (Ok (), s') ∧
       coherent s' (apply_batch W0 b) j' ∧ s_finalized s' = Block b ∧
       tip_world s' (apply_batch W0 b) = tip_world s W0) ∧
  (∀ block hash er s', st_Finalize s block hash = (Err er, s') →
     coherent s' W0 j ∧ tip_world s' W0 = tip_world s W0).
Proof.
  intros Hr%mem_run_coherent. unfold tip_world. split_and!.
  - intros b Hl. destruct (ApplyBlock_coherent s W0 j b Hr Hl) as [Hc ->]. split; [done|].
    by rewrite apply_batches_app.
  - intros bs Ht Hj Hl. by destruct (PreferenceReset_coherent s W0 j bs Hr Ht Hj Hl) as [Hc ->].
  - intros b bs j' Hb ->. destruct (Finalize_coherent s W0 j' b bs Hr Hb) as (s' & Hf & Hc & Hbs & Hfin).
    exists s'. split_and!; [done..|]. by rewrite Hb, Hbs.
  - intros block hash er s' ->%Finalize_err. split; [|done]. by apply lockAndDrain_coherent.
Qed.

Lemma mem_writes_move_tip_witness :
  coherent (ApplyBlock ex_mem3 ex_b3) empty_world 0 ∧
  tip_world (ApplyBlock ex_mem3 ex_b3) empty_world = apply_batch (tip_world ex_mem3 empty_world) ex_b3.
Proof.
  apply (mem_writes_move_tip ex_mem3 empty_world 0); [apply ex_run3|]. exact (ex_live 3).
Defined.

(** The stamp names the tip.  In every reachable state with layers,
    [TipInfo] is the hash, height and time in seconds of the newest layer: a
    batch of simulations stamped with it ran on that block. *)
Theorem tip_stamp {db : Type} `{ReaderLaws db} (s : State db) (W0 : world) (j : nat) (b : Batch) :
  mem_run s W0 j → last (batches s) = Some b → TipInfo s = stamp b.
Proof. intros Hr Hl. by apply (mem_run_stamp s W0 j Hr). Qed.

Lemma tip_stamp_witness : TipInfo ex_mem3 = stamp ex_b2.
Proof. apply (tip_stamp ex_mem3 empty_world 0); [apply ex_run3|reflexivity]. Defined.

(** A reset to the finalized block leaves the stamp behind.  When the
    preferred chain becomes empty, the reads go back to the committed world but
    [TipInfo] still names the block that was dropped, so comparing stamps does not
    notice the reorganisation. *)
Theorem empty_reset_keeps_stamp {db : Type} `{ReaderLaws db} (s : State db) (W0 : world) (b : Batch) :
  mem_run s W0 0 → live W0 → last (batches s) = Some b →
  coherent (PreferenceReset s []) W0 0 ∧ tip_world (PreferenceReset s []) W0 = W0 ∧
  TipInfo (PreferenceReset s []) = stamp b.
Proof.
  intros Hr Hl Hb. pose proof (mem_run_coherent s W0 0 Hr) as Hc.
  destruct (PreferenceReset_coherent s W0 0 [] Hc) as [Hc' Hbs]; [done|done| |].
  { intros i. unfold stage. by rewrite take_nil. }
  split_and!; [done| |].
  - unfold tip_world. by rewrite Hbs.
  - by apply (mem_run_stamp s W0 0 Hr).
Qed.

Lemma empty_reset_keeps_stamp_witness :
  coherent (PreferenceReset ex_mem3 []) empty_world 0 ∧
  tip_world (PreferenceReset ex_mem3 []) empty_world = empty_world ∧
  TipInfo (PreferenceReset ex_mem3 []) = stamp ex_b2.
Proof.
  apply (empty_reset_keeps_stamp ex_mem3 empty_world ex_b2); [apply ex_run3|by intros ??|reflexivity].
Defined.

(** ** The tip bus *)

(** (C16) A follower rebuilds the publisher's view.  Open a bus, publish some
    events, let a follower shake hands, publish more: the handshake gives the
    publisher's finalized height and layers at that moment, polling from its
    sequence number gives exactly the later events in order, and applying them to
    the handshake gives the publisher's current view, which is also the fold of
    every event from the empty view. *)
Theorem bus_follower {env : Type} `{LmdbLaws env} (e e0 : env) (b0 b1 b2 : Bus env)
    (evs1 evs2 : list Event) :
  OpenWriter e = (Ok b0, e0) → published b0 evs1 b1 → published b1 evs2 b2 →
  (Z.of_nat (length (evs1 ++ evs2)) < 2 ^ 64)%Z →
  upto_faults (Handshake (b_env b1)) (Ok (b_finalized b1, b_layers b1, b_seq b1)) ∧
  upto_faults (Poll (b_env b2) (b_seq b1)) (Ok (evs2, b_seq b2)) ∧
  foldl apply_event (b_finalized b1, b_layers b1) evs2 = (b_finalized b2, b_layers b2) ∧
  foldl apply_event (u_zero, []) (evs1 ++ evs2) = (b_finalized b2, b_layers b2).
Proof.
  intros Ho H1 H2 Hlen. pose proof (OpenWriter_cases e) as Hc. rewrite Ho in Hc.
  destruct Hc as (Hi0 & Hm0 & _). rewrite length_app in Hlen.
  destruct (published_inv b0 [] evs1 b1 H1 Hi0) as [Hi1 Hm1]; [cbn; lia|]. cbn [app] in Hi1.
  destruct (published_inv b1 evs1 evs2 b2 H2 Hi1) as [Hi2 Hm2]; [rewrite length_app; lia|].
  unfold bus_mirror in *. split_and!.
  - by eapply Handshake_upto.
  - pose proof (Poll_upto b2 (evs1 ++ evs2) (b_seq b1) Hi2) as Hp.
    pose proof (bi_seq _ _ Hi1) as Hs1. pose proof (bi_seq _ _ Hi2) as Hs2.
    rewrite length_app in Hs2. rewrite (proj2 (Z.leb_le _ _)) in Hp by lia.
    by rewrite Hs1, Nat2Z.id, drop_app_length in Hp.
  - by rewrite Hm2.
  - by rewrite foldl_app, <-Hm0, <-Hm1, Hm2.
Qed.

Definition ex_bus0 : Bus map_env :=
  match (OpenWriter (∅ : map_env)).1 with Ok b => b | Err _ => MkBus ∅ u_zero u_zero [] end.
Definition ex_bus1 : Bus map_env := (publish_event ex_bus0 (EvBlock ex_b1)).2.
Definition ex_bus2 : Bus map_env := (publish_event ex_bus1 (EvBlock ex_b2)).2.
Definition ex_bus3 : Bus map_env := (publish_event ex_bus2 (EvFinalize (u64_lit 101) (ex_hash 1))).2.

Lemma ex_open : OpenWriter (∅ : map_env) = (Ok ex_bus0, (OpenWriter (∅ : map_env)).2).
Proof. vm_compute. reflexivity. Qed.

Lemma publish_ok (b : Bus map_env) ev : (publish_event b ev).1 = Ok () →
  publish_event b ev = (Ok (), (publish_event b ev).2).
Proof. by destruct (publish_event b ev) as [r b']; cbn; intros ->. Qed.

Lemma ex_published1 : published ex_bus0 [EvBlock ex_b1] ex_bus1.
Proof.
  apply (published_snoc ex_bus0 [] ex_bus0); [constructor|eval_decide|eval_decide|].
  apply publish_ok. eval_decide.
Qed.

Lemma ex_published3 : published ex_bus1 [EvBlock ex_b2; EvFinalize (u64_lit 101) (ex_hash 1)] ex_bus3.
Proof.
  apply (published_snoc ex_bus1 [EvBlock ex_b2] ex_bus2); [|eval_decide|eval_decide|].
  - apply (published_snoc ex_bus1 [] ex_bus1); [constructor|eval_decide|eval_decide|].
    apply publish_ok. eval_decide.
  - apply publish_ok. eval_decide.
Qed.

Lemma bus_follower_witness :
  upto_faults (Handshake (b_env ex_bus1)) (Ok (b_finalized ex_bus1, b_layers ex_bus1, b_seq ex_bus1)) ∧
  upto_faults (Poll (b_env ex_bus3) (b_seq ex_bus1))
    (Ok ([EvBlock ex_b2; EvFinalize (u64_lit 101) (ex_hash 1)], b_seq ex_bus3)) ∧
  foldl apply_event (b_finalized ex_bus1, b_layers ex_bus1)
    [EvBlock ex_b2; EvFinalize (u64_lit 101) (ex_hash 1)] = (b_finalized ex_bus3, b_layers ex_bus3) ∧
  foldl apply_event (u_zero, [])
    ([EvBlock ex_b1] ++ [EvBlock ex_b2; EvFinalize (u64_lit 101) (ex_hash 1)])
    = (b_finalized ex_bus3, b_layers ex_bus3).
Proof.
  apply (bus_follower (∅ : map_env) (OpenWriter (∅ : map_env)).2 ex_bus0 ex_bus1 ex_bus3
           [EvBlock ex_b1] [EvBlock ex_b2; EvFinalize (u64_lit 101) (ex_hash 1)]);
    [exact ex_open|exact ex_published1|exact ex_published3|done].
Defined.

(** Publishing is atomic.  On a bus whose log holds [evs], publishing an
    event either appends it to the log and moves the published view by exactly
    that event, or leaves the environment as it was, and then the event was a
    finalize that does not match the oldest layer or an LMDB call failed. *)
Theorem publish_atomic {env : Type} `{LmdbLaws env} (b : Bus env) (evs : list Event) (ev : Event) :
  bus_inv b evs → event_ok ev → frames_ok (apply_event (bus_mirror b) ev).2 →
  (Z.of_nat (length evs) + 1 < 2 ^ 64)%Z →
  match publish_event b ev with
  | (Ok _, b') => bus_inv b' (evs ++ [ev]) ∧ bus_mirror b' = apply_event (bus_mirror b) ev
  | (Err er, b') =>
      b_env b' = b_env b ∧
      ((∃ height hash, ev = EvFinalize height hash ∧ Block <$> head (b_layers b) ≠ Some height) ∨
       faults ∧ ∃ c, er = ErrLmdb c)
  end.
Proof. apply publish_event_step. Qed.

Lemma ex_bus0_inv : bus_inv ex_bus0 [].
Proof. pose proof (OpenWriter_cases (∅ : map_env)) as Hc. rewrite ex_open in Hc. apply Hc. Qed.

Lemma publish_atomic_witness :
  match publish_event ex_bus0 (EvBlock ex_b1) with
  | (Ok _, b') => bus_inv b' [EvBlock ex_b1] ∧ bus_mirror b' = apply_event (bus_mirror ex_bus0) (EvBlock ex_b1)
  | (Err er, b') =>
      b_env b' = b_env ex_bus0 ∧
      ((∃ height hash, EvBlock ex_b1 = EvFinalize height hash ∧
          Block <$> head (b_layers ex_bus0) ≠ Some height) ∨
       faults (env:=map_env) ∧ ∃ c, er = ErrLmdb c)
  end.
Proof.
  apply (publish_atomic ex_bus0 [] (EvBlock ex_b1)); [apply ex_bus0_inv|eval_decide|eval_decide|done].
Defined.

(** Events survive the wire: every well-formed event has an encoding, and
    [decodeEvent] gives the event back. *)
Theorem event_roundtrip (ev : Event) :
  event_ok ev → ∃ p, encode_event ev = Some p ∧ decodeEvent p = Ok ev.
Proof.
  intros Hok. destruct (encode_event_total ev Hok) as [p Hp]. exists p. split; [done|].
  by apply decode_encode_event.
Qed.

Lemma event_roundtrip_witness :
  ∃ p, encode_event (EvReset [ex_b1; ex_b2]) = Some p ∧ decodeEvent p = Ok (EvReset [ex_b1; ex_b2]).
Proof. apply (event_roundtrip (EvReset [ex_b1; ex_b2])). eval_decide. Defined.

(** ** The tracker *)

(** (C23) The tracker's invariant.  After any successful calls on a tracker over
    any lawful sink, the published stack is a chain of parent links starting at
    the finalized block, the sink holds exactly that chain, the table maps each
    hash to the batch of that hash, only batches above the finalized height are
    kept, and the finalized hash is the one accepted last. *)
Theorem tracker_invariant {sink : Type} `{SinkLaws sink} (t : Tracker sink) (fs : list Hash) :
  tracker_run t fs → tracker_inv t ∧ head fs = Some (t_finalizedHash t).
Proof. apply tracker_run_inv. Qed.

Definition ex_sink0 : Sink map_env map_env := NewSink ex_mem1 ex_bus0.
Definition ex_tracker0 : Tracker (Sink map_env map_env) :=
  Verified (Verified (NewTracker ex_sink0 ex_S (ex_hash 0)) ex_b1) ex_b2.

Lemma ex_tracker0_run : tracker_run ex_tracker0 [ex_hash 0].
Proof. apply tr_verified, tr_verified, tr_new. reflexivity. Qed.

Lemma result_eta {A B : Type} (x : result A * B) (r : result A) : x.1 = r → x = (r, x.2).
Proof. by destruct x; cbn; intros ->. Qed.

Lemma tracker_invariant_witness :
  let t := (Head 5 ex_tracker0 (ex_hash 2)).2 in
  tracker_inv t ∧ head [ex_hash 0] = Some (t_finalizedHash t).
Proof.
  cbv zeta. apply tracker_invariant. apply (tr_head 5 ex_tracker0 [ex_hash 0] (ex_hash 2)); [apply ex_tracker0_run|].
  apply result_eta. vm_compute. reflexivity.
Defined.

(** What [Head] and [Accepted] do.  A successful [Head] leaves a chain
    from the finalized block to exactly the requested head; a successful [Accepted]
    makes the accepted block, a child of the old finalized one, the finalized
    block, and drops it from the published chain.  [Head] fails only when the
    requested head is not connected or the sink fails, and in the first case
    nothing changes. *)
Theorem tracker_moves {sink : Type} `{SinkLaws sink} (t : Tracker sink) :
  tracker_inv t →
  (∀ fuel hash, match Head fuel t hash with
    | (Ok _, t') =>
        tracker_inv t' ∧ tip_of (t_finalizedHash t') (t_stack t') = hash ∧
        t_finalizedHash t' = t_finalizedHash t
    | (Err e, t') =>
        t' = t ∧ chainTo fuel t hash = Err e ∨
        (∃ b s', sink_Block (t_sink t) b = (Err e, s')) ∨
        (∃ bs s', sink_PreferenceReset (t_sink t) bs = (Err e, s'))
    end) ∧
  (∀ block hash t', Accepted t block hash = (Ok (), t') →
     tracker_inv t' ∧ t_finalizedHash t' = hash ∧ t_finalizedHeight t' = block ∧
     ∃ b, BHash b = hash ∧ Parent b = t_finalizedHash t).
Proof.
  intros Hi. split; [|intros block hash t'; by apply Accepted_inv].
  intros fuel hash. destruct (Head fuel t hash) as [[[]|e] t'] eqn:Eh; [by eapply Head_inv|].
  revert Eh. unfold Head. destruct (chainTo fuel t hash) as [chain|e'] eqn:Ec; [|intros; simplify_eq; by left].
  destruct (sameChain chain (t_stack t)); [done|]. destruct (_ && _) eqn:El.
  - destruct (last chain) as [b|] eqn:Elast.
    + cbn [t_sink set_stack]. destruct (sink_Block (t_sink t) b) as [r s'] eqn:Eb. intros [= -> _].
      right; left. by exists b, s'.
    + apply last_None in Elast as ->. apply andb_true_iff in El as [El%Nat.eqb_eq _]. cbn in El. lia.
  - cbn [t_sink set_stack]. destruct (sink_PreferenceReset (t_sink t) chain) as [r s'] eqn:Eb.
    intros [= -> _]. right; right. by exists chain, s'.
Qed.

Lemma tracker_moves_witness :
  match Head 5 ex_tracker0 (ex_hash 1) with
  | (Ok _, t') =>
      tracker_inv t' ∧ tip_of (t_finalizedHash t') (t_stack t') = ex_hash 1 ∧
      t_finalizedHash t' = ex_hash 0
  | (Err e, t') =>
      t' = ex_tracker0 ∧ chainTo 5 ex_tracker0 (ex_hash 1) = Err e ∨
      (∃ b s', sink_Block (t_sink ex_tracker0) b = (Err e, s')) ∨
      (∃ bs s', sink_PreferenceReset (t_sink ex_tracker0) bs = (Err e, s'))
  end.
Proof.
  apply (tracker_moves ex_tracker0). apply (tracker_run_inv ex_tracker0 [ex_hash 0]), ex_tracker0_run.
Defined.

(** (C35) The parent walk terminates and is exact.  When heights descend along
    parent links, a walk with one unit of fuel more than the table has entries
    never runs out of fuel: it succeeds exactly for the hashes connected to the
    finalized block, with the chain of parent links that ends at the hash, and
    fails with the tracker's own error for the others. *)
Theorem chain_walk_exact {sink : Type} (fuel : nat) (t : Tracker sink) (hash : Hash) :
  keyed t → descending t → size (t_table t) < fuel →
  match chainTo fuel t hash with
  | Ok chain =>
      connected t hash ∧ linked (t_finalizedHash t) chain ∧ tip_of (t_finalizedHash t) chain = hash ∧
      ∀ b, b ∈ chain → t_table t !! BHash b = Some b
  | Err e => e = ErrMsg "node" ∧ ¬ connected t hash
  end.
Proof.
  intros Hk Hd Hf. pose proof (chainTo_complete fuel t hash Hd Hf) as Hc.
  destruct (chainTo fuel t hash) as [chain|e] eqn:E; [|done]. split; [done|].
  by apply chainTo_spec in E.
Qed.

Lemma ex_tracker0_descending : descending ex_tracker0.
Proof.
  intros h b b'. unfold ex_tracker0. cbn. intros Hb Hb'.
  repeat setoid_rewrite lookup_insert_Some in Hb. repeat setoid_rewrite lookup_insert_Some in Hb'.
  setoid_rewrite lookup_empty in Hb. setoid_rewrite lookup_empty in Hb'.
  destruct Hb as [[<- <-]|[_ [[<- <-]|[_ ?]]]]; [|destruct Hb' as [[Heq _]|[_ [[Heq _]|[_ ?]]]]|done];
    [destruct Hb' as [[Heq _]|[_ [[_ <-]|[_ ?]]]]; [|done|done]|..]; try done; exfalso; revert Heq; eval_decide.
Qed.

Lemma chain_walk_exact_witness :
  match chainTo 3 ex_tracker0 (ex_hash 2) with
  | Ok chain =>
      connected ex_tracker0 (ex_hash 2) ∧ linked (ex_hash 0) chain ∧ tip_of (ex_hash 0) chain = ex_hash 2 ∧
      ∀ b, b ∈ chain → t_table ex_tracker0 !! BHash b = Some b
  | Err e => e = ErrMsg "node" ∧ ¬ connected ex_tracker0 (ex_hash 2)
  end.
Proof.
  apply (chain_walk_exact 3 ex_tracker0 (ex_hash 2));
    [|apply ex_tracker0_descending|apply (bool_decide_unpack _); vm_compute; exact I].
  apply (tracker_run_inv ex_tracker0 [ex_hash 0]), ex_tracker0_run.
Defined.

(** ** The composite sink *)

(** (C10) Finalizing through the node.  On a node whose tip state, store and bus
    agree, finalizing the oldest layer stores the block, records the finalized
    height, folds the layer and publishes the event: afterwards they agree again on
    the remaining layers, the archive has the batch under its height, and no tip
    read has changed its answer.  When a step fails an LMDB call failed, and the
    tip reads still answer the same world. *)
Theorem node_finalize {env benv : Type} `{LmdbLaws env, LmdbLaws benv} (keccak : bytes → Hash)
    (s : Sink env benv) (W0 : world) (h : u64) (evs : list Event) (b : Batch) (bs : list Batch) :
  sink_inv keccak s W0 h evs → sk_layers s = b :: bs → (Z.of_nat (length evs) + 1 < 2 ^ 64)%Z →
  match Sink_Finalize s (Block b) (BHash b) with
  | (Ok _, s') =>
      sink_inv keccak s' (apply_batch W0 b) (Block b) (evs ++ [EvFinalize (Block b) (BHash b)]) ∧
      sk_layers s' = bs ∧ reads_kept keccak s s' W0 ∧
      rows (s_db (sk_st s')) !! MetaFinalized = Some (beBytes (Block b)) ∧
      db_archives (s_db (sk_st s')) (Block b) (Some b)
  | (Err _, s') => any_fault (env:=env) (benv:=benv) ∧ reads_kept keccak s s' W0
  end.
Proof. apply Sink_Finalize_step. Qed.

Definition ex_sink1 : Sink map_env map_env := (Sink_Block ex_sink0 ex_b1).2.

Lemma ex_sink0_inv : sink_inv ex_keccak ex_sink0 empty_world ex_S [].
Proof.
  split; [exact (mem_run_coherent _ _ _ ex_run1)|exact ex_fresh|exact ex_bus0_inv|reflexivity| |done].
  intros b Hb. by apply elem_of_nil in Hb.
Qed.

Lemma ex_sink1_inv : sink_inv ex_keccak ex_sink1 empty_world ex_S [EvBlock ex_b1].
Proof.
  pose proof (Sink_Block_step ex_keccak ex_sink0 empty_world ex_S [] ex_b1 ex_sink0_inv) as Hs.
  assert ((Sink_Block ex_sink0 ex_b1).1 = Ok ()) as Hok by eval_decide.
  unfold ex_sink1. destruct (Sink_Block ex_sink0 ex_b1) as [r s']. cbn [fst snd] in *. subst r.
  apply Hs; [|exact (ex_live 1)|intros b' Hb'; by apply elem_of_nil in Hb'|eval_decide|done].
  split_and!; [done|apply ex_encodable1|apply ex_contract1|done].
Qed.

(** ** The node beside a reader process *)

Section tip.
Context {env benv : Type} `{LmdbLaws env, LmdbLaws benv} (keccak : bytes → Hash).
#[local] Instance tip_store : Reader (DB env) := db_reader keccak.
#[local] Instance tip_store_laws : ReaderLaws (DB env) := db_reader_laws keccak.

(** (C8) A reader process follows the tip.  While the node takes blocks, resets and
    finalizations, another process on the same store starts from a handshake, polls,
    and applies the events one by one, with executors reading in between; its steps
    interleave with the node's in any way, also between the writes of a finalization.
    Then the reader's view is always the published view after the events it has
    applied, and when it has caught up it has the node's own layers over the node's
    finalized blocks; no event makes it resync or stop; and whenever the blocks the
    node has written and the reader has not yet seen finalized are among its layers,
    every read of an account or slot at its tip answers the world of the finalized
    blocks and layers of that view. *)
Theorem tip_reader_follows (W0 : world) (w : writer env benv) (h : u64) (evs : list Event) (F : list Batch)
    (f : follower (DB env)) (d : DB env) :
  node_run keccak W0 (MkNsys w h evs F (Some f) d) →
  ∃ n, let '(Fn, L) := tip_history (take n evs) in
    uval (fo_next f) = Z.of_nat (n + length (fo_events f)) ∧ batches (fo_st f) = L ∧
    (∀ s, w = w_idle s → fo_events f = [] → fo_next f = b_seq (sk_bus s) → L = sk_layers s ∧ Fn = F) ∧
    (∀ ev rest bus, fo_events f = ev :: rest →
       ∃ f', follow (env:=benv) bus f = Ok (Some f') ∧ fo_events f' = rest ∧ fo_next f' = fo_next f) ∧
    (drop (length Fn) F `prefix_of` L → ∀ i a k,
       match with_buffer (fo_st f) i (λ s sb, st_Account s a sb), with_buffer (fo_st f) i (λ s sb, st_Slot s a k sb) with
       | Some (ra, _), Some (rs, _) =>
           answers rd_faulty ra (account_answer (w_acct (apply_batches W0 (Fn ++ L)) a)) ∧
           answers rd_faulty rs (w_slot (apply_batches W0 (Fn ++ L)) a k)
       | _, _ => length (s_buffers (fo_st f)) ≤ i
       end).
Proof.
  intros Hn. destruct (node_run_ok keccak W0 _ Hn) as [Hw Hr]. cbn in Hw, Hr.
  pose proof (ts_run_inv W0 _ _ Hr) as Hi. destruct (ti_reader _ _ _ Hi f eq_refl) as [n Hat]. exists n.
  pose proof (λ ev rest bus, ts_reader_goes W0 _ evs F _ d f n ev rest bus Hi Hat) as Hgo. pose proof (ts_reader_reads W0 _ evs F _ d f n Hi Hat) as Hrd.
  destruct Hat as (Hle & Hnx & _ & Hb & _). cbn [sy_evs sy_bus sy_committed] in *.
  destruct (tip_history (take n evs)) as [Fn L] eqn:Eh. split_and!; [exact Hnx|exact Hb| |exact Hgo|exact Hrd].
  intros s -> He Hs. destruct Hw as [Hsi HF]. rewrite He, Hs, (bi_seq _ _ (si_bus _ _ _ _ _ Hsi)) in Hnx. cbn in Hnx.
  rewrite take_ge in Eh by lia. rewrite Eh in HF. split; [|exact HF].
  pose proof (ti_layers _ _ _ Hi) as Hly. cbn in Hly. rewrite Eh in Hly. by rewrite <-(si_mirror _ _ _ _ _ Hsi).
Qed.
End tip.

(** A reader that has started on the empty bus and applied the first block, with a
    side buffer registered. *)
Definition ex_step (bus : Bus map_env) (f : follower (DB map_env)) : follower (DB map_env) :=
  match follow (b_env bus) f with Ok (Some f') => f' | _ => f end.
Definition ex_fo0 : follower (DB map_env) :=
  match start ex_db (b_env ex_bus0) with Ok f => f | Err _ => MkFollower ex_mem0 [] u_zero u_zero end.
Definition ex_fo1 : follower (DB map_env) := ex_step ex_bus1 ex_fo0.
Definition ex_fo2 : follower (DB map_env) := ex_step ex_bus1 ex_fo1.
Definition ex_fo3 : follower (DB map_env) := set_st ex_fo2 (Register (fo_st ex_fo2) NewSideBuffer).

(** The steps succeed; that is all that has to be computed of them. *)
Lemma ex_follow (bus : Bus map_env) (f : follower (DB map_env)) :
  match follow (b_env bus) f with Ok (Some _) => true | _ => false end = true → follow (b_env bus) f = Ok (Some (ex_step bus f)).
Proof. unfold ex_step. by destruct (follow (b_env bus) f) as [[]|]. Qed.
Lemma ex_started : start ex_db (b_env ex_bus0) = Ok ex_fo0.
Proof.
  assert (match start ex_db (b_env ex_bus0) with Ok _ => true | Err _ => false end = true) as Hok by (vm_compute; reflexivity).
  unfold ex_fo0. by destruct (start ex_db (b_env ex_bus0)).
Qed.
Lemma ex_sink1_eq : Sink_Block ex_sink0 ex_b1 = (Ok (), ex_sink1).
Proof.
  assert ((Sink_Block ex_sink0 ex_b1).1 = Ok ()) as Hok by eval_decide. unfold ex_sink1. rewrite <-Hok. by apply surjective_pairing.
Qed.
Lemma ex_sink1_bus : sk_bus ex_sink1 = ex_bus1.
Proof.
  unfold ex_sink1, Sink_Block, ex_bus1, publish_event. change (sk_bus ex_sink0) with ex_bus0. by destruct (PublishBlock ex_bus0 ex_b1).
Qed.

Lemma ex_node_run : node_run ex_keccak empty_world (MkNsys (w_idle ex_sink1) ex_S [EvBlock ex_b1] [] (Some ex_fo3) ex_db).
Proof.
  eapply nr_reader; [|apply rm_register]. eapply nr_reader.
  2: { apply rm_follow. cbn [writer_sink]. rewrite ex_sink1_bus. apply ex_follow. vm_compute. reflexivity. }
  eapply nr_reader.
  2: { apply rm_follow. cbn [writer_sink]. rewrite ex_sink1_bus. apply ex_follow. vm_compute. reflexivity. }
  eapply (nr_block _ _ ex_sink0 _ []); [|exact ex_sink1_eq|..].
  - eapply nr_reader; [|apply rm_start; exact ex_started].
    eapply nr_open; [apply ex_open|exact ex_sink0_inv|reflexivity|apply ex_cache].
  - split_and!; [done|apply ex_encodable1|apply ex_contract1|done].
  - exact (ex_live 1).
  - intros b' Hb'. by apply elem_of_nil in Hb'.
  - eval_decide.
  - done.
Qed.

(** And in the middle of a finalization, with the block written and not yet
    published. *)
Definition ex_sink_written : Sink map_env map_env := match fin_write ex_sink1 ex_b1 with Ok s => s | Err _ => ex_sink1 end.
Lemma ex_written_eq : fin_write ex_sink1 ex_b1 = Ok ex_sink_written ∧ cache_ok (s_db (sk_st ex_sink_written)).
Proof.
  assert (match fin_write ex_sink1 ex_b1 with Ok _ => true | Err _ => false end = true) as Hok by (vm_compute; reflexivity).
  assert (∀ s, fin_write ex_sink1 ex_b1 = Ok s → cache_ok (s_db (sk_st s))) as Hc.
  { intros s. unfold fin_write. pose proof (WriteBlock_cache (s_db (sk_st ex_sink1)) ex_b1 ex_cache) as Hw.
    destruct (WriteBlock _ ex_b1) as [[] d]; [intros [= <-]; exact Hw|done]. }
  unfold ex_sink_written. destruct (fin_write ex_sink1 ex_b1) as [s|]; [|discriminate Hok]. split; [reflexivity|by apply Hc].
Qed.

Definition ex_fo_written : follower (DB map_env) := set_st ex_fo3 (set_db (fo_st ex_fo3) (s_db (sk_st ex_sink_written))).
Lemma ex_node_written :
  node_run ex_keccak empty_world (MkNsys (w_written ex_sink_written ex_b1) ex_S [EvBlock ex_b1] [ex_b1]
    (Some ex_fo_written) (s_db (sk_st ex_sink_written))).
Proof.
  exact (nr_write ex_keccak empty_world ex_sink1 ex_S [EvBlock ex_b1] [] (Some ex_fo3) ex_db ex_b1 [] ex_sink_written _
    ex_node_run eq_refl (proj1 ex_written_eq) eq_refl (proj2 ex_written_eq)).
Qed.

Lemma tip_reader_follows_witness :
  batches (fo_st ex_fo3) = [ex_b1] ∧
  ∃ n, batches (fo_st ex_fo3) = (tip_history (take n [EvBlock ex_b1])).2 ∧
    uval (fo_next ex_fo3) = Z.of_nat (n + length (fo_events ex_fo3)).
Proof.
  split; [eval_decide|].
  destruct (tip_reader_follows ex_keccak empty_world (w_written ex_sink_written ex_b1) ex_S [EvBlock ex_b1] [ex_b1]
    ex_fo_written (s_db (sk_st ex_sink_written)) ex_node_written) as [n Hn].
  exists n. destruct (tip_history (take n [EvBlock ex_b1])) as [Fn L]. destruct Hn as (Hx & Hb & _). exact (conj Hb Hx).
Defined.

(** Were a finalization ever to fail, the view rebuilt from the handshake would take
    the rest of the old events on top: the loop does not drop them. *)
Example resync_applies_twice :
  batches (fo_st (ex_step ex_bus2 (ex_step ex_bus2
    (MkFollower ex_mem0 [EvFinalize (u64_lit 101) (ex_hash 1); EvBlock ex_b2] (u64_lit 2) u_zero)))) = [ex_b1; ex_b2; ex_b2].
Proof. eval_decide. Qed.

Lemma node_finalize_witness :
  match Sink_Finalize ex_sink1 (u64_lit 101) (ex_hash 1) with
  | (Ok _, s') =>
      sink_inv ex_keccak s' (apply_batch empty_world ex_b1) (u64_lit 101)
        ([EvBlock ex_b1] ++ [EvFinalize (u64_lit 101) (ex_hash 1)]) ∧
      sk_layers s' = [] ∧ reads_kept ex_keccak ex_sink1 s' empty_world ∧
      rows (s_db (sk_st s')) !! MetaFinalized = Some (beBytes (u64_lit 101)) ∧
      db_archives (s_db (sk_st s')) (u64_lit 101) (Some ex_b1)
  | (Err _, s') =>
      any_fault (env:=map_env) (benv:=map_env) ∧ reads_kept ex_keccak ex_sink1 s' empty_world
  end.
Proof.
  apply (node_finalize ex_keccak ex_sink1 empty_world ex_S [EvBlock ex_b1] ex_b1 []);
    [exact ex_sink1_inv|reflexivity|done].
Defined.

(** (C31) Blocks and resets through the node.  A block above the layers, or a
    preference reset to a chain above the finalized height, leaves tip state, store
    and bus in agreement on exactly the new layers, with one event published; a
    failure is an LMDB failure on the bus and the tip state is still coherent. *)
Theorem node_blocks_and_resets {env benv : Type} `{LmdbLaws env, LmdbLaws benv} (keccak : bytes → Hash)
    (s : Sink env benv) (W0 : world) (h : u64) (evs : list Event) :
  sink_inv keccak s W0 h evs → (Z.of_nat (length evs) + 1 < 2 ^ 64)%Z →
  (∀ b, layers_chain h (sk_layers s ++ [b]) → live (apply_batch (tip_world (sk_st s) W0) b) →
     (∀ b', b' ∈ sk_layers s → BHash b' ≠ BHash b) → frames_ok (sk_layers s ++ [b]) →
     match Sink_Block s b with
     | (Ok _, s') => sink_inv keccak s' W0 h (evs ++ [EvBlock b]) ∧ sk_layers s' = sk_layers s ++ [b]
     | (Err _, s') =>
         any_fault (env:=env) (benv:=benv) ∧
         @coherent (DB env) (db_reader keccak) (db_reader_laws keccak) (sk_st s') W0 0
     end) ∧
  (∀ bs, layers_chain h bs → live_along W0 bs → NoDup (BHash <$> bs) → frames_ok bs →
     match Sink_PreferenceReset s bs with
     | (Ok _, s') => sink_inv keccak s' W0 h (evs ++ [EvReset bs]) ∧ sk_layers s' = bs
     | (Err _, s') =>
         any_fault (env:=env) (benv:=benv) ∧
         @coherent (DB env) (db_reader keccak) (db_reader_laws keccak) (sk_st s') W0 0
     end).
Proof.
  intros Hi Hn. split.
  - intros b Hc Hl Hd Hf. exact (Sink_Block_step keccak s W0 h evs b Hi Hc Hl Hd Hf Hn).
  - intros bs Hc Hl Hd Hf. exact (Sink_Reset_step keccak s W0 h evs bs Hi Hc Hl Hd Hf Hn).
Qed.

Lemma node_blocks_and_resets_witness :
  match Sink_Block ex_sink1 ex_b2 with
  | (Ok _, s') =>
      sink_inv ex_keccak s' empty_world ex_S ([EvBlock ex_b1] ++ [EvBlock ex_b2]) ∧
      sk_layers s' = [ex_b1] ++ [ex_b2]
  | (Err _, s') => any_fault (env:=map_env) (benv:=map_env) ∧ coherent (sk_st s') empty_world 0
  end.
Proof.
  apply (node_blocks_and_resets ex_keccak ex_sink1 empty_world ex_S [EvBlock ex_b1] ex_sink1_inv);
    [done| |exact (ex_live 2)| |eval_decide].
  - split_and!; [done|apply ex_encodable1|apply ex_contract1|].
    split_and!; [done|apply ex_encodable2|apply ex_contract2|done].
  - intros b' [->|Hb]%elem_of_cons; [eval_decide|by apply elem_of_nil in Hb].
Defined.

(** ** Starting up *)

(** (C36) Loading a baseline from a state iterator.  [RunBaseline] succeeds
    exactly when it should: on success the iterator ended cleanly, its entries
    were of known kinds and strictly ascending, the height is recorded, the
    baseline is marked complete and every entry is a row with its value.  If it
    fails, the iterator failed, an entry was out of order or unknown, storage was
    still queued, the database has another baseline height, or LMDB failed. *)
Theorem run_baseline {env : Type} `{LmdbLaws env} (d : DB env) (S : u64) (it : list Entry)
    (end_ : option error) :
  wf_db (rows d) → cache_ok d →
  match RunBaseline d S it end_ with
  | (Ok _, d') =>
      end_ = None ∧ Forall known_entry it ∧ StronglySorted entry_lt it ∧
      genesis_row (rows d') = Some S ∧ baseline_complete (rows d') = true ∧
      ∀ e op, e ∈ it → entry_op S e = Some op → rows d' !! bo_k op = Some (bo_v op)
  | (Err er, _) =>
      end_ ≠ None ∨ ¬ Forall known_entry it ∨ ¬ StronglySorted entry_lt it ∨
      ¬ queue_empty (rows d) ∨ (∃ g, genesis_row (rows d) = Some g ∧ g ≠ S) ∨
      faults ∧ ∃ n, er = ErrLmdb n
  end.
Proof. apply RunBaseline_cases. Qed.

Definition ex_entries : list Entry :=
  [EntryAccount (ex_addr 1) (ex_acct 5); EntryAccount (ex_addr 2) (ex_acct 6);
   EntrySlot (ex_addr 1) (ex_hash 3) (ex_hash 4)].

Lemma run_baseline_witness :
  (RunBaseline (MkDB (∅ : map_env) u_zero false) ex_S ex_entries None).1 = Ok () ∧
  genesis_row (rows (RunBaseline (MkDB (∅ : map_env) u_zero false) ex_S ex_entries None).2) = Some ex_S.
Proof.
  pose proof (run_baseline (MkDB (∅ : map_env) u_zero false) ex_S ex_entries None) as Hr.
  assert ((RunBaseline (MkDB (∅ : map_env) u_zero false) ex_S ex_entries None).1 = Ok ()) as Hok
    by eval_decide.
  split; [exact Hok|].
  destruct (RunBaseline (MkDB (∅ : map_env) u_zero false) ex_S ex_entries None) as [r d'].
  cbn [fst snd] in *. subst r. apply Hr; [apply wf_db_empty|by split].
Defined.

(** Resuming after a stop.  When [WriteFinal] has stored a batch, the next
    start anchors at that block's height and hash; when it fails an LMDB call
    failed and the rows are either the old ones or those with the block stored, a
    state in which writing it again is harmless. *)
Theorem resume_after_write {env : Type} `{LmdbLaws env} (d : DB env) (b : Batch) :
  encodable b →
  match WriteFinal d b with
  | (Ok _, d') =>
      upto_faults (resumeFromStore d').1 (Ok (MkAnchor (Block b) (Some (BHash b)))) ∧
      rows d' = <[MetaFinalized:=beBytes (Block b)]> (block_rows b (rows d))
  | (Err e, d') => (d' = d ∨ rows d' = block_rows b (rows d)) ∧ faults ∧ ∃ c, e = ErrLmdb c
  end.
Proof. apply WriteFinal_cases. Qed.

Lemma resume_after_write_witness :
  (WriteFinal ex_db ex_b1).1 = Ok () ∧
  upto_faults (env:=map_env) (resumeFromStore (WriteFinal ex_db ex_b1).2).1
    (Ok (MkAnchor (u64_lit 101) (Some (ex_hash 1)))).
Proof.
  pose proof (resume_after_write ex_db ex_b1 ex_encodable1) as Hr.
  assert ((WriteFinal ex_db ex_b1).1 = Ok ()) as Hok by eval_decide.
  split; [exact Hok|]. destruct (WriteFinal ex_db ex_b1) as [r d']. cbn [fst snd] in *. subst r.
  apply Hr.
Defined.

(** ** Replay sessions *)

(** (C20) A replay session is a consistent view of one height.  On a database
    with a complete baseline and consecutive blocks stored above it, a session
    opened at a height and driven by any calls answers, at its current block, the
    world of that height, whatever it has cached; [Next] moves it to the next block
    and returns that block's batch, and reports the end of history exactly when
    the next diff is not stored; only a failing store read can interfere. *)
Theorem replay_session {env : Type} `{LmdbLaws env} (keccak : bytes → Hash)
    (d d' : DB env) (S : u64) (bs : list Batch) (h : u64) (s : Session (DB env)) :
  let base := db_world keccak (rows d) S in
  let R := db_reader keccak in
  served (rows d) S → cache_ok d → fresh_above (rows d) S → chain S bs h → consecutive S bs →
  (∀ B : u64, (S ≤ B)%Z → live (world_at base bs B)) →
  write_blocks d bs = (Ok (), d') → @session_run (DB env) R d' s →
  let w := world_at base bs (ss_block s) in
  (∀ a, answers faults (@ss_Account _ R s a).1 (account_answer (w_acct w a))) ∧
  (∀ a k, answers faults (@ss_Slot _ R s a k).1 (w_slot w a k)) ∧
  ((uval (ss_block s) + 1 < 2 ^ 64)%Z →
   match @ss_Next _ R s with
   | (Ok (Some b), s') =>
       block_at S bs (u_add (ss_block s) (wrap 1)) = Some b ∧ uval (ss_block s') = (ss_block s + 1)%Z
   | (Ok None, _) => block_at S bs (u_add (ss_block s) (wrap 1)) = None ∨ faults
   | (Err _, s') => s' = s ∧ faults
   end).
Proof.
  intros base R Hs Hc Hf Hch Hcon Hl Hw Hrun w.
  pose proof (write_blocks_history keccak d S bs h d' Hs Hc Hf Hch Hcon Hl Hw) as Hh.
  pose proof (@session_run_ok _ R (db_reader_laws keccak) d' s S base bs Hh Hrun) as Hok.
  split_and!.
  - intros a. exact (proj1 (@ss_Account_spec _ R (db_reader_laws keccak) s S base bs a Hok)).
  - intros a k. exact (proj1 (@ss_Slot_spec _ R (db_reader_laws keccak) s S base bs a k Hok)).
  - intros Hn. pose proof (@ss_Next_spec _ R (db_reader_laws keccak) s S base bs Hok Hn) as Hx.
    destruct (ss_Next s) as [[[b|]|e] s']; [by destruct Hx as (? & _ & ?)|by destruct Hx as [_ ?]|done].
Qed.

Definition ex_chain3 : list Batch := [ex_b1; ex_b2; ex_b3].
Definition ex_archive : DB map_env := (write_blocks ex_db ex_chain3).2.
Definition ex_session0 : Session (DB map_env) :=
  match (ss_Open ex_archive (u64_lit 101)).1 with
  | Ok s => s
  | Err _ => MkSession ex_archive NewMap u_zero
  end.

Lemma ex_consecutive : consecutive ex_S ex_chain3.
Proof. intros [|[|[|i]]] b; cbn; intros ?; by simplify_eq. Qed.

Lemma ex_live_at (B : u64) :
  (ex_S ≤ B)%Z → live (world_at (db_world ex_keccak (rows ex_db) ex_S) ex_chain3 B).
Proof.
  intros _. rewrite (world_at_consecutive ex_S) by apply ex_consecutive.
  set (i := Z.to_nat (B - ex_S)).
  assert (apply_batches (db_world ex_keccak (rows ex_db) ex_S) (take i ex_chain3) ≡
          stage empty_world ex_chain3 i) as [Ha Hs].
  { unfold stage. apply apply_batches_proper; [apply ex_world|done]. }
  intros a Hn s. rewrite Hs. apply (ex_live i). by rewrite <-Ha.
Qed.

Lemma ex_archive_written : write_blocks ex_db ex_chain3 = (Ok (), ex_archive).
Proof. apply result_eta. eval_decide. Qed.

Lemma ex_session_run : session_run ex_archive (ss_Next ex_session0).2.
Proof.
  apply sn_next; [|eval_decide].
  apply (sn_open _ (u64_lit 101) _ (ss_Open ex_archive (u64_lit 101)).2). apply result_eta.
  unfold ex_session0. assert (match (ss_Open ex_archive (u64_lit 101)).1 with Ok _ => true | Err _ => false end = true)
    as Hok by (vm_compute; reflexivity).
  by destruct (ss_Open ex_archive (u64_lit 101)).1.
Qed.

(** A session opened at 101 and moved on to 102 reads the slot destroyed
    there. *)
Lemma replay_session_witness :
  let s := (ss_Next ex_session0).2 in
  ss_block s = u64_lit 102 ∧
  answers (faults (env:=map_env)) (ss_Slot s (ex_addr 1) (ex_hash 2)).1
    (w_slot (world_at (db_world ex_keccak (rows ex_db) ex_S) ex_chain3 (ss_block s)) (ex_addr 1) (ex_hash 2)).
Proof.
  cbv zeta. split; [eval_decide|].
  pose proof ex_session_run as Hrun. revert Hrun. generalize (ss_Next ex_session0).2. intros s Hrun.
  apply (replay_session ex_keccak ex_db ex_archive ex_S ex_chain3 (u64_lit 103) s);
    [exact ex_served|exact ex_cache|exact ex_fresh|exact ex_chain|exact ex_consecutive|exact ex_live_at
    |exact ex_archive_written|exact Hrun].
Defined.
