(* ===== verification/MainExec.v ===== *)
(** * MainExec: what the block executor promises

    The main theorems about [follower/exec], each with an instance on the
    example database and a small transition. *)

From S2P Require Import Prelude Schema Lmdb Capture World Store StoreRead StoreSpec StoreProof.
From S2P Require Import StoreReads StoreWrites Reader Exec ExecProof Examples.

(** The block is right on the world [w]: its parent's header is known and of the
    height before, the program of the block runs there to the end, the tries accept
    the writes of its commit, and gas, receipts root and bloom are the header's. *)
Definition block_valid {db} (c : Coreth) (EmptyCodeHash : Hash) (DeriveSha : list (c_Receipt c) → Hash)
    (CreateBloom : list (c_Receipt c) → bytes) (w : world) (code : Hash → result bytes) (e : Exec db) (parent : Hash)
    (header : Header) (blk : BlockBody c) (ops : list Op) : Prop :=
  ∃ ph writes receipts,
    x_headers e !! parent = Some ph ∧ hd_Number ph = u_sub (hd_Number header) (wrap 1) ∧
    block_run EmptyCodeHash w code (GetHeader e) c ph header blk writes (hd_GasUsed header) receipts ∧
    trie_writes EmptyCodeHash [] writes = Ok ops ∧
    DeriveSha receipts = hd_ReceiptHash header ∧ CreateBloom receipts = hd_Bloom header.

(** (C11) Blocks execute on their parent's world.  When no store read fails,
    [Execute] runs the block on exactly the world of the parent: the store, the
    folded base and the pending batches of the parent's chain, oldest first.  It
    returns a batch exactly when the block is right there: the upgrades are applied
    with the parent's time, then every transaction in order on what the one before
    left of state, gas pool and gas used, with one receipt each, then the atomic
    transactions of the extra data, then the commit, whose writes the capture tries
    accept; and gas, receipts root and bloom are the header's.  The batch carries the
    header's height, hash and time, the parent, and those writes, and becomes the newest
    pending layer of its own chain.  An error leaves pending layers and headers as
    they were. *)
Theorem execute_on_parent {db : Type} `{ReaderLaws db} (c : Coreth) (EmptyCodeHash : Hash)
    (DeriveSha : list (c_Receipt c) → Hash) (CreateBloom : list (c_Receipt c) → bytes)
    (fuel : nat) (e : Exec db) (W : world) (D : list Batch) (parent : Hash) (header : Header) (blk : BlockBody c)
    (cs : list Batch) :
  ¬ rd_faulty → exec_inv e W D → pending_chain (x_pending e) parent cs → size (x_pending e) < fuel →
  (0 < hd_Number header)%Z → (∀ hd, x_headers e !! hd_Hash header = Some hd → hd = header) →
  ∃ ls, viewAt fuel e parent = Some ls ∧
  match exec_Execute EmptyCodeHash (run_block c) DeriveSha CreateBloom fuel e parent header blk with
  | (Ok b, e') =>
      exec_inv e' W D ∧ pending_chain (x_pending e') (BHash b) (b :: cs) ∧
      Block b = hd_Number header ∧ BHash b = hd_Hash header ∧ Parent b = parent ∧
      Time b = wrap (hd_Time header * 1000) ∧
      block_valid c EmptyCodeHash DeriveSha CreateBloom (chain_world W D cs) (xv_code (x_db e) ls) e parent header blk (Ops b)
  | (Err _, e') =>
      exec_inv e' W D ∧ x_pending e' = x_pending e ∧ x_headers e' = x_headers e ∧
      ∀ ops, ¬ block_valid c EmptyCodeHash DeriveSha CreateBloom (chain_world W D cs) (xv_code (x_db e) ls) e parent header
        blk ops
  end.
Proof.
  intros Hnf Hi Hc Hf Hpos Hu. destruct (viewAt_spec e W D parent cs fuel Hi Hc Hf) as (ls & Hls & _).
  exists ls. split; [done|].
  pose proof (exec_Execute_spec EmptyCodeHash (run_block c) DeriveSha CreateBloom fuel e W D parent header blk cs
    Hnf Hi Hc Hf Hpos Hu) as Hs.
  destruct (exec_Execute _ _ _ _ _ _ _ _ _) as [[b|er] e'] eqn:He.
  - destruct Hs as (? & ? & ? & ? & ? & ? & ph & ls' & rs & Hph & Hls' & Hn & Ht & Hd & Hb). simplify_eq.
    split_and!; try done. apply transition_ok in Ht as (writes & Hr & Hw). exists ph, writes, rs.
    by apply run_block_run in Hr.
  - destruct Hs as (? & ? & ?). split_and!; try done. intros ops (ph & writes & rs & Hph & Hn & Hr & Hw & Hd & Hb).
    pose proof (exec_Execute_complete EmptyCodeHash (run_block c) DeriveSha CreateBloom fuel e W D parent header blk cs ph ls
      ops rs Hnf Hi Hc Hf Hph Hn Hls) as Hx. rewrite He in Hx. discriminate Hx; try done.
    apply transition_ok. exists writes. by apply run_block_run in Hr.
Qed.

#[local] Instance exec_reader : Reader (DB map_env) := db_reader ex_keccak.
#[local] Instance exec_reader_laws : ReaderLaws (DB map_env) := db_reader_laws ex_keccak.

Definition ex_header (n : Z) (number : u64) : Header :=
  MkHeader (ex_hash n) number (u64_lit 8000000) (u64_lit 21000) arr_zero [] (u64_lit 5).

Definition ex_exec0 : Exec (DB map_env) := SeedHeaders (exec_New ex_db) [ex_header 0 (u64_lit 100)].

(** A small library: the state is the list of writes; a transaction costs 21000 gas,
    reads account 1 and writes its balance; an atomic transaction writes a slot. *)
Definition ex_coreth : Coreth := {|
  c_StateDB := list (option Address * TrieWrite);
  c_Tx := unit; c_Receipt := u64; c_BlockCtx := unit; c_GasPool := u64; c_AtomicTx := Address;
  c_state_New := EDone (Ok []);
  c_ApplyUpgrades _ _ sdb := EDone (Ok sdb);
  c_NewEVMBlockContext _ := ();
  c_AddGas gas := gas;
  c_SetTxContext sdb _ _ := sdb;
  c_ApplyTransaction _ gp sdb _ _ gas :=
    EAccount (ex_addr 1) (λ r,
      EDone (if (gp <? 21000)%Z then Err (ErrMsg "gas limit reached")
             else Ok (u_add gas (u64_lit 21000), u_sub gp (u64_lit 21000),
                      sdb ++ [(None, UpdateAccount (ex_addr 1)
                        (MkStateAccount (match r with Ok (Some a) => sa_Nonce a | _ => u64_lit 1 end) (Some (wrap 9)) []))],
                      u_add gas (u64_lit 21000))));
  c_RulesExtra _ := Some true;
  c_ExtractAtomicTxs _ isAP5 := if isAP5 then Ok [ex_addr 1] else Err (ErrMsg "codec");
  c_EVMStateTransfer a sdb := EDone (Ok (sdb ++ [(Some a, UpdateStorage (abytes (ex_hash 2)) [byte_lit 7])]));
  c_IsEIP158 _ := true;
  c_Commit sdb _ _ := EDone (Ok sdb)
|}.

Definition ex_body (txs : nat) : BlockBody ex_coreth :=
  MkBlockBody (c:=ex_coreth) (replicate txs ()) [byte_lit 1].

Definition ex_execute_txs (txs : nat) (e : Exec (DB map_env)) (parent : Hash) (header : Header) :=
  exec_Execute (ex_hash 99) (run_block ex_coreth) (λ _, arr_zero) (λ _, []) 10 e parent header (ex_body txs).
Definition ex_execute : Exec (DB map_env) → Hash → Header → result Batch * Exec (DB map_env) := ex_execute_txs 1.

Definition ex_exec1 : Exec (DB map_env) := (ex_execute ex_exec0 (ex_hash 0) (ex_header 1 (u64_lit 101))).2.

Lemma ex_exec0_inv : exec_inv ex_exec0 empty_world [].
Proof.
  split; [|done|intros h l Hl; change (x_pending ex_exec0) with (∅ : gmap Hash xlayer) in Hl;
    by rewrite lookup_empty in Hl..].
  exists ex_S. split_and!; [apply ex_served|apply ex_cache|done|apply ex_world].
Qed.

Lemma ex_header_unique :
  ∀ hd, x_headers ex_exec0 !! hd_Hash (ex_header 1 (u64_lit 101)) = Some hd → hd = ex_header 1 (u64_lit 101).
Proof.
  intros hd Hhd. assert (x_headers ex_exec0 !! hd_Hash (ex_header 1 (u64_lit 101)) = None) as Hn
    by eval_decide. congruence.
Qed.

Definition ex_block1 : Batch :=
  match (ex_execute ex_exec0 (ex_hash 0) (ex_header 1 (u64_lit 101))).1 with
  | Ok b => b
  | Err _ => ex_b1
  end.

Lemma ex_execute_eq : ex_execute ex_exec0 (ex_hash 0) (ex_header 1 (u64_lit 101)) = (Ok ex_block1, ex_exec1).
Proof.
  assert (match (ex_execute ex_exec0 (ex_hash 0) (ex_header 1 (u64_lit 101))).1 with
          | Ok _ => true | Err _ => false end = true) as Hok by (vm_compute; reflexivity).
  unfold ex_exec1, ex_block1. by destruct (ex_execute ex_exec0 (ex_hash 0) (ex_header 1 (u64_lit 101))) as [[b|er] e'].
Qed.

Lemma execute_on_parent_witness :
  ∃ ls, viewAt 10 ex_exec0 (ex_hash 0) = Some ls ∧
    exec_inv ex_exec1 empty_world [] ∧ pending_chain (x_pending ex_exec1) (BHash ex_block1) [ex_block1] ∧
    Block ex_block1 = u64_lit 101 ∧ BHash ex_block1 = ex_hash 1 ∧ Parent ex_block1 = ex_hash 0 ∧
    Time ex_block1 = wrap (5 * 1000) ∧
    block_valid ex_coreth (ex_hash 99) (λ _, arr_zero) (λ _, []) empty_world (xv_code ex_db ls) ex_exec0 (ex_hash 0)
      (ex_header 1 (u64_lit 101)) (ex_body 1) (Ops ex_block1).
Proof.
  destruct (execute_on_parent ex_coreth (ex_hash 99) (λ _, arr_zero) (λ _, []) 10 ex_exec0 empty_world []
    (ex_hash 0) (ex_header 1 (u64_lit 101)) (ex_body 1) []) as (ls & Hls & Hm);
    [by intros ?|exact ex_exec0_inv|constructor; apply lookup_empty
    |apply (bool_decide_unpack _); vm_compute; exact I|done|exact ex_header_unique|].
  exists ls. split; [exact Hls|].
  change (exec_Execute _ _ _ _ _ _ _ _ _) with (ex_execute ex_exec0 (ex_hash 0) (ex_header 1 (u64_lit 101))) in Hm.
  rewrite ex_execute_eq in Hm. exact Hm.
Defined.

(** The example block does execute, and its child reads what it wrote. *)
Example execute_result :
  match (ex_execute ex_exec0 (ex_hash 0) (ex_header 1 (u64_lit 101))).1 with
  | Ok b => Ops b = [OpAccount (ex_addr 1) (MkAccount (wrap 9) (u64_lit 1) (ex_hash 99));
                     OpSlot (ex_addr 1) (ex_hash 2) (BytesToHash [byte_lit 7])]
  | Err _ => False
  end.
Proof. eval_decide. Qed.

(** A second transaction makes the gas differ from the header's; more than the gas
    pool holds end the block. *)
Example execute_gas_mismatch :
  (ex_execute_txs 2 ex_exec0 (ex_hash 0) (ex_header 1 (u64_lit 101))).1 = Err (ErrMsg "exec") ∧
  (ex_execute_txs 381 ex_exec0 (ex_hash 0) (ex_header 1 (u64_lit 101))).1 = Err (ErrMsg "gas limit reached").
Proof. split; vm_compute; reflexivity. Qed.

(** Finalizing changes no pending block's view.  When the store has
    committed the oldest pending batch of a chain, [OnFinalized] drops its layer and
    the children of the chain's head still execute on the same world; in a dry
    run [FoldFinalized] does the same with the batch folded into the base and the
    store left behind. *)
Theorem finalize_keeps_views {db : Type} `{ReaderLaws db} (e : Exec db) (W : world) (D : list Batch)
    (h : Hash) (cs : list Batch) (b : Batch) :
  exec_inv e W D → pending_chain (x_pending e) h (cs ++ [b]) →
  (∀ d, x_dryBase e = None → serves d Latest (apply_batch W b) →
     let e' := OnFinalized (set_xdb e d) (Block b) in
     exec_inv e' (apply_batch W b) [] ∧ pending_chain (x_pending e') h cs ∧
     chain_world (apply_batch W b) [] cs = chain_world W D (cs ++ [b])) ∧
  (let e' := FoldFinalized e b in
   exec_inv e' W (D ++ [b]) ∧ pending_chain (x_pending e') h cs ∧
   chain_world W (D ++ [b]) cs = chain_world W D (cs ++ [b])).
Proof.
  intros Hi Hc. split; [|by apply FoldFinalized_spec].
  intros d Hd Hs. pose proof (xi_dry _ _ _ Hi) as Hdry. rewrite Hd in Hdry. subst D.
  by apply OnFinalized_spec.
Qed.

Lemma ex_exec1_inv :
  exec_inv ex_exec1 empty_world [] ∧ pending_chain (x_pending ex_exec1) (ex_hash 1) [ex_block1].
Proof.
  pose proof (exec_Execute_spec (ex_hash 99) (run_block ex_coreth) (λ _, arr_zero) (λ _, []) 10 ex_exec0 empty_world []
    (ex_hash 0) (ex_header 1 (u64_lit 101)) (ex_body 1) []) as Hs.
  change (exec_Execute _ _ _ _ _ _ _ _ _) with (ex_execute ex_exec0 (ex_hash 0) (ex_header 1 (u64_lit 101))) in Hs.
  rewrite ex_execute_eq in Hs. destruct Hs as (Hi & Hc & _ & HH & _);
    [by intros ?|exact ex_exec0_inv|constructor; apply lookup_empty
    |apply (bool_decide_unpack _); vm_compute; exact I|done|exact ex_header_unique|].
  split; [exact Hi|]. by rewrite HH in Hc.
Qed.

Lemma finalize_keeps_views_witness :
  let e' := FoldFinalized ex_exec1 ex_block1 in
  exec_inv e' empty_world [ex_block1] ∧ pending_chain (x_pending e') (ex_hash 1) [] ∧
  chain_world empty_world [ex_block1] [] = chain_world empty_world [] [ex_block1].
Proof.
  destruct ex_exec1_inv as [Hi Hc].
  exact (proj2 (finalize_keeps_views ex_exec1 empty_world [] (ex_hash 1) [] ex_block1 Hi Hc)).
Defined.
