(* ===== verification/MainSim.v ===== *)
(** * MainSim: what the read caches, the engine and the simulator promise

    The main theorems about the suite cache, the batch engine and the EVM state
    database of the simulator. *)

From S2P Require Import Prelude Schema Lmdb Capture World Store StoreRead StoreSpec StoreProof.
From S2P Require Import StoreReads StoreWrites Reader Mem MemProof Suitecache SuitecacheProof.
From S2P Require Import Exec ExecProof Engine EngineLive SimState SimProof SimCall Examples.

(** ** The suite cache *)

(** (C38) A suite file round-trips.  Opening at the same height the file that
    closing a cache writes gives a clean cache with the same accounts, slots and
    code, whatever order Go iterated the maps in when writing; a dirty cache does
    write its file and is clean afterwards. *)
Theorem suitecache_roundtrip {db : Type} (c : Cache db) (d : option db)
    (la : list (Address * (Account * bool))) (ls : list (SKey * Hash)) (lc : list (Hash * bytes)) :
  codes_fit (c_code c) →
  la ≡ₚ map_to_list (c_accounts c) → ls ≡ₚ map_to_list (c_slots c) → lc ≡ₚ map_to_list (c_code c) →
  let reopened := MkCache d (c_block c) false (c_accounts c) (c_slots c) (c_code c) in
  cache_Open (Some (close_bytes (c_block c) la ls lc)) (c_block c) d = Ok reopened ∧
  (c_dirty c = true → ∃ file, (cache_Close c).1 = Some file ∧ c_dirty (cache_Close c).2 = false ∧
     cache_Open (Some file) (c_block c) d = Ok reopened).
Proof.
  intros Hfit Ha Hs Hc reopened. split; [by apply load_close_bytes|].
  intros Hd. unfold cache_Close. rewrite Hd. cbn [negb fst snd]. eexists. split_and!; [done|done|].
  by apply load_close_bytes.
Qed.

Definition ex_cache1 : Cache (DB map_env) :=
  MkCache (Some ex_db) (u64_lit 101) true {[ ex_addr 1 := (ex_acct 5, true) ]}
    {[ MkSKey (ex_addr 1) (ex_hash 2) := ex_hash 3 ]} {[ ex_hash 9 := [byte_lit 1; byte_lit 2] ]}.

Lemma suitecache_roundtrip_witness :
  ∃ file, (cache_Close ex_cache1).1 = Some file ∧ c_dirty (cache_Close ex_cache1).2 = false ∧
     cache_Open (db:=DB map_env) (Some file) (u64_lit 101) None =
       Ok (MkCache None (u64_lit 101) false (c_accounts ex_cache1) (c_slots ex_cache1) (c_code ex_cache1)).
Proof.
  apply (suitecache_roundtrip ex_cache1 None (map_to_list (c_accounts ex_cache1))
           (map_to_list (c_slots ex_cache1)) (map_to_list (c_code ex_cache1)));
    [|reflexivity|reflexivity|reflexivity|reflexivity].
  apply map_Forall_singleton. cbn. lia.
Defined.

(** Cached reads are the archive's reads, and they are recorded.  A cache
    whose entries are true of the world its store serves answers that world and
    stays true; every successful account or slot answer is in the cache afterwards,
    so an offline rerun from the file answers the same.  Errors come from the
    store, or from a miss when there is none. *)
Theorem suitecache_reads {db : Type} `{ReaderLaws db} (c : Cache db) (w : world) (a : Address) (k : Hash) :
  cache_true c w →
  (answers (rd_faulty ∨ c_db c = None) (cache_Account c a).1 (account_answer (w_acct w a)) ∧
   cache_true (cache_Account c a).2 w ∧
   ∀ x, (cache_Account c a).1 = Ok x → c_accounts (cache_Account c a).2 !! a = Some x) ∧
  (answers (rd_faulty ∨ c_db c = None) (cache_Slot c a k).1 (w_slot w a k) ∧
   cache_true (cache_Slot c a k).2 w ∧
   ∀ v, (cache_Slot c a k).1 = Ok v → c_slots (cache_Slot c a k).2 !! MkSKey a k = Some v).
Proof.
  intros Ht. destruct (cache_Account_spec c w a Ht) as [Ha Ha']. destruct (cache_Slot_spec c w a k Ht) as [Hs Hs'].
  split_and!; [done|done| |done|done|].
  - intros x. unfold cache_Account. destruct (c_accounts c !! a) as [e|] eqn:E; [by intros [= <-]|].
    destruct (c_db c) as [d|]; [|done]. destruct (rd_GetAccount d a (c_block c)) as [[y|e] d']; [|done].
    intros [= <-]. apply lookup_insert_eq.
  - intros x. unfold cache_Slot. destruct (c_slots c !! MkSKey a k) as [e|] eqn:E; [by intros [= <-]|].
    destruct (c_db c) as [d|]; [|done]. destruct (rd_GetSlot d a k (c_block c)) as [[y|e] d']; [|done].
    intros [= <-]. apply lookup_insert_eq.
Qed.

#[local] Instance sim_reader : Reader (DB map_env) := db_reader ex_keccak.
#[local] Instance sim_reader_laws : ReaderLaws (DB map_env) := db_reader_laws ex_keccak.

Definition ex_cache0 : Cache (DB map_env) := MkCache (Some ex_db) (u64_lit 101) false ∅ ∅ ∅.

Lemma suitecache_reads_witness :
  answers (rd_faulty ∨ c_db ex_cache0 = None) (cache_Account ex_cache0 (ex_addr 1)).1
    (account_answer (w_acct empty_world (ex_addr 1))).
Proof.
  assert (cache_true ex_cache0 empty_world) as Ht; [split_and!|
    exact (proj1 (proj1 (suitecache_reads ex_cache0 empty_world (ex_addr 1) (ex_hash 1) Ht)))].
  - intros d [= <-]. exists ex_S. split_and!; [apply ex_served|apply ex_cache|done|apply ex_world].
  - intros a e He. cbn [c_accounts ex_cache0] in He. by rewrite lookup_empty in He.
  - intros k v Hv. cbn [c_slots ex_cache0] in Hv. by rewrite lookup_empty in Hv.
Defined.

(** ** The engine *)

(** (C17) A batch is deterministic.  Take a reachable tip state whose pinned code is
    the store's, with no store fault, and a pool of workers whose views keep whatever
    their last calls left in the overlay.  In every interleaving of one attempt with its
    goroutines, with other batches that borrow and return workers and read, and with
    blocks committed to the store: the tip and its stamp do not move, and when the
    attempt is finished, each result is one its call has alone on the world and stamp of
    the tip with an empty overlay, where a code read answers what the store had at the
    start or what it has at the end (code is only added).  If no code came, the results
    are exactly the evaluations.  And in every state in which a worker is in the pool or
    with the batch, the batch can finish by its own steps. *)
Theorem batch_deterministic {db : Type} `{ReaderLaws db} {R : Type} (s : State db) (W0 : world) (j : nat)
    (code : Hash → result bytes) (pool : list View) (calls todo : list (prog R)) (sh : Shared db) (slots : list (slot R)) :
  ¬ rd_faulty → mem_run s W0 j → codes_ok code s → registered s pool →
  rtc (run_step W0) (MkShared s pool j, calls, []) (sh, todo, slots) →
  tip_world (sh_st sh) W0 = tip_world s W0 ∧ TipInfo (sh_st sh) = TipInfo s ∧
  (∃ code', codes_ok code' (sh_st sh) ∧ code_grows code code' ∧
     ∀ results, todo = [] → slots = Finished <$> results →
       Forall2 (evals (code_between code code') (tip_world s W0) (TipInfo s) ∅ ∅) calls results ∧
       ((∀ h, code' h = code h) → results = eval (tip_world s W0) code (TipInfo s) ∅ ∅ <$> calls)) ∧
  (has_worker sh slots → ∃ sh' results, rtc run_own (sh, todo, slots) (sh', [], Finished <$> results)).
Proof.
  intros Hnf Hm Hco Hp Hrun.
  destruct (steps_ok code W0 calls code _ _ Hnf (attempt_begin _ _ _ _ _ calls Hm Hco Hp) Hrun) as [Hh (code' & Ha)].
  cbn in Hh. pose proof Ha as [_ Hco' Hg Hp' Hv' _]. split_and!; [apply Hh|apply Hh| |].
  - exists code'. split_and!; [done|done|]. intros results -> ->.
    pose proof (attempt_results _ _ _ _ _ _ Ha) as Hf. rewrite (he_world _ _ _ Hh), (he_tip _ _ _ Hh) in Hf.
    split; [done|]. intros Hsame. symmetry. apply list_eq_Forall2, Forall2_fmap_l. eapply Forall2_impl; [exact Hf|].
    intros p r Hr. symmetry. eapply evals_eval; [|exact Hr]. by intros h x [->| ->].
  - intros Hw. destruct (run_completes sh todo slots Hp' Hv' Hw) as (sh' & results & Hr & _). eauto.
Qed.

Definition ex_state : State (DB map_env) :=
  ApplyBlock (Register (Register (MkState ex_db NewMap [] [] u_zero arr_zero u_zero u_zero u_zero)
    NewSideBuffer) NewSideBuffer) ex_b1.

Lemma ex_state_run : mem_run ex_state empty_world 0.
Proof.
  apply MemProof.run_block; [apply run_register, run_register|exact (ex_live 1)].
  apply (run_new ex_db); [reflexivity| |by intros ??].
  exists ex_S. split_and!; [apply ex_served|apply ex_cache|done|apply ex_world].
Qed.

Definition ex_codes (h : Hash) : result bytes := rd_GetCode ex_db h.

Lemma ex_state_codes : codes_ok ex_codes ex_state.
Proof.
  apply codes_block. split; [done|by intros ??|]. apply Forall_forall.
  intros sb [->|[->|[]%elem_of_nil]%elem_of_cons]%elem_of_cons; by intros ??.
Qed.

(** Two calls: one raises a balance and reads it back, one reads a slot; and one
    asks for code the store does not have. *)
Definition ex_calls : list (prog (result u256 + result Hash)) :=
  [PSetBalance (ex_addr 1) (wrap 7) (PBalance (ex_addr 1) (λ r, Ret (inl r)));
   PSlot (ex_addr 1) (ex_hash 2) (λ r, Ret (inr r))].
Definition ex_code_call : prog (result bytes) := PCode (ex_hash 55) Ret.

(** Two workers, one of them with the overlay of an earlier call. *)
Definition ex_pool : list View := [MkView 0 {[ ex_addr 1 := wrap 99 ]} {[ MkSKey (ex_addr 1) (ex_hash 2) := ex_hash 1 ]}; newView 1].

Lemma ex_pool_registered : registered ex_state ex_pool.
Proof.
  apply Forall_forall. intros v [->|[->|[]%elem_of_nil]%elem_of_cons]%elem_of_cons;
    apply (bool_decide_unpack _); vm_compute; exact I.
Qed.

Lemma batch_deterministic_witness :
  ∃ sh results, rtc run_own (MkShared ex_state ex_pool 0, ex_calls, []) (sh, [], Finished <$> results).
Proof.
  apply (batch_deterministic ex_state empty_world 0 ex_codes ex_pool ex_calls ex_calls
    (MkShared ex_state ex_pool 0) []);
    [by intros ?|apply ex_state_run|apply ex_state_codes|apply ex_pool_registered|apply rtc_refl|by left].
Defined.

Example batch_results :
  eval (tip_world ex_state empty_world) ex_codes (TipInfo ex_state) ∅ ∅ <$> ex_calls
  = [inl (Ok (wrap 7)); inr (Ok (ex_hash 77))] ∧
  eval (tip_world ex_state empty_world) ex_codes (TipInfo ex_state) ∅ ∅ ex_code_call = Err ErrNotFound.
Proof. split; eval_decide. Qed.

(** (C28) Code of unfinalized blocks is not read.  Let a block deploy a contract: the
    last thing it does to an account is to write it with a code hash, and it brings the
    code.  Applied to the tip, the account is visible there with that code hash, and if
    the store does not have the code, reading it gives the store's error, because the
    layers keep no code; the executor of blocks, whose layers keep code, finds it; and
    once a commit has brought the code to the store, the same read answers it. *)
Theorem unfinalized_code_unread {db : Type} `{ReaderLaws db} (code : Hash → result bytes) (s : State db) (v : View)
    (b : Batch) (a : Address) (acct : Account) (c : bytes) (e : error) :
  codes_ok code s → code (CodeHash acct) = Err e → v_sb v < length (s_buffers s) →
  net_acct (Ops b) a = Some acct → OpCode (CodeHash acct) c ∈ Ops b →
  (∃ s', view_Account v (ApplyBlock s b) a = Some (Ok (acct, true), s')) ∧
  (∃ s', view_Code v (ApplyBlock s b) (CodeHash acct) = Some (Err e, s')) ∧
  (∃ c', OpCode (CodeHash acct) c' ∈ Ops b ∧ ∀ d ls, xv_code d (x_newLayer b :: ls) (CodeHash acct) = Ok c') ∧
  ∀ d c', code_grows code (rd_GetCode d) → rd_GetCode d (CodeHash acct) = Ok c' →
    ∃ s', view_Code v (set_db (ApplyBlock s b) d) (CodeHash acct) = Some (Ok c', s').
Proof.
  intros Hco He Hv Hacct Hin. pose proof (codes_block _ _ b Hco) as Hco1.
  assert (v_sb v < length (s_buffers (ApplyBlock s b))) as Hv1 by (cbn; by rewrite length_fmap).
  split_and!.
  - by apply layer_account_read.
  - rewrite <-He. by apply view_Code_total.
  - destruct (layer_code b _ c Hin) as (c' & Hin' & Hc'). exists c'. split; [done|]. intros d ls. cbn [xv_code]. by rewrite Hc'.
  - intros d c' Hg Hd. rewrite <-Hd. apply view_Code_total; [|done]. eapply codes_commit; [done| |done].
    intros h x Hx. destruct (Hg h) as [->|(?&?&?&?)]; congruence.
Qed.

Definition ex_deploy : Batch :=
  MkBatch (u64_lit 102) (ex_hash 12) (ex_hash 11) (u64_lit 6000)
    [OpAccount (ex_addr 5) (MkAccount (wrap 0) (u64_lit 1) (ex_hash 55)); OpCode (ex_hash 55) [byte_lit 96]].

Lemma unfinalized_code_unread_witness :
  (∃ s', view_Account (newView 0) (ApplyBlock ex_state ex_deploy) (ex_addr 5) =
     Some (Ok (MkAccount (wrap 0) (u64_lit 1) (ex_hash 55), true), s')) ∧
  (∃ s', view_Code (newView 0) (ApplyBlock ex_state ex_deploy) (ex_hash 55) = Some (Err ErrNotFound, s')).
Proof.
  pose proof (unfinalized_code_unread ex_codes ex_state (newView 0) ex_deploy (ex_addr 5)
    (MkAccount (wrap 0) (u64_lit 1) (ex_hash 55)) [byte_lit 96] ErrNotFound ex_state_codes
    ltac:(vm_compute; reflexivity) ltac:(apply (bool_decide_unpack _); vm_compute; exact I)
    ltac:(vm_compute; reflexivity) ltac:(by right; left)) as (H1 & H2 & _).
  exact (conj H1 H2).
Defined.

(** (C39) A batch is not returned stale.  Let the hash of a block fix the world after
    it, and no reset be to an empty chain (after such a reset the tip hash still names
    the dropped block).  Run [Execute] on a reachable state, with no store fault, among
    any other batches, commits, and, outside its read phases, blocks, finalizations and
    resets.  When it returns, the results are those of its calls, with empty overlays,
    on the world that is at the tip at the moment of the final check, with a stamp of
    that tip's hash and code the store had while the attempt ran, whatever
    attempts were overtaken before.  And from every state with a worker in the
    pool or with the batch, [Execute] returns by its own steps: only being overtaken
    again and again, or having no worker, can keep it. *)
Theorem execute_fresh {db : Type} `{ReaderLaws db} {R : Type} (world_of : Hash → world) (s : State db) (W0 : world) (j : nat)
    (code : Hash → result bytes) (pool : list View) (calls : list (prog R)) (q : u64) (x : Exec) :
  ¬ rd_faulty → mem_run s W0 j → codes_ok code s → registered s pool → tip_world s W0 = world_of (TipHash s) →
  Execute_run world_of calls (MkExec (MkShared s pool j) W0 q XIdle) x →
  let s' := sh_st (x_sh x) in
  (∀ results, x_phase x = XReturned results →
     ∃ code0 code1 tip, code_grows code0 code1 ∧ code_grows code1 (rd_GetCode (s_db s')) ∧ tip.1.1 = TipHash s' ∧
       Forall2 (evals (code_between code0 code1) (tip_world s' (x_base x)) tip ∅ ∅) calls results) ∧
  (exec_worker x → ∃ x' results, rtc (Execute_step calls) x x' ∧ x_phase x' = XReturned results).
Proof.
  intros Hnf Hm Hco Hp Ht Hrun s'.
  destruct (Execute_ok world_of calls code _ _ Hnf (Build_exec_ok _ _ _ (MkExec (MkShared s pool j) W0 q XIdle) Hm Hco Hp Ht I) Hrun)
    as (code' & Hx). split; [|by eapply Execute_completes].
  intros results Hph. destruct Hx as [_ Hco' _ Ht' Hx]. unfold phase_ok in Hx. rewrite Hph in Hx.
  destruct Hx as (c0 & c1 & tip & H01 & H1 & Htip & Hf). exists c0, c1, tip. subst s'. rewrite Ht'.
  split_and!; [done| |done|done]. intros h. rewrite (co_store _ _ Hco' h). apply H1.
Qed.

Lemma ex_live_deploy : live (apply_batch (tip_world ex_state empty_world) ex_deploy).
Proof.
  intros a Ha s. revert Ha. unfold tip_world, apply_batch, apply_ops. cbn. repeat case_decide; naive_solver.
Qed.

(** An attempt overtaken by a block: the batch is run again and then returned. *)
Definition ex_world_of (h : Hash) : world :=
  if decide (h = BHash ex_b1) then tip_world ex_state empty_world
  else apply_batch (tip_world ex_state empty_world) ex_deploy.

Lemma ex_overtaken :
  Execute_run ex_world_of (R:=nat) [] (MkExec (MkShared ex_state ex_pool 0) empty_world u_zero XIdle)
    (MkExec (MkShared (ApplyBlock ex_state ex_deploy) ex_pool 0) empty_world (u_add u_zero (wrap 1)) XIdle).
Proof.
  eapply rtc_l; [left; apply xs_begin|]. eapply rtc_l; [left; apply (xs_end _ _ _ _ _ [])|].
  eapply rtc_l; [right; apply ws_write, (mw_block _ _ _ _ ex_deploy)|]; [done| | |].
  - exact ex_live_deploy.
  - reflexivity.
  - eapply rtc_l; [left; apply xs_requeue; apply (bool_decide_unpack _); vm_compute; exact I|apply rtc_refl].
Qed.

Lemma execute_fresh_witness :
  ∃ x' results, rtc (Execute_step (R:=nat) [])
    (MkExec (MkShared (ApplyBlock ex_state ex_deploy) ex_pool 0) empty_world (u_add u_zero (wrap 1)) XIdle) x' ∧
    x_phase x' = XReturned results.
Proof.
  apply (execute_fresh ex_world_of ex_state empty_world 0 ex_codes ex_pool [] u_zero
    (MkExec (MkShared (ApplyBlock ex_state ex_deploy) ex_pool 0) empty_world (u_add u_zero (wrap 1)) XIdle));
    [by intros ?|apply ex_state_run|apply ex_state_codes|apply ex_pool_registered|reflexivity|apply ex_overtaken|done].
Defined.

(** ** The simulator's state database *)

(** (C27) Reverting restores the snapshot.  After any sequence of state changes
    from [s0] (balances, nonces, storage, transient storage, account creation and
    destruction, refunds, logs, access list, code of an account that had none in
    the overlay), reverting to the snapshot taken at [s0] gives back an overlay in
    which every read answers as it did at [s0], with the journal of [s0]. *)
Theorem revert_to_snapshot {Log : Type} (view : ViewReads) (keccak : bytes → Hash)
    (s0 s : stateDB Log) (a : Address) (k : Hash) :
  sim_run view keccak s0 s →
  let s' := RevertToSnapshot s (Snapshot s0) in
  s' ≡ s0 ∧ sd_journal s' = sd_journal s0 ∧
  (GetState view s' a k).1 = (GetState view s0 a k).1 ∧
  (GetCommittedState view s' a k).1 = (GetCommittedState view s0 a k).1 ∧
  (GetBalance view s' a).1 = (GetBalance view s0 a).1 ∧
  (GetNonce view s' a).1 = (GetNonce view s0 a).1 ∧
  (GetCodeHash view keccak s' a).1 = (GetCodeHash view keccak s0 a).1 ∧
  (sd_GetCode view keccak s' a).1 = (sd_GetCode view keccak s0 a).1 ∧
  (Exist view s' a).1 = (Exist view s0 a).1 ∧
  GetTransientState s' a k = GetTransientState s0 a k ∧
  HasSelfDestructed s' a = HasSelfDestructed s0 a ∧ GetRefund s' = GetRefund s0 ∧
  AddressInAccessList s' a = AddressInAccessList s0 a ∧
  SlotInAccessList s' a k = SlotInAccessList s0 a k.
Proof.
  intros [He Hj]%revert_restores s'. split_and!; [done|done|by apply reads_agree..].
Qed.

Definition ex_view : ViewReads := {|
  vr_Account _ := Ok (ex_acct 5, true);
  vr_Balance _ := Ok (wrap 5);
  vr_Slot _ _ := Ok (ex_hash 6);
  vr_Code _ := Ok []
|}.

Definition ex_sim : stateDB unit := newStateDB.

Lemma revert_to_snapshot_witness :
  let s := SetState (AddBalance ex_view ex_sim (ex_addr 1) (wrap 3)) (ex_addr 1) (ex_hash 2) (ex_hash 9) in
  (GetState ex_view s (ex_addr 1) (ex_hash 2)).1 = ex_hash 9 ∧
  (GetState ex_view (RevertToSnapshot s (Snapshot ex_sim)) (ex_addr 1) (ex_hash 2)).1 = ex_hash 6.
Proof.
  cbv zeta. split; [eval_decide|].
  refine (eq_trans (proj1 (proj2 (proj2 (revert_to_snapshot ex_view ex_keccak ex_sim _ (ex_addr 1) (ex_hash 2) _)))) _);
    [|eval_decide].
  apply sr_state, sr_add_balance, sr_refl.
Defined.

(** Storage behaves like storage.  After [SetState] the slot, and every
    slot that differs from it only in the lowest bit of its first byte (the two
    share one key after [normSlot]), reads the new value; every other slot reads
    as before; and committed state never changes.  [normSlot] identifies exactly
    those pairs. *)
Theorem set_then_get_state {Log : Type} (view : ViewReads) (s : stateDB Log)
    (a a' : Address) (k k' v : Hash) (b b' : byte) (r r' : bytes) :
  abytes k = b :: r → abytes k' = b' :: r' →
  (GetState view (SetState s a k v) a' k').1 =
    (if decide (a' = a ∧ normSlot k' = normSlot k) then v else (GetState view s a' k').1) ∧
  (GetCommittedState view (SetState s a k v) a' k').1 = (GetCommittedState view s a' k').1 ∧
  (normSlot k' = normSlot k ↔ (b' / 2 = b / 2)%Z ∧ r' = r).
Proof.
  intros Hk Hk'. split_and!; [apply SetState_GetState|apply SetState_GetCommittedState|].
  by apply normSlot_eq.
Qed.

Lemma set_then_get_state_witness :
  (GetState ex_view (SetState ex_sim (ex_addr 1) (ex_hash 4) (ex_hash 9)) (ex_addr 1) (ex_hash 5)).1
  = ex_hash 9.
Proof.
  refine (eq_trans (proj1 (set_then_get_state ex_view ex_sim (ex_addr 1) (ex_addr 1) (ex_hash 4) (ex_hash 5)
    (ex_hash 9) (default (byte_lit 0) (head (abytes (ex_hash 4)))) (default (byte_lit 0) (head (abytes (ex_hash 5))))
    (tail (abytes (ex_hash 4))) (tail (abytes (ex_hash 5))) _ _)) _); eval_decide.
Defined.

(** [Prepare] warms what the rules say.  From Berlin on, the sender, the
    destination, every precompile, every address and slot of the transaction's
    access list, and from Shanghai the coinbase, are in the access list
    afterwards. *)
Theorem prepare_warms {Log : Type} (s : stateDB Log) (rules : Rules) (sender coinbase : Address)
    (dst : option Address) (precompiles : list Address) (accessList : list (Address * list Hash)) :
  IsBerlin rules = true →
  let s' := Prepare s rules sender coinbase dst precompiles accessList in
  warm s' sender ∧ (∀ a, dst = Some a → warm s' a) ∧ (∀ a, a ∈ precompiles → warm s' a) ∧
  (∀ el, el ∈ accessList → entry_warm s' el) ∧ (IsShanghai rules = true → warm s' coinbase).
Proof. apply Prepare_warm. Qed.

Lemma prepare_warms_witness :
  warm (Prepare ex_sim (MkRules true true) (ex_addr 1) (ex_addr 2) None [] []) (ex_addr 1).
Proof.
  exact (proj1 (prepare_warms ex_sim (MkRules true true) (ex_addr 1) (ex_addr 2) None [] [] eq_refl)).
Defined.

(** Reverting a second [SetCode] loses the first.  The journal entry of
    [SetCode] does not keep the code it replaces: set code twice on one account and
    revert the second call only, and the account has no overlay code at all
    instead of the first one. *)
Theorem set_code_twice_revert {Log : Type} (keccak : bytes → Hash) (s : stateDB Log)
    (a : Address) (c1 c2 : bytes) :
  let s1 := SetCode keccak s a c1 in
  sd_codes s1 !! a = Some c1 ∧
  sd_codes (RevertToSnapshot (SetCode keccak s1 a c2) (Snapshot s1)) !! a = None.
Proof. split; [apply lookup_insert_eq|apply SetCode_revert_loses]. Qed.

(** (C15) A pooled executor answers like a new one.  Suppose libevm's [evm.Call]
    changes the state database through the methods of [vm.StateDB] only.  Then,
    whatever calls an executor of the pool has executed, at whatever tips, with
    failed reads or not, its answer to the next call is the one of the call alone on
    a new EVM for the tip and a new state database: although database and EVM object
    are kept, no write, log, override, read error, journal entry or cancelled EVM of
    an earlier call is left, and the cached block environment is that of the tip.
    Without a tip the call is refused, and the first failed read is the answer
    whatever the EVM returned. *)
Theorem sim_call_pure {Log : Type} (blackholeAddr : Address) (keccak : bytes → Hash) (Rules_at : u64 → u64 → Rules)
    (ActivePrecompiles : Rules → list Address)
    (evm_Call : ViewReads → EVM → Address → Address → bytes → u64 → u256 → stateDB Log →
      (bytes * u64 * option error) * stateDB Log)
    (info : Hash → u64 * u64) (e : SimCall.Executor Log) (c : anycall) (v : ViewReads) (tip : Hash) :
  evm_uses_methods keccak evm_Call →
  pooled blackholeAddr Rules_at ActivePrecompiles evm_Call info e →
  (sim_Execute blackholeAddr Rules_at ActivePrecompiles evm_Call e c v (tip, (info tip).1, (info tip).2)).1
  = call_spec blackholeAddr Rules_at ActivePrecompiles evm_Call c v (tip, (info tip).1, (info tip).2).
Proof.
  intros Hm He%(pooled_env blackholeAddr keccak); [|done].
  pose proof (execute_spec blackholeAddr keccak Rules_at ActivePrecompiles evm_Call info e c v tip Hm He) as Hs.
  destruct (sim_Execute _ _ _ _ e c v _) as [r e']. apply Hs.
Qed.

(** An EVM that stores the value it is sent, answers the slot it reads, and
    does nothing once it is cancelled. *)
Definition ex_evm_call (v : ViewReads) (evm : EVM) (caller to : Address) (input : bytes) (gas : u64) (value : u256)
    (s : stateDB unit) : (bytes * u64 * option error) * stateDB unit :=
  if ev_cancelled evm then (([], gas, None), s)
  else
    let '(x, s) := GetState v s to (BytesToHash input) in
    ((abytes x, u_sub gas (wrap 100), None), AddBalance v s to value).

Lemma ex_evm_methods : evm_uses_methods ex_keccak ex_evm_call.
Proof.
  intros v evm caller to input gas value s. unfold ex_evm_call. destruct (ev_cancelled evm); [done|].
  pose proof (dc_get_state ex_keccak v s to (BytesToHash input)) as Hr.
  destruct (GetState v s to (BytesToHash input)) as [x s1]. eapply rtc_l; [exact Hr|].
  apply rtc_once, dc_add_balance.
Qed.

Definition ex_failing : ViewReads :=
  MkViewReads (λ _, Err (ErrMsg "read")) (λ _, Err (ErrMsg "read")) (λ _ _, Err (ErrMsg "read")) (λ _, Err (ErrMsg "read")).
Definition ex_call : anycall :=
  ACall (MkCall (ex_addr 1) (ex_addr 2) (abytes (ex_hash 4)) u_zero None [] [(ex_addr 2, [(ex_hash 4, ex_hash 9)])] []).
Definition ex_plain : anycall := ACall (MkCall (ex_addr 1) (ex_addr 2) [] u_zero None [] [] []).
Definition ex_info (h : Hash) : u64 * u64 := (u64_lit 101, u64_lit 5000).
Abbreviation ex_execute := (sim_Execute (ex_addr 9) (λ _ _, MkRules true true) (λ _, []) ex_evm_call).

(** After a call whose read failed and cancelled the EVM, the next one runs on a
    new EVM. *)
Lemma sim_call_pure_witness :
  let e := (ex_execute sim_New ex_plain ex_failing (ex_hash 1, u64_lit 101, u64_lit 5000)).2 in
  se_evm e = None ∧ (ev_cancelled <$> sd_evm (se_sdb e)) = Some true ∧
  (ex_execute e ex_call ex_failing (ex_hash 1, u64_lit 101, u64_lit 5000)).1 =
    call_spec (ex_addr 9) (λ _ _, MkRules true true) (λ _, []) ex_evm_call ex_call ex_failing
      (ex_hash 1, u64_lit 101, u64_lit 5000).
Proof.
  cbv zeta. split_and!; [vm_compute; reflexivity|vm_compute; reflexivity|].
  apply (sim_call_pure (ex_addr 9) ex_keccak (λ _ _, MkRules true true) (λ _, []) ex_evm_call ex_info
    (ex_execute sim_New ex_plain ex_failing (ex_hash 1, u64_lit 101, u64_lit 5000)).2 ex_call ex_failing (ex_hash 1)
    ex_evm_methods).
  apply (po_execute _ _ _ _ ex_info sim_New ex_plain ex_failing (ex_hash 1)). constructor.
Defined.

(** The example call answers the overridden slot. *)
Example sim_call_result :
  let r := (ex_execute sim_New ex_call ex_view (ex_hash 1, u64_lit 101, u64_lit 5000)).1 in
  rs_Err r = None ∧ rs_ReturnData r = abytes (ex_hash 9) ∧ rs_GasUsed r = u64_lit 100.
Proof. cbv zeta. split_and!; eval_decide. Qed.

(** Overrides of two slots that [normSlot] identifies: the value depends on the
    order in which the map is ranged over. *)
Example override_order :
  let over l := sd_reset ex_sim (MkEVM u_zero u_zero false None) [] [(ex_addr 1, l)] in
  (GetState ex_failing (over [(ex_hash 4, ex_hash 7); (ex_hash 5, ex_hash 8)]) (ex_addr 1) (ex_hash 4)).1 = ex_hash 8 ∧
  (GetState ex_failing (over [(ex_hash 5, ex_hash 8); (ex_hash 4, ex_hash 7)]) (ex_addr 1) (ex_hash 4)).1 = ex_hash 7.
Proof. split; eval_decide. Qed.
