(* ===== verification/MainSync.v ===== *)
(** * MainSync: what the state sync promises

    The main theorems about the concurrent state sync: a run that returns without
    error serves the state trie, every run can be resumed, every run stops, the
    key ranges tile the key space, and the two ways it goes wrong. *)

From S2P Require Import Prelude Schema Lmdb Capture World Store StoreRead StoreSpec StoreProof.
From S2P Require Import StoreReads StoreWrites Loader Concurrent StoreInv Scans ScanCode SyncKeys Sync.
From S2P Require Import SyncTrie SyncLogic SyncSound SyncInv SyncRun SyncLive SyncServe.
From S2P Require Import Examples ExamplesSync.

(** (C3) A state sync that returns without error has loaded the state.  Start
    [Run] over a database without blocks, fresh or left by interrupted runs, with
    a client whose responses are honest pages of the tries and whose code matches
    its hash, under any interleaving of the segment walkers, the storage walkers
    and the writer.  Storage walks are not resumed, or the pages are full, or the
    database has no slots yet ([may_resume]): [resume_hole] shows that a sync that
    resumes storage from short pages may leave a hole.  If it returns without error, the database serves the height:
    its world is that of the state trie, account by account and slot by slot, the
    code of every account is stored, and blocks can be written above it. *)
Theorem sync_complete {env : Type} `{LmdbLaws env} (keccak : bytes → Hash)
    (rlp_account : bytes → option LeafAccount) (rlp_content : bytes → option bytes)
    (Height : u64) (Root : Hash) (vars : Vars) (cl : Client) (maxCodeHashes fuel : nat)
    (scan_fuel : env → nat) (Trie : Hash → list leaf) (full : Prop)
    (sched : list choice) (d d' : DB env) :
  bounds_ok rlp_account Root vars maxCodeHashes fuel scan_fuel Trie →
  client_ok keccak cl Trie full →
  wf_db (rows d) → cache_ok d → no_history (rows d) →
  resumable keccak rlp_account rlp_content Root vars Trie full (rows d) →
  may_resume vars full (rows d) →
  Run keccak rlp_account rlp_content Height Root vars cl maxCodeHashes fuel scan_fuel sched d =
    Some (Ok (), d') →
  served (rows d') Height ∧ fresh_above (rows d') Height ∧
  (∀ B, db_world keccak (rows d') B ≡ trie_world keccak rlp_account rlp_content Root Trie) ∧
  ∀ h acc, trie_account rlp_account Root Trie h = Some acc →
    let ch := BytesToHash (la_CodeHash acc) in
    ch ≠ arr_zero → ch ≠ EmptyCodeHash keccak →
    ∃ c, rows d' !! key_bytes (KCode ch) = Some c ∧ keccak c = ch.
Proof.
  intros Hb Hc Hwf Hca Hno Hr Hm Hrun. destruct Hb as [Ht ? ? ? ? ?] eqn:Eb.
  destruct (Run_outcome keccak rlp_account rlp_content Height Root vars cl maxCodeHashes fuel scan_fuel
    Trie full Hb Hc sched d (Ok ()) d' Hwf Hca Hr Hm Hrun) as (Hwf' & _ & Hsy).
  assert (no_history (start_rows Height d)) as Hno'.
  { unfold start_rows. destruct Hno as (H1 & H2 & H3 & H4). by split_and!; intros; rk. }
  split_and!.
  - by eapply (synced_served keccak rlp_account rlp_content Root Trie); [..|apply lookup_insert_eq].
  - by eapply (synced_served keccak rlp_account rlp_content Root Trie); [..|apply lookup_insert_eq].
  - intros B. by eapply synced_world.
  - intros h acc Ha%trie_account_iff ch Hz He; [|done]. by eapply (sy_code _ _ _ _ _ _ _ Hsy).
Qed.

(** The interrupted load of the example is resumed and ends. *)
Lemma sync_complete_witness :
  ∃ d', sx_Run sx_sched sx_db = Some (Ok (), d') ∧ served (rows d') ex_S ∧
    db_world ex_keccak (rows d') ex_S ≡
      trie_world ex_keccak sx_rlp_account sx_rlp_content sx_root sx_trie.
Proof.
  destruct (sx_Run sx_sched sx_db) as [[r d']|] eqn:E;
    pose proof sx_run_ok as Ho; rewrite E in Ho; [|discriminate Ho].
  injection Ho as ->. exists d'. split; [done|].
  destruct (sync_complete ex_keccak sx_rlp_account sx_rlp_content ex_S sx_root default_vars sx_client 5
    sx_fuel sx_scan_fuel sx_trie False sx_sched sx_db d') as (Hs & _ & Hw & _);
    [exact sx_bounds|exact sx_client_ok|exact sx_wf|exact sx_cache|exact sx_no_history
    |exact sx_resumable|right; right; exact sx_no_slots|exact E|].
  split; [exact Hs|apply Hw].
Defined.

(** (C13) Interrupted at any moment, a sync can be resumed.  Start it from rows
    such a sync has left, with a client whose pages are honest, and with storage not
    resumed, pages full, or no slots yet in the rows it starts from ([may_resume],
    without which [resume_hole] is a counterexample).  After any number of
    steps of any interleaving (a crash keeps what is committed) and after every
    return, with an error, a cancellation or without, the committed rows are well
    formed and satisfy the invariant a later run starts from: accounts fill each
    segment from its start, a done segment has all its accounts, and an account
    with storage has its queue row or all its slots. *)
Theorem sync_resumable {env : Type} `{LmdbLaws env} (keccak : bytes → Hash)
    (rlp_account : bytes → option LeafAccount) (rlp_content : bytes → option bytes)
    (Height : u64) (Root : Hash) (vars : Vars) (cl : Client) (maxCodeHashes fuel : nat)
    (scan_fuel : env → nat) (Trie : Hash → list leaf) (full : Prop)
    (sched : list choice) (d : DB env) :
  bounds_ok rlp_account Root vars maxCodeHashes fuel scan_fuel Trie →
  client_ok keccak cl Trie full →
  wf_db (rows d) → cache_ok d →
  resumable keccak rlp_account rlp_content Root vars Trie full (rows d) →
  may_resume vars full (rows d) →
  (∀ s d1 s', Run_start keccak rlp_account Height Root fuel d = (Ok s, d1) →
     sys_run rlp_content vars cl fuel scan_fuel sched s = Some s' →
     wf_db (rows (y_db s')) ∧
     resumable keccak rlp_account rlp_content Root vars Trie full (rows (y_db s'))) ∧
  (∀ res d', Run keccak rlp_account rlp_content Height Root vars cl maxCodeHashes fuel scan_fuel sched d =
     Some (res, d') →
     wf_db (rows d') ∧
     resumable keccak rlp_account rlp_content Root vars Trie full (rows d')).
Proof.
  intros Hb Hc Hwf Hca Hr Hm. split.
  - intros s d1 s' Hst Hrun.
    destruct (Run_start_ok keccak rlp_account rlp_content Height Root vars maxCodeHashes fuel scan_fuel
      Trie full Hb d (Ok s) d1 Hwf Hca Hr Hm Hst) as (_ & _ & Hs).
    eapply sys_inv_committed, sync_run_inv; [exact Hb|exact Hc|exact Hs|exact Hrun].
  - intros res d' Hrun. eapply Run_outcome in Hrun; [|done..]. by destruct Hrun as (? & ? & _).
Qed.

(** The example is cut off in the middle of phase 2. *)
Lemma sync_resumable_witness :
  ∃ s d1 s', Run_start ex_keccak sx_rlp_account ex_S sx_root sx_fuel sx_db = (Ok s, d1) ∧
    sys_run sx_rlp_content default_vars sx_client sx_fuel sx_scan_fuel
      (sx_segment ++ take 10 sx_drain) s = Some s' ∧
    (∃ p, y_phase s' = PhDrain p) ∧
    resumable ex_keccak sx_rlp_account sx_rlp_content sx_root default_vars sx_trie False (rows (y_db s')).
Proof.
  pose proof sx_prefix_ok as Ho.
  destruct (Run_start ex_keccak sx_rlp_account ex_S sx_root sx_fuel sx_db) as [[s|e] d1] eqn:E;
    [|discriminate Ho].
  destruct (sys_run sx_rlp_content default_vars sx_client sx_fuel sx_scan_fuel
    (sx_segment ++ take 10 sx_drain) s) as [s'|] eqn:Er; [|discriminate Ho].
  exists s, d1, s'. split; [done|]. split; [done|]. split.
  - destruct (y_phase s'); try discriminate Ho. by eexists.
  - destruct (sync_resumable ex_keccak sx_rlp_account sx_rlp_content ex_S sx_root default_vars sx_client 5
      sx_fuel sx_scan_fuel sx_trie False (sx_segment ++ take 10 sx_drain) sx_db) as [Hr _];
      [exact sx_bounds|exact sx_client_ok|exact sx_wf|exact sx_cache
      |exact sx_resumable|right; right; exact sx_no_slots|].
    by apply (Hr s d1 s').
Defined.




(** (C40) A writer that fails before the fence leaves [Run] waiting.  The writer
    drains its channel after an error and answers no fence, and
    [drainStorageQueue] waits for the answer: from the moment phase 1 ends with
    the writer gone, no step of any goroutine ever ends the run, only a
    cancellation from outside does. *)
Theorem fence_waits_forever {env : Type} `{LmdbLaws env} (rlp_content : bytes → option bytes)
    (vars : Vars) (cl : Client) (fuel : nat) (scan_fuel : env → nat)
    (sched : list choice) (s s' : sys env) :
  waiting s → forallb (λ c, negb (is_cancel c)) sched →
  sys_run rlp_content vars cl fuel scan_fuel sched s = Some s' →
  y_phase s' = PhSegments PDone ∨ y_phase s' = PhFence.
Proof. intros Hw Hc Hr. by eapply waiting_forever in Hr as (_ & _ & ?). Qed.

(** The fence is sent to a writer that is draining. *)
Lemma fence_waits_forever_witness :
  let s := MkSys sx_db (MkBaseline ex_S [] None) sx_bitmap (Some (ErrLmdb (-30792))) [] ∅ 0 None
             (PhSegments PDone) in
  ∃ s', sys_run sx_rlp_content default_vars sx_client sx_fuel sx_scan_fuel [ChMain; ChWriter] s = Some s' ∧
    hung s' ∧ (y_phase s' = PhSegments PDone ∨ y_phase s' = PhFence).
Proof.
  intros s. eexists. split; [reflexivity|]. split; [by split_and!|].
  apply (fence_waits_forever sx_rlp_content default_vars sx_client sx_fuel sx_scan_fuel [ChMain; ChWriter] s);
    [split_and!; [done|done|by left]|done|reflexivity].
Defined.

(** Resuming a storage walk is sound only when responses are cut at the
    limit.  The rows of an interrupted load satisfy the invariant, the client is
    honest but cuts its responses short, and the resumed run returns without error
    with a slot of the trie missing: the second run splits the rest of the key
    space elsewhere than the first did, so that a range's greatest committed slot
    is no longer the end of a filled prefix. *)
Theorem resume_hole :
  bounds_ok sx_rlp_account sx_root default_vars 5 hx_fuel sx_scan_fuel hx_trie ∧
  client_ok ex_keccak hx_client hx_trie False ∧
  wf_db (rows hx_db) ∧
  resumable ex_keccak sx_rlp_account sx_rlp_content sx_root default_vars hx_trie False (rows hx_db) ∧
  ∃ d', hx_Run hx_sched hx_db = Some (Ok (), d') ∧
    trie_slot ex_keccak sx_rlp_account sx_rlp_content sx_root hx_trie (sx_key 2) hx_lost =
      Some (slot_value hx_value) ∧
    rows d' !! key_bytes (KBaseSlot (sx_key 2) hx_lost) = None.
Proof.
  split_and!; [exact hx_bounds|exact hx_client_ok|exact hx_wf_rows|exact hx_resumable|].
  pose proof hx_run as Ho. destruct (hx_Run hx_sched hx_db) as [[[[]|e] d']|]; [|discriminate Ho..].
  exists d'. split_and!; [done| |by apply bool_decide_eq_true in Ho].
  apply trie_slot_iff; [exact hx_tries|]. exists sx_acc2.
  split_and!; [apply hx_is_account|apply hx_has_storage|apply hx_is_slot].
  apply elem_of_app. right. right. left.
Qed.

(** (C34) Keys at their width.  [incKey] is the successor among the keys of its
    length, nil only at the last one; [splitRange] returns ranges that tile the
    keys from its start on, every key in exactly one of them, unless it panics,
    which needs fewer than [n*n] keys behind the start. *)
Theorem key_ranges (from : bytes) (n : Z) :
  match incKey from with
  | Some next => length next = length from ∧
      ∀ x, length x = length from → (from < x)%bytes ↔ (next ≤ x)%bytes
  | None => ∀ x, length x = length from → (x ≤ from)%bytes
  end ∧
  match splitRange from n with
  | Ok rs => ∀ x, length x = length from →
      ((from ≤ x)%bytes ↔ ∃ r, r ∈ rs ∧ in_range r x) ∧
      ∀ i j r r', rs !! i = Some r → rs !! j = Some r' → in_range r x → in_range r' x → i = j
  | Err e => e = ErrMsg "panic" ∧ (256 ^ Z.of_nat (length from) - 1 - be_val from < n * n)%Z
  end.
Proof.
  split.
  - destruct (incKey from) as [next|] eqn:E; [|intros x; by apply incKey_last].
    split; [by apply incKey_length|]. intros x. by apply incKey_next.
  - destruct (splitRange from n) as [rs|e] eqn:E.
    + apply splitRange_Ok in E. intros x Hx. split; [by apply contiguous_cover|].
      intros i j r r' Hi Hj Hr Hr'. destruct (Nat.lt_trichotomy i j) as [Hlt|[->|Hlt]]; [|done|].
      * by destruct (contiguous_disjoint from rs i j r r' x E Hi Hj Hlt Hx Hr Hr').
      * by destruct (contiguous_disjoint from rs j i r' r x E Hj Hi Hlt Hx Hr' Hr).
    + split; [by eapply splitRange_panic|]. apply Z.nle_gt. intros Hw.
      destruct (splitRange_contiguous from n (split_fits_wide from n Hw)) as (rs & Hrs & _). congruence.
Qed.

(** The panic: a walk that stops 29 keys before the last one. *)
Example split_panics : splitRange (replicate 31 (byte_lit 255) ++ [byte_lit 226]) 16 = Err (ErrMsg "panic").
Proof. reflexivity. Qed.

(** The sweep asks for exactly the missing code: over a well-formed
    database [MissingCodeHashes] returns, each once, the code hashes an account
    row of the baseline refers to, other than zero and the hash of the empty code,
    that have no code row; a bound above the number of rows is enough for the
    scan. *)
Theorem missing_code_exact {env : Type} `{LmdbLaws env} (keccak : bytes → Hash) (fuel : nat) (d : DB env) :
  wf_db (rows d) → size (rows d) < fuel →
  ∃ l, upto_faults (MissingCodeHashes keccak fuel d) (Ok l) ∧ NoDup l ∧
    ∀ ch, ch ∈ l ↔ rows d !! key_bytes (KCode ch) = None ∧ ch ≠ arr_zero ∧ ch ≠ keccak [] ∧
      ∃ h x a, rows d !! key_bytes (KBaseAccount h) = Some x ∧ DecodeAccount x = Ok a ∧ CodeHash a = ch.
Proof.
  intros Hwf Hf. destruct (MissingCodeHashes_upto keccak fuel d Hwf Hf) as (l & Hl & Hnd & Hin).
  exists l. split_and!; [done|done|]. intros ch. rewrite Hin. unfold code_wanted. tauto.
Qed.

Lemma missing_code_exact_witness :
  ∃ l, upto_faults (MissingCodeHashes ex_keccak 3 sx_db) (Ok l) ∧ NoDup l.
Proof.
  destruct (missing_code_exact ex_keccak 3 sx_db) as (l & Hl & Hn & _); [exact sx_wf| |by exists l].
  apply Nat.ltb_lt. vm_compute. reflexivity.
Defined.
