(* ===== verification/MainConsensus.v ===== *)
(** * MainConsensus: what the consensus engine promises

    The main theorems about the snowman engine of [follower/consensus]: what its
    sink sees is one executed chain, the tracker under it never refuses a call, the
    anchor has a quorum of answers behind it, the backfilled chain is linked, votes
    bubble to the nearest block consensus knows, and its loops end. *)

From S2P Require Import Prelude Schema Capture Exec Node TrackerProof ConsensusState Consensus ConsensusInv.
From S2P Require Import ConsensusBoot ConsensusLoops ConsensusVotes ConsensusRun ConsensusTracker Examples ExamplesConsensus.

(** (C9) What the sink sees is one executed chain.  Start the engine and let any
    containers, votes, ancestor lists and ticks reach it, in any order and from any
    peers; nothing is assumed of what they send but that it is fewer than 2^64
    containers.  While the engine has no fatal error, its calls on the sink are
    those of one chain: nothing before the bootstrap ends; then the sink is made at
    the resume point, with the hash the store has for it; every accepted block is a
    verified one and the child, by height and by hash, of the block accepted before
    it; every head extends the accepted block by verified blocks; every verified
    batch was executed from the block of a received container; and the engine's last
    accepted block is where the chain of the sink ends. *)
Theorem engine_follows_chain {T P K N Body : Type} `{Consensus T Body, !ConsensusLaws T Body, PollSet P T}
    `{EngineSink K, Executor K Body, !ExecutorLaws K Body, Net N}
    (proposer : bytes → option (Hash * Hash * bytes)) (rlp_block : bytes → option (EthBlock Body))
    (DefaultParameters : Parameters) (verify : Parameters → option error) (cs_nil : T) (pl_nil : P)
    (u : UserConfig) (k : K) (n : N) (cfg : Config)
    (e0 : Engine T P (K * list sink_event) N Body) (evs : list event) :
  (Z.of_nat (length (received evs)) < 2 ^ 64)%Z →
  New DefaultParameters verify cs_nil pl_nil u (k, []) n = Ok (cfg, e0) →
  let e := run cfg proposer rlp_block e0 evs in
  e_fatal e = None →
  match e_phase e with
  | phaseLive => ∃ h0 hash0, start_ok cfg h0 hash0 ∧
      follows (of_parsed proposer rlp_block (received evs)) h0 hash0 (log e) (LastAccepted e).1 (LastAccepted e).2
  | _ => log e = []
  end.
Proof.
  intros Hh Hn e Hf.
  pose proof (engine_ok_log cfg proposer rlp_block _ _ _ _ e (run_engine_ok proposer rlp_block (received evs) DefaultParameters
    verify cs_nil pl_nil cfg (λ _ _, True) _ _ u k n e0 evs (λ _ Hr, Hr) Hh (λ _ _ _ _ _, I)
    (any_sink proposer rlp_block (received evs) cfg) any_errors I Hn)) as Hl.
  rewrite Hf in Hl. destruct (e_phase e); [apply Hl|apply Hl|]. destruct Hl as [(h0 & hash0 & Hst & Hfo) _].
  by exists h0, hash0.
Qed.

(** The example network accepts block 11 over the anchor 10. *)
Lemma engine_follows_chain_witness :
  let e := cx_run None cx_accepted in
  e_phase e = phaseLive ∧ LastAccepted e = (u64_lit 11, cx_eth (byte_lit 11)) ∧
  ∃ h0 hash0, follows (of_parsed cx_proposer cx_rlp (received cx_accepted)) h0 hash0 (log e) (u64_lit 11) (cx_eth (byte_lit 11)).
Proof.
  cbv zeta. assert (e_phase (cx_run None cx_accepted) = phaseLive) as Hp by (vm_compute; reflexivity).
  assert (LastAccepted (cx_run None cx_accepted) = (u64_lit 11, cx_eth (byte_lit 11))) as Hla by eval_decide.
  pose proof (engine_follows_chain cx_proposer cx_rlp cx_params (λ _, None) (MkTiny ∅ arr_zero arr_zero) ∅ (cx_user None)
    cx_node0 (MkQuiet u_zero 0) (cx_cfg None) cx_start cx_accepted
    ltac:(vm_compute; reflexivity) eq_refl) as Hm.
  cbv zeta in Hm. rewrite Hp, Hla in Hm. split; [done|split; [done|]].
  destruct Hm as (h0 & hash0 & _ & Hfo); [vm_compute; reflexivity|]. by exists h0, hash0.
Defined.

(** The errors that may end an engine over a tracker: those its executor, the
    consensus object, the poll set or the tracker's sink return, a chain that does
    not have the resume point, and an exhausted bound. *)
Inductive engine_fault {T P X Body sink : Type} `{Consensus T Body, PollSet P T, Executor X Body, SinkLaws sink}
    (make : u64 → Hash → result sink) : error → Prop :=
| ef_exec (x : X) parent blk er x' : ex_Execute x parent blk = (Err er, x') → engine_fault make er
| ef_add (t : T) c ds t' er : cs_Add t c = (ds, t', Some er) → engine_fault make er
| ef_poll (t : T) votes ds t' er : cs_RecordPoll t votes = (ds, t', Some er) → engine_fault make er
| ef_init pa id h tm er : cs_Initialize pa id h tm = Err er → engine_fault make er
| ef_polls pa t er : pl_New pa t = Err er → engine_fault make er
| ef_sink er : sink_fault make er → engine_fault make er
| ef_start : engine_fault make (ErrMsg "consensus")
| ef_fuel : engine_fault make (ErrMsg "fuel").

(** (C5) The engine never makes a call its tracker refuses.  Run over
    [node.Tracker], with any votes, ticks and containers, of which there are fewer
    than 2^64 and no two whose blocks have one hash but different numbers or parents:
    a head is always connected to the tracker's finalized block and an accepted block
    is always known as its child, so a fatal error is one of the engine's parts, never
    one of the tracker's own.  Without one, a live engine and its tracker agree on the
    last accepted block, and the tracker has its invariant: what it published is a
    chain of linked layers on top of it. *)
Theorem engine_drives_tracker {T P X N Body sink : Type} `{Consensus T Body, !ConsensusLaws T Body}
    `{PollSet P T, Executor X Body, !ExecutorLaws X Body, Net N, SinkLaws sink}
    (make : u64 → Hash → result sink) (fin : X → u64 → X)
    (proposer : bytes → option (Hash * Hash * bytes)) (rlp_block : bytes → option (EthBlock Body))
    (DefaultParameters : Parameters) (verify : Parameters → option error) (cs_nil : T) (pl_nil : P)
    (u : UserConfig) (k : Tracker sink * X) (n : N) (cfg : Config)
    (e0 : Engine T P (Tracker sink * X * list sink_event) N Body) (evs : list event) :
  (Z.of_nat (length (received evs)) < 2 ^ 64)%Z → eth_hashes_ok proposer rlp_block (received evs) →
  (∀ h hash s, make h hash = Ok s → sink_layers s = []) →
  New DefaultParameters verify cs_nil pl_nil u (k, []) n = Ok (cfg, e0) →
  let e := run (H1:=Logged (H:=tracker_sink make fin)) (H2:=Logged_exec (H:=tracker_executor)) cfg proposer rlp_block e0 evs in
  let t := (e_node e).1.1 in
  match e_fatal e with
  | Some er => engine_fault (T:=T) (P:=P) (X:=X) (Body:=Body) make er
  | None => e_phase e = phaseLive →
      tracker_inv t ∧ t_finalizedHeight t = (LastAccepted e).1 ∧ t_finalizedHash t = (LastAccepted e).2
  end.
Proof.
  intros Hh Hx Hm Hn e t. set (F := engine_fault (T:=T) (P:=P) (X:=X) (Body:=Body) make).
  assert (errors_ok (T:=T) (P:=P) (λ _, F)) as He
    by (split; intros _; [by eapply ef_add|by eapply ef_poll|by eapply ef_init|by eapply ef_polls|apply ef_start|apply ef_fuel]).
  pose proof (tracker_sink_ok make fin Hm cfg proposer rlp_block (received evs) Hx F (ef_sink make)
    ltac:(intros; by eapply ef_exec)) as Hs.
  pose proof (engine_ok_log cfg proposer rlp_block _ _ _ _ e
    (run_engine_ok (HX:=tracker_executor) (ExecutorLaws0:=tracker_executor_laws) proposer rlp_block (received evs)
    DefaultParameters verify cs_nil pl_nil cfg (λ _, F) _ _ u k n e0 evs (λ _ Hr, Hr) Hh (λ _ _ _ _ Hf, Hf) Hs He I Hn)) as Hl.
  destruct (e_fatal e); [done|]. intros Hp. rewrite Hp in Hl. destruct Hl as [_ []]. done.
Qed.

Lemma cx_eth_ok rcv : eth_hashes_ok cx_proposer cx_rlp rcv.
Proof. intros c c' (b & -> & _)%cx_parsed (b' & -> & _)%cx_parsed Hid. cbn in Hid. by apply cx_eth_inj in Hid as ->. Qed.

Lemma engine_drives_tracker_witness :
  let t := (e_node (cx_run None cx_accepted)).1.1 in
  tracker_inv t ∧ t_finalizedHeight t = u64_lit 11 ∧ t_finalizedHash t = cx_eth (byte_lit 11).
Proof.
  pose proof (engine_drives_tracker cx_make (λ x _, x) cx_proposer cx_rlp cx_params (λ _, None) (MkTiny ∅ arr_zero arr_zero) ∅
    (cx_user None) cx_node0 (MkQuiet u_zero 0) (cx_cfg None) cx_start cx_accepted
    ltac:(vm_compute; reflexivity) (cx_eth_ok _) ltac:(intros h hash s [= <-]; reflexivity) eq_refl) as Hm.
  cbv zeta in Hm. change (tracker_sink cx_make (λ x _, x)) with cx_tracker_sink in Hm. change tracker_executor with cx_executor in Hm.
  assert (e_fatal (cx_run None cx_accepted) = None) as Hf by (vm_compute; reflexivity). rewrite Hf in Hm.
  destruct Hm as (Hi & H1 & H2); [vm_compute; reflexivity|].
  assert (LastAccepted (cx_run None cx_accepted) = (u64_lit 11, cx_eth (byte_lit 11))) as Hla by eval_decide.
  rewrite Hla in H1, H2. cbn [fst snd] in H1, H2. by split_and!.
Defined.

(** (C24) The anchor has a quorum behind it.  In any run, an engine that has left
    its first phase has an anchor that at least [AlphaPreference] different nodes
    named as their accepted block, all in answer to one and the same request; later
    events never change it. *)
Theorem anchor_quorum {T P K N Body : Type} `{Consensus T Body, PollSet P T, EngineSink K, Executor K Body, Net N}
    (proposer : bytes → option (Hash * Hash * bytes)) (rlp_block : bytes → option (EthBlock Body))
    (DefaultParameters : Parameters) (verify : Parameters → option error) (cs_nil : T) (pl_nil : P)
    (u : UserConfig) (k : K) (n : N) (cfg : Config) (e0 : Engine T P K N Body) (evs evs' : list event) :
  New DefaultParameters verify cs_nil pl_nil u k n = Ok (cfg, e0) →
  let e := run cfg proposer rlp_block e0 evs in
  e_phase e ≠ phasePollAnchor →
  quorum cfg evs (e_anchorID e) ∧
  e_phase (run cfg proposer rlp_block e evs') ≠ phasePollAnchor ∧
  e_anchorID (run cfg proposer rlp_block e evs') = e_anchorID e.
Proof.
  intros Hn e Hp. split.
  - destruct (run_quorum cfg proposer rlp_block e0 evs) as [[? _]|[_ Hq]]; [by eapply New_poll_state|done|done].
  - revert Hp. generalize e. clear. induction evs' as [|ev evs' IH]; intros e Hp; [done|].
    destruct (settled_handle cfg proposer rlp_block e ev Hp) as [Hp' <-]. by apply IH.
Qed.

Lemma anchor_quorum_witness :
  quorum (cx_cfg None) cx_polled (cx_id (byte_lit 10)).
Proof.
  assert (e_anchorID (cx_run None cx_polled) = cx_id (byte_lit 10)) as Ha by eval_decide. rewrite <-Ha.
  apply (anchor_quorum cx_proposer cx_rlp cx_params (λ _, None) (MkTiny ∅ arr_zero arr_zero) ∅ (cx_user None)
    (cx_node0, []) (MkQuiet u_zero 0) (cx_cfg None) cx_start cx_polled []); [reflexivity|].
  vm_compute. discriminate.
Defined.

(** (C25) The backfilled chain is linked.  In any run without a fatal error that
    receives fewer than 2^64 containers, what an engine in its second phase has
    fetched is a chain without holes from the container the quorum named down to the
    lowest one: every height in between has one received container, and each is the
    child of the one below it, by container ID and by block hash. *)
Theorem backfill_linked {T P K N Body : Type} `{Consensus T Body, !ConsensusLaws T Body, PollSet P T}
    `{EngineSink K, Executor K Body, !ExecutorLaws K Body, Net N}
    (proposer : bytes → option (Hash * Hash * bytes)) (rlp_block : bytes → option (EthBlock Body))
    (DefaultParameters : Parameters) (verify : Parameters → option error) (cs_nil : T) (pl_nil : P)
    (u : UserConfig) (k : K) (n : N) (cfg : Config)
    (e0 : Engine T P (K * list sink_event) N Body) (evs : list event) (low : Container Body) :
  (Z.of_nat (length (received evs)) < 2 ^ 64)%Z →
  New DefaultParameters verify cs_nil pl_nil u (k, []) n = Ok (cfg, e0) →
  let e := run cfg proposer rlp_block e0 evs in
  e_fatal e = None → e_phase e = phaseBackfill → e_bfLow e = Some low →
  ∃ anchor, e_bfAnchor e = Some anchor ∧ chain_ok proposer rlp_block (received evs) (e_anchorID e) (e_bfChain e) anchor low.
Proof.
  intros Hh Hn e Hf Hp Hlow.
  assert (engine_ok cfg proposer rlp_block (received evs) (λ _ _, True) (λ _, True) (λ _ _ _ _, True) e)
    as [(er & He & _)|[(_ & Hp' & _)|[(_ & _ & _ & _ & _ & Hb)|(_ & _ & Hl)]]]; [|congruence|congruence|..].
  { eapply run_engine_ok; [done|done|done|apply any_sink|apply any_errors|done|exact Hn]. }
  - rewrite Hlow in Hb. by destruct Hb as [_ Hb].
  - pose proof (li_phase _ _ _ _ _ _ _ _ Hl). congruence.
Qed.

(** The chain 10, 9 below the anchor of the example, on the way to the resume
    point 8. *)
Definition cx_resume : option Anchor := Some (MkAnchor (u64_lit 8) None).
Definition cx_backfilled : list event :=
  cx_polled ++ [EvContainer (cx_node 1) [byte_lit 10]; EvContainer (cx_node 1) [byte_lit 9]].

Lemma backfill_linked_witness :
  ∃ anchor, chain_ok cx_proposer cx_rlp (received cx_backfilled) (cx_id (byte_lit 10)) (e_bfChain (cx_run cx_resume cx_backfilled)) anchor
    (cx_container (byte_lit 9)).
Proof.
  assert (e_anchorID (cx_run cx_resume cx_backfilled) = cx_id (byte_lit 10)) as Ha by eval_decide. rewrite <-Ha.
  destruct (backfill_linked cx_proposer cx_rlp cx_params (λ _, None) (MkTiny ∅ arr_zero arr_zero) ∅ (cx_user cx_resume)
    cx_node0 (MkQuiet u_zero 0) (cx_cfg cx_resume) cx_start cx_backfilled
    (cx_container (byte_lit 9)) ltac:(vm_compute; reflexivity) eq_refl) as (anchor & _ & Hc);
    [vm_compute; reflexivity|vm_compute; reflexivity|vm_compute; reflexivity|by exists anchor].
Defined.


(** Containers 12 and 13 wait for 11: a vote for 13 is blocked on 11. *)
Definition cx_waiting : list event :=
  cx_went_live ++ [EvContainer (cx_node 1) [byte_lit 12]; EvContainer (cx_node 1) [byte_lit 13]].



(** (C32) Issuing a container ends.  When a new container arrives at a live
    engine, the recursion over the containers that wait for their parents ends
    within the bound [addContainer] gives it, in the state the unbounded
    specification reaches, and then the votes parked on the container are
    applied. *)
Theorem issue_terminates {T P K N Body : Type} `{Consensus T Body, PollSet P T, EngineSink K, Executor K Body, Net N}
    (cfg : Config) (e : Engine T P K N Body) (c : Container Body) :
  keyed_recs (e_recs e) → e_recs e !! c_ID c = None → c_ID c ≠ e_lastAcceptedID e →
  (e_lastAcceptedHeight e < eb_Number (c_Eth c))%Z →
  let r := MkRec c (eb_Hash (c_Eth c)) false in
  ∃ e', issues (eset_recs (<[c_ID c:=r]> (e_recs e)) e) r e' ∧
    addContainer cfg e c =
      match e_parked e' !! c_ID c with
      | Some votes => applyVotes cfg (eset_parked (delete (c_ID c) (e_parked e')) e') votes
      | None => e'
      end.
Proof.
  intros Hk Hn Hid Hh r. set (e1 := eset_recs _ e). exists (tryIssue (S (size (e_recs e1))) e1 r). split.
  - apply tryIssue_issues; [|apply lookup_insert_eq|].
    + unfold e1. cbn. by intros id r0 [[<- <-]|[_ Hr]]%lookup_insert_Some; [|apply Hk].
    + apply Nat.lt_succ_r. unfold unissued. apply map_size_filter.
  - unfold addContainer. rewrite bool_decide_false by (rewrite Hn; by intros [? ?]).
    rewrite bool_decide_false by done. by rewrite (proj2 (Z.leb_gt _ _) Hh).
Qed.

(** The arrival of 11 issues 11, 12 and 13. *)
Lemma issue_terminates_witness :
  let e := cx_run None cx_waiting in
  let e' := addContainer (cx_cfg None) e (cx_container (byte_lit 11)) in
  (∃ e'', issues (eset_recs (<[cx_id (byte_lit 11):=MkRec (cx_container (byte_lit 11)) (cx_eth (byte_lit 11)) false]>
     (e_recs e)) e) (MkRec (cx_container (byte_lit 11)) (cx_eth (byte_lit 11)) false) e'') ∧
  (r_issued <$> e_recs e' !! cx_id (byte_lit 13)) = Some true.
Proof.
  cbv zeta. split; [|vm_compute; reflexivity].
  destruct (issue_terminates (cx_cfg None) (cx_run None cx_waiting) (cx_container (byte_lit 11))) as (e'' & He & _);
    [|vm_compute; reflexivity|eval_decide|vm_compute; reflexivity|exists e''; exact He].
  assert (map_Forall (λ id r, c_ID (r_c r) = id) (e_recs (cx_run None cx_waiting))) as Hm by eval_decide. exact Hm.
Defined.

(** Nobody asked the voters.  An engine that has not sent its first poll
    takes the first [AlphaPreference] different nodes that send it an unasked
    answer for request 0, whoever they are, for the quorum: their block is its
    anchor. *)
Theorem unsampled_anchor {T P K N Body : Type} `{Consensus T Body, PollSet P T, EngineSink K, Executor K Body, Net N}
    (proposer : bytes → option (Hash * Hash * bytes)) (rlp_block : bytes → option (EthBlock Body))
    (DefaultParameters : Parameters) (verify : Parameters → option error) (cs_nil : T) (pl_nil : P)
    (u : UserConfig) (k : K) (n : N) (cfg : Config) (e0 : Engine T P K N Body)
    (nodes : list NodeID) (pref prefAt id : Hash) (h : u64) :
  New DefaultParameters verify cs_nil pl_nil u k n = Ok (cfg, e0) →
  NoDup nodes → nodes ≠ [] → Z.of_nat (length nodes) = AlphaPreference cfg →
  let e := run cfg proposer rlp_block e0 ((λ n, EvChits n (u32_lit 0) pref prefAt id h) <$> nodes) in
  e_phase e = phaseBackfill ∧ e_anchorID e = id.
Proof.
  intros Hn Hd Hne Hl. apply run_chits; [..|done|done]; unfold New in Hn; (destruct (verify _); [done|]);
    injection Hn as _ <-; [done|by apply uint_eq|set_solver|]. cbn. rewrite lookup_empty. cbn. lia.
Qed.

Lemma unsampled_anchor_witness :
  let e := cx_run None [EvChits (cx_node 7) (u32_lit 0) arr_zero arr_zero (cx_id (byte_lit 66)) (u64_lit 66);
    EvChits (cx_node 8) (u32_lit 0) arr_zero arr_zero (cx_id (byte_lit 66)) (u64_lit 66)] in
  e_phase e = phaseBackfill ∧ e_anchorID e = cx_id (byte_lit 66).
Proof.
  apply (unsampled_anchor cx_proposer cx_rlp cx_params (λ _, None) (MkTiny ∅ arr_zero arr_zero) ∅ (cx_user None)
    (cx_node0, []) (MkQuiet u_zero 0) (cx_cfg None) cx_start [cx_node 7; cx_node 8]);
    [reflexivity|eval_decide|discriminate|reflexivity].
Defined.

(** A store that is ahead of the anchor: the backfill walks past the resume
    point 12 down to the first block, and then ends the engine. *)
Example resume_above_anchor :
  let down := (λ n, EvContainer (cx_node 1) [wrap (Z.of_nat n)]) <$> reverse (seq 0 11) in
  let e := cx_run (Some (MkAnchor (u64_lit 12) None)) (cx_polled ++ down) in
  size (e_bfChain e) = 11 ∧ e_fatal e = Some (ErrMsg "consensus").
Proof. vm_compute. split; reflexivity. Qed.
