(* ===== verification/MainNet.v ===== *)
(** * MainNet: the network side

    The main theorems about the request client, dialing and the refresh of the validator
    set. *)

From stdpp Require Import strings.
From S2P Require Import Prelude Schema ConsensusState Net NetClient.

(** ** The request client *)

(** (C18) Whatever the schedule of concurrent calls, responses, timeouts and
    failures, while fewer than 2^31 requests have been made: the counter of a peer is
    the number of calls that use it, at most the configured one (6 by default); the
    tokens in the semaphore are the calls that hold one, within its capacity; every
    request in use has an even ID of its own; a response reaches the call that made
    the request, and finds its channel empty, so that the network goroutine is never
    blocked; and when every call has returned no peer, slot or request is left
    counted. *)
Theorem netclient_invariant inflight perPeer c ts k :
  nreach inflight perPeer (c, ts) k → (Z.of_nat k < 2 ^ 31)%Z →
  (∀ node, outstanding_of c node = Z.of_nat (count (at_peer node) ts) ∧
     (outstanding_of c node ≤ if (perPeer <=? 0)%Z then 6 else perPeer)%Z) ∧
  nc_sem c = count has_slot ts ∧ (Z.of_nat (nc_sem c) ≤ if (inflight <=? 0)%Z then 320 else inflight)%Z ∧
  (∀ tid tid' cl cl' id, ts !! tid = Some cl → ts !! tid' = Some cl' → request_of cl = Some id → request_of cl' = Some id →
     tid = tid' ∧ Z.even (uval id) = true) ∧
  (∀ id tid c', OnAppResponse c id = (Some tid, c') →
     ∃ cl, ts !! tid = Some cl ∧ request_of cl = Some id ∧ channel cl = None) ∧
  ((∀ tid cl, ts !! tid = Some cl → ∃ r, cl_stage cl = Done r) →
     (∀ node, outstanding_of c node = 0%Z) ∧ nc_sem c = 0 ∧ nc_pending c = ∅).
Proof.
  intros Hr Hk. pose proof (nreach_inv _ _ _ _ Hr Hk) as Hi. destruct (nreach_config _ _ _ _ Hr) as [Hpp Hin].
  pose proof Hi as ([_ Hc Hmax] & [Hs Hsm] & [_ Hev Hd Hp _]). cbn in *. rewrite Hpp in Hmax. split_and!; try done.
  - rewrite Hin in Hsm. destruct (Z.leb_spec inflight 0); lia.
  - intros tid tid' cl cl' id Hl Hl' Hq Hq'. split; [by eapply Hd|]. destruct (Hev tid cl id Hl Hq) as (m & _ & ->).
    by rewrite Z.even_mul.
  - intros id tid c' [= Hl _]. by apply Hp.
  - by apply (idle_inv c ts k).
Qed.

(** A call that waits, with a second one that was given the same peer. *)
Definition nx_node : NodeID := arr_of [byte_lit 7].
Definition nx_c1 : NetClient := (pickPeer (NewNetClient 2 0) 0 0 [nx_node]).2.
Definition nx_c2 : NetClient := (new_request (set_sem nx_c1 1) 0).2.
Definition nx_c3 : NetClient := (pickPeer nx_c2 0 0 [nx_node]).2.
Definition nx_calls : gmap nat call :=
  <[1:=MkCall nx_node Picked]> (<[0:=MkCall nx_node (Waiting (u32_lit 2) None)]>
    (<[0:=MkCall nx_node Acquired]> (<[0:=MkCall nx_node Picked]> ∅))).

Lemma nx_reach : nreach 2 0 (nx_c3, nx_calls) 1.
Proof.
  apply (nr_step _ _ (nx_c2, <[0:=MkCall nx_node (Waiting (u32_lit 2) None)]>
    (<[0:=MkCall nx_node Acquired]> (<[0:=MkCall nx_node Picked]> ∅))) 0 _ 1); [|by apply ns_pick with 0%Z 0 [nx_node]].
  apply (nr_step _ _ (set_sem nx_c1 1, <[0:=MkCall nx_node Acquired]> (<[0:=MkCall nx_node Picked]> ∅)) 1 _ 0);
    [|by apply ns_request].
  apply (nr_step _ _ (nx_c1, <[0:=MkCall nx_node Picked]> ∅) 0 _ 0); [|apply ns_acquire; [done|vm_compute; lia]].
  apply (nr_step _ _ (NewNetClient 2 0, ∅) 0 _ 0); [apply nr_new|by apply ns_pick with 0%Z 0 [nx_node]].
Qed.

Lemma netclient_invariant_witness :
  outstanding_of nx_c3 nx_node = 2%Z ∧ nc_sem nx_c3 = count has_slot nx_calls ∧
  ∃ cl, nx_calls !! 0 = Some cl ∧ request_of cl = Some (u32_lit 2) ∧ channel cl = None.
Proof.
  destruct (netclient_invariant 2 0 nx_c3 nx_calls 1 nx_reach ltac:(lia)) as (_ & Hs & _ & _ & Hr & _).
  split; [reflexivity|split; [exact Hs|]].
  exact (Hr (u32_lit 2) 0 (OnAppResponse nx_c3 (u32_lit 2)).2 eq_refl).
Defined.

(** The peer of a request: from the peers connected, in any rotation, none is
    chosen only when each has as many requests as it may; one that is chosen has room,
    and is in cooldown only if every peer with room is; its counter, and no other, is
    one more; and releasing it restores every counter. *)
Theorem pick_peer_spec c now off peers :
  (∀ node, (0 ≤ outstanding_of c node)%Z) →
  match pickPeer c now off peers with
  | (None, c') => c' = c ∧ ∀ id, id ∈ peers → (nc_perPeer c ≤ outstanding_of c id)%Z
  | (Some id, c') =>
      id ∈ peers ∧ (outstanding_of c id < nc_perPeer c)%Z ∧
      (bad_at c now id = true → ∀ id', id' ∈ peers → (outstanding_of c id' < nc_perPeer c)%Z → bad_at c now id' = true) ∧
      (∀ node, outstanding_of c' node = (outstanding_of c node + if decide (id = node) then 1 else 0)%Z) ∧
      (∀ node, outstanding_of (releasePeer c' id) node = outstanding_of c node)
  end.
Proof.
  intros Hpos. pose proof (pickPeer_spec c now off peers) as Hs. destruct (pickPeer c now off peers) as [[id|] c'] eqn:E; cbn in Hs.
  - destruct Hs as (? & ? & ?). split_and!; [done..| |]; apply pickPeer_client in E as ->.
    + intros node. rewrite outstanding_insert. destruct (decide (id = node)) as [->|]; lia.
    + intros node. specialize (Hpos id). rewrite releasePeer_outstanding by (rewrite outstanding_insert, decide_True by done; lia).
      rewrite outstanding_insert. destruct (decide (id = node)) as [->|]; lia.
  - split; [|done]. unfold pickPeer in E. by destruct (pick_loop _ _ _ _); simplify_eq.
Qed.

Lemma pick_peer_spec_witness :
  (pickPeer nx_c3 0 3 [nx_node]).1 = Some nx_node ∧
  ∀ node, outstanding_of (releasePeer (pickPeer nx_c3 0 3 [nx_node]).2 nx_node) node = outstanding_of nx_c3 node.
Proof.
  split; [reflexivity|].
  pose proof (pick_peer_spec nx_c3 0 3 [nx_node]
    (λ node, eq_ind_r (λ z, (0 ≤ z)%Z) (Nat2Z.is_nonneg _) (pi_count _ _ (proj1 (nreach_inv 2 0 _ 1 nx_reach ltac:(lia))) node))) as H.
  exact (proj2 (proj2 (proj2 (proj2 H)))).
Defined.

(** ** The validator set *)

(** (C30) A refresh of the validator set: whatever the manager held, when every
    operation of it succeeds its weights are the fetched ones, summed per node and
    wrapped to 64 bits, and zero for every other node; when one fails, or nothing is
    logged, each weight is the old or the fetched one, and no peer is tracked.  The
    order in which the map is ranged over does not matter. *)
Theorem refresh_validators {M A : Type} `{ManagerLaws M} (order : gmap NodeID u64 → list (NodeID * u64)) (m : M)
    (vs : list (NodeID * u64)) (peers : result (list (PeerInfo A))) :
  (∀ ws, order ws ≡ₚ map_to_list ws) →
  match refresh order m (Ok vs) peers with
  | (m', _, Some _) => ∀ id, vm_GetWeight m' id = wrap (total_weight vs id)
  | (m', tracked, None) =>
      tracked = [] ∧ ∀ id, vm_GetWeight m' id = vm_GetWeight m id ∨ vm_GetWeight m' id = wrap (total_weight vs id)
  end.
Proof.
  intros Hord. unfold refresh. destruct (fetchWeights_total vs) as (ws & -> & Hw).
  pose proof (reconcileValidators_ok order m ws Hord) as Hr.
  destruct (reconcileValidators order m ws) as [[[[]|er] m'] rest].
  - intros id. by rewrite Hr, Hw.
  - split; [done|]. intros id. rewrite <-Hw. apply Hr.
Qed.

(** A manager that holds the weights in a map, none of them zero. *)
Abbreviation map_manager := (gmap NodeID u64).
Definition put_weight (m : map_manager) (id : NodeID) (z : Z) : result unit * map_manager :=
  if (z <? 0)%Z || (2 ^ 64 <=? z)%Z then (Err (ErrMsg "weight"), m)
  else (Ok (), if (z =? 0)%Z then delete id m else <[id:=wrap z]> m).
#[local] Instance map_validators : ValidatorManager map_manager := {|
  vm_GetValidatorIDs m := (map_to_list m).*1;
  vm_GetWeight m id := default u_zero (m !! id);
  vm_AddWeight m id w := put_weight m id (uval (default u_zero (m !! id)) + uval w);
  vm_RemoveWeight m id w := put_weight m id (uval (default u_zero (m !! id)) - uval w);
  vm_AddStaker m id w := put_weight m id (uval w)
|}.

Lemma put_weight_moves m id z : weight_moves m id (put_weight m id z) z.
Proof.
  unfold weight_moves, put_weight. destruct (Z.ltb_spec z 0), (Z.leb_spec (2 ^ 64) z); try done. cbn [orb].
  cbn [vm_GetWeight map_validators]. destruct (Z.eqb_spec z 0) as [->|].
  - rewrite lookup_delete_eq. split; [done|]. intros id' Hne. by rewrite lookup_delete_ne.
  - rewrite lookup_insert_eq. split; [by apply wrap_small|]. intros id' Hne. by rewrite lookup_insert_ne.
Qed.

#[local] Instance map_manager_laws : ManagerLaws map_manager.
Proof.
  split; intros; try apply put_weight_moves.
  - apply NoDup_fst_map_to_list.
  - cbn in *. destruct (m !! id) as [w|] eqn:E; [|done]. exfalso. apply H.
    apply list_elem_of_fmap. exists (id, w). split; [done|]. by apply elem_of_map_to_list.
Qed.

Definition vx_a : NodeID := arr_of [byte_lit 1].
Definition vx_b : NodeID := arr_of [byte_lit 2].
Definition vx_refresh : map_manager * list (NodeID * nat) * option nat :=
  refresh map_to_list (<[vx_a:=u64_lit 5]> ∅ : map_manager) (Ok [(vx_b, u64_lit 3); (vx_b, u64_lit 4)]) (Ok []).

Lemma refresh_validators_witness :
  vm_GetWeight vx_refresh.1.1 vx_b = wrap (total_weight [(vx_b, u64_lit 3); (vx_b, u64_lit 4)] vx_b) ∧
  vm_GetWeight vx_refresh.1.1 vx_a = wrap (total_weight [(vx_b, u64_lit 3); (vx_b, u64_lit 4)] vx_a).
Proof.
  assert (∀ id, vm_GetWeight vx_refresh.1.1 id = wrap (total_weight [(vx_b, u64_lit 3); (vx_b, u64_lit 4)] id)) as Hr.
  { exact (refresh_validators (A:=nat) map_to_list (<[vx_a:=u64_lit 5]> ∅ : map_manager)
      [(vx_b, u64_lit 3); (vx_b, u64_lit 4)] (Ok []) (λ ws, reflexivity _)). }
  exact (conj (Hr vx_b) (Hr vx_a)).
Defined.

Example vx_weights : uval (wrap (w:=64) (total_weight [(vx_b, u64_lit 3); (vx_b, u64_lit 4)] vx_b)) = 7%Z.
Proof. reflexivity. Qed.

(** ** Dialing *)

(** (C29) Joining the network.  Whatever the bootstrap node answers and whichever
    constructor fails: an error before the network is made starts nothing; an error
    after that closes the network, once and last, and starts no refresh loop; and on
    success the network is dispatched and left open, its refresh loop runs at a
    positive interval, its validators have the fetched weights, a peer has come, and
    the connected peers are those that came and did not leave.  From then on, over any
    turns of the refresh loop, every validator's weight is the one some fetched list
    gives it. *)
Theorem dial_network {M A Msg T F Cert : Type} `{ManagerLaws M, PeerTracker T F}
    (order : gmap NodeID u64 → list (NodeID * u64)) (NodeIDFromString : string → result NodeID)
    (ParseAddrPort : string → result A) (NewManager : M) (node_at : string → BootstrapNode A) (NewPeerTracker : result T)
    (NewTestNetworkConfig : u32 → result bytes) (ParseCertificate : bytes → result Cert) (NodeIDFromCert : Cert → NodeID)
    (NewTestNetwork : result unit) (NewCreator : result (Creator Msg)) (cfg : NetConfig)
    (conns conns' conns'' : list (NodeID * bool)) (w : wake) :
  (∀ ws, order ws ≡ₚ map_to_list ws) →
  (w = w_connected → h_connectedCh (foldl conn_step newHandler (conns ++ conns')) ≠ []) →
  match Dial order NodeIDFromString ParseAddrPort NewManager node_at NewPeerTracker NewTestNetworkConfig
          ParseCertificate NodeIDFromCert NewTestNetwork NewCreator cfg conns conns' conns'' w with
  | (Ok n, evs) =>
      (∃ me mid interval, evs = ev_NewNetwork me :: mid ++ [ev_RefreshLoop interval] ∧ ev_Dispatch ∈ mid ∧
         Forall uses_network mid ∧ (0 < interval)%Z) ∧
      (∃ id, (id, true) ∈ conns ++ conns') ∧
      (∀ id, IsConnected n id = default false (snd <$> last (filter (λ ev, ev.1 = id) (conns ++ conns' ++ conns'')))) ∧
      (∃ vs, bn_Validators (node_at (cfg_NodeURI (with_defaults cfg))) = Ok vs ∧
         (∀ id, vm_GetWeight (n_vdrs n) id = wrap (total_weight vs id)) ∧
         ∀ ticks, weights_from (vs :: fetched_lists ticks) (n_vdrs (refreshLoop (A:=A) order n ticks).1.1))
  | (Err _, evs) => evs = [] ∨ ∃ me mid, evs = ev_NewNetwork me :: mid ++ [ev_StartClose] ∧ Forall uses_network mid
  end.
Proof.
  intros Hord Hw. unfold Dial. set (node := node_at _).
  destruct (bn_NetworkID node) as [networkID|]; [|by left]. destruct (bn_BlockchainID node) as [chainID|]; [|by left].
  destruct (bn_Validators node) as [vs|]; [|by left]. destruct (fetchWeights_total vs) as (ws & -> & Hws).
  pose proof (reconcileValidators_ok order NewManager ws Hord) as Hr.
  destruct (reconcileValidators order NewManager ws) as [[[[]|] vdrs] rest]; [|by left].
  destruct NewPeerTracker as [tracker|]; [|by left]. destruct (NewTestNetworkConfig networkID) as [raw|]; [|by left].
  destruct (ParseCertificate raw) as [cert|]; [|by left]. destruct NewTestNetwork; [|by left].
  destruct NewCreator as [creator|]; [|right; by exists (NodeIDFromCert cert), []].
  destruct (dial_track _ _ _ _) as [r tracked]. set (mid := ev_Dispatch :: ((λ p, ev_ManuallyTrack p.1 p.2) <$> tracked)).
  assert (Forall uses_network mid) as Hmid by (constructor; [done|]; by apply Forall_fmap, Forall_true).
  destruct r; [|right; by exists (NodeIDFromCert cert), mid].
  pose proof (waitForPeer_ok conns conns' w Hw) as Hwait. destruct (waitForPeer _ _ w) as [[[]|] h];
    [|right; by exists (NodeIDFromCert cert), mid].
  destruct Hwait as [Hcame Hh]. split_and!.
  - exists (NodeIDFromCert cert), mid, (cfg_RefreshInterval (with_defaults cfg)). split_and!; [done|by left|done|].
    cbn. destruct (Z.leb_spec (cfg_RefreshInterval cfg) 0); [done|lia].
  - done.
  - intros id. rewrite <-(proj1 (handler_connected (conns ++ conns' ++ conns'') id)). unfold IsConnected, isConnected. cbn [n_handler].
    rewrite app_assoc, foldl_app. by rewrite (connected_fold h (foldl conn_step newHandler (conns ++ conns'))).
  - assert (∀ id, vm_GetWeight vdrs id = wrap (total_weight vs id)) as Hv by (intros id; by rewrite Hr, Hws).
    exists vs. split_and!; [done|exact Hv|]. intros ticks.
    match goal with |- context [refreshLoop order ?n ticks] => pose proof (refreshLoop_from (A:=A) order Hord [vs] n ticks) as Hl end.
    destruct (refreshLoop order _ ticks) as [[n' evs] stopped]. apply Hl. intros id. exists vs. split; [by left|apply Hv].
Qed.

(** A tracker that keeps nothing, and a node that knows one validator. *)
#[local] Instance unit_tracker : PeerTracker unit unit := {|
  pt_Connected t _ := t; pt_Disconnected t _ := t; pt_SelectPeer t := (None, t);
  pt_RegisterRequest t _ := t; pt_RegisterFailure t _ := t; pt_RegisterResponse t _ _ := t; pt_one := ()
|}.
Definition dx_creator : Creator nat :=
  MkCreator (λ _ _ _ _, Ok 1) (λ _ _ _ _, Ok 2) (λ _ _ _ _, Err (ErrMsg "too large")) (λ _ _ _ _ _, Ok 3).
Definition dx_node (peers : list (PeerInfo nat)) (_ : string) : BootstrapNode nat :=
  MkBootstrapNode (Ok (u32_lit 1)) (Ok arr_zero) (Ok [(vx_b, u64_lit 3); (vx_b, u64_lit 4)]) (Ok peers).
Definition dx_dial (peers : list (PeerInfo nat)) (conns' : list (NodeID * bool)) (w : wake) :
    result (Network map_manager nat unit) * list (net_event nat) :=
  Dial map_to_list (λ _, Err (ErrMsg "id")) (λ _, Err (ErrMsg "addr")) ∅ (dx_node peers) (Ok ()) (λ _, Ok []) Ok (λ _, vx_a)
    (Ok ()) (Ok dx_creator) (MkNetConfig "" 0 []) [] conns' [] w.

Lemma dial_network_witness :
  ∃ n evs, dx_dial [MkPeerInfo vx_b (Some 7) None] [(vx_b, true)] w_connected = (Ok n, evs) ∧
    IsConnected n vx_b = true ∧ vm_GetWeight (n_vdrs n) vx_b = u64_lit 7 ∧ ev_Dispatch ∈ evs ∧
    weights_from [[(vx_b, u64_lit 3); (vx_b, u64_lit 4)]]
      (n_vdrs (refreshLoop (A:=nat) map_to_list n [Some (Err (ErrMsg "rpc"), Ok []); None]).1.1).
Proof.
  assert (match (dx_dial [MkPeerInfo vx_b (Some 7) None] [(vx_b, true)] w_connected).1 with Ok _ => true | Err _ => false end
    = true) as Hok by (vm_compute; reflexivity).
  pose proof (dial_network map_to_list (λ _, Err (ErrMsg "id")) (λ _, Err (ErrMsg "addr")) ∅ (dx_node [MkPeerInfo vx_b (Some 7) None])
    (Ok ()) (λ _, Ok []) Ok (λ _, vx_a) (Ok ()) (Ok dx_creator) (MkNetConfig "" 0 []) [] [(vx_b, true)] [] w_connected
    (λ ws, reflexivity _) ltac:(done)) as Hd.
  change (Dial _ _ _ _ _ _ _ _ _ _ _ _ _ _ _ _) with (dx_dial [MkPeerInfo vx_b (Some 7) None] [(vx_b, true)] w_connected) in Hd.
  destruct (dx_dial [MkPeerInfo vx_b (Some 7) None] [(vx_b, true)] w_connected) as [[n|er] evs]; [|discriminate Hok].
  destruct Hd as ((me & mid & i & -> & Hdis & _) & _ & Hc & vs & Hvs & Hv & Hl). exists n. eexists. split; [reflexivity|].
  injection Hvs as <-. split_and!; [rewrite Hc; reflexivity|rewrite Hv; apply uint_eq; reflexivity|by right; apply elem_of_app; left|].
  exact (Hl [Some (Err (ErrMsg "rpc"), Ok []); None]).
Defined.

(** With no peer to track the network is closed again; so it is when nobody comes. *)
Example dial_closes :
  dx_dial [] [] w_timeout = (Err (ErrMsg "net: no peers to track"), [ev_NewNetwork vx_a; ev_Dispatch; ev_StartClose]) ∧
  dx_dial [MkPeerInfo vx_b (Some 7) None] [] w_timeout =
    (Err (ErrMsg "net: no peer connected"), [ev_NewNetwork vx_a; ev_Dispatch; ev_ManuallyTrack vx_b 7; ev_StartClose]).
Proof. split; reflexivity. Qed.

(** The number of validators the refresh logs is that of the new ones alone: the
    entries of known validators were deleted from the map it counts. *)
Example refresh_logs_new :
  (refresh (A:=nat) map_to_list (<[vx_b:=u64_lit 7]> ∅ : map_manager) (Ok [(vx_b, u64_lit 7)]) (Ok [])).2 = Some 0.
Proof. reflexivity. Qed.

(** Peers without a valid address are counted as tracked: [Dial] does not see that
    none is. *)
Example dial_tracks_nobody (node : string → result NodeID) (addr : string → result nat) :
  dial_track node addr (Ok [MkPeerInfo vx_a None None]) [] = (Ok 1, []).
Proof. reflexivity. Qed.
