(* ===== verification/MainFollower.v ===== *)
(** * MainFollower: what the follower program does

    The main theorems about the follower as a whole: the consensus engine over the
    node [cmd/follower] builds, live or dry. *)

From stdpp Require Import strings.
From S2P Require Import Prelude Schema Lmdb Capture World Store StoreRead StoreSpec StoreProof StoreReads StoreWrites.
From S2P Require Import Reader Mem MemProof Tipbus TipbusProof Exec ExecProof Node SinkProof NodeProof TrackerProof.
From S2P Require Import ConsensusState Consensus ConsensusInv ConsensusBoot ConsensusRun ConsensusTracker.
From S2P Require Import Net FollowerMain Follower FollowerLog FollowerExec FollowerProof FollowerDry FollowerOpen.
From S2P Require Import Loader SyncInv SyncKeys Sync SyncTrie SyncSound SyncRun SyncServe BaselineLoad.
From S2P Require Import Examples ExamplesSync ExamplesConsensus ExamplesFollower.

(** The errors that may end a follower: those of its executor, of the consensus
    object and the poll set, a chain that does not have the resume point, and an
    exhausted bound. *)
Inductive follower_fault {T P K Body : Type} `{Consensus T Body, PollSet P T, Executor K Body} : error → Prop :=
| ff_exec (k : K) parent (blk : EthBlock Body) er k' : ex_Execute k parent blk = (Err er, k') → follower_fault er
| ff_add (t : T) (c : Container Body) ds t' er : cs_Add t c = (ds, t', Some er) → follower_fault er
| ff_poll (t : T) votes (ds : list (decision Body)) t' er : cs_RecordPoll t votes = (ds, t', Some er) → follower_fault er
| ff_init pa id h tm er : cs_Initialize pa id h tm = Err er → follower_fault er
| ff_polls pa t er : pl_New pa t = Err er → follower_fault er
| ff_start : follower_fault (ErrMsg "consensus")
| ff_fuel : follower_fault (ErrMsg "fuel").

Lemma follower_errors {T P K Body} `{Consensus T Body, PollSet P T, Executor K Body} (ok : list sink_event → Prop) :
  errors_ok (T:=T) (P:=P) (Body:=Body) (λ l er, ok l → follower_fault (T:=T) (P:=P) (K:=K) (Body:=Body) er).
Proof.
  split; intros; [by eapply ff_add|by eapply ff_poll|by eapply ff_init|by eapply ff_polls|apply ff_start|apply ff_fuel].
Qed.

Section live.
Context {T P N env benv Body Receipts : Type}.
Context `{HC : Consensus T Body, !ConsensusLaws T Body, HP : PollSet P T, HN : Net N, LmdbLaws env, LmdbLaws benv}.
Context (keccak : bytes → Hash) (EmptyCodeHash : Hash) (evm : Header → Header → Body → evm_prog Receipts).
Context (DeriveSha : Receipts → Hash) (CreateBloom : Receipts → bytes).
Context (proposer : bytes → option (Hash * Hash * bytes)) (rlp_block : bytes → option (EthBlock Body)).
Context (DefaultParameters : Parameters) (verify : Parameters → option error) (cs_nil : T) (pl_nil : P).
Context (rcv : list bytes) (Hcount : (Z.of_nat (length rcv) < 2 ^ 64)%Z) (Heth : eth_headers_ok proposer rlp_block rcv).
Context (Hnf : ¬ any_fault (env:=env) (benv:=benv)).

Abbreviation LX := (live_executor (env:=env) (benv:=benv) keccak EmptyCodeHash evm DeriveSha CreateBloom).
Abbreviation run := (run (H1:=Logged (H:=live_sink)) (H2:=Logged_exec (H:=LX))).

Lemma live_laws : ExecutorLaws (H:=LX) (liveSink env benv) Body.
Proof. split. intros k parent blk b k'. apply live_Execute_law. Qed.

(** The invariant of the node after a run. *)
Lemma live_run_ok d be W0 a u n k cfg e0 evs :
  complete_store keccak d W0 a → open_live keccak d be = Ok (a, k) → uc_Resume u = Some a →
  New DefaultParameters verify cs_nil pl_nil u (k, []) n = Ok (cfg, e0) → (∀ raw, raw ∈ received evs → raw ∈ rcv) →
  let e : Engine T P (liveSink env benv * list sink_event) N Body := run cfg proposer rlp_block e0 evs in
  good_run (log e) →
  match e_fatal e with
  | Some er => follower_fault (T:=T) (P:=P) (H1:=LX) er
  | None => e_phase e = phaseLive → ∃ hash0 acc pub,
      good_log cfg proposer rlp_block rcv (log e) (LastAccepted e).1 (LastAccepted e).2 ∧
      live_ok keccak EmptyCodeHash evm DeriveSha CreateBloom proposer rlp_block rcv W0 (an_Height a) (e_node e).1 (log e)
        (LastAccepted e).1 (LastAccepted e).2 hash0 acc pub
  end.
Proof.
  intros Hst Hop Hres Hn Hin e Hgr.
  destruct (open_live_ok keccak proposer rlp_block rcv Hnf d be W0 a Hst) as (k0 & Hk0 & Hstart & _).
  rewrite Hop in Hk0. injection Hk0 as <-.
  assert (∃ want, cf_Resume cfg = Some (MkAnchor (an_Height a) want)) as Hr.
  { unfold New in Hn. destruct (verify _); [done|]. injection Hn as <- _. cbn. rewrite Hres. destruct a. by eexists. }
  pose proof (live_sink_ok keccak EmptyCodeHash evm DeriveSha CreateBloom cfg proposer rlp_block rcv Heth Hnf W0
    (an_Height a) [] Hr ltac:(done) (follower_fault (T:=T) (P:=P) (H1:=LX)) (λ k p b er k' Hx, ff_exec (H1:=LX) k p b er k' Hx)) as Hs.
  pose proof (engine_ok_log cfg proposer rlp_block rcv _ _ _ e (run_engine_ok (HX:=LX) (ExecutorLaws0:=live_laws) proposer
    rlp_block rcv DefaultParameters verify cs_nil pl_nil cfg _ _ _ u k n e0 evs Hin Hcount
    (λ l l' er Hl Hf Hg, Hf (good_run_mono l l' Hl Hg)) Hs (follower_errors good_run) Hstart Hn)) as Hl.
  destruct (e_fatal e); [by apply Hl|]. intros Hp. rewrite Hp in Hl. destruct Hl as [Hlog Hinv].
  destruct (Hinv Hgr) as (hash0 & acc & pub & Hok & _). by exists hash0, acc, pub.
Qed.
End live.

(** The containers of a run of the main loop are among those of its inputs. *)
Lemma received_take (ins : list main_input) k raw :
  raw ∈ received (omap input_event (take k ins)) → raw ∈ received (omap input_event ins).
Proof.
  unfold received. rewrite !list_elem_of_bind. intros (ev & Hraw & (i & Hi & Hev)%list_elem_of_omap).
  exists ev. split; [done|]. apply list_elem_of_omap. exists i. split; [|done].
  apply elem_of_take in Hi as (j & Hj & _). by eapply list_elem_of_lookup_2.
Qed.

(** (C1) The follower archives the chain it follows.  Open a live node over a
    complete store, start the engine at the store's resume point, and let messages
    and ticks reach the main loop, in any order and from any peers.  Assumed of the
    run: the databases do not fail; fewer than 2^64 containers are received, and no
    two of them whose blocks have one hash have different headers or parents; the
    sink gets fewer than 2^32 calls; what the EVM library writes for a block keeps
    the capture contract (a destruct comes before the account's other writes, and a
    destructed account with slots is written again), leaves no slots under a removed
    account, and fits a frame; and blocks with one hash were executed to one batch,
    which the follower does not check, as it never compares a body with its header.
    Then a fatal error is one of the executor, of the consensus library, a chain
    without the resume point, or an exhausted bound: never one of the tracker, the
    sink, the store or the bus.  Without one, a live engine has accepted a chain of
    blocks on top of the resume point, and published a chain on top of that, such that
    every block of both was executed on the world its predecessors leave; reads of the
    archive at every height from the resume point on answer the world after the
    accepted blocks up to there, every accepted block's diff is stored, the watermark
    is the last of them; memory and bus hold exactly the published chain; and a
    follower may be started again from the store at the last accepted block. *)
Theorem follower_archives {T P N env benv Body Receipts : Type} `{Consensus T Body, !ConsensusLaws T Body, PollSet P T}
    `{Net N, LmdbLaws env, LmdbLaws benv} (keccak : bytes → Hash) (EmptyCodeHash : Hash)
    (evm : Header → Header → Body → evm_prog Receipts)
    (DeriveSha : Receipts → Hash) (CreateBloom : Receipts → bytes)
    (proposer : bytes → option (Hash * Hash * bytes)) (rlp_block : bytes → option (EthBlock Body))
    (DefaultParameters : Parameters) (verify : Parameters → option error) (cs_nil : T) (pl_nil : P)
    (d0 : DB env) (be : benv) (W0 : world) (start : Anchor) (u : UserConfig) (n : N) (k : liveSink env benv) (cfg : Config)
    (e0 : Engine T P (liveSink env benv * list sink_event) N Body) (ins : list main_input) :
  (Z.of_nat (length (received (omap input_event ins))) < 2 ^ 64)%Z →
  eth_headers_ok proposer rlp_block (received (omap input_event ins)) →
  ¬ any_fault (env:=env) (benv:=benv) →
  complete_store keccak d0 W0 start → open_live keccak d0 be = Ok (start, k) → uc_Resume u = Some start →
  New DefaultParameters verify cs_nil pl_nil u (k, []) n = Ok (cfg, e0) →
  let LX := live_executor keccak EmptyCodeHash evm DeriveSha CreateBloom in
  let e := (main_loop (H1:=Logged (H:=live_sink)) (H2:=Logged_exec (H:=LX)) cfg proposer rlp_block e0 ins).1 in
  let '(h, hash) := LastAccepted e in
  let d := ls_db (e_node e).1 in
  let s := t_sink (ls_tracker (e_node e).1) in
  good_run (log e) →
  match e_fatal e with
  | Some er => follower_fault (T:=T) (P:=P) (H1:=LX) er
  | None => e_phase e = phaseLive → ∃ hash0 acc pub m x,
      accepts (log e) acc ∧ extends (an_Height start) hash0 acc h hash ∧ extends h hash pub m x ∧
      (∀ i b, (acc ++ pub) !! i = Some b →
         executed proposer rlp_block (received (omap input_event ins)) EmptyCodeHash evm DeriveSha CreateBloom (apply_batches W0 (take i (acc ++ pub))) b) ∧
      (∀ a slot (B : u64), (an_Height start ≤ B)%Z →
         (GetAccount keccak d a B).1 = Ok (account_answer (w_acct (world_at W0 acc B) a)) ∧
         (GetSlot keccak d a slot B).1 = Ok (w_slot (world_at W0 acc B) a slot)) ∧
      (∀ b, b ∈ acc → GetDiff d (Block b) = Ok b) ∧
      (acc ≠ [] → Finalized d = Ok (Some h) ∧
         complete_store keccak d (apply_batches W0 acc) (MkAnchor h (Some hash))) ∧
      sk_layers s = pub ∧ b_layers (sk_bus s) = pub ∧
      coherent (H:=db_reader keccak) (H0:=db_reader_laws keccak) (sk_st s) (apply_batches W0 acc) 0
  end.
Proof.
  intros Hcount Heth Hnf Hst Hop Hres Hn LX e.
  destruct (main_loop_run (H1:=Logged (H:=live_sink)) (H2:=Logged_exec (H:=LX)) cfg proposer rlp_block e0 ins) as [k' He].
  fold e in He. set (evs := omap input_event (take k' ins)) in He. clearbody e. subst e.
  set (e := run _ _ _ e0 evs). destruct (LastAccepted e) as [h hash] eqn:Ela. intros d s Hgr.
  pose proof (live_run_ok keccak EmptyCodeHash evm DeriveSha CreateBloom proposer rlp_block DefaultParameters verify cs_nil
    pl_nil _ Hcount Heth Hnf d0 be W0 start u n k cfg e0 evs Hst Hop Hres Hn (received_take ins k') Hgr) as Hl.
  fold LX in Hl. fold e in Hl. destruct (e_fatal e) as [er|]; [exact Hl|]. intros Hp.
  destruct (Hl Hp) as (hash0 & acc & evs' & Hgl & Hok). rewrite Ela in Hgl, Hok. cbn [fst snd] in Hgl, Hok.
  edestruct (live_published_chain (env:=env) (benv:=benv)) as (Hly & Hbus & Hmem); [exact Hgr|exact Hok|].
  pose proof Hok as [_ _ _ Hac Hch _ _ _ (m & x & Hx) _ _ _ _ _ _ _].
  exists hash0, acc, (t_stack (ls_tracker (e_node e).1)), m, x. split_and!; try done.
  - by eapply (live_executed (env:=env) (benv:=benv)).
  - by eapply (live_reads (env:=env) (benv:=benv)).
  - by eapply (live_diffs (env:=env) (benv:=benv)).
  - by eapply (live_restart (env:=env) (benv:=benv)).
Qed.

(** The example follower accepts block 101 over the baseline at height 100. *)
Lemma follower_archives_witness :
  let e := fx_run fx_events in
  e_fatal e = None ∧ LastAccepted e = (u64_lit 101, cx_eth (byte_lit 101)) ∧
  ∃ hash0 acc, extends ex_S hash0 acc (u64_lit 101) (cx_eth (byte_lit 101)) ∧
    (∀ a slot (B : u64), (ex_S ≤ B)%Z →
       (GetAccount ex_keccak (ls_db (e_node e).1) a B).1 = Ok (account_answer (w_acct (world_at empty_world acc B) a)) ∧
       (GetSlot ex_keccak (ls_db (e_node e).1) a slot B).1 = Ok (w_slot (world_at empty_world acc B) a slot)) ∧
    (∀ b, b ∈ acc → GetDiff (ls_db (e_node e).1) (Block b) = Ok b).
Proof.
  destruct fx_ends as (Hf & Hp & Hla). split; [exact Hf|split; [exact Hla|]].
  pose proof (follower_archives (benv:=map_env) ex_keccak (ex_hash 99) fx_evm (λ _, arr_zero) (λ _, []) cx_proposer cx_rlp cx_params (λ _, None)
    (MkTiny ∅ arr_zero arr_zero) ∅ ex_db ∅ empty_world fx_start fx_user (MkQuiet u_zero 0) fx_node fx_cfg fx_engine (event_input <$> fx_events)
    fx_few (cx_headers_ok _) fx_no_fault fx_complete fx_opened eq_refl fx_new) as Hm.
  cbv zeta in Hm. rewrite fx_main_eq, Hla, Hf, fx_logged in Hm.
  destruct (Hm fx_good Hp) as (hash0 & acc & pub & m & x & _ & Hch & _ & _ & Hr & Hd & _).
  exists hash0, acc. exact (conj Hch (conj Hr Hd)).
Defined.

(** A dry run over any reader. *)
Lemma dry_run_ok {T P N db Body Receipts : Type} `{Consensus T Body, !ConsensusLaws T Body, PollSet P T}
    `{Net N, ReaderLaws db} (EmptyCodeHash : Hash) (evm : Header → Header → Body → evm_prog Receipts)
    (DeriveSha : Receipts → Hash) (CreateBloom : Receipts → bytes)
    (proposer : bytes → option (Hash * Hash * bytes)) (rlp_block : bytes → option (EthBlock Body))
    (DefaultParameters : Parameters) (verify : Parameters → option error) (cs_nil : T) (pl_nil : P)
    (W0 : world) (u : UserConfig) (n : N) (k : drySink db) (cfg : Config)
    (e0 : Engine T P (drySink db * list sink_event) N Body) (ins : list main_input) :
  (Z.of_nat (length (received (omap input_event ins))) < 2 ^ 64)%Z →
  eth_headers_ok proposer rlp_block (received (omap input_event ins)) →
  ¬ rd_faulty (db:=db) → dry_start proposer rlp_block (received (omap input_event ins)) W0 k →
  New DefaultParameters verify cs_nil pl_nil u (k, []) n = Ok (cfg, e0) →
  let DX := dry_executor EmptyCodeHash evm DeriveSha CreateBloom in
  let e := (main_loop (H1:=Logged (H:=dry_sink)) (H2:=Logged_exec (H:=DX)) cfg proposer rlp_block e0 ins).1 in
  let '(h, hash) := LastAccepted e in
  same_batches (log e) →
  match e_fatal e with
  | Some er => follower_fault (T:=T) (P:=P) (H1:=DX) er
  | None => e_phase e = phaseLive → ∃ h0 hash0 acc,
      start_ok cfg h0 hash0 ∧ accepts (log e) acc ∧ extends h0 hash0 acc h hash ∧
      ∀ x, ds_ex (e_node e).1 = Some x →
        exec_inv x W0 acc ∧
        ∀ i b, acc !! i = Some b →
          executed proposer rlp_block (received (omap input_event ins)) EmptyCodeHash evm DeriveSha CreateBloom (apply_batches W0 (take i acc)) b
  end.
Proof.
  intros Hcount Heth Hnf Hst Hn DX e.
  destruct (main_loop_run (H1:=Logged (H:=dry_sink)) (H2:=Logged_exec (H:=DX)) cfg proposer rlp_block e0 ins) as [k' He].
  fold e in He. set (evs := omap input_event (take k' ins)) in He. clearbody e. subst e.
  set (e := run _ _ _ e0 evs). destruct (LastAccepted e) as [h hash] eqn:Ela. intros Hsame.
  assert (ExecutorLaws (H:=DX) (drySink db) Body) as HL.
  { split. intros k1 parent blk b k2 Hx. by apply dry_Execute_law in Hx as (? & ? & ? & _). }
  pose proof (dry_sink_ok EmptyCodeHash evm DeriveSha CreateBloom cfg proposer rlp_block _ Heth Hnf W0
    (follower_fault (T:=T) (P:=P) (H1:=DX)) (λ k p b er k' Hx, ff_exec (H1:=DX) k p b er k' Hx)) as Hs.
  pose proof (engine_ok_log cfg proposer rlp_block _ _ _ _ e (run_engine_ok (HX:=DX) (ExecutorLaws0:=HL) proposer rlp_block _
    DefaultParameters verify cs_nil pl_nil cfg _ _ _ u k n e0 evs (received_take ins k') Hcount
    (λ l l' er Hl Hf Hg, Hf (same_batches_mono l l' Hl Hg)) Hs (follower_errors same_batches) Hst Hn)) as Hl.
  destruct (e_fatal e); [by apply Hl|]. intros Hp. rewrite Hp in Hl. destruct Hl as [Hlog Hinv].
  destruct (Hinv Hsame) as (h0 & hash0 & acc & Hok). unfold LastAccepted in Ela. injection Ela as <- <-.
  exists h0, hash0, acc. pose proof Hok as [Hr _ _ Hac Hch _ Hx _]. split_and!; [done..|]. intros x Ex.
  split; [by apply Hx|]. intros i b Hi. by eapply dry_executed; [..|exact Hok|eexists; exact Ex|].
Qed.

(** (C12) A dry run validates the chain and writes nothing.  Open one over a store
    that is only read, or without one, and let messages and ticks reach the main
    loop, in any order and from any peers.  Assumed of the run: the database does not
    fail; fewer than 2^64 containers are received, and no two of them whose blocks
    have one hash have different headers or parents; and blocks with one hash were
    executed to one batch, which the follower does not check.  Then an accepted block
    is always one the sink has kept, so that a fatal error is one of the executor, of
    the consensus library or of the start, or an exhausted bound.  Without one, the
    accepted blocks are a chain on top of the start, the resume point of the store if
    it has one, and with an executor every one of them was executed on the world of
    the store with its predecessors applied: the folded base of the executor is
    exactly the accepted chain, over the world the store still has. *)
Theorem dry_run_validates {T P N env Body Receipts : Type} `{Consensus T Body, !ConsensusLaws T Body, PollSet P T}
    `{Net N, LmdbLaws env} (keccak : bytes → Hash) (EmptyCodeHash : Hash) (evm : Header → Header → Body → evm_prog Receipts)
    (DeriveSha : Receipts → Hash) (CreateBloom : Receipts → bytes)
    (proposer : bytes → option (Hash * Hash * bytes)) (rlp_block : bytes → option (EthBlock Body))
    (DefaultParameters : Parameters) (verify : Parameters → option error) (cs_nil : T) (pl_nil : P)
    (W0 : world) (store : option (DB env)) (u : UserConfig) (n : N) (k : drySink (DB env)) (cfg : Config)
    (e0 : Engine T P (drySink (DB env) * list sink_event) N Body) (ins : list main_input) :
  (Z.of_nat (length (received (omap input_event ins))) < 2 ^ 64)%Z →
  eth_headers_ok proposer rlp_block (received (omap input_event ins)) →
  ¬ faults (env:=env) →
  (∀ d, store = Some d → (BaselineComplete d).1 = Ok true → db_serves keccak d Latest W0) →
  open_dry store = Ok (uc_Resume u, k) →
  New DefaultParameters verify cs_nil pl_nil u (k, []) n = Ok (cfg, e0) →
  let DX := dry_executor (H:=db_reader keccak) EmptyCodeHash evm DeriveSha CreateBloom in
  let e := (main_loop (H1:=Logged (H:=dry_sink)) (H2:=Logged_exec (H:=DX)) cfg proposer rlp_block e0 ins).1 in
  let '(h, hash) := LastAccepted e in
  same_batches (log e) →
  match e_fatal e with
  | Some er => follower_fault (T:=T) (P:=P) (H1:=DX) er
  | None => e_phase e = phaseLive → ∃ h0 hash0 acc,
      start_ok cfg h0 hash0 ∧ accepts (log e) acc ∧ extends h0 hash0 acc h hash ∧
      ∀ x, ds_ex (e_node e).1 = Some x →
        exec_inv (H:=db_reader keccak) (H0:=db_reader_laws keccak) x W0 acc ∧
        ∀ i b, acc !! i = Some b →
          executed proposer rlp_block (received (omap input_event ins)) EmptyCodeHash evm DeriveSha CreateBloom (apply_batches W0 (take i acc)) b
  end.
Proof.
  intros Hcount Heth Hnf Hs Hop Hn.
  exact (dry_run_ok (H2:=db_reader keccak) (H3:=db_reader_laws keccak) EmptyCodeHash evm DeriveSha CreateBloom proposer rlp_block
    DefaultParameters verify cs_nil pl_nil W0 u n k cfg e0 ins Hcount Heth Hnf
    (open_dry_start keccak proposer rlp_block _ W0 store (uc_Resume u) k Hs Hop) Hn).
Qed.

(** The dry run of the example accepts the same block. *)
Lemma dry_run_validates_witness :
  let e := fx_dry_run fx_events in
  e_fatal e = None ∧ ∃ h0 hash0 acc, start_ok fx_cfg h0 hash0 ∧ accepts fx_log acc ∧
    extends h0 hash0 acc (u64_lit 101) (cx_eth (byte_lit 101)).
Proof.
  destruct fx_dry_ends as (Hf & Hp & Hla). split; [exact Hf|].
  pose proof (dry_run_validates ex_keccak (ex_hash 99) fx_evm (λ _, arr_zero)
    (λ _, []) cx_proposer cx_rlp cx_params (λ _, None) (MkTiny ∅ arr_zero arr_zero) ∅ empty_world (Some ex_db) fx_user (MkQuiet u_zero 0) fx_dry
    fx_cfg fx_dry_engine (event_input <$> fx_events) fx_few (cx_headers_ok _)
    fx_no_faults fx_dry_served fx_dry_opened fx_dry_new) as Hm.
  cbv zeta in Hm. rewrite fx_dry_main_eq, Hla, Hf, fx_dry_logged in Hm.
  destruct (Hm fx_same Hp) as (h0 & hash0 & acc & Hr & Hac & Hch & _). exists h0, hash0, acc. exact (conj Hr (conj Hac Hch)).
Defined.

(** ** From the baseline to the follower *)

(** (C4) The loader's store is one the follower starts from.  Take a store without
    blocks, empty or left by interrupted loads, clients that answer with honest pages
    and code, and the root the node gives for the pivot.  Assumed too: storage is not
    resumed, or pages are full, or the store has no slots yet ([may_resume]; a store
    with slots and short pages may be left with a hole).  When the program returns
    without error, under any interleaving of the sync, its store, opened again, is
    complete: the follower resumes at the pivot, over the world of the state trie.
    The pivot is the height the store was begun with, whatever the head is by now;
    for a new one it is the flag's, or, for a head of 256 or more, the last summary
    boundary at least 256 blocks below the head. *)
Theorem baseline_load_complete {env : Type} `{LmdbLaws env} (keccak : bytes → Hash)
    (rlp_account : bytes → option LeafAccount) (rlp_content : bytes → option bytes) (vars : Vars) (maxCodeHashes fuel : nat)
    (scan_fuel : env → nat) {Raw : Type} (post : string → string → list string → result (Raw * option string))
    (json_string : Raw → result string) (json_block : Raw → result (string * string)) (HexToHash : string → Hash)
    (nodeURI : string) (dials : list (result Client)) (Trie : Hash → list leaf) (full : Prop) (height : u64) (ways : Z) (noResume : bool) (sched : list choice)
    (e : env) (d' : DB env) (s : u64) (root hash : Hash) :
  let vars' := SetSplitWays vars ways noResume in
  let blockNumber := rpcBlockNumber post json_string nodeURI in
  wf_db (contents e) → no_history (contents e) → contents e !! MetaFinalized = None →
  select_pivot height (Genesis (MkDB e u_zero false)).1 blockNumber = Ok s →
  rpcStateRoot post json_block HexToHash nodeURI s = Ok (root, hash) →
  bounds_ok rlp_account root vars' maxCodeHashes fuel scan_fuel Trie →
  (∀ c, Ok c ∈ dials → client_ok keccak c Trie full) →
  resumable keccak rlp_account rlp_content root vars' Trie full (contents e) → may_resume vars' full (contents e) →
  baseline_load keccak rlp_account rlp_content vars maxCodeHashes fuel scan_fuel post json_string json_block HexToHash nodeURI dials
    height ways noResume sched e = Some (Ok (), d') →
  complete_store keccak (MkDB (db_env d') u_zero false) (trie_world keccak rlp_account rlp_content root Trie) (MkAnchor s None) ∧
  match genesis_row (contents e) with
  | Some g => s = g ∧ (height = u_zero ∨ height = g)
  | None => s = height ∨ ∀ head, blockNumber = Ok head → (256 ≤ uval head)%Z →
      (s mod 16384 = 0)%Z ∧ (s ≤ head - 256 < s + 16384)%Z
  end.
Proof.
  intros vars' blockNumber Hwf Hno Hfin Hsel Hroot Hb Hcl Hres Hm. unfold baseline_load.
  destruct (Genesis_spec (MkDB e u_zero false) Hwf) as (Hg & He & Hc); [by split|].
  destruct (Genesis (MkDB e u_zero false)) as [g d]. cbn [fst snd] in *. fold blockNumber. rewrite Hsel, Hroot.
  destruct (dial_identities dials) as [clients|er] eqn:Hd; [|done]. apply dial_identities_ok in Hd as ->. intros Hrun.
  assert (∀ c, c ∈ clients → client_ok keccak c Trie full) as Hcl'.
  { intros c Hin. apply Hcl, list_elem_of_fmap. by exists c. }
  assert (rows d = contents e) as Hrows by (unfold rows; by rewrite He). split.
  - destruct (Run_outcome keccak rlp_account rlp_content s root vars' (muxClient clients) maxCodeHashes fuel scan_fuel Trie full
      Hb (mux_ok _ _ _ _ Hcl') sched d (Ok ()) d') as (Hwf' & _ & Hsy); rewrite ?Hrows; try done.
    eapply (synced_complete keccak rlp_account rlp_content root Trie (bo_tries _ _ _ _ _ _ _ Hb) _ (start_rows s d));
      [done|by split|done| |apply lookup_insert_eq|].
    + unfold start_rows. rewrite Hrows. destruct Hno as (? & ? & ? & ?). by split_and!; intros; rk.
    + unfold start_rows. rewrite Hrows. change MetaFinalized with (key_bytes KMetaFinalized) in *. by rk.
  - destruct Hg as [->|[_ [c ->]]]; [|done]. unfold rows in Hsel. cbn [db_env] in Hsel.
    destruct (genesis_row (contents e)) as [g0|]; [by eapply select_pivot_resumed|].
    destruct (decide (height = u_zero)) as [->|Hh].
    + right. intros head Hhead Hh. rewrite Hhead in Hsel. by eapply select_pivot_fresh.
    + left. unfold select_pivot in Hsel. cbn [rbind] in Hsel. rewrite bool_decide_false in Hsel by done. by injection Hsel.
Qed.

(** The example's load, with two identities and the height given.  The node answers
    for that height only. *)
Definition bx_post (url method : string) (params : list string) : result (string * option string) :=
  if decide (url = "https://node/ext/bc/C/rpc" ∧ method = "eth_getBlockByNumber" ∧ params = ["0x64"; "false"])%string
  then Ok ("root", None)%string else Ok ("", Some "unknown")%string.
Definition bx_hash (s : string) : Hash := if decide (s = "root")%string then sx_root else arr_zero.
Definition bx_load : option (result unit * DB map_env) :=
  baseline_load ex_keccak sx_rlp_account sx_rlp_content default_vars 5 sx_fuel sx_scan_fuel bx_post Ok
    (λ raw, Ok (raw, raw)) bx_hash "https://node/" [Ok sx_client; Ok sx_client] ex_S 16 false sx_sched sx_rows.

Lemma bx_client c : Ok c ∈ [Ok sx_client; Ok sx_client] → c = sx_client.
Proof. intros [[= ->]|[[= ->]|[]%elem_of_nil]%elem_of_cons]%elem_of_cons; done. Qed.

Lemma bx_load_ok : fst <$> bx_load = Some (Ok ()).
Proof. vm_compute. reflexivity. Qed.

Lemma baseline_load_complete_witness :
  ∃ d', bx_load = Some (Ok (), d') ∧
    complete_store ex_keccak (MkDB (db_env d') u_zero false) (trie_world ex_keccak sx_rlp_account sx_rlp_content sx_root sx_trie)
      (MkAnchor ex_S None).
Proof.
  destruct bx_load as [[r d']|] eqn:E; pose proof bx_load_ok as Ho; rewrite E in Ho; [|discriminate Ho].
  injection Ho as ->. exists d'. split; [reflexivity|].
  exact (proj1 (baseline_load_complete ex_keccak sx_rlp_account sx_rlp_content default_vars 5 sx_fuel sx_scan_fuel
    bx_post Ok (λ raw, Ok (raw, raw)) bx_hash "https://node/" [Ok sx_client; Ok sx_client] sx_trie False ex_S 16 false sx_sched
    sx_rows d' ex_S sx_root sx_root
    sx_wf sx_no_history (sx_rows_miss KMetaFinalized ltac:(discriminate)) ltac:(vm_compute; reflexivity) eq_refl sx_bounds
    (λ c Hc, eq_ind_r (λ c, client_ok ex_keccak c sx_trie False) sx_client_ok (bx_client c Hc))
    sx_resumable (or_intror (or_intror sx_no_slots)) E)).
Defined.

(** A chain shorter than the margin: the subtraction wraps around, and the loader is
    sent to a height far above any block. *)
Example pivot_wraps : select_pivot u_zero (Ok None) (Ok (u64_lit 100)) = Ok (u64_lit 18446744073709535232).
Proof. eval_decide. Qed.
